(* ===== verification/_CoqProject ===== *)
-Q . S2P
Prelude.v
Usize.v
BinInteger.v
SizeClass.v
Machine.v
Header.v
FreeIndex.v
Pool.v
Region.v
Alloc.v
Dealloc.v
Insert.v
Realloc.v
Iter.v
System.v
Flex.v
FlexInv.v
FlexGrow.v
FlexSpec.v
GlobalAlloc.v
Sources.v
Global.v
Threads.v
Override.v
Examples.v
FlexExamples.v
GlobalExamples.v
