(* ===== verification/Prelude.v ===== *)
(** * rlsf: a verified model of the TLSF allocator crate

    rlsf is a two-level segregated fit allocator.  The parts of the program
    and the files that model them (sources under src/crates/):

    - int.rs, the bit operations on machine integers of any width: [BinInteger].
    - tlsf.rs, [Tlsf], the allocator over pools of memory it is given:
      [SizeClass] (the constants and the mapping of sizes to lists), [Header]
      (the block headers in memory and the header structure), [FreeIndex] (the
      free lists, the bitmaps, the search), [Insert] (inserting and appending
      memory), [Alloc], [Dealloc] (with the size queries), [Realloc], [Iter]
      (the block iterator).
    - flex.rs and utils.rs, [FlexTlsf], which acquires its memory from a
      [FlexSource]: [Flex] (operations and the contract of the source),
      [FlexInv], [FlexGrow], [FlexSpec] (proofs and properties);
      [GlobalAllocAsFlexSource]: [GlobalAlloc].
    - global/unix.rs and global/wasm32.rs, the sources of memory of the
      operating system: [Sources] (Modules [Unix] and [Wasm32]).
    - global.rs, [GlobalTlsf], a [FlexTlsf] behind a mutex: [Global], and
      [Threads] for threads that share it.
    - rlsf_override/src/lib.rs, the C and C++ allocation functions:
      [Override].

    [Prelude] and [Usize] hold the outcomes, generic lemmas and the arithmetic
    of [usize]; [Machine] the memory, the monad and its total-correctness
    predicate [wp]; [Pool] and [Region] the abstract state of the allocator;
    [System] a client of [Tlsf] as a transition system.  [Examples],
    [FlexExamples] and [GlobalExamples] run the definitions and instantiate
    the properties.

    ** How the code is modelled

    A stateful method is a computation in [M S], from a state to a result and
    a state or an error ([Err]).  The state of [Tlsf] is the header structure
    (bitmaps and list heads) and the memory, a finite map from addresses to
    bytes that may be uninitialised.  Everything that lies in memory in the
    program lies in memory here: block headers, the back pointers in front of
    aligned payloads, the links of the free lists, the sentinels and the pool
    footers are words at their addresses, in the byte order of the target.  A
    dereference checks alignment, an access outside the mapped bytes or of an
    uninitialised byte is an error, arithmetic is that of [usize] and fails on
    overflow as in a debug build, and every [debug_assert!] is a check.  So "a
    method returns" means no panic, no failed assertion, no overflow and no
    undefined access.  The one assertion that does not always hold, in
    [increase_pool_to_contain_allocation], is compiled in when
    [debug_assertions] is set, and the theorems say what it needs.

    The word size (2, 4 or 8 bytes), the byte order and the parameters
    [FLBitmap], [SLBitmap], [FLLEN] and [SLLEN] are arbitrary within what the
    crate's own constants accept ([ParamsOk]).

    A method of [GlobalTlsf] is a sequence of actions ([method] in [Global]):
    locking, accesses to the allocator, unlocking.  [lock_inner] makes it from
    the rest of the method.  [run] is a call with nothing in between, which
    the specifications are about; [Threads] interleaves the actions of any
    number of threads.

    The abstract state ([Pool], [Region]) is a list of pools, each a list of
    blocks (free, or used by an allocation with its address, alignment and
    size).  [Inv s Ps] relates it to the concrete state: the pools are
    disjoint and tiled by aligned blocks, no two free blocks are adjacent,
    the headers in memory are those of the blocks, and [FreeIndex] holds: the
    lists linked through memory contain each free block once, in the list of
    its size, and the bitmaps say which lists are not empty.

    ** Interfaces

    [FlexSource] is the trait and [FlexSourceOk] its contract; [FlexTlsf] is
    proved against it, and it is discharged by [GlobalAllocAsFlexSource] (over
    the contract [GlobalAllocOk] of the standard library's trait), by the Unix
    source (over the documented behaviour [KernelOk] of [mmap], [munmap] and
    [sysconf]) and by the WebAssembly source ([InstructionsOk]).  [Mutex] is
    the mutex of an operating system module, with the contracts [MutexOk] (of
    a single thread) and [MutexExcl]; unix.rs has the second over the
    documented behaviour [PthreadOk] of the pthread functions.  [CAlloc] is
    the trait of global.rs and [CAllocOk] its contract; the C functions are
    proved against it and [GlobalTlsf] discharges it.  The hypotheses of the
    contracts are satisfiable: the example files contain implementations.

    ** What the theorems show

    - [System]: in every state a client can reach, every call that obeys the
      safety sections returns; allocations are aligned, mapped and disjoint;
      the structure of memory and the header structure are as described.
    - [Alloc], [Dealloc], [Realloc], [Insert], [Iter]: the outcome of each
      method on every branch, what it may write, that [allocate] finds a block
      whenever one of the size [pool_size_to_contain_allocation] exists, that
      it takes the first suitable list, that appended memory is merged with
      the end of its pool, that the usable size ends with the block, and that
      the loops end.
    - [FreeIndex], [SizeClass], [BinInteger]: linking, unlinking and searching
      refine operations on the set of free blocks; the size mappings are the
      mathematical ones; the bit operations are right for every width.
    - [FlexSpec], [GlobalAlloc]: the same safety for [FlexTlsf] over any
      source; allocation fails only when the pools cannot serve it and the
      source declines; [drop] ends and gives everything back.
    - [Sources], [Global], [Threads], [Override]: the sources keep their
      contract; both reallocation strategies of [GlobalTlsf] have one outcome;
      the methods that lock never use the allocator at the same time, are safe
      in every interleaving and can always be finished; every C
      function returns and keeps the program's blocks; [unix_malloc_safe]
      composes all layers down to the system calls.
    - [usable_size_race] is an interleaving of threads in which the one method
      of [GlobalTlsf] that does not lock goes wrong.

    ** Bounds and fuel

    Loops run on fuel that is computed from their input and proved to be
    enough: inserting memory has one iteration per granule at most
    ([insert_fuel]), the block iterator one per granule of the pool, [drop]
    one per mapped byte.

    ** Not modelled

    The [Debug], [Default], [Send] and [Sync] implementations and the crate
    root (lib.rs), which hold no behaviour; tests and benchmarks.  Provenance
    and aliasing of references are not part of the model.  What a method does
    between locking and unlocking is one action of its thread, which is
    justified by the absence of races that is proved; the reads of the method
    that does not lock are actions of their own.  The memory is that of the
    allocator's source, so the pointer [posix_memalign] stores its result
    through lies in a block of the heap.  C++ exceptions are the panic that the
    code has in their place. *)

From stdpp Require Export base gmap list numbers sorting.
From Stdlib Require Export ZArith Lia.
#[global] Open Scope Z_scope.

(** ** Outcomes

    A Rust computation either returns, panics, or has undefined behaviour.
    [Err] names every way the modelled code can go wrong in a debug build;
    the theorems of the development show that none of them is reached from a
    state that satisfies the allocator's invariant. *)
Inductive Err :=
  | UnmappedAccess   (* load or store outside the mapped bytes *)
  | UninitRead       (* load of a byte that was never written *)
  | Misaligned       (* dereference of a null or misaligned pointer *)
  | IndexOutOfRange  (* slice index out of range, checked or unchecked *)
  | AssertFailed     (* [assert!] / [debug_assert!] / [unreachable_unchecked] *)
  | Overflow         (* arithmetic overflow in a debug build *)
  | Panicked         (* an explicit [panic!], [unimplemented!], [abort] *)
  | Blocked          (* waiting for a mutex that is locked *)
  | OutOfFuel.       (* the bound put on a loop of the model was reached *)

#[export] Instance Err_eq_dec : EqDecision Err.
Proof. solve_decision. Defined.

Inductive Res (A : Type) :=
  | Ok (a : A)
  | Fail (e : Err).
Arguments Ok {A} a.
Arguments Fail {A} e.

#[export] Instance Res_ret : MRet Res := fun _ a => Ok a.
#[export] Instance Res_bind : MBind Res := fun _ _ f m =>
  match m with Ok a => f a | Fail e => Fail e end.
#[export] Instance Res_fmap : FMap Res := fun _ _ f m =>
  match m with Ok a => Ok (f a) | Fail e => Fail e end.

(** [assert!(b)] and [debug_assert!(b)]. *)
Definition check (b : bool) : Res unit := if b then Ok tt else Fail AssertFailed.

(** [o.unwrap_or_else(|| unreachable_unchecked())] preceded by a failing
    [debug_assert!]. *)
Definition expect {A} (o : option A) : Res A :=
  match o with Some a => Ok a | None => Fail AssertFailed end.

(** [o.filter(p)] with a boolean predicate. *)
Definition option_filter {A} (p : A -> bool) (o : option A) : option A :=
  match o with Some a => if p a then Some a else None | None => None end.

Lemma check_true b : b = true -> check b = Ok tt.
Proof. by intros ->. Qed.

Lemma Res_bind_Ok {A B} (m : Res A) (f : A -> Res B) b :
  (m ≫= f) = Ok b -> exists a, m = Ok a /\ f a = Ok b.
Proof. destruct m as [a|e]; simpl; [eauto|discriminate]. Qed.

(** ** Bits and alignment on [Z] *)

Lemma pow2_pos k : 0 <= k -> 0 < 2 ^ k.
Proof. intros. apply Z.pow_pos_nonneg; lia. Qed.

Lemma pow2_split n k : 0 <= k <= n -> 2 ^ n = 2 ^ (n - k) * 2 ^ k.
Proof. intros. rewrite <- Z.pow_add_r by lia. f_equal; lia. Qed.

Lemma pow2_le a b : 0 <= a <= b -> 2 ^ a <= 2 ^ b.
Proof. intros. apply Z.pow_le_mono_r; lia. Qed.

Lemma pow2_lt a b : 0 <= a < b -> 2 ^ a < 2 ^ b.
Proof. intros. apply Z.pow_lt_mono_r; lia. Qed.

Lemma pow2_succ a : 0 <= a -> 2 ^ (a + 1) = 2 * 2 ^ a.
Proof. intros. rewrite Z.pow_add_r by lia. lia. Qed.

(** Masking with [!(2^k - 1)] in an [n]-bit word rounds down to a multiple
    of [2^k]. *)
Lemma land_high_mask n k x :
  0 <= k <= n -> 0 <= x < 2 ^ n -> Z.land x (2 ^ n - 2 ^ k) = x - x mod 2 ^ k.
Proof.
  intros Hk Hx.
  replace (2 ^ n - 2 ^ k) with (Z.shiftl (Z.ones (n - k)) k).
  2: { rewrite Z.shiftl_mul_pow2, Z.ones_equiv by lia. rewrite (pow2_split n k) by lia. unfold Z.pred. ring. }
  replace (x - x mod 2 ^ k) with (Z.shiftl (Z.shiftr x k) k).
  2: { rewrite Z.shiftl_mul_pow2, Z.shiftr_div_pow2 by lia.
       rewrite Z.mod_eq; [ring|]. pose proof (pow2_pos k). lia. }
  apply Z.bits_inj'; intros i Hi.
  rewrite Z.land_spec, !Z.shiftl_spec by lia.
  destruct (decide (i < k)).
  - rewrite !(Z.testbit_neg_r _ (i - k)) by lia. apply andb_false_r.
  - rewrite Z.shiftr_spec by lia. replace (i - k + k) with i by lia.
    destruct (decide (i < n)).
    + rewrite Z.ones_spec_low by lia. apply andb_true_r.
    + destruct (decide (x = 0)) as [->|]; [by rewrite Z.bits_0|].
      rewrite (Z.bits_above_log2 x i); [done| lia |].
      apply Z.log2_lt_pow2; [lia|]. apply (Z.lt_le_trans _ (2 ^ n)); [lia|].
      apply pow2_le. lia.
Qed.

(** Rounding up to a multiple of [g]. *)
Definition round_up (g x : Z) : Z := (x + g - 1) - (x + g - 1) mod g.

Lemma round_up_spec g x :
  0 < g -> x <= round_up g x < x + g /\ (g | round_up g x).
Proof.
  intros Hg. unfold round_up.
  pose proof (Z.mod_pos_bound (x + g - 1) g Hg).
  split; [lia|]. apply Z.mod_divide; [lia|].
  rewrite Zminus_mod, Z.mod_mod, Z.sub_diag by lia. apply Z.mod_0_l; lia.
Qed.

Lemma round_up_le g x y : 0 < g -> (g | y) -> x <= y -> round_up g x <= y.
Proof.
  intros Hg [k ->] Hx. destruct (round_up_spec g x Hg) as [Hr [j Hj]].
  rewrite Hj in *. assert (j * g < (k + 1) * g) by lia.
  assert (j < k + 1) by nia. nia.
Qed.

Lemma round_up_mono g x y : 0 < g -> x <= y -> round_up g x <= round_up g y.
Proof.
  intros Hg Hx. apply round_up_le; [done|apply round_up_spec; done|].
  pose proof (proj1 (round_up_spec g y Hg)). lia.
Qed.

Lemma round_up_id g x : 0 < g -> (g | x) -> round_up g x = x.
Proof.
  intros Hg Hx. pose proof (round_up_le g x x Hg Hx ltac:(lia)). pose proof (round_up_spec g x Hg). lia.
Qed.

(** Multiples of [g] that differ are at least [g] apart. *)
Lemma divide_gap g x y : 0 < g -> (g | x) -> (g | y) -> x < y -> x + g <= y.
Proof. intros Hg [a ->] [b ->] H. assert (a < b) by nia. nia. Qed.

Lemma divide_gap_sub g x y : 0 < g -> (g | x) -> (g | y) -> x < y -> (g | y - x) /\ g <= y - x.
Proof. intros. split; [by apply Z.divide_sub_r|]. pose proof (divide_gap g x y ltac:(done) ltac:(done) ltac:(done)). lia. Qed.

Lemma divide_mod g x m : m <> 0 -> (g | x) -> (g | m) -> (g | x mod m).
Proof. intros Hm Hx Hd. rewrite Z.mod_eq by done. apply Z.divide_sub_r; [done|]. by apply Z.divide_mul_l. Qed.

Lemma divide_pos_le g x : 0 < g -> (g | x) -> 0 < x -> g <= x.
Proof. intros. apply Z.divide_pos_le; done. Qed.

Create HintDb aligned.
#[export] Hint Resolve Z.divide_add_r Z.divide_sub_r Z.divide_refl Z.divide_0_r
  Z.divide_mul_l Z.divide_mul_r : aligned.

(** ** Lists *)

(** The index as a [nat] of an array access at a [usize] position. *)
Notation "l !!ᶻ i" := (l !! Z.to_nat i) (at level 20).

Lemma lookup_replicate_Z {A} (n : Z) (x : A) (i : Z) :
  0 <= i < n -> replicate (Z.to_nat n) x !! Z.to_nat i = Some x.
Proof. intros. apply lookup_replicate_2. lia. Qed.

Lemma elem_of_Permutation_cons {A} (x : A) l : x ∈ l -> exists k, l ≡ₚ x :: k.
Proof. intros [k H]%elem_of_Permutation. eauto. Qed.

(** ** Automation *)

(** Splits conjunctions and existentials of the context. *)
Ltac destr_all :=
  repeat match goal with
  | H : _ /\ _ |- _ => destruct H
  | H : exists _, _ |- _ => destruct H
  | p : _ * _ |- _ => destruct p
  end.

(** Turns the boolean comparisons of the code into arithmetic. *)
Ltac bool_to_prop :=
  repeat match goal with
  | H : (_ <? _) = true |- _ => apply Z.ltb_lt in H
  | H : (_ <? _) = false |- _ => apply Z.ltb_ge in H
  | H : (_ <=? _) = true |- _ => apply Z.leb_le in H
  | H : (_ <=? _) = false |- _ => apply Z.leb_gt in H
  | H : (_ =? _) = true |- _ => apply Z.eqb_eq in H
  | H : (_ =? _) = false |- _ => apply Z.eqb_neq in H
  | H : (_ && _) = true |- _ => apply andb_true_iff in H as [??]
  | H : (_ || _) = false |- _ => apply orb_false_iff in H as [??]
  | H : negb _ = true |- _ => apply negb_true_iff in H
  | H : negb _ = false |- _ => apply negb_false_iff in H
  end.

Ltac case_bool :=
  match goal with
  | |- context [ if ?b then _ else _ ] => destruct b eqn:?; bool_to_prop
  end.

Tactic Notation "case_bool" "in" hyp(H) :=
  match type of H with
  | context [ if ?b then _ else _ ] => destruct b eqn:?; bool_to_prop
  end.
