(* ===== verification/Usize.v ===== *)
(** * The target machine and Rust's integer primitives

    Fixed-width integers are [Z] values kept in the range of their type, with
    wrap-around and overflow written out.  The crate is generic in
    [target_pointer_width]; [Target] fixes [size_of::<usize>()] (2, 4 or 8
    bytes) and the byte order, and everything after this file is generic in
    it.  The operations are those of [core]'s integer types the crate calls:
    checked, wrapping and saturating arithmetic, bit counts, rotations and
    [usize] masks. *)

From S2P Require Import Prelude.

Class Target := {
  WORD : Z;                 (* [size_of::<usize>()] *)
  big_endian : bool;
  target_ok : WORD = 2 \/ WORD = 4 \/ WORD = 8
}.

(** The targets the witnesses run on. *)
#[refine] Definition target64 : Target := {| WORD := 8; big_endian := false |}.
Proof. lia. Defined.
#[refine] Definition target32 : Target := {| WORD := 4; big_endian := true |}.
Proof. lia. Defined.
#[refine] Definition target16 : Target := {| WORD := 2; big_endian := false |}.
Proof. lia. Defined.

(** ** Bit counts, for any width *)

Fixpoint pos_trailing_zeros (p : positive) : Z :=
  match p with
  | (p~0)%positive => 1 + pos_trailing_zeros p
  | _ => 0
  end.

(** [x.trailing_zeros()] of a [bits]-wide integer; a negative value is the
    two's complement pattern, which has the trailing zeros of its opposite. *)
Definition trailing_zeros (bits x : Z) : Z :=
  match x with
  | Z0 => bits
  | Zpos p | Zneg p => pos_trailing_zeros p
  end.

(** [x.leading_zeros()]. *)
Definition leading_zeros (bits x : Z) : Z :=
  let u := x mod 2 ^ bits in
  if u =? 0 then bits else bits - 1 - Z.log2 u.

Fixpoint pos_count_ones (p : positive) : Z :=
  match p with
  | (p~0)%positive => pos_count_ones p
  | (p~1)%positive => 1 + pos_count_ones p
  | xH => 1
  end.

(** [x.count_ones()]. *)
Definition count_ones (bits x : Z) : Z :=
  match x mod 2 ^ bits with Zpos p => pos_count_ones p | _ => 0 end.

(** [x.is_power_of_two()] on an unsigned integer. *)
Definition is_power_of_two (x : Z) : bool := (0 <? x) && (x =? 2 ^ Z.log2 x).

(** [x.rotate_right(n)] of a [bits]-wide unsigned integer; the amount is a
    [u32] and is reduced modulo the width. *)
Definition rotate_right (bits x n : Z) : Z :=
  let n := n mod bits in
  Z.lor (Z.shiftr x n) (Z.shiftl x (bits - n) mod 2 ^ bits).

(** [u32] arithmetic. *)
Definition U32_MOD : Z := 2 ^ 32.
Definition u32_wrapping_sub (x y : Z) : Z := (x - y) mod U32_MOD.
Definition u32_sub (x y : Z) : Res Z := if y <=? x then Ok (x - y) else Fail Overflow.

Section Usize.
Context {T : Target}.

Definition USIZE_BITS : Z := 8 * WORD.
Definition USIZE_MOD : Z := 2 ^ USIZE_BITS.
Definition USIZE_MAX : Z := USIZE_MOD - 1.

Definition is_usize (x : Z) : Prop := 0 <= x < USIZE_MOD.

(** Arithmetic that panics on overflow in a debug build. *)
Definition uadd (x y : Z) : Res Z := if x + y <? USIZE_MOD then Ok (x + y) else Fail Overflow.
Definition usub (x y : Z) : Res Z := if y <=? x then Ok (x - y) else Fail Overflow.
Definition umul (x y : Z) : Res Z := if x * y <? USIZE_MOD then Ok (x * y) else Fail Overflow.

Definition wrapping_add (x y : Z) : Z := (x + y) mod USIZE_MOD.
Definition wrapping_sub (x y : Z) : Z := (x - y) mod USIZE_MOD.
Definition checked_add (x y : Z) : option Z := if x + y <? USIZE_MOD then Some (x + y) else None.
Definition checked_sub (x y : Z) : option Z := if y <=? x then Some (x - y) else None.
Definition checked_mul (x y : Z) : option Z := if x * y <? USIZE_MOD then Some (x * y) else None.
Definition saturating_sub (x y : Z) : Z := Z.max 0 (x - y).

(** [!x]. *)
Definition usize_not (x : Z) : Z := USIZE_MAX - x.

End Usize.

Arguments USIZE_BITS : simpl never.
Arguments USIZE_MOD : simpl never.
Arguments trailing_zeros : simpl never.
Arguments leading_zeros : simpl never.
Arguments rotate_right : simpl never.

(** ** Lemmas *)

Lemma pos_trailing_zeros_nonneg p : 0 <= pos_trailing_zeros p.
Proof. induction p; simpl; lia. Qed.

Lemma pos_trailing_zeros_spec p :
  Z.testbit (Zpos p) (pos_trailing_zeros p) = true /\
  forall i, 0 <= i < pos_trailing_zeros p -> Z.testbit (Zpos p) i = false.
Proof.
  induction p as [p _|p [IH1 IH2]|].
  - split; [done|]. intros i Hi. change (pos_trailing_zeros p~1) with 0 in Hi. lia.
  - change (Z.pos p~0) with (2 * Z.pos p).
    change (pos_trailing_zeros p~0) with (1 + pos_trailing_zeros p).
    pose proof (pos_trailing_zeros_nonneg p). split.
    + replace (1 + pos_trailing_zeros p) with (Z.succ (pos_trailing_zeros p)) by lia.
      by rewrite Z.testbit_even_succ by lia.
    + intros i Hi. destruct (decide (i = 0)) as [->|]; [by rewrite Z.testbit_even_0|].
      replace i with (Z.succ (i - 1)) by lia. rewrite Z.testbit_even_succ by lia.
      apply IH2. lia.
  - split; [done|]. intros i Hi. change (pos_trailing_zeros 1) with 0 in Hi. lia.
Qed.

Lemma trailing_zeros_spec bits x :
  x <> 0 ->
  0 <= trailing_zeros bits x /\
  Z.testbit x (trailing_zeros bits x) = true /\
  forall i, 0 <= i < trailing_zeros bits x -> Z.testbit x i = false.
Proof.
  intros Hx. destruct x as [|p|p]; [done| |]; unfold trailing_zeros.
  - pose proof (pos_trailing_zeros_nonneg p). by destruct (pos_trailing_zeros_spec p).
  - pose proof (pos_trailing_zeros_nonneg p).
    destruct (pos_trailing_zeros_spec p) as [H1 H2].
    set (n := pos_trailing_zeros p) in *.
    (* -(2^n * odd) = 2^n * odd' *)
    assert (Hm : Zpos p mod 2 ^ n = 0).
    { apply Z.bits_inj'; intros i Hi. rewrite Z.bits_0.
      destruct (decide (i < n)).
      - rewrite Z.mod_pow2_bits_low by lia. apply H2. lia.
      - apply Z.mod_pow2_bits_high. lia. }
    apply Z.mod_divide in Hm; [|pose proof (pow2_pos n); lia].
    destruct Hm as [q Hq].
    change (Z.neg p) with (- Z.pos p). rewrite Hq in *. split; [done|].
    rewrite Z.mul_pow2_bits in H1 by lia. rewrite Z.sub_diag in H1.
    rewrite <- Z.mul_opp_l. split.
    + rewrite Z.mul_pow2_bits, Z.sub_diag by lia.
      rewrite Z.bit0_odd in *. by rewrite Z.odd_opp.
    + intros i Hi. rewrite Z.mul_pow2_bits by lia. apply Z.testbit_neg_r. lia.
Qed.

Lemma trailing_zeros_pow2 bits k : 0 <= k -> trailing_zeros bits (2 ^ k) = k.
Proof.
  intros Hk. destruct (trailing_zeros_spec bits (2 ^ k)) as (H0 & H1 & H2).
  { pose proof (pow2_pos k). lia. }
  rewrite Z.pow2_bits_eqb in H1 by lia. apply Z.eqb_eq in H1. done.
Qed.

Lemma is_power_of_two_spec x : is_power_of_two x = true <-> exists k, 0 <= k /\ x = 2 ^ k.
Proof.
  unfold is_power_of_two. rewrite andb_true_iff, Z.ltb_lt, Z.eqb_eq. split.
  - intros [H E]. exists (Z.log2 x). split; [apply Z.log2_nonneg|done].
  - intros (k & Hk & ->). split; [by apply pow2_pos|]. by rewrite Z.log2_pow2.
Qed.

Lemma leading_zeros_pos bits x : 0 < x < 2 ^ bits -> leading_zeros bits x = bits - 1 - Z.log2 x.
Proof.
  intros H. unfold leading_zeros. rewrite Z.mod_small by lia.
  destruct (Z.eqb_spec x 0); [lia|done].
Qed.

Section UsizeLemmas.
Context {T : Target}.

Lemma WORD_pos : 2 <= WORD.
Proof. destruct target_ok as [->|[->| ->]]; lia. Qed.

Lemma USIZE_BITS_cases : USIZE_BITS = 16 \/ USIZE_BITS = 32 \/ USIZE_BITS = 64.
Proof. unfold USIZE_BITS. destruct target_ok as [->|[->| ->]]; lia. Qed.

Lemma USIZE_MOD_large : 256 * WORD <= USIZE_MOD.
Proof.
  unfold USIZE_MOD, USIZE_BITS. by destruct target_ok as [->|[->| ->]].
Qed.

Lemma uadd_ok x y : x + y < USIZE_MOD -> uadd x y = Ok (x + y).
Proof. intros H. unfold uadd. apply Z.ltb_lt in H. by rewrite H. Qed.
Lemma usub_ok x y : y <= x -> usub x y = Ok (x - y).
Proof. intros H. unfold usub. apply Z.leb_le in H. by rewrite H. Qed.
Lemma umul_ok x y : x * y < USIZE_MOD -> umul x y = Ok (x * y).
Proof. intros H. unfold umul. apply Z.ltb_lt in H. by rewrite H. Qed.
Lemma wrapping_add_small x y : is_usize (x + y) -> wrapping_add x y = x + y.
Proof. intros. by apply Z.mod_small. Qed.
Lemma wrapping_sub_small x y : is_usize (x - y) -> wrapping_sub x y = x - y.
Proof. intros. by apply Z.mod_small. Qed.

Lemma checked_add_Some x y z : checked_add x y = Some z <-> z = x + y /\ x + y < USIZE_MOD.
Proof. unfold checked_add. destruct (Z.ltb_spec (x + y) USIZE_MOD); split; intros; simplify_eq; destr_all; (congruence || lia). Qed.
Lemma checked_add_None x y : checked_add x y = None <-> USIZE_MOD <= x + y.
Proof. unfold checked_add. destruct (Z.ltb_spec (x + y) USIZE_MOD); split; intros; (congruence || lia). Qed.
Lemma checked_sub_Some x y z : checked_sub x y = Some z <-> z = x - y /\ y <= x.
Proof. unfold checked_sub. destruct (Z.leb_spec y x); split; intros; simplify_eq; destr_all; (congruence || lia). Qed.
Lemma checked_sub_None x y : checked_sub x y = None <-> x < y.
Proof. unfold checked_sub. destruct (Z.leb_spec y x); split; intros; (congruence || lia). Qed.

(** [x & !(2^k - 1)] rounds [x] down to a multiple of [2^k]. *)
Lemma land_usize_not k x :
  0 <= k <= USIZE_BITS -> is_usize x ->
  Z.land x (usize_not (2 ^ k - 1)) = x - x mod 2 ^ k.
Proof.
  intros Hk Hx. unfold usize_not, USIZE_MAX.
  replace (USIZE_MOD - 1 - (2 ^ k - 1)) with (USIZE_MOD - 2 ^ k) by lia.
  by apply land_high_mask.
Qed.

(** [(x + 2^k - 1) & !(2^k - 1)] rounds up. *)
Lemma land_round_up k x :
  0 <= k <= USIZE_BITS -> 0 <= x -> x + 2 ^ k - 1 < USIZE_MOD ->
  Z.land (x + 2 ^ k - 1) (usize_not (2 ^ k - 1)) = round_up (2 ^ k) x.
Proof.
  intros Hk Hx Hb. pose proof (pow2_pos k). rewrite land_usize_not; [done|lia|].
  unfold is_usize. lia.
Qed.

End UsizeLemmas.

