(* ===== verification/BinInteger.v ===== *)
(** * int.rs: the [BinInteger] trait

    The twelve implementations generated by [impl_binary_integer!] differ in
    width and signedness only; [IntTy] is the implementing type and each
    method is one definition.  A signed value is a negative [Z] in the two's
    complement range, whose low bits [Z.testbit] reads directly.  The lemmas
    specify every method by the bits of its result; the bitmaps of
    [Tlsf] are reasoned about through them only. *)

From S2P Require Import Prelude Usize.

Record IntTy := { int_bits : Z; int_signed : bool }.

Definition u8 := {| int_bits := 8; int_signed := false |}.
Definition u16 := {| int_bits := 16; int_signed := false |}.
Definition u32 := {| int_bits := 32; int_signed := false |}.
Definition u64 := {| int_bits := 64; int_signed := false |}.
Definition u128 := {| int_bits := 128; int_signed := false |}.
Definition i8 := {| int_bits := 8; int_signed := true |}.
Definition i16 := {| int_bits := 16; int_signed := true |}.
Definition i32 := {| int_bits := 32; int_signed := true |}.
Definition i64 := {| int_bits := 64; int_signed := true |}.
Definition i128 := {| int_bits := 128; int_signed := true |}.

(** The types the macro is applied to; [isize] and [usize] are the ones of
    the pointer width. *)
Definition int_types : list IntTy := [i8; i16; i32; i64; i128; u8; u16; u32; u64; u128].

Section BinInteger.
Context (I : IntTy).

Definition BITS : Z := int_bits I.
Definition ZERO : Z := 0.

Definition int_min : Z := if int_signed I then - 2 ^ (BITS - 1) else 0.
Definition int_max : Z := if int_signed I then 2 ^ (BITS - 1) - 1 else 2 ^ BITS - 1.
Definition in_range (v : Z) : Prop := int_min <= v <= int_max.
Definition in_rangeb (v : Z) : bool := (int_min <=? v) && (v <=? int_max).

(** Reduction of an integer to the type, as [wrapping_*] and shifts do. *)
Definition wrap (v : Z) : Z :=
  if int_signed I then (v + 2 ^ (BITS - 1)) mod 2 ^ BITS - 2 ^ (BITS - 1)
  else v mod 2 ^ BITS.

(** [1 << i]: the amount must be less than the width. *)
Definition shl1 (i : Z) : Res Z := if i <? BITS then Ok (wrap (2 ^ i)) else Fail Overflow.

(** [!v]. *)
Definition int_not (v : Z) : Z := wrap (Z.lnot v).

Definition ones_truncated (start stop : Z) : Res Z :=
  _ ← check (start <=? stop);
  if BITS <=? stop then
    s ← shl1 start; Ok (wrap (0 - s))
  else
    e ← shl1 stop; s ← shl1 start; Ok (wrap (e - s)).

Definition ones (start stop : Z) : Res Z :=
  _ ← check (stop <=? BITS);
  ones_truncated start stop.

Definition bit_scan_forward (self start : Z) : Res Z :=
  if BITS <=? start then Ok BITS
  else m ← ones 0 start; Ok (trailing_zeros BITS (Z.land self (int_not m))).

Definition extract_u32 (self start stop : Z) : Res Z :=
  m ← ones_truncated start stop;
  if start <? BITS then Ok (Z.shiftr (Z.land self m) start mod 2 ^ 32) else Fail Overflow.

Definition get_bit (self i : Z) : bool :=
  if i <? BITS then negb (Z.land self (wrap (2 ^ i)) =? 0) else false.

Definition set_bit (self i : Z) : Z :=
  if i <? BITS then Z.lor self (wrap (2 ^ i)) else self.

Definition clear_bit (self i : Z) : Z :=
  if i <? BITS then Z.land self (int_not (wrap (2 ^ i))) else self.

Definition checked_ceil_fix (self fp : Z) : Res (option Z) :=
  if BITS <=? fp then Ok (if self =? 0 then Some 0 else None)
  else
    mask ← ones 0 fp;
    Ok (if in_rangeb (self + mask) then Some (Z.land (self + mask) (int_not mask)) else None).

End BinInteger.

(** ** Bit-level lemmas *)

Class IntTyOk (I : IntTy) := int_bits_ok : 8 <= int_bits I <= 128.

#[export] Hint Extern 1 (IntTyOk _) => (red; simpl; lia) : typeclass_instances.

Section BinIntegerLemmas.
Context {I : IntTy} {Iok : IntTyOk I}.
Local Abbreviation BITS := (BITS I).

Lemma BITS_pos : 1 < BITS.
Proof. destruct Iok. unfold BinInteger.BITS. lia. Qed.

Lemma pow_BITS : 2 ^ BITS = 2 * 2 ^ (BITS - 1).
Proof. pose proof BITS_pos. rewrite <- pow2_succ by lia. f_equal. lia. Qed.

Lemma testbit_mod_eq a b n i :
  a mod 2 ^ n = b mod 2 ^ n -> 0 <= i < n -> Z.testbit a i = Z.testbit b i.
Proof.
  intros E Hi. rewrite <- (Z.mod_pow2_bits_low a n i), <- (Z.mod_pow2_bits_low b n i) by lia.
  by rewrite E.
Qed.

Lemma wrap_mod v : wrap I v mod 2 ^ BITS = v mod 2 ^ BITS.
Proof.
  pose proof BITS_pos. pose proof (pow2_pos BITS ltac:(lia)).
  unfold wrap. destruct (int_signed I).
  - rewrite Zminus_mod_idemp_l. f_equal. lia.
  - apply Z.mod_mod. lia.
Qed.

Lemma testbit_wrap v i : 0 <= i < BITS -> Z.testbit (wrap I v) i = Z.testbit v i.
Proof. intros. apply (testbit_mod_eq _ _ BITS); [apply wrap_mod|done]. Qed.

Lemma wrap_in_range v : in_range I (wrap I v).
Proof.
  pose proof BITS_pos. pose proof pow_BITS.
  unfold in_range, int_min, int_max, wrap. destruct (int_signed I).
  - pose proof (Z.mod_pos_bound (v + 2 ^ (BITS - 1)) (2 ^ BITS) ltac:(apply pow2_pos; lia)). lia.
  - pose proof (Z.mod_pos_bound v (2 ^ BITS) ltac:(apply pow2_pos; lia)). lia.
Qed.

Lemma wrap_id v : in_range I v -> wrap I v = v.
Proof.
  pose proof BITS_pos. pose proof pow_BITS.
  unfold in_range, int_min, int_max, wrap. intros Hv. destruct (int_signed I).
  - rewrite Z.mod_small; lia.
  - rewrite Z.mod_small; lia.
Qed.

(** A value of the type is determined by its [BITS] low bits. *)
Lemma in_range_ext a b :
  in_range I a -> in_range I b -> (forall i, 0 <= i < BITS -> Z.testbit a i = Z.testbit b i) -> a = b.
Proof.
  intros Ha Hb E. pose proof BITS_pos.
  assert (Hm : a mod 2 ^ BITS = b mod 2 ^ BITS).
  { apply Z.bits_inj'; intros i Hi. destruct (decide (i < BITS)).
    - rewrite !Z.mod_pow2_bits_low by lia. apply E. lia.
    - rewrite !Z.mod_pow2_bits_high by lia. done. }
  rewrite <- (wrap_id a), <- (wrap_id b) by done. unfold wrap. destruct (int_signed I); [|done].
  f_equal. rewrite <- Zplus_mod_idemp_l, Hm, Zplus_mod_idemp_l. done.
Qed.

(** Being in range, by bits: the bits above the width repeat the sign bit
    of a signed value and are clear in an unsigned one. *)
Definition sign_extended (v : Z) : Prop :=
  forall i, BITS <= i -> Z.testbit v i = int_signed I && Z.testbit v (BITS - 1).

Lemma in_range_sign_extended v : in_range I v -> sign_extended v.
Proof.
  pose proof BITS_pos. intros Hv i Hi. unfold in_range, int_min, int_max in Hv.
  destruct (int_signed I); simpl.
  - destruct (decide (0 <= v)).
    + rewrite <- (Z.mod_small v (2 ^ (BITS - 1))) by lia.
      rewrite !Z.mod_pow2_bits_high by lia. done.
    + rewrite <- (Z.lnot_involutive v), !(Z.lnot_spec (Z.lnot v)) by lia. f_equal.
      assert (0 <= Z.lnot v < 2 ^ (BITS - 1)) by (unfold Z.lnot; lia).
      rewrite <- (Z.mod_small (Z.lnot v) (2 ^ (BITS - 1))) by lia.
      rewrite !Z.mod_pow2_bits_high by lia. done.
  - rewrite <- (Z.mod_small v (2 ^ BITS)) by lia. apply Z.mod_pow2_bits_high. lia.
Qed.

Lemma sign_extended_in_range v : sign_extended v -> in_range I v.
Proof.
  pose proof BITS_pos. intros Hv. replace v with (wrap I v); [apply wrap_in_range|].
  apply Z.bits_inj'; intros i Hi. destruct (decide (i < BITS)).
  - by apply testbit_wrap.
  - rewrite (in_range_sign_extended _ (wrap_in_range v)), Hv by lia.
    by rewrite testbit_wrap by lia.
Qed.

Lemma land_in_range a b : in_range I a -> in_range I b -> in_range I (Z.land a b).
Proof.
  intros Ha%in_range_sign_extended Hb%in_range_sign_extended. apply sign_extended_in_range.
  intros i Hi. rewrite !Z.land_spec, Ha, Hb by done. by destruct (int_signed I).
Qed.

Lemma lor_in_range a b : in_range I a -> in_range I b -> in_range I (Z.lor a b).
Proof.
  intros Ha%in_range_sign_extended Hb%in_range_sign_extended. apply sign_extended_in_range.
  intros i Hi. rewrite !Z.lor_spec, Ha, Hb by done. by destruct (int_signed I).
Qed.

Lemma zero_in_range : in_range I 0.
Proof.
  apply sign_extended_in_range. intros i _. rewrite !Z.bits_0. by destruct (int_signed I).
Qed.

Lemma in_range_zero v :
  in_range I v -> (v = 0 <-> forall i, 0 <= i < BITS -> Z.testbit v i = false).
Proof.
  intros Hv. split; [intros -> ? _; apply Z.bits_0|].
  intros E. apply in_range_ext; [done|apply zero_in_range|].
  intros i Hi. rewrite Z.bits_0. by apply E.
Qed.

Lemma testbit_int_not v i : 0 <= i < BITS -> Z.testbit (int_not I v) i = negb (Z.testbit v i).
Proof. intros. unfold int_not. rewrite testbit_wrap, Z.lnot_spec by lia. done. Qed.

Lemma testbit_wrap_pow2 k i :
  0 <= i < BITS -> 0 <= k -> Z.testbit (wrap I (2 ^ k)) i = (k =? i).
Proof. intros. rewrite testbit_wrap, Z.pow2_bits_eqb by lia. done. Qed.

(** *** Single bits *)

Lemma get_bit_spec v i :
  in_range I v -> 0 <= i < BITS -> get_bit I v i = Z.testbit v i.
Proof.
  intros Hv Hi. unfold get_bit. destruct (Z.ltb_spec i BITS) as [Hlt|]; [|lia].
  assert (Hr : in_range I (Z.land v (wrap I (2 ^ i)))) by (apply land_in_range; [done|apply wrap_in_range]).
  destruct (Z.testbit v i) eqn:E.
  - apply negb_true_iff, Z.eqb_neq. intros H.
    rewrite in_range_zero in H by done. specialize (H i Hi).
    rewrite Z.land_spec, E, testbit_wrap_pow2, Z.eqb_refl in H by lia. done.
  - apply negb_false_iff, Z.eqb_eq, in_range_zero; [done|]. intros j Hj.
    rewrite Z.land_spec, testbit_wrap_pow2 by lia.
    destruct (Z.eqb_spec i j) as [<-|]; [by rewrite E|apply andb_false_r].
Qed.

Lemma get_bit_high v i : BITS <= i -> get_bit I v i = false.
Proof. intros. unfold get_bit. by destruct (Z.ltb_spec i BITS); [lia|]. Qed.

Lemma set_bit_in_range v i : in_range I v -> in_range I (set_bit I v i).
Proof.
  intros. unfold set_bit. case_bool; [|done]. apply lor_in_range; [done|apply wrap_in_range].
Qed.

Lemma clear_bit_in_range v i : in_range I v -> in_range I (clear_bit I v i).
Proof.
  intros. unfold clear_bit. case_bool; [|done]. apply land_in_range; [done|apply wrap_in_range].
Qed.

Lemma testbit_set_bit v i j :
  0 <= i < BITS -> 0 <= j < BITS -> Z.testbit (set_bit I v i) j = (i =? j) || Z.testbit v j.
Proof.
  intros. unfold set_bit. case_bool; [|lia].
  rewrite Z.lor_spec, testbit_wrap_pow2 by lia. apply orb_comm.
Qed.

Lemma testbit_clear_bit v i j :
  0 <= i < BITS -> 0 <= j < BITS -> Z.testbit (clear_bit I v i) j = negb (i =? j) && Z.testbit v j.
Proof.
  intros. unfold clear_bit. case_bool; [|lia].
  rewrite Z.land_spec, testbit_int_not, testbit_wrap_pow2 by lia. apply andb_comm.
Qed.

(** *** Ranges of ones *)

Lemma testbit_pow2_diff a b i :
  0 <= a <= b -> 0 <= i -> Z.testbit (2 ^ b - 2 ^ a) i = (a <=? i) && (i <? b).
Proof.
  intros Hab Hi. replace (2 ^ b - 2 ^ a) with (Z.shiftl (Z.ones (b - a)) a).
  2: { rewrite Z.shiftl_mul_pow2, Z.ones_equiv by lia. rewrite (pow2_split b a) by lia.
       unfold Z.pred. ring. }
  rewrite Z.shiftl_spec by lia. destruct (Z.leb_spec a i); simpl.
  - destruct (Z.ltb_spec i b).
    + apply Z.ones_spec_low. lia.
    + apply Z.ones_spec_high. lia.
  - apply Z.testbit_neg_r. lia.
Qed.

Lemma wrap_sub_wrap a b : wrap I (wrap I a - wrap I b) mod 2 ^ BITS = (a - b) mod 2 ^ BITS.
Proof. rewrite wrap_mod, Zminus_mod, !wrap_mod, <- Zminus_mod. done. Qed.

Lemma ones_truncated_spec start stop :
  0 <= start <= stop -> start < BITS ->
  exists m, ones_truncated I start stop = Ok m /\ in_range I m /\
    forall i, 0 <= i < BITS -> Z.testbit m i = (start <=? i) && (i <? stop).
Proof.
  intros Hr Hs. unfold ones_truncated.
  rewrite check_true by (apply Z.leb_le; lia). unfold mbind at 1, Res_bind at 1, shl1.
  destruct (Z.ltb_spec start BITS); [|lia]. destruct (Z.leb_spec BITS stop).
  - simpl. eexists; split; [done|]. split; [apply wrap_in_range|]. intros i Hi.
    rewrite <- testbit_pow2_diff by lia. apply (testbit_mod_eq _ _ BITS); [|lia].
    change 0 with (0 - 0) at 1. rewrite wrap_mod, Zminus_mod, wrap_mod.
    rewrite (Zminus_mod (2 ^ stop)). do 2 f_equal.
    rewrite (pow2_split stop BITS), Z_mod_mult by (pose proof BITS_pos; lia).
    by rewrite Z.mod_0_l by (pose proof (pow2_pos BITS); pose proof BITS_pos; lia).
  - destruct (Z.ltb_spec stop BITS); [|lia]. simpl. eexists; split; [done|].
    split; [apply wrap_in_range|]. intros i Hi.
    rewrite <- testbit_pow2_diff by lia. apply (testbit_mod_eq _ _ BITS); [|lia].
    apply wrap_sub_wrap.
Qed.

Lemma ones_spec start stop :
  0 <= start <= stop -> start < BITS -> stop <= BITS ->
  exists m, ones I start stop = Ok m /\ in_range I m /\
    forall i, 0 <= i < BITS -> Z.testbit m i = (start <=? i) && (i <? stop).
Proof.
  intros. unfold ones. rewrite check_true by (apply Z.leb_le; lia). by apply ones_truncated_spec.
Qed.

(** *** Scanning *)

Lemma trailing_zeros_lt v : in_range I v -> v <> 0 -> trailing_zeros BITS v < BITS.
Proof.
  intros Hv Hnz. destruct (trailing_zeros_spec BITS v Hnz) as (_ & _ & Hlow).
  destruct (decide (trailing_zeros BITS v < BITS)); [done|]. destruct Hnz.
  apply in_range_zero; [done|]. intros i Hi. apply Hlow. lia.
Qed.

(** [bit_scan_forward] and [trailing_zeros] find the lowest set bit. *)
Definition lowest_bit_from (v start r : Z) : Prop :=
  (start <= r < BITS /\ Z.testbit v r = true /\
    forall j, start <= j < r -> Z.testbit v j = false) \/
  (r = BITS /\ forall j, start <= j < BITS -> Z.testbit v j = false).

Lemma trailing_zeros_lowest v : in_range I v -> lowest_bit_from v 0 (trailing_zeros BITS v).
Proof.
  intros Hv. destruct (decide (v = 0)) as [->|Hnz].
  - right. split; [done|]. intros. apply Z.bits_0.
  - left. destruct (trailing_zeros_spec BITS v Hnz) as (? & ? & ?).
    by pose proof (trailing_zeros_lt v Hv Hnz).
Qed.

Lemma bit_scan_forward_spec v start :
  in_range I v -> 0 <= start ->
  exists r, bit_scan_forward I v start = Ok r /\ lowest_bit_from v start r.
Proof.
  intros Hv Hs. unfold bit_scan_forward. destruct (Z.leb_spec BITS start).
  { exists BITS. split; [done|]. right. split; [done|]. intros; lia. }
  destruct (ones_spec 0 start) as (m & -> & Hm & Hbits); [lia..|]. simpl.
  eexists; split; [done|].
  set (u := Z.land v (int_not I m)).
  assert (Hu : in_range I u) by (apply land_in_range; [done|apply wrap_in_range]).
  assert (Hub : forall j, 0 <= j < BITS -> Z.testbit u j = Z.testbit v j && (start <=? j)).
  { intros j Hj. unfold u. rewrite Z.land_spec, testbit_int_not, Hbits by lia. f_equal.
    destruct (Z.leb_spec 0 j), (Z.ltb_spec j start), (Z.leb_spec start j); simpl; (done || lia). }
  destruct (trailing_zeros_lowest u Hu) as [(Hr & Ht & Hlow)|[-> Hnone]].
  - left. rewrite Hub in Ht by lia. apply andb_true_iff in Ht as [Ht Hst]. bool_to_prop.
    split; [lia|]. split; [done|]. intros j Hj. specialize (Hlow j ltac:(lia)).
    rewrite Hub in Hlow by lia. destruct (Z.leb_spec start j); [|lia].
    by rewrite andb_true_r in Hlow.
  - right. split; [done|]. intros j Hj. specialize (Hnone j ltac:(lia)).
    rewrite Hub in Hnone by lia. destruct (Z.leb_spec start j); [|lia].
    by rewrite andb_true_r in Hnone.
Qed.

(** *** Fixed-point ceiling *)

Lemma ones_low fp : 0 <= fp < BITS -> ones I 0 fp = Ok (2 ^ fp - 1).
Proof.
  intros Hfp. pose proof BITS_pos. pose proof (pow2_pos fp ltac:(lia)).
  pose proof (pow2_le fp (BITS - 1) ltac:(lia)). pose proof pow_BITS.
  destruct (ones_spec 0 fp) as (m & -> & Hm & Hb); [lia..|]. f_equal.
  apply in_range_ext; [done| |].
  - unfold in_range, int_min, int_max. destruct (int_signed I); lia.
  - intros i Hi. rewrite Hb by done. change 1 with (2 ^ 0). by rewrite testbit_pow2_diff by lia.
Qed.

Lemma checked_ceil_fix_spec v fp :
  in_range I v -> 0 <= fp < BITS ->
  checked_ceil_fix I v fp =
    Ok (if round_up (2 ^ fp) v <=? int_max I then Some (round_up (2 ^ fp) v) else None).
Proof.
  intros Hv Hfp. pose proof BITS_pos. pose proof (pow2_pos fp ltac:(lia)) as Hp.
  unfold checked_ceil_fix. destruct (Z.leb_spec BITS fp); [lia|].
  rewrite ones_low by lia. simpl. f_equal.
  assert (Hmul : (2 ^ fp | int_max I + 1)).
  { unfold int_max. destruct (int_signed I).
    - replace (2 ^ (BITS - 1) - 1 + 1) with (2 ^ (BITS - 1)) by lia.
      rewrite (pow2_split (BITS - 1) fp) by lia. apply Z.divide_factor_r.
    - replace (2 ^ BITS - 1 + 1) with (2 ^ BITS) by lia.
      rewrite (pow2_split BITS fp) by lia. apply Z.divide_factor_r. }
  destruct (round_up_spec (2 ^ fp) v Hp) as [Hru Hdiv].
  assert (Hlow : int_min I <= v + (2 ^ fp - 1)) by (unfold in_range in Hv; lia).
  unfold in_rangeb. rewrite (proj2 (Z.leb_le _ _) Hlow), andb_true_l.
  destruct (Z.leb_spec (v + (2 ^ fp - 1)) (int_max I)) as [Hok|Hov].
  - destruct (Z.leb_spec (round_up (2 ^ fp) v) (int_max I)); [|lia]. f_equal.
    apply (in_range_ext); [| unfold in_range in *; lia |].
    { apply land_in_range; [unfold in_range in *; lia|apply wrap_in_range]. }
    intros i Hi. rewrite Z.land_spec, testbit_int_not by lia.
    assert (Hones : Z.testbit (2 ^ fp - 1) i = (0 <=? i) && (i <? fp)).
    { change 1 with (2 ^ 0). apply testbit_pow2_diff; lia. }
    rewrite Hones.
    replace (round_up (2 ^ fp) v) with (Z.shiftl (Z.shiftr (v + (2 ^ fp - 1)) fp) fp).
    2: { rewrite Z.shiftl_mul_pow2, Z.shiftr_div_pow2 by lia. unfold round_up.
         replace (v + 2 ^ fp - 1) with (v + (2 ^ fp - 1)) by lia.
         rewrite (Z.mod_eq (v + (2 ^ fp - 1))) by lia. ring. }
    rewrite Z.shiftl_spec by lia. destruct (Z.leb_spec 0 i); [|lia].
    destruct (Z.ltb_spec i fp); simpl.
    + rewrite (Z.testbit_neg_r _ (i - fp)) by lia. apply andb_false_r.
    + rewrite Z.shiftr_spec by lia. replace (i - fp + fp) with i by lia. apply andb_true_r.
  - destruct (Z.leb_spec (round_up (2 ^ fp) v) (int_max I)); [|done].
    destruct (decide (int_max I + 1 <= round_up (2 ^ fp) v)); [lia|].
    pose proof (divide_gap (2 ^ fp) (round_up (2 ^ fp) v) (int_max I + 1) Hp Hdiv Hmul). lia.
Qed.

(** With no digit left of the point, zero is the only value that is kept. *)
Lemma checked_ceil_fix_wide v fp :
  in_range I v -> BITS <= fp ->
  checked_ceil_fix I v fp =
    Ok (if v <? 0 then None else if round_up (2 ^ fp) v <=? int_max I then Some (round_up (2 ^ fp) v) else None).
Proof.
  intros Hv Hfp. pose proof BITS_pos. pose proof (pow2_le BITS fp ltac:(lia)). pose proof pow_BITS.
  assert (int_max I < 2 ^ fp) by (pose proof (pow2_pos (BITS - 1) ltac:(lia)); unfold int_max; destruct (int_signed I); lia).
  assert (Hp : 0 < 2 ^ fp) by (apply pow2_pos; lia). destruct (round_up_spec (2 ^ fp) v Hp) as [Hr [k Hk]].
  unfold checked_ceil_fix. rewrite (proj2 (Z.leb_le _ _) Hfp). f_equal.
  destruct (Z.eqb_spec v 0) as [->|Hne].
  - assert (Hk0 : k = 0) by nia. rewrite Hk, Hk0. simpl. unfold int_max.
    pose proof (pow2_pos (BITS - 1) ltac:(lia)). destruct (int_signed I); (rewrite (proj2 (Z.leb_le _ _)) by lia); done.
  - destruct (Z.ltb_spec v 0); [done|]. assert (Hk1 : 1 <= k) by nia.
    assert (Hgt : int_max I < round_up (2 ^ fp) v) by (rewrite Hk; nia). by rewrite (proj2 (Z.leb_gt _ _) Hgt).
Qed.

(** The shift by the width. *)
Lemma ones_at_width start stop : BITS <= start -> start <= stop <= BITS -> ones I start stop = Fail Overflow.
Proof.
  intros H1 [H2 H3]. unfold ones, ones_truncated. rewrite (proj2 (Z.leb_le stop _)), (proj2 (Z.leb_le start stop)) by lia.
  simpl. rewrite (proj2 (Z.leb_le BITS stop)) by lia. unfold shl1. by rewrite (proj2 (Z.ltb_ge _ _)) by lia.
Qed.

End BinIntegerLemmas.

(** ** Properties *)

Section BinIntegerProperties.
Context {I : IntTy} {Iok : IntTyOk I}.

(** C36: [bit_scan_forward] never panics and returns the position of the least
    significant set bit that is not below [start], or [BITS] if there is none,
    for every integer type the trait is implemented for. *)
Theorem bit_scan_forward_correct v start :
  in_range I v -> 0 <= start ->
  exists r, bit_scan_forward I v start = Ok r /\ lowest_bit_from (I := I) v start r.
Proof. apply bit_scan_forward_spec. Qed.

(** C37: [set_bit] and [clear_bit] write one bit and [get_bit] reads it: the
    value stays in the range of the type, the bit written is read back and
    the other ones are as before; positions past the width are ignored. *)
Theorem bit_ops_correct v i j :
  in_range I v -> 0 <= i -> 0 <= j < BITS I ->
  in_range I (set_bit I v i) /\ in_range I (clear_bit I v i) /\
  get_bit I (set_bit I v i) j = (i =? j) || get_bit I v j /\
  get_bit I (clear_bit I v i) j = negb (i =? j) && get_bit I v j.
Proof.
  intros Hv Hi Hj. pose proof (set_bit_in_range (I := I) v i Hv). pose proof (clear_bit_in_range (I := I) v i Hv).
  split_and!; try done; rewrite !get_bit_spec by done; destruct (Z.lt_ge_cases i (BITS I)) as [Hlt|Hge].
  - by rewrite testbit_set_bit.
  - unfold set_bit. rewrite (proj2 (Z.ltb_ge _ _)) by done. by rewrite (proj2 (Z.eqb_neq i j)) by lia.
  - by rewrite testbit_clear_bit.
  - unfold clear_bit. rewrite (proj2 (Z.ltb_ge _ _)) by done. by rewrite (proj2 (Z.eqb_neq i j)) by lia.
Qed.

(** [ones_truncated(start..end)] has exactly the bits [start..end] that
    the type has, when [start] is a bit position of it. *)
Theorem ones_truncated_correct start stop :
  0 <= start <= stop -> start < BITS I ->
  exists m, ones_truncated I start stop = Ok m /\ in_range I m /\
    forall i, 0 <= i < BITS I -> Z.testbit m i = (start <=? i) && (i <? stop).
Proof. apply ones_truncated_spec. Qed.

(** C39: What [ones(start..end)] does with every range: it returns the integer
    whose bits are exactly [start..end] when [start] is a bit position and
    [end] is not past the width; its assertions fail on a range that is
    reversed or ends past the width; and the empty range at the end of the
    type, which the assertions accept, overflows in the shift. *)
Theorem ones_correct start stop :
  0 <= start -> 0 <= stop ->
  match ones I start stop with
  | Ok m => start <= stop <= BITS I /\ start < BITS I /\ in_range I m /\
      forall i, 0 <= i < BITS I -> Z.testbit m i = (start <=? i) && (i <? stop)
  | Fail Overflow => start = BITS I /\ stop = BITS I
  | Fail e => e = AssertFailed /\ ~ start <= stop <= BITS I
  end.
Proof.
  intros Hs Ht. destruct (decide (start <= stop <= BITS I)) as [Hr|Hr].
  - destruct (Z.lt_ge_cases start (BITS I)) as [Hlt|Hge].
    + destruct (ones_spec (I := I) start stop) as (m & -> & Hm & Hb); [lia..|]. split_and!; (done || lia).
    + rewrite ones_at_width by lia. lia.
  - unfold ones, ones_truncated. destruct (Z.leb_spec stop (BITS I)); simpl; [|by split; [|lia]].
    destruct (Z.leb_spec start stop); simpl; [lia|by split].
Qed.

(** C38: [checked_ceil_fix] rounds a fixed-point value up to a multiple of
    [2^fp], and returns [None] exactly when the result exceeds the type, for
    every number [fp] of fractional digits, but for one case: with
    [fp >= BITS] it also returns [None] for a negative value. *)
Theorem checked_ceil_fix_correct v fp :
  in_range I v -> 0 <= fp ->
  checked_ceil_fix I v fp =
    Ok (if (BITS I <=? fp) && (v <? 0) then None
        else if round_up (2 ^ fp) v <=? int_max I then Some (round_up (2 ^ fp) v) else None).
Proof.
  intros Hv Hfp. destruct (Z.leb_spec (BITS I) fp); simpl; [by apply checked_ceil_fix_wide|].
  apply checked_ceil_fix_spec; [done|lia].
Qed.

End BinIntegerProperties.
