(* ===== verification/SizeClass.v ===== *)
(** * tlsf.rs: constants and the two-level size classes

    The compile-time parameters of [Tlsf] ([FLBitmap], [SLBitmap], [FLLEN],
    [SLLEN]), the constants derived from them, and the three functions that
    map a block size to a segregated list: [map_floor], [map_ceil] and
    [map_ceil_and_unmap].  The lemmas relate their rotate-and-mask code to
    the intervals of sizes the lists stand for. *)

From S2P Require Import Prelude Usize BinInteger.

Class TlsfParams := {
  FLBitmap : IntTy;
  SLBitmap : IntTy;
  FLLEN : Z;
  SLLEN : Z
}.

Section SizeClass.
Context {T : Target} {P : TlsfParams}.

Definition GRANULARITY : Z := WORD * 4.
Definition GRANULARITY_LOG2 : Z := trailing_zeros USIZE_BITS GRANULARITY.

(** Bits of [BlockHdr::size]. *)
Definition SIZE_USED : Z := 1.
Definition SIZE_SENTINEL : Z := 2.
Definition SIZE_SIZE_MASK : Z := usize_not (Z.shiftl 1 GRANULARITY_LOG2 - 1).

(** [x as u32]. *)
Definition as_u32 (x : Z) : Z := x mod U32_MOD.

(** Evaluates successfully only if the parameters are valid. *)
Definition VALID : Res unit :=
  if FLLEN =? 0 then Fail Panicked
  else if SLLEN =? 0 then Fail Panicked
  else if BITS FLBitmap <? FLLEN then Fail Panicked
  else if BITS SLBitmap <? SLLEN then Fail Panicked
  else Ok tt.

Definition MAX_POOL_SIZE : option Z :=
  let shift := GRANULARITY_LOG2 + as_u32 FLLEN in
  if shift <? USIZE_BITS then Some (Z.shiftl 1 shift) else None.

(** [SLLEN.log2()]; evaluating the constant panics when [SLLEN] is not a
    power of two. *)
Definition SLI_const : Res Z :=
  if is_power_of_two SLLEN then Ok (trailing_zeros USIZE_BITS SLLEN) else Fail Panicked.
Definition SLI : Z := trailing_zeros USIZE_BITS SLLEN.

Definition map_floor (size : Z) : Res (option (Z * Z)) :=
  _ ← check (GRANULARITY <=? size);
  _ ← check (size mod GRANULARITY =? 0);
  fl ← u32_sub (USIZE_BITS - GRANULARITY_LOG2 - 1) (leading_zeros USIZE_BITS size);
  let sl := rotate_right USIZE_BITS size (u32_wrapping_sub (fl + GRANULARITY_LOG2) SLI) in
  _ ← check (Z.land (Z.shiftr sl SLI) 1 =? 1);
  if FLLEN <=? fl then Ok None
  else Ok (Some (fl, Z.land sl (SLLEN - 1))).

Definition map_ceil (size : Z) : Res (option (Z * Z)) :=
  _ ← check (GRANULARITY <=? size);
  _ ← check (size mod GRANULARITY =? 0);
  fl ← u32_sub (USIZE_BITS - GRANULARITY_LOG2 - 1) (leading_zeros USIZE_BITS size);
  let sl := rotate_right USIZE_BITS size (u32_wrapping_sub (fl + GRANULARITY_LOG2) SLI) in
  _ ← check (Z.land (Z.shiftr sl SLI) 1 =? 1);
  let sl := Z.land sl (SLLEN - 1) + (if Z.shiftl 1 (SLI + 1) <=? sl then 1 else 0) in
  let fl := fl + as_u32 (Z.shiftr sl SLI) in
  if FLLEN <=? fl then Ok None
  else Ok (Some (fl, Z.land sl (SLLEN - 1))).

Definition MAX_MAP_CEIL_AND_UNMAP_INPUT : Z :=
  let max1 := usize_not (Z.shiftr USIZE_MAX (SLI + 1)) in
  if as_u32 FLLEN - 1 <? USIZE_BITS - GRANULARITY_LOG2 - 1 then
    Z.shiftr max1 (USIZE_BITS - GRANULARITY_LOG2 - 1 - (as_u32 FLLEN - 1))
  else max1.

Definition map_ceil_and_unmap (size : Z) : Res (option Z) :=
  _ ← check (GRANULARITY <=? size);
  _ ← check (size mod GRANULARITY =? 0);
  if MAX_MAP_CEIL_AND_UNMAP_INPUT <? size then Ok None
  else
    fl ← u32_sub (USIZE_BITS - GRANULARITY_LOG2 - 1) (leading_zeros USIZE_BITS size);
    list_min_size ←
      (if (GRANULARITY_LOG2 <? SLI) && (fl <? SLI - GRANULARITY_LOG2) then Ok size
       else
         shift ← u32_sub (fl + GRANULARITY_LOG2) SLI;
         x ← uadd size (Z.shiftl 1 shift - 1);
         Ok (Z.land x (usize_not (Z.shiftl 1 shift - 1))));
    Ok (Some list_min_size).

(** ** The sizes a list holds

    List [(fl, sl)] holds the blocks of [cmin fl sl <= size * SLLEN <
    cmin fl (sl + 1)]: the sizes from [2^(fl + log2 GRANULARITY) * (1 + sl/SLLEN)],
    scaled by [SLLEN] to stay in the integers. *)
Definition cmin (fl sl : Z) : Z := (SLLEN + sl) * 2 ^ (fl + GRANULARITY_LOG2).

Definition in_class (size fl sl : Z) : Prop := cmin fl sl <= size * SLLEN < cmin fl (sl + 1).

(** The order in which the search visits the lists. *)
Definition class_le (c1 c2 : Z * Z) : Prop :=
  c1.1 < c2.1 \/ (c1.1 = c2.1 /\ c1.2 <= c2.2).

Definition valid_class (c : Z * Z) : Prop := 0 <= c.1 < FLLEN /\ 0 <= c.2 < SLLEN.

(** What the code requires of a block size. *)
Definition valid_size (size : Z) : Prop :=
  GRANULARITY <= size < USIZE_MOD /\ (GRANULARITY | size).

End SizeClass.

(** The parameters compile: [VALID] and [SLI] evaluate. *)
Class ParamsOk {T : Target} (P : TlsfParams) := {
  params_fl : IntTyOk FLBitmap;
  params_sl : IntTyOk SLBitmap;
  params_usize : is_usize FLLEN /\ is_usize SLLEN;
  params_valid : VALID = Ok tt;
  params_sli : SLI_const = Ok SLI
}.
#[export] Existing Instances params_fl params_sl.

Arguments GRANULARITY : simpl never.
Arguments GRANULARITY_LOG2 : simpl never.
Arguments SLI : simpl never.
Arguments cmin : simpl never.

Section SizeClassLemmas.
Context {T : Target} {P : TlsfParams} {Pok : ParamsOk P}.

Lemma GRANULARITY_pow : GRANULARITY = 2 ^ GRANULARITY_LOG2 /\ 3 <= GRANULARITY_LOG2 <= 5.
Proof.
  unfold GRANULARITY_LOG2, GRANULARITY, USIZE_BITS.
  destruct target_ok as [->|[->| ->]]; vm_compute; repeat split; congruence.
Qed.

Lemma GRANULARITY_bits : GRANULARITY_LOG2 + 8 <= USIZE_BITS.
Proof.
  unfold GRANULARITY_LOG2, GRANULARITY, USIZE_BITS.
  destruct target_ok as [->|[->| ->]]; vm_compute; congruence.
Qed.

Lemma GRANULARITY_WORD : GRANULARITY = 4 * WORD.
Proof. unfold GRANULARITY. lia. Qed.

Lemma GRANULARITY_half : GRANULARITY / 2 = 2 * WORD.
Proof. rewrite GRANULARITY_WORD. replace (4 * WORD) with (2 * WORD * 2) by lia. by apply Z.div_mul. Qed.

Lemma GRANULARITY_pos : 8 <= GRANULARITY.
Proof. pose proof WORD_pos. rewrite GRANULARITY_WORD. lia. Qed.

Lemma VALID_inv : 0 < FLLEN <= 128 /\ 0 < SLLEN <= 128 /\ FLLEN <= BITS FLBitmap /\ SLLEN <= BITS SLBitmap.
Proof.
  destruct Pok as [Hf Hs [[Hf0 _] [Hs0 _]] Hv _]. unfold VALID in Hv.
  repeat (case_bool in Hv; [discriminate|]).
  unfold IntTyOk in *. unfold BITS in *. lia.
Qed.

Lemma SLLEN_pow : SLLEN = 2 ^ SLI /\ 0 <= SLI <= 7.
Proof.
  destruct VALID_inv as (_ & Hs & _). destruct Pok as [_ _ _ _ H]. unfold SLI_const in H.
  destruct (is_power_of_two SLLEN) eqn:E; [|discriminate].
  apply is_power_of_two_spec in E as (k & Hk & E). unfold SLI. rewrite E, trailing_zeros_pow2 by done.
  split; [done|]. split; [done|]. rewrite E in Hs.
  destruct (decide (k <= 7)); [done|]. pose proof (pow2_le 8 k ltac:(lia)). lia.
Qed.

Lemma as_u32_small x : 0 <= x < 256 -> as_u32 x = x.
Proof. intros. unfold as_u32, U32_MOD. apply Z.mod_small. lia. Qed.

(** ** The rotation *)

Lemma lor_disjoint_add a b k : 0 <= k -> 0 <= a < 2 ^ k -> (2 ^ k | b) -> Z.lor a b = a + b.
Proof.
  intros Hk Ha [q ->]. assert (Hl : Z.land a (q * 2 ^ k) = 0).
  { apply Z.bits_inj'; intros i Hi. rewrite Z.land_spec, Z.bits_0, Z.mul_pow2_bits by lia.
    destruct (decide (i < k)).
    - rewrite (Z.testbit_neg_r q) by lia. apply andb_false_r.
    - rewrite <- (Z.mod_small a (2 ^ k)) by done. by rewrite Z.mod_pow2_bits_high by lia. }
  rewrite Z.add_nocarry_lxor by done. symmetry. by apply Z.lxor_lor.
Qed.

(** Rotating right by [k] moves the low [k] digits to the top. *)
Lemma rotate_right_low B x k :
  0 <= k < B -> 0 <= x < 2 ^ B ->
  rotate_right B x k = x / 2 ^ k + (x mod 2 ^ k) * 2 ^ (B - k).
Proof.
  intros Hk Hx. unfold rotate_right. rewrite (Z.mod_small k B) by lia.
  pose proof (pow2_pos k ltac:(lia)). pose proof (pow2_pos (B - k) ltac:(lia)).
  replace (Z.shiftl x (B - k) mod 2 ^ B) with ((x mod 2 ^ k) * 2 ^ (B - k)).
  - rewrite Z.shiftr_div_pow2 by lia. apply (lor_disjoint_add _ _ (B - k)); [lia| |apply Z.divide_factor_r].
    split; [apply Z.div_pos; lia|]. apply Z.div_lt_upper_bound; [lia|].
    rewrite <- Z.pow_add_r by lia. replace (k + (B - k)) with B by lia. lia.
  - rewrite Z.shiftl_mul_pow2 by lia. rewrite (pow2_split B (B - k)) by lia.
    replace (B - (B - k)) with k by lia. rewrite Z.mul_mod_distr_r by lia. done.
Qed.

Lemma div_mod_scaled x s n k :
  0 <= s -> 0 <= k -> n = s + k ->
  x * 2 ^ s / 2 ^ n = x / 2 ^ k /\ x * 2 ^ s mod 2 ^ n = 2 ^ s * (x mod 2 ^ k).
Proof.
  intros Hs Hk ->. pose proof (pow2_pos k Hk). pose proof (pow2_pos s Hs).
  rewrite Z.pow_add_r, (Z.mul_comm x) by lia.
  rewrite Z.div_mul_cancel_l, Z.mul_mod_distr_l by lia. done.
Qed.

Lemma USIZE_BITS_u32 : 16 <= USIZE_BITS <= 64 /\ (USIZE_BITS | 2 ^ 32).
Proof.
  destruct USIZE_BITS_cases as [->|[->| ->]]; (split; [lia|]);
    [by exists (2 ^ 28)|by exists (2 ^ 27)|by exists (2 ^ 26)].
Qed.

(** [size.rotate_right(log2 size - SLI)] puts the [SLI + 1] most significant
    digits of [size] at the bottom; the digits that fell off appear above
    them. *)
Definition rotated (x r : Z) : Prop :=
  exists h, r = x * SLLEN / 2 ^ Z.log2 x + h /\
    0 <= h /\ (2 ^ (SLI + 1) | h) /\ (h = 0 <-> x * SLLEN mod 2 ^ Z.log2 x = 0).

Lemma rotate_ge x :
  0 < x < USIZE_MOD -> SLI <= Z.log2 x < USIZE_BITS ->
  rotated x (rotate_right USIZE_BITS x (Z.log2 x - SLI)).
Proof.
  intros Hx Hn. destruct SLLEN_pow as [HS HSLI]. pose proof USIZE_BITS_u32.
  set (n := Z.log2 x) in *. set (B := USIZE_BITS) in *. set (k := n - SLI).
  destruct (div_mod_scaled x SLI n k) as [Eq Em]; [lia..|].
  unfold rotated. fold n. rewrite HS, Eq, Em.
  pose proof (pow2_pos k ltac:(lia)). pose proof (pow2_pos (B - k) ltac:(lia)).
  assert (0 < 2 ^ SLI) by (apply pow2_pos; lia). pose proof (Z.mod_pos_bound x (2 ^ k) ltac:(lia)).
  exists (x mod 2 ^ k * 2 ^ (B - k)). split_and!; [| nia | | nia].
  - apply rotate_right_low; [lia|]. unfold USIZE_MOD in Hx. fold B in Hx. lia.
  - apply Z.divide_mul_r. rewrite (pow2_split (B - k) (SLI + 1)) by lia. apply Z.divide_factor_r.
Qed.

Lemma rotate_lt x :
  0 < x < USIZE_MOD -> Z.log2 x < SLI ->
  rotated x (rotate_right USIZE_BITS x (USIZE_BITS - (SLI - Z.log2 x))).
Proof.
  intros Hx Hn. destruct SLLEN_pow as [HS HSLI]. pose proof USIZE_BITS_u32.
  pose proof (Z.log2_nonneg x). pose proof (Z.log2_spec x ltac:(lia)) as Hlog.
  set (n := Z.log2 x) in *. set (B := USIZE_BITS) in *. set (j := SLI - n).
  assert (Hxb : x < 2 ^ (B - j)) by (pose proof (pow2_le (Z.succ n) (B - j) ltac:(lia)); lia).
  unfold rotated. fold n. exists 0. rewrite HS.
  replace (x * 2 ^ SLI) with (x * 2 ^ j * 2 ^ n).
  2: { rewrite <- Z.mul_assoc, <- Z.pow_add_r by lia. do 2 f_equal. lia. }
  rewrite Z.div_mul, Z.mod_mul by (pose proof (pow2_pos n); lia).
  split_and!; [|done|apply Z.divide_0_r|done].
  unfold USIZE_MOD in Hx. fold B in Hx. rewrite rotate_right_low by lia.
  rewrite Z.div_small, Z.mod_small by lia. replace (B - (B - j)) with j by lia. lia.
Qed.

Lemma rotate_spec x :
  0 < x < USIZE_MOD ->
  rotated x (rotate_right USIZE_BITS x (u32_wrapping_sub (Z.log2 x) SLI)).
Proof.
  intros Hx. destruct SLLEN_pow as [_ HSLI]. destruct USIZE_BITS_u32 as [HB Hdiv].
  assert (Hn : 0 <= Z.log2 x < USIZE_BITS).
  { split; [apply Z.log2_nonneg|]. apply Z.log2_lt_pow2; [lia|]. apply Hx. }
  assert (E : forall n m, n mod USIZE_BITS = m mod USIZE_BITS ->
            rotate_right USIZE_BITS x n = rotate_right USIZE_BITS x m).
  { intros n m Hnm. unfold rotate_right. by rewrite Hnm. }
  destruct (decide (SLI <= Z.log2 x)).
  - erewrite E; [apply rotate_ge; lia|]. unfold u32_wrapping_sub, U32_MOD.
    by rewrite Z.mod_mod_divide.
  - erewrite E; [apply rotate_lt; lia|]. unfold u32_wrapping_sub, U32_MOD.
    rewrite Z.mod_mod_divide by done. replace (USIZE_BITS - (SLI - Z.log2 x))
      with (Z.log2 x - SLI + 1 * USIZE_BITS) by lia. by rewrite Z_mod_plus_full.
Qed.

(** ** The mapping functions, in closed form *)

(** The index of the highest digit, the [SLI + 1] leading digits, and whether
    the other digits are all zero. *)
Definition lead (x : Z) : Z := x * SLLEN / 2 ^ Z.log2 x.
Definition lead_up (x : Z) : Z :=
  lead x + (if x * SLLEN mod 2 ^ Z.log2 x =? 0 then 0 else 1).
Definition fl_of (x : Z) : Z := Z.log2 x - GRANULARITY_LOG2.

Lemma valid_size_pos x : valid_size x -> 0 < x < USIZE_MOD.
Proof. intros [H _]. pose proof GRANULARITY_pos. lia. Qed.

Lemma fl_of_range x : valid_size x -> 0 <= fl_of x < USIZE_BITS - GRANULARITY_LOG2.
Proof.
  intros Hx. destruct GRANULARITY_pow as [EG HG]. pose proof (valid_size_pos x Hx).
  destruct Hx as [Hx _]. unfold fl_of. rewrite EG in Hx. unfold USIZE_MOD in *.
  assert (GRANULARITY_LOG2 <= Z.log2 x) by (apply Z.log2_le_pow2; lia).
  assert (Z.log2 x < USIZE_BITS) by (apply Z.log2_lt_pow2; lia). lia.
Qed.

Lemma lead_bounds x : 0 < x -> SLLEN <= lead x < 2 * SLLEN.
Proof.
  intros Hx. unfold lead. pose proof (Z.log2_spec x Hx) as [H1 H2].
  pose proof (Z.log2_nonneg x). pose proof (pow2_pos (Z.log2 x) ltac:(lia)).
  rewrite Z.pow_succ_r in H2 by lia. destruct VALID_inv as (_ & HS & _). split.
  - apply Z.div_le_lower_bound; nia.
  - apply Z.div_lt_upper_bound; nia.
Qed.

Lemma rotated_digits x r :
  0 < x -> rotated x r ->
  Z.land (Z.shiftr r SLI) 1 = 1 /\ Z.land r (SLLEN - 1) = lead x - SLLEN /\
  (Z.shiftl 1 (SLI + 1) <=? r) = negb (x * SLLEN mod 2 ^ Z.log2 x =? 0).
Proof.
  intros Hx (h & -> & Hh & [c ->] & Hz). destruct SLLEN_pow as [ES HSLI].
  pose proof (lead_bounds x Hx) as Hl. unfold lead in *.
  rewrite pow2_succ, <- ES in * by lia. set (q := x * SLLEN / 2 ^ Z.log2 x) in *.
  destruct VALID_inv as (_ & HS & _).
  change 1 with (Z.ones 1) at 1. rewrite Z.land_ones, Z.shiftr_div_pow2, <- ES by lia.
  replace (SLLEN - 1) with (Z.ones SLI) by (rewrite Z.ones_equiv; lia).
  rewrite Z.land_ones, <- ES by lia.
  rewrite Z.shiftl_mul_pow2, Z.mul_1_l, pow2_succ, <- ES by lia. split_and!.
  - replace ((q + c * (2 * SLLEN)) / SLLEN) with (1 + c * 2).
    + rewrite Z.pow_1_r. by rewrite Z_mod_plus_full.
    + replace (q + c * (2 * SLLEN)) with (q - SLLEN + (1 + c * 2) * SLLEN) by ring.
      rewrite Z_div_plus_full, Z.div_small by lia. lia.
  - replace (q + c * (2 * SLLEN)) with (q - SLLEN + (1 + c * 2) * SLLEN) by ring.
    rewrite Z_mod_plus_full. apply Z.mod_small. lia.
  - destruct (Z.eqb_spec (x * SLLEN mod 2 ^ Z.log2 x) 0) as [E|E]; simpl.
    + apply Z.leb_gt. apply Hz in E. lia.
    + apply Z.leb_le. assert (c * (2 * SLLEN) <> 0) by (intros E'; apply E, Hz, E').
      assert (0 < c) by nia. nia.
Qed.

(** The prologue shared by the three functions. *)
Lemma size_checks x :
  valid_size x ->
  check (GRANULARITY <=? x) = Ok tt /\ check (x mod GRANULARITY =? 0) = Ok tt /\
  u32_sub (USIZE_BITS - GRANULARITY_LOG2 - 1) (leading_zeros USIZE_BITS x) = Ok (fl_of x).
Proof.
  intros Hx. pose proof (fl_of_range x Hx) as Hfl. pose proof (valid_size_pos x Hx) as Hp.
  destruct Hx as [Hx Hd]. pose proof GRANULARITY_pos. split_and!.
  - apply check_true, Z.leb_le. lia.
  - apply check_true, Z.eqb_eq, Z.mod_divide; [lia|done].
  - rewrite leading_zeros_pos by apply Hp. unfold u32_sub, fl_of in *.
    destruct (Z.leb_spec (USIZE_BITS - 1 - Z.log2 x) (USIZE_BITS - GRANULARITY_LOG2 - 1)); [|lia].
    f_equal. lia.
Qed.

Lemma map_floor_eq x :
  valid_size x ->
  map_floor x = Ok (if FLLEN <=? fl_of x then None else Some (fl_of x, lead x - SLLEN)).
Proof.
  intros Hx. destruct (size_checks x Hx) as (E1 & E2 & E3). unfold map_floor.
  rewrite E1, E2, E3. simpl. replace (fl_of x + GRANULARITY_LOG2) with (Z.log2 x) by (unfold fl_of; lia).
  pose proof (valid_size_pos x Hx). destruct (rotated_digits x _ ltac:(lia) (rotate_spec x ltac:(lia))) as (D1 & D2 & _).
  rewrite D1, D2. simpl. by case_bool.
Qed.

Lemma map_ceil_eq x :
  valid_size x ->
  map_ceil x =
    (let c := if lead_up x =? 2 * SLLEN then (fl_of x + 1, 0) else (fl_of x, lead_up x - SLLEN) in
     Ok (if FLLEN <=? c.1 then None else Some c)).
Proof.
  intros Hx. destruct (size_checks x Hx) as (E1 & E2 & E3). unfold map_ceil.
  rewrite E1, E2, E3. simpl. replace (fl_of x + GRANULARITY_LOG2) with (Z.log2 x) by (unfold fl_of; lia).
  pose proof (valid_size_pos x Hx). destruct (rotated_digits x _ ltac:(lia) (rotate_spec x ltac:(lia))) as (D1 & D2 & D3).
  rewrite D1, D2, D3. simpl. clear D1 D2 D3. destruct SLLEN_pow as [ES HSLI]. destruct VALID_inv as (_ & HS & _).
  pose proof (lead_bounds x ltac:(lia)) as Hl.
  assert (Hup : lead x - SLLEN + (if negb (x * SLLEN mod 2 ^ Z.log2 x =? 0) then 1 else 0) = lead_up x - SLLEN).
  { unfold lead_up. case_bool; case_bool; simpl in *; (lia || congruence). }
  rewrite Hup. assert (SLLEN <= lead_up x <= 2 * SLLEN) by (unfold lead_up; case_bool; lia).
  clear Hup. rewrite Z.shiftr_div_pow2, <- ES by lia.
  replace (SLLEN - 1) with (Z.ones SLI) by (rewrite Z.ones_equiv; lia).
  rewrite Z.land_ones, <- ES by lia.
  destruct (Z.eqb_spec (lead_up x) (2 * SLLEN)) as [->|Hne]; simpl.
  - replace (2 * SLLEN - SLLEN) with SLLEN by lia. rewrite Z.div_same, Z.mod_same by lia.
    rewrite as_u32_small by lia. by case_bool.
  - rewrite Z.div_small, Z.mod_small by lia. rewrite as_u32_small, Z.add_0_r by lia. by case_bool.
Qed.

(** ** Sizes and lists *)

Lemma cmin_fl_of x q : cmin (fl_of x) (q - SLLEN) = q * 2 ^ Z.log2 x.
Proof. unfold cmin, fl_of. f_equal; [lia|]. f_equal. lia. Qed.

Lemma cmin_carry fl : 0 <= fl -> cmin fl SLLEN = cmin (fl + 1) 0.
Proof.
  intros. unfold cmin. destruct GRANULARITY_pow as [_ HG].
  replace (fl + 1 + GRANULARITY_LOG2) with (fl + GRANULARITY_LOG2 + 1) by lia.
  rewrite pow2_succ by lia. ring.
Qed.

Lemma cmin_sl_mono fl sl sl' : 0 <= fl -> sl <= sl' -> cmin fl sl <= cmin fl sl'.
Proof.
  intros. unfold cmin. destruct GRANULARITY_pow as [_ HG].
  assert (0 < 2 ^ (fl + GRANULARITY_LOG2)) by (apply pow2_pos; lia). nia.
Qed.

Lemma cmin_fl_mono fl fl' : 0 <= fl <= fl' -> cmin fl 0 <= cmin fl' 0.
Proof.
  intros. unfold cmin. destruct GRANULARITY_pow as [_ HG]. destruct VALID_inv as (_ & HS & _).
  assert (2 ^ (fl + GRANULARITY_LOG2) <= 2 ^ (fl' + GRANULARITY_LOG2)) by (apply pow2_le; lia). nia.
Qed.

(** A list's upper bound is at most the minimum of every later list. *)
Lemma cmin_next c c' :
  0 <= c.1 -> c.2 < SLLEN -> 0 <= c'.2 -> class_le c c' -> c <> c' ->
  cmin c.1 (c.2 + 1) <= cmin c'.1 c'.2.
Proof.
  destruct c as [fl sl], c' as [fl' sl']. unfold class_le. simpl. intros H1 H2 H3 Hle Hne.
  destruct (decide (fl = fl')) as [<-|].
  - apply cmin_sl_mono; [done|]. destruct (decide (sl = sl')); [congruence|lia].
  - etrans; [apply (cmin_sl_mono fl _ SLLEN); lia|]. rewrite cmin_carry by lia.
    etrans; [apply (cmin_fl_mono _ fl'); lia|]. apply cmin_sl_mono; lia.
Qed.

Lemma cmin_mono c c' :
  0 <= c.1 -> c.2 < SLLEN -> 0 <= c'.2 -> class_le c c' -> cmin c.1 c.2 <= cmin c'.1 c'.2.
Proof.
  intros. destruct (decide (c = c')) as [<-|]; [done|].
  etrans; [apply (cmin_sl_mono c.1 _ (c.2 + 1)); lia|]. by apply cmin_next.
Qed.

Lemma class_total c c' : class_le c c' \/ (class_le c' c /\ c' <> c).
Proof.
  destruct c as [fl sl], c' as [fl' sl']. unfold class_le; simpl.
  destruct (decide (fl < fl')); [lia|]. destruct (decide (fl = fl')) as [<-|]; [|right; split; [lia|congruence]].
  destruct (decide (sl <= sl')); [lia|right; split; [lia|intros [=]; lia]].
Qed.

Lemma class_le_trans c1 c2 c3 : class_le c1 c2 -> class_le c2 c3 -> class_le c1 c3.
Proof. unfold class_le. lia. Qed.

Lemma class_le_refl c : class_le c c.
Proof. unfold class_le. lia. Qed.

Lemma in_class_fl_of x : 0 < x -> in_class x (fl_of x) (lead x - SLLEN).
Proof.
  intros Hx. unfold in_class. replace (lead x - SLLEN + 1) with (lead x + 1 - SLLEN) by lia.
  rewrite !cmin_fl_of. unfold lead. pose proof (pow2_pos (Z.log2 x) (Z.log2_nonneg x)).
  pose proof (Z.mod_pos_bound (x * SLLEN) (2 ^ Z.log2 x) ltac:(lia)).
  pose proof (Z_div_mod_eq_full (x * SLLEN) (2 ^ Z.log2 x)). nia.
Qed.

(** The lists partition the sizes. *)
Lemma in_class_unique x c c' :
  0 <= c.1 -> 0 <= c.2 < SLLEN -> 0 <= c'.1 -> 0 <= c'.2 < SLLEN ->
  in_class x c.1 c.2 -> in_class x c'.1 c'.2 -> c = c'.
Proof.
  intros H1 H2 H3 H4 [Hl Hu] [Hl' Hu'].
  destruct (decide (c = c')) as [|Hne]; [done|].
  destruct (class_total c c') as [Hle|[Hle _]].
  - pose proof (cmin_next c c' ltac:(lia) ltac:(lia) ltac:(lia) Hle Hne). lia.
  - pose proof (cmin_next c' c ltac:(lia) ltac:(lia) ltac:(lia) Hle (not_eq_sym Hne)). lia.
Qed.

Lemma map_floor_Some x fl sl :
  valid_size x -> map_floor x = Ok (Some (fl, sl)) -> valid_class (fl, sl) /\ in_class x fl sl.
Proof.
  intros Hx. rewrite map_floor_eq by done. pose proof (fl_of_range x Hx).
  pose proof (valid_size_pos x Hx). pose proof (lead_bounds x ltac:(lia)).
  case_bool; [discriminate|]. intros [= <- <-]. split; [unfold valid_class; simpl; lia|].
  apply in_class_fl_of. lia.
Qed.

Lemma map_floor_in_class x fl sl :
  valid_size x -> valid_class (fl, sl) -> in_class x fl sl -> map_floor x = Ok (Some (fl, sl)).
Proof.
  intros Hx [Hf Hs] Hc. simpl in *. pose proof (fl_of_range x Hx).
  pose proof (valid_size_pos x Hx). pose proof (lead_bounds x ltac:(lia)).
  assert (E : (fl, sl) = (fl_of x, lead x - SLLEN)).
  { apply (in_class_unique x); simpl; [lia..|done|]. apply in_class_fl_of. lia. }
  simplify_eq. rewrite map_floor_eq by done. case_bool; [lia|done].
Qed.

Lemma fl_of_ge x k : 0 < x -> 0 <= k -> k <= fl_of x <-> 2 ^ (GRANULARITY_LOG2 + k) <= x.
Proof.
  intros Hx Hk. destruct GRANULARITY_pow as [_ HG].
  rewrite (Z.log2_le_pow2 x (GRANULARITY_LOG2 + k)) by lia. unfold fl_of. lia.
Qed.

Lemma map_floor_None x :
  valid_size x -> map_floor x = Ok None <-> 2 ^ (GRANULARITY_LOG2 + FLLEN) <= x.
Proof.
  intros Hx. pose proof (valid_size_pos x Hx). destruct VALID_inv as (HF & _).
  rewrite map_floor_eq, <- fl_of_ge by (done || lia).
  case_bool; split; intros; (done || lia || congruence).
Qed.

(** The list of a size below the maximum pool size. *)
Lemma map_floor_is_Some x :
  valid_size x -> x < 2 ^ (GRANULARITY_LOG2 + FLLEN) -> exists c, map_floor x = Ok (Some c).
Proof.
  intros Hx Hlt. rewrite map_floor_eq by done. case_bool; [|eauto].
  destruct VALID_inv as (HF & _). pose proof (valid_size_pos x Hx).
  apply fl_of_ge in Heqb; lia.
Qed.

(** [map_ceil] rounds the leading digits up. *)
Lemma MAX_POOL_SIZE_eq :
  MAX_POOL_SIZE = if GRANULARITY_LOG2 + FLLEN <? USIZE_BITS then Some (2 ^ (GRANULARITY_LOG2 + FLLEN)) else None.
Proof.
  destruct VALID_inv as (HF & _). destruct GRANULARITY_pow as [_ HG].
  unfold MAX_POOL_SIZE. rewrite as_u32_small by lia.
  by rewrite Z.shiftl_mul_pow2, Z.mul_1_l by lia.
Qed.

(** A block of a pool of admissible size is in some list. *)
Lemma map_floor_pool x :
  valid_size x -> match MAX_POOL_SIZE with Some mx => x < mx | None => True end ->
  exists c, map_floor x = Ok (Some c).
Proof.
  intros Hx. rewrite MAX_POOL_SIZE_eq. destruct VALID_inv as (HF & _). destruct GRANULARITY_pow as [_ HG].
  intros H. apply map_floor_is_Some; [done|]. case_bool in H; [done|].
  eapply Z.lt_le_trans; [apply Hx|]. apply pow2_le. pose proof USIZE_BITS_u32. lia.
Qed.

Lemma lead_up_bounds x :
  0 < x -> SLLEN <= lead_up x <= 2 * SLLEN /\
  (lead_up x - 1) * 2 ^ Z.log2 x < x * SLLEN <= lead_up x * 2 ^ Z.log2 x.
Proof.
  intros Hx. pose proof (lead_bounds x Hx). unfold lead_up, lead in *.
  pose proof (pow2_pos (Z.log2 x) (Z.log2_nonneg x)).
  pose proof (Z.mod_pos_bound (x * SLLEN) (2 ^ Z.log2 x) ltac:(lia)).
  pose proof (Z_div_mod_eq_full (x * SLLEN) (2 ^ Z.log2 x)). case_bool; nia.
Qed.

Definition ceil_class (x : Z) : Z * Z :=
  if lead_up x =? 2 * SLLEN then (fl_of x + 1, 0) else (fl_of x, lead_up x - SLLEN).

Lemma ceil_class_cmin x :
  valid_size x -> cmin (ceil_class x).1 (ceil_class x).2 = lead_up x * 2 ^ Z.log2 x.
Proof.
  intros Hx. pose proof (fl_of_range x Hx). unfold ceil_class. case_bool; simpl.
  - rewrite <- cmin_carry by lia. replace SLLEN with (2 * SLLEN - SLLEN) at 1 by lia.
    rewrite cmin_fl_of. by rewrite Heqb.
  - apply cmin_fl_of.
Qed.

Lemma ceil_class_valid x :
  valid_size x -> 0 <= (ceil_class x).1 /\ 0 <= (ceil_class x).2 < SLLEN.
Proof.
  intros Hx. pose proof (fl_of_range x Hx). pose proof (valid_size_pos x Hx).
  pose proof (lead_up_bounds x ltac:(lia)). destruct VALID_inv as (_ & HS & _).
  unfold ceil_class. case_bool; simpl; lia.
Qed.

Lemma ceil_class_sound x :
  valid_size x -> x * SLLEN <= cmin (ceil_class x).1 (ceil_class x).2.
Proof.
  intros Hx. rewrite ceil_class_cmin by done. pose proof (valid_size_pos x Hx).
  apply lead_up_bounds. lia.
Qed.

(** Every earlier list may hold a block that is too small. *)
Lemma ceil_class_first x c :
  valid_size x -> 0 <= c.1 -> 0 <= c.2 < SLLEN -> class_le c (ceil_class x) -> c <> ceil_class x ->
  cmin c.1 c.2 < x * SLLEN.
Proof.
  intros Hx H1 H2 Hle Hne. pose proof (fl_of_range x Hx). pose proof (valid_size_pos x Hx).
  pose proof (lead_up_bounds x ltac:(lia)) as [Hb1 Hb2].
  assert (Hcase : class_le c (fl_of x, lead_up x - SLLEN - 1) \/ (c.1 < fl_of x)).
  { unfold ceil_class, class_le in *. destruct c as [fl sl]; simpl in *.
    destruct (Z.eqb_spec (lead_up x) (2 * SLLEN)); simpl in *.
    { destruct (decide (fl = fl_of x + 1)) as [->|]; [|lia].
      destruct (decide (sl = 0)); [congruence|lia]. }
    destruct (decide (fl = fl_of x)) as [->|]; [|lia].
    destruct (decide (sl = lead_up x - SLLEN)); [congruence|lia]. }
  destruct (decide (c.1 < fl_of x)) as [Hlt|].
  - pose proof (in_class_fl_of x ltac:(lia)) as [Hin _].
    pose proof (lead_bounds x ltac:(lia)).
    pose proof (cmin_next c (fl_of x, lead x - SLLEN)) as Hn. unfold class_le in Hn. simpl in Hn.
    specialize (Hn ltac:(lia) ltac:(lia) ltac:(lia) ltac:(lia)).
    assert (c <> (fl_of x, lead x - SLLEN)) by (intros ->; simpl in Hlt; lia).
    specialize (Hn ltac:(done)).
    assert (cmin c.1 c.2 < cmin c.1 (c.2 + 1)); [|lia].
    unfold cmin. destruct GRANULARITY_pow. assert (0 < 2 ^ (c.1 + GRANULARITY_LOG2)) by (apply pow2_pos; lia). nia.
  - destruct Hcase as [[?|[E Hsl]]|]; simpl in *; [lia| |lia].
    rewrite E. apply (Z.le_lt_trans _ (cmin (fl_of x) (lead_up x - 1 - SLLEN))).
    + apply cmin_sl_mono; lia.
    + rewrite cmin_fl_of. lia.
Qed.

Lemma map_ceil_class x :
  valid_size x ->
  map_ceil x = Ok (if FLLEN <=? (ceil_class x).1 then None else Some (ceil_class x)).
Proof. intros. by rewrite map_ceil_eq. Qed.

(** ** [map_ceil_and_unmap] *)

(** The first-level indices that are both present in the array and
    representable in [usize]. *)
Definition FL_usable : Z := Z.min FLLEN (USIZE_BITS - GRANULARITY_LOG2).

Lemma map_floor_usable x c : valid_size x -> map_floor x = Ok (Some c) -> c.1 < FL_usable.
Proof.
  intros Hx. rewrite map_floor_eq by done. pose proof (fl_of_range x Hx).
  case_bool; [discriminate|]. intros [= <-]. unfold FL_usable; simpl. lia.
Qed.

Lemma max1_eq :
  usize_not (Z.shiftr USIZE_MAX (SLI + 1)) = (2 * SLLEN - 1) * 2 ^ (USIZE_BITS - 1 - SLI).
Proof.
  destruct SLLEN_pow as [ES HSLI]. pose proof USIZE_BITS_u32 as [HB _].
  unfold usize_not, USIZE_MAX, USIZE_MOD. rewrite Z.shiftr_div_pow2 by lia.
  assert (E : 2 ^ USIZE_BITS = 2 ^ (USIZE_BITS - 1 - SLI) * 2 ^ (SLI + 1)).
  { rewrite <- Z.pow_add_r by lia. f_equal. lia. }
  assert (0 < 2 ^ (SLI + 1)) by (apply pow2_pos; lia).
  replace ((2 ^ USIZE_BITS - 1) / 2 ^ (SLI + 1)) with (2 ^ (USIZE_BITS - 1 - SLI) - 1).
  2: { apply (Z.div_unique_pos _ _ _ (2 ^ (SLI + 1) - 1)); [lia|]. rewrite E. ring. }
  rewrite E, pow2_succ, <- ES by lia. ring.
Qed.

Lemma max_input_spec x :
  0 < x -> x <= MAX_MAP_CEIL_AND_UNMAP_INPUT <-> x * SLLEN <= cmin (FL_usable - 1) (SLLEN - 1).
Proof.
  intros Hx. destruct SLLEN_pow as [ES HSLI]. pose proof USIZE_BITS_u32 as [HB _].
  destruct VALID_inv as (HF & HS & _). destruct GRANULARITY_pow as [_ HG]. pose proof GRANULARITY_bits.
  set (d := USIZE_BITS - GRANULARITY_LOG2 - FL_usable).
  assert (Hd : 0 <= d < USIZE_BITS) by (unfold d, FL_usable; lia).
  assert (Em : MAX_MAP_CEIL_AND_UNMAP_INPUT = (2 * SLLEN - 1) * 2 ^ (USIZE_BITS - 1 - SLI) / 2 ^ d).
  { unfold MAX_MAP_CEIL_AND_UNMAP_INPUT. rewrite max1_eq, as_u32_small by lia.
    unfold d, FL_usable. case_bool.
    - rewrite Z.shiftr_div_pow2 by lia. do 2 f_equal. lia.
    - replace (USIZE_BITS - GRANULARITY_LOG2 - _) with 0 by lia. by rewrite Z.div_1_r. }
  assert (0 < 2 ^ d) by (apply pow2_pos; lia).
  rewrite Em. transitivity (x * 2 ^ d <= (2 * SLLEN - 1) * 2 ^ (USIZE_BITS - 1 - SLI)).
  { split; intros Hle.
    - etrans; [apply Z.mul_le_mono_nonneg_r; [lia|apply Hle]|]. rewrite Z.mul_comm.
      apply Z.mul_div_le. lia.
    - apply Z.div_le_lower_bound; lia. }
  unfold cmin. replace (FL_usable - 1 + GRANULARITY_LOG2) with (USIZE_BITS - 1 - d) by lia.
  assert (E : 2 ^ (USIZE_BITS - 1 - SLI) * SLLEN = 2 ^ (USIZE_BITS - 1 - d) * 2 ^ d).
  { rewrite ES, <- !Z.pow_add_r by (unfold d, FL_usable; lia). f_equal. lia. }
  nia.
Qed.

Lemma max_input_class x :
  valid_size x -> x <= MAX_MAP_CEIL_AND_UNMAP_INPUT <-> (ceil_class x).1 < FL_usable.
Proof.
  intros Hx. pose proof (valid_size_pos x Hx). rewrite max_input_spec by lia.
  destruct VALID_inv as (HF & HS & _). destruct GRANULARITY_pow as [_ HG]. pose proof GRANULARITY_bits.
  destruct (ceil_class_valid x Hx) as [H1 H2]. pose proof (ceil_class_sound x Hx).
  assert (HFL : 1 <= FL_usable) by (unfold FL_usable; lia). split; intros Hle.
  - destruct (decide ((ceil_class x).1 < FL_usable)) as [|Hn]; [done|].
    pose proof (ceil_class_first x (FL_usable - 1, SLLEN - 1) Hx) as Hf. unfold class_le in Hf. simpl in Hf.
    assert ((FL_usable - 1, SLLEN - 1) <> ceil_class x) by (intros E; rewrite <- E in Hn; simpl in Hn; lia).
    specialize (Hf ltac:(lia) ltac:(lia) ltac:(lia) ltac:(done)). lia.
  - etrans; [done|]. apply (cmin_mono (ceil_class x) (FL_usable - 1, SLLEN - 1)); simpl; [lia..|].
    unfold class_le; simpl. lia.
Qed.

(** The rounding computes the minimum of the list [map_ceil] selects. *)
Lemma lead_up_exact x : 0 < x -> Z.log2 x < SLI -> x * SLLEN = lead_up x * 2 ^ Z.log2 x.
Proof.
  intros Hx Hn. destruct SLLEN_pow as [ES HSLI]. pose proof (Z.log2_nonneg x).
  assert (Hd : (2 ^ Z.log2 x | x * SLLEN)).
  { apply Z.divide_mul_r. rewrite ES, (pow2_split SLI (Z.log2 x)) by lia. apply Z.divide_factor_r. }
  unfold lead_up, lead. apply Z.mod_divide in Hd as E; [|pose proof (pow2_pos (Z.log2 x)); lia].
  rewrite E, Z.add_0_r. destruct Hd as [k Hk]. rewrite Hk, Z.div_mul; [done|].
  pose proof (pow2_pos (Z.log2 x)); lia.
Qed.

Lemma lead_up_round x :
  0 < x -> SLI <= Z.log2 x ->
  round_up (2 ^ (Z.log2 x - SLI)) x = lead_up x * 2 ^ (Z.log2 x - SLI).
Proof.
  intros Hx Hn. destruct SLLEN_pow as [ES HSLI]. destruct VALID_inv as (_ & HS & _).
  set (g := 2 ^ (Z.log2 x - SLI)). assert (Hg : 0 < g) by (apply pow2_pos; lia).
  assert (En : 2 ^ Z.log2 x = g * SLLEN) by (unfold g; rewrite ES, <- Z.pow_add_r by lia; f_equal; lia).
  destruct (lead_up_bounds x Hx) as [_ Hb]. rewrite En in Hb.
  destruct (round_up_spec g x Hg) as [Hr [k Hk]]. rewrite Hk in *. f_equal.
  assert ((lead_up x - 1) * g < x <= lead_up x * g) by nia. nia.
Qed.

(** The size [map_ceil_and_unmap] returns: the smallest one in its list. *)
Definition list_min (x : Z) : Z :=
  if Z.log2 x <? SLI then x else round_up (2 ^ (Z.log2 x - SLI)) x.

Lemma list_min_spec x :
  valid_size x ->
  list_min x * SLLEN = cmin (ceil_class x).1 (ceil_class x).2 /\
  (GRANULARITY | list_min x) /\ x <= list_min x.
Proof.
  intros Hx. pose proof (valid_size_pos x Hx) as Hp. rewrite ceil_class_cmin by done.
  destruct SLLEN_pow as [ES HSLI]. destruct GRANULARITY_pow as [EG HG]. unfold list_min. case_bool.
  - split; [apply lead_up_exact; lia|]. destruct Hx. split; [done|lia].
  - assert (Hg : 0 < 2 ^ (Z.log2 x - SLI)) by (apply pow2_pos; lia).
    destruct (round_up_spec (2 ^ (Z.log2 x - SLI)) x Hg) as [Hr Hd]. split_and!; [| |lia].
    + rewrite lead_up_round, ES, <- Z.mul_assoc, <- Z.pow_add_r by lia. do 2 f_equal. lia.
    + destruct (decide (GRANULARITY_LOG2 <= Z.log2 x - SLI)).
      * etrans; [|apply Hd]. rewrite EG. rewrite (pow2_split (Z.log2 x - SLI) GRANULARITY_LOG2) by lia.
        apply Z.divide_factor_r.
      * destruct Hx as [_ Hx]. rewrite round_up_id; [done|done|]. etrans; [|apply Hx]. rewrite EG.
        rewrite (pow2_split GRANULARITY_LOG2 (Z.log2 x - SLI)) by lia. apply Z.divide_factor_r.
Qed.

(** A block is in a list that is searched iff it is as large as the minimum. *)
Lemma class_list_min x y c :
  valid_size x -> valid_size y -> map_floor y = Ok (Some c) ->
  class_le (ceil_class x) c <-> list_min x <= y.
Proof.
  intros Hx Hy Hc. destruct c as [fl sl]. apply map_floor_Some in Hc as [[Hc1 Hc2] [Hlo Hhi]]; [|done].
  destruct (list_min_spec x Hx) as (E & _ & _). destruct (ceil_class_valid x Hx) as [Hv1 Hv2].
  destruct VALID_inv as (_ & HS & _). simpl in *. split.
  - intros Hle. pose proof (cmin_mono (ceil_class x) (fl, sl)) as Hm. simpl in Hm.
    specialize (Hm ltac:(lia) ltac:(lia) ltac:(lia) Hle). nia.
  - intros Hle. destruct (class_total (ceil_class x) (fl, sl)) as [|[Hlt Hne]]; [done|].
    pose proof (cmin_next (fl, sl) (ceil_class x)) as Hm. simpl in Hm.
    specialize (Hm ltac:(lia) ltac:(lia) ltac:(lia) Hlt ltac:(done)). nia.
Qed.

Lemma list_min_usize x :
  valid_size x -> (ceil_class x).1 < FL_usable -> Z.log2 x >= SLI ->
  x + 2 ^ (Z.log2 x - SLI) - 1 < USIZE_MOD.
Proof.
  intros Hx Hc Hn. pose proof (valid_size_pos x Hx) as Hp.
  apply max_input_class in Hc; [|done]. apply max_input_spec in Hc; [|lia].
  destruct SLLEN_pow as [ES HSLI]. destruct VALID_inv as (_ & HS & _). pose proof USIZE_BITS_u32 as [HB _].
  assert (Hlog : Z.log2 x < USIZE_BITS) by (apply Z.log2_lt_pow2; [lia|apply Hp]).
  assert (Hle : cmin (FL_usable - 1) (SLLEN - 1) <= (2 * SLLEN - 1) * 2 ^ (USIZE_BITS - 1)).
  { unfold cmin, FL_usable in *. destruct VALID_inv as (HF & _). destruct GRANULARITY_pow. pose proof GRANULARITY_bits.
    assert (2 ^ (Z.min FLLEN (USIZE_BITS - GRANULARITY_LOG2) - 1 + GRANULARITY_LOG2) <= 2 ^ (USIZE_BITS - 1))
      by (apply pow2_le; lia). nia. }
  assert (E : 2 ^ (USIZE_BITS - 1) = 2 ^ (USIZE_BITS - 1 - SLI) * SLLEN)
    by (rewrite ES, <- Z.pow_add_r by lia; f_equal; lia).
  assert (E2 : USIZE_MOD = 2 * SLLEN * 2 ^ (USIZE_BITS - 1 - SLI)).
  { unfold USIZE_MOD. rewrite ES. change (2 * 2 ^ SLI) with (2 ^ 1 * 2 ^ SLI).
    rewrite <- !Z.pow_add_r by lia. f_equal. lia. }
  assert (2 ^ (Z.log2 x - SLI) <= 2 ^ (USIZE_BITS - 1 - SLI)) by (apply pow2_le; lia). nia.
Qed.

Lemma map_ceil_and_unmap_eq x :
  valid_size x ->
  map_ceil_and_unmap x = Ok (if FL_usable <=? (ceil_class x).1 then None else Some (list_min x)).
Proof.
  intros Hx. destruct (size_checks x Hx) as (E1 & E2 & E3). unfold map_ceil_and_unmap.
  rewrite E1, E2, E3. simpl. pose proof (max_input_class x Hx) as Hmax.
  destruct (Z.leb_spec FL_usable (ceil_class x).1) as [Hc|Hc].
  { destruct (Z.ltb_spec MAX_MAP_CEIL_AND_UNMAP_INPUT x) as [|Hle]; [done|]. apply Hmax in Hle. lia. }
  apply Hmax in Hc as Hle. destruct (Z.ltb_spec MAX_MAP_CEIL_AND_UNMAP_INPUT x); [lia|].
  unfold list_min. pose proof (fl_of_range x Hx).
  destruct SLLEN_pow as [ES HSLI]. pose proof USIZE_BITS_u32 as [HB _].
  replace ((GRANULARITY_LOG2 <? SLI) && (fl_of x <? SLI - GRANULARITY_LOG2)) with (Z.log2 x <? SLI).
  2: { unfold fl_of in *. destruct (Z.ltb_spec GRANULARITY_LOG2 SLI), (Z.ltb_spec (Z.log2 x) SLI);
       symmetry; simpl; rewrite ?Z.ltb_lt, ?Z.ltb_ge; (done || lia). }
  case_bool; [done|]. unfold u32_sub. replace (fl_of x + GRANULARITY_LOG2) with (Z.log2 x) by (unfold fl_of; lia).
  destruct (Z.leb_spec SLI (Z.log2 x)); [|lia]. simpl. rewrite Z.shiftl_mul_pow2, Z.mul_1_l by lia.
  pose proof (list_min_usize x Hx Hc ltac:(lia)). pose proof (valid_size_pos x Hx).
  rewrite uadd_ok by lia. simpl. rewrite Z.add_sub_assoc, land_round_up; [done| |lia|lia].
  unfold fl_of in *. destruct GRANULARITY_pow. lia.
Qed.

End SizeClassLemmas.

(** ** Properties *)

Section SizeClassProperties.
Context {T : Target} {P : TlsfParams} {Pok : ParamsOk P}.

(** C30: [map_floor] never panics on a valid block size and returns the one list
    whose size range contains it; it returns [None] exactly when the size is
    [GRANULARITY << FLLEN] or more. *)
Theorem map_floor_correct size :
  valid_size size ->
  exists o, map_floor size = Ok o /\
    match o with
    | Some c => valid_class c /\ in_class size c.1 c.2 /\
                forall c', valid_class c' -> in_class size c'.1 c'.2 -> c' = c
    | None => 2 ^ (GRANULARITY_LOG2 + FLLEN) <= size
    end.
Proof.
  intros Hs. destruct (Z.lt_ge_cases size (2 ^ (GRANULARITY_LOG2 + FLLEN))) as [Hlt|Hge].
  - destruct (map_floor_is_Some size Hs Hlt) as [[fl sl] E]. exists (Some (fl, sl)). split; [done|].
    destruct (map_floor_Some size fl sl Hs E) as [Hc Hin]. split_and!; [done|done|].
    intros [fl' sl'] Hc' Hin'. apply (map_floor_in_class size fl' sl') in Hin'; [|done|done]. congruence.
  - exists None. split; [|done]. apply map_floor_None; done.
Qed.

(** C31: [map_ceil] never panics on a valid size and returns the first list all
    of whose blocks are large enough: the smallest size of the list it returns
    is at least the request, every list before it may hold a smaller block,
    and [None] means that no list of the allocator qualifies. *)
Theorem map_ceil_correct size :
  valid_size size ->
  exists o, map_ceil size = Ok o /\
    match o with
    | Some c => valid_class c /\ size * SLLEN <= cmin c.1 c.2 /\
                forall c', valid_class c' -> class_le c' c -> c' <> c -> cmin c'.1 c'.2 < size * SLLEN
    | None => forall c, valid_class c -> cmin c.1 c.2 < size * SLLEN
    end.
Proof.
  intros Hs. rewrite map_ceil_class by done. destruct (ceil_class_valid size Hs) as [H1 H2].
  destruct (Z.leb_spec FLLEN (ceil_class size).1) as [Hge|Hlt].
  - exists None. split; [done|]. intros c [Hc1 Hc2]. apply ceil_class_first; [done|lia|done|left; lia|].
    intros E. rewrite E in Hc1. lia.
  - exists (Some (ceil_class size)). split; [done|]. split; [split; lia|split].
    + by apply ceil_class_sound.
    + intros c [Hc1 Hc2] Hle Hne. apply ceil_class_first; (done || lia).
Qed.

(** C32: [map_ceil_and_unmap] returns the smallest block size of the list that
    [map_ceil] selects, a multiple of the granule no smaller than the request,
    without overflowing; it returns [None] exactly when that list does not
    exist or its sizes are not representable. *)
Theorem map_ceil_and_unmap_correct size :
  valid_size size ->
  exists o, map_ceil_and_unmap size = Ok o /\
    match o with
    | Some m => map_ceil size = Ok (Some (ceil_class size)) /\
                m * SLLEN = cmin (ceil_class size).1 (ceil_class size).2 /\
                (GRANULARITY | m) /\ size <= m
    | None => FL_usable <= (ceil_class size).1
    end.
Proof.
  intros Hs. rewrite map_ceil_and_unmap_eq by done.
  destruct (Z.leb_spec FL_usable (ceil_class size).1) as [Hge|Hlt]; [by exists None|].
  exists (Some (list_min size)). split; [done|]. split; [|by apply list_min_spec].
  rewrite map_ceil_class by done. unfold FL_usable in Hlt. by rewrite (proj2 (Z.leb_gt _ _)) by lia.
Qed.

End SizeClassProperties.
