(* ===== verification/Machine.v ===== *)
(** * Memory and computations

    Memory is a finite map from byte addresses to bytes, some of which may be
    uninitialised ([MaybeUninit]); an address outside the map is not owned
    and touching it is undefined behaviour.  Words are stored in the byte
    order of the target, so that every overlap between headers, footers and
    payloads of the allocator is the one of the machine.

    [M S] is the state-and-outcome monad the stateful code is written in, and
    [wp] its total-correctness predicate: [wp m s Q] says that [m], run from
    [s], returns (no panic, no undefined behaviour) and that the result
    satisfies [Q]. *)

From S2P Require Import Prelude Usize.
From coqutil Require Import LittleEndianList.

Abbreviation Mem := (gmap Z (option Byte.byte)).

(** ** Raw bytes *)

(** Bytes [a .. a+n) as they are, initialised or not. *)
Fixpoint read_raw (m : Mem) (a : Z) (n : nat) : Res (list (option Byte.byte)) :=
  match n with
  | O => Ok []
  | S n =>
      match m !! a with
      | Some b => bs ← read_raw m (a + 1) n; Ok (b :: bs)
      | None => Fail UnmappedAccess
      end
  end.

Fixpoint write_raw (m : Mem) (a : Z) (bs : list (option Byte.byte)) : Res Mem :=
  match bs with
  | [] => Ok m
  | b :: bs =>
      match m !! a with
      | Some _ => write_raw (<[a := b]> m) (a + 1) bs
      | None => Fail UnmappedAccess
      end
  end.

Fixpoint initialized (bs : list (option Byte.byte)) : Res (list Byte.byte) :=
  match bs with
  | [] => Ok []
  | Some b :: bs => bs ← initialized bs; Ok (b :: bs)
  | None :: _ => Fail UninitRead
  end.

(** [ptr::copy(src, dst, n)] (memmove). *)
Definition copy_mem (m : Mem) (src dst n : Z) : Res Mem :=
  bs ← read_raw m src (Z.to_nat n); write_raw m dst bs.

(** [ptr::copy_nonoverlapping(src, dst, n)]: the ranges must not overlap. *)
Definition copy_nonoverlapping_mem (m : Mem) (src dst n : Z) : Res Mem :=
  if (src + n <=? dst) || (dst + n <=? src) then copy_mem m src dst n else Fail UnmappedAccess.

(** [ptr.write_bytes(b, n)]. *)
Definition write_bytes_mem (m : Mem) (dst : Z) (b : Byte.byte) (n : Z) : Res Mem :=
  write_raw m dst (replicate (Z.to_nat n) (Some b)).

(** ** Words *)

Section Words.
Context {T : Target}.

Definition word_bytes (w : Z) : list Byte.byte :=
  let bs := le_split (Z.to_nat WORD) w in
  if big_endian then reverse bs else bs.

Definition bytes_word (bs : list Byte.byte) : Z :=
  le_combine (if big_endian then reverse bs else bs).

Definition load_word (m : Mem) (a : Z) : Res Z :=
  bs ← read_raw m a (Z.to_nat WORD);
  bs ← initialized bs;
  Ok (bytes_word bs).

Definition store_word (m : Mem) (a w : Z) : Res Mem := write_raw m a (Some <$> word_bytes w).

End Words.

(** ** The monad *)

Definition M (S A : Type) : Type := S -> Res (A * S).

#[export] Instance M_ret {S} : MRet (M S) := fun _ a s => Ok (a, s).
#[export] Instance M_bind {S} : MBind (M S) := fun _ _ f m s =>
  match m s with Ok (a, s') => f a s' | Fail e => Fail e end.

Definition lift {S A} (r : Res A) : M S A := fun s =>
  match r with Ok a => Ok (a, s) | Fail e => Fail e end.

(** [return None] on a failed [?]. *)
Notation "'let?' x := o 'in' k" :=
  (match o with Some x => k | None => mret None end)
  (at level 10, x name, o at level 100, k at level 200).

Definition wp {S A} (m : M S A) (s : S) (Q : A -> S -> Prop) : Prop :=
  exists a s', m s = Ok (a, s') /\ Q a s'.

Section Wp.
Context {S : Type}.

Lemma wp_ret {A} (a : A) (s : S) (Q : A -> S -> Prop) : Q a s -> wp (mret a) s Q.
Proof. intros. by exists a, s. Qed.

Lemma wp_bind {A B} (m : M S A) (f : A -> M S B) s Q :
  wp m s (fun a s' => wp (f a) s' Q) -> wp (m ≫= f) s Q.
Proof.
  intros (a & s' & E & b & s'' & E' & H). exists b, s''. split; [|done].
  unfold mbind, M_bind. by rewrite E.
Qed.

Lemma wp_mono {A} (m : M S A) s (Q Q' : A -> S -> Prop) :
  wp m s Q -> (forall a s', Q a s' -> Q' a s') -> wp m s Q'.
Proof. intros (a & s' & E & H) HQ. exists a, s'. eauto. Qed.

Lemma wp_and {A} (m : M S A) s (Q Q' : A -> S -> Prop) :
  wp m s Q -> wp m s Q' -> wp m s (fun a s' => Q a s' /\ Q' a s').
Proof. intros (a & s' & E & H) (a' & s'' & E' & H'). rewrite E in E'. injection E' as <- <-. by exists a, s'. Qed.

Lemma wp_eq {A} (m : M S A) s (Q : A -> S -> Prop) : wp m s Q -> wp m s (fun a s' => m s = Ok (a, s') /\ Q a s').
Proof. intros (a & s' & E & H). by exists a, s'. Qed.

Lemma wp_assoc {A B C} (m : M S A) (k : A -> M S B) (f : B -> M S C) s Q :
  wp ((m ≫= k) ≫= f) s Q -> wp (m ≫= fun a => k a ≫= f) s Q.
Proof.
  unfold wp, mbind, M_bind. intros (c & s' & E & HQ). exists c, s'. split; [|done].
  destruct (m s) as [[a s1]|err]; done.
Qed.

Lemma wp_lift {A} (r : Res A) a s (Q : A -> S -> Prop) : r = Ok a -> Q a s -> wp (lift r) s Q.
Proof. intros -> H. by exists a, s. Qed.

Lemma wp_check b (s : S) (Q : unit -> S -> Prop) : b = true -> Q tt s -> wp (lift (check b)) s Q.
Proof. intros -> H. by exists tt, s. Qed.

End Wp.

(** [wp] of a lifted pure computation whose value is known. *)
Ltac wp_pure E := apply wp_bind; eapply wp_lift; [apply E|cbv beta].

(** ** Memory lemmas *)

(** All bytes of [[a, a+n)] are mapped. *)
Definition mapped (m : Mem) (a n : Z) : Prop := forall x, a <= x < a + n -> is_Some (m !! x).

(** [m'] is [m] changed inside [D] at most; nothing was unmapped. *)
Record mem_step (D : Z -> Prop) (m m' : Mem) : Prop := {
  mem_step_eq x : ~ D x -> m' !! x = m !! x;
  mem_step_mapped x : is_Some (m !! x) -> is_Some (m' !! x)
}.

Definition in_word {T : Target} (a x : Z) : Prop := a <= x < a + WORD.

Lemma mem_step_refl D m : mem_step D m m.
Proof. by split. Qed.

Lemma mem_step_trans D m1 m2 m3 : mem_step D m1 m2 -> mem_step D m2 m3 -> mem_step D m1 m3.
Proof. intros [E1 M1] [E2 M2]. split; intros; [rewrite E2, E1|]; auto. Qed.

Lemma mem_step_weaken (D D' : Z -> Prop) m m' :
  mem_step D m m' -> (forall x, D x -> D' x) -> mem_step D' m m'.
Proof. intros [E H] HD. split; auto. Qed.

Lemma mapped_step D m m' a n : mem_step D m m' -> mapped m a n -> mapped m' a n.
Proof. intros Hs Hm x Hx. eapply mem_step_mapped; eauto. Qed.

Lemma mapped_sub m a n b k : mapped m a n -> a <= b -> b + k <= a + n -> mapped m b k.
Proof. intros H ?? x Hx. apply H. lia. Qed.

Lemma read_raw_ext m m' a n :
  (forall x, a <= x < a + Z.of_nat n -> m' !! x = m !! x) -> read_raw m' a n = read_raw m a n.
Proof.
  revert a. induction n as [|n IH]; intros a H; [done|]. simpl.
  rewrite H by lia. rewrite IH; [done|]. intros. apply H. lia.
Qed.

Lemma read_raw_mapped m a n :
  mapped m a (Z.of_nat n) -> exists bs, read_raw m a n = Ok bs /\ length bs = n /\
    forall i : nat, (i < n)%nat -> bs !! i = m !! (a + Z.of_nat i).
Proof.
  revert a. induction n as [|n IH]; intros a H; simpl; [exists []; repeat split; lia|].
  destruct (H a) as [b Hb]; [lia|]. rewrite Hb.
  destruct (IH (a + 1)) as (bs & E & Hl & Hi); [intros x Hx; apply H; lia|].
  rewrite E. exists (b :: bs). split_and!; [done|simpl; lia|]. intros [|i] Hlt; simpl.
  - by rewrite Z.add_0_r.
  - rewrite Hi by lia. f_equal. lia.
Qed.

Lemma write_raw_ok m a bs :
  mapped m a (Z.of_nat (length bs)) ->
  exists m', write_raw m a bs = Ok m' /\
    mem_step (fun x => a <= x < a + Z.of_nat (length bs)) m m' /\
    forall i : nat, (i < length bs)%nat -> m' !! (a + Z.of_nat i) = bs !! i.
Proof.
  revert m a. induction bs as [|b bs IH]; intros m a H; simpl.
  - exists m. split_and!; [done|apply mem_step_refl|lia].
  - destruct (H a) as [b0 Hb]; [simpl; lia|]. rewrite Hb.
    destruct (IH (<[a:=b]> m) (a + 1)) as (m' & E & [He Hm] & Hi).
    { intros x Hx. destruct (decide (x = a)) as [->|]; [rewrite lookup_insert_eq; eauto|].
      rewrite lookup_insert_ne by done. apply H. simpl. lia. }
    exists m'. split_and!; [done| |].
    + split; intros x Hx.
      * rewrite He by lia. apply lookup_insert_ne. lia.
      * apply Hm. destruct (decide (x = a)) as [->|]; [rewrite lookup_insert_eq; eauto|].
        by rewrite lookup_insert_ne.
    + intros [|i] Hlt; simpl.
      * rewrite He by lia. rewrite Z.add_0_r. apply lookup_insert_eq.
      * rewrite <- Hi by lia. f_equal. lia.
Qed.

(** [memmove] copies every byte, initialised or not, overlap or not. *)
Lemma copy_mem_ok m src dst n :
  0 <= n -> mapped m src n -> mapped m dst n ->
  exists m', copy_mem m src dst n = Ok m' /\ mem_step (fun x => dst <= x < dst + n) m m' /\
    forall i, 0 <= i < n -> m' !! (dst + i) = m !! (src + i).
Proof.
  intros Hn Hs Hd. destruct (read_raw_mapped m src (Z.to_nat n)) as (bs & Er & Hl & Hb).
  { by rewrite Z2Nat.id. }
  destruct (write_raw_ok m dst bs) as (m' & Ew & Hst & Hi).
  { by rewrite Hl, Z2Nat.id. }
  rewrite Hl, Z2Nat.id in Hst by done. exists m'. unfold copy_mem. rewrite Er. simpl. split_and!; [done|done|].
  intros i Hin. pose proof (Hi (Z.to_nat i)) as Hw. rewrite Z2Nat.id in Hw by lia. rewrite Hw by lia.
  rewrite Hb by lia. by rewrite Z2Nat.id by lia.
Qed.

Lemma initialized_fmap bs : initialized (Some <$> bs) = Ok bs.
Proof. induction bs as [|b bs IH]; [done|]. rewrite fmap_cons. cbn [initialized]. by rewrite IH. Qed.

Section WordLemmas.
Context {T : Target}.

Lemma length_word_bytes w : length (word_bytes w) = Z.to_nat WORD.
Proof.
  unfold word_bytes. destruct big_endian; rewrite ?length_reverse; apply length_le_split.
Qed.

Lemma bytes_word_bytes w : is_usize w -> bytes_word (word_bytes w) = w.
Proof.
  intros Hw. pose proof WORD_pos. unfold bytes_word, word_bytes.
  replace (if big_endian then _ else _) with (le_split (Z.to_nat WORD) w)
    by (destruct big_endian; by rewrite ?reverse_involutive).
  rewrite le_combine_split, Z2Nat.id by lia. apply Z.mod_small.
  unfold is_usize, USIZE_MOD, USIZE_BITS in Hw. by rewrite Z.mul_comm.
Qed.

(** The word at [a] is initialised and holds [w]. *)
Definition word_at (m : Mem) (a w : Z) : Prop := load_word m a = Ok w.

Lemma word_at_ext m m' a w :
  (forall x, in_word a x -> m' !! x = m !! x) -> word_at m a w -> word_at m' a w.
Proof.
  unfold word_at, load_word, in_word. intros H <-. pose proof WORD_pos.
  rewrite (read_raw_ext m m'); [done|]. intros x Hx. apply H. lia.
Qed.

Lemma word_at_step D m m' a w :
  mem_step D m m' -> (forall x, in_word a x -> ~ D x) -> word_at m a w -> word_at m' a w.
Proof. intros [E _] HD. apply word_at_ext. auto. Qed.

Lemma word_at_inj m a w w' : word_at m a w -> word_at m a w' -> w = w'.
Proof. unfold word_at. congruence. Qed.

Lemma store_word_ok m a w :
  mapped m a WORD -> is_usize w ->
  exists m', store_word m a w = Ok m' /\ mem_step (in_word a) m m' /\ word_at m' a w.
Proof.
  intros Hm Hw. pose proof WORD_pos.
  assert (Hlen : length (Some <$> word_bytes w) = Z.to_nat WORD).
  { by rewrite length_fmap, length_word_bytes. }
  destruct (write_raw_ok m a (Some <$> word_bytes w)) as (m' & E & Hs & Hi).
  { rewrite Hlen, Z2Nat.id by lia. done. }
  rewrite Hlen in Hs, Hi. exists m'. split_and!; [done| |].
  - eapply mem_step_weaken; [done|]. intros x Hx. unfold in_word. cbv beta in Hx. lia.
  - destruct (read_raw_mapped m' a (Z.to_nat WORD)) as (bs & Er & Hl & Hb).
    { rewrite Z2Nat.id by lia. by eapply mapped_step. }
    unfold word_at, load_word. rewrite Er. simpl.
    replace bs with (Some <$> word_bytes w).
    + rewrite initialized_fmap. simpl. by rewrite bytes_word_bytes.
    + apply list_eq. intros i. destruct (decide (i < Z.to_nat WORD)%nat).
      * by rewrite Hb, Hi by lia.
      * rewrite !lookup_ge_None_2 by lia. done.
Qed.

End WordLemmas.

Arguments load_word : simpl never.
Arguments store_word : simpl never.
Arguments copy_mem : simpl never.

(** A word stored at a mapped address is read back, in either byte order,
    and the store changes the bytes of that word only. *)
Theorem store_load_word {T : Target} m a w :
  mapped m a WORD -> is_usize w ->
  exists m', store_word m a w = Ok m' /\ load_word m' a = Ok w /\ mem_step (in_word a) m m'.
Proof. intros Hm Hw. destruct (store_word_ok m a w Hm Hw) as (m' & E & Hs & Hl). by exists m'. Qed.
