(* ===== verification/Header.v ===== *)
(** * tlsf.rs: the structures in memory and the state of [Tlsf]

    Block headers live in memory; a typed pointer is an address together with
    the structure it points to, which fixes the alignment a dereference
    requires and the offsets of the fields.  [Option<NonNull<_>>] is a word,
    null standing for [None].  [Tlsf] is the header structure (bitmaps and
    list heads) and [St] the state the methods run on. *)

From S2P Require Import Prelude Usize BinInteger SizeClass Machine.

(** The four structures overlaid on a block. *)
Inductive HdrTy := BlockHdr | UsedBlockHdr | FreeBlockHdr | UsedBlockPad.

Record Tlsf := mkTlsf {
  fl_bitmap : Z;
  sl_bitmap : list Z;
  first_free : list (list Z)
}.

Record St := mkSt { st_tlsf : Tlsf; st_mem : Mem }.

Definition with_tlsf (s : St) (h : Tlsf) : St := mkSt h (st_mem s).
Definition with_mem (s : St) (m : Mem) : St := mkSt (st_tlsf s) m.

Section Header.
Context {T : Target} {P : TlsfParams}.

(** [align_of], from the [repr] attributes: [BlockHdr] is aligned to half a
    granule and [FreeBlockHdr] to a granule. *)
Definition align_of (ty : HdrTy) : Z :=
  match ty with
  | BlockHdr | UsedBlockHdr => 2 * WORD
  | FreeBlockHdr => 4 * WORD
  | UsedBlockPad => WORD
  end.

(** [size_of::<UsedBlockHdr>()] and [size_of::<UsedBlockPad>()]. *)
Definition size_of_UsedBlockHdr : Z := 2 * WORD.
Definition size_of_UsedBlockPad : Z := WORD.

(** [*p] for a pointer to a structure of type [ty]. *)
Definition deref (ty : HdrTy) (p : Z) : M St unit :=
  lift (if negb (p =? 0) && (p mod align_of ty =? 0) then Ok tt else Fail Misaligned).

Definition load (a : Z) : M St Z := fun s =>
  match load_word (st_mem s) a with Ok w => Ok (w, s) | Fail e => Fail e end.
Definition store (a w : Z) : M St unit := fun s =>
  match store_word (st_mem s) a w with Ok m => Ok (tt, with_mem s m) | Fail e => Fail e end.

(** Fields of [BlockHdr] ([common] in the other two). *)
Definition get_size (ty : HdrTy) (p : Z) : M St Z := deref ty p;; load p.
Definition set_size (ty : HdrTy) (p w : Z) : M St unit := deref ty p;; store p w.
Definition get_prev_phys_block (ty : HdrTy) (p : Z) : M St Z := deref ty p;; load (p + WORD).
Definition set_prev_phys_block (ty : HdrTy) (p w : Z) : M St unit := deref ty p;; store (p + WORD) w.

(** [p.as_mut().common = BlockHdr { size, prev_phys_block }]. *)
Definition set_common (ty : HdrTy) (p size prev_phys_block : Z) : M St unit :=
  set_size ty p size;; set_prev_phys_block ty p prev_phys_block.

(** Fields of [FreeBlockHdr]. *)
Definition get_next_free (p : Z) : M St Z := deref FreeBlockHdr p;; load (p + 2 * WORD).
Definition set_next_free (p w : Z) : M St unit := deref FreeBlockHdr p;; store (p + 2 * WORD) w.
Definition get_prev_free (p : Z) : M St Z := deref FreeBlockHdr p;; load (p + 3 * WORD).
Definition set_prev_free (p w : Z) : M St unit := deref FreeBlockHdr p;; store (p + 3 * WORD) w.

(** [UsedBlockPad::get_for_allocation] and its field. *)
Definition get_for_allocation (ptr : Z) : Z := wrapping_sub ptr size_of_UsedBlockPad.
Definition get_block_hdr (pad : Z) : M St Z := deref UsedBlockPad pad;; load pad.
Definition set_block_hdr (pad w : Z) : M St unit := deref UsedBlockPad pad;; store pad w.

(** [BlockHdr::next_phys_block], through a reference to a header of type [ty]. *)
Definition next_phys_block (ty : HdrTy) (self : Z) : M St Z :=
  size ← get_size ty self;
  lift (check (Z.land size SIZE_SENTINEL =? 0));;
  lift (uadd self (Z.land size SIZE_SIZE_MASK)).

(** [Tlsf::new]. *)
Definition new : Tlsf :=
  mkTlsf ZERO (replicate (Z.to_nat FLLEN) ZERO)
    (replicate (Z.to_nat FLLEN) (replicate (Z.to_nat SLLEN) 0)).

(** Array accesses of the header. *)
Definition row (h : Tlsf) (fl : Z) : option (list Z) := first_free h !!ᶻ fl.

Definition get_first_free (fl sl : Z) : M St Z := fun s =>
  match row (st_tlsf s) fl ≫= fun r => r !!ᶻ sl with
  | Some p => Ok (p, s)
  | None => Fail IndexOutOfRange
  end.

Definition put_first_free (h : Tlsf) (fl sl p : Z) : Tlsf :=
  mkTlsf (fl_bitmap h) (sl_bitmap h)
    (alter (fun r => <[Z.to_nat sl := p]> r) (Z.to_nat fl) (first_free h)).
Definition put_fl_bitmap (h : Tlsf) (b : Z) : Tlsf := mkTlsf b (sl_bitmap h) (first_free h).
Definition put_sl_bitmap (h : Tlsf) (fl b : Z) : Tlsf :=
  mkTlsf (fl_bitmap h) (<[Z.to_nat fl := b]> (sl_bitmap h)) (first_free h).

Definition set_first_free (fl sl p : Z) : M St unit := fun s =>
  match row (st_tlsf s) fl ≫= fun r => r !!ᶻ sl with
  | Some _ => Ok (tt, with_tlsf s (put_first_free (st_tlsf s) fl sl p))
  | None => Fail IndexOutOfRange
  end.

Definition get_sl_bitmap (fl : Z) : M St Z := fun s =>
  match sl_bitmap (st_tlsf s) !!ᶻ fl with
  | Some b => Ok (b, s)
  | None => Fail IndexOutOfRange
  end.

Definition set_sl_bitmap (fl b : Z) : M St unit := fun s =>
  match sl_bitmap (st_tlsf s) !!ᶻ fl with
  | Some _ => Ok (tt, with_tlsf s (put_sl_bitmap (st_tlsf s) fl b))
  | None => Fail IndexOutOfRange
  end.

Definition get_fl_bitmap : M St Z := fun s => Ok (fl_bitmap (st_tlsf s), s).
Definition set_fl_bitmap (b : Z) : M St unit := fun s =>
  Ok (tt, with_tlsf s (put_fl_bitmap (st_tlsf s) b)).

End Header.

(** ** Reasoning about headers *)

Section HeaderLemmas.
Context {T : Target} {P : TlsfParams} {Pok : ParamsOk P}.

(** Every structure is aligned at a granule. *)
Lemma deref_ok ty p s (Q : unit -> St -> Prop) :
  0 < p -> (GRANULARITY | p) -> Q tt s -> wp (deref ty p) s Q.
Proof.
  intros Hp Hd HQ. unfold deref. eapply wp_lift; [|done].
  rewrite GRANULARITY_WORD in Hd. pose proof WORD_pos.
  rewrite (proj2 (Z.eqb_neq p 0)) by lia. simpl.
  replace (p mod align_of ty) with 0; [done|]. symmetry.
  apply Z.mod_divide; [destruct ty; simpl; lia|]. destruct Hd as [k ->].
  destruct ty; simpl; [exists (2 * k)|exists (2 * k)|exists k|exists (4 * k)]; ring.
Qed.

Lemma wp_load a w s (Q : Z -> St -> Prop) : word_at (st_mem s) a w -> Q w s -> wp (load a) s Q.
Proof. unfold word_at. intros E HQ. exists w, s. unfold load. by rewrite E. Qed.

Lemma wp_store a w s (Q : unit -> St -> Prop) :
  mapped (st_mem s) a WORD -> is_usize w ->
  (forall m', mem_step (in_word a) (st_mem s) m' -> word_at m' a w -> Q tt (with_mem s m')) ->
  wp (store a w) s Q.
Proof.
  intros Hm Hw HQ. destruct (store_word_ok (st_mem s) a w Hm Hw) as (m' & E & Hs & Ha).
  exists tt, (with_mem s m'). split; [|by apply HQ]. unfold store. by rewrite E.
Qed.

Lemma wp_get_size ty p w s (Q : Z -> St -> Prop) :
  0 < p -> (GRANULARITY | p) -> word_at (st_mem s) p w -> Q w s -> wp (get_size ty p) s Q.
Proof. intros. apply wp_bind, deref_ok; [done..|]. by eapply wp_load. Qed.

Lemma wp_get_prev_phys ty p w s (Q : Z -> St -> Prop) :
  0 < p -> (GRANULARITY | p) -> word_at (st_mem s) (p + WORD) w -> Q w s ->
  wp (get_prev_phys_block ty p) s Q.
Proof. intros. apply wp_bind, deref_ok; [done..|]. by eapply wp_load. Qed.

Lemma wp_get_next_free p w s (Q : Z -> St -> Prop) :
  0 < p -> (GRANULARITY | p) -> word_at (st_mem s) (p + 2 * WORD) w -> Q w s ->
  wp (get_next_free p) s Q.
Proof. intros. apply wp_bind, deref_ok; [done..|]. by eapply wp_load. Qed.

Lemma wp_get_prev_free p w s (Q : Z -> St -> Prop) :
  0 < p -> (GRANULARITY | p) -> word_at (st_mem s) (p + 3 * WORD) w -> Q w s ->
  wp (get_prev_free p) s Q.
Proof. intros. apply wp_bind, deref_ok; [done..|]. by eapply wp_load. Qed.

Lemma mapped_word m p k : mapped m p GRANULARITY -> 0 <= k <= 3 -> mapped m (p + k * WORD) WORD.
Proof.
  intros H Hk. pose proof WORD_pos. eapply mapped_sub; [done|nia|]. rewrite GRANULARITY_WORD. nia.
Qed.

(** Storing in field [k] of the block at [p]. *)
Lemma wp_set_field ty p k w s (Q : unit -> St -> Prop) :
  0 < p -> (GRANULARITY | p) -> mapped (st_mem s) p GRANULARITY -> 0 <= k <= 3 -> is_usize w ->
  (forall m', mem_step (in_word (p + k * WORD)) (st_mem s) m' -> word_at m' (p + k * WORD) w ->
     Q tt (with_mem s m')) ->
  wp (deref ty p;; store (p + k * WORD) w) s Q.
Proof.
  intros. apply wp_bind, deref_ok; [done..|]. apply wp_store; [by apply mapped_word|done|done].
Qed.

Lemma wp_set_size ty p w s (Q : unit -> St -> Prop) :
  0 < p -> (GRANULARITY | p) -> mapped (st_mem s) p GRANULARITY -> is_usize w ->
  (forall m', mem_step (in_word p) (st_mem s) m' -> word_at m' p w -> Q tt (with_mem s m')) ->
  wp (set_size ty p w) s Q.
Proof.
  intros ???? HQ. pose proof (wp_set_field ty p 0 w s Q) as H'. rewrite Z.mul_0_l, Z.add_0_r in H'.
  apply H'; (done || lia).
Qed.

Lemma wp_set_prev_phys ty p w s (Q : unit -> St -> Prop) :
  0 < p -> (GRANULARITY | p) -> mapped (st_mem s) p GRANULARITY -> is_usize w ->
  (forall m', mem_step (in_word (p + WORD)) (st_mem s) m' -> word_at m' (p + WORD) w ->
     Q tt (with_mem s m')) ->
  wp (set_prev_phys_block ty p w) s Q.
Proof.
  intros ???? HQ. pose proof (wp_set_field ty p 1 w s Q) as H'. rewrite Z.mul_1_l in H'.
  apply H'; (done || lia).
Qed.

Lemma wp_set_next_free p w s (Q : unit -> St -> Prop) :
  0 < p -> (GRANULARITY | p) -> mapped (st_mem s) p GRANULARITY -> is_usize w ->
  (forall m', mem_step (in_word (p + 2 * WORD)) (st_mem s) m' -> word_at m' (p + 2 * WORD) w ->
     Q tt (with_mem s m')) ->
  wp (set_next_free p w) s Q.
Proof. intros. apply (wp_set_field FreeBlockHdr p 2); (done || lia). Qed.

Lemma wp_set_prev_free p w s (Q : unit -> St -> Prop) :
  0 < p -> (GRANULARITY | p) -> mapped (st_mem s) p GRANULARITY -> is_usize w ->
  (forall m', mem_step (in_word (p + 3 * WORD)) (st_mem s) m' -> word_at m' (p + 3 * WORD) w ->
     Q tt (with_mem s m')) ->
  wp (set_prev_free p w) s Q.
Proof. intros. apply (wp_set_field FreeBlockHdr p 3); (done || lia). Qed.

(** The pad in front of a granule-aligned payload. *)
Lemma get_for_allocation_ok ptr : WORD < ptr < USIZE_MOD -> get_for_allocation ptr = ptr - WORD.
Proof. intros H. apply wrapping_sub_small. pose proof WORD_pos. unfold is_usize, size_of_UsedBlockPad. lia. Qed.

Lemma deref_pad ptr s (Q : unit -> St -> Prop) :
  WORD < ptr -> (GRANULARITY | ptr) -> Q tt s -> wp (deref UsedBlockPad (ptr - WORD)) s Q.
Proof.
  intros Hp Hd HQ. eapply wp_lift; [|done]. pose proof WORD_pos. rewrite GRANULARITY_WORD in Hd.
  rewrite (proj2 (Z.eqb_neq _ 0)) by lia. simpl.
  replace ((ptr - WORD) mod WORD) with 0; [done|]. symmetry.
  apply Z.mod_divide; [lia|]. destruct Hd as [k ->]. exists (4 * k - 1). ring.
Qed.

Lemma wp_set_block_hdr ptr w s (Q : unit -> St -> Prop) :
  WORD < ptr < USIZE_MOD -> (GRANULARITY | ptr) -> mapped (st_mem s) (ptr - WORD) WORD -> is_usize w ->
  (forall m', mem_step (in_word (ptr - WORD)) (st_mem s) m' -> word_at m' (ptr - WORD) w ->
     Q tt (with_mem s m')) ->
  wp (set_block_hdr (get_for_allocation ptr) w) s Q.
Proof.
  intros Hp Hd Hm Hw HQ. rewrite get_for_allocation_ok by done.
  apply wp_bind, deref_pad; [lia|done|]. by apply wp_store.
Qed.

Lemma wp_get_block_hdr ptr w s (Q : Z -> St -> Prop) :
  WORD < ptr < USIZE_MOD -> (GRANULARITY | ptr) -> word_at (st_mem s) (ptr - WORD) w -> Q w s ->
  wp (get_block_hdr (get_for_allocation ptr)) s Q.
Proof.
  intros Hp Hd Hw HQ. rewrite get_for_allocation_ok by done.
  apply wp_bind, deref_pad; [lia|done|]. by eapply wp_load.
Qed.

(** Distinct granule-aligned addresses have disjoint words. *)
Lemma granules_disjoint p q :
  (GRANULARITY | p) -> (GRANULARITY | q) -> p <> q -> p + 4 * WORD <= q \/ q + 4 * WORD <= p.
Proof.
  intros Hp Hq Hne. pose proof GRANULARITY_pos. rewrite <- GRANULARITY_WORD.
  destruct (decide (p < q)).
  - left. by apply divide_gap; [lia| | |].
  - right. apply divide_gap; [lia|done|done|lia].
Qed.

End HeaderLemmas.

Arguments deref : simpl never.
Arguments load : simpl never.
Arguments store : simpl never.
Arguments put_first_free : simpl never.
Arguments put_sl_bitmap : simpl never.
Arguments put_fl_bitmap : simpl never.
