(* ===== verification/FreeIndex.v ===== *)
(** * tlsf.rs: the segregated free lists

    [link_free_block], [unlink_free_block], the unlinking of a list head that
    [allocate] does in line, and the bitmap search.  Their contract is
    abstract: [FreeIndex h m F] says that the header [h] and the links in the
    memory [m] represent the set [F] of free blocks (address and size, in any
    order); linking inserts in [F], unlinking removes from it, and the search
    returns a block of [F] that is large enough. *)

From S2P Require Import Prelude Usize BinInteger SizeClass Machine Header.

Section FreeIndexOps.
Context {T : Target} {P : TlsfParams}.

Definition link_free_block (block size : Z) : M St unit :=
  c ← lift (map_floor size);
  '(fl, sl) ← lift (expect c);
  next_free ← get_first_free fl sl;
  set_first_free fl sl block;;
  set_next_free block next_free;;
  set_prev_free block 0;;
  (if next_free =? 0 then mret tt else set_prev_free next_free block);;
  fb ← get_fl_bitmap;
  set_fl_bitmap (set_bit FLBitmap fb fl);;
  sb ← get_sl_bitmap fl;
  set_sl_bitmap fl (set_bit SLBitmap sb sl).

(** The list [(fl, sl)] became empty: update the bitmaps. *)
Definition clear_list_bit (fl sl : Z) : M St unit :=
  sb ← get_sl_bitmap fl;
  set_sl_bitmap fl (clear_bit SLBitmap sb sl);;
  sb ← get_sl_bitmap fl;
  if sb =? ZERO then
    fb ← get_fl_bitmap;
    set_fl_bitmap (clear_bit FLBitmap fb fl)
  else mret tt.

Definition unlink_free_block (block size : Z) : M St unit :=
  next_free ← get_next_free block;
  prev_free ← get_prev_free block;
  (if next_free =? 0 then mret tt else set_prev_free next_free prev_free);;
  if negb (prev_free =? 0) then set_next_free prev_free next_free
  else
    c ← lift (map_floor size);
    '(fl, sl) ← lift (expect c);
    first_free ← get_first_free fl sl;
    lift (check (first_free =? block));;
    set_first_free fl sl next_free;;
    if next_free =? 0 then clear_list_bit fl sl else mret tt.

(** The unlinking of the head of list [(fl, sl)] in [allocate], which does
    not use [unlink_free_block] because the list is known. *)
Definition unlink_first_free (fl sl block : Z) : M St unit :=
  next_free ← get_next_free block;
  set_first_free fl sl next_free;;
  if negb (next_free =? 0) then set_prev_free next_free 0 else clear_list_bit fl sl.

Definition search_suitable_free_block_list_for_allocation (min_size : Z) : M St (option (Z * Z)) :=
  c ← lift (map_ceil min_size);
  let? c := c in
  let fl := c.1 in
  sb ← get_sl_bitmap fl;
  sl ← lift (bit_scan_forward SLBitmap sb (as_u32 c.2));
  if sl <? SLLEN then
    lift (check (get_bit SLBitmap sb sl));;
    mret (Some (fl, sl))
  else
    fb ← get_fl_bitmap;
    fl ← lift (bit_scan_forward FLBitmap fb (as_u32 fl + 1));
    if fl <? FLLEN then
      lift (check (get_bit FLBitmap fb fl));;
      sb ← get_sl_bitmap fl;
      let sl := trailing_zeros (BITS SLBitmap) sb in
      lift (check (sl <? SLLEN));;
      lift (check (get_bit SLBitmap sb sl));;
      mret (Some (fl, sl))
    else mret None.

(** ** The header arrays *)

Definition ff (h : Tlsf) (fl sl : Z) : Z := default 0 (row h fl ≫= fun r => r !!ᶻ sl).
Definition slb (h : Tlsf) (fl : Z) : Z := default 0 (sl_bitmap h !!ᶻ fl).

Record shape (h : Tlsf) : Prop := {
  shape_sl : length (sl_bitmap h) = Z.to_nat FLLEN;
  shape_ff : length (first_free h) = Z.to_nat FLLEN;
  shape_row r : r ∈ first_free h -> length r = Z.to_nat SLLEN
}.

(** ** Representation of the lists *)

(** A doubly linked segment: the links of the blocks [l], [p] before the
    first and [nx] after the last one. *)
Fixpoint dllseg (m : Mem) (p : Z) (l : list Z) (nx : Z) : Prop :=
  match l with
  | [] => True
  | x :: l => word_at m (x + 2 * WORD) (hd nx l) /\ word_at m (x + 3 * WORD) p /\ dllseg m x l nx
  end.

(** The bytes of the links of the blocks in [F]. *)
Definition link_area (F : list (Z * Z)) (x : Z) : Prop :=
  exists a sz, (a, sz) ∈ F /\ a + 2 * WORD <= x < a + 4 * WORD.

(** A block the index can hold. *)
Record linkable (m : Mem) (a sz : Z) : Prop := {
  linkable_pos : 0 < a;
  linkable_aligned : (GRANULARITY | a);
  linkable_usize : a + GRANULARITY <= USIZE_MOD;
  linkable_mapped : mapped m a GRANULARITY;
  linkable_size : valid_size sz;
  linkable_class : exists c, map_floor sz = Ok (Some c)
}.

(** The bitmaps and list heads describe the lists [L]. *)
Record heads_ok (h : Tlsf) (L : Z -> Z -> list Z) : Prop := {
  heads_shape : shape h;
  heads_ff fl sl : valid_class (fl, sl) -> ff h fl sl = hd 0 (L fl sl);
  heads_sl_range fl : 0 <= fl < FLLEN -> in_range SLBitmap (slb h fl);
  heads_sl fl i : 0 <= fl < FLLEN -> 0 <= i < BITS SLBitmap ->
    Z.testbit (slb h fl) i = true <-> i < SLLEN /\ L fl i <> [];
  heads_fl_range : in_range FLBitmap (fl_bitmap h);
  heads_fl i : 0 <= i < BITS FLBitmap ->
    Z.testbit (fl_bitmap h) i = true <-> i < FLLEN /\ slb h i <> 0
}.

(** The lists [L] hold exactly the blocks of [F], each in the list of its
    size, and are linked in memory. *)
Record lists_ok (m : Mem) (F : list (Z * Z)) (L : Z -> Z -> list Z) : Prop := {
  lists_nodup : NoDup F.*1;
  lists_linkable a sz : (a, sz) ∈ F -> linkable m a sz;
  lists_elem fl sl a : valid_class (fl, sl) ->
    a ∈ L fl sl <-> exists sz, (a, sz) ∈ F /\ map_floor sz = Ok (Some (fl, sl));
  lists_NoDup fl sl : valid_class (fl, sl) -> NoDup (L fl sl);
  lists_dll fl sl : valid_class (fl, sl) -> dllseg m 0 (L fl sl) 0
}.

Definition FreeIndex (h : Tlsf) (m : Mem) (F : list (Z * Z)) : Prop :=
  exists L, heads_ok h L /\ lists_ok m F L.

End FreeIndexOps.

(** ** Header lemmas *)

Section Heads.
Context {T : Target} {P : TlsfParams} {Pok : ParamsOk P}.

Lemma row_lookup h fl sl :
  shape h -> valid_class (fl, sl) -> (row h fl ≫= fun r => r !!ᶻ sl) = Some (ff h fl sl).
Proof.
  intros [_ Hf Hr] [H1 H2]. simpl in *. unfold ff, row.
  destruct (lookup_lt_is_Some_2 (first_free h) (Z.to_nat fl)) as [r Er]; [lia|]. rewrite Er. simpl.
  apply list_elem_of_lookup_2 in Er as Hin. specialize (Hr r Hin).
  destruct (lookup_lt_is_Some_2 r (Z.to_nat sl)) as [p Ep]; [lia|]. by rewrite Ep.
Qed.

Lemma slb_lookup h fl : shape h -> 0 <= fl < FLLEN -> sl_bitmap h !!ᶻ fl = Some (slb h fl).
Proof.
  intros [Hs _ _] H. unfold slb.
  destruct (lookup_lt_is_Some_2 (sl_bitmap h) (Z.to_nat fl)) as [b Eb]; [lia|]. by rewrite Eb.
Qed.

Lemma wp_get_first_free fl sl s (Q : Z -> St -> Prop) :
  shape (st_tlsf s) -> valid_class (fl, sl) -> Q (ff (st_tlsf s) fl sl) s ->
  wp (get_first_free fl sl) s Q.
Proof. intros Hs Hc HQ. eexists _, _. unfold get_first_free. by rewrite row_lookup. Qed.

Lemma wp_set_first_free fl sl p s (Q : unit -> St -> Prop) :
  shape (st_tlsf s) -> valid_class (fl, sl) ->
  Q tt (with_tlsf s (put_first_free (st_tlsf s) fl sl p)) -> wp (set_first_free fl sl p) s Q.
Proof. intros Hs Hc HQ. eexists _, _. unfold set_first_free. by rewrite row_lookup. Qed.

Lemma wp_get_sl_bitmap fl s (Q : Z -> St -> Prop) :
  shape (st_tlsf s) -> 0 <= fl < FLLEN -> Q (slb (st_tlsf s) fl) s -> wp (get_sl_bitmap fl) s Q.
Proof. intros Hs Hc HQ. eexists _, _. unfold get_sl_bitmap. by rewrite slb_lookup. Qed.

Lemma wp_set_sl_bitmap fl b s (Q : unit -> St -> Prop) :
  shape (st_tlsf s) -> 0 <= fl < FLLEN -> Q tt (with_tlsf s (put_sl_bitmap (st_tlsf s) fl b)) ->
  wp (set_sl_bitmap fl b) s Q.
Proof. intros Hs Hc HQ. eexists _, _. unfold set_sl_bitmap. by rewrite slb_lookup. Qed.

Lemma wp_get_fl_bitmap s (Q : Z -> St -> Prop) : Q (fl_bitmap (st_tlsf s)) s -> wp get_fl_bitmap s Q.
Proof. intros HQ. by eexists _, _. Qed.

Lemma wp_set_fl_bitmap b s (Q : unit -> St -> Prop) :
  Q tt (with_tlsf s (put_fl_bitmap (st_tlsf s) b)) -> wp (set_fl_bitmap b) s Q.
Proof. intros HQ. by eexists _, _. Qed.

Lemma shape_put_first_free h fl sl p : shape h -> shape (put_first_free h fl sl p).
Proof.
  intros [H1 H2 H3]. split; simpl; [done|by rewrite length_alter|].
  intros r Hr. apply list_elem_of_lookup in Hr as [i Hi].
  rewrite list_lookup_alter in Hi. case_decide; [|apply H3; by eapply list_elem_of_lookup_2].
  apply fmap_Some in Hi as (r' & Hr' & ->). rewrite length_insert. apply H3.
  by eapply list_elem_of_lookup_2.
Qed.

Lemma shape_put_sl_bitmap h fl b : shape h -> shape (put_sl_bitmap h fl b).
Proof. intros [H1 H2 H3]. split; simpl; [by rewrite length_insert|done..]. Qed.

Lemma shape_put_fl_bitmap h b : shape h -> shape (put_fl_bitmap h b).
Proof. by intros [H1 H2 H3]. Qed.

Lemma ff_put_first_free h fl sl p fl' sl' :
  shape h -> valid_class (fl, sl) -> valid_class (fl', sl') ->
  ff (put_first_free h fl sl p) fl' sl' =
    if decide (fl = fl' /\ sl = sl') then p else ff h fl' sl'.
Proof.
  intros [_ Hf Hr] [H1 H2] [H3 H4]. simpl in *. unfold ff, row, put_first_free; simpl.
  destruct (decide (fl = fl')) as [<-|Hne].
  - rewrite list_lookup_alter_eq.
    destruct (lookup_lt_is_Some_2 (first_free h) (Z.to_nat fl)) as [r Er]; [lia|]. rewrite Er. simpl.
    apply list_elem_of_lookup_2 in Er as Hin. specialize (Hr r Hin).
    destruct (decide (sl = sl')) as [<-|Hne].
    + rewrite decide_True by done. by rewrite list_lookup_insert_eq by lia.
    + rewrite decide_False by tauto. rewrite list_lookup_insert_ne by lia. done.
  - rewrite decide_False by tauto. rewrite list_lookup_alter_ne by lia. done.
Qed.

Lemma slb_put_sl_bitmap h fl b fl' :
  shape h -> 0 <= fl < FLLEN -> 0 <= fl' < FLLEN ->
  slb (put_sl_bitmap h fl b) fl' = if decide (fl = fl') then b else slb h fl'.
Proof.
  intros [Hs _ _] H1 H2. unfold slb; simpl. case_decide as E.
  - subst. by rewrite list_lookup_insert_eq by lia.
  - by rewrite list_lookup_insert_ne by lia.
Qed.

End Heads.

(** ** Links in memory *)

Section Links.
Context {T : Target} {P : TlsfParams} {Pok : ParamsOk P}.

Fixpoint last_addr (p : Z) (l : list Z) : Z :=
  match l with [] => p | x :: l => last_addr x l end.

Lemma last_addr_snoc p l q : last_addr p (l ++ [q]) = q.
Proof. revert p. induction l as [|x l IH]; intros p; [done|]. apply IH. Qed.

Lemma dllseg_app m p l1 l2 nx :
  dllseg m p (l1 ++ l2) nx <-> dllseg m p l1 (hd nx l2) /\ dllseg m (last_addr p l1) l2 nx.
Proof.
  revert p. induction l1 as [|x l1 IH]; intros p; simpl; [tauto|].
  rewrite IH. replace (hd nx (l1 ++ l2)) with (hd (hd nx l2) l1) by (by destruct l1). tauto.
Qed.

(** Changes outside the links of the segment do not matter. *)
Lemma dllseg_step D m m' p l nx :
  mem_step D m m' ->
  (forall x y, x ∈ l -> x + 2 * WORD <= y < x + 4 * WORD -> ~ D y) ->
  dllseg m p l nx -> dllseg m' p l nx.
Proof.
  intros Hs. pose proof WORD_pos. revert p. induction l as [|x l IH]; intros p HD; simpl; [done|].
  intros (H1 & H2 & H3). split_and!.
  - eapply word_at_step; [done| |done]. intros y Hy. unfold in_word in Hy.
    apply (HD x); [set_solver|lia].
  - eapply word_at_step; [done| |done]. intros y Hy. unfold in_word in Hy.
    apply (HD x); [set_solver|lia].
  - apply IH; [|done]. intros z y Hz. apply HD. set_solver.
Qed.

Definition aligned_list (l : list Z) : Prop := forall x, x ∈ l -> (GRANULARITY | x).

(** Writing one word of the links of [q] leaves the links of other blocks. *)
Lemma word_not_in_links q k x y :
  (GRANULARITY | q) -> (GRANULARITY | x) -> q <> x -> 0 <= k <= 3 ->
  x + 2 * WORD <= y < x + 4 * WORD -> ~ in_word (q + k * WORD) y.
Proof.
  intros Hq Hx Hne Hk Hy Hin. pose proof WORD_pos. unfold in_word in Hin.
  destruct (granules_disjoint q x Hq Hx Hne); nia.
Qed.

Lemma dllseg_set_prev m m' p p' y l nx :
  aligned_list (y :: l) -> NoDup (y :: l) ->
  mem_step (in_word (y + 3 * WORD)) m m' -> word_at m' (y + 3 * WORD) p' ->
  dllseg m p (y :: l) nx -> dllseg m' p' (y :: l) nx.
Proof.
  intros Ha [Hy _]%NoDup_cons Hs Hw (H1 & _ & H3). pose proof WORD_pos. simpl. split_and!; [|done|].
  - eapply word_at_step; [done| |done]. intros z. unfold in_word. lia.
  - eapply dllseg_step; [done| |done]. intros x z Hx Hz.
    eapply word_not_in_links; [| | | |done]; [apply Ha; set_solver|apply Ha; set_solver| |lia].
    intros ->. done.
Qed.

Lemma dllseg_set_next m m' p l q nx nx' :
  aligned_list (l ++ [q]) -> NoDup (l ++ [q]) ->
  mem_step (in_word (q + 2 * WORD)) m m' -> word_at m' (q + 2 * WORD) nx' ->
  dllseg m p (l ++ [q]) nx -> dllseg m' p (l ++ [q]) nx'.
Proof.
  intros Ha Hnd Hs Hw. pose proof WORD_pos.
  rewrite !dllseg_app. simpl. intros [H1 (_ & H2 & _)]. split_and!; [|done| |done].
  - eapply dllseg_step; [done| |done]. intros x z Hx Hz.
    eapply word_not_in_links; [| | | |done]; [apply Ha; set_solver|apply Ha; set_solver| |lia].
    intros ->. apply NoDup_app in Hnd as (_ & Hd & _). apply (Hd x); [done|set_solver].
  - eapply word_at_step; [done| |done]. intros z. unfold in_word. lia.
Qed.

Lemma linkable_step D m m' a sz : mem_step D m m' -> linkable m a sz -> linkable m' a sz.
Proof. intros Hs []. split; [done..| |done|done]. by eapply mapped_step. Qed.

(** The index only depends on the links. *)
Lemma FreeIndex_step D h m m' F :
  mem_step D m m' -> (forall x, link_area F x -> ~ D x) -> FreeIndex h m F -> FreeIndex h m' F.
Proof.
  intros Hs HD (L & Hh & [H1 H2 H3 H4 H5]). exists L. split; [done|]. split; [done| |done|done|].
  - intros. eapply linkable_step; eauto.
  - intros fl sl Hc. eapply dllseg_step; [done| |by apply H5]. intros x y Hx Hy. apply HD.
    apply H3 in Hx as (sz & Hx & _); [|done]. by exists x, sz.
Qed.

Lemma lists_ok_perm m F F' L : F ≡ₚ F' -> lists_ok m F L -> lists_ok m F' L.
Proof.
  intros HF [H1 H2 H3 H4 H5]. split; [by rewrite <- HF| |  |done|done].
  - intros. apply H2. by rewrite HF.
  - intros. rewrite H3 by done. by setoid_rewrite HF.
Qed.

#[export] Instance FreeIndex_perm h m : Proper ((≡ₚ) ==> iff) (FreeIndex h m).
Proof.
  intros F F' HF. split; intros (L & Hh & Hl); exists L; (split; [done|]);
    (eapply lists_ok_perm; [|done]); [done|by symmetry].
Qed.

(** A block is in one list only. *)
Lemma lists_ok_disjoint m F L fl sl fl' sl' x :
  lists_ok m F L -> valid_class (fl, sl) -> valid_class (fl', sl') ->
  x ∈ L fl sl -> x ∈ L fl' sl' -> (fl, sl) = (fl', sl').
Proof.
  intros [H1 _ H3 _ _] Hc Hc' (sz & Hx & E)%H3 (sz' & Hx' & E')%H3; [|done|done].
  assert (sz = sz') as <-; [|congruence].
  apply list_elem_of_lookup in Hx as [i Hi]. apply list_elem_of_lookup in Hx' as [j Hj].
  assert (i = j) as ->.
  { eapply (NoDup_lookup F.*1); [done| |]; rewrite list_lookup_fmap; [by rewrite Hi|by rewrite Hj]. }
  congruence.
Qed.

Lemma lists_ok_aligned m F L fl sl :
  lists_ok m F L -> valid_class (fl, sl) -> forall x, x ∈ L fl sl -> exists sz, linkable m x sz.
Proof. intros [_ H2 H3 _ _] Hc x (sz & Hx & _)%H3; [|done]. eauto. Qed.

(** Replacing the list of one class. *)
Definition upd (L : Z -> Z -> list Z) (fl sl : Z) (l : list Z) : Z -> Z -> list Z :=
  fun fl' sl' => if decide (fl = fl' /\ sl = sl') then l else L fl' sl'.

Lemma upd_eq L fl sl l : upd L fl sl l fl sl = l.
Proof. unfold upd. by rewrite decide_True. Qed.

Lemma upd_ne L fl sl l fl' sl' : (fl, sl) <> (fl', sl') -> upd L fl sl l fl' sl' = L fl' sl'.
Proof. intros. unfold upd. rewrite decide_False; [done|]. intros [-> ->]. done. Qed.

End Links.

(** ** Updating heads and bitmaps *)

Section HeadUpdates.
Context {T : Target} {P : TlsfParams} {Pok : ParamsOk P}.

Lemma valid_class_bits fl sl :
  valid_class (fl, sl) -> 0 <= fl < BITS FLBitmap /\ 0 <= sl < BITS SLBitmap.
Proof. intros [H1 H2]. simpl in *. destruct VALID_inv as (_ & _ & ? & ?). lia. Qed.

Lemma upd_not_nil L fl sl l fl' sl' :
  L fl sl <> [] -> l <> [] -> (upd L fl sl l fl' sl' <> [] <-> L fl' sl' <> []).
Proof. intros. unfold upd. case_decide as E; [|done]. destruct E as [-> ->]. tauto. Qed.

(** The list stays non-empty: only its head may change. *)
Lemma heads_replace h L fl sl l :
  heads_ok h L -> valid_class (fl, sl) -> L fl sl <> [] -> l <> [] ->
  heads_ok (put_first_free h fl sl (hd 0 l)) (upd L fl sl l).
Proof.
  intros [H1 H2 H3 H4 H5 H6] Hc Hn Hl. split; [by apply shape_put_first_free| | done | | done|done].
  - intros fl' sl' Hc'. rewrite ff_put_first_free by done. unfold upd. case_decide; [done|by apply H2].
  - intros fl' i Hf Hi. change (slb (put_first_free _ _ _ _)) with (slb h).
    rewrite H4 by done. by rewrite upd_not_nil.
Qed.

Lemma heads_same_head h L fl sl l :
  heads_ok h L -> L fl sl <> [] -> l <> [] -> hd 0 l = hd 0 (L fl sl) ->
  heads_ok h (upd L fl sl l).
Proof.
  intros [H1 H2 H3 H4 H5 H6] Hn Hl Hh. split; [done| | done | | done|done].
  - intros fl' sl' Hc'. unfold upd. rewrite H2 by done. case_decide as E; [|done]. by destruct E as [-> ->].
  - intros fl' i Hf Hi. rewrite H4 by done. by rewrite upd_not_nil.
Qed.

(** A block was put in front of a list that may have been empty. *)
Lemma heads_push h L fl sl l :
  heads_ok h L -> valid_class (fl, sl) -> l <> [] ->
  heads_ok
    (put_sl_bitmap
      (put_fl_bitmap (put_first_free h fl sl (hd 0 l)) (set_bit FLBitmap (fl_bitmap h) fl))
      fl (set_bit SLBitmap (slb h fl) sl))
    (upd L fl sl l).
Proof.
  intros [H1 H2 H3 H4 H5 H6] Hc Hl. destruct (valid_class_bits _ _ Hc) as [Hbf Hbs].
  pose proof Hc as [Hcf Hcs]. simpl in Hcf, Hcs. set (h1 := put_fl_bitmap _ _).
  assert (Hsh : shape h1) by by apply shape_put_fl_bitmap, shape_put_first_free.
  assert (Hslb : forall i, slb h1 i = slb h i) by done. split.
  - by apply shape_put_sl_bitmap.
  - intros fl' sl' Hc'. change (ff (put_sl_bitmap h1 fl _) fl' sl') with (ff (put_first_free h fl sl (hd 0 l)) fl' sl').
    rewrite ff_put_first_free by done. unfold upd. case_decide; [done|by apply H2].
  - intros fl' Hf. rewrite slb_put_sl_bitmap by done. case_decide; [|by rewrite Hslb; apply H3].
    apply set_bit_in_range. subst. by apply H3.
  - intros fl' i Hf Hi. rewrite slb_put_sl_bitmap, Hslb by done. unfold upd. case_decide as E.
    + subst. rewrite testbit_set_bit by done. destruct (Z.eqb_spec sl i) as [<-|Hne].
      * rewrite decide_True by done. simpl. split; [by intros _; split; [lia|]|done].
      * rewrite decide_False by (intros [_ ?]; done). simpl. by apply H4.
    + rewrite decide_False by (intros [? _]; done). by apply H4.
  - change (fl_bitmap (put_sl_bitmap h1 fl _)) with (set_bit FLBitmap (fl_bitmap h) fl).
    by apply set_bit_in_range.
  - intros i Hi. change (fl_bitmap (put_sl_bitmap h1 fl _)) with (set_bit FLBitmap (fl_bitmap h) fl).
    rewrite testbit_set_bit by done. destruct (Z.eqb_spec fl i) as [<-|Hne]; simpl.
    + rewrite slb_put_sl_bitmap, decide_True by done. split; [intros _|done]. split; [lia|].
      intros E. rewrite in_range_zero in E by (apply set_bit_in_range; by apply H3).
      specialize (E sl Hbs). by rewrite testbit_set_bit, Z.eqb_refl in E.
    + rewrite H6 by done. split; intros [Hlt Hz]; (split; [done|]).
      * by rewrite slb_put_sl_bitmap, decide_False by (done || lia).
      * by rewrite slb_put_sl_bitmap, decide_False in Hz by (done || lia).
Qed.

(** The header when the list [(fl, sl)] has just become empty: its head and
    its bit are cleared. *)
Definition cleared (h : Tlsf) (fl sl : Z) : Tlsf :=
  put_sl_bitmap (put_first_free h fl sl 0) fl (clear_bit SLBitmap (slb h fl) sl).

Lemma slb_cleared h L fl sl i :
  heads_ok h L -> valid_class (fl, sl) -> 0 <= i < FLLEN ->
  slb (cleared h fl sl) i = if decide (fl = i) then clear_bit SLBitmap (slb h fl) sl else slb h i.
Proof.
  intros [H1 _ _ _ _ _] Hc Hi. unfold cleared. pose proof (shape_put_first_free h fl sl 0 H1).
  pose proof Hc as [Hcf _]. simpl in Hcf. by rewrite slb_put_sl_bitmap by done.
Qed.

(** The heads for any first-level bitmap that is right. *)
Lemma heads_clear h L fl sl fb :
  heads_ok h L -> valid_class (fl, sl) -> in_range FLBitmap fb ->
  (forall i, 0 <= i < BITS FLBitmap -> Z.testbit fb i = true <-> i < FLLEN /\ slb (cleared h fl sl) i <> 0) ->
  heads_ok (put_fl_bitmap (cleared h fl sl) fb) (upd L fl sl []).
Proof.
  intros Hh Hc Hr Hfb. pose proof (fun i => slb_cleared h L fl sl i Hh Hc) as Es. destruct Hh as [H1 H2 H3 H4 H5 H6].
  destruct (valid_class_bits _ _ Hc) as [Hbf Hbs]. pose proof Hc as [Hcf Hcs]. simpl in Hcf, Hcs.
  split; [by apply shape_put_fl_bitmap, shape_put_sl_bitmap, shape_put_first_free| | | |done|done].
  - intros fl' sl' Hc'. change (ff (put_fl_bitmap (cleared h fl sl) fb) fl' sl') with (ff (put_first_free h fl sl 0) fl' sl').
    rewrite ff_put_first_free by done. unfold upd. case_decide; [done|by apply H2].
  - intros fl' Hf. change (slb (put_fl_bitmap (cleared h fl sl) fb)) with (slb (cleared h fl sl)). rewrite Es by done.
    case_decide; [apply clear_bit_in_range|]; by apply H3.
  - intros fl' i Hf Hi. change (slb (put_fl_bitmap (cleared h fl sl) fb)) with (slb (cleared h fl sl)). rewrite Es by done.
    unfold upd. case_decide as E; [subst fl'|rewrite decide_False by (intros [? _]; done); by apply H4].
    rewrite testbit_clear_bit by done. destruct (Z.eqb_spec sl i) as [<-|Hne]; simpl.
    + rewrite decide_True by done. split; [done|by intros [_ ?]].
    + rewrite decide_False by (intros [_ ?]; done). by apply H4.
Qed.

Lemma clear_list_bit_spec h0 L fl sl s (Q : unit -> St -> Prop) :
  heads_ok h0 L -> valid_class (fl, sl) -> st_tlsf s = put_first_free h0 fl sl 0 ->
  (forall h', heads_ok h' (upd L fl sl []) -> Q tt (with_tlsf s h')) ->
  wp (clear_list_bit fl sl) s Q.
Proof.
  intros Hh Hc Eh HQ. pose proof (fun i => slb_cleared h0 L fl sl i Hh Hc) as Es.
  pose proof (fun fb => heads_clear h0 L fl sl fb Hh Hc) as Hgen. destruct Hh as [H1 H2 H3 H4 H5 H6].
  destruct (valid_class_bits _ _ Hc) as [Hbf Hbs]. pose proof Hc as [Hcf Hcs]. simpl in Hcf, Hcs.
  assert (Hsh : shape (st_tlsf s)) by (rewrite Eh; by apply shape_put_first_free).
  apply wp_bind, wp_get_sl_bitmap; [done..|]. apply wp_bind, wp_set_sl_bitmap; [done..|].
  replace (put_sl_bitmap _ _ _) with (cleared h0 fl sl) by by rewrite Eh.
  assert (Hsh1 : shape (cleared h0 fl sl)) by by apply shape_put_sl_bitmap, shape_put_first_free.
  apply wp_bind, wp_get_sl_bitmap; [done..|]. simpl. rewrite Es, decide_True by done. unfold ZERO.
  set (b := clear_bit SLBitmap (slb h0 fl) sl) in *. destruct (Z.eqb_spec b 0) as [Eb|Eb].
  - apply wp_bind, wp_get_fl_bitmap, wp_set_fl_bitmap. simpl. apply (HQ (put_fl_bitmap (cleared h0 fl sl) _)), Hgen; [by apply clear_bit_in_range|].
    intros i Hi. rewrite testbit_clear_bit by done. destruct (Z.eqb_spec fl i) as [<-|Hne]; simpl.
    + split; [done|]. rewrite Es, decide_True by done. by intros [_ ?].
    + change (fl_bitmap (cleared h0 fl sl)) with (fl_bitmap h0). rewrite H6 by done. split; intros [Hlt Hz]; (split; [done|]).
      * by rewrite Es, decide_False by (done || lia).
      * by rewrite Es, decide_False in Hz by (done || lia).
  - apply wp_ret. apply (HQ (cleared h0 fl sl)). change (cleared h0 fl sl) with (put_fl_bitmap (cleared h0 fl sl) (fl_bitmap h0)).
    apply Hgen; [done|]. intros i Hi. rewrite H6 by done. split; intros [Hlt Hz]; (split; [done|]).
    + rewrite Es by lia. by case_decide.
    + rewrite Es in Hz by lia. case_decide as E; [|done]. subst i. intros E0. apply Eb. unfold b. rewrite E0. unfold clear_bit.
      destruct (sl <? BITS SLBitmap); [|done]. by rewrite Z.land_0_l.
Qed.

End HeadUpdates.

(** ** Updating the lists *)

Section ListUpdates.
Context {T : Target} {P : TlsfParams} {Pok : ParamsOk P}.

(** The link bytes of the blocks at the addresses [l]. *)
Definition links_of (l : list Z) (x : Z) : Prop :=
  exists y, y ∈ l /\ y + 2 * WORD <= x < y + 4 * WORD.

Lemma links_of_word l y k x : y ∈ l -> 2 <= k <= 3 -> in_word (y + k * WORD) x -> links_of l x.
Proof. intros Hy Hk Hx. unfold in_word in Hx. pose proof WORD_pos. exists y. split; [done|nia]. Qed.

(** Updating the links of some blocks leaves the lists of the others. *)
Lemma dllseg_other m m' l p k nx :
  mem_step (links_of l) m m' -> aligned_list l -> aligned_list k -> (forall x, x ∈ l -> x ∉ k) ->
  dllseg m p k nx -> dllseg m' p k nx.
Proof.
  intros Hs Hal Hak Hd. eapply dllseg_step; [done|]. intros x y Hx Hy (z & Hz & Hzy).
  destruct (granules_disjoint z x (Hal z Hz) (Hak x Hx)); [|lia|lia]. intros ->. by apply (Hd x).
Qed.

Lemma lists_ok_push m m' F L a sz fl sl :
  lists_ok m F L -> a ∉ F.*1 -> linkable m a sz -> map_floor sz = Ok (Some (fl, sl)) ->
  valid_class (fl, sl) -> mem_step (links_of (a :: L fl sl)) m m' ->
  dllseg m' 0 (a :: L fl sl) 0 ->
  lists_ok m' ((a, sz) :: F) (upd L fl sl (a :: L fl sl)).
Proof.
  intros Hl Ha Hlk Hmf Hc Hs Hd. pose proof Hl as [H1 H2 H3 H4 H5].
  assert (HaL : forall c, valid_class c -> a ∉ L c.1 c.2).
  { intros [fl' sl'] Hc' (sz' & Hin & _)%H3; [|done]. apply Ha.
    apply list_elem_of_fmap. by exists (a, sz'). }
  split.
  - simpl. by apply NoDup_cons.
  - intros a' sz' [[= -> ->]|Hin]%elem_of_cons; (eapply linkable_step; [done|]); eauto.
  - intros fl' sl' a' Hc'. unfold upd. case_decide as E.
    + destruct E as [<- <-]. rewrite elem_of_cons, H3 by done. split.
      * intros [->|(sz' & Hin & Hmf')]; [exists sz; split; [set_solver|done]|].
        exists sz'. split; [set_solver|done].
      * intros (sz' & [[= -> ->]|Hin]%elem_of_cons & Hmf'); [by left|right; eauto].
    + rewrite H3 by done. split; intros (sz' & Hin & Hmf').
      * exists sz'. split; [set_solver|done].
      * apply elem_of_cons in Hin as [[= -> ->]|Hin]; [|eauto].
        destruct E. rewrite Hmf in Hmf'. naive_solver.
  - intros fl' sl' Hc'. unfold upd. case_decide as E; [|by apply H4].
    apply NoDup_cons. split; [apply (HaL (fl, sl) Hc)|by apply H4].
  - intros fl' sl' Hc'. unfold upd. case_decide as E; [done|].
    eapply dllseg_other; [done| | | |by apply H5].
    + intros x [->|Hx]%elem_of_cons; [apply Hlk|].
      destruct (lists_ok_aligned _ _ _ _ _ Hl Hc x Hx) as [? Hx']. apply Hx'.
    + intros x Hx. destruct (lists_ok_aligned _ _ _ _ _ Hl Hc' x Hx) as [? Hx']. apply Hx'.
    + intros x [->|Hx]%elem_of_cons Hx'; [by apply (HaL (fl', sl') Hc')|].
      apply E. pose proof (lists_ok_disjoint _ _ _ _ _ _ _ _ Hl Hc Hc' Hx Hx'). naive_solver.
Qed.

Lemma lists_ok_remove m m' F F' L a sz fl sl l1 l2 :
  lists_ok m F L -> F ≡ₚ (a, sz) :: F' -> map_floor sz = Ok (Some (fl, sl)) ->
  valid_class (fl, sl) -> L fl sl = l1 ++ a :: l2 -> mem_step (links_of (l1 ++ l2)) m m' ->
  dllseg m' 0 (l1 ++ l2) 0 ->
  lists_ok m' F' (upd L fl sl (l1 ++ l2)).
Proof.
  intros Hl HF Hmf Hc EL Hs Hd. apply (lists_ok_perm _ _ _ _ HF) in Hl. clear HF F.
  pose proof Hl as [H1 H2 H3 H4 H5]. simpl in H1. apply NoDup_cons in H1 as [Hna H1].
  assert (Hsub : forall x, x ∈ l1 ++ l2 -> x ∈ L fl sl) by (intros x; rewrite EL; set_solver).
  assert (Hnd : NoDup (l1 ++ a :: l2)) by (rewrite <- EL; by apply H4).
  assert (Hnl : (a ∉ l1 ++ l2) /\ NoDup (l1 ++ l2)).
  { assert (Hp : (l1 ++ a :: l2) ≡ₚ (a :: l1 ++ l2)) by by (symmetry; apply Permutation_middle).
    rewrite Hp in Hnd. by apply NoDup_cons in Hnd. }
  assert (Hne : forall a' sz', (a', sz') ∈ F' -> a' <> a).
  { intros a' sz' Hin ->. apply Hna. apply list_elem_of_fmap. by exists (a, sz'). }
  split; [done| | | |].
  - intros a' sz' Hin. eapply linkable_step; [done|]. apply H2. set_solver.
  - intros fl' sl' a' Hc'. unfold upd. case_decide as E.
    + destruct E as [<- <-]. transitivity ((a' ∈ L fl sl) /\ a' <> a).
      { rewrite EL. destruct Hnl as [Hnl _]. set_solver. }
      rewrite H3 by done. split.
      * intros [(sz' & [[= -> ->]|Hin]%elem_of_cons & Hmf') Hn]; [done|eauto].
      * intros (sz' & Hin & Hmf'). split; [|eauto]. exists sz'. split; [set_solver|done].
    + rewrite H3 by done. split; intros (sz' & Hin & Hmf').
      * apply elem_of_cons in Hin as [[= -> ->]|Hin]; [|eauto].
        destruct E. rewrite Hmf in Hmf'. naive_solver.
      * exists sz'. split; [set_solver|done].
  - intros fl' sl' Hc'. unfold upd. case_decide as E; [apply Hnl|by apply H4].
  - intros fl' sl' Hc'. unfold upd. case_decide as E; [done|].
    eapply dllseg_other; [done| | | |by apply H5].
    + intros x Hx%Hsub. destruct (lists_ok_aligned _ _ _ _ _ Hl Hc x Hx) as [? Hx']. apply Hx'.
    + intros x Hx. destruct (lists_ok_aligned _ _ _ _ _ Hl Hc' x Hx) as [? Hx']. apply Hx'.
    + intros x Hx%Hsub Hx'. apply E.
      pose proof (lists_ok_disjoint _ _ _ _ _ _ _ _ Hl Hc Hc' Hx Hx'). naive_solver.
Qed.

(** The links of one list are links of the represented set. *)
Lemma links_of_area m F L fl sl l x :
  lists_ok m F L -> valid_class (fl, sl) -> (forall y, y ∈ l -> y ∈ L fl sl) ->
  links_of l x -> link_area F x.
Proof.
  intros [_ _ H3 _ _] Hc Hl (y & Hy & Hx). apply Hl, H3 in Hy as (sz & Hin & _); [|done].
  by exists y, sz.
Qed.

Lemma hd_usize m F L fl sl l :
  lists_ok m F L -> valid_class (fl, sl) -> (forall y, y ∈ l -> y ∈ L fl sl) ->
  is_usize (hd 0 l) /\ (hd 0 l = 0 -> l = []).
Proof.
  intros Hl Hc Hsub. pose proof USIZE_MOD_large. pose proof WORD_pos. pose proof GRANULARITY_pos.
  destruct l as [|y l]; simpl; [unfold is_usize; split; [lia|done]|].
  destruct (lists_ok_aligned _ _ _ _ _ Hl Hc y) as [sz [? ? ? ? ? ?]]; [apply Hsub; set_solver|].
  unfold is_usize. split; lia.
Qed.

Lemma last_usize m F L fl sl l :
  lists_ok m F L -> valid_class (fl, sl) -> (forall y, y ∈ l -> y ∈ L fl sl) ->
  is_usize (last_addr 0 l) /\ (last_addr 0 l = 0 -> l = []).
Proof.
  intros Hl Hc Hsub. destruct l as [|y l _] using rev_ind; simpl.
  { pose proof USIZE_MOD_large. pose proof WORD_pos. unfold is_usize. split; [lia|done]. }
  rewrite last_addr_snoc. destruct (hd_usize m F L fl sl [y] Hl Hc) as [H1 H2]; [set_solver|].
  split; [done|]. intros E. simpl in H2. by rewrite E in H2; specialize (H2 eq_refl).
Qed.

End ListUpdates.

(** ** Specifications of the operations *)

Section IndexSpecs.
Context {T : Target} {P : TlsfParams} {Pok : ParamsOk P}.

Lemma is_usize_0 : is_usize 0.
Proof. pose proof USIZE_MOD_large. pose proof WORD_pos. unfold is_usize. lia. Qed.

Lemma linkable_addr_usize m a sz : linkable m a sz -> is_usize a.
Proof. intros [? ? ? ? ? ?]. pose proof GRANULARITY_pos. unfold is_usize. lia. Qed.

(** The two link words of a new head, then the back link of the old head. *)
Lemma link_memory m0 m1 m2 m3 a l :
  aligned_list (a :: l) -> NoDup (a :: l) -> dllseg m0 0 l 0 ->
  mem_step (in_word (a + 2 * WORD)) m0 m1 -> word_at m1 (a + 2 * WORD) (hd 0 l) ->
  mem_step (in_word (a + 3 * WORD)) m1 m2 -> word_at m2 (a + 3 * WORD) 0 ->
  (match l with
   | [] => m3 = m2
   | y :: _ => mem_step (in_word (y + 3 * WORD)) m2 m3 /\ word_at m3 (y + 3 * WORD) a
   end) ->
  mem_step (links_of (a :: l)) m0 m3 /\ dllseg m3 0 (a :: l) 0.
Proof.
  intros Ha Hnd Hd Hs1 Hw1 Hs2 Hw2 H3. pose proof WORD_pos.
  assert (Hstep : mem_step (links_of [a]) m0 m2).
  { eapply mem_step_trans; (eapply mem_step_weaken; [done|]); intros x Hx;
      (eapply links_of_word; [|split|exact Hx]; [set_solver|lia|lia]). }
  assert (Hw1' : word_at m2 (a + 2 * WORD) (hd 0 l)).
  { eapply word_at_step; [apply Hs2| |done]. unfold in_word. lia. }
  assert (Hd2 : dllseg m2 0 l 0).
  { eapply dllseg_other; [exact Hstep| | | |done]; [intros x Hx; apply Ha; set_solver..|].
    apply NoDup_cons in Hnd. set_solver. }
  destruct l as [|y l].
  { subst m3. split; [done|]. simpl. done. }
  destruct H3 as [Hs3 Hw3].
  assert (Hay : a + 4 * WORD <= y \/ y + 4 * WORD <= a).
  { apply granules_disjoint; [apply Ha; set_solver..|]. apply NoDup_cons in Hnd. set_solver. }
  split.
  - eapply mem_step_trans.
    + eapply mem_step_weaken; [exact Hstep|]. intros x (z & Hz & Hx). exists z. split; [set_solver|done].
    + eapply mem_step_weaken; [exact Hs3|]. intros x Hx. eapply links_of_word; [|split|exact Hx]; [set_solver|lia|lia].
  - split; [|split].
    + eapply word_at_step; [exact Hs3| |done]. unfold in_word. lia.
    + eapply word_at_step; [exact Hs3| |done]. unfold in_word. lia.
    + eapply (dllseg_set_prev m2 m3 0 a y l 0); [| |done|done|done].
      * intros x Hx. apply Ha. set_solver.
      * by apply NoDup_cons in Hnd as [_ ?].
Qed.

(** A block that is put in front of its list. *)
Lemma push_aligned m F L a sz fl sl :
  lists_ok m F L -> linkable m a sz -> a ∉ F.*1 -> valid_class (fl, sl) ->
  aligned_list (a :: L fl sl) /\ NoDup (a :: L fl sl).
Proof.
  intros [_ Hlkb He Hn _] Hlk Hnin Hc. split.
  - intros x [->|(sz' & Hx & _)%He]%elem_of_cons; [apply Hlk| |done]. apply (Hlkb x sz' Hx).
  - apply NoDup_cons. split; [|by apply Hn]. intros (sz' & Hx & _)%He; [|done].
    apply Hnin, list_elem_of_fmap. by exists (a, sz').
Qed.

(** Setting the two bits, once the links are written. *)
Lemma set_bits_spec s m3 F L a sz fl sl (Q : unit -> St -> Prop) :
  heads_ok (st_tlsf s) L -> lists_ok (st_mem s) F L -> valid_class (fl, sl) -> map_floor sz = Ok (Some (fl, sl)) ->
  a ∉ F.*1 -> linkable (st_mem s) a sz -> dllseg m3 0 (a :: L fl sl) 0 ->
  mem_step (links_of (a :: L fl sl)) (st_mem s) m3 ->
  (forall s', FreeIndex (st_tlsf s') (st_mem s') ((a, sz) :: F) ->
     mem_step (link_area ((a, sz) :: F)) (st_mem s) (st_mem s') -> Q tt s') ->
  wp (fb ← get_fl_bitmap; set_fl_bitmap (set_bit FLBitmap fb fl);;
      sb ← get_sl_bitmap fl; set_sl_bitmap fl (set_bit SLBitmap sb sl))
    (mkSt (put_first_free (st_tlsf s) fl sl a) m3) Q.
Proof.
  intros Hh Hl Hc Hmf Hnin Hlk Hdll Hstep HQ. pose proof (heads_shape _ _ Hh) as Hshape. pose proof Hc as [Hcf _]. simpl in Hcf.
  apply wp_bind, wp_get_fl_bitmap. apply wp_bind, wp_set_fl_bitmap.
  assert (shape (put_fl_bitmap (put_first_free (st_tlsf s) fl sl a) (set_bit FLBitmap (fl_bitmap (st_tlsf s)) fl)))
    by by apply shape_put_fl_bitmap, shape_put_first_free.
  apply wp_bind, wp_get_sl_bitmap; [done..|]. apply wp_set_sl_bitmap; [done..|]. apply HQ.
  - exists (upd L fl sl (a :: L fl sl)). split; [exact (heads_push _ L fl sl (a :: L fl sl) Hh Hc ltac:(done))|].
    by eapply (lists_ok_push (st_mem s)).
  - eapply mem_step_weaken; [exact Hstep|]. intros x (y & [->|Hy]%elem_of_cons & Hx).
    + exists a, sz. split; [set_solver|done].
    + apply (lists_elem _ _ _ Hl fl sl y Hc) in Hy as (sz' & Hin & _). exists y, sz'. split; [set_solver|done].
Qed.

Lemma link_free_block_spec a sz s F (Q : unit -> St -> Prop) :
  FreeIndex (st_tlsf s) (st_mem s) F -> a ∉ F.*1 -> linkable (st_mem s) a sz ->
  (forall s', FreeIndex (st_tlsf s') (st_mem s') ((a, sz) :: F) ->
     mem_step (link_area ((a, sz) :: F)) (st_mem s) (st_mem s') -> Q tt s') ->
  wp (link_free_block a sz) s Q.
Proof.
  intros (L & Hh & Hl) Hnin Hlk HQ. pose proof Hlk as [Hpos Hal _ Hmap Hsz [[fl sl] Hmf]].
  destruct (map_floor_Some sz fl sl Hsz Hmf) as [Hc _]. pose proof (heads_shape _ _ Hh) as Hshape.
  wp_pure Hmf. wp_pure (@eq_refl (Res (Z * Z)) (Ok (fl, sl))).
  apply wp_bind, wp_get_first_free; [done..|]. rewrite (heads_ff _ _ Hh) by done.
  destruct (hd_usize _ _ _ fl sl (L fl sl) Hl Hc) as [Hhd Hhd0]; [done|].
  apply wp_bind, wp_set_first_free; [done..|].
  apply wp_bind, wp_set_next_free; [done..|]. intros m1 Hs1 Hw1. simpl in Hs1.
  apply wp_bind, wp_set_prev_free; [done|done|simpl; by eapply mapped_step|apply is_usize_0|].
  intros m2 Hs2 Hw2. simpl in Hs2. destruct (push_aligned _ _ _ _ _ _ _ Hl Hlk Hnin Hc) as [HaL Hnd].
  pose proof (lists_dll _ _ _ Hl fl sl Hc) as Hdl.
  pose proof (fun m3 => link_memory _ _ m2 m3 _ _ HaL Hnd Hdl Hs1 Hw1 Hs2 Hw2) as Hmem.
  simpl. destruct (Z.eqb_spec (hd 0 (L fl sl)) 0) as [E|E].
  - apply wp_bind, wp_ret. destruct (Hmem m2) as [? ?]; [by rewrite (Hhd0 E)|]. by eapply set_bits_spec.
  - destruct (L fl sl) as [|y l] eqn:EL; [done|]. simpl in E |- *.
    destruct (lists_ok_aligned _ _ _ _ _ Hl Hc y) as [szy [? ? ? Hmapy _ _]]; [rewrite EL; set_solver|].
    apply wp_bind, wp_set_prev_free; [done|done| | by eapply linkable_addr_usize|].
    { simpl. eapply mapped_step; [done|]. by eapply mapped_step. }
    intros m3 Hs3 Hw3. destruct (Hmem m3) as [? ?]; [done|]. eapply set_bits_spec; rewrite ?EL; done.
Qed.

(** Bypassing a block in both directions. *)
Lemma unlink_memory m0 m1 m2 a l1 l2 :
  aligned_list (l1 ++ a :: l2) -> NoDup (l1 ++ a :: l2) -> dllseg m0 0 (l1 ++ a :: l2) 0 ->
  (match l2 with
   | [] => m1 = m0
   | y :: _ => mem_step (in_word (y + 3 * WORD)) m0 m1 /\ word_at m1 (y + 3 * WORD) (last_addr 0 l1)
   end) ->
  (l1 = [] /\ m2 = m1 \/ exists l q, l1 = l ++ [q] /\
     mem_step (in_word (q + 2 * WORD)) m1 m2 /\ word_at m2 (q + 2 * WORD) (hd 0 l2)) ->
  mem_step (links_of (l1 ++ l2)) m0 m2 /\ dllseg m2 0 (l1 ++ l2) 0.
Proof.
  intros Ha Hnd Hd H1 H2. pose proof WORD_pos.
  apply dllseg_app in Hd as [Hd1 (_ & _ & Hd2)]. simpl in Hd1.
  assert (Hal : aligned_list l1 /\ aligned_list l2) by (split; intros x Hx; apply Ha; set_solver).
  destruct Hal as [Ha1 Ha2]. apply NoDup_app in Hnd as (Hn1 & Hdis & [_ Hn2]%NoDup_cons).
  (* first the back link of the next block *)
  assert (Hm1 : mem_step (links_of l2) m0 m1 /\ dllseg m1 (last_addr 0 l1) l2 0).
  { destruct l2 as [|y l2]; [subst; split; [apply mem_step_refl|done]|].
    destruct H1 as [Hs1 Hw1]. split.
    - eapply mem_step_weaken; [exact Hs1|]. intros x Hx.
      eapply links_of_word; [|split|exact Hx]; [set_solver|lia|lia].
    - by apply (dllseg_set_prev m0 m1 a (last_addr 0 l1) y l2 0). }
  destruct Hm1 as [Hs1 Hd2']. assert (Hd1' : dllseg m1 0 l1 a).
  { eapply dllseg_other; [exact Hs1|done|done| |done]. set_solver. }
  rewrite dllseg_app. destruct H2 as [[-> ->]|(l & q & -> & Hs2 & Hw2)].
  { split; [done|]. split; [done|exact Hd2']. }
  split.
  - eapply mem_step_trans; (eapply mem_step_weaken; [done|]).
    + intros x (z & Hz & Hx). exists z. split; [set_solver|done].
    + intros x Hx. eapply links_of_word; [|split|exact Hx]; [set_solver|lia|lia].
  - split.
    + by eapply (dllseg_set_next m1 m2 0 l q a (hd 0 l2)).
    + eapply (dllseg_other m1 m2 [q]); [| |done| |done].
      * eapply mem_step_weaken; [exact Hs2|]. intros x Hx.
        eapply links_of_word; [|split|exact Hx]; [set_solver|lia|lia].
      * intros x ->%list_elem_of_singleton. apply Ha1. set_solver.
      * intros x ->%list_elem_of_singleton. set_solver.
Qed.

(** What removing [a] from its list leaves to show. *)
Lemma removed_spec s h' m' F F' L a sz fl sl l1 l2 (Q : unit -> St -> Prop) :
  lists_ok (st_mem s) F L -> F ≡ₚ (a, sz) :: F' -> map_floor sz = Ok (Some (fl, sl)) ->
  valid_class (fl, sl) -> L fl sl = l1 ++ a :: l2 ->
  mem_step (links_of (l1 ++ l2)) (st_mem s) m' /\ dllseg m' 0 (l1 ++ l2) 0 ->
  heads_ok h' (upd L fl sl (l1 ++ l2)) ->
  (forall s', FreeIndex (st_tlsf s') (st_mem s') F' ->
     mem_step (link_area F') (st_mem s) (st_mem s') -> Q tt s') ->
  Q tt (mkSt h' m').
Proof.
  intros Hl HF Hmf Hc EL [Hs Hd] Hh HQ. apply HQ; simpl.
  - exists (upd L fl sl (l1 ++ l2)). split; [done|]. by eapply lists_ok_remove.
  - eapply mem_step_weaken; [done|]. intros x (y & Hy & Hx).
    pose proof (lists_NoDup _ _ _ Hl fl sl Hc) as Hnd. rewrite EL in Hnd.
    assert (Hya : y <> a).
    { intros ->. apply NoDup_app in Hnd as (_ & Hd1 & [Hd2 _]%NoDup_cons).
      apply elem_of_app in Hy as [Hy|Hy]; [|done]. apply (Hd1 a Hy). set_solver. }
    assert (Hin : y ∈ L fl sl) by (rewrite EL; set_solver).
    apply (lists_elem _ _ _ Hl fl sl y Hc) in Hin as (sz' & Hin & _).
    rewrite HF in Hin. apply elem_of_cons in Hin as [[= ??]|Hin]; [done|]. by exists y, sz'.
Qed.

(** Position of a represented block in its list. *)
Lemma listed_split m F L a sz fl sl :
  lists_ok m F L -> valid_class (fl, sl) -> (a, sz) ∈ F -> map_floor sz = Ok (Some (fl, sl)) ->
  exists l1 l2, L fl sl = l1 ++ a :: l2.
Proof.
  intros Hl Hc Hin Hmf. apply list_elem_of_split. apply (lists_elem _ _ _ Hl fl sl a Hc). eauto.
Qed.

(** What is known of one list of the index. *)
Lemma listed_facts m F L fl sl l1 a l2 :
  lists_ok m F L -> valid_class (fl, sl) -> L fl sl = l1 ++ a :: l2 ->
  dllseg m 0 (l1 ++ a :: l2) 0 /\ NoDup (l1 ++ a :: l2) /\ aligned_list (l1 ++ a :: l2).
Proof.
  intros Hl Hc EL. rewrite <- EL. split_and!; [by apply Hl|by apply Hl|].
  intros x Hx. destruct (lists_ok_aligned _ _ _ _ _ Hl Hc x Hx) as [? Hx']. apply Hx'.
Qed.

(** The second half of [unlink_free_block], from the memory [m1] in which the
    back link of the successor is updated: the forward link of the predecessor,
    or the head of the list and its bit. *)
Lemma unlink_forward_spec a sz s F F' L fl sl l1 l2 m1 (Q : unit -> St -> Prop) :
  heads_ok (st_tlsf s) L -> lists_ok (st_mem s) F L -> F ≡ₚ (a, sz) :: F' ->
  map_floor sz = Ok (Some (fl, sl)) -> valid_class (fl, sl) -> L fl sl = l1 ++ a :: l2 ->
  match l2 with
  | [] => m1 = st_mem s
  | y :: _ => mem_step (in_word (y + 3 * WORD)) (st_mem s) m1 /\ word_at m1 (y + 3 * WORD) (last_addr 0 l1)
  end -> mem_step (fun _ => True) (st_mem s) m1 ->
  (forall s', FreeIndex (st_tlsf s') (st_mem s') F' ->
     mem_step (link_area F') (st_mem s) (st_mem s') -> Q tt s') ->
  wp (if negb (last_addr 0 l1 =? 0) then set_next_free (last_addr 0 l1) (hd 0 l2)
      else c ← lift (map_floor sz); '(fl, sl) ← lift (expect c); first_free ← get_first_free fl sl;
           lift (check (first_free =? a));; set_first_free fl sl (hd 0 l2);;
           if hd 0 l2 =? 0 then clear_list_bit fl sl else mret tt) (with_mem s m1) Q.
Proof.
  intros Hh Hl HF Hmf Hc EL Hm1 Hs1 HQ. pose proof (heads_shape _ _ Hh) as Hshape.
  destruct (listed_facts _ _ _ _ _ _ _ _ Hl Hc EL) as (Hdl & Hnd & Hali).
  destruct (hd_usize _ _ _ fl sl l2 Hl Hc) as [Hn Hn0]; [intros; rewrite EL; set_solver|].
  destruct (last_usize _ _ _ fl sl l1 Hl Hc) as [Hp Hp0]; [intros; rewrite EL; set_solver|].
  pose proof (fun m1 m2 => unlink_memory (st_mem s) m1 m2 a l1 l2 Hali Hnd Hdl) as Hmem.
  pose proof (fun h m => removed_spec s h m F F' L a sz fl sl l1 l2 Q Hl HF Hmf Hc EL) as Hfin.
  destruct l1 as [|q l _] using rev_ind.
  - simpl. wp_pure Hmf. wp_pure (@eq_refl (Res (Z * Z)) (Ok (fl, sl))).
    apply wp_bind, wp_get_first_free; [done..|]. simpl. rewrite (heads_ff _ _ Hh), EL by done. simpl.
    apply wp_bind, wp_check; [apply Z.eqb_refl|]. apply wp_bind, wp_set_first_free; [done..|].
    destruct (Z.eqb_spec (hd 0 l2) 0) as [E|E].
    + rewrite (Hn0 E) in *. simpl in E. eapply clear_list_bit_spec; [exact Hh|done|done|]. intros h' Hh'.
      apply (Hfin h' m1); [|done|done]. apply (Hmem m1 m1); [done|]. by left.
    + apply wp_ret. apply (Hfin _ m1);
        [|apply (heads_replace _ L fl sl l2); [done|done|by rewrite EL|by destruct l2]|done].
      apply (Hmem m1 m1); [done|]. by left.
  - rewrite last_addr_snoc in *. destruct (Z.eqb_spec q 0) as [E|E]; [by apply Hp0 in E; destruct l|].
    simpl. destruct (lists_ok_aligned _ _ _ _ _ Hl Hc q) as [szq [? ? ? Hmapq _ _]]; [rewrite EL; set_solver|].
    apply wp_set_next_free; [done|done| |done|]; [by eapply mapped_step|]. intros m2 Hs2 Hw2.
    apply (Hfin (st_tlsf s) m2); [| |done].
    + apply (Hmem m1); [done|]. right. by exists l, q.
    + apply heads_same_head; [done| | |]; [rewrite EL; by destruct l|by destruct l|].
      rewrite EL, <- !app_assoc. by destruct l.
Qed.

Lemma unlink_free_block_spec a sz s F F' (Q : unit -> St -> Prop) :
  FreeIndex (st_tlsf s) (st_mem s) F -> F ≡ₚ (a, sz) :: F' ->
  (forall s', FreeIndex (st_tlsf s') (st_mem s') F' ->
     mem_step (link_area F') (st_mem s) (st_mem s') -> Q tt s') ->
  wp (unlink_free_block a sz) s Q.
Proof.
  intros (L & Hh & Hl) HF HQ.
  assert (Hin : (a, sz) ∈ F) by (rewrite HF; set_solver).
  pose proof (lists_linkable _ _ _ Hl a sz Hin) as [Hpos Hal _ Hmap Hsz [[fl sl] Hmf]].
  destruct (map_floor_Some sz fl sl Hsz Hmf) as [Hc _].
  destruct (listed_split _ _ _ _ _ _ _ Hl Hc Hin Hmf) as (l1 & l2 & EL).
  destruct (listed_facts _ _ _ _ _ _ _ _ Hl Hc EL) as (Hdl & Hnd & Hali).
  destruct (hd_usize _ _ _ fl sl l2 Hl Hc) as [Hn Hn0]; [intros; rewrite EL; set_solver|].
  destruct (last_usize _ _ _ fl sl l1 Hl Hc) as [Hp Hp0]; [intros; rewrite EL; set_solver|].
  pose proof Hdl as Hdl0. apply dllseg_app in Hdl0 as [_ (Hwn & Hwp & _)].
  pose proof (fun m1 Hm Hs => unlink_forward_spec _ _ _ _ _ _ _ _ _ _ m1 Q Hh Hl HF Hmf Hc EL Hm Hs HQ) as Hrest.
  unfold unlink_free_block.
  apply wp_bind. eapply wp_get_next_free; [done|done|exact Hwn|].
  apply wp_bind. eapply wp_get_prev_free; [done|done|exact Hwp|].
  destruct (Z.eqb_spec (hd 0 l2) 0) as [E|E].
  - apply wp_bind, wp_ret. destruct s as [h m]. apply (Hrest m); [by rewrite (Hn0 E)|apply mem_step_refl].
  - destruct l2 as [|y l2]; [done|]. simpl in E.
    destruct (lists_ok_aligned _ _ _ _ _ Hl Hc y) as [szy [? ? ? Hmapy _ _]]; [rewrite EL; set_solver|].
    apply wp_bind, wp_set_prev_free; [done..|]. intros m1 Hs1 Hw1. apply Hrest; [done|].
    eapply mem_step_weaken; [exact Hs1|done].
Qed.

(** [allocate]'s inline unlinking of the head of a list. *)
Lemma unlink_first_free_spec fl sl a s F (Q : unit -> St -> Prop) :
  FreeIndex (st_tlsf s) (st_mem s) F -> valid_class (fl, sl) ->
  ff (st_tlsf s) fl sl = a -> a <> 0 ->
  (forall sz F' s', F ≡ₚ (a, sz) :: F' -> map_floor sz = Ok (Some (fl, sl)) ->
     FreeIndex (st_tlsf s') (st_mem s') F' ->
     mem_step (link_area F') (st_mem s) (st_mem s') -> Q tt s') ->
  wp (unlink_first_free fl sl a) s Q.
Proof.
  intros (L & Hh & Hl) Hc Ea Hnz HQ. rewrite (heads_ff _ _ Hh) in Ea by done.
  destruct (L fl sl) as [|a' l2] eqn:EL; simpl in Ea; [done|]. subst a'.
  assert (Hin : a ∈ L fl sl) by (rewrite EL; set_solver).
  apply (lists_elem _ _ _ Hl fl sl a Hc) in Hin as (sz & Hin & Hmf).
  destruct (elem_of_Permutation_cons _ _ Hin) as [F' HF].
  pose proof (lists_linkable _ _ _ Hl a sz Hin) as [Hpos Hal _ Hmap Hsz _].
  pose proof (heads_shape _ _ Hh) as Hshape.
  destruct (listed_facts _ _ _ _ _ [] _ _ Hl Hc EL) as (Hdl & Hnd & Hali).
  destruct (hd_usize _ _ _ fl sl l2 Hl Hc) as [Hn Hn0]; [intros; rewrite EL; set_solver|].
  pose proof (fun m1 m2 => unlink_memory (st_mem s) m1 m2 a [] l2 Hali Hnd Hdl) as Hmem.
  assert (Hfin := fun h m => removed_spec s h m F F' L a sz fl sl [] l2 Q Hl HF Hmf Hc EL).
  unfold unlink_first_free. apply wp_bind. eapply wp_get_next_free; [done|done|apply Hdl|].
  apply wp_bind, wp_set_first_free; [done..|]. destruct (Z.eqb_spec (hd 0 l2) 0) as [E|E]; simpl.
  - rewrite (Hn0 E) in *. simpl in E. eapply clear_list_bit_spec; [exact Hh|done|done|]. intros h' Hh'.
    apply (Hfin h' (st_mem s)); [|done|eauto]. apply (Hmem (st_mem s)); [done|]. by left.
  - destruct l2 as [|y l2]; [done|]. simpl in E.
    destruct (lists_ok_aligned _ _ _ _ _ Hl Hc y) as [szy [? ? ? Hmapy _ _]]; [rewrite EL; set_solver|].
    apply wp_set_prev_free; [done|done|done|apply is_usize_0|]. intros m1 Hs1 Hw1.
    apply (Hfin _ m1); [|apply (heads_replace _ L fl sl (y :: l2)); [done|done|by rewrite EL|done]|eauto].
    apply (Hmem m1); [done|]. by left.
Qed.

(** The class of a represented block. *)
Definition block_class (F : list (Z * Z)) (c : Z * Z) : Prop :=
  exists a sz, (a, sz) ∈ F /\ map_floor sz = Ok (Some c).

Lemma block_class_nonempty m F L c :
  lists_ok m F L -> block_class F c <-> valid_class c /\ L c.1 c.2 <> [].
Proof.
  intros Hl. destruct c as [fl sl]; simpl. split.
  - intros (a & sz & Hin & Hmf).
    destruct (map_floor_Some sz fl sl (linkable_size _ _ _ (lists_linkable _ _ _ Hl a sz Hin)) Hmf) as [Hc _].
    split; [done|]. assert (H : a ∈ L fl sl) by (apply (lists_elem _ _ _ Hl fl sl a Hc); eauto).
    intros E. rewrite E in H. set_solver.
  - intros [Hc Hn]. destruct (L fl sl) as [|a l] eqn:E; [done|].
    assert (H : a ∈ L fl sl) by (rewrite E; set_solver).
    apply (lists_elem _ _ _ Hl fl sl a Hc) in H as (sz & Hin & Hmf). by exists a, sz.
Qed.

(** The head of a non-empty list at or above [map_ceil size] is large enough. *)
Lemma head_fits m h F L c size :
  heads_ok h L -> lists_ok m F L -> valid_class c -> L c.1 c.2 <> [] ->
  valid_size size -> class_le (ceil_class size) c ->
  exists sz, (ff h c.1 c.2, sz) ∈ F /\ map_floor sz = Ok (Some c) /\ size <= sz /\ ff h c.1 c.2 <> 0.
Proof.
  destruct c as [fl sl]; simpl. intros Hh Hl Hc Hn Hsize Hle.
  rewrite (heads_ff _ _ Hh) by done. destruct (L fl sl) as [|a l] eqn:E; [done|]. simpl.
  assert (H : a ∈ L fl sl) by (rewrite E; set_solver).
  apply (lists_elem _ _ _ Hl fl sl a Hc) in H as (sz & Hin & Hmf). exists sz.
  pose proof (lists_linkable _ _ _ Hl a sz Hin) as [Hpos _ _ _ Hsz _].
  destruct (map_floor_Some sz fl sl Hsz Hmf) as [_ [Hlow _]].
  destruct (ceil_class_valid size Hsize) as [H1 H2]. destruct Hc as [Hc1 Hc2]. simpl in *.
  assert (Hm : cmin (ceil_class size).1 (ceil_class size).2 <= cmin fl sl)
    by (apply (cmin_mono (ceil_class size) (fl, sl)); simpl; (done || lia)).
  pose proof (ceil_class_sound size Hsize). destruct VALID_inv as (_ & HS & _).
  split_and!; [done|done|nia|lia].
Qed.

(** A bit that is clear says that the list, or every list of the row, is
    empty. *)
Lemma sl_bit_clear h L fl j :
  heads_ok h L -> 0 <= fl < FLLEN -> 0 <= j < SLLEN -> Z.testbit (slb h fl) j = false -> L fl j = [].
Proof.
  intros Hh Hf Hj Hb. destruct VALID_inv as (_ & _ & _ & HSB). destruct (decide (L fl j = [])) as [|Hne]; [done|].
  rewrite (proj2 (heads_sl _ _ Hh fl j Hf ltac:(lia))) in Hb by (split; [lia|done]). done.
Qed.

Lemma fl_bit_clear h L i j :
  heads_ok h L -> 0 <= i < FLLEN -> 0 <= j < SLLEN -> Z.testbit (fl_bitmap h) i = false -> L i j = [].
Proof.
  intros Hh Hi Hj Hb. destruct VALID_inv as (_ & _ & HFB & HSB). destruct (decide (slb h i = 0)) as [E|Hnz].
  - apply (sl_bit_clear h); [done..|]. by rewrite E, Z.bits_0.
  - rewrite (proj2 (heads_fl _ _ Hh i ltac:(lia))) in Hb by (split; [lia|done]). done.
Qed.

(** The lowest bit of a row that is not zero. *)
Lemma lowest_in_row h L q :
  heads_ok h L -> 0 <= q < FLLEN -> slb h q <> 0 ->
  let t := trailing_zeros (BITS SLBitmap) (slb h q) in
  0 <= t < SLLEN /\ get_bit SLBitmap (slb h q) t = true /\ L q t <> [] /\ forall j, 0 <= j < t -> L q j = [].
Proof.
  intros Hh Hq Hnz t. pose proof (heads_sl_range _ _ Hh q Hq) as Hr. destruct VALID_inv as (_ & _ & _ & HSB).
  destruct (trailing_zeros_lowest (I := SLBitmap) (slb h q) Hr) as [(Ht1 & Ht2 & Ht3)|[_ Ht]].
  2: { destruct Hnz. apply (in_range_zero (I := SLBitmap)); [done|]. intros. apply Ht. lia. }
  fold t in Ht1, Ht2, Ht3. apply (heads_sl _ _ Hh) in Ht2 as Hne; [|lia..]. destruct Hne as [Htl Hne].
  split_and!; [lia|lia|rewrite get_bit_spec; [done|done|lia]|done|]. intros j Hj. apply (sl_bit_clear h); [done|lia|lia|]. apply Ht3. lia.
Qed.

(** The result of the search, from the lists. *)
Definition first_class (L : Z -> Z -> list Z) (c0 c : Z * Z) : Prop :=
  valid_class c /\ L c.1 c.2 <> [] /\ class_le c0 c /\
  forall c', valid_class c' -> L c'.1 c'.2 <> [] -> class_le c0 c' -> class_le c c'.

Lemma first_class_found s F L size fl sl (Q : option (Z * Z) -> St -> Prop) :
  heads_ok (st_tlsf s) L -> lists_ok (st_mem s) F L -> valid_size size -> first_class L (ceil_class size) (fl, sl) ->
  (forall fl sl sz, valid_class (fl, sl) -> (ff (st_tlsf s) fl sl, sz) ∈ F ->
     map_floor sz = Ok (Some (fl, sl)) -> size <= sz -> ff (st_tlsf s) fl sl <> 0 -> class_le (ceil_class size) (fl, sl) ->
     (forall c, block_class F c -> class_le (ceil_class size) c -> class_le (fl, sl) c) -> Q (Some (fl, sl)) s) ->
  Q (Some (fl, sl)) s.
Proof.
  intros Hh Hl Hsz (Hv & Hne & Hle & Hmin) HS.
  destruct (head_fits _ _ _ _ (fl, sl) size Hh Hl Hv Hne Hsz Hle) as (sz & Hin & Hmf & Hs & Hnz). eapply HS; try done.
  intros c' [Hv' Hne']%(block_class_nonempty _ _ _ _ Hl). by apply Hmin.
Qed.

Lemma search_spec min_size s F (Q : option (Z * Z) -> St -> Prop) :
  FreeIndex (st_tlsf s) (st_mem s) F -> valid_size min_size ->
  ((forall c, block_class F c -> ~ class_le (ceil_class min_size) c) -> Q None s) ->
  (forall fl sl sz, valid_class (fl, sl) -> (ff (st_tlsf s) fl sl, sz) ∈ F ->
     map_floor sz = Ok (Some (fl, sl)) -> min_size <= sz -> ff (st_tlsf s) fl sl <> 0 ->
     class_le (ceil_class min_size) (fl, sl) ->
     (forall c, block_class F c -> class_le (ceil_class min_size) c -> class_le (fl, sl) c) ->
     Q (Some (fl, sl)) s) ->
  wp (search_suitable_free_block_list_for_allocation min_size) s Q.
Proof.
  intros (L & Hh & Hl) Hsz HN HS. pose proof Hh as [Hshape _ Hslr Hsl Hflr Hfl].
  destruct VALID_inv as (HF & HSL & HFB & HSB). destruct (ceil_class_valid min_size Hsz) as [Hc1 Hc2].
  pose proof (fun fl sl Hf => first_class_found s F L min_size fl sl Q Hh Hl Hsz Hf HS) as Hfound.
  pose proof (fun c => block_class_nonempty _ _ _ c Hl) as Hbc.
  apply wp_bind. eapply wp_lift; [by apply map_ceil_class|]. set (c := ceil_class min_size) in *.
  destruct (Z.leb_spec FLLEN c.1) as [Hge|Hlt].
  { apply wp_ret, HN. intros c' [[Hc' _] _]%Hbc [Hle|[Hle _]]; lia. }
  apply wp_bind, wp_get_sl_bitmap; [done|lia|]. rewrite (as_u32_small c.2) by lia.
  destruct (bit_scan_forward_spec (I := SLBitmap) (slb (st_tlsf s) c.1) c.2) as (r & Er & Hr); [apply Hslr; lia|lia|].
  wp_pure Er. assert (Hrow : forall j, c.2 <= j < Z.min r SLLEN -> L c.1 j = []).
  { intros j Hj. apply (sl_bit_clear (st_tlsf s)); [done|lia|lia|]. destruct Hr as [(_ & _ & Hr)|[-> Hr]]; apply Hr; lia. }
  destruct (Z.ltb_spec r SLLEN) as [Hrl|Hrl].
  - destruct Hr as [(Hr1 & Hbit & _)|[-> _]]; [|lia].
    apply wp_bind, wp_check; [rewrite get_bit_spec; [done|apply Hslr; lia|lia]|].
    apply wp_ret, Hfound. apply Hsl in Hbit as [_ Hne]; [|lia..]. split_and!; [split; simpl; lia|done|right; simpl; lia|].
    intros [fl' sl'] [Hv1 Hv2] Hne' [Hlt'|[E Hle']]; simpl in *; [left; simpl; lia|right; simpl].
    split; [done|]. destruct (decide (r <= sl')); [done|]. destruct Hne'. rewrite <- E. apply Hrow. lia.
  - apply wp_bind, wp_get_fl_bitmap. rewrite (as_u32_small c.1) by lia.
    destruct (bit_scan_forward_spec (I := FLBitmap) (fl_bitmap (st_tlsf s)) (c.1 + 1)) as (q & Eq & Hq); [done|lia|].
    wp_pure Eq. assert (Hup : forall c', valid_class c' -> L c'.1 c'.2 <> [] -> class_le c c' -> q <= c'.1).
    { intros [fl' sl'] [Hv1 Hv2] Hne' Hle. simpl in *. destruct (decide (q <= fl')) as [|Hnq]; [done|]. destruct Hne'.
      destruct Hle as [Hlt'|[E Hle]]; simpl in *; [|rewrite <- E; apply Hrow; lia].
      apply (fl_bit_clear (st_tlsf s)); [done..|]. destruct Hq as [(_ & _ & Hq)|[-> Hq]]; apply Hq; lia. }
    destruct (Z.ltb_spec q FLLEN) as [Hql|Hql].
    2: { apply wp_ret, HN. intros c' [Hv Hne]%Hbc Hle. pose proof (Hup c' Hv Hne Hle). destruct Hv. lia. }
    destruct Hq as [(Hq1 & Hbit & _)|[-> _]]; [|lia]. apply wp_bind, wp_check; [rewrite get_bit_spec; [done|done|lia]|].
    apply wp_bind, wp_get_sl_bitmap; [done|lia|]. apply Hfl in Hbit as [_ Hnz]; [|lia].
    destruct (lowest_in_row (st_tlsf s) L q Hh ltac:(lia) Hnz) as (Ht & Hgb & Hne & Hlow).
    apply wp_bind, wp_check; [apply Z.ltb_lt, Ht|]. apply wp_bind, wp_check; [done|].
    apply wp_ret, Hfound. split_and!; [split; simpl; lia|done|left; simpl; lia|].
    intros c' Hv Hne' Hle'. pose proof (Hup c' Hv Hne' Hle'). destruct c' as [fl' sl'], Hv as [Hv1 Hv2]; simpl in *.
    destruct (decide (q = fl')) as [<-|]; [right; simpl; split; [done|]|left; simpl; lia].
    destruct (Z.le_gt_cases (trailing_zeros (BITS SLBitmap) (slb (st_tlsf s) q)) sl') as [|Hgt]; [done|]. destruct Hne'. apply Hlow. lia.
Qed.

(** A non-empty list whose smallest size, [cmin / SLLEN], is at least [n]. *)
Definition suitable (F : list (Z * Z)) (n : Z) (c : Z * Z) : Prop :=
  block_class F c /\ n * SLLEN <= cmin c.1 c.2.

Lemma suitable_class h m F n c :
  FreeIndex h m F -> valid_size n -> suitable F n c <-> block_class F c /\ class_le (ceil_class n) c.
Proof.
  intros (L & _ & Hl) Hn. destruct (ceil_class_valid n Hn) as [H1 H2]. pose proof (ceil_class_sound n Hn) as Hs.
  split; intros [Hb Hc]; (split; [exact Hb|]); apply (block_class_nonempty _ _ _ _ Hl) in Hb as [[Hv1 Hv2] _].
  - destruct (class_total (ceil_class n) c) as [|[Hle Hne]]; [done|].
    pose proof (ceil_class_first n c Hn ltac:(lia) Hv2 Hle Hne). lia.
  - etrans; [exact Hs|]. apply cmin_mono; (done || lia).
Qed.

Lemma suitable_size h m F n c a sz :
  FreeIndex h m F -> suitable F n c -> (a, sz) ∈ F -> map_floor sz = Ok (Some c) -> n <= sz.
Proof.
  intros (L & _ & Hl) [_ Hc] Hin Hmf. destruct c as [fl sl], VALID_inv as (_ & HS & _).
  destruct (map_floor_Some sz fl sl (linkable_size _ _ _ (lists_linkable _ _ _ Hl a sz Hin)) Hmf) as [_ [Hlo _]].
  simpl in Hc. nia.
Qed.

(** [Tlsf::new] represents the empty set. *)
Lemma new_index m : FreeIndex new m [].
Proof.
  destruct VALID_inv as (HF & HS & _).
  assert (Hslb : forall fl, slb new fl = 0).
  { intros fl. unfold slb, new; simpl. destruct (replicate _ _ !!ᶻ fl) as [b|] eqn:E; [|done].
    by apply lookup_replicate in E as [-> _]. }
  exists (fun _ _ => []). split; split; simpl.
  - split; unfold new; simpl; [apply length_replicate..|].
    intros r Hr. apply elem_of_replicate in Hr as [-> _]. apply length_replicate.
  - intros fl sl [H1 H2]. unfold ff, row, new; simpl in *.
    by rewrite !lookup_replicate_Z by lia; simpl; rewrite lookup_replicate_Z by lia.
  - intros. rewrite Hslb. apply zero_in_range.
  - intros. rewrite Hslb, Z.bits_0. split; [done|]. by intros [_ ?].
  - apply zero_in_range.
  - intros. unfold ZERO. rewrite Hslb, Z.bits_0. split; [done|]. by intros [_ ?].
  - constructor.
  - set_solver.
  - intros fl sl a _. split; [set_solver|]. intros (? & ? & _). set_solver.
  - constructor.
  - done.
Qed.

End IndexSpecs.

(** ** Properties *)

Section FreeIndexProperties.
Context {T : Target} {P : TlsfParams} {Pok : ParamsOk P}.

(** C25: [link_free_block] refines insertion in the set of free blocks: from
    lists and bitmaps that represent [F], they represent [F] with the new
    block; only links change and nothing panics. *)
Theorem link_free_block_refines a sz s F :
  FreeIndex (st_tlsf s) (st_mem s) F -> a ∉ F.*1 -> linkable (st_mem s) a sz ->
  wp (link_free_block a sz) s (fun _ s' =>
    FreeIndex (st_tlsf s') (st_mem s') ((a, sz) :: F) /\
    mem_step (link_area ((a, sz) :: F)) (st_mem s) (st_mem s')).
Proof. intros. eapply link_free_block_spec; eauto. Qed.

(** C26: [unlink_free_block] refines deletion: from lists that represent [F] and
    the block [(a, sz)] they represent [F], in whatever position of its list
    the block is, and only the links of blocks that stay change. *)
Theorem unlink_free_block_refines a sz s F :
  FreeIndex (st_tlsf s) (st_mem s) ((a, sz) :: F) ->
  wp (unlink_free_block a sz) s (fun _ s' =>
    FreeIndex (st_tlsf s') (st_mem s') F /\ mem_step (link_area F) (st_mem s) (st_mem s')).
Proof. intros. eapply unlink_free_block_spec; eauto. Qed.

(** C27: The bitmap search returns the first suitable list, where a list is
    suitable when it is non-empty and its smallest size is at least the size
    asked for; so all of its blocks are large enough, and its head is one of
    them.  It returns [None] exactly when there is no suitable list.  The
    search changes nothing. *)
Theorem search_correct min_size s F :
  FreeIndex (st_tlsf s) (st_mem s) F -> valid_size min_size ->
  wp (search_suitable_free_block_list_for_allocation min_size) s (fun r s' =>
    s' = s /\
    match r with
    | Some (fl, sl) =>
        suitable F min_size (fl, sl) /\
        (forall c, suitable F min_size c -> class_le (fl, sl) c) /\
        (forall a sz, (a, sz) ∈ F -> map_floor sz = Ok (Some (fl, sl)) -> min_size <= sz) /\
        exists sz, (ff (st_tlsf s) fl sl, sz) ∈ F /\ map_floor sz = Ok (Some (fl, sl))
    | None => forall c, ~ suitable F min_size c
    end).
Proof.
  intros HF Hsz. pose proof (fun c => suitable_class _ _ _ min_size c HF Hsz) as Hs.
  eapply search_spec; [exact HF|exact Hsz| |].
  - intros Hn. split; [done|]. intros c [Hc Hle]%Hs. by apply (Hn c).
  - intros fl sl sz _ Hin Hmf _ _ Hle Hmin.
    assert (Hfl : suitable F min_size (fl, sl)) by (apply Hs; split; [by exists (ff (st_tlsf s) fl sl), sz|done]).
    split; [done|]. split; [exact Hfl|]. split; [intros c [Hc Hle']%Hs; by apply Hmin|]. split; [|by exists sz].
    intros a sz' Hin' Hmf'. eapply suitable_size; [exact HF|exact Hfl|exact Hin'|exact Hmf'].
Qed.

End FreeIndexProperties.
