(* ===== verification/Pool.v ===== *)
(** * Memory pools as sequences of blocks

    The logical state of the allocator: a list of pools, each a contiguous
    sequence of blocks closed by a sentinel.  [rep] says that the headers in
    memory are those of a sequence of blocks (the size word with its flags,
    [prev_phys_block], and the [UsedBlockPad] of an over-aligned allocation);
    [Inv] is the invariant that links the state of [Tlsf] with the pools:
    well-formed, disjoint and mapped pools, headers that match, no two
    adjacent free blocks, and free lists that hold exactly the free blocks. *)

From S2P Require Import Prelude Usize BinInteger SizeClass Machine Header FreeIndex.

(** A live allocation: the pointer the client holds and the layout it asked for. *)
Record alloc := mkAlloc { a_ptr : Z; a_align : Z; a_size : Z }.

Inductive kind := Free | Used (al : alloc) | Sentinel.

Record block := mkBlock { bsize : Z; bkind : kind }.

#[export] Instance alloc_eq_dec : EqDecision alloc.
Proof. solve_decision. Defined.
#[export] Instance kind_eq_dec : EqDecision kind.
Proof. solve_decision. Defined.
#[export] Instance block_eq_dec : EqDecision block.
Proof. solve_decision. Defined.

Definition is_free (b : block) : bool := match bkind b with Free => true | _ => false end.
Definition is_sentinel (b : block) : bool := match bkind b with Sentinel => true | _ => false end.

Fixpoint total (l : list block) : Z :=
  match l with [] => 0 | b :: l => bsize b + total l end.

(** The free blocks of a sequence that starts at [a]: addresses and sizes. *)
Fixpoint frees (a : Z) (l : list block) : list (Z * Z) :=
  match l with
  | [] => []
  | b :: l => (if is_free b then [(a, bsize b)] else []) ++ frees (a + bsize b) l
  end.

(** The address of the last block, [p] if there is none. *)
Fixpoint last_block (p a : Z) (l : list block) : Z :=
  match l with [] => p | b :: l => last_block a (a + bsize b) l end.

(** No two adjacent free blocks. *)
Fixpoint no_adj (l : list block) : Prop :=
  match l with
  | [] => True
  | b :: l =>
      match l with
      | [] => True
      | b' :: _ => is_free b && is_free b' = false
      end /\ no_adj l
  end.

Record pool := mkPool { p_start : Z; p_body : list block }.

Section Pool.
Context {T : Target} {P : TlsfParams}.

Definition sentinel : block := mkBlock GRANULARITY Sentinel.
Definition p_blocks (p : pool) : list block := p_body p ++ [sentinel].
Definition p_len (p : pool) : Z := total (p_blocks p).
Definition p_end (p : pool) : Z := p_start p + p_len p.

(** The flags of a size word. *)
Definition flags (k : kind) : Z :=
  match k with Free => 0 | Used _ => SIZE_USED | Sentinel => SIZE_USED + SIZE_SENTINEL end.

(** The payload of an allocation inside the block [[a, a+sz)]. *)
Record alloc_ok (a sz : Z) (al : alloc) : Prop := {
  alloc_pow2 : exists k, 0 <= k /\ a_align al = 2 ^ k;
  alloc_aligned : (a_align al | a_ptr al);
  alloc_start : a + 2 * WORD <= a_ptr al;
  alloc_small : a_align al < GRANULARITY -> a_ptr al = a + 2 * WORD;
  alloc_size : 0 <= a_size al;
  alloc_end : a_ptr al + a_size al <= a + sz
}.

Record wf_block (a : Z) (b : block) : Prop := {
  wf_aligned : (GRANULARITY | bsize b);
  wf_pos : 0 < bsize b;
  wf_kind : match bkind b with
            | Free => True
            | Used al => alloc_ok a (bsize b) al
            | Sentinel => bsize b = GRANULARITY
            end
}.

Fixpoint wf_blocks (a : Z) (l : list block) : Prop :=
  match l with [] => True | b :: l => wf_block a b /\ wf_blocks (a + bsize b) l end.

Record wf_pool (p : pool) : Prop := {
  wfp_aligned : (GRANULARITY | p_start p);
  wfp_pos : 0 < p_start p;
  wfp_end : p_end p <= USIZE_MOD;
  wfp_body : p_body p <> [];
  wfp_blocks : wf_blocks (p_start p) (p_body p);
  wfp_interior : Forall (fun b => is_sentinel b = false) (p_body p);
  wfp_no_adj : no_adj (p_body p);
  wfp_max : match MAX_POOL_SIZE with Some mx => p_len p <= mx | None => True end
}.

(** The header of the block [b] at [a], whose predecessor is at [p]. *)
Definition rep_block (m : Mem) (a p : Z) (b : block) : Prop :=
  word_at m a (bsize b + flags (bkind b)) /\
  word_at m (a + WORD) p /\
  match bkind b with
  | Used al => GRANULARITY <= a_align al -> word_at m (a_ptr al - WORD) a
  | _ => True
  end.

Fixpoint rep (m : Mem) (a p : Z) (l : list block) : Prop :=
  match l with [] => True | b :: l => rep_block m a p b /\ rep m (a + bsize b) a l end.

Definition rep_pool (m : Mem) (p : pool) : Prop :=
  rep m (p_start p) 0 (p_blocks p) /\ mapped m (p_start p) (p_len p).

Definition pools_disjoint (p q : pool) : Prop := p_end p <= p_start q \/ p_end q <= p_start p.

Definition wf_pools (Ps : list pool) : Prop :=
  Forall wf_pool Ps /\ ForallOrdPairs pools_disjoint Ps.

Definition pool_frees (p : pool) : list (Z * Z) := frees (p_start p) (p_body p).
Definition all_frees (Ps : list pool) : list (Z * Z) := concat (pool_frees <$> Ps).

Record Inv (s : St) (Ps : list pool) : Prop := {
  inv_wf : wf_pools Ps;
  inv_rep : Forall (rep_pool (st_mem s)) Ps;
  inv_index : FreeIndex (st_tlsf s) (st_mem s) (all_frees Ps)
}.

(** ** Footprints *)

(** The bytes the representation of a block depends on: all of a used block,
    the two header words of the others. *)
Definition foot_block (a : Z) (b : block) (x : Z) : Prop :=
  a <= x < a + match bkind b with Used _ => bsize b | _ => 2 * WORD end.

Fixpoint foot (a : Z) (l : list block) (x : Z) : Prop :=
  match l with [] => False | b :: l => foot_block a b x \/ foot (a + bsize b) l x end.

End Pool.

Arguments sentinel : simpl never.
Arguments flags : simpl never.

(** ** Sequences *)

Section Sequences.
Context {T : Target} {P : TlsfParams} {Pok : ParamsOk P}.

Lemma total_app l1 l2 : total (l1 ++ l2) = total l1 + total l2.
Proof. induction l1 as [|b l1 IH]; simpl; [lia|]. rewrite IH. lia. Qed.

Lemma frees_app a l1 l2 : frees a (l1 ++ l2) = frees a l1 ++ frees (a + total l1) l2.
Proof.
  revert a. induction l1 as [|b l1 IH]; intros a; simpl.
  - f_equal. lia.
  - rewrite IH, app_assoc. do 2 f_equal. lia.
Qed.

Lemma last_block_app p a l1 l2 :
  last_block p a (l1 ++ l2) = last_block (last_block p a l1) (a + total l1) l2.
Proof.
  revert p a. induction l1 as [|b l1 IH]; intros p a; simpl.
  - f_equal. lia.
  - rewrite IH. f_equal. lia.
Qed.

Lemma wf_blocks_app a l1 l2 : wf_blocks a (l1 ++ l2) <-> wf_blocks a l1 /\ wf_blocks (a + total l1) l2.
Proof.
  revert a. induction l1 as [|b l1 IH]; intros a; simpl.
  - rewrite Z.add_0_r. tauto.
  - rewrite IH. replace (a + bsize b + total l1) with (a + (bsize b + total l1)) by lia. tauto.
Qed.

Lemma rep_app m a p l1 l2 :
  rep m a p (l1 ++ l2) <-> rep m a p l1 /\ rep m (a + total l1) (last_block p a l1) l2.
Proof.
  revert a p. induction l1 as [|b l1 IH]; intros a p; simpl.
  - rewrite Z.add_0_r. tauto.
  - rewrite IH. replace (a + bsize b + total l1) with (a + (bsize b + total l1)) by lia. tauto.
Qed.

Lemma foot_app a l1 l2 x : foot a (l1 ++ l2) x <-> foot a l1 x \/ foot (a + total l1) l2 x.
Proof.
  revert a. induction l1 as [|b l1 IH]; intros a; simpl.
  - rewrite Z.add_0_r. tauto.
  - rewrite IH. replace (a + bsize b + total l1) with (a + (bsize b + total l1)) by lia. tauto.
Qed.

Lemma total_nonneg a l : wf_blocks a l -> 0 <= total l.
Proof.
  revert a. induction l as [|b l IH]; intros a; simpl; [lia|].
  intros [[_ ? _] ?%IH]. lia.
Qed.

Lemma last_block_range p a l : wf_blocks a l -> 0 <= p <= a -> 0 <= last_block p a l <= a + total l.
Proof.
  revert p a. induction l as [|b l IH]; intros p a; simpl; [lia|].
  intros [[_ Hp _] Hl] Hpa. specialize (IH a (a + bsize b) Hl). lia.
Qed.

Lemma total_aligned a l : wf_blocks a l -> (GRANULARITY | total l).
Proof.
  revert a. induction l as [|b l IH]; intros a; simpl; [intros; apply Z.divide_0_r|].
  intros [[? _ _] ?%IH]. by apply Z.divide_add_r.
Qed.

Lemma wf_block_ge a b : wf_block a b -> GRANULARITY <= bsize b.
Proof. intros [H1 H2 _]. apply divide_pos_le; [|done|done]. pose proof GRANULARITY_pos. lia. Qed.

Lemma no_adj_app l1 l2 :
  no_adj (l1 ++ l2) <->
  no_adj l1 /\ no_adj l2 /\
  match last l1, head l2 with Some b, Some b' => is_free b && is_free b' = false | _, _ => True end.
Proof.
  induction l1 as [|b l1 IH]; simpl; [tauto|].
  destruct l1 as [|b' l1]; simpl in *.
  - destruct l2 as [|b' l2]; simpl; tauto.
  - tauto.
Qed.

(** A sequence ends inside the pool, so footprints and links do too. *)
Lemma foot_range a l x : wf_blocks a l -> foot a l x -> a <= x < a + total l.
Proof.
  revert a. induction l as [|b l IH]; intros a; simpl; [done|]. intros [Hb Hl] [Hx|Hx].
  - pose proof (wf_block_ge a b Hb). pose proof (total_nonneg _ _ Hl). unfold foot_block in Hx.
    pose proof WORD_pos. rewrite GRANULARITY_WORD in *. destruct (bkind b); lia.
  - apply IH in Hx; [|done]. destruct Hb. lia.
Qed.

Lemma frees_range a l c sz :
  wf_blocks a l -> (c, sz) ∈ frees a l -> a <= c /\ c + sz <= a + total l /\ GRANULARITY <= sz.
Proof.
  revert a. induction l as [|b l IH]; intros a; simpl; [set_solver|]. intros [Hb Hl] Hin.
  pose proof (wf_block_ge a b Hb). pose proof (total_nonneg _ _ Hl). destruct Hb as [_ Hp _].
  apply elem_of_app in Hin as [Hin|Hin].
  - destruct (is_free b); [|set_solver]. apply list_elem_of_singleton in Hin. simplify_eq. lia.
  - apply IH in Hin; [|done]. lia.
Qed.

Lemma link_area_app F G x : link_area (F ++ G) x <-> link_area F x \/ link_area G x.
Proof.
  unfold link_area. split.
  - intros (a & sz & [H|H]%elem_of_app & Hx); [left|right]; by exists a, sz.
  - intros [(a & sz & H & Hx)|(a & sz & H & Hx)]; exists a, sz; (split; [apply elem_of_app; tauto|done]).
Qed.

Lemma link_area_range a l x : wf_blocks a l -> link_area (frees a l) x -> a <= x < a + total l.
Proof.
  intros Hl (c & sz & Hin & Hx). apply frees_range in Hin; [|done].
  pose proof WORD_pos. rewrite GRANULARITY_WORD in *. lia.
Qed.

(** Links are in free blocks, outside every footprint. *)
Lemma foot_links a l x : wf_blocks a l -> foot a l x -> ~ link_area (frees a l) x.
Proof.
  revert a. induction l as [|b l IH]; intros a; simpl; [done|]. intros [Hb Hl] Hf.
  rewrite link_area_app. pose proof (wf_block_ge a b Hb) as Hge. pose proof WORD_pos.
  rewrite GRANULARITY_WORD in Hge. intros [Hk|Hk].
  - destruct Hk as (c & sz & Hin & Hx). destruct (is_free b) eqn:E; [|set_solver].
    apply list_elem_of_singleton in Hin. simplify_eq. destruct Hf as [Hf|Hf].
    + unfold foot_block in Hf. unfold is_free in E. destruct (bkind b); (done || lia).
    + apply foot_range in Hf; [|done]. lia.
  - apply link_area_range in Hk as Hr; [|done]. destruct Hf as [Hf|Hf].
    + unfold foot_block in Hf. destruct (bkind b); lia.
    + by apply (IH (a + bsize b)).
Qed.

Lemma alloc_pad a sz al :
  (GRANULARITY | a) -> alloc_ok a sz al -> GRANULARITY <= a_align al ->
  (GRANULARITY | a_ptr al) /\ a + GRANULARITY <= a_ptr al.
Proof.
  intros Ha [[k [Hk Ek]] Hd Hs _ _ _] Hge. destruct GRANULARITY_pow as [EG HG].
  assert (Hdiv : (GRANULARITY | a_ptr al)).
  { etrans; [|exact Hd]. rewrite Ek, EG in *.
    assert (GRANULARITY_LOG2 <= k).
    { destruct (decide (GRANULARITY_LOG2 <= k)); [done|]. pose proof (pow2_lt k GRANULARITY_LOG2). lia. }
    rewrite (pow2_split k GRANULARITY_LOG2) by lia. apply Z.divide_factor_r. }
  split; [done|]. pose proof GRANULARITY_pos. pose proof WORD_pos. apply divide_gap; [lia|done|done|lia].
Qed.

(** The representation only depends on the footprint. *)
Lemma rep_block_step D m m' a p b :
  mem_step D m m' -> (GRANULARITY | a) -> wf_block a b ->
  (forall x, foot_block a b x -> ~ D x) -> rep_block m a p b -> rep_block m' a p b.
Proof.
  intros Hs Ha Hb HD (H1 & H2 & H3). pose proof (wf_block_ge a b Hb) as Hge. pose proof WORD_pos.
  rewrite GRANULARITY_WORD in Hge. unfold foot_block in HD. split_and!.
  - eapply word_at_step; [done| |done]. intros x Hx. unfold in_word in Hx. apply HD. destruct (bkind b); lia.
  - eapply word_at_step; [done| |done]. intros x Hx. unfold in_word in Hx. apply HD. destruct (bkind b); lia.
  - destruct Hb as [_ _ Hk]. destruct (bkind b) as [|al|]; [done| |done]. intros Hal.
    eapply word_at_step; [done| |by apply H3]. intros x Hx. unfold in_word in Hx. apply HD.
    destruct (alloc_pad a (bsize b) al Ha Hk Hal) as [_ Hp]. rewrite GRANULARITY_WORD in Hp.
    destruct Hk. lia.
Qed.

Lemma rep_step D m m' a p l :
  mem_step D m m' -> (GRANULARITY | a) -> wf_blocks a l ->
  (forall x, foot a l x -> ~ D x) -> rep m a p l -> rep m' a p l.
Proof.
  intros Hs. revert a p. induction l as [|b l IH]; intros a p Ha; simpl; [done|].
  intros [Hb Hl] HD [H1 H2]. split.
  - eapply rep_block_step; [done|done|done| |done]. auto.
  - apply IH; [|done|auto|done]. apply Z.divide_add_r; [done|apply Hb].
Qed.

End Sequences.

(** ** Sets of pools *)

Section Pools.
Context {T : Target} {P : TlsfParams} {Pok : ParamsOk P}.

#[export] Instance pools_disjoint_sym : Symmetric pools_disjoint.
Proof. unfold pools_disjoint. intros p q. tauto. Qed.

Lemma ForallOrdPairs_perm {A} (R : A -> A -> Prop) l l' :
  Symmetric R -> l ≡ₚ l' -> ForallOrdPairs R l -> ForallOrdPairs R l'.
Proof.
  intros HR. induction 1 as [|x l l' Hp IH|x y l|l1 l2 l3 _ IH1 _ IH2]; intros H.
  - done.
  - inversion_clear H. constructor; [by rewrite <- Hp|auto].
  - inversion_clear H as [|? ? H1 H2]. inversion_clear H2 as [|? ? H3 H4].
    apply Forall_cons in H1 as [H0 H1]. constructor; [constructor; [by apply HR|done]|].
    by constructor.
  - auto.
Qed.

Lemma ForallOrdPairs_elem {A} (R : A -> A -> Prop) l x y :
  Symmetric R -> ForallOrdPairs R l -> x ∈ l -> y ∈ l -> x = y \/ R x y.
Proof.
  intros HR. induction 1 as [|z l Hz _ IH]; [set_solver|].
  rewrite Forall_forall in Hz. rewrite !elem_of_cons. intros [->|Hx] [->|Hy]; [by left| | |auto].
  - right. by apply Hz.
  - right. by apply HR, Hz.
Qed.

#[export] Instance wf_pools_perm : Proper ((≡ₚ) ==> iff) wf_pools.
Proof.
  intros Ps Ps' HP. split; intros [H1 H2]; split.
  - by rewrite <- HP.
  - by eapply ForallOrdPairs_perm; [apply _| |].
  - by rewrite HP.
  - by eapply ForallOrdPairs_perm; [apply _|symmetry|].
Qed.

#[export] Instance all_frees_perm : Proper ((≡ₚ) ==> (≡ₚ)) all_frees.
Proof. intros Ps Ps' HP. unfold all_frees. by rewrite HP. Qed.

#[export] Instance Inv_perm s : Proper ((≡ₚ) ==> iff) (Inv s).
Proof.
  intros Ps Ps' HP. split; intros [H1 H2 H3]; split.
  - by rewrite <- HP. - by rewrite <- HP. - by rewrite <- HP.
  - by rewrite HP. - by rewrite HP. - by rewrite HP.
Qed.

Lemma all_frees_cons p Ps : all_frees (p :: Ps) = pool_frees p ++ all_frees Ps.
Proof. done. Qed.

Lemma elem_of_all_frees Ps a sz :
  (a, sz) ∈ all_frees Ps <-> exists p, p ∈ Ps /\ (a, sz) ∈ pool_frees p.
Proof.
  induction Ps as [|q Ps IH].
  - split; [set_solver|]. intros (? & ? & _). set_solver.
  - rewrite all_frees_cons, elem_of_app, IH. setoid_rewrite elem_of_cons. naive_solver.
Qed.

(** The sentinel is not free. *)
Lemma frees_blocks p : frees (p_start p) (p_blocks p) = pool_frees p.
Proof. unfold p_blocks. rewrite frees_app. simpl. by rewrite app_nil_r. Qed.

Lemma wf_p_blocks p : wf_pool p -> wf_blocks (p_start p) (p_blocks p).
Proof.
  intros []. unfold p_blocks. apply wf_blocks_app. split; [done|]. split; [|done].
  pose proof GRANULARITY_pos. split; simpl; [apply Z.divide_refl|lia|done].
Qed.

Lemma p_len_eq p : p_len p = total (p_body p) + GRANULARITY.
Proof. unfold p_len, p_blocks. rewrite total_app. simpl. lia. Qed.

Lemma foot_pool_range p x : wf_pool p -> foot (p_start p) (p_blocks p) x -> p_start p <= x < p_end p.
Proof. intros Hp Hx. apply foot_range in Hx; [done|by apply wf_p_blocks]. Qed.

Lemma pool_links_range p x : wf_pool p -> link_area (pool_frees p) x -> p_start p <= x < p_end p - GRANULARITY.
Proof.
  intros Hp Hx. apply link_area_range in Hx; [|apply Hp]. unfold p_end. rewrite p_len_eq. lia.
Qed.

Lemma foot_not_links Ps p x :
  wf_pools Ps -> p ∈ Ps -> foot (p_start p) (p_blocks p) x -> ~ link_area (all_frees Ps) x.
Proof.
  intros [Hw Hd] Hp Hf (a & sz & Hin & Hx). rewrite Forall_forall in Hw.
  apply elem_of_all_frees in Hin as (q & Hq & Hin).
  destruct (ForallOrdPairs_elem _ _ p q _ Hd Hp Hq) as [<-|Hdis].
  - apply (foot_links (p_start p) (p_blocks p) x (wf_p_blocks p (Hw p Hp)) Hf).
    rewrite frees_blocks. by exists a, sz.
  - apply foot_pool_range in Hf; [|auto].
    assert (link_area (pool_frees q) x) as Hl by by exists a, sz.
    apply pool_links_range in Hl; [|auto]. pose proof GRANULARITY_pos. unfold pools_disjoint in Hdis. lia.
Qed.

(** Changing memory outside the footprints and the links. *)
Lemma rep_pool_step D m m' Ps p :
  wf_pools Ps -> p ∈ Ps -> mem_step D m m' ->
  (forall x, D x -> ~ foot (p_start p) (p_blocks p) x) -> rep_pool m p -> rep_pool m' p.
Proof.
  intros [Hw _] Hp Hs HD [Hr Hm]. rewrite Forall_forall in Hw. specialize (Hw p Hp).
  split; [|by eapply mapped_step].
  eapply rep_step; [done|apply Hw|by apply wf_p_blocks| |done]. intros x Hf Hx. by apply (HD x).
Qed.

(** ** Replacing part of a pool *)

(** What an operation on the blocks [mid] of a pool may change: the blocks
    themselves, the [prev_phys_block] of the next one, and free-list links. *)
Definition step_area (F : list (Z * Z)) (a1 a2 x : Z) : Prop :=
  link_area F x \/ a1 <= x < a2 \/ in_word (a2 + WORD) x.

Lemma rep_replace D m m' a0 p0 a1 a2 l1 mid mid' b2 l2 :
  a0 + total l1 = a1 -> a1 + total mid = a2 ->
  mem_step D m m' -> (GRANULARITY | a0) -> wf_blocks a0 (l1 ++ mid ++ b2 :: l2) ->
  total mid' = total mid ->
  (forall x, D x -> foot a0 l1 x -> False) ->
  (forall x, D x -> foot a2 (b2 :: l2) x -> in_word (a2 + WORD) x) ->
  rep m a0 p0 (l1 ++ mid ++ b2 :: l2) ->
  rep m' a1 (last_block p0 a0 l1) mid' ->
  word_at m' (a2 + WORD) (last_block (last_block p0 a0 l1) a1 mid') ->
  rep m' a0 p0 (l1 ++ mid' ++ b2 :: l2).
Proof.
  intros E1 E2 Hs Ha0 Hw Et HD1 HD2 Hr Hr' Hw'.
  apply wf_blocks_app in Hw as [Hw1 Hw]. apply wf_blocks_app in Hw as [Hwm [Hwb Hw2]].
  rewrite E1, ?E2 in *.
  pose proof (total_aligned _ _ Hw1). pose proof (total_aligned _ _ Hwm).
  assert (Ha1 : (GRANULARITY | a1)) by (rewrite <- E1; by apply Z.divide_add_r).
  assert (Ha2 : (GRANULARITY | a2)) by (rewrite <- E2; by apply Z.divide_add_r).
  apply rep_app in Hr as [Hr1 Hr]. apply rep_app in Hr as [_ Hr]. rewrite E1, E2 in Hr.
  destruct Hr as [(Hb1 & _ & Hb3) Hr2].
  pose proof (wf_block_ge _ _ Hwb) as Hge. pose proof WORD_pos. rewrite GRANULARITY_WORD in Hge.
  apply rep_app. rewrite E1. split; [|apply rep_app; split; [done|]].
  - eapply rep_step; [done|done|done| |done]. eauto.
  - rewrite Et, E2. split.
    + split_and!; [|done|].
      * eapply word_at_step; [done| |done]. intros x Hx HDx. unfold in_word in *.
        assert (in_word (a2 + WORD) x) as Hy; [|unfold in_word in Hy; lia].
        apply HD2; [done|]. left. unfold foot_block. destruct (bkind b2); lia.
      * destruct Hwb as [_ _ Hk]. destruct (bkind b2) as [|al|] eqn:Ek; [done| |done]. intros Hal.
        eapply word_at_step; [done| |by apply Hb3]. intros x Hx HDx.
        destruct (alloc_pad a2 (bsize b2) al Ha2 Hk Hal) as [_ Hp]. destruct Hk.
        rewrite GRANULARITY_WORD in Hp. unfold in_word in Hx.
        assert (in_word (a2 + WORD) x) as Hy; [|unfold in_word in Hy; lia].
        apply HD2; [done|]. left. unfold foot_block. rewrite Ek. lia.
    + eapply rep_step; [done| |done| |done]; [by apply Z.divide_add_r; [|apply Hwb]|].
      intros x Hf HDx. assert (Hy : in_word (a2 + WORD) x) by (apply HD2; [done|by right]).
      apply foot_range in Hf; [|done]. unfold in_word in Hy. lia.
Qed.

End Pools.
