(* ===== verification/Region.v ===== *)
(** * Working on part of a pool

    Every operation of the allocator picks consecutive blocks [mid] of one
    pool, takes the free ones off the lists, rewrites the headers and puts
    the free blocks of the result back.  This file has the two halves of that
    argument: while blocks are only unlinked the pools stay represented
    ([Inv_on], with the set of blocks that are still linked), and once the new
    headers are in place the invariant holds for the pool with [mid] replaced
    ([region_close]).  The bytes an operation may change are bounded once, in
    [step_area], from which the preservation of payloads follows. *)

From S2P Require Import Prelude Usize BinInteger SizeClass Machine Header FreeIndex Pool.

(** The live allocations of a sequence of blocks, and of a set of pools. *)
Fixpoint allocs (l : list block) : list alloc :=
  match l with
  | [] => []
  | b :: l => match bkind b with Used al => [al] | _ => [] end ++ allocs l
  end.

Definition live (Ps : list pool) : list alloc := concat ((fun p => allocs (p_body p)) <$> Ps).

Definition payload (al : alloc) (x : Z) : Prop := a_ptr al <= x < a_ptr al + a_size al.

Section Region.
Context {T : Target} {P : TlsfParams} {Pok : ParamsOk P}.

Definition in_pools (Ps : list pool) (x : Z) : Prop :=
  exists p, p ∈ Ps /\ p_start p <= x < p_end p.

(** The bytes of the pools the allocator writes to: all but the second half
    of the closing sentinels, which [FlexTlsf] uses for its footers. *)
Definition writable (Ps : list pool) (x : Z) : Prop :=
  exists p, p ∈ Ps /\ p_start p <= x < p_end p - 2 * WORD.

(** What a client may rely on: only writable bytes of the pools [Ps] change,
    and none of the payload of an allocation in [keep]. *)
Definition changes (Ps : list pool) (keep : list alloc) (x : Z) : Prop :=
  writable Ps x /\ forall al, al ∈ keep -> ~ payload al x.

Lemma writable_in_pools Ps x : writable Ps x -> in_pools Ps x.
Proof. intros (p & Hp & Hx). exists p. pose proof WORD_pos. split; [done|lia]. Qed.

(** The invariant while the blocks linked are [F] instead of all free ones. *)
Record Inv_on (s : St) (Ps : list pool) (F : list (Z * Z)) : Prop := {
  on_wf : wf_pools Ps;
  on_rep : Forall (rep_pool (st_mem s)) Ps;
  on_index : FreeIndex (st_tlsf s) (st_mem s) F;
  on_sub : F ⊆ all_frees Ps
}.

Lemma Inv_on_all s Ps : Inv s Ps -> Inv_on s Ps (all_frees Ps).
Proof. intros []. by split. Qed.

#[export] Instance Inv_on_perm s Ps : Proper ((≡ₚ) ==> iff) (Inv_on s Ps).
Proof.
  intros F F' HF. split; intros [H1 H2 H3 H4]; split; try done.
  - by rewrite <- HF. - by rewrite <- HF. - by rewrite HF. - by rewrite HF.
Qed.

Lemma link_area_sub F G x : F ⊆ G -> link_area F x -> link_area G x.
Proof. intros HF (a & sz & Hin & Hx). exists a, sz. split; [by apply HF|done]. Qed.

(** Changing links leaves the representation of every pool. *)
Lemma rep_links m m' Ps F :
  wf_pools Ps -> Forall (rep_pool m) Ps -> F ⊆ all_frees Ps ->
  mem_step (link_area F) m m' -> Forall (rep_pool m') Ps.
Proof.
  intros Hw Hr HF Hs. rewrite Forall_forall in *. intros p Hp.
  eapply rep_pool_step; [done|done|done| |by apply Hr].
  intros x Hx Hf. eapply foot_not_links; [done|done|done|]. by eapply link_area_sub.
Qed.

Lemma unlink_on a sz s Ps F (Q : unit -> St -> Prop) :
  Inv_on s Ps ((a, sz) :: F) ->
  (forall s', Inv_on s' Ps F -> mem_step (link_area F) (st_mem s) (st_mem s') -> Q tt s') ->
  wp (unlink_free_block a sz) s Q.
Proof.
  intros [H1 H2 H3 H4] HQ. eapply unlink_free_block_spec; [done|done|].
  intros s' Hi Hs. apply HQ; [|done]. assert (F ⊆ all_frees Ps) by set_solver.
  split; [done| |done|done]. by eapply rep_links.
Qed.

Lemma link_area_cons a sz F x :
  link_area ((a, sz) :: F) x <-> a + 2 * WORD <= x < a + 4 * WORD \/ link_area F x.
Proof.
  change ((a, sz) :: F) with ([(a, sz)] ++ F). rewrite link_area_app. f_equiv. unfold link_area. split.
  - intros (c & sz' & Hin & Hx). apply list_elem_of_singleton in Hin. by simplify_eq.
  - intros Hx. exists a, sz. split; [set_solver|done].
Qed.

(** ** Live allocations *)

Lemma allocs_app l1 l2 : allocs (l1 ++ l2) = allocs l1 ++ allocs l2.
Proof. induction l1 as [|b l1 IH]; simpl; [done|]. by rewrite IH, app_assoc. Qed.

#[export] Instance live_perm : Proper ((≡ₚ) ==> (≡ₚ)) live.
Proof. intros Ps Ps' HP. unfold live. by rewrite HP. Qed.

Lemma live_cons p Ps : live (p :: Ps) = allocs (p_body p) ++ live Ps.
Proof. done. Qed.

Lemma elem_of_live Ps al : al ∈ live Ps <-> exists p, p ∈ Ps /\ al ∈ allocs (p_body p).
Proof.
  induction Ps as [|q Ps IH].
  - split; [set_solver|]. intros (? & ? & _). set_solver.
  - rewrite live_cons, elem_of_app, IH. setoid_rewrite elem_of_cons. naive_solver.
Qed.

(** The payload of an allocation is in the footprint, after the first header. *)
Lemma alloc_foot a l al x :
  wf_blocks a l -> al ∈ allocs l -> payload al x -> foot a l x /\ a + 2 * WORD <= x.
Proof.
  revert a. induction l as [|b l IH]; intros a; simpl; [set_solver|]. intros [Hb Hl] Hin Hx.
  pose proof (wf_block_ge _ _ Hb) as Hge. pose proof WORD_pos. rewrite GRANULARITY_WORD in Hge.
  apply elem_of_app in Hin as [Hin|Hin].
  - destruct Hb as [_ _ Hk]. unfold foot_block. destruct (bkind b) as [|al'|]; [set_solver| |set_solver].
    apply list_elem_of_singleton in Hin as ->. destruct Hk. unfold payload in Hx. lia.
  - destruct (IH _ Hl Hin Hx). split; [by right|lia].
Qed.

Definition extents (Ps : list pool) : list (Z * Z) := (fun p => (p_start p, p_len p)) <$> Ps.

#[export] Instance extents_perm : Proper ((≡ₚ) ==> (≡ₚ)) extents.
Proof. intros Ps Ps' HP. unfold extents. by rewrite HP. Qed.

#[export] Instance in_pools_perm : Proper ((≡ₚ) ==> eq ==> iff) in_pools.
Proof. intros Ps Ps' HP x ? <-. unfold in_pools. by setoid_rewrite HP. Qed.

#[export] Instance writable_perm : Proper ((≡ₚ) ==> eq ==> iff) writable.
Proof. intros Ps Ps' HP x ? <-. unfold writable. by setoid_rewrite HP. Qed.

#[export] Instance changes_perm : Proper ((≡ₚ) ==> (≡ₚ) ==> eq ==> iff) changes.
Proof.
  intros Ps Ps' HP k k' Hk x ? <-. unfold changes. rewrite HP. by setoid_rewrite Hk.
Qed.

(** The outcome of an operation that keeps the pools where they are: the
    invariant again, and no change to what the client holds. *)
Record post (s s' : St) (Ps Ps' : list pool) (keep : list alloc) : Prop := {
  post_inv : Inv s' Ps';
  post_extents : extents Ps' ≡ₚ extents Ps;
  post_mem : mem_step (changes Ps keep) (st_mem s) (st_mem s')
}.

Lemma links_changes Ps F x :
  wf_pools Ps -> F ⊆ all_frees Ps -> link_area F x -> changes Ps (live Ps) x.
Proof.
  intros Hw HF Hx. pose proof Hw as [Hwf _]. rewrite Forall_forall in Hwf. split.
  - destruct Hx as (a & sz & Hin & Hx). apply HF, elem_of_all_frees in Hin as (q & Hq & Hin).
    exists q. split; [done|]. assert (Hl : link_area (pool_frees q) x) by by exists a, sz.
    apply pool_links_range in Hl; [pose proof GRANULARITY_WORD; pose proof WORD_pos; lia|auto].
  - intros al (q & Hq & Ha)%elem_of_live Hp.
    destruct (alloc_foot (p_start q) (p_body q) al x (wfp_blocks _ (Hwf q Hq)) Ha Hp) as [Hf _].
    eapply (foot_not_links Ps q x Hw Hq); [by apply foot_app; left|]. by eapply link_area_sub.
Qed.

Lemma changes_keep Ps keep keep' x : keep' ⊆ keep -> changes Ps keep x -> changes Ps keep' x.
Proof. intros Hk [H1 H2]. split; [done|]. intros al Hal. by apply H2, Hk. Qed.

Lemma post_keep s s' Ps Ps' keep keep' :
  keep' ⊆ keep -> post s s' Ps Ps' keep -> post s s' Ps Ps' keep'.
Proof.
  intros Hk []. split; [done|done|]. eapply mem_step_weaken; [done|]. intros x. by apply changes_keep.
Qed.

(** ** Locating blocks *)

Lemma frees_split a l c sz :
  (c, sz) ∈ frees a l ->
  exists l1 l2, l = l1 ++ [mkBlock sz Free] ++ l2 /\ a + total l1 = c.
Proof.
  revert a. induction l as [|b l IH]; intros a; simpl; [set_solver|].
  intros [Hin|Hin]%elem_of_app.
  - destruct b as [sz' []]; simpl in *; try set_solver. apply list_elem_of_singleton in Hin. simplify_eq.
    exists [], l. simpl. split; [done|lia].
  - apply IH in Hin as (l1 & l2 & -> & <-). exists (b :: l1), l2. simpl. split; [done|lia].
Qed.

Lemma allocs_split l al :
  al ∈ allocs l -> exists l1 sz l2, l = l1 ++ [mkBlock sz (Used al)] ++ l2.
Proof.
  induction l as [|b l IH]; simpl; [set_solver|]. intros [Hin|Hin]%elem_of_app.
  - destruct b as [sz []]; simpl in *; try set_solver. apply list_elem_of_singleton in Hin as ->.
    by exists [], sz, l.
  - apply IH in Hin as (l1 & sz & l2 & ->). by exists (b :: l1), sz, l2.
Qed.

(** ** Size words *)

Definition size_word (b : block) : Z := bsize b + flags (bkind b).

Lemma land_low_0 k b c : 0 <= k -> 0 <= c < 2 ^ k -> (2 ^ k | b) -> Z.land b c = 0.
Proof.
  intros Hk Hc Hb. pose proof (lor_disjoint_add c b k Hk Hc Hb) as E.
  pose proof (Z.add_lor_land c b) as E'. rewrite Z.land_comm. lia.
Qed.

Lemma flags_range k : 0 <= flags k <= 3.
Proof. destruct k; unfold flags, SIZE_USED, SIZE_SENTINEL; lia. Qed.

Lemma size_flags sz k :
  (GRANULARITY | sz) ->
  Z.land (sz + flags k) SIZE_USED = Z.land (flags k) SIZE_USED /\
  Z.land (sz + flags k) SIZE_SENTINEL = Z.land (flags k) SIZE_SENTINEL.
Proof.
  intros Hd. destruct GRANULARITY_pow as [EG HG]. pose proof (flags_range k). pose proof GRANULARITY_pos.
  rewrite EG in Hd. rewrite (Z.add_comm sz), <- (lor_disjoint_add (flags k) sz GRANULARITY_LOG2) by lia || done.
  rewrite !Z.land_lor_distr_l, !(land_low_0 GRANULARITY_LOG2 sz), !Z.lor_0_r
    by (unfold SIZE_USED, SIZE_SENTINEL; lia || done). done.
Qed.

Lemma size_mask sz k :
  (GRANULARITY | sz) -> is_usize (sz + flags k) -> Z.land (sz + flags k) SIZE_SIZE_MASK = sz.
Proof.
  intros Hd Hu. destruct GRANULARITY_pow as [EG HG]. pose proof (flags_range k). pose proof GRANULARITY_pos.
  pose proof GRANULARITY_bits.
  unfold SIZE_SIZE_MASK. rewrite Z.shiftl_mul_pow2, Z.mul_1_l, land_usize_not by (lia || done).
  rewrite <- EG. destruct Hd as [q ->].
  rewrite Z.add_comm, Z.mod_add, Z.mod_small by lia. lia.
Qed.

Lemma free_size_mask sz : (GRANULARITY | sz) -> is_usize sz -> Z.land sz SIZE_SIZE_MASK = sz.
Proof. intros Hd Hu. pose proof (size_mask sz Free Hd). simpl in *. by rewrite !Z.add_0_r in *; auto. Qed.

Lemma size_used sz : (GRANULARITY | sz) -> Z.lor sz SIZE_USED = sz + SIZE_USED.
Proof.
  intros Hd. destruct GRANULARITY_pow as [EG HG]. pose proof GRANULARITY_pos.
  rewrite Z.lor_comm, (lor_disjoint_add _ _ GRANULARITY_LOG2); [lia|lia| |by rewrite <- EG].
  unfold SIZE_USED. lia.
Qed.

Lemma size_not_used sz : (GRANULARITY | sz) -> is_usize (sz + SIZE_USED) ->
  Z.land (sz + SIZE_USED) (usize_not SIZE_USED) = sz.
Proof.
  intros Hd Hu. pose proof USIZE_BITS_u32. change SIZE_USED with (2 ^ 1 - 1) at 2.
  rewrite land_usize_not by (lia || done). change (2 ^ 1) with 2.
  assert (Hev : (2 | sz)).
  { etrans; [|exact Hd]. rewrite GRANULARITY_WORD. exists (2 * WORD). lia. }
  destruct Hev as [q ->]. unfold SIZE_USED in *. rewrite Z.add_comm, Z.mod_add by lia.
  change (1 mod 2) with 1. lia.
Qed.

(** ** The region [mid] of the pool at [st] *)

(** The free blocks outside a region that ends at [a2]. *)
Definition outer (st : Z) (l1 l2 : list block) (Ps : list pool) (a2 : Z) : list (Z * Z) :=
  frees st l1 ++ frees a2 l2 ++ all_frees Ps.

Lemma all_frees_region st l1 mid l2 Ps a1 a2 :
  st + total l1 = a1 -> a1 + total mid = a2 ->
  all_frees (mkPool st (l1 ++ mid ++ l2) :: Ps) ≡ₚ frees a1 mid ++ outer st l1 l2 Ps a2.
Proof.
  intros E1 E2. rewrite all_frees_cons. unfold pool_frees; simpl. unfold outer.
  rewrite !frees_app, E1, E2. solve_Permutation.
Qed.

(** The region [mid] lies at [[a1, a2)] of the pool at [st], after [l1]. *)
Definition region_at (st : Z) (l1 mid : list block) (a1 a2 : Z) : Prop :=
  st + total l1 = a1 /\ a1 + total mid = a2.

Record region_bounds (st : Z) (l1 mid l2 : list block) (a1 a2 : Z) : Prop := {
  rb_st : 0 < st;
  rb_st_aligned : (GRANULARITY | st);
  rb_a1 : st <= a1;
  rb_a1_aligned : (GRANULARITY | a1);
  rb_a2 : a1 <= a2;
  rb_a2_aligned : (GRANULARITY | a2);
  rb_end : a2 + total l2 + GRANULARITY = st + p_len (mkPool st (l1 ++ mid ++ l2));
  rb_l2 : 0 <= total l2;
  rb_usize : a2 + total l2 + GRANULARITY <= USIZE_MOD
}.

(** What may replace it. *)
Record region_new (l1 mid l2 : list block) (a1 : Z) (mid' : list block) : Prop := {
  rn_total : total mid' = total mid;
  rn_wf : wf_blocks a1 mid';
  rn_interior : Forall (fun b => is_sentinel b = false) mid';
  rn_no_adj : no_adj (l1 ++ mid' ++ l2);
  rn_body : mid' <> []
}.

Section View.
Context {st : Z} {l1 mid l2 : list block} {Ps : list pool} {a1 a2 : Z}.

#[local] Abbreviation pool0 := (mkPool st (l1 ++ mid ++ l2)).
#[local] Abbreviation out := (outer st l1 l2 Ps a2).

Context (HR : region_at st l1 mid a1 a2).

Context (HW : wf_pools (pool0 :: Ps)).

Lemma region_wf :
  wf_blocks st l1 /\ wf_blocks a1 mid /\ wf_blocks a2 l2.
Proof.
  destruct HR as [E1 E2]. destruct HW as [[[_ _ _ _ Hw _ _ _] _]%Forall_cons _]; simpl in *.
  apply wf_blocks_app in Hw as [Hw1 Hw]. apply wf_blocks_app in Hw as [Hw2 Hw3].
  by rewrite E1, ?E2 in *.
Qed.

Lemma region_ok : region_bounds st l1 mid l2 a1 a2.
Proof.
  destruct region_wf as (H1 & H2 & H3). destruct HR as [E1 E2].
  destruct HW as [[[Ha Hp He _ _ _ _ _] _]%Forall_cons _]; simpl in *.
  pose proof (total_nonneg _ _ H1). pose proof (total_nonneg _ _ H2). pose proof (total_nonneg _ _ H3).
  pose proof (total_aligned _ _ H1). pose proof (total_aligned _ _ H2).
  assert (El : a2 + total l2 + GRANULARITY = st + p_len pool0).
  { rewrite p_len_eq. simpl. rewrite !total_app. lia. }
  assert ((GRANULARITY | a1)) by (rewrite <- E1; by apply Z.divide_add_r).
  assert ((GRANULARITY | a2)) by (rewrite <- E2; by apply Z.divide_add_r).
  split; try done; try lia. rewrite El. exact He.
Qed.

(** The free blocks outside the region are on one side of it. *)
Lemma outer_range c sz : (c, sz) ∈ out -> GRANULARITY <= sz /\ (c + sz <= a1 \/ a2 <= c).
Proof.
  destruct region_ok as []. destruct region_wf as (H1 & H2 & H3). pose proof GRANULARITY_pos.
  unfold outer. rewrite !elem_of_app. intros [Hx|[Hx|Hx]].
  - apply frees_range in Hx; [|done]. destruct HR as [E1 E2]. lia.
  - apply frees_range in Hx; [|done]. lia.
  - apply elem_of_all_frees in Hx as (q & Hq & Hin).
    destruct HW as [[_ Hq']%Forall_cons Hd]. rewrite Forall_forall in Hq'. specialize (Hq' q Hq).
    inversion_clear Hd as [|? ? Hdis _]. rewrite Forall_forall in Hdis. specialize (Hdis q Hq).
    apply frees_range in Hin; [|apply Hq'].
    unfold pools_disjoint, p_end in Hdis; simpl in Hdis. rewrite (p_len_eq q) in Hdis. lia.
Qed.

(** Their links avoid the region and the next header. *)
Lemma outer_links x : link_area out x -> ~ a1 <= x < a2 + 2 * WORD.
Proof.
  intros (c & sz & Hin & Hx). apply outer_range in Hin. pose proof WORD_pos.
  rewrite GRANULARITY_WORD in Hin. lia.
Qed.

Lemma outer_not_in a : a1 <= a < a2 -> a ∉ out.*1.
Proof.
  intros Ha ([c sz] & -> & Hin)%list_elem_of_fmap. apply outer_range in Hin. simpl in Ha.
  pose proof GRANULARITY_pos. lia.
Qed.

(** Every block cut from the region can be put on the lists. *)
Lemma region_linkable m a sz :
  mapped m st (p_len pool0) ->
  a1 <= a -> a + sz <= a2 -> (GRANULARITY | a) -> (GRANULARITY | sz) -> 0 < sz -> linkable m a sz.
Proof.
  intros Hm H1 H2 Ha Hsz Hp. destruct region_ok as []. pose proof GRANULARITY_pos.
  assert (Hge : GRANULARITY <= sz) by (apply divide_pos_le; [lia|done|done]).
  destruct HW as [[[_ _ _ _ _ _ _ Hmax] _]%Forall_cons _].
  assert (Hv : valid_size sz) by (split; [lia|done]).
  split; [lia|done|lia| |done|].
  - eapply mapped_sub; [done|lia|lia].
  - apply map_floor_pool; [done|]. destruct MAX_POOL_SIZE; [lia|done].
Qed.

(** ** Replacing the region *)

Lemma region_new_wf mid' : region_new l1 mid l2 a1 mid' -> wf_pools (mkPool st (l1 ++ mid' ++ l2) :: Ps).
Proof.
  intros [Ht Hw Hi Hn Hb]. destruct region_wf as (H1 & _ & H3). destruct HR as [E1 E2].
  assert (El : p_len (mkPool st (l1 ++ mid' ++ l2)) = p_len pool0).
  { rewrite !p_len_eq; simpl. rewrite !total_app. lia. }
  destruct HW as [[[Ha Hp He _ _ Hint _ Hmax] HPs]%Forall_cons Hd].
  unfold p_end in *; simpl in *. split.
  - constructor; [|done]. split; simpl; try done.
    + unfold p_end; simpl. by rewrite El.
    + destruct l1, mid'; done.
    + apply wf_blocks_app. split; [done|]. apply wf_blocks_app. rewrite E1, Ht, E2. done.
    + rewrite !Forall_app in *. tauto.
    + by rewrite El.
  - inversion_clear Hd as [|? ? Hdis Hrest]. constructor; [|done].
    eapply Forall_impl; [exact Hdis|]. intros q. unfold pools_disjoint, p_end; simpl. by rewrite El.
Qed.

Lemma outer_sub : out ⊆ all_frees (pool0 :: Ps).
Proof. intros x Hx. destruct HR. rewrite all_frees_region by done. set_solver. Qed.

(** The step area avoids the footprint of the other pools, and meets that of
    the pool in the region and the [prev_phys_block] of the next block only. *)
Lemma step_area_links q x :
  q ∈ pool0 :: Ps -> link_area out x -> foot (p_start q) (p_blocks q) x -> False.
Proof.
  intros Hq Hx Hf. eapply foot_not_links; [exact HW|exact Hq|exact Hf|].
  eapply link_area_sub; [apply outer_sub|done].
Qed.

Lemma step_area_range x : a1 <= x < a2 \/ in_word (a2 + WORD) x -> p_start pool0 <= x < p_end pool0 - 2 * WORD.
Proof.
  destruct region_ok as []. pose proof WORD_pos. pose proof GRANULARITY_WORD.
  unfold p_end, in_word; simpl. lia.
Qed.

Lemma other_pool q x : q ∈ Ps -> p_start pool0 <= x < p_end pool0 -> ~ p_start q <= x < p_end q.
Proof.
  intros Hq. destruct HW as [_ Hd]. inversion_clear Hd as [|? ? Hdis _].
  rewrite Forall_forall in Hdis. specialize (Hdis q Hq). unfold pools_disjoint in Hdis. lia.
Qed.

Lemma step_area_other q x : q ∈ Ps -> step_area out a1 a2 x -> ~ foot (p_start q) (p_blocks q) x.
Proof.
  intros Hq Hx Hf. destruct Hx as [Hx|Hx]; [eapply (step_area_links q); [set_solver|done..]|].
  apply step_area_range in Hx. pose proof WORD_pos. eapply (other_pool q x); [done|lia|].
  apply foot_pool_range in Hf; [done|]. destruct HW as [[_ Hw]%Forall_cons _].
  rewrite Forall_forall in Hw. auto.
Qed.

Lemma step_area_pool x :
  step_area out a1 a2 x -> foot st (p_blocks pool0) x -> a1 <= x < a2 \/ in_word (a2 + WORD) x.
Proof. intros [Hx|Hx] Hf; [|done]. destruct (step_area_links pool0 x); [set_solver|done..]. Qed.

Lemma p_blocks_split : p_blocks pool0 = l1 ++ mid ++ l2 ++ [sentinel].
Proof. unfold p_blocks; simpl. by rewrite <- !app_assoc. Qed.

Lemma region_wf_tail : wf_blocks a2 (l2 ++ [sentinel]).
Proof.
  destruct HW as [[Hw _]%Forall_cons _]. apply wf_p_blocks in Hw. rewrite p_blocks_split in Hw.
  apply wf_blocks_app in Hw as [_ Hw]. apply wf_blocks_app in Hw as [_ Hw].
  destruct HR as [E1 E2]. simpl in Hw. by rewrite E1, E2 in Hw.
Qed.

Lemma region_rep m m' mid' :
  rep_pool m pool0 -> total mid' = total mid ->
  mem_step (step_area out a1 a2) m m' ->
  rep m' a1 (last_block 0 st l1) mid' ->
  word_at m' (a2 + WORD) (last_block (last_block 0 st l1) a1 mid') ->
  rep_pool m' (mkPool st (l1 ++ mid' ++ l2)).
Proof.
  intros [Hr0 Hm0] Ht Hs Hr Hn. pose proof region_wf_tail as Hwt. destruct region_wf as (H1 & _ & _).
  destruct region_ok as []. pose proof WORD_pos. pose proof HR as [E1 E2]. split; simpl.
  2: { eapply mapped_step; [done|]. revert Hm0. rewrite !p_len_eq; simpl. by rewrite !total_app, Ht. }
  pose proof step_area_pool as Hfo. simpl in Hr0.
  assert (Hwb := wf_p_blocks _ (proj1 (proj1 (Forall_cons _ _ _) (proj1 HW)))). simpl in Hwb.
  rewrite p_blocks_split in *. unfold p_blocks; simpl. rewrite <- !app_assoc.
  destruct (l2 ++ [sentinel]) as [|b2 l2'] eqn:E; [by destruct l2|].
  eapply rep_replace; try done; intros x Hx Hf; apply foot_range in Hf as Hfr; try done.
  - destruct (Hfo x Hx) as [?|Hw]; [by apply foot_app; left|lia|]. unfold in_word in Hw. lia.
  - destruct (Hfo x Hx) as [?|?]; [|lia|done]. rewrite !foot_app, E1, E2. tauto.
Qed.

Lemma region_close s m' h' mid' :
  Forall (rep_pool (st_mem s)) (pool0 :: Ps) ->
  region_new l1 mid l2 a1 mid' ->
  mem_step (step_area out a1 a2) (st_mem s) m' ->
  rep m' a1 (last_block 0 st l1) mid' ->
  word_at m' (a2 + WORD) (last_block (last_block 0 st l1) a1 mid') ->
  FreeIndex h' m' (frees a1 mid' ++ out) ->
  Inv (mkSt h' m') (mkPool st (l1 ++ mid' ++ l2) :: Ps).
Proof.
  intros [Hr0 Hrep]%Forall_cons Hnew Hs Hr Hn Hi. destruct HR as [E1 E2].
  split; simpl; [by apply region_new_wf| |].
  - constructor; [eapply region_rep; [done|apply Hnew|done..]|]. rewrite Forall_forall in *.
    intros q Hq. eapply (rep_pool_step _ _ _ _ q HW); [set_solver|done| |auto].
    intros x Hx. by apply step_area_other.
  - rewrite all_frees_region; [done|done|]. by rewrite (rn_total _ _ _ _ _ Hnew).
Qed.

(** ** What the client sees *)

Lemma step_area_changes x :
  step_area out a1 a2 x -> changes (pool0 :: Ps) (allocs l1 ++ allocs l2 ++ live Ps) x.
Proof.
  intros Hx. pose proof WORD_pos. destruct region_wf as (H1 & _ & H3).
  destruct HW as [[Hw0 Hw]%Forall_cons _]. rewrite Forall_forall in Hw. split.
  - destruct Hx as [(a & sz & Hin & Hx)|Hx].
    + apply outer_sub, elem_of_all_frees in Hin as (q & Hq & Hin). exists q. split; [done|].
      assert (Hl : link_area (pool_frees q) x) by by exists a, sz.
      apply pool_links_range in Hl; [pose proof GRANULARITY_WORD; lia|].
      apply elem_of_cons in Hq as [->|?]; auto.
    + exists pool0. split; [set_solver|]. by apply step_area_range.
  - intros al. rewrite !elem_of_app. intros [Ha|[Ha|Ha]] Hp.
    + destruct (alloc_foot st l1 al x H1 Ha Hp) as [Hf _].
      apply foot_range in Hf as Hr; [|done]. destruct region_ok as []. destruct HR as [E1 E2].
      destruct (step_area_pool x Hx) as [?|Hi]; [rewrite p_blocks_split; by apply foot_app; left|lia|].
      unfold in_word in Hi. lia.
    + destruct (alloc_foot a2 l2 al x H3 Ha Hp) as [Hf Hge].
      destruct (step_area_pool x Hx) as [?|Hi]; [|lia|unfold in_word in Hi; lia].
      rewrite p_blocks_split, !foot_app. destruct HR as [E1 E2]. rewrite E1, E2. tauto.
    + apply elem_of_live in Ha as (q & Hq & Ha).
      destruct (alloc_foot (p_start q) (p_body q) al x (wfp_blocks _ (Hw q Hq)) Ha Hp) as [Hf _].
      eapply step_area_other; [done|done|]. by apply foot_app; left.
Qed.

Lemma region_post s0 s F m' h' mid' :
  Forall (rep_pool (st_mem s)) (pool0 :: Ps) ->
  F ⊆ all_frees (pool0 :: Ps) -> mem_step (link_area F) (st_mem s0) (st_mem s) ->
  region_new l1 mid l2 a1 mid' ->
  mem_step (step_area out a1 a2) (st_mem s) m' ->
  rep m' a1 (last_block 0 st l1) mid' ->
  word_at m' (a2 + WORD) (last_block (last_block 0 st l1) a1 mid') ->
  FreeIndex h' m' (frees a1 mid' ++ out) ->
  post s0 (mkSt h' m') (pool0 :: Ps) (mkPool st (l1 ++ mid' ++ l2) :: Ps)
    (allocs l1 ++ allocs l2 ++ live Ps).
Proof.
  intros Hrep HF Hs0 Hnew Hs Hr Hn Hi. split; simpl.
  - by eapply region_close.
  - unfold extents. simpl. do 2 f_equiv. rewrite !p_len_eq; simpl.
    rewrite !total_app, (rn_total _ _ _ _ _ Hnew). done.
  - eapply mem_step_trans.
    + eapply mem_step_weaken; [exact Hs0|]. intros x Hx.
      eapply changes_keep; [|by eapply links_changes]. rewrite live_cons; simpl. rewrite !allocs_app. set_solver.
    + eapply mem_step_weaken; [exact Hs|]. apply step_area_changes.
Qed.

(** Reading the headers of the region and the one after it. *)
Lemma region_rep_mid m : rep_pool m pool0 -> rep m a1 (last_block 0 st l1) mid.
Proof.
  intros [Hr _]. simpl in Hr. rewrite p_blocks_split in Hr. apply rep_app in Hr as [_ Hr].
  apply rep_app in Hr as [Hr _]. destruct HR as [E1 E2]. by rewrite E1 in Hr.
Qed.

Lemma region_next m :
  rep_pool m pool0 ->
  exists b l, l2 ++ [sentinel] = b :: l /\ wf_block a2 b /\
    rep_block m a2 (last_block (last_block 0 st l1) a1 mid) b /\ rep m (a2 + bsize b) a2 l.
Proof.
  intros [Hr _]. simpl in Hr. rewrite p_blocks_split in Hr. apply rep_app in Hr as [_ Hr].
  apply rep_app in Hr as [_ Hr]. destruct HR as [E1 E2]. rewrite E1, E2 in Hr.
  pose proof region_wf_tail as Hw. destruct (l2 ++ [sentinel]) as [|b l] eqn:E; [by destruct l2|].
  exists b, l. split_and!; [done|apply Hw|apply Hr|apply Hr].
Qed.

(** The block before the region, if any. *)
Lemma region_prev m :
  rep_pool m pool0 ->
  (l1 = [] /\ last_block 0 st l1 = 0) \/
  (exists l b, l1 = l ++ [b] /\ last_block 0 st l1 = a1 - bsize b /\ st <= a1 - bsize b /\
     (GRANULARITY | a1 - bsize b) /\ wf_block (a1 - bsize b) b /\
     word_at m (a1 - bsize b) (bsize b + flags (bkind b))).
Proof.
  intros [Hr _]. destruct region_wf as (Hw & _ & _). destruct region_ok as []. destruct HR as [E1 E2].
  cbn [p_start] in Hr. rewrite p_blocks_split in Hr. apply rep_app in Hr as [Hr _]. clear HR HW.
  destruct l1 as [|b l _] using rev_ind; [by left|right]. exists l, b.
  rewrite last_block_app, total_app in *. cbn [last_block total] in *.
  apply wf_blocks_app in Hw as [Hw [Hb _]]. apply rep_app in Hr as [_ [[Hr _] _]].
  pose proof (total_nonneg _ _ Hw). pose proof (total_aligned _ _ Hw).
  replace (a1 - bsize b) with (st + total l) by lia.
  split_and!; try done; [lia|by apply Z.divide_add_r].
Qed.

Lemma region_mapped m a n :
  rep_pool m pool0 -> st <= a -> a + n <= a2 + GRANULARITY -> mapped m a n.
Proof.
  intros [_ Hm] H1 H2. destruct region_ok as []. eapply mapped_sub; [exact Hm|done|]. simpl. lia.
Qed.

End View.

Lemma find_free Ps a sz :
  (a, sz) ∈ all_frees Ps ->
  exists st l1 l2 Ps0, Ps ≡ₚ mkPool st (l1 ++ [mkBlock sz Free] ++ l2) :: Ps0 /\
    region_at st l1 [mkBlock sz Free] a (a + sz).
Proof.
  intros ([st l] & Hp & Hin)%elem_of_all_frees. apply frees_split in Hin as (l1 & l2 & E & Ea).
  apply elem_of_Permutation_cons in Hp as [Ps0 HP]. simpl in *. subst l.
  exists st, l1, l2, Ps0. split; [done|]. split; simpl; lia.
Qed.

Lemma find_used Ps al :
  al ∈ live Ps ->
  exists st l1 sz l2 Ps0 a, Ps ≡ₚ mkPool st (l1 ++ [mkBlock sz (Used al)] ++ l2) :: Ps0 /\
    region_at st l1 [mkBlock sz (Used al)] a (a + sz).
Proof.
  intros ([st l] & Hp & Hin)%elem_of_live. apply allocs_split in Hin as (l1 & sz & l2 & E).
  apply elem_of_Permutation_cons in Hp as [Ps0 HP]. simpl in *. subst l.
  exists st, l1, sz, l2, Ps0, (st + total l1). split; [done|]. split; simpl; lia.
Qed.

(** The pools cover the same bytes. *)
Lemma writable_extents Ps Ps' x : extents Ps' ≡ₚ extents Ps -> writable Ps x -> writable Ps' x.
Proof.
  intros HE (p & Hp & Hx). assert (Hin : (p_start p, p_len p) ∈ extents Ps').
  { rewrite HE. apply list_elem_of_fmap. by exists p. }
  apply list_elem_of_fmap in Hin as (q & Eq & Hq). injection Eq as Es El. exists q. split; [done|].
  unfold p_end in *. by rewrite <- Es, <- El.
Qed.

(** A free block has no payload in it. *)
Lemma free_changes Ps a sz x :
  wf_pools Ps -> (a, sz) ∈ all_frees Ps -> a <= x < a + sz -> changes Ps (live Ps) x.
Proof.
  intros HW Hin Hx. destruct (find_free Ps a sz Hin) as (st & l1 & l2 & Ps0 & HP & HR).
  rewrite HP in HW. eapply changes_perm; [exact HP|rewrite HP; reflexivity|reflexivity|].
  eapply changes_keep; [|eapply (step_area_changes HR HW); right; by left].
  rewrite live_cons; simpl. rewrite allocs_app. simpl. set_solver.
Qed.

(** Writing to the payload of a live allocation, as clients do. *)
Lemma payload_write s Ps al m' :
  Inv s Ps -> al ∈ live Ps -> mem_step (payload al) (st_mem s) m' -> Inv (mkSt (st_tlsf s) m') Ps.
Proof.
  intros HI Hin Hs. destruct (find_used Ps al Hin) as (st & l1 & sz & l2 & Ps0 & a & HP & HR).
  rewrite HP in *. pose proof HI as [HW Hrep Hi]. pose proof Hrep as [Hrp _]%Forall_cons.
  pose proof (region_ok HR HW) as []. destruct (region_wf HR HW) as (_ & [Hb _] & _).
  pose proof Hb as [Hd Hp Hal]. cbn [bsize bkind] in *. pose proof Hal as [_ _ Hst _ _ He]. pose proof WORD_pos.
  destruct (region_rep_mid HR _ Hrp) as [(R1 & R2 & R3) _].
  destruct (region_next HR HW _ Hrp) as (b & l & _ & _ & (_ & R4 & _) & _). cbn [bkind bsize] in *.
  assert (Hkeep : forall c w, c + WORD <= a_ptr al \/ a + sz <= c -> word_at (st_mem s) c w -> word_at m' c w).
  { intros c w Hc. eapply word_at_step; [exact Hs|]. intros x Hx Hpx. unfold in_word, payload in *. lia. }
  eapply (region_close HR HW s m' _ [mkBlock sz (Used al)]); [done| | | | |].
  - split; try done; [by repeat constructor|]. destruct HW as [[[] _]%Forall_cons _]. done.
  - eapply mem_step_weaken; [exact Hs|]. intros x Hx. right. left. unfold payload in Hx. lia.
  - split; [|done]. split_and!; cbn [bkind bsize]; [apply Hkeep; [lia|done]|apply Hkeep; [lia|done]|].
    intros Hal'. apply Hkeep; [lia|auto].
  - apply Hkeep; [lia|exact R4].
  - rewrite <- all_frees_region by apply HR. eapply FreeIndex_step; [exact Hs| |exact Hi].
    intros x Hx Hpx. destruct HR as [E1 E2]. destruct Hx as (c & n & Hc & Hx).
    rewrite (all_frees_region st l1 _ l2 Ps0 a (a + sz)) in Hc by done. simpl in Hc.
    eapply (outer_links (conj E1 E2) HW x); [by exists c, n|unfold payload in Hpx; lia].
Qed.

(** The order of the pools does not matter. *)
Lemma post_perm s s' Ps Ps' Qs Qs' keep :
  Ps ≡ₚ Qs -> Ps' ≡ₚ Qs' -> post s s' Qs Qs' keep -> post s s' Ps Ps' keep.
Proof.
  intros HP HP' [H1 H2 H3]. split.
  - by rewrite HP'.
  - by rewrite HP', HP.
  - eapply mem_step_weaken; [exact H3|]. intros x Hx. by rewrite HP.
Qed.

(** Unlinking the head of a list, as [allocate] does. *)
Lemma unlink_first_on fl sl a sz s Ps F (Q : unit -> St -> Prop) :
  Inv_on s Ps ((a, sz) :: F) -> valid_class (fl, sl) -> ff (st_tlsf s) fl sl = a -> a <> 0 ->
  (forall s', Inv_on s' Ps F -> mem_step (link_area F) (st_mem s) (st_mem s') -> Q tt s') ->
  wp (unlink_first_free fl sl a) s Q.
Proof.
  intros [H1 H2 H3 H4] Hc Ha Hnz HQ. eapply unlink_first_free_spec; [done|done|done|done|].
  intros sz' F' s' HF _ Hi Hs.
  assert (F ≡ₚ F') as HFF.
  { destruct H3 as (L & _ & [Hnd _ _ _ _]). simpl in Hnd. apply NoDup_cons in Hnd as [Hnin _].
    assert (Hin : (a, sz') ∈ (a, sz) :: F) by (rewrite HF; set_solver).
    apply elem_of_cons in Hin as [E|Hin].
    - injection E as ->. by apply Permutation.Permutation_cons_inv in HF.
    - destruct Hnin. apply list_elem_of_fmap. by exists (a, sz'). }
  rewrite <- HFF in Hi. assert (F ⊆ all_frees Ps) by set_solver.
  assert (Hs' : mem_step (link_area F) (st_mem s) (st_mem s')).
  { eapply mem_step_weaken; [exact Hs|]. intros x. apply link_area_sub. by rewrite HFF. }
  apply HQ; [|done]. split; [done| |done|done]. by eapply rep_links.
Qed.

Lemma flags_Free : flags Free = 0.
Proof. done. Qed.

(** [next_phys_block] of a block of a pool. *)
Lemma wp_next_phys_block ty p b s (Q : Z -> St -> Prop) :
  0 < p -> (GRANULARITY | p) -> wf_block p b -> is_sentinel b = false ->
  word_at (st_mem s) p (bsize b + flags (bkind b)) -> p + bsize b + GRANULARITY <= USIZE_MOD ->
  Q (p + bsize b) s -> wp (next_phys_block ty p) s Q.
Proof.
  intros Hp Hd [Hb1 Hb2 _] Hns Hw Hu HQ. pose proof GRANULARITY_pos.
  unfold next_phys_block. apply wp_bind. eapply wp_get_size; [done|done|exact Hw|].
  apply wp_bind, wp_check.
  - rewrite (proj2 (size_flags _ _ Hb1)). unfold is_sentinel in Hns. by destruct (bkind b).
  - pose proof (flags_range (bkind b)). rewrite size_mask by (unfold is_usize; lia || done).
    eapply wp_lift; [apply uadd_ok; lia|done].
Qed.

Lemma FreeIndex_shape h m F : FreeIndex h m F -> shape h.
Proof. by intros (L & [] & _). Qed.

(** The block after a free one is not free. *)
Lemma next_not_free l1 sz l2 b l :
  no_adj (l1 ++ [mkBlock sz Free] ++ l2) -> l2 ++ [sentinel] = b :: l -> is_free b = false.
Proof.
  intros (_ & Hn & _)%no_adj_app E. destruct l2 as [|b' l2']; simpl in *; simplify_eq; [done|].
  by destruct Hn as [Hn _].
Qed.

Lemma prev_not_free l1 sz l2 b :
  no_adj (l1 ++ [mkBlock sz Free] ++ l2) -> last l1 = Some b -> is_free b = false.
Proof. intros (_ & _ & Hn)%no_adj_app E. rewrite E in Hn. simpl in Hn. by destruct (is_free b). Qed.

End Region.

(** ** Automation for sequences of writes *)

(** Closes [False] from an address in two areas: words and intervals by
    arithmetic, link areas by the facts of the context on where links are. *)
Ltac avoid :=
  unfold step_area, in_word in *; cbv beta in *;
  repeat match goal with
  | H : _ \/ _ |- _ => destruct H
  | Ho : forall x, link_area ?F x -> _, H : link_area ?F _ |- _ => apply Ho in H
  end; lia.

(** Carries the words known in [m] over the step [Hs] from [m]. *)
Ltac step_words Hs :=
  cbn [st_mem st_tlsf with_mem with_tlsf] in *;
  match type of Hs with
  | mem_step ?D ?m ?m' =>
      repeat match goal with
      | H : word_at m ?a ?w |- _ =>
          first
            [ let H' := fresh "Hw" in
              assert (word_at m' a w) as H' by
                (apply (word_at_step D m m' a w Hs); [intros ? ? ?; avoid|exact H]);
              clear H
            | revert H ]
      end; intros
  end.

(** Shows that the addresses of one area are in another one. *)
Ltac in_area :=
  intros ? ?; unfold step_area, in_word in *; cbv beta in *; rewrite ?link_area_cons in *;
  repeat match goal with H : _ \/ _ |- _ => destruct H end;
  first [assumption | left; assumption | right; assumption | right; lia | lia].

(** Chains the memory steps of the context up to the goal's area. *)
Ltac chain_steps :=
  repeat match goal with
  | |- mem_step _ ?m ?m => apply mem_step_refl
  | H : mem_step _ ?m _ |- mem_step _ ?m _ =>
      eapply mem_step_trans; [eapply mem_step_weaken; [exact H|in_area]|]
  end.
