(* ===== verification/Alloc.v ===== *)
(** * tlsf.rs: allocation

    [pool_size_to_contain_allocation] and [allocate].  Allocation takes the
    head of a list whose blocks are all large enough, cuts the used block off
    its front and puts the rest back. *)

From S2P Require Import Prelude Usize BinInteger SizeClass Machine Header FreeIndex Pool Region.

(** [core::alloc::Layout]: the alignment is a power of two. *)
Record Layout := mkLayout { l_size : Z; l_align : Z }.

Section AllocOps.
Context {T : Target} {P : TlsfParams}.

Definition layout_ok (l : Layout) : Prop :=
  is_usize (l_size l) /\ exists k, 0 <= k < USIZE_BITS /\ l_align l = 2 ^ k.

(** The extra bytes consumed by the header and padding. *)
Definition max_overhead_of (align : Z) : Res Z :=
  uadd (saturating_sub align (GRANULARITY / 2)) size_of_UsedBlockHdr.

Definition pool_size_to_contain_allocation (layout : Layout) : Res (option Z) :=
  max_overhead ← max_overhead_of (l_align layout);
  let? search_size := checked_add (l_size layout) max_overhead in
  let? search_size := checked_add search_size (GRANULARITY - 1) in
  o ← map_ceil_and_unmap (Z.land search_size (usize_not (GRANULARITY - 1)));
  let? list_min_size := o in
  mret (checked_add list_min_size GRANULARITY).

(** The tail [block + new_size .. block + size] of the free block becomes a
    new free block. *)
Definition allocate_split (block next_phys_block size new_size : Z) : M St unit :=
  if new_size =? size then mret tt
  else
    new_free_block ← lift (uadd block new_size);
    new_free_block_size ← lift (usub size new_size);
    next_size ← get_size BlockHdr next_phys_block;
    lift (check (negb (Z.land next_size SIZE_USED =? 0)));;
    set_prev_phys_block BlockHdr next_phys_block new_free_block;;
    set_common FreeBlockHdr new_free_block new_free_block_size block;;
    link_free_block new_free_block new_free_block_size.

(** The payload address: the first aligned one after the header. *)
Definition payload_ptr (align block : Z) : Res Z :=
  unaligned_ptr ← uadd block size_of_UsedBlockHdr;
  let ptr := Z.land (wrapping_add unaligned_ptr (align - 1)) (usize_not (align - 1)) in
  check (negb (ptr =? 0));;
  (if align <? GRANULARITY then check (unaligned_ptr =? ptr) else check (negb (unaligned_ptr =? ptr)));;
  mret ptr.

(** [(new_size + GRANULARITY - 1) & !(GRANULARITY - 1)]. *)
Definition round_up_size (new_size : Z) : Res Z :=
  x ← uadd new_size GRANULARITY;
  x ← usub x 1;
  mret (Z.land x (usize_not (GRANULARITY - 1))).

(** Place the allocation in the unlinked block. *)
Definition allocate_place (layout : Layout) (max_overhead search_size block next_phys_block size : Z)
    : M St (option Z) :=
  ptr ← lift (payload_ptr (l_align layout) block);
  overhead ← lift (usub ptr block);
  lift (check (overhead <=? max_overhead));;
  new_size ← lift (uadd overhead (l_size layout));
  new_size ← lift (round_up_size new_size);
  lift (check (new_size <=? search_size));;
  allocate_split block next_phys_block size new_size;;
  set_size UsedBlockHdr block (Z.lor new_size SIZE_USED);;
  (if GRANULARITY <=? l_align layout then set_block_hdr (get_for_allocation ptr) block else mret tt);;
  mret (Some ptr).

(** Take the first block of the list [(fl, sl)]. *)
Definition allocate_block (layout : Layout) (max_overhead search_size fl sl : Z) : M St (option Z) :=
  block ← get_first_free fl sl;
  lift (check (negb (block =? 0)));;
  next_phys_block ← next_phys_block FreeBlockHdr block;
  size_and_flags ← get_size FreeBlockHdr block;
  let size := size_and_flags in
  lift (check (size =? Z.land size_and_flags SIZE_SIZE_MASK));;
  lift (check (search_size <=? size));;
  unlink_first_free fl sl block;;
  allocate_place layout max_overhead search_size block next_phys_block size.

Definition allocate (layout : Layout) : M St (option Z) :=
  max_overhead ← lift (max_overhead_of (l_align layout));
  let? search_size := checked_add (l_size layout) max_overhead in
  let? search_size := checked_add search_size (GRANULARITY - 1) in
  let search_size := Z.land search_size (usize_not (GRANULARITY - 1)) in
  c ← search_suitable_free_block_list_for_allocation search_size;
  let? c := c in
  allocate_block layout max_overhead search_size c.1 c.2.

End AllocOps.

(** ** Arithmetic of the layout *)

Section Layout.
Context {T : Target} {P : TlsfParams} {Pok : ParamsOk P}.

(** The size searched for: header, worst-case padding and payload. *)
Definition overhead_max (align : Z) : Z := Z.max 0 (align - 2 * WORD) + 2 * WORD.
Definition search_size_of (l : Layout) : Z := round_up GRANULARITY (l_size l + overhead_max (l_align l)).

Lemma layout_align_bounds l : layout_ok l -> 1 <= l_align l /\ 2 * l_align l <= USIZE_MOD.
Proof.
  intros [_ (k & Hk & ->)]. split; [pose proof (pow2_pos k); lia|].
  rewrite <- pow2_succ by lia. apply pow2_le. lia.
Qed.

Lemma max_overhead_ok l : layout_ok l -> max_overhead_of (l_align l) = Ok (overhead_max (l_align l)).
Proof.
  intros Hl%layout_align_bounds. unfold max_overhead_of, overhead_max, saturating_sub, size_of_UsedBlockHdr.
  rewrite GRANULARITY_half. apply uadd_ok. pose proof WORD_pos. pose proof USIZE_MOD_large. lia.
Qed.

Lemma overhead_max_bounds l : layout_ok l -> 2 * WORD <= overhead_max (l_align l) /\ l_align l <= overhead_max (l_align l).
Proof. intros Hl%layout_align_bounds. unfold overhead_max. lia. Qed.

Lemma granule_mask x :
  is_usize (x + (GRANULARITY - 1)) -> 0 <= x ->
  Z.land (x + (GRANULARITY - 1)) (usize_not (GRANULARITY - 1)) = round_up GRANULARITY x.
Proof.
  intros Hu Hx. destruct GRANULARITY_pow as [EG HG]. pose proof GRANULARITY_bits.
  unfold is_usize in Hu. rewrite EG in *. replace (x + (2 ^ GRANULARITY_LOG2 - 1)) with (x + 2 ^ GRANULARITY_LOG2 - 1) in * by lia.
  apply land_round_up; lia.
Qed.

Lemma round_up_size_ok x :
  0 <= x -> x + GRANULARITY < USIZE_MOD -> round_up_size x = Ok (round_up GRANULARITY x).
Proof.
  intros Hx Hb. pose proof GRANULARITY_pos. unfold round_up_size.
  rewrite uadd_ok by lia. simpl. rewrite usub_ok by lia. simpl. unfold mret, Res_ret. f_equal.
  rewrite <- granule_mask; [f_equal; lia| |lia]. unfold is_usize. lia.
Qed.

Lemma align_mask l x :
  layout_ok l -> 0 <= x -> x + l_align l - 1 < USIZE_MOD ->
  Z.land (wrapping_add x (l_align l - 1)) (usize_not (l_align l - 1)) = round_up (l_align l) x.
Proof.
  intros Hl Hx Hb. pose proof (layout_align_bounds l Hl). destruct Hl as [_ (k & Hk & E)].
  rewrite wrapping_add_small by (unfold is_usize; lia). rewrite E in *.
  replace (x + (2 ^ k - 1)) with (x + 2 ^ k - 1) by lia. apply land_round_up; lia.
Qed.

Lemma pow2_divide_le k n : 0 <= k -> 0 <= n -> 2 ^ k <= 2 ^ n -> (2 ^ k | 2 ^ n).
Proof.
  intros Hk Hn Hle. destruct (decide (k <= n)) as [H|H].
  - rewrite (pow2_split n k) by lia. apply Z.divide_factor_r.
  - pose proof (pow2_lt n k). lia.
Qed.

(** Alignments below the granule divide half of it, the others are multiples. *)
Lemma small_align l : layout_ok l -> l_align l < GRANULARITY -> (l_align l | 2 * WORD).
Proof.
  intros [_ (k & Hk & ->)] Hlt. destruct GRANULARITY_pow as [EG HG].
  assert (E : 2 * WORD = 2 ^ (GRANULARITY_LOG2 - 1)).
  { rewrite GRANULARITY_WORD in EG. rewrite (pow2_split _ 1) in EG by lia. lia. }
  rewrite E. apply pow2_divide_le; [lia|lia|]. apply pow2_le.
  rewrite EG in Hlt. destruct (decide (k < GRANULARITY_LOG2)); [lia|].
  pose proof (pow2_le GRANULARITY_LOG2 k). lia.
Qed.

Lemma large_align l : layout_ok l -> GRANULARITY <= l_align l -> (GRANULARITY | l_align l).
Proof.
  intros [_ (k & Hk & ->)] Hle. destruct GRANULARITY_pow as [EG HG]. rewrite EG in *.
  apply pow2_divide_le; lia.
Qed.

Record payload_at (l : Layout) (a ptr : Z) : Prop := {
  pa_start : a + 2 * WORD <= ptr;
  pa_overhead : ptr - a <= overhead_max (l_align l);
  pa_aligned : (l_align l | ptr);
  pa_small : l_align l < GRANULARITY -> ptr = a + 2 * WORD;
  pa_large : GRANULARITY <= l_align l -> (GRANULARITY | ptr)
}.

Lemma payload_at_round l a :
  layout_ok l -> (GRANULARITY | a) -> payload_at l a (round_up (l_align l) (a + 2 * WORD)).
Proof.
  intros Hl Ha. pose proof (layout_align_bounds l Hl). pose proof WORD_pos.
  assert (Hal : 0 < l_align l) by lia. pose proof (round_up_spec (l_align l) (a + 2 * WORD) Hal) as [Hr Hd].
  destruct (Z.lt_ge_cases (l_align l) GRANULARITY) as [Hlt|Hge].
  - pose proof (small_align l Hl Hlt) as Hs.
    assert (E : round_up (l_align l) (a + 2 * WORD) = a + 2 * WORD).
    { apply round_up_id; [lia|]. apply Z.divide_add_r; [|done]. etrans; [exact Hs|]. etrans; [|exact Ha].
      rewrite GRANULARITY_WORD. exists 2. lia. }
    rewrite E in *. split; unfold overhead_max; (done || lia).
  - pose proof (large_align l Hl Hge) as Hg.
    assert (Hp : (GRANULARITY | round_up (l_align l) (a + 2 * WORD))) by (etrans; [exact Hg|done]).
    split; unfold overhead_max; try done; try lia.
    assert (round_up (l_align l) (a + 2 * WORD) <= a + l_align l); [|lia].
    destruct (Z.le_gt_cases (round_up (l_align l) (a + 2 * WORD)) (a + l_align l)) as [|Hgt]; [done|].
    assert (a + l_align l + GRANULARITY <= round_up (l_align l) (a + 2 * WORD)).
    { apply divide_gap; [pose proof GRANULARITY_pos; lia|by apply Z.divide_add_r|done|done]. }
    rewrite GRANULARITY_WORD in *. lia.
Qed.

Lemma payload_ptr_ok l a :
  layout_ok l -> 0 < a -> (GRANULARITY | a) ->
  a + overhead_max (l_align l) + GRANULARITY <= USIZE_MOD ->
  exists ptr, payload_ptr (l_align l) a = Ok ptr /\ payload_at l a ptr.
Proof.
  intros Hl Ha Hd Hb. exists (round_up (l_align l) (a + 2 * WORD)).
  pose proof (payload_at_round l a Hl Hd) as Hp. split; [|done].
  pose proof (layout_align_bounds l Hl). pose proof (overhead_max_bounds l Hl). pose proof WORD_pos.
  unfold payload_ptr, size_of_UsedBlockHdr. rewrite GRANULARITY_WORD in Hb. rewrite uadd_ok by lia.
  cbn [mbind Res_bind]. rewrite align_mask by (done || lia). destruct Hp as [Hps _ _ Hsm Hlg].
  set (ptr := round_up (l_align l) (a + 2 * WORD)) in *.
  rewrite (proj2 (Z.eqb_neq ptr 0)) by lia. cbn [negb check mbind Res_bind].
  destruct (Z.ltb_spec (l_align l) GRANULARITY) as [Hlt|Hge].
  - rewrite <- (Hsm Hlt), Z.eqb_refl. done.
  - assert (a + 2 * WORD <> ptr).
    { intros E. specialize (Hlg Hge). rewrite <- E in Hlg. destruct Hd as [q ->]. destruct Hlg as [r Hr].
      rewrite GRANULARITY_WORD in Hr. assert (E' : WORD * (4 * (r - q) - 2) = 0) by lia.
      apply Z.mul_eq_0 in E'. lia. }
    by rewrite (proj2 (Z.eqb_neq _ _)).
Qed.

End Layout.

(** ** Cutting a block *)

Section AllocSpecs.
Context {T : Target} {P : TlsfParams} {Pok : ParamsOk P}.

(** The blocks left after the used one. *)
Definition rest (size new_size : Z) : list block :=
  if new_size =? size then [] else [mkBlock (size - new_size) Free].

Lemma allocate_split_spec st l1 l2 Ps a sz new_size s F (Q : unit -> St -> Prop) :
  region_at st l1 [mkBlock sz F] a (a + sz) ->
  wf_pools (mkPool st (l1 ++ [mkBlock sz F] ++ l2) :: Ps) ->
  rep_pool (st_mem s) (mkPool st (l1 ++ [mkBlock sz F] ++ l2)) ->
  FreeIndex (st_tlsf s) (st_mem s) (outer st l1 l2 Ps (a + sz)) ->
  (forall b l, l2 ++ [sentinel] = b :: l -> is_free b = false) ->
  0 < new_size <= sz -> (GRANULARITY | new_size) ->
  (forall s', FreeIndex (st_tlsf s') (st_mem s')
        (frees (a + new_size) (rest sz new_size) ++ outer st l1 l2 Ps (a + sz)) ->
     mem_step (step_area (outer st l1 l2 Ps (a + sz)) (a + new_size) (a + sz)) (st_mem s) (st_mem s') ->
     rep (st_mem s') (a + new_size) a (rest sz new_size) ->
     word_at (st_mem s') (a + sz + WORD) (last_block a (a + new_size) (rest sz new_size)) -> Q tt s') ->
  wp (allocate_split a (a + sz) sz new_size) s Q.
Proof.
  intros HR HW Hrep Hi Hnf Hns Hd HQ.
  pose proof (region_ok HR HW) as [].
  pose proof (outer_links HR HW) as Hout.
  destruct (region_next HR HW _ Hrep) as (b & l & El & Hwb & (Hb1 & Hb2 & _) & _).
  simpl in Hb2. assert (Hm : mapped (st_mem s) (a + sz) GRANULARITY).
  { apply (region_mapped HR HW _ _ _ Hrep); lia. }
  pose proof WORD_pos. pose proof GRANULARITY_WORD as EG.
  unfold allocate_split, rest in *. destruct (Z.eqb_spec new_size sz) as [->|Hne].
  { apply wp_ret, HQ; simpl; [done|apply mem_step_refl|done|done]. }
  assert (Hsz : (GRANULARITY | sz - new_size) /\ GRANULARITY <= sz - new_size).
  { destruct (region_wf HR HW) as (_ & [[Hdz _ _] _] & _).
    apply divide_gap_sub; [pose proof GRANULARITY_pos; lia|done|done|lia]. }
  assert (Han : (GRANULARITY | a + new_size)) by by apply Z.divide_add_r.
  wp_pure uadd_ok; [lia|]. wp_pure usub_ok; [lia|].
  apply wp_bind. eapply wp_get_size; [lia|done|exact Hb1|].
  apply wp_bind, wp_check.
  { rewrite (proj1 (size_flags _ _ (wf_aligned _ _ Hwb))). specialize (Hnf _ _ El).
    unfold is_free in Hnf. by destruct (bkind b). }
  apply wp_bind, wp_set_prev_phys; [lia|done|done|unfold is_usize; lia|]. intros m1 Hs1 Hw1. simpl in *.
  assert (Hm1 : mapped m1 (a + new_size) GRANULARITY).
  { eapply mapped_step; [exact Hs1|]. apply (region_mapped HR HW _ _ _ Hrep); lia. }
  apply wp_bind. apply wp_bind, wp_set_size; [lia|done|done|unfold is_usize; lia|].
  intros m2 Hs2 Hw2. step_words Hs2. simpl in *.
  apply wp_set_prev_phys; [lia|done|by eapply mapped_step|unfold is_usize; lia|].
  intros m3 Hs3 Hw3. step_words Hs3. simpl in *.
  apply (link_free_block_spec _ _ _ (outer st l1 l2 Ps (a + sz))); simpl.
  - eapply (FreeIndex_step _ _ m2), (FreeIndex_step _ _ m1), (FreeIndex_step _ _ (st_mem s)); try done;
      intros ???; avoid.
  - apply (outer_not_in HR HW). lia.
  - apply (region_linkable HR HW); [|lia|lia|done|tauto|lia].
    do 3 (eapply mapped_step; [eassumption|]). apply Hrep.
  - intros s' Hi' Hs4. simpl in *.
    assert (Hs4' : mem_step (fun x => a + new_size + 2 * WORD <= x < a + new_size + 4 * WORD \/
      link_area (outer st l1 l2 Ps (a + sz)) x) m3 (st_mem s')) by (eapply mem_step_weaken; [exact Hs4|in_area]).
    step_words Hs4'.
    apply HQ.
    + done.
    + clear Hs4. chain_steps.
    + unfold rep, rep_block, flags; simpl. by rewrite Z.add_0_r.
    + done.
Qed.

Lemma no_adj_cut l1 sz n al l2 :
  no_adj (l1 ++ [mkBlock sz Free] ++ l2) -> no_adj (l1 ++ (mkBlock n (Used al) :: rest sz n) ++ l2).
Proof.
  intros (H1 & H2 & H3)%no_adj_app. apply no_adj_app. unfold rest.
  split_and!; [done| |by destruct (last l1) as [b|]; simpl; rewrite ?andb_false_r].
  destruct (n =? sz); simpl in *; destruct l2; naive_solver.
Qed.

Lemma rest_wf a sz n :
  (GRANULARITY | sz) -> (GRANULARITY | n) -> n <= sz -> wf_blocks (a + n) (rest sz n) /\ total (rest sz n) = sz - n.
Proof.
  intros Hs Hn Hle. unfold rest. destruct (Z.eqb_spec n sz); simpl; [lia|]. split; [|lia].
  split; [|done]. split; simpl; [by apply Z.divide_sub_r|lia|done].
Qed.

(** The new size of the used block fits in what was searched for. *)
Lemma new_size_bounds l a ptr :
  layout_ok l -> payload_at l a ptr ->
  let n := round_up GRANULARITY (ptr - a + l_size l) in
  0 < n <= search_size_of l /\ (GRANULARITY | n) /\ ptr - a + l_size l <= n.
Proof.
  intros [Hu _] [H1 H2 _ _ _] n. assert (HG : 0 < GRANULARITY) by (pose proof GRANULARITY_pos; lia).
  pose proof (round_up_spec GRANULARITY (ptr - a + l_size l) HG) as [Hr Hd]. pose proof WORD_pos.
  unfold is_usize in Hu. split_and!; [subst n; lia| |done|subst n; lia].
  apply round_up_mono; lia.
Qed.

(** Writing the header of the used block, with its pad. *)
Lemma set_used_spec {A} (k : M St A) l a n ptr p F s (Q : A -> St -> Prop) :
  layout_ok l -> payload_at l a ptr -> 0 < a -> (GRANULARITY | a) -> (GRANULARITY | n) ->
  0 < n -> ptr - a + l_size l <= n -> a + n + GRANULARITY <= USIZE_MOD -> mapped (st_mem s) a n ->
  FreeIndex (st_tlsf s) (st_mem s) F -> (forall x, link_area F x -> ~ a <= x < a + n) ->
  word_at (st_mem s) (a + WORD) p ->
  (forall m', mem_step (fun x => a <= x < ptr) (st_mem s) m' -> FreeIndex (st_tlsf s) m' F ->
     rep_block m' a p (mkBlock n (Used (mkAlloc ptr (l_align l) (l_size l)))) ->
     wp k (mkSt (st_tlsf s) m') Q) ->
  wp (set_size UsedBlockHdr a (Z.lor n SIZE_USED);;
      (if GRANULARITY <=? l_align l then set_block_hdr (get_for_allocation ptr) a else mret tt);;
      k) s Q.
Proof.
  intros Hl [Hp1 Hp2 Hp3 Hp4 Hp5] Ha Hda Hdn Hn Hfit Hu Hm Hi Hout Hw HQ.
  pose proof WORD_pos. pose proof GRANULARITY_WORD. destruct Hl as [[Hs0 _] _].
  assert (Hge : GRANULARITY <= n) by (apply divide_pos_le; [lia|done|done]).
  rewrite size_used by done.
  apply wp_bind, wp_set_size; [done|done|eapply mapped_sub; [done|lia|lia]|unfold is_usize, SIZE_USED; lia|].
  intros m1 Hs1 Hw1. step_words Hs1. destruct (Z.leb_spec GRANULARITY (l_align l)) as [Hal|Hal].
  - assert (a + GRANULARITY <= ptr) by (apply divide_gap; [lia|done|auto|lia]).
    apply wp_bind, wp_set_block_hdr; [lia|auto| |unfold is_usize; lia|].
    { eapply mapped_step; [exact Hs1|]. eapply mapped_sub; [done|lia|lia]. }
    intros m2 Hs2 Hw2. step_words Hs2. apply (HQ m2).
    + chain_steps.
    + eapply (FreeIndex_step _ _ m1), (FreeIndex_step _ _ (st_mem s)); try done; intros ???; avoid.
    + unfold rep_block; simpl. by split_and!.
  - apply (HQ m1).
    + chain_steps.
    + eapply (FreeIndex_step _ _ (st_mem s)); try done; intros ???; avoid.
    + unfold rep_block; simpl. split_and!; [done..|lia].
Qed.

Lemma allocate_place_spec l st l1 l2 Ps a sz s (Q : option Z -> St -> Prop) :
  let F := outer st l1 l2 Ps (a + sz) in
  region_at st l1 [mkBlock sz Free] a (a + sz) ->
  Inv_on s (mkPool st (l1 ++ [mkBlock sz Free] ++ l2) :: Ps) F ->
  layout_ok l -> search_size_of l <= sz ->
  (forall ptr n h' m', payload_at l a ptr ->
     let mid := mkBlock n (Used (mkAlloc ptr (l_align l) (l_size l))) :: rest sz n in
     region_new l1 [mkBlock sz Free] l2 a mid ->
     mem_step (step_area F a (a + sz)) (st_mem s) m' ->
     rep m' a (last_block 0 st l1) mid ->
     word_at m' (a + sz + WORD) (last_block (last_block 0 st l1) a mid) ->
     FreeIndex h' m' (frees a mid ++ F) -> Q (Some ptr) (mkSt h' m')) ->
  wp (allocate_place l (overhead_max (l_align l)) (search_size_of l) a (a + sz) sz) s Q.
Proof.
  intros F HR [HW Hrep Hi _] Hl Hss HQ. subst F.
  pose proof (region_ok HR HW) as []. apply Forall_cons in Hrep as [Hrep _].
  destruct (region_wf HR HW) as (_ & [[Hsz _ _] _] & _). simpl in Hsz.
  pose proof WORD_pos. pose proof GRANULARITY_WORD.
  assert (Hov : overhead_max (l_align l) <= search_size_of l).
  { unfold search_size_of. destruct Hl as [[? _] _].
    pose proof (round_up_spec GRANULARITY (l_size l + overhead_max (l_align l))). lia. }
  destruct (payload_ptr_ok l a Hl) as (ptr & Eptr & Hpa); [lia|done|lia|].
  pose proof (new_size_bounds l a ptr Hl Hpa) as (Hn & Hnd & Hfit).
  set (n := round_up GRANULARITY (ptr - a + l_size l)) in *. pose proof Hpa as [Hp1 Hp2 Hp3 Hp4 Hp5].
  unfold allocate_place. wp_pure Eptr. wp_pure usub_ok; [lia|].
  apply wp_bind, wp_check; [by apply Z.leb_le|]. destruct (proj1 Hl) as [Hs0 _].
  wp_pure uadd_ok; [lia|]. wp_pure round_up_size_ok; [lia|lia|]. fold n.
  apply wp_bind, wp_check; [apply Z.leb_le; lia|]. apply wp_bind.
  eapply allocate_split_spec; [exact HR|exact HW|done|done| |lia|done|].
  { intros b l0. eapply next_not_free. destruct HW as [[[] _]%Forall_cons _]. done. }
  intros s1 Hi1 Hs1 Hr1 Hw1.
  pose proof (outer_links HR HW) as Hout.
  assert (GRANULARITY <= n) by (apply divide_pos_le; [lia|done|lia]).
  destruct (region_rep_mid HR _ Hrep) as [(_ & Hw & _) _]. step_words Hs1.
  destruct (rest_wf a sz n Hsz Hnd ltac:(lia)) as [Hwr Htr].
  eapply (set_used_spec _ l a n ptr (last_block 0 st l1)); try done; try lia.
  { eapply mapped_step; [exact Hs1|]. apply (region_mapped HR HW _ _ _ Hrep); lia. }
  { intros x. rewrite link_area_app. intros [Hx|Hx]; [|apply Hout in Hx; lia].
    apply link_area_range in Hx; [lia|done]. }
  intros m2 Hs2 Hi2 Hb2. apply wp_ret. eapply (HQ ptr n _ m2 Hpa).
  - split; simpl.
    + lia.
    + split; [|done]. split; simpl; [done|lia|]. split; simpl; try done; try lia.
      destruct Hl as [_ (k & Hk & ->)]. exists k. split; [lia|done].
    + constructor; [done|]. unfold rest. destruct (n =? sz); by repeat constructor.
    + apply no_adj_cut. destruct HW as [[[] _]%Forall_cons _]. done.
    + done.
  - chain_steps.
  - split; [done|]. simpl. eapply rep_step; [exact Hs2|by apply Z.divide_add_r|done| |done].
    intros x Hx ?. apply foot_range in Hx; [avoid|done].
  - simpl. step_words Hs2. done.
  - done.
Qed.

Lemma allocs_rest sz n : allocs (rest sz n) = [].
Proof. unfold rest. by destruct (n =? sz). Qed.

Lemma allocate_block_spec l s Ps fl sl sz (Q : option Z -> St -> Prop) :
  let a := ff (st_tlsf s) fl sl in
  Inv s Ps -> layout_ok l -> valid_class (fl, sl) -> (a, sz) ∈ all_frees Ps -> a <> 0 ->
  search_size_of l <= sz ->
  (forall ptr s' Ps', payload_at l a ptr ->
     post s s' Ps Ps' (live Ps) ->
     live Ps' ≡ₚ mkAlloc ptr (l_align l) (l_size l) :: live Ps -> Q (Some ptr) s') ->
  wp (allocate_block l (overhead_max (l_align l)) (search_size_of l) fl sl) s Q.
Proof.
  intros a HI Hl Hc Hin Hnz Hss HQ. destruct (find_free Ps a sz Hin) as (st & l1 & l2 & Ps0 & HP & HR).
  rewrite HP in HI. apply Inv_on_all in HI as HO. pose proof HR as [E1 E2].
  rewrite (all_frees_region st l1 _ l2 Ps0 a (a + sz)) in HO by (done || simpl; lia). simpl in HO.
  pose proof HI as [HW Hrep Hi]. apply FreeIndex_shape in Hi as Hsh.
  pose proof (region_ok HR HW) as []. destruct (region_wf HR HW) as (_ & [Hb _] & _).
  pose proof Hrep as [Hrp _]%Forall_cons. destruct (region_rep_mid HR _ Hrp) as [(Hw & _ & _) _].
  pose proof GRANULARITY_pos. pose proof Hb as [Hsz Hpz _]. simpl in Hw, Hsz, Hpz.
  unfold allocate_block. apply wp_bind, wp_get_first_free; [done|done|]. fold a.
  apply wp_bind, wp_check; [by rewrite (proj2 (Z.eqb_neq _ _))|].
  apply wp_bind. eapply wp_next_phys_block; [lia|done|exact Hb|done|exact Hw|simpl; lia|]. simpl.
  apply wp_bind. eapply wp_get_size; [lia|done|exact Hw|].
  rewrite size_mask by (done || unfold is_usize; rewrite flags_Free; lia). rewrite flags_Free, Z.add_0_r.
  apply wp_bind, wp_check; [by rewrite Z.eqb_refl|]. apply wp_bind, wp_check; [by apply Z.leb_le|].
  apply wp_bind. eapply unlink_first_on; [exact HO|done|done|done|]. intros s1 HO1 Hs1.
  eapply allocate_place_spec; [exact HR|exact HO1|done|done|].
  intros ptr n h' m' Hpa mid Hnew Hs2 Hr Hn Hi2.
  apply (HQ ptr _ (mkPool st (l1 ++ mid ++ l2) :: Ps0)); [done| |].
  - eapply post_perm; [exact HP|reflexivity|]. eapply post_keep.
    2: { eapply (region_post HR HW); [apply HO1|apply (outer_sub HR HW)|done..]. }
    rewrite HP, live_cons; simpl. rewrite allocs_app; simpl. set_solver.
  - rewrite HP, !live_cons; simpl. rewrite !allocs_app; simpl. rewrite allocs_app, allocs_rest. simpl.
    solve_Permutation.
Qed.

Lemma search_size_ok l :
  layout_ok l -> l_size l + overhead_max (l_align l) + (GRANULARITY - 1) < USIZE_MOD ->
  valid_size (search_size_of l) /\
  Z.land (l_size l + overhead_max (l_align l) + (GRANULARITY - 1)) (usize_not (GRANULARITY - 1)) = search_size_of l.
Proof.
  intros Hl Hb. pose proof (overhead_max_bounds l Hl) as [Hov _]. destruct Hl as [[Hs _] _].
  pose proof GRANULARITY_pos. pose proof WORD_pos. assert (HG : 0 < GRANULARITY) by lia.
  pose proof (round_up_spec GRANULARITY (l_size l + overhead_max (l_align l)) HG) as [Hr Hd].
  unfold search_size_of. split.
  - split; [|done]. split; [apply divide_pos_le; [done|done|lia]|lia].
  - apply granule_mask; [unfold is_usize; lia|lia].
Qed.

(** The request exceeds the address space. *)
Definition oversized (l : Layout) : Prop := USIZE_MOD <= l_size l + overhead_max (l_align l) + (GRANULARITY - 1).

Lemma allocate_spec l s Ps (Q : option Z -> St -> Prop) :
  Inv s Ps -> layout_ok l ->
  (oversized l \/
   (forall c, block_class (all_frees Ps) c -> ~ class_le (ceil_class (search_size_of l)) c) -> Q None s) ->
  (forall ptr s' Ps' a sz c, ~ oversized l -> (a, sz) ∈ all_frees Ps -> map_floor sz = Ok (Some c) ->
     class_le (ceil_class (search_size_of l)) c ->
     (forall c', block_class (all_frees Ps) c' -> class_le (ceil_class (search_size_of l)) c' -> class_le c c') ->
     payload_at l a ptr -> ptr + l_size l <= a + sz -> post s s' Ps Ps' (live Ps) ->
     live Ps' ≡ₚ mkAlloc ptr (l_align l) (l_size l) :: live Ps -> Q (Some ptr) s') ->
  wp (allocate l) s Q.
Proof.
  intros HI Hl HN HS. unfold allocate. wp_pure max_overhead_ok; [done|].
  pose proof GRANULARITY_pos. unfold oversized in HN.
  destruct (checked_add (l_size l) _) as [ss|] eqn:E1.
  2: { apply checked_add_None in E1. apply wp_ret, HN. left. lia. }
  apply checked_add_Some in E1 as [-> Hb1].
  destruct (checked_add (l_size l + _) _) as [ss|] eqn:E2.
  2: { apply checked_add_None in E2. apply wp_ret, HN. left. lia. }
  apply checked_add_Some in E2 as [-> Hb2].
  destruct (search_size_ok l Hl Hb2) as [Hv ->]. apply wp_bind.
  eapply search_spec; [apply HI|done| |].
  - intros Hno. apply wp_ret, HN. by right.
  - intros fl sl sz Hc Hin Hmf Hle Hnz Hcl Hmin. simpl.
    eapply allocate_block_spec; try done. intros ptr s' Ps' Hpa Hpost Hlive.
    pose proof (new_size_bounds l _ ptr Hl Hpa) as (Hn & _ & Hfit).
    eapply HS; try done; [unfold oversized; lia|lia].
Qed.

(** ** The pool size an allocation needs *)

Lemma pool_size_eq l :
  layout_ok l ->
  (oversized l /\ pool_size_to_contain_allocation l = Ok None) \/
  (~ oversized l /\ valid_size (search_size_of l) /\
   pool_size_to_contain_allocation l =
     Ok (if FL_usable <=? (ceil_class (search_size_of l)).1 then None
         else checked_add (list_min (search_size_of l)) GRANULARITY)).
Proof.
  intros Hl. unfold pool_size_to_contain_allocation, oversized. rewrite max_overhead_ok by done.
  cbn [mbind Res_bind]. pose proof GRANULARITY_pos. destruct (checked_add (l_size l) _) as [ss|] eqn:E1.
  2: { apply checked_add_None in E1. left. split; [lia|done]. }
  apply checked_add_Some in E1 as [-> Hb1].
  destruct (checked_add (l_size l + _) _) as [ss|] eqn:E2.
  2: { apply checked_add_None in E2. left. split; [lia|done]. }
  apply checked_add_Some in E2 as [-> Hb2]. right. destruct (search_size_ok l Hl Hb2) as [Hv ->].
  split_and!; [lia|done|]. rewrite map_ceil_and_unmap_eq by done. cbn [mbind Res_bind]. by case_bool.
Qed.

(** A free block of a pool is in a searched list iff the pool size computed
    for the layout is at most the block's size and a sentinel. *)
Lemma pool_size_iff l s Ps a sz c :
  Inv s Ps -> layout_ok l -> ~ oversized l -> (a, sz) ∈ all_frees Ps -> map_floor sz = Ok (Some c) ->
  class_le (ceil_class (search_size_of l)) c <->
  exists n, pool_size_to_contain_allocation l = Ok (Some n) /\ n <= sz + GRANULARITY.
Proof.
  intros HI Hl Ho Hin Hc. destruct (pool_size_eq l Hl) as [[? _]|(_ & Hv & E)]; [done|].
  destruct (find_free Ps a sz Hin) as (st & l1 & l2 & Ps0 & HP & HR). rewrite HP in HI.
  pose proof (region_ok HR (inv_wf _ _ HI)) as [].
  assert (Hvs : valid_size sz).
  { rewrite HP in Hin. destruct HI as [_ _ (L & _ & [_ Hlk _ _ _])]. by apply Hlk in Hin as []. }
  rewrite (class_list_min _ sz c Hv Hvs Hc). rewrite E. pose proof GRANULARITY_pos. split.
  - intros Hle. apply (class_list_min _ sz c Hv Hvs Hc) in Hle as Hcl.
    pose proof (map_floor_usable sz c Hvs Hc).
    destruct (Z.leb_spec FL_usable (ceil_class (search_size_of l)).1) as [Hge|Hlt].
    + destruct Hcl; lia.
    + exists (list_min (search_size_of l) + GRANULARITY). split; [|lia].
      f_equal. apply checked_add_Some. lia.
  - intros (n & En & Hn). case_bool in En; [discriminate|]. injection En as En.
    apply checked_add_Some in En as [-> _]. lia.
Qed.

Lemma allocate_succeeds l s Ps :
  Inv s Ps -> layout_ok l ->
  wp (allocate l) s (fun r _ => is_Some r <->
    exists n a sz, pool_size_to_contain_allocation l = Ok (Some n) /\
      (a, sz) ∈ all_frees Ps /\ n <= sz + GRANULARITY).
Proof.
  intros HI Hl.
  assert (Hno : oversized l -> forall n, pool_size_to_contain_allocation l <> Ok (Some n)).
  { intros Ho n. destruct (pool_size_eq l Hl) as [[_ ->]|[? _]]; done. }
  eapply allocate_spec; [exact HI|done| |].
  - intros Hnone. split; [by intros []|]. intros (n & a & sz & E & Hin & Hle).
    destruct Hnone as [Ho|Hnc]; [by apply Hno in E|].
    assert (Hno' : ~ oversized l) by (intros Ho; by apply (Hno Ho) in E).
    pose proof HI as [_ _ (L & _ & [_ Hlk _ _ _])]. destruct (Hlk a sz Hin) as [_ _ _ _ _ [c Hc]].
    destruct (Hnc c); [by exists a, sz|]. eapply pool_size_iff; eauto.
  - intros ptr s' Ps' a sz c Hno' Hin Hc Hle _ Hpa _ _ _. split; [|eauto]. intros _.
    eapply pool_size_iff in Hle as (n & E & Hn); eauto.
    exists n, a, sz. done.
Qed.

End AllocSpecs.

(** ** Properties *)

Section AllocProperties.
Context {T : Target} {P : TlsfParams} {Pok : ParamsOk P}.

(** C2: [allocate] returns (no panic, no undefined behaviour) from every state
    that satisfies the invariant.  [Some ptr] means a new allocation with the
    layout asked for and nothing else: the invariant holds again, the pools
    are where they were, no byte outside the pools and no byte of another
    payload changed.  [None] means nothing changed. *)
Theorem allocate_correct l s Ps :
  Inv s Ps -> layout_ok l ->
  wp (allocate l) s (fun r s' =>
    match r with
    | Some ptr => exists Ps', post s s' Ps Ps' (live Ps) /\
                    live Ps' ≡ₚ mkAlloc ptr (l_align l) (l_size l) :: live Ps
    | None => s' = s
    end).
Proof.
  intros HI Hl. eapply allocate_spec; [exact HI|done|done|].
  intros ptr s' Ps' a sz c _ _ _ _ _ _ _ Hp Hlv. by exists Ps'.
Qed.

(** C24: The good-fit policy: the block that is split is taken from the first
    non-empty list whose blocks are all large enough, and the payload lies in
    it, behind the header. *)
Theorem allocate_good_fit l s Ps :
  Inv s Ps -> layout_ok l ->
  wp (allocate l) s (fun r _ =>
    match r with
    | Some ptr => exists a sz c, (a, sz) ∈ all_frees Ps /\ map_floor sz = Ok (Some c) /\
        class_le (ceil_class (search_size_of l)) c /\
        (forall c', block_class (all_frees Ps) c' -> class_le (ceil_class (search_size_of l)) c' -> class_le c c') /\
        a + 2 * WORD <= ptr /\ ptr + l_size l <= a + sz
    | None => True
    end).
Proof.
  intros HI Hl. eapply allocate_spec; [exact HI|done|done|].
  intros ptr s' Ps' a sz c _ Hin Hc Hle Hmin Hpa Hfit _ _. exists a, sz, c. split_and!; try done. apply Hpa.
Qed.

(** C23: [allocate] succeeds exactly when [pool_size_to_contain_allocation] is
    [Some n] and some free block and a sentinel take [n] bytes at least: the
    size that [FlexTlsf] asks its source for is sufficient, and no smaller
    one is; [None] means that no pool is large enough. *)
Theorem allocate_succeeds_iff l s Ps :
  Inv s Ps -> layout_ok l ->
  wp (allocate l) s (fun r _ => is_Some r <->
    exists n a sz, pool_size_to_contain_allocation l = Ok (Some n) /\
      (a, sz) ∈ all_frees Ps /\ n <= sz + GRANULARITY).
Proof. apply allocate_succeeds. Qed.

End AllocProperties.
