(* ===== verification/Dealloc.v ===== *)
(** * tlsf.rs: deallocation

    [used_block_hdr_for_allocation] and its variant for an unknown alignment,
    [deallocate_block] and the entry points, and the payload size of an
    allocation.  Deallocation merges the block with the free blocks around it,
    so that no two free blocks are adjacent. *)

From S2P Require Import Prelude Usize BinInteger SizeClass Machine Header FreeIndex Pool Region.

Section DeallocOps.
Context {T : Target} {P : TlsfParams}.

Definition used_block_hdr_for_allocation (ptr align : Z) : M St Z :=
  if GRANULARITY <=? align then get_block_hdr (get_for_allocation ptr)
  else lift (usub ptr (GRANULARITY / 2)).

(** [*p] for a pointer to a pointer-sized cell. *)
Definition read_ptr (p : Z) : M St Z := deref UsedBlockPad p;; load p.

Definition used_block_hdr_for_allocation_unknown_align (ptr : Z) : M St Z :=
  let c1_block_hdr_ptr := get_for_allocation ptr in
  let c2_block_hdr := wrapping_sub ptr size_of_UsedBlockHdr in
  let c2_prev_phys_block_ptr := wrapping_add c2_block_hdr WORD in
  lift (check (c1_block_hdr_ptr =? c2_prev_phys_block_ptr));;
  block_ptr ← read_ptr c2_prev_phys_block_ptr;
  if negb (block_ptr =? 0) then
    size ← get_size BlockHdr block_ptr;
    block_end ← lift (uadd block_ptr size);
    if block_end <? ptr then mret c2_block_hdr
    else read_ptr c1_block_hdr_ptr
  else mret c2_block_hdr.

(** Merge the hole with the next block if that one is free.  Returns the size
    and the block whose [prev_phys_block] is to be updated. *)
Definition deallocate_merge_next (size next_phys_block : Z) : M St (Z * Z) :=
  next_size_and_flags ← get_size BlockHdr next_phys_block;
  if Z.land next_size_and_flags SIZE_USED =? 0 then
    let next_size := next_size_and_flags in
    lift (check (Z.land next_size_and_flags SIZE_SIZE_MASK =? next_size));;
    size ← lift (uadd size next_size);
    new_next_phys_block ← Header.next_phys_block BlockHdr next_phys_block;
    unlink_free_block next_phys_block next_size;;
    mret (size, new_next_phys_block)
  else mret (size, next_phys_block).

(** Merge with the previous block if that one is free.  Returns the size and
    the start of the merged block. *)
Definition deallocate_merge_prev (size block : Z) : M St (Z * Z) :=
  prev_phys_block ← get_prev_phys_block BlockHdr block;
  if negb (prev_phys_block =? 0) then
    prev_size_and_flags ← get_size BlockHdr prev_phys_block;
    if Z.land prev_size_and_flags SIZE_USED =? 0 then
      let prev_size := prev_size_and_flags in
      lift (check (Z.land prev_size_and_flags SIZE_SIZE_MASK =? prev_size));;
      size ← lift (uadd size prev_size);
      unlink_free_block prev_phys_block prev_size;;
      mret (size, prev_phys_block)
    else mret (size, block)
  else mret (size, block).

(** Write the header of the merged free block and link it. *)
Definition deallocate_link (block size new_next_phys_block : Z) : M St unit :=
  lift (check (Z.land size SIZE_USED =? 0));;
  set_size BlockHdr block size;;
  link_free_block block size;;
  next ← next_phys_block FreeBlockHdr block;
  lift (check (new_next_phys_block =? next));;
  set_prev_phys_block BlockHdr new_next_phys_block block.

Definition deallocate_block (block : Z) : M St unit :=
  size_and_flags ← get_size BlockHdr block;
  let size := Z.land size_and_flags (usize_not SIZE_USED) in
  lift (check (negb (Z.land size_and_flags SIZE_USED =? 0)));;
  next ← next_phys_block BlockHdr block;
  '(size, new_next_phys_block) ← deallocate_merge_next size next;
  '(size, block) ← deallocate_merge_prev size block;
  deallocate_link block size new_next_phys_block.

Definition deallocate (ptr align : Z) : M St unit :=
  block ← used_block_hdr_for_allocation ptr align;
  deallocate_block block.

Definition deallocate_unknown_align (ptr : Z) : M St unit :=
  block ← used_block_hdr_for_allocation_unknown_align ptr;
  deallocate_block block.

(** [size_of_allocation], from the block's header. *)
Definition size_of_allocation_in_block (ptr block : Z) : M St Z :=
  size_and_flags ← get_size UsedBlockHdr block;
  size ← lift (usub size_and_flags SIZE_USED);
  lift (check (size =? Z.land size_and_flags SIZE_SIZE_MASK));;
  block_end ← lift (uadd block size);
  lift (usub block_end ptr).

Definition size_of_allocation (ptr align : Z) : M St Z :=
  block ← used_block_hdr_for_allocation ptr align;
  size_of_allocation_in_block ptr block.

Definition size_of_allocation_unknown_align (ptr : Z) : M St Z :=
  block ← used_block_hdr_for_allocation_unknown_align ptr;
  size_of_allocation_in_block ptr block.

Definition allocation_usable_size (ptr : Z) : M St Z := size_of_allocation_unknown_align ptr.

End DeallocOps.

(** ** Merging *)

Section DeallocSpecs.
Context {T : Target} {P : TlsfParams} {Pok : ParamsOk P}.

(** At most one block, and a free one. *)
Definition maybe_free (l : list block) : Prop := l = [] \/ exists sz, l = [mkBlock sz Free].

(** The sequence (closed by a sentinel) does not start with a free block. *)
Definition starts_used (l : list block) : Prop := match l with b :: _ => is_free b = false | [] => True end.

Lemma starts_used_tail b l : no_adj (b :: l) -> is_free b = true -> starts_used l.
Proof. intros [H _] E. destruct l as [|b' l]; [done|]. by rewrite E in H. Qed.

(** The header of a block says whether it is free. *)
Lemma flag_free b : (GRANULARITY | bsize b) -> (Z.land (bsize b + flags (bkind b)) SIZE_USED =? 0) = is_free b.
Proof. intros Hd. rewrite (proj1 (size_flags _ _ Hd)). unfold is_free. by destruct (bkind b). Qed.

Lemma is_free_inv b : is_free b = true -> b = mkBlock (bsize b) Free.
Proof. destruct b as [sz []]; simpl; intros; done. Qed.

Lemma merge_next_spec st l1 b l2 Ps a s size (Q : Z * Z -> St -> Prop) :
  let c := a + bsize b in let p := mkPool st (l1 ++ [b] ++ l2) in
  region_at st l1 [b] a c -> 0 <= size <= bsize b ->
  Inv_on s (p :: Ps) (outer st l1 l2 Ps c) ->
  (forall nf l2' s', l2 = nf ++ l2' -> maybe_free nf -> starts_used l2' ->
     Inv_on s' (p :: Ps) (outer st l1 l2' Ps (c + total nf)) ->
     mem_step (link_area (all_frees (p :: Ps))) (st_mem s) (st_mem s') ->
     Q (size + total nf, c + total nf) s') ->
  wp (deallocate_merge_next size c) s Q.
Proof.
  intros c p HR Hsz HO HQ. pose proof HO as [HW Hrep _ Hsub]. pose proof (region_ok HR HW) as [].
  apply Forall_cons in Hrep as [Hrp _]. destruct (region_next HR HW _ Hrp) as (b2 & l & El & Hb & (Hw & _ & _) & _).
  pose proof Hb as [Hd Hp _]. unfold deallocate_merge_next.
  apply wp_bind. eapply wp_get_size; [lia|done|exact Hw|]. rewrite flag_free by done.
  assert (Hskip : starts_used l2 -> wp (mret (size, c)) s Q).
  { intros Hst. apply wp_ret. pose proof (HQ [] l2 s) as H'. simpl in H'. rewrite !Z.add_0_r in H'.
    apply H'; [done|by left|done|done|apply mem_step_refl]. }
  destruct (is_free b2) eqn:Ef.
  2: { apply Hskip. destruct l2; simpl in *; simplify_eq; done. }
  destruct l2 as [|b2' l2']; simpl in El; simplify_eq.
  destruct (region_wf HR HW) as (_ & _ & [_ Hw2']). apply total_nonneg in Hw2' as Ht.
  destruct b2 as [n []]; try done. cbn [bsize bkind total] in *. rewrite flags_Free, Z.add_0_r in *.
  pose proof GRANULARITY_pos. rewrite free_size_mask by (done || unfold is_usize; lia).
  apply wp_bind, wp_check; [by rewrite Z.eqb_refl|]. wp_pure uadd_ok; [lia|].
  apply wp_bind. eapply wp_next_phys_block; [lia|done|exact Hb|done| |simpl; lia|]; simpl.
  { by rewrite flags_Free, Z.add_0_r. }
  apply wp_bind. eapply (unlink_on _ _ s (p :: Ps) (outer st l1 l2' Ps (c + n))).
  { eapply Inv_on_perm; [|exact HO]. unfold outer. simpl. solve_Permutation. }
  intros s' HO' Hs'. apply wp_ret.
  pose proof (HQ [mkBlock n Free] l2' s') as H'. simpl in H'. rewrite !Z.add_0_r in H'. apply H'; try done.
  - right. by exists n.
  - destruct HW as [[[_ _ _ _ _ _ Hna _] _]%Forall_cons _]. simpl in Hna.
    apply no_adj_app in Hna as (_ & [_ Hna] & _). eapply starts_used_tail; [exact Hna|done].
  - eapply mem_step_weaken; [exact Hs'|]. intros x. apply link_area_sub. apply HO'.
Qed.

Definition ends_used (l : list block) : Prop :=
  match last l with Some b => is_free b = false | None => True end.

Lemma merge_prev_spec st l1 b l2 Ps a s size R (Q : Z * Z -> St -> Prop) :
  let p := mkPool st (l1 ++ [b] ++ l2) in
  region_at st l1 [b] a (a + bsize b) -> 0 <= size <= bsize b + total l2 ->
  Inv_on s (p :: Ps) (frees st l1 ++ R) ->
  (forall l1' pf s', l1 = l1' ++ pf -> maybe_free pf -> ends_used l1' ->
     Inv_on s' (p :: Ps) (frees st l1' ++ R) ->
     mem_step (link_area (all_frees (p :: Ps))) (st_mem s) (st_mem s') ->
     Q (size + total pf, a - total pf) s') ->
  wp (deallocate_merge_prev size a) s Q.
Proof.
  intros p HR Hsz HO HQ. pose proof HO as [HW Hrep _ _]. pose proof (region_ok HR HW) as [].
  destruct (region_wf HR HW) as (Hw1 & _ & _). pose proof HR as [E1 _].
  apply Forall_cons in Hrep as [Hrp _]. destruct (region_rep_mid HR _ Hrp) as [(_ & Hw & _) _].
  unfold deallocate_merge_prev. apply wp_bind. eapply wp_get_prev_phys; [lia|done|exact Hw|].
  assert (Hskip : ends_used l1 -> wp (mret (size, a)) s Q).
  { intros Hst. apply wp_ret. pose proof (HQ l1 [] s) as H'. simpl in H'. rewrite Z.add_0_r, Z.sub_0_r in H'.
    apply H'; [by rewrite app_nil_r|by left|done|done|apply mem_step_refl]. }
  destruct (region_prev HR HW _ Hrp) as [[E ->]|(l & pb & El & -> & Hge & Hc & Hb & Hwp)]; [subst; by apply Hskip|].
  pose proof Hb as [Hd Hp _]. rewrite (proj2 (Z.eqb_neq _ 0)) by lia. simpl.
  apply wp_bind. eapply wp_get_size; [lia|done|exact Hwp|]. rewrite flag_free by done.
  destruct (is_free pb) eqn:Ef; [|apply Hskip; unfold ends_used; by rewrite El, last_snoc].
  destruct pb as [n []]; try done. cbn [bsize bkind] in *. rewrite flags_Free, Z.add_0_r in *.
  pose proof GRANULARITY_pos. rewrite free_size_mask by (done || unfold is_usize; lia).
  apply wp_bind, wp_check; [by rewrite Z.eqb_refl|]. wp_pure uadd_ok; [lia|].
  apply wp_bind. eapply (unlink_on _ _ s (p :: Ps) (frees st l ++ R)).
  { eapply Inv_on_perm; [|exact HO]. subst l1. rewrite frees_app. simpl. rewrite total_app in E1. simpl in E1.
    replace (st + total l) with (a - n) by lia. solve_Permutation. }
  intros s' HO' Hs'. apply wp_ret.
  pose proof (HQ l [mkBlock n Free] s') as H'. simpl in H'. rewrite !Z.add_0_r in H'. apply H'; try done.
  - right. by exists n.
  - destruct HW as [[[_ _ _ _ _ _ Hna _] _]%Forall_cons _]. simpl in Hna. rewrite El, <- app_assoc in Hna.
    unfold ends_used. destruct (last l) eqn:?; [|done]. eapply prev_not_free; [exact Hna|done].
  - eapply mem_step_weaken; [exact Hs'|]. intros x. apply link_area_sub. apply HO'.
Qed.

Lemma no_adj_free l1 mid l2 sz :
  no_adj (l1 ++ mid ++ l2) -> ends_used l1 -> starts_used l2 -> no_adj (l1 ++ [mkBlock sz Free] ++ l2).
Proof.
  rewrite !no_adj_app. intros (H1 & (_ & H2 & _) & _) He Hs. unfold ends_used, starts_used in *.
  split_and!; [done|done|done| |]; simpl.
  - by destruct l2.
  - destruct (last l1); [by rewrite He|done].
Qed.

Lemma deallocate_link_spec st l1 mid l2 Ps a1 a2 s (Q : unit -> St -> Prop) :
  region_at st l1 mid a1 a2 -> mid <> [] -> ends_used l1 -> starts_used l2 ->
  Inv_on s (mkPool st (l1 ++ mid ++ l2) :: Ps) (outer st l1 l2 Ps a2) ->
  (forall h' m', let mid' := [mkBlock (a2 - a1) Free] in
     region_new l1 mid l2 a1 mid' ->
     mem_step (step_area (outer st l1 l2 Ps a2) a1 a2) (st_mem s) m' ->
     rep m' a1 (last_block 0 st l1) mid' ->
     word_at m' (a2 + WORD) (last_block (last_block 0 st l1) a1 mid') ->
     FreeIndex h' m' (frees a1 mid' ++ outer st l1 l2 Ps a2) -> Q tt (mkSt h' m')) ->
  wp (deallocate_link a1 (a2 - a1) a2) s Q.
Proof.
  intros HR Hne He Hst [HW Hrep Hi _] HQ. pose proof (region_ok HR HW) as [].
  pose proof (outer_links HR HW) as Hout. destruct (region_wf HR HW) as (_ & Hwm & _).
  apply Forall_cons in Hrep as [Hrp _]. pose proof WORD_pos. pose proof GRANULARITY_WORD.
  assert (Hm : forall x n, st <= x -> x + n <= a2 + GRANULARITY -> mapped (st_mem s) x n)
    by (intros; by apply (region_mapped HR HW _ _ _ Hrp)).
  assert (Hlt : a1 < a2 /\ word_at (st_mem s) (a1 + WORD) (last_block 0 st l1)).
  { apply (region_rep_mid HR) in Hrp. destruct HR as [_ E2]. destruct mid as [|b mid]; [done|].
    destruct Hwm as [[_ Hp _] Hwm]. apply total_nonneg in Hwm. simpl in E2. split; [lia|apply Hrp]. }
  destruct Hlt as [Hlt Hw]. assert (Hd : (GRANULARITY | a2 - a1)) by by apply Z.divide_sub_r.
  assert (Hge : GRANULARITY <= a2 - a1) by (apply divide_pos_le; [lia|done|lia]).
  assert (Hb : wf_block a1 (mkBlock (a2 - a1) Free)) by (split; simpl; [done|lia|done]).
  unfold deallocate_link. apply wp_bind, wp_check.
  { pose proof (flag_free (mkBlock (a2 - a1) Free) Hd) as E. simpl in E. by rewrite flags_Free, Z.add_0_r in E. }
  apply wp_bind, wp_set_size; [lia|done|apply Hm; lia|unfold is_usize; lia|]. intros m1 Hs1 Hw1. step_words Hs1.
  apply wp_bind, (link_free_block_spec _ _ _ (outer st l1 l2 Ps a2)); simpl.
  { eapply (FreeIndex_step _ _ (st_mem s)); try done. intros ???; avoid. }
  { apply (outer_not_in HR HW). lia. }
  { apply (region_linkable HR HW); [|lia|lia|done|done|lia]. eapply mapped_step; [exact Hs1|]. apply Hrp. }
  intros s2 Hi2 Hs2.
  assert (Hs2' : mem_step (fun x => a1 + 2 * WORD <= x < a1 + 4 * WORD \/ link_area (outer st l1 l2 Ps a2) x)
    m1 (st_mem s2)) by (eapply mem_step_weaken; [exact Hs2|in_area]). clear Hs2. step_words Hs2'.
  apply wp_bind. eapply (wp_next_phys_block _ a1 (mkBlock (a2 - a1) Free)); simpl; [lia|done|exact Hb|done| |lia|].
  { by rewrite flags_Free, Z.add_0_r. }
  apply wp_bind, wp_check; [apply Z.eqb_eq; lia|].
  apply wp_set_prev_phys; [lia|done| |unfold is_usize; lia|].
  { do 2 (eapply mapped_step; [eassumption|]). apply Hm; lia. }
  intros m3 Hs3 Hw3. step_words Hs3. apply (HQ _ m3).
  - split; simpl; [destruct HR; lia|done|by repeat constructor| |done].
    eapply no_adj_free; [|done|done]. destruct HW as [[[] _]%Forall_cons _]. done.
  - chain_steps.
  - unfold rep, rep_block; simpl. by rewrite flags_Free, Z.add_0_r.
  - done.
  - eapply (FreeIndex_step _ _ (st_mem s2)); [exact Hs3| |done].
    intros x. simpl. rewrite link_area_cons. intros ??. avoid.
Qed.

Lemma maybe_free_allocs l : maybe_free l -> allocs l = [].
Proof. by intros [->|[sz ->]]. Qed.

(** The header of a used block. *)
Lemma used_header st l1 sz al l2 Ps a s :
  region_at st l1 [mkBlock sz (Used al)] a (a + sz) ->
  Inv s (mkPool st (l1 ++ [mkBlock sz (Used al)] ++ l2) :: Ps) ->
  0 < a /\ (GRANULARITY | a) /\ wf_block a (mkBlock sz (Used al)) /\
  a + sz + GRANULARITY <= USIZE_MOD /\ rep_block (st_mem s) a (last_block 0 st l1) (mkBlock sz (Used al)).
Proof.
  intros HR [HW [Hr _]%Forall_cons _]. pose proof (region_ok HR HW) as [].
  destruct (region_wf HR HW) as (_ & [Hb _] & _). destruct (region_rep_mid HR _ Hr) as [Hrb _].
  split_and!; [lia|done|done|lia|done].
Qed.

Lemma deallocate_block_spec st l1 sz al l2 Ps a s (Q : unit -> St -> Prop) :
  let p := mkPool st (l1 ++ [mkBlock sz (Used al)] ++ l2) in
  region_at st l1 [mkBlock sz (Used al)] a (a + sz) -> Inv s (p :: Ps) ->
  (forall s' p', post s s' (p :: Ps) (p' :: Ps) (live (p' :: Ps)) ->
     allocs (p_body p') = allocs l1 ++ allocs l2 -> Q tt s') ->
  wp (deallocate_block a) s Q.
Proof.
  intros p HR HI HQ. destruct (used_header _ _ _ _ _ _ _ _ HR HI) as (Ha & Hda & Hb & Hu & Hw & _).
  pose proof Hb as [Hd Hpos _]. pose proof HR as [E1 E2]. cbn [bsize bkind] in *. pose proof GRANULARITY_pos.
  assert (HO : Inv_on s (p :: Ps) (outer st l1 l2 Ps (a + sz))).
  { eapply Inv_on_perm; [|by apply Inv_on_all]. symmetry. by apply (all_frees_region st l1 [mkBlock sz (Used al)] l2 Ps a). }
  unfold deallocate_block. apply wp_bind. eapply wp_get_size; [done|done|exact Hw|].
  rewrite size_not_used by (done || unfold is_usize, SIZE_USED; lia).
  apply wp_bind, wp_check; [by rewrite (proj1 (size_flags _ _ Hd))|].
  apply wp_bind. eapply wp_next_phys_block; [done|done|exact Hb|done|exact Hw|simpl; lia|]. simpl.
  apply wp_bind. eapply (merge_next_spec st l1 (mkBlock sz (Used al)) l2 Ps a); simpl; [exact HR|lia|exact HO|].
  intros nf l2' s1 El2 Hnf Hst HO1 Hs1. apply wp_bind.
  eapply (merge_prev_spec st l1 (mkBlock sz (Used al)) l2 Ps a); simpl; [exact HR| |exact HO1|].
  { subst l2. destruct (region_wf HR (on_wf _ _ _ HO)) as (_ & _ & Hwf).
    apply wf_blocks_app in Hwf as [Hn1 Hn2]. apply total_nonneg in Hn1, Hn2. rewrite total_app. lia. }
  intros l1' pf s2 El1 Hpf Hen HO2 Hs2. subst l1 l2. rewrite total_app in E1.
  set (mid := pf ++ [mkBlock sz (Used al)] ++ nf).
  assert (Ep : p = mkPool st (l1' ++ mid ++ l2')) by (unfold p, mid; f_equal; by rewrite <- !app_assoc).
  assert (HR' : region_at st l1' mid (a - total pf) (a + sz + total nf)).
  { unfold mid. split; rewrite ?total_app; simpl; rewrite ?total_app; simpl; lia. }
  replace (sz + total nf + total pf) with (a + sz + total nf - (a - total pf)) by lia.
  assert (HO3 : Inv_on s2 (mkPool st (l1' ++ mid ++ l2') :: Ps) (outer st l1' l2' Ps (a + sz + total nf)))
    by (rewrite <- Ep; exact HO2).
  eapply deallocate_link_spec; [exact HR'| |done|done|exact HO3|].
  { unfold mid. by destruct pf. }
  intros h' m' mid' Hnew Hs3 Hr3 Hw3 Hi3. apply (HQ _ (mkPool st (l1' ++ mid' ++ l2'))).
  - rewrite Ep. eapply post_keep.
    2: { eapply (region_post HR' (on_wf _ _ _ HO3) s s2 (all_frees (p :: Ps))); try done; [apply HO3|by rewrite Ep|].
         by eapply mem_step_trans. }
    rewrite live_cons; simpl. rewrite allocs_app. simpl. set_solver.
  - simpl. rewrite !allocs_app; simpl. rewrite (maybe_free_allocs pf), (maybe_free_allocs nf) by done. by rewrite app_nil_r.
Qed.

(** ** Finding the header of an allocation *)

Lemma wp_read_ptr p w s (Q : Z -> St -> Prop) :
  0 < p -> (WORD | p) -> word_at (st_mem s) p w -> Q w s -> wp (read_ptr p) s Q.
Proof.
  intros Hp Hd Hw HQ. apply wp_bind. eapply wp_lift; [|cbv beta; by eapply wp_load].
  rewrite (proj2 (Z.eqb_neq p 0)) by lia. simpl. pose proof WORD_pos.
  replace (p mod WORD) with 0; [done|]. symmetry. by apply Z.mod_divide; [lia|].
Qed.

(** Where the payload of a used block can be. *)
Lemma used_ptr a sz al :
  0 < a -> (GRANULARITY | a) -> alloc_ok a sz al -> a + sz + GRANULARITY <= USIZE_MOD ->
  WORD < a_ptr al < USIZE_MOD /\ (WORD | a_ptr al - WORD) /\
  (GRANULARITY <= a_align al -> (GRANULARITY | a_ptr al) /\ a + GRANULARITY <= a_ptr al).
Proof.
  intros Ha Hd Hal Hu. pose proof WORD_pos. pose proof GRANULARITY_WORD as EG. pose proof (alloc_pad a sz al Hd Hal) as Hpad.
  pose proof Hal as [_ _ Hs Hsm H0 He]. split_and!; [lia|lia| |done].
  assert (HdW : forall x, (GRANULARITY | x) -> (WORD | x)).
  { intros x Hx. etrans; [|exact Hx]. rewrite EG. apply Z.divide_factor_r. }
  destruct (Z.lt_ge_cases (a_align al) GRANULARITY) as [Hlt|Hge].
  - rewrite (Hsm Hlt). replace (a + 2 * WORD - WORD) with (a + WORD) by lia. apply Z.divide_add_r; [auto|apply Z.divide_refl].
  - apply Z.divide_sub_r; [apply HdW; by apply Hpad|apply Z.divide_refl].
Qed.

Section Used.
Context {st : Z} {l1 : list block} {sz : Z} {al : alloc} {l2 : list block} {Ps : list pool} {a : Z} {s : St}.
Context (HR : region_at st l1 [mkBlock sz (Used al)] a (a + sz)).
Context (HI : Inv s (mkPool st (l1 ++ [mkBlock sz (Used al)] ++ l2) :: Ps)).

Lemma used_block_hdr_spec (Q : Z -> St -> Prop) :
  Q a s -> wp (used_block_hdr_for_allocation (a_ptr al) (a_align al)) s Q.
Proof.
  intros HQ. destruct (used_header _ _ _ _ _ _ _ _ HR HI) as (Ha & Hda & [_ _ Hal] & Hu & _ & _ & Hpad).
  cbn [bkind bsize] in *. destruct (used_ptr a sz al Ha Hda Hal Hu) as (Hp & _ & Hg).
  unfold used_block_hdr_for_allocation. destruct (Z.leb_spec GRANULARITY (a_align al)) as [Hge|Hlt].
  - destruct (Hg Hge). apply (wp_get_block_hdr (a_ptr al) a); [lia|done|auto|done].
  - rewrite GRANULARITY_half. rewrite (alloc_small _ _ _ Hal Hlt). pose proof WORD_pos.
    eapply wp_lift; [apply usub_ok; lia|]. by replace (a + 2 * WORD - 2 * WORD) with a by lia.
Qed.

Lemma used_block_hdr_unknown_spec (Q : Z -> St -> Prop) :
  Q a s -> wp (used_block_hdr_for_allocation_unknown_align (a_ptr al)) s Q.
Proof.
  intros HQ. destruct (used_header _ _ _ _ _ _ _ _ HR HI) as (Ha & Hda & [_ _ Hal] & Hu & Hw & Hwp & Hpad).
  cbn [bkind bsize] in *. destruct (used_ptr a sz al Ha Hda Hal Hu) as (Hp & HdW & Hg).
  pose proof Hal as [_ _ Hs Hsm H0 He]. pose proof WORD_pos. pose proof GRANULARITY_WORD as EG.
  unfold used_block_hdr_for_allocation_unknown_align, size_of_UsedBlockHdr.
  rewrite get_for_allocation_ok, wrapping_sub_small by (unfold is_usize; lia).
  rewrite wrapping_add_small by (unfold is_usize; lia).
  replace (a_ptr al - 2 * WORD + WORD) with (a_ptr al - WORD) by lia.
  apply wp_bind, wp_check; [by rewrite Z.eqb_refl|]. apply wp_bind.
  destruct (Z.lt_ge_cases (a_align al) GRANULARITY) as [Hlt|Hge].
  - rewrite (Hsm Hlt) in *. replace (a + 2 * WORD - WORD) with (a + WORD) in * by lia.
    replace (a + 2 * WORD - 2 * WORD) with a by lia.
    eapply wp_read_ptr; [lia|done|exact Hwp|]. pose proof HI as [HW [Hrp _]%Forall_cons _].
    destruct (region_prev HR HW _ Hrp) as [[_ ->]|(l & pb & _ & -> & Hge & Hc & Hb & Hwb)]; [by apply wp_ret|].
    destruct Hb as [_ Hpos _]. pose proof (region_ok HR HW) as []. pose proof (flags_range (bkind pb)).
    rewrite (proj2 (Z.eqb_neq _ 0)) by lia. simpl. apply wp_bind. eapply wp_get_size; [lia|done|exact Hwb|].
    wp_pure uadd_ok; [lia|]. rewrite (proj2 (Z.ltb_lt _ _)) by lia. by apply wp_ret.
  - destruct (Hg Hge) as [Hgp Hgs]. specialize (Hpad Hge).
    eapply wp_read_ptr; [lia|done|exact Hpad|]. rewrite (proj2 (Z.eqb_neq _ 0)) by lia. simpl.
    apply wp_bind. eapply wp_get_size; [lia|done|exact Hw|]. change (flags (Used al)) with SIZE_USED. unfold SIZE_USED.
    wp_pure uadd_ok; [lia|]. rewrite (proj2 (Z.ltb_ge _ _)) by lia. by eapply wp_read_ptr; [lia|..].
Qed.

Lemma size_of_allocation_block_spec (Q : Z -> St -> Prop) :
  Q (a + sz - a_ptr al) s -> wp (size_of_allocation_in_block (a_ptr al) a) s Q.
Proof.
  intros HQ. destruct (used_header _ _ _ _ _ _ _ _ HR HI) as (Ha & Hda & [Hd Hpos Hal] & Hu & Hw & _).
  cbn [bkind bsize] in *. pose proof Hal as [_ _ Hs _ H0 He]. pose proof GRANULARITY_pos.
  change (flags (Used al)) with SIZE_USED in Hw. unfold size_of_allocation_in_block.
  apply wp_bind. eapply wp_get_size; [lia|done|exact Hw|]. unfold SIZE_USED at 1.
  wp_pure usub_ok; [unfold SIZE_USED; lia|]. replace (sz + SIZE_USED - SIZE_USED) with sz by lia.
  apply wp_bind, wp_check.
  { apply Z.eqb_eq. symmetry. apply (size_mask sz (Used al)); [done|]. unfold is_usize. simpl. unfold flags, SIZE_USED. lia. }
  wp_pure uadd_ok; [lia|]. by eapply wp_lift; [apply usub_ok; lia|].
Qed.

End Used.

(** ** The entry points *)

Definition freed (s s' : St) (Ps : list pool) (al : alloc) : Prop :=
  exists Ps', post s s' Ps Ps' (live Ps') /\ live Ps ≡ₚ al :: live Ps'.

Lemma deallocate_found (find : M St Z) s Ps al :
  Inv s Ps -> al ∈ live Ps ->
  (forall st l1 sz l2 Ps0 a (Q : Z -> St -> Prop),
     region_at st l1 [mkBlock sz (Used al)] a (a + sz) ->
     Inv s (mkPool st (l1 ++ [mkBlock sz (Used al)] ++ l2) :: Ps0) -> Q a s -> wp find s Q) ->
  wp (block ← find; deallocate_block block) s (fun _ s' => freed s s' Ps al).
Proof.
  intros HI Hin Hf. destruct (find_used Ps al Hin) as (st & l1 & sz & l2 & Ps0 & a & HP & HR).
  rewrite HP in HI. apply wp_bind. eapply Hf; [exact HR|exact HI|].
  eapply deallocate_block_spec; [exact HR|exact HI|]. intros s' p' Hpost Hal.
  exists (p' :: Ps0). split; [by eapply post_perm|].
  rewrite HP, !live_cons, Hal. simpl. rewrite allocs_app. simpl. solve_Permutation.
Qed.

Lemma deallocate_spec s Ps al :
  Inv s Ps -> al ∈ live Ps ->
  wp (deallocate (a_ptr al) (a_align al)) s (fun _ s' => freed s s' Ps al).
Proof.
  intros HI Hin. apply deallocate_found; [done|done|]. intros. by eapply used_block_hdr_spec.
Qed.

Lemma deallocate_unknown_spec s Ps al :
  Inv s Ps -> al ∈ live Ps ->
  wp (deallocate_unknown_align (a_ptr al)) s (fun _ s' => freed s s' Ps al).
Proof.
  intros HI Hin. apply deallocate_found; [done|done|]. intros. by eapply used_block_hdr_unknown_spec.
Qed.

(** The usable bytes end where the block of the allocation ends, which is where
    the header of the next block starts.  They cover the size asked for, and
    are in the pools and in no other payload. *)
Definition usable (Ps : list pool) (al : alloc) (n : Z) : Prop :=
  a_size al <= n /\
  (exists p l1 sz l2, p ∈ Ps /\ p_body p = l1 ++ mkBlock sz (Used al) :: l2 /\
     a_ptr al + n = p_start p + total l1 + sz) /\
  forall x, a_ptr al <= x < a_ptr al + n ->
    in_pools Ps x /\ ~ link_area (all_frees Ps) x /\
    forall al', al' ∈ live Ps -> payload al' x -> al' = al.

Lemma block_usable st l1 sz al l2 Ps a s :
  region_at st l1 [mkBlock sz (Used al)] a (a + sz) ->
  Inv s (mkPool st (l1 ++ [mkBlock sz (Used al)] ++ l2) :: Ps) ->
  usable (mkPool st (l1 ++ [mkBlock sz (Used al)] ++ l2) :: Ps) al (a + sz - a_ptr al).
Proof.
  intros HR HI. destruct (used_header _ _ _ _ _ _ _ _ HR HI) as (Ha & Hda & [_ _ Hal] & _ & _).
  destruct HI as [HW _ _]. pose proof Hal as [_ _ Hs _ H0 He]. cbn [bsize bkind] in *. pose proof WORD_pos.
  split_and!; [lia| |].
  { eexists _, l1, sz, l2. split_and!; [left|done|]. destruct HR as [E _]. simpl. lia. }
  intros x Hx. destruct (step_area_changes HR HW x) as [Hin Hno]; [right; left; lia|].
  split_and!; [by apply writable_in_pools| |].
  - destruct HR as [E1 E2]. intros (c & n & Hc & Hx').
    rewrite (all_frees_region st l1 _ l2 Ps a (a + sz)) in Hc by done. simpl in Hc.
    eapply (outer_links (conj E1 E2) HW x); [by exists c, n|lia].
  - intros al' Hal' Hp. destruct (decide (al' = al)) as [|Hne]; [done|]. destruct (Hno al'); [|done].
    rewrite live_cons in Hal'; simpl in Hal'. rewrite allocs_app in Hal'. simpl in Hal'. set_solver.
Qed.

Lemma usable_perm Ps Ps' al n : Ps ≡ₚ Ps' -> usable Ps al n -> usable Ps' al n.
Proof.
  intros HP (H1 & (p & l1 & sz & l2 & Hp & Hb) & H2). split_and!; [done|exists p, l1, sz, l2; by rewrite <- HP|]. intros x Hx. destruct (H2 x Hx) as (Hi & Hl & Hal).
  split_and!; [by rewrite <- HP| |].
  - intros Hx'. apply Hl. eapply link_area_sub; [|exact Hx']. by rewrite HP.
  - intros al' Hal'. apply Hal. by rewrite HP.
Qed.

Lemma size_found (find : M St Z) s Ps al :
  Inv s Ps -> al ∈ live Ps ->
  (forall st l1 sz l2 Ps0 a (Q : Z -> St -> Prop),
     region_at st l1 [mkBlock sz (Used al)] a (a + sz) ->
     Inv s (mkPool st (l1 ++ [mkBlock sz (Used al)] ++ l2) :: Ps0) -> Q a s -> wp find s Q) ->
  wp (block ← find; size_of_allocation_in_block (a_ptr al) block) s (fun n s' => s' = s /\ usable Ps al n).
Proof.
  intros HI Hin Hf. destruct (find_used Ps al Hin) as (st & l1 & sz & l2 & Ps0 & a & HP & HR).
  rewrite HP in HI. apply wp_bind. eapply Hf; [exact HR|exact HI|].
  eapply size_of_allocation_block_spec; [exact HR|exact HI|]. split; [done|].
  eapply usable_perm; [symmetry; exact HP|]. by eapply block_usable.
Qed.

Lemma size_of_allocation_spec s Ps al :
  Inv s Ps -> al ∈ live Ps ->
  wp (size_of_allocation (a_ptr al) (a_align al)) s (fun n s' => s' = s /\ usable Ps al n).
Proof. intros HI Hin. apply size_found; [done|done|]. intros. by eapply used_block_hdr_spec. Qed.

Lemma size_of_allocation_unknown_spec s Ps al :
  Inv s Ps -> al ∈ live Ps ->
  wp (size_of_allocation_unknown_align (a_ptr al)) s (fun n s' => s' = s /\ usable Ps al n).
Proof. intros HI Hin. apply size_found; [done|done|]. intros. by eapply used_block_hdr_unknown_spec. Qed.

End DeallocSpecs.

(** ** Properties *)

Section DeallocProperties.
Context {T : Target} {P : TlsfParams} {Pok : ParamsOk P}.

(** C3: [deallocate] of a live allocation with its alignment returns, and the
    allocation is the only one that is gone: the invariant (with the block
    merged with its free neighbours) holds again and no other payload, nor any
    byte outside the pools, changed. *)
Theorem deallocate_correct s Ps al :
  Inv s Ps -> al ∈ live Ps ->
  wp (deallocate (a_ptr al) (a_align al)) s (fun _ s' =>
    exists Ps', post s s' Ps Ps' (live Ps') /\ live Ps ≡ₚ al :: live Ps').
Proof. apply deallocate_spec. Qed.

(** C33: [used_block_hdr_for_allocation_unknown_align] finds the same header as
    [used_block_hdr_for_allocation] with the right alignment, for every live
    allocation, reading initialised memory only. *)
Theorem unknown_align_agrees s Ps al :
  Inv s Ps -> al ∈ live Ps ->
  exists a, used_block_hdr_for_allocation_unknown_align (a_ptr al) s = Ok (a, s) /\
    used_block_hdr_for_allocation (a_ptr al) (a_align al) s = Ok (a, s).
Proof.
  intros HI Hin. destruct (find_used Ps al Hin) as (st & l1 & sz & l2 & Ps0 & a & HP & HR). rewrite HP in HI.
  exists a. split.
  - destruct (used_block_hdr_unknown_spec HR HI (fun x s' => x = a /\ s' = s)) as (? & ? & E & -> & ->); done.
  - destruct (used_block_hdr_spec HR HI (fun x s' => x = a /\ s' = s)) as (? & ? & E & -> & ->); done.
Qed.

(** C34: The usable size reported for a live allocation is exact: the usable
    bytes end with the block of the allocation, at the header of the next one.
    They cover the size asked for, are in the pools, hold no free-list link
    and belong to no other allocation. *)
Theorem usable_size_correct s Ps al :
  Inv s Ps -> al ∈ live Ps ->
  wp (allocation_usable_size (a_ptr al)) s (fun n s' => s' = s /\ usable Ps al n).
Proof. apply size_of_allocation_unknown_spec. Qed.

End DeallocProperties.
