(* ===== verification/Insert.v ===== *)
(** * tlsf.rs: creating and extending memory pools

    [insert_free_block_ptr] and [insert_free_block_ptr_aligned], which turn a
    memory block into pools of admissible size, and [append_free_block_ptr],
    which extends a pool by the memory that follows it. *)

From S2P Require Import Prelude Usize BinInteger SizeClass Machine Header FreeIndex Pool Region Alloc Dealloc.

Section InsertOps.
Context {T : Target} {P : TlsfParams}.

(** One pool of [chunk_size] bytes: a free block closed by a sentinel. *)
Definition insert_chunk (cursor chunk_size : Z) : M St unit :=
  lift (check (chunk_size mod GRANULARITY =? 0));;
  lift (check (negb (cursor =? 0)));;
  size ← lift (usub chunk_size GRANULARITY);
  set_common FreeBlockHdr cursor size 0;;
  sentinel_block ← next_phys_block FreeBlockHdr cursor;
  set_common UsedBlockHdr sentinel_block (Z.lor (Z.lor GRANULARITY SIZE_USED) SIZE_SENTINEL) cursor;;
  link_free_block cursor size.

Definition chunk_size_of (size : Z) : Z :=
  match MAX_POOL_SIZE with Some max_pool_size => Z.min size max_pool_size | None => size end.

Fixpoint insert_loop (fuel : nat) (cursor size : Z) : M St Z :=
  if GRANULARITY * 2 <=? size then
    match fuel with
    | O => lift (Fail OutOfFuel)
    | S fuel =>
        let chunk_size := chunk_size_of size in
        insert_chunk cursor chunk_size;;
        lift (check (bool_decide (is_Some (checked_add cursor chunk_size)) || (size =? chunk_size)));;
        size ← lift (usub size chunk_size);
        insert_loop fuel (wrapping_add cursor chunk_size) size
    end
  else mret cursor.

(** A chunk has two granules at least, which bounds the iterations. *)
Definition insert_fuel (size : Z) : nat := Z.to_nat (size / GRANULARITY).

Definition insert_free_block_ptr_aligned (start size : Z) : M St (option Z) :=
  cursor ← insert_loop (insert_fuel size) start size;
  let pool_len := wrapping_sub cursor start in
  mret (if pool_len =? 0 then None else Some pool_len).

Definition insert_free_block_ptr (unaligned_start len : Z) : M St (option Z) :=
  let start := Z.land (wrapping_add unaligned_start (GRANULARITY - 1)) (usize_not (GRANULARITY - 1)) in
  let? x := option_filter (fun x => GRANULARITY * 2 <=? x)
              (checked_sub len (wrapping_sub start unaligned_start)) in
  let len := Z.land x (usize_not (GRANULARITY - 1)) in
  o ← insert_free_block_ptr_aligned start len;
  let? pool_len := o in
  n ← lift (uadd pool_len (wrapping_sub start unaligned_start));
  mret (Some n).

(** [insert_free_block]: the slice is a reference, hence not null. *)
Definition insert_free_block (start len : Z) : M St unit :=
  lift (check (negb (start =? 0)));;
  insert_free_block_ptr start len;;
  mret tt.

(** Take the last free block of the preceding pool, if it ends with one:
    the start of the memory to use and the last block that stays. *)
Definition append_assimilate (start : Z) : M St (Z * Z) :=
  size ← get_size UsedBlockHdr start;
  lift (check (size =? Z.lor (Z.lor GRANULARITY SIZE_USED) SIZE_SENTINEL));;
  penultimate_block ← get_prev_phys_block UsedBlockHdr start;
  lift (check (negb (penultimate_block =? 0)));;
  size ← get_size BlockHdr penultimate_block;
  if Z.land size SIZE_USED =? 0 then
    free_block_size ← get_size FreeBlockHdr penultimate_block;
    lift (check (free_block_size =? Z.land free_block_size SIZE_SIZE_MASK));;
    unlink_free_block penultimate_block free_block_size;;
    last_nonassimilated_block ← get_prev_phys_block FreeBlockHdr penultimate_block;
    mret (penultimate_block, last_nonassimilated_block)
  else mret (start, penultimate_block).

Definition append_free_block_ptr (start len : Z) : M St Z :=
  let len := Z.land len (usize_not (GRANULARITY - 1)) in
  if bool_decide (is_Some MAX_POOL_SIZE) then
    o ← insert_free_block_ptr_aligned start len;
    mret (default 0 o)
  else if len =? 0 then mret 0
  else
    let original_start := start in
    let end_ := wrapping_add start len in
    '(start, last_nonassimilated_block) ← append_assimilate (wrapping_sub start GRANULARITY);
    o ← insert_free_block_ptr_aligned start (wrapping_sub end_ start);
    pool_len ← lift (expect o);
    set_prev_phys_block FreeBlockHdr start last_nonassimilated_block;;
    lift (usub pool_len (wrapping_sub original_start start)).

End InsertOps.

Section InsertSpecs.
Context {T : Target} {P : TlsfParams} {Pok : ParamsOk P}.

Lemma sentinel_word : Z.lor (Z.lor GRANULARITY SIZE_USED) SIZE_SENTINEL = bsize sentinel + flags (bkind sentinel).
Proof.
  destruct GRANULARITY_pow as [EG HG]. pose proof GRANULARITY_pos. unfold sentinel, flags, SIZE_USED, SIZE_SENTINEL; simpl.
  rewrite <- Z.lor_assoc. change (Z.lor 1 2) with 3.
  rewrite Z.lor_comm, (lor_disjoint_add _ _ GRANULARITY_LOG2); [lia|lia|lia|]. by rewrite <- EG.
Qed.

Definition admissible (len : Z) : Prop := match MAX_POOL_SIZE with Some mx => len <= mx | None => True end.

(** What the memory given to the allocator must be. *)
Record chunk_ok (m : Mem) (F : list (Z * Z)) (cursor chunk : Z) : Prop := {
  ck_pos : 0 < cursor;
  ck_aligned : (GRANULARITY | cursor);
  ck_size : (GRANULARITY | chunk);
  ck_min : 2 * GRANULARITY <= chunk;
  ck_usize : cursor + chunk <= USIZE_MOD;
  ck_max : admissible chunk;
  ck_mapped : mapped m cursor chunk;
  ck_links x : link_area F x -> ~ cursor <= x < cursor + chunk;
  ck_fresh : cursor ∉ F.*1
}.

Lemma insert_chunk_spec cursor chunk F s (Q : unit -> St -> Prop) :
  chunk_ok (st_mem s) F cursor chunk -> FreeIndex (st_tlsf s) (st_mem s) F ->
  (forall s', FreeIndex (st_tlsf s') (st_mem s') ((cursor, chunk - GRANULARITY) :: F) ->
     mem_step (fun x => link_area F x \/ cursor <= x < cursor + chunk - 2 * WORD) (st_mem s) (st_mem s') ->
     rep (st_mem s') cursor 0 [mkBlock (chunk - GRANULARITY) Free; sentinel] -> Q tt s') ->
  wp (insert_chunk cursor chunk) s Q.
Proof.
  intros [Hp Hd Hsz Hmin Hu Hmax Hm Hl Hfr] Hi HQ. pose proof WORD_pos. pose proof GRANULARITY_WORD as EG.
  pose proof GRANULARITY_pos as Hgp.
  assert (Hdn : (GRANULARITY | chunk - GRANULARITY)) by (apply Z.divide_sub_r; [done|apply Z.divide_refl]).
  assert (Hds : (GRANULARITY | cursor + (chunk - GRANULARITY))) by by apply Z.divide_add_r.
  assert (Hb : wf_block cursor (mkBlock (chunk - GRANULARITY) Free)) by (split; simpl; [done|lia|done]).
  unfold insert_chunk. apply wp_bind, wp_check; [apply Z.eqb_eq, Z.mod_divide; [lia|done]|].
  apply wp_bind, wp_check; [by rewrite (proj2 (Z.eqb_neq _ _)) by lia|]. wp_pure usub_ok; [lia|].
  apply wp_bind, wp_bind, wp_set_size; [lia|done|eapply mapped_sub; [done|lia|lia]|unfold is_usize; lia|].
  intros m1 Hs1 Hw1. apply wp_set_prev_phys; [lia|done| |unfold is_usize; lia|].
  { eapply mapped_step; [exact Hs1|]. eapply mapped_sub; [done|lia|lia]. }
  intros m2 Hs2 Hw2. step_words Hs2.
  apply wp_bind. eapply (wp_next_phys_block _ cursor (mkBlock (chunk - GRANULARITY) Free)); simpl; [lia|done|done|done| |lia|].
  { by rewrite flags_Free, Z.add_0_r. }
  rewrite sentinel_word. set (w := bsize sentinel + flags (bkind sentinel)).
  assert (Hw0 : is_usize w) by (unfold w, sentinel, flags, is_usize, SIZE_USED, SIZE_SENTINEL; simpl; lia).
  apply wp_bind, wp_bind, wp_set_size; simpl; [lia|done| |done|].
  { do 2 (eapply mapped_step; [eassumption|]). eapply mapped_sub; [done|lia|lia]. }
  intros m3 Hs3 Hw3. step_words Hs3. apply wp_set_prev_phys; simpl; [lia|done| |unfold is_usize; lia|].
  { do 3 (eapply mapped_step; [eassumption|]). eapply mapped_sub; [done|lia|lia]. }
  intros m4 Hs4 Hw4. step_words Hs4.
  apply (link_free_block_spec _ _ _ F); simpl; [|done| |].
  - do 4 (eapply FreeIndex_step; [eassumption|intros ???; avoid|]). done.
  - split; [done|done|lia| |split; [lia|done]|].
    + do 4 (eapply mapped_step; [eassumption|]). eapply mapped_sub; [done|lia|lia].
    + apply map_floor_pool; [split; [lia|done]|]. unfold admissible in Hmax. destruct MAX_POOL_SIZE; [lia|done].
  - intros s' Hi' Hs5.
    assert (Hs5' : mem_step (fun x => cursor + 2 * WORD <= x < cursor + 4 * WORD \/ link_area F x) m4 (st_mem s'))
      by (eapply mem_step_weaken; [exact Hs5|in_area]). clear Hs5. step_words Hs5'. apply HQ; [done|chain_steps|].
    unfold rep, rep_block; simpl. rewrite flags_Free, Z.add_0_r. by split_and!.
Qed.

(** Memory the allocator does not own yet. *)
Definition fresh (Ps : list pool) (a len : Z) : Prop :=
  forall p, p ∈ Ps -> len <= 0 \/ p_end p <= a \/ a + len <= p_start p.

Lemma fresh_frees Ps a len c sz :
  wf_pools Ps -> fresh Ps a len -> (c, sz) ∈ all_frees Ps ->
  GRANULARITY <= sz /\ (len <= 0 \/ c + sz + GRANULARITY <= a \/ a + len <= c).
Proof.
  intros [Hw _] Hf (p & Hp & Hin)%elem_of_all_frees. rewrite Forall_forall in Hw.
  apply frees_range in Hin; [|apply (Hw p Hp)]. specialize (Hf p Hp). unfold p_end in Hf.
  rewrite p_len_eq in Hf. pose proof GRANULARITY_pos. lia.
Qed.

Lemma fresh_links Ps a len x :
  wf_pools Ps -> fresh Ps a len -> link_area (all_frees Ps) x -> ~ a <= x < a + len.
Proof.
  intros Hw Hf (c & sz & Hin & Hx). eapply fresh_frees in Hin; [|done|exact Hf].
  pose proof WORD_pos. rewrite GRANULARITY_WORD in Hin. lia.
Qed.

Lemma fresh_not_in Ps a len : wf_pools Ps -> fresh Ps a len -> 0 < len -> a ∉ (all_frees Ps).*1.
Proof.
  intros Hw Hf Hl ([c sz] & -> & Hin)%list_elem_of_fmap. eapply fresh_frees in Hin; [|done|exact Hf].
  simpl in *. pose proof GRANULARITY_pos. lia.
Qed.

Definition new_pool (a len : Z) : pool := mkPool a [mkBlock (len - GRANULARITY) Free].

Lemma new_pool_len a len : p_len (new_pool a len) = len.
Proof. rewrite p_len_eq. simpl. lia. Qed.

Lemma new_pool_wf m F Ps a len :
  chunk_ok m F a len -> fresh Ps a len -> wf_pools Ps -> wf_pools (new_pool a len :: Ps).
Proof.
  intros [Hp Hd Hsz Hmin Hu Hmax _ _ _] Hf [Hw Hdis]. pose proof GRANULARITY_pos. split.
  - constructor; [|done]. split; simpl; try done.
    + unfold p_end. rewrite new_pool_len. done.
    + split; [|done]. split; simpl; [apply Z.divide_sub_r; [done|apply Z.divide_refl]|lia|done].
    + by repeat constructor.
    + by rewrite new_pool_len.
  - constructor; [|done]. rewrite Forall_forall. intros q Hq. destruct (Hf q Hq); unfold pools_disjoint, p_end at 1;
      rewrite new_pool_len; simpl; lia.
Qed.

(** Pools side by side. *)
Fixpoint tiled (a : Z) (l : list pool) (b : Z) : Prop :=
  match l with [] => a = b | p :: l => p_start p = a /\ tiled (p_end p) l b end.

(** The pools [news] were created on [[a, b)], nothing else changed. *)
Record inserted (s s' : St) (Ps news : list pool) (a b : Z) : Prop := {
  ins_inv : Inv s' (news ++ Ps);
  ins_tiled : tiled a news b;
  ins_live : live news = [];
  ins_mem : mem_step (fun x => changes Ps (live Ps) x \/ a <= x < b - 2 * WORD) (st_mem s) (st_mem s')
}.

(** A free block that, with a sentinel, takes [n] bytes. *)
Definition has_room (Ps : list pool) (n : Z) : Prop :=
  exists a sz, (a, sz) ∈ all_frees Ps /\ n <= sz + GRANULARITY.

Lemma has_room_le Ps n k : has_room Ps n -> k <= n -> has_room Ps k.
Proof. intros (a & sz & Hin & Hn) Hk. exists a, sz. split; [done|lia]. Qed.

Lemma has_room_sub Ps Ps' n : Ps ⊆ Ps' -> has_room Ps n -> has_room Ps' n.
Proof.
  intros Hs (a & sz & (p & Hp & Hin)%elem_of_all_frees & Hn). exists a, sz. split; [|done].
  apply elem_of_all_frees. exists p. split; [by apply Hs|done].
Qed.

Lemma new_pool_room a len Ps : has_room (new_pool a len :: Ps) len.
Proof. exists a, (len - GRANULARITY). split; [|lia]. rewrite all_frees_cons. set_solver. Qed.

Lemma insert_pool_spec cursor chunk s Ps (Q : unit -> St -> Prop) :
  Inv s Ps -> fresh Ps cursor chunk -> chunk_ok (st_mem s) (all_frees Ps) cursor chunk ->
  (forall s', inserted s s' Ps [new_pool cursor chunk] cursor (cursor + chunk) -> Q tt s') ->
  wp (insert_chunk cursor chunk) s Q.
Proof.
  intros [Hw Hrep Hi] Hf Hck HQ. pose proof (new_pool_wf _ _ _ _ _ Hck Hf Hw) as Hw'.
  eapply insert_chunk_spec; [exact Hck|exact Hi|]. intros s' Hi' Hs Hr. apply HQ. split.
  - split; [done| |done]. constructor.
    + split; [exact Hr|]. rewrite new_pool_len. eapply mapped_step; [exact Hs|]. apply Hck.
    + rewrite Forall_forall in *. intros p Hp. eapply rep_pool_step; [exact Hw|done|exact Hs| |auto].
      intros x [Hx|Hx] Hfo; [by apply (foot_not_links Ps p x Hw Hp Hfo)|]. apply foot_pool_range in Hfo.
      * pose proof WORD_pos. destruct (Hf p Hp); lia.
      * destruct Hw as [Hw _]. rewrite Forall_forall in Hw. auto.
  - simpl. unfold p_end. rewrite new_pool_len. done.
  - done.
  - eapply mem_step_weaken; [exact Hs|]. intros x [Hx|Hx]; [left|by right]. by eapply links_changes.
Qed.

Lemma chunk_size_of_spec size :
  (GRANULARITY | size) -> 2 * GRANULARITY <= size ->
  2 * GRANULARITY <= chunk_size_of size <= size /\ (GRANULARITY | chunk_size_of size) /\
  admissible (chunk_size_of size).
Proof.
  intros Hd Hs. unfold chunk_size_of, admissible. rewrite MAX_POOL_SIZE_eq.
  destruct VALID_inv as (HF & _). destruct GRANULARITY_pow as [EG HG]. case_bool; [|done].
  assert (2 * GRANULARITY <= 2 ^ (GRANULARITY_LOG2 + FLLEN)).
  { rewrite EG, <- pow2_succ by lia. apply pow2_le. lia. }
  assert ((GRANULARITY | 2 ^ (GRANULARITY_LOG2 + FLLEN))).
  { rewrite EG. apply pow2_divide_le; [lia|lia|apply pow2_le; lia]. }
  split_and!; try lia. by destruct (Z.min_spec size (2 ^ (GRANULARITY_LOG2 + FLLEN))) as [[_ ->]|[_ ->]].
Qed.

Lemma chunk_size_of_mono k n : k <= n -> chunk_size_of k <= chunk_size_of n.
Proof. unfold chunk_size_of. destruct MAX_POOL_SIZE; lia. Qed.

(** Free memory that the loop cuts into pools. *)
Record raw_ok (m : Mem) (Ps : list pool) (a len : Z) : Prop := {
  raw_pos : 0 < a;
  raw_aligned : (GRANULARITY | a);
  raw_size : (GRANULARITY | len);
  raw_nonneg : 0 <= len;
  raw_usize : a + len <= USIZE_MOD;
  raw_mapped : mapped m a len;
  raw_fresh : fresh Ps a len
}.

Lemma raw_chunk m Ps a len :
  wf_pools Ps -> raw_ok m Ps a len -> 2 * GRANULARITY <= len ->
  chunk_ok m (all_frees Ps) a (chunk_size_of len) /\ fresh Ps a (chunk_size_of len).
Proof.
  intros Hw [H1 H2 H3 H4 H5 H6 H7] Hlen. destruct (chunk_size_of_spec len H3 Hlen) as (Hc & Hd & Ha).
  pose proof GRANULARITY_pos.
  assert (Hf : fresh Ps a (chunk_size_of len)) by (intros p Hp; destruct (H7 p Hp); lia). split; [|done].
  split; try done; try lia.
  - eapply mapped_sub; [exact H6|lia|lia].
  - intros x Hx. by eapply fresh_links.
  - eapply fresh_not_in; [done|exact Hf|lia].
Qed.

Lemma inserted_trans s s1 s2 Ps p news a b c :
  p_start p = a -> p_end p = b -> b <= c -> a <= b ->
  inserted s s1 Ps [p] a b -> inserted s1 s2 (p :: Ps) news b c -> inserted s s2 Ps (p :: news) a c.
Proof.
  intros Ea Eb Hbc Hab [_ _ Hl1 Hm1] [Hi Ht Hl Hm]. split.
  - by rewrite <- app_comm_cons, Permutation_middle.
  - split; [done|]. by rewrite Eb.
  - rewrite live_cons in *. simpl in Hl1. rewrite app_nil_r in Hl1. by rewrite Hl1, Hl.
  - pose proof WORD_pos. eapply mem_step_trans; (eapply mem_step_weaken; [eassumption|]); intros x [Hx|Hx]; auto; [right; lia| |right; lia].
    destruct Hx as [(q & [->|Hq]%elem_of_cons & Hq') Hk]; [right; lia|left]. split; [by exists q|].
    intros al Hal. apply Hk. rewrite live_cons. set_solver.
Qed.

Lemma insert_loop_spec fuel cursor size s Ps (Q : Z -> St -> Prop) :
  Inv s Ps -> raw_ok (st_mem s) Ps cursor size -> (insert_fuel size <= fuel)%nat ->
  (forall news s' n, inserted s s' Ps news cursor (cursor + n) -> 0 <= n <= size -> size - n < 2 * GRANULARITY ->
     (GRANULARITY | n) -> (2 * GRANULARITY <= size -> has_room news (chunk_size_of size) /\ chunk_size_of size <= n) ->
     Q ((cursor + n) mod USIZE_MOD) s') ->
  wp (insert_loop fuel (cursor mod USIZE_MOD) size) s Q.
Proof.
  revert cursor size s Ps. induction fuel as [|fuel IH]; intros cursor size s Ps HI Hraw Hfu HQ;
    pose proof GRANULARITY_pos as Hgp; pose proof Hraw as [H1 H2 H3 H4 H5 H6 H7]; cbn [insert_loop];
    (destruct (Z.leb_spec (GRANULARITY * 2) size) as [Hge|Hlt];
     [|apply wp_ret; pose proof (HQ [] s 0) as H'; rewrite Z.add_0_r in H'; apply H'; [|lia|lia|apply Z.divide_0_r|lia];
       split; [done|done|done|apply mem_step_refl]]).
  { unfold insert_fuel in Hfu. assert (2 <= size / GRANULARITY) by (apply Z.div_le_lower_bound; lia). lia. }
  assert (Hge2 : 2 * GRANULARITY <= size) by lia.
  destruct (chunk_size_of_spec size H3 Hge2) as (Hc & Hd & _). set (chunk := chunk_size_of size) in *.
  destruct (raw_chunk _ _ _ _ (inv_wf _ _ HI) Hraw Hge2) as [Hck Hfr]. fold chunk in Hck, Hfr.
  rewrite Z.mod_small by lia. apply wp_bind. eapply insert_pool_spec; [exact HI|done|done|].
  intros s1 Hins. apply wp_bind, wp_check.
  { unfold checked_add. destruct (Z.ltb_spec (cursor + chunk) USIZE_MOD); [done|].
    apply orb_true_iff. right. apply Z.eqb_eq. lia. }
  wp_pure usub_ok; [lia|]. unfold wrapping_add. eapply (IH _ _ s1 (new_pool cursor chunk :: Ps)); [apply Hins| | |].
  - split; try lia.
    + by apply Z.divide_add_r. + by apply Z.divide_sub_r.
    + eapply mapped_step; [apply Hins|]. eapply mapped_sub; [exact H6|lia|lia].
    + intros p [->|Hp]%elem_of_cons; [right; left; unfold p_end; rewrite new_pool_len; simpl; lia|].
      destruct (H7 p Hp); lia.
  - unfold insert_fuel in *. assert (Hdm : (size - chunk) / GRANULARITY < size / GRANULARITY).
    { apply Z.div_lt_upper_bound; [lia|]. assert (0 < GRANULARITY) as Hg0 by lia.
      pose proof (Z.mul_succ_div_gt size GRANULARITY Hg0). lia. }
    pose proof (Z.div_pos (size - chunk) GRANULARITY). lia.
  - intros news s2 n Hi2 Hn Hr Hdn _. replace (cursor + chunk + n) with (cursor + (chunk + n)) in * by lia.
    eapply HQ; [|lia|lia|by apply Z.divide_add_r|intros _; split; [apply new_pool_room|lia]]. eapply inserted_trans; [| | | |exact Hins|exact Hi2]; try lia; [done|].
    unfold p_end. rewrite new_pool_len. done.
Qed.

Lemma insert_loop_small fuel cursor size : size < 2 * GRANULARITY -> insert_loop fuel cursor size = mret cursor.
Proof. intros. destruct fuel; simpl; by rewrite (proj2 (Z.leb_gt _ _)) by lia. Qed.

Lemma insert_aligned_spec start size s Ps (Q : option Z -> St -> Prop) :
  Inv s Ps -> raw_ok (st_mem s) Ps start size ->
  (size < 2 * GRANULARITY -> Q None s) ->
  (forall news s' n, inserted s s' Ps news start (start + n) -> 0 < n <= size -> size - n <= GRANULARITY ->
     has_room news (chunk_size_of size) -> chunk_size_of size <= n -> Q (Some n) s') ->
  wp (insert_free_block_ptr_aligned start size) s Q.
Proof.
  intros HI Hraw HN HS. pose proof Hraw as [H1 _ _ H4 H5 _ _]. pose proof GRANULARITY_pos.
  unfold insert_free_block_ptr_aligned. apply wp_bind. destruct (Z.lt_ge_cases size (2 * GRANULARITY)) as [Hlt|Hge].
  - rewrite insert_loop_small by done. apply wp_ret, wp_ret.
    rewrite wrapping_sub_small, Z.sub_diag by (unfold is_usize; pose proof USIZE_MOD_large; pose proof WORD_pos; lia).
    by apply HN.
  - rewrite <- (Z.mod_small start USIZE_MOD) at 1 by lia. eapply insert_loop_spec; [done|done|done|].
    intros news s' n Hins Hn Hr Hdn Hrm. apply wp_ret. unfold wrapping_sub. rewrite Zminus_mod_idemp_l.
    replace (start + n - start) with n by lia. rewrite Z.mod_small by lia.
    rewrite (proj2 (Z.eqb_neq _ _)) by lia. destruct (Hrm ltac:(lia)). eapply HS; [done|lia| |done|done].
    destruct (Z.le_gt_cases (size - n) GRANULARITY) as [|Hgt]; [done|]. assert (Hg0 : 0 < GRANULARITY) by lia.
    assert (Hds : (GRANULARITY | size - n)) by (apply Z.divide_sub_r; [apply Hraw|done]).
    pose proof (divide_gap GRANULARITY _ _ Hg0 (Z.divide_refl _) Hds Hgt). lia.
Qed.

(** Memory passed as a slice: any alignment. *)
Record slice_ok (m : Mem) (Ps : list pool) (a len : Z) : Prop := {
  slice_pos : 0 < a;
  slice_len : 0 <= len;
  slice_usize : a + len <= USIZE_MOD;
  slice_mapped : mapped m a len;
  slice_fresh : fresh Ps a len
}.

Lemma raw_of_slice m Ps a len b n :
  slice_ok m Ps a len -> a <= b -> 0 <= n -> b + n <= a + len -> (GRANULARITY | b) -> (GRANULARITY | n) ->
  raw_ok m Ps b n.
Proof.
  intros [H1 H2 H3 H4 H5] Hb Hn He Hdb Hdn. split; try done; try lia.
  - eapply mapped_sub; [exact H4|lia|lia].
  - intros p Hp. destruct (H5 p Hp); lia.
Qed.

(** Rounding the length of a slice down. *)
Lemma granule_down x :
  is_usize x -> let y := Z.land x (usize_not (GRANULARITY - 1)) in
  0 <= y <= x /\ x - y < GRANULARITY /\ (GRANULARITY | y).
Proof.
  intros Hx. destruct GRANULARITY_pow as [EG HG]. pose proof GRANULARITY_bits. pose proof GRANULARITY_pos.
  assert (E : Z.land x (usize_not (GRANULARITY - 1)) = x - x mod GRANULARITY)
    by (rewrite EG; apply land_usize_not; [lia|done]).
  simpl. rewrite E. assert (Hg0 : 0 < GRANULARITY) by lia. unfold is_usize in Hx.
  pose proof (Z.mod_pos_bound x GRANULARITY Hg0). pose proof (Z.mod_le x GRANULARITY (proj1 Hx) Hg0).
  split_and!; [lia|lia|lia|]. apply Z.mod_divide; [lia|].
  by rewrite Zminus_mod, Z.mod_mod, Z.sub_diag by lia.
Qed.

Lemma insert_spec a len s Ps (Q : option Z -> St -> Prop) :
  Inv s Ps -> slice_ok (st_mem s) Ps a len ->
  (a + len < round_up GRANULARITY a + 2 * GRANULARITY -> Q None s) ->
  (forall news s' n, inserted s s' Ps news (round_up GRANULARITY a) (a + n) ->
     round_up GRANULARITY a < a + n -> n <= len -> len - n < 2 * GRANULARITY ->
     (forall k, (GRANULARITY | k) -> round_up GRANULARITY a + k <= a + len -> has_room news (chunk_size_of k)) ->
     Q (Some n) s') ->
  wp (insert_free_block_ptr a len) s Q.
Proof.
  intros HI Hsl HN HS. pose proof Hsl as [H1 H2 H3 _ _]. pose proof GRANULARITY_pos. assert (Hg0 : 0 < GRANULARITY) by lia.
  destruct (round_up_spec GRANULARITY a Hg0) as [Hr Hrd]. unfold insert_free_block_ptr.
  destruct (Z.lt_ge_cases (a + (GRANULARITY - 1)) USIZE_MOD) as [Hsm|Hwr].
  - rewrite wrapping_add_small by (unfold is_usize; lia).
    rewrite granule_mask by (unfold is_usize; lia). rewrite wrapping_sub_small by (unfold is_usize; lia).
    set (st := round_up GRANULARITY a) in *. unfold checked_sub.
    destruct (Z.leb_spec (st - a) len) as [Hle|Hgt]; simpl; [|apply wp_ret, HN; lia].
    destruct (Z.leb_spec (GRANULARITY * 2) (len - (st - a))) as [Hge|Hlt]; [|apply wp_ret, HN; lia].
    destruct (granule_down (len - (st - a))) as (Hy & Hy' & Hyd); [unfold is_usize; lia|].
    set (y := Z.land (len - (st - a)) (usize_not (GRANULARITY - 1))) in *. apply wp_bind.
    eapply insert_aligned_spec; [exact HI|eapply raw_of_slice; [exact Hsl|lia|lia|lia|done|done]| |].
    + intros Hsm'. assert (GRANULARITY + GRANULARITY <= y); [|lia].
      apply divide_gap; [lia|apply Z.divide_refl|done|lia].
    + intros news s' n Hins Hn Hrem Hrm _. wp_pure uadd_ok; [lia|]. apply wp_ret.
      eapply HS; [by replace (a + (n + (st - a))) with (st + n) by lia|lia|lia|lia|].
      intros k Hk Hkl. eapply has_room_le; [exact Hrm|]. apply chunk_size_of_mono.
      destruct (Z.le_gt_cases k y) as [|Hgt]; [done|]. pose proof (divide_gap GRANULARITY _ _ Hg0 Hyd Hk Hgt). lia.
  - (* the rounded address wraps around: nothing is left *)
    pose proof USIZE_MOD_large as Hlg. pose proof WORD_pos. pose proof GRANULARITY_WORD.
    assert (Es : Z.land (wrapping_add a (GRANULARITY - 1)) (usize_not (GRANULARITY - 1)) = 0).
    { assert (Ew : wrapping_add a (GRANULARITY - 1) = a + (GRANULARITY - 1) - USIZE_MOD).
      { unfold wrapping_add. symmetry. apply (Z.mod_unique_pos _ _ 1); lia. }
      rewrite Ew. destruct (granule_down (a + (GRANULARITY - 1) - USIZE_MOD)) as (Hy & _ & Hyd); [unfold is_usize; lia|].
      destruct (Z.lt_ge_cases 0 (Z.land (a + (GRANULARITY - 1) - USIZE_MOD) (usize_not (GRANULARITY - 1)))); [|lia].
      apply divide_pos_le in Hyd; lia. }
    rewrite Es. assert (Ew : wrapping_sub 0 a = USIZE_MOD - a).
    { unfold wrapping_sub. symmetry. apply (Z.mod_unique_pos _ _ (-1)); lia. }
    rewrite Ew. unfold checked_sub. destruct (Z.leb_spec (USIZE_MOD - a) len); simpl; [|apply wp_ret, HN; lia].
    rewrite (proj2 (Z.leb_gt _ _)) by lia. apply wp_ret, HN. lia.
Qed.

(** ** Extending a pool *)

(** The blocks [K] of the pool that stay, and the free block at its end. *)
Definition tail_split (p : pool) (K fr : list block) : Prop :=
  p_body p = K ++ fr /\ maybe_free fr /\ ends_used K.

Lemma tail_region st K fr : region_at st K fr (st + total K) (st + total (K ++ fr)).
Proof. split; [done|]. rewrite total_app. lia. Qed.

Lemma append_assimilate_spec p Ps s (Q : Z * Z -> St -> Prop) :
  Inv s (p :: Ps) ->
  (forall K fr s', tail_split p K fr ->
     Inv_on s' (p :: Ps) (frees (p_start p) K ++ all_frees Ps) ->
     mem_step (link_area (all_frees (p :: Ps))) (st_mem s) (st_mem s') ->
     Q (p_start p + total K, last_block 0 (p_start p) K) s') ->
  wp (append_assimilate (p_end p - GRANULARITY)) s Q.
Proof.
  intros HI HQ. pose proof HI as [HW Hrep _]. apply Inv_on_all in HI as HO. pose proof HW as [[Hwp _]%Forall_cons _].
  destruct p as [st body]. unfold p_end. rewrite p_len_eq. cbn [p_start p_body] in *.
  destruct body as [|pb K _] using rev_ind; [by destruct Hwp|].
  assert (HR : region_at st K [pb] (st + total K) (st + total (K ++ [pb]))) by apply tail_region.
  replace (mkPool st (K ++ [pb])) with (mkPool st (K ++ [pb] ++ [])) in * by (by rewrite app_nil_r).
  pose proof (region_ok HR HW) as []. apply Forall_cons in Hrep as [Hrp _].
  destruct (region_next HR HW _ Hrp) as (b & l & Eb & _ & (Hsw & Hsp & _) & _). simpl in Eb. injection Eb as <- <-.
  destruct (region_rep_mid HR _ Hrp) as [(Hpw & Hpp & _) _]. destruct (region_wf HR HW) as (_ & [Hpb _] & _).
  set (e := st + total (K ++ [pb])) in *. replace (st + (total (K ++ [pb]) + GRANULARITY) - GRANULARITY) with e by lia.
  set (c := st + total K) in *. pose proof Hpb as [Hd Hpos _].
  unfold append_assimilate. apply wp_bind. eapply wp_get_size; [lia|done|exact Hsw|].
  apply wp_bind, wp_check; [rewrite sentinel_word; apply Z.eqb_refl|].
  apply wp_bind. eapply wp_get_prev_phys; [lia|done|exact Hsp|]. cbn [last_block].
  apply wp_bind, wp_check; [by rewrite (proj2 (Z.eqb_neq _ _)) by lia|].
  apply wp_bind. eapply wp_get_size; [lia|done|exact Hpw|]. rewrite flag_free by done.
  destruct (is_free pb) eqn:Ef.
  - destruct pb as [n []]; try done. cbn [bsize bkind] in *. rewrite flags_Free, Z.add_0_r in *.
    assert (He : e = c + n) by (unfold e, c; rewrite total_app; simpl; lia). pose proof GRANULARITY_pos.
    apply wp_bind. eapply wp_get_size; [lia|done|exact Hpw|].
    rewrite free_size_mask by (done || unfold is_usize; lia). apply wp_bind, wp_check; [apply Z.eqb_refl|].
    apply wp_bind. eapply (unlink_on _ _ s _ (frees st K ++ all_frees Ps)).
    { eapply Inv_on_perm; [|exact HO]. rewrite all_frees_cons. unfold pool_frees; simpl. rewrite frees_app. simpl. solve_Permutation. }
    intros s1 HO1 Hs1. apply wp_bind.
    pose proof (on_rep _ _ _ HO1) as [Hrp1 _]%Forall_cons. destruct (region_rep_mid HR _ Hrp1) as [(_ & Hpp1 & _) _].
    eapply wp_get_prev_phys; [lia|done|exact Hpp1|]. apply wp_ret. eapply (HQ K [mkBlock n Free]); [|done|].
    + split_and!; [done|right; by exists n|]. unfold ends_used. destruct (last K) eqn:E; [|done].
      eapply prev_not_free; [|exact E]. destruct Hwp. rewrite app_nil_r. done.
    + eapply mem_step_weaken; [exact Hs1|]. intros x. apply link_area_sub, HO1.
  - apply wp_ret. pose proof (HQ (K ++ [pb]) [] s) as H'. rewrite last_block_app in H'. cbn [last_block] in H'. apply H'.
    + split_and!; [simpl; by rewrite <- app_assoc|by left|]. unfold ends_used. by rewrite last_snoc.
    + eapply Inv_on_perm; [|exact HO]. rewrite all_frees_cons. unfold pool_frees; simpl. by rewrite ?app_nil_r.
    + apply mem_step_refl.
Qed.

(** Without a maximum pool size, all of the memory becomes one chunk. *)
Lemma insert_one_spec a size F s (Q : option Z -> St -> Prop) :
  MAX_POOL_SIZE = None -> chunk_ok (st_mem s) F a size -> FreeIndex (st_tlsf s) (st_mem s) F ->
  (forall s', FreeIndex (st_tlsf s') (st_mem s') ((a, size - GRANULARITY) :: F) ->
     mem_step (fun x => link_area F x \/ a <= x < a + size - 2 * WORD) (st_mem s) (st_mem s') ->
     rep (st_mem s') a 0 [mkBlock (size - GRANULARITY) Free; sentinel] -> Q (Some size) s') ->
  wp (insert_free_block_ptr_aligned a size) s Q.
Proof.
  intros Hmax Hck Hi HQ. pose proof Hck as [H1 _ _ H4 H5 _ _ _ _].  pose proof GRANULARITY_pos as Hgp.
  unfold insert_free_block_ptr_aligned. destruct (insert_fuel size) as [|fuel] eqn:Ef.
  { unfold insert_fuel in Ef. assert (2 <= size / GRANULARITY) by (apply Z.div_le_lower_bound; lia). lia. }
  cbn [insert_loop]. rewrite (proj2 (Z.leb_le _ _)) by lia. unfold chunk_size_of. rewrite Hmax.
  apply wp_bind, wp_bind. eapply insert_chunk_spec; [exact Hck|exact Hi|]. intros s' Hi' Hs Hr.
  apply wp_bind, wp_check; [rewrite Z.eqb_refl; apply orb_true_r|]. wp_pure usub_ok; [lia|].
  rewrite insert_loop_small by lia. apply wp_ret, wp_ret.
  unfold wrapping_sub, wrapping_add. rewrite Zminus_mod_idemp_l. replace (a + size - a) with size by lia.
  rewrite Z.mod_small by lia. rewrite (proj2 (Z.eqb_neq _ _)) by lia. by apply HQ.
Qed.

Section Tail.
Context {p : pool} {Ps : list pool} {K fr : list block}.
Context (HW : wf_pools (p :: Ps)) (HT : tail_split p K fr).
#[local] Abbreviation base := (p_start p + total K).

Record tail_bounds : Prop := {
  tb_start : 0 < p_start p;
  tb_aligned : (GRANULARITY | p_start p);
  tb_base : p_start p <= base;
  tb_base_aligned : (GRANULARITY | base);
  tb_end : base + GRANULARITY <= p_end p;
  tb_end_aligned : (GRANULARITY | p_end p);
  tb_wf : wf_blocks (p_start p) K
}.

Lemma tail_ok : tail_bounds.
Proof.
  destruct HW as [[[Ha Hp _ _ Hw _ _ _] _]%Forall_cons _]. destruct HT as (Eb & Hf & _).
  rewrite Eb in Hw. apply wf_blocks_app in Hw as [HK Hfr].
  pose proof (total_nonneg _ _ HK). pose proof (total_nonneg _ _ Hfr).
  pose proof (total_aligned _ _ HK). pose proof (total_aligned _ _ Hfr).
  assert (Ee : p_end p = base + total fr + GRANULARITY) by (unfold p_end; rewrite p_len_eq, Eb, total_app; lia).
  split; rewrite ?Ee; try done; try lia; auto with aligned.
Qed.

Lemma tail_links x : link_area (frees (p_start p) K ++ all_frees Ps) x -> ~ base <= x < p_end p.
Proof.
  destruct tail_ok as []. rewrite link_area_app. intros [Hx|Hx].
  - apply link_area_range in Hx; [lia|done].
  - destruct Hx as (c & sz & (q & Hq & Hin)%elem_of_all_frees & Hx). destruct HW as [[_ Hw]%Forall_cons Hd].
    inversion_clear Hd as [|? ? Hdis _]. rewrite Forall_forall in Hdis, Hw. specialize (Hdis q Hq).
    assert (Hl : link_area (pool_frees q) x) by by exists c, sz.
    apply pool_links_range in Hl; [|by apply Hw]. pose proof GRANULARITY_pos. unfold pools_disjoint in Hdis. lia.
Qed.

Lemma tail_changes x : base <= x < p_end p - 2 * WORD -> changes (p :: Ps) (live (p :: Ps)) x.
Proof.
  intros Hx. pose proof WORD_pos. destruct tail_ok as []. destruct HT as (Eb & Hf & _). split; [exists p; split; [set_solver|lia]|].
  intros al. rewrite live_cons, Eb, allocs_app, (maybe_free_allocs fr Hf), app_nil_r, elem_of_app.
  intros [Ha|Ha] Hp.
  - destruct (alloc_foot _ _ _ _ tb_wf0 Ha Hp) as [Hfo _]. apply foot_range in Hfo; [lia|done].
  - apply elem_of_live in Ha as (q & Hq & Ha). destruct HW as [[_ Hw]%Forall_cons Hd].
    inversion_clear Hd as [|? ? Hdis _]. rewrite Forall_forall in Hdis, Hw. specialize (Hdis q Hq).
    destruct (alloc_foot _ _ _ _ (wfp_blocks _ (Hw q Hq)) Ha Hp) as [Hfo _].
    apply foot_range in Hfo; [|apply (Hw q Hq)]. unfold pools_disjoint, p_end in *. rewrite (p_len_eq q) in Hdis.
    pose proof GRANULARITY_pos. lia.
Qed.

(** The pool extended by [len] bytes. *)
Definition extended_pool (len : Z) : pool :=
  mkPool (p_start p) (K ++ [mkBlock (p_end p + len - base - GRANULARITY) Free]).

Lemma extended_len len : p_len (extended_pool len) = p_len p + len.
Proof. rewrite (p_len_eq (extended_pool len)). simpl. rewrite total_app. simpl. unfold p_end. lia. Qed.

Lemma extended_wf len :
  MAX_POOL_SIZE = None -> fresh (p :: Ps) (p_end p) len -> 0 < len -> (GRANULARITY | len) ->
  p_end p + len <= USIZE_MOD -> wf_pools (extended_pool len :: Ps).
Proof.
  intros Hmax Hf Hl Hd Hu. destruct tail_ok as []. destruct HT as (Eb & _ & Hen).
  destruct HW as [[[Ha Hp _ _ Hw Hint Hna _] Hws]%Forall_cons Hdis]. pose proof GRANULARITY_pos. split.
  - constructor; [|done]. rewrite Eb in *. split; simpl; try done.
    + unfold p_end. rewrite extended_len. unfold p_end in Hu. simpl. lia.
    + by destruct K.
    + apply wf_blocks_app. split; [done|]. split; [|done]. split; simpl; [|lia|done].
      repeat apply Z.divide_sub_r; auto with aligned.
    + rewrite Forall_app in *. split; [tauto|by repeat constructor].
    + apply no_adj_app in Hna as (Hna & _). apply no_adj_app. split_and!; [done|done|]. simpl.
      unfold ends_used in Hen. destruct (last K); [by rewrite Hen|done].
    + by rewrite Hmax.
  - inversion_clear Hdis as [|? ? Hdp Hdr]. constructor; [|done]. rewrite Forall_forall in *. intros q Hq.
    specialize (Hdp q Hq). pose proof (total_nonneg _ _ (wfp_blocks _ (Hws q Hq))). pose proof (p_len_eq q).
    destruct (Hf q) as [?|?]; [set_solver| |]; unfold pools_disjoint, p_end in *; rewrite extended_len; simpl; lia.
Qed.

#[local] Abbreviation kept := (frees (p_start p) K ++ all_frees Ps).

Lemma kept_sub : kept ⊆ all_frees (p :: Ps).
Proof.
  destruct HT as (Eb & _). rewrite all_frees_cons. unfold pool_frees. rewrite Eb, frees_app. set_solver.
Qed.

Lemma extend_links len x :
  fresh (p :: Ps) (p_end p) len -> link_area kept x -> ~ base <= x < p_end p + len.
Proof.
  intros Hf Hx. pose proof (tail_links x Hx).
  assert (~ p_end p <= x < p_end p + len); [|lia].
  eapply fresh_links; [exact HW|exact Hf|]. eapply link_area_sub; [apply kept_sub|done].
Qed.

Lemma extend_inv m m' h' len :
  MAX_POOL_SIZE = None -> fresh (p :: Ps) (p_end p) len -> 0 < len -> (GRANULARITY | len) ->
  p_end p + len <= USIZE_MOD -> Forall (rep_pool m) (p :: Ps) -> mapped m (p_end p) len ->
  mem_step (fun x => link_area kept x \/ base <= x < p_end p + len) m m' ->
  rep m' base (last_block 0 (p_start p) K) [mkBlock (p_end p + len - base - GRANULARITY) Free; sentinel] ->
  FreeIndex h' m' ((base, p_end p + len - base - GRANULARITY) :: kept) ->
  Inv (mkSt h' m') (extended_pool len :: Ps).
Proof.
  intros Hmax Hf Hl Hd Hu Hrep Hm Hs Hr Hi. destruct tail_ok as []. pose proof HT as (Eb & _ & _).
  split; simpl; [by apply extended_wf| |].
  - apply Forall_cons in Hrep as [[Hrp Hmp] Hrep]. constructor.
    + split; simpl.
      * unfold p_blocks; simpl. rewrite <- app_assoc. apply rep_app. split; [|exact Hr].
        unfold p_blocks in Hrp. rewrite Eb, <- app_assoc in Hrp. apply rep_app in Hrp as [Hrp _].
        eapply rep_step; [exact Hs|done|done| |done]. intros x Hx [Hk|Hk].
        -- eapply (foot_not_links (p :: Ps) p x HW); [set_solver| |eapply link_area_sub; [apply kept_sub|exact Hk]].
           unfold p_blocks. rewrite Eb, <- app_assoc. apply foot_app. by left.
        -- apply foot_range in Hx; [lia|done].
      * eapply mapped_step; [exact Hs|]. rewrite extended_len. intros x Hx.
        destruct (Z.lt_ge_cases x (p_end p)); [apply Hmp|apply Hm]; unfold p_end in *; lia.
    + rewrite Forall_forall in *. intros q Hq. eapply (rep_pool_step _ _ _ _ q HW); [set_solver|exact Hs| |auto].
      intros x Hx Hfo. destruct HW as [[_ Hws]%Forall_cons Hdis]. rewrite Forall_forall in Hws.
      inversion_clear Hdis as [|? ? Hdp _]. rewrite Forall_forall in Hdp. specialize (Hdp q Hq).
      destruct Hx as [Hx|Hx].
      * eapply (foot_not_links (p :: Ps) q x HW); [set_solver|done|]. eapply link_area_sub; [apply kept_sub|done].
      * apply foot_pool_range in Hfo; [|auto]. destruct (Hf q) as [?|?]; [set_solver| |];
          unfold pools_disjoint, p_end in *; lia.
  - eapply FreeIndex_perm; [|exact Hi]. rewrite all_frees_cons. unfold pool_frees; simpl. rewrite frees_app. simpl.
    solve_Permutation.
Qed.

End Tail.

(** The pool [p] became [p'], [len] bytes longer: its blocks are those of [p]
    but for the last one if that was free, followed by one free block. *)
Record appended (s s' : St) (p p' : pool) (Ps : list pool) (len : Z) : Prop := {
  app_inv : Inv s' (p' :: Ps);
  app_start : p_start p' = p_start p;
  app_len : p_len p' = p_len p + len;
  app_body : exists K fr, tail_split p K fr /\ p_body p' = K ++ [mkBlock (total fr + len) Free];
  app_live : allocs (p_body p') = allocs (p_body p);
  app_room : has_room [p'] len;
  app_mem : mem_step (fun x => changes (p :: Ps) (live (p :: Ps)) x \/ p_end p - 2 * WORD <= x < p_end p + len - 2 * WORD)
              (st_mem s) (st_mem s')
}.

(** The steps of appending give a pool that is [len] bytes longer. *)
Lemma extended_appended p Ps K fr len s s1 s3 :
  wf_pools (p :: Ps) -> tail_split p K fr ->
  Inv s3 (extended_pool (p := p) (K := K) len :: Ps) ->
  mem_step (link_area (all_frees (p :: Ps))) (st_mem s) (st_mem s1) ->
  mem_step (fun x => link_area (frees (p_start p) K ++ all_frees Ps) x \/ p_start p + total K <= x < p_end p + len - 2 * WORD)
    (st_mem s1) (st_mem s3) ->
  appended s s3 p (extended_pool (p := p) (K := K) len) Ps len.
Proof.
  intros HW HT HI Hs1 Hs12. destruct (tail_ok HW HT) as []. pose proof GRANULARITY_pos.
  split; [done|done|apply extended_len| | | |].
  - exists K, fr. split; [done|]. destruct HT as (Eb & _). simpl. do 3 f_equal.
    pose proof (p_len_eq p) as El. rewrite Eb, total_app in El. unfold p_end. lia.
  - destruct HT as (Eb & Hfr & _). simpl. rewrite Eb. by rewrite !allocs_app, (maybe_free_allocs fr Hfr).
  - exists (p_start p + total K), (p_end p + len - (p_start p + total K) - GRANULARITY). split; [|lia].
    rewrite all_frees_cons. unfold pool_frees; simpl. rewrite frees_app. simpl. set_solver.
  - eapply mem_step_trans; (eapply mem_step_weaken; [eassumption|]); intros x Hx; cbv beta in *.
    + left. by eapply links_changes.
    + destruct Hx as [Hx|Hx].
      * left. eapply links_changes; [exact HW|apply (kept_sub HW HT)|done].
      * destruct (Z.lt_ge_cases x (p_end p - 2 * WORD)); [left; eapply (tail_changes HW HT); lia|right; lia].
Qed.

Lemma append_extend_spec p Ps len s (Q : Z -> St -> Prop) :
  MAX_POOL_SIZE = None -> Inv s (p :: Ps) -> raw_ok (st_mem s) (p :: Ps) (p_end p) len -> 0 < len ->
  (forall s' p', appended s s' p p' Ps len -> Q len s') ->
  wp ('(start, last_nonassimilated_block) ← append_assimilate (wrapping_sub (p_end p) GRANULARITY);
      o ← insert_free_block_ptr_aligned start (wrapping_sub (wrapping_add (p_end p) len) start);
      pool_len ← lift (expect o);
      set_prev_phys_block FreeBlockHdr start last_nonassimilated_block;;
      lift (usub pool_len (wrapping_sub (p_end p) start))) s Q.
Proof.
  intros Hmax HI [Hp Hpd Hld Hl0 Hu Hm Hf] Hl HQ. pose proof GRANULARITY_pos. pose proof WORD_pos.
  pose proof GRANULARITY_WORD. pose proof HI as [HW _ _].
  assert (Hge : GRANULARITY <= p_end p /\ p_end p < USIZE_MOD) by (split; [apply divide_pos_le; [lia|done|lia]|lia]).
  rewrite wrapping_sub_small by (unfold is_usize; lia). apply wp_bind.
  eapply append_assimilate_spec; [exact HI|]. intros K fr s1 HT HO1 Hs1.
  destruct (tail_ok HW HT) as []. set (base := p_start p + total K) in *.
  assert (Esz : wrapping_sub (wrapping_add (p_end p) len) base = p_end p + len - base).
  { unfold wrapping_sub, wrapping_add. rewrite Zminus_mod_idemp_l. apply Z.mod_small. lia. }
  rewrite Esz. set (size := p_end p + len - base) in *.
  assert (Hgl : GRANULARITY <= len) by (apply divide_pos_le; [lia|done|done]).
  pose proof (on_rep _ _ _ HO1) as Hrep1. pose proof Hrep1 as [[Hrp Hmp] _]%Forall_cons.
  assert (Hm1 : mapped (st_mem s1) base size).
  { intros x Hx. assert (p_end p = p_start p + p_len p) by done.
    destruct (Z.lt_ge_cases x (p_end p)); [apply Hmp; lia|].
    eapply (mapped_step _ (st_mem s)); [exact Hs1|exact Hm|lia]. }
  assert (Hlk := fun x => extend_links HW HT len x Hf). fold base in Hlk.
  apply wp_bind. eapply insert_one_spec; [done| |apply HO1|].
  { split; try done; try (unfold size; lia).
    - apply Z.divide_sub_r; [by apply Z.divide_add_r|done].
    - unfold admissible; by rewrite Hmax.
    - intros x Hx. apply Hlk in Hx. unfold size. lia.
    - intros ([c sz] & Ec & Hin)%list_elem_of_fmap. simpl in Ec. subst c.
      apply (Hlk (base + 2 * WORD)); [exists base, sz; split; [done|lia]|unfold size in *; lia]. }
  intros s2 Hi2 Hs2 Hr2. replace (size - GRANULARITY) with (p_end p + len - base - GRANULARITY) in * by (unfold size; lia).
  apply wp_bind. eapply wp_lift; [done|]. cbv beta. destruct Hr2 as [(Hw1 & _ & _) [(Hw2 & Hw3 & _) _]].
  cbn [bsize bkind] in *.
  assert (Hlast : is_usize (last_block 0 (p_start p) K)) by (pose proof (last_block_range 0 (p_start p) K tb_wf0 ltac:(lia)); unfold is_usize; lia).
  apply wp_bind, wp_set_prev_phys; [lia|done| |done|].
  { eapply mapped_step; [exact Hs2|]. eapply mapped_sub; [exact Hm1|lia|unfold size; lia]. }
  intros m3 Hs3 Hw4. step_words Hs3. rewrite (wrapping_sub_small (p_end p)) by (unfold is_usize; lia).
  eapply wp_lift; [apply usub_ok; unfold size; lia|]. replace (size - (p_end p - base)) with len by (unfold size; lia).
  apply (HQ _ (extended_pool (p := p) (K := K) len)).
  assert (Hs12 : mem_step (fun x => link_area (frees (p_start p) K ++ all_frees Ps) x \/ base <= x < p_end p + len - 2 * WORD)
            (st_mem s1) m3).
  { eapply mem_step_trans; (eapply mem_step_weaken; [eassumption|]); intros x Hx; cbv beta in *.
    - destruct Hx; [by left|right; unfold size in *; lia].
    - right. unfold in_word in Hx. lia. }
  eapply (extended_appended _ _ K fr); [done|done| |exact Hs1|exact Hs12].
  eapply (extend_inv HW HT (st_mem s1)); try done.
  - eapply mapped_step; [exact Hs1|done].
  - eapply mem_step_weaken; [exact Hs12|]. cbv beta. intros x [Hx|Hx]; [by left|right; lia].
  - eapply FreeIndex_step; [exact Hs3| |exact Hi2]. intros x. rewrite link_area_cons. intros [Hx|Hx] Hn; [avoid|].
    apply Hlk in Hx. avoid.
Qed.

(** ** The contract of both operations *)

(** The memory [[a, b)] was added to the pools; the allocations are the same. *)
Record grown (s s' : St) (Ps Ps' : list pool) (a b : Z) : Prop := {
  gr_inv : Inv s' Ps';
  gr_live : live Ps' ≡ₚ live Ps;
  gr_area x : in_pools Ps' x <-> in_pools Ps x \/ a <= x < b;
  gr_writable x : writable Ps' x -> writable Ps x \/ a - 2 * WORD <= x < b - 2 * WORD;
  gr_end : a < b -> b ∈ p_end <$> Ps';
  gr_ends e : e ∈ p_end <$> Ps -> e ∈ p_end <$> Ps' \/ (e = a /\ a < b);
  gr_mem : mem_step (fun x => changes Ps (live Ps) x \/ a - 2 * WORD <= x < b - 2 * WORD) (st_mem s) (st_mem s')
}.

Lemma p_len_pos p : wf_pool p -> 0 < p_len p.
Proof. intros Hp. pose proof (total_nonneg _ _ (wfp_blocks _ Hp)). rewrite p_len_eq. pose proof GRANULARITY_pos. lia. Qed.

Lemma tiled_area a l b x : Forall wf_pool l -> tiled a l b -> a <= b /\ (in_pools l x <-> a <= x < b).
Proof.
  revert a. induction l as [|p l IH]; intros a; simpl.
  - intros _ ->. split; [done|]. split; [intros (p & Hp & _); set_solver|lia].
  - intros [Hp Hl]%Forall_cons [Ea Ht]. destruct (IH _ Hl Ht) as [Hle Hx].
    pose proof (p_len_pos p Hp). unfold p_end in *. split; [lia|]. split.
    + intros (q & [->|Hq]%elem_of_cons & Hqx); [unfold p_end in Hqx; lia|].
      assert (in_pools l x) by by exists q. rewrite Hx in H0. lia.
    + intros Hax. destruct (Z.lt_ge_cases x (p_start p + p_len p)).
      * exists p. split; [set_solver|]. unfold p_end. lia.
      * destruct (proj2 Hx) as (q & Hq & Hqx); [lia|]. exists q. split; [set_solver|done].
Qed.

Lemma tiled_writable a l b x : Forall wf_pool l -> tiled a l b -> writable l x -> a <= x < b - 2 * WORD.
Proof.
  revert a. induction l as [|p l IH]; intros a; simpl; [intros _ _ (p & Hp & _); set_solver|].
  intros [Hp Hl]%Forall_cons [Ea Ht] (q & [->|Hq]%elem_of_cons & Hx).
  - destruct (tiled_area _ _ _ x Hl Ht) as [Hle _]. lia.
  - assert (p_end p <= x < b - 2 * WORD) by (eapply IH; [done|done|by exists q]).
    pose proof (p_len_pos p Hp). unfold p_end in *. lia.
Qed.

Lemma tiled_end a l b : tiled a l b -> l <> [] -> b ∈ p_end <$> l.
Proof.
  revert a. induction l as [|p l IH]; intros a; [done|]. intros [Ea Ht] _. rewrite fmap_cons, elem_of_cons.
  destruct l as [|q l]; [left; by simpl in Ht|right; by eapply IH].
Qed.

Lemma live_app Ps Ps' : live (Ps ++ Ps') = live Ps ++ live Ps'.
Proof. unfold live. by rewrite fmap_app, concat_app. Qed.

Lemma inserted_grown s s' Ps news a b : inserted s s' Ps news a b -> grown s s' Ps (news ++ Ps) a b.
Proof.
  intros [Hi Ht Hl Hm]. split; [done| | | | | |].
  - by rewrite live_app, Hl.
  - intros x. pose proof Hi as [[Hw _] _ _]. apply Forall_app in Hw as [Hw _].
    destruct (tiled_area a news b x Hw Ht) as [_ Hx]. rewrite <- Hx. unfold in_pools.
    setoid_rewrite elem_of_app. naive_solver.
  - intros x (q & [Hq|Hq]%elem_of_app & Hx); [right|left; by exists q].
    pose proof Hi as [[Hw _] _ _]. apply Forall_app in Hw as [Hw _]. pose proof WORD_pos.
    assert (a <= x < b - 2 * WORD) by (eapply tiled_writable; [done|done|by exists q]). lia.
  - intros Hlt. rewrite fmap_app, elem_of_app. left. eapply tiled_end; [done|]. intros ->. simpl in Ht. lia.
  - intros e He. left. rewrite fmap_app, elem_of_app. by right.
  - eapply mem_step_weaken; [exact Hm|]. pose proof WORD_pos. cbv beta. intros x [Hx|Hx]; [by left|right; lia].
Qed.

Lemma appended_grown s s' p p' Ps len :
  0 <= len -> wf_pool p -> appended s s' p p' Ps len -> grown s s' (p :: Ps) (p' :: Ps) (p_end p) (p_end p + len).
Proof.
  intros Hl Hwp [Hi Hs Hln _ Hal _ Hm]. assert (Ee : p_end p' = p_end p + len) by (unfold p_end; lia).
  split; [done| | | | | |done].
  - by rewrite !live_cons, Hal.
  - intros x. pose proof (p_len_pos p Hwp). unfold in_pools. setoid_rewrite elem_of_cons.
    assert (Ex : p_start p' <= x < p_end p' <-> p_start p <= x < p_end p \/ p_end p <= x < p_end p + len)
      by (unfold p_end in *; rewrite Hs, Hln; lia).
    naive_solver.
  - intros x (q & [->|Hq]%elem_of_cons & Hx); [|left; exists q; split; [set_solver|done]].
    rewrite Ee in Hx. destruct (Z.lt_ge_cases x (p_end p - 2 * WORD)); [left|right; lia].
    exists p. split; [set_solver|lia].
  - intros _. rewrite fmap_cons, Ee. apply elem_of_cons. by left.
  - intros e. rewrite !fmap_cons, !elem_of_cons, Ee. intros [->|He]; [|by left; right].
    destruct (decide (0 < len)); [right; lia|left; left; lia].
Qed.

Lemma grown_refl s Ps a : Inv s Ps -> grown s s Ps Ps a a.
Proof. intros HI. split; [done|done|intros x; intuition lia|auto|lia|auto|apply mem_step_refl]. Qed.

(** What [append_free_block_ptr] does with [len] bytes behind [p]: if pools have
    no maximum size, the whole granules of them make [p] longer; otherwise
    they become pools of their own. *)
Definition append_outcome (s s' : St) (p : pool) (Ps Ps' : list pool) (len n : Z) : Prop :=
  match MAX_POOL_SIZE with
  | None => len - n < GRANULARITY /\
      if decide (n = 0) then s' = s /\ Ps' = p :: Ps
      else exists p', Ps' = p' :: Ps /\ appended s s' p p' Ps n
  | Some _ =>
      if decide (n = 0) then s' = s /\ Ps' = p :: Ps
      else exists news, Ps' = news ++ p :: Ps /\ inserted s s' (p :: Ps) news (p_end p) (p_end p + n)
  end.

Lemma append_spec p Ps len s (Q : Z -> St -> Prop) :
  Inv s (p :: Ps) -> slice_ok (st_mem s) (p :: Ps) (p_end p) len ->
  (forall Ps' s' n, append_outcome s s' p Ps Ps' len n -> grown s s' (p :: Ps) Ps' (p_end p) (p_end p + n) -> 0 <= n <= len ->
     len - n < 2 * GRANULARITY ->
     (forall k, (GRANULARITY | k) -> 2 * GRANULARITY <= k <= len -> has_room Ps' (chunk_size_of k) /\ chunk_size_of k <= n) ->
     Q n s') ->
  wp (append_free_block_ptr (p_end p) len) s Q.
Proof.
  intros HI Hsl HQ. pose proof Hsl as [H1 H2 H3 _ _]. pose proof GRANULARITY_pos.
  pose proof HI as [[[Hwp _]%Forall_cons _] _ _].
  assert (Hda : (GRANULARITY | p_end p)).
  { apply Z.divide_add_r; [apply Hwp|]. eapply total_aligned. by apply wf_p_blocks. }
  destruct (granule_down len) as (Hy & Hy' & Hyd); [unfold is_usize; lia|].
  unfold append_free_block_ptr. set (y := Z.land len (usize_not (GRANULARITY - 1))) in *.
  assert (Hraw : raw_ok (st_mem s) (p :: Ps) (p_end p) y).
  { eapply raw_of_slice; [exact Hsl|lia|lia|lia|done|done]. }
  assert (Hk : forall k, (GRANULARITY | k) -> k <= len -> k <= y).
  { intros k Hk Hkl. assert (Hg0 : 0 < GRANULARITY) by lia. destruct (Z.le_gt_cases k y) as [|Hgt]; [done|].
    pose proof (divide_gap GRANULARITY _ _ Hg0 Hyd Hk Hgt). lia. }
  assert (H0 : y <= GRANULARITY -> (MAX_POOL_SIZE = None -> y = 0) -> Q 0 s).
  { intros Hs Hy0. eapply (HQ (p :: Ps) s 0); [| |lia|lia|].
    - unfold append_outcome. destruct MAX_POOL_SIZE; rewrite decide_True by done; [done|]. specialize (Hy0 eq_refl). split; [lia|done].
    - rewrite Z.add_0_r. by apply grown_refl.
    - intros k Hkd Hkl. pose proof (Hk k Hkd). lia. }
  case_bool_decide as Hmax.
  - apply wp_bind. eapply insert_aligned_spec; [exact HI|exact Hraw| |].
    + intros Hs. apply wp_ret, H0; [|intros E; rewrite E in Hmax; by destruct Hmax]. assert (Hg0 : 0 < GRANULARITY) by lia.
      destruct (Z.le_gt_cases y GRANULARITY) as [|Hgt]; [done|].
      pose proof (divide_gap GRANULARITY _ _ Hg0 (Z.divide_refl _) Hyd Hgt). lia.
    + intros news s' n Hins Hn Hr Hrm Hcn. apply wp_ret. simpl.
      eapply HQ; [|by apply inserted_grown|lia|lia|].
      { unfold append_outcome. destruct MAX_POOL_SIZE; [|by destruct Hmax]. rewrite decide_False by lia. by exists news. }
      intros k Hkd Hkl. assert (chunk_size_of k <= chunk_size_of y) by (apply chunk_size_of_mono, Hk; [done|lia]).
      split; [|lia]. eapply (has_room_sub news), has_room_le; [set_solver|exact Hrm|done].
  - assert (Hn : MAX_POOL_SIZE = None) by (destruct MAX_POOL_SIZE; [by destruct Hmax|done]).
    destruct (Z.eqb_spec y 0); [by apply wp_ret, H0; [lia|]|].
    eapply append_extend_spec; [done|exact HI|exact Hraw|lia|]. intros s' p' Ha.
    eapply HQ; [by unfold append_outcome; rewrite Hn, decide_False by done; split; [lia|exists p']|apply (appended_grown s s' p p' Ps y); [lia|done|exact Ha]|lia|lia|].
    intros k Hkd Hkl. unfold chunk_size_of. rewrite Hn. assert (k <= y) by (apply Hk; [done|lia]). split; [|done].
    eapply (has_room_sub [p']), has_room_le; [set_solver|apply Ha|done].
Qed.

End InsertSpecs.

(** ** Properties *)

Section InsertProperties.
Context {T : Target} {P : TlsfParams} {Pok : ParamsOk P}.

(** C28: [insert_free_block_ptr] turns a slice of fresh memory, of any alignment
    and length, into pools that lie side by side from the first granule on;
    the number it returns ends the last one, less than two granules are
    left over, and the loop that cuts the pools ends.  [None] means that the
    slice is too small and that nothing changed. *)
Theorem insert_free_block_ptr_correct a len s Ps :
  Inv s Ps -> slice_ok (st_mem s) Ps a len ->
  wp (insert_free_block_ptr a len) s (fun r s' =>
    match r with
    | Some n => exists news, inserted s s' Ps news (round_up GRANULARITY a) (a + n) /\
                  n <= len /\ len - n < 2 * GRANULARITY
    | None => s' = s /\ a + len < round_up GRANULARITY a + 2 * GRANULARITY
    end).
Proof.
  intros HI Hsl. eapply insert_spec; [exact HI|exact Hsl|done|]. intros news s' n Hins _ Hn Hr _. by exists news.
Qed.

(** C29: [append_free_block_ptr] at the end of a pool adds the memory to the
    pools.  If pools have no maximum size, all whole granules of it extend the
    pool: the memory, the sentinel and the last block of the pool if that is
    free become one free block, and the other blocks stay.  If they have one,
    the memory becomes new pools, side by side.  The bytes covered grow by
    exactly the number returned, no allocation changes, and less than two
    granules are left over. *)
Theorem append_free_block_ptr_correct p Ps len s :
  Inv s (p :: Ps) -> slice_ok (st_mem s) (p :: Ps) (p_end p) len ->
  wp (append_free_block_ptr (p_end p) len) s (fun n s' =>
    0 <= n <= len /\ len - n < 2 * GRANULARITY /\
    exists Ps', append_outcome s s' p Ps Ps' len n /\ grown s s' (p :: Ps) Ps' (p_end p) (p_end p + n)).
Proof.
  intros HI Hsl. eapply append_spec; [exact HI|exact Hsl|]. intros Ps' s' n Ho Hg Hn Hr _. split_and!; try lia. by exists Ps'.
Qed.

End InsertProperties.
