(* ===== verification/Realloc.v ===== *)
(** * tlsf.rs: reallocation

    [reallocate] and [reallocate_inplace] in its three phases: shrinking,
    growing into the next free block, and growing into the previous free block
    as well, which moves the payload.  When all of them fail the payload is
    moved to a new allocation. *)

From S2P Require Import Prelude Usize BinInteger SizeClass Machine Header FreeIndex Pool Region Alloc Dealloc.

Section ReallocOps.
Context {T : Target} {P : TlsfParams}.

(** [ptr::copy] and [ptr::copy_nonoverlapping] on bytes. *)
Definition copy (src dst n : Z) : M St unit := fun s =>
  match copy_mem (st_mem s) src dst n with Ok m => Ok (tt, with_mem s m) | Fail e => Fail e end.
Definition copy_nonoverlapping (src dst n : Z) : M St unit := fun s =>
  match copy_nonoverlapping_mem (st_mem s) src dst n with Ok m => Ok (tt, with_mem s m) | Fail e => Fail e end.

(** Create a free block of [size] bytes at [new_free_block], in front of
    [next], merging it with [next] if that one is free. *)
Definition reallocate_put_free (next new_free_block size block : Z) : M St unit :=
  next_size_and_flags ← get_size BlockHdr next;
  size ←
    (if Z.land next_size_and_flags SIZE_USED =? 0 then
       lift (check (next_size_and_flags =? Z.land next_size_and_flags SIZE_SIZE_MASK));;
       unlink_free_block next next_size_and_flags;;
       size ← lift (uadd size next_size_and_flags);
       next_next_phys_block ← next_phys_block BlockHdr next;
       set_prev_phys_block BlockHdr next_next_phys_block new_free_block;;
       mret size
     else
       set_prev_phys_block BlockHdr next new_free_block;;
       mret size);
  set_common FreeBlockHdr new_free_block size block;;
  link_free_block new_free_block size.

Definition reallocate_shrink (block new_size old_size : Z) : M St unit :=
  if new_size =? old_size then mret tt
  else
    shrink_by ← lift (usub old_size new_size);
    new_free_block ← lift (uadd block new_size);
    next ← next_phys_block UsedBlockHdr block;
    reallocate_put_free next new_free_block shrink_by block;;
    set_size UsedBlockHdr block (Z.lor new_size SIZE_USED).

(** Grow into the next free block, of size [next_size]. *)
Definition reallocate_grow (block next next_next next_size grow_by new_size : Z) : M St unit :=
  unlink_free_block next next_size;;
  (if grow_by <? next_size then
     next_size ← lift (usub next_size grow_by);
     next ← lift (uadd block new_size);
     set_common FreeBlockHdr next next_size block;;
     link_free_block next next_size;;
     set_prev_phys_block BlockHdr next_next next
   else
     lift (check (grow_by =? next_size));;
     set_prev_phys_block BlockHdr next_next block);;
  set_size UsedBlockHdr block (Z.lor new_size SIZE_USED).

(** In-place non-moving reallocation: [inl] when it succeeded, otherwise the
    size and the end of the space that moving could use. *)
Definition reallocate_nonmoving (block next new_size old_size : Z) : M St (unit + Z * Z) :=
  grow_by ← lift (usub new_size old_size);
  next_size_and_flags ← get_size BlockHdr next;
  if negb (Z.land next_size_and_flags SIZE_USED =? 0) then mret (inr (old_size, next))
  else
    let next_size := next_size_and_flags in
    lift (check (next_size =? Z.land next_size_and_flags SIZE_SIZE_MASK));;
    next_next ← next_phys_block FreeBlockHdr next;
    moving_clearance ← lift (uadd old_size next_size);
    if next_size <? grow_by then mret (inr (moving_clearance, next_next))
    else
      reallocate_grow block next next_next next_size grow_by new_size;;
      mret (inl tt).

(** [(unaligned_ptr + align - 1) & !(align - 1)] for the block at [block]. *)
Definition moved_ptr (align block : Z) : Res Z :=
  unaligned_ptr ← uadd block size_of_UsedBlockHdr;
  x ← uadd unaligned_ptr align;
  x ← usub x 1;
  let ptr := Z.land x (usize_not (align - 1)) in
  check (negb (ptr =? 0));;
  mret ptr.

(** Replace the block by one that starts at [new_block], the previous one. *)
Definition reallocate_move (new_layout : Layout)
    (ptr next new_block prev_size new_ptr new_size copy_size moving_clearance moving_clearance_end : Z)
    : M St (option Z) :=
  unlink_free_block new_block prev_size;;
  next_size_and_flags ← get_size BlockHdr next;
  (if Z.land next_size_and_flags SIZE_USED =? 0 then
     lift (check (next_size_and_flags =? Z.land next_size_and_flags SIZE_SIZE_MASK));;
     unlink_free_block next next_size_and_flags
   else mret tt);;
  copy ptr new_ptr copy_size;;
  (if new_size =? moving_clearance then
     set_prev_phys_block BlockHdr moving_clearance_end new_block
   else
     new_free_block ← lift (uadd new_block new_size);
     new_free_block_size ← lift (usub moving_clearance new_size);
     reallocate_put_free moving_clearance_end new_free_block new_free_block_size new_block);;
  set_size UsedBlockHdr new_block (Z.lor new_size SIZE_USED);;
  (if GRANULARITY <=? l_align new_layout then set_block_hdr (get_for_allocation new_ptr) new_block else mret tt);;
  mret (Some new_ptr).

(** In-place moving reallocation. *)
Definition reallocate_moving (ptr block overhead : Z) (new_layout : Layout)
    (old_size next moving_clearance moving_clearance_end : Z) : M St (option Z) :=
  prev ← get_prev_phys_block UsedBlockHdr block;
  if prev =? 0 then mret None
  else
    prev_size_and_flags ← get_size BlockHdr prev;
    if negb (Z.land prev_size_and_flags SIZE_USED =? 0) then mret None
    else
      let prev_size := prev_size_and_flags in
      lift (check (prev_size =? Z.land prev_size_and_flags SIZE_SIZE_MASK));;
      moving_clearance ← lift (uadd moving_clearance prev_size);
      new_ptr ← lift (moved_ptr (l_align new_layout) prev);
      new_overhead ← lift (usub new_ptr prev);
      let? new_size := checked_add new_overhead (l_size new_layout) in
      let? new_size := checked_add new_size (GRANULARITY - 1) in
      let new_size := Z.land new_size (usize_not (GRANULARITY - 1)) in
      if moving_clearance <? new_size then mret None
      else
        usable ← lift (usub old_size overhead);
        reallocate_move new_layout ptr next prev prev_size new_ptr new_size
          (Z.min (l_size new_layout) usable) moving_clearance moving_clearance_end.

Definition reallocate_inplace (ptr block : Z) (new_layout : Layout) : M St (option Z) :=
  overhead ← lift (usub ptr block);
  let? new_size := checked_add overhead (l_size new_layout) in
  let? new_size := checked_add new_size (GRANULARITY - 1) in
  let new_size := Z.land new_size (usize_not (GRANULARITY - 1)) in
  size_and_flags ← get_size UsedBlockHdr block;
  old_size ← lift (usub size_and_flags SIZE_USED);
  lift (check (old_size =? Z.land size_and_flags SIZE_SIZE_MASK));;
  if new_size <=? old_size then
    reallocate_shrink block new_size old_size;;
    mret (Some ptr)
  else
    next ← next_phys_block UsedBlockHdr block;
    r ← reallocate_nonmoving block next new_size old_size;
    match r with
    | inl _ => mret (Some ptr)
    | inr (moving_clearance, moving_clearance_end) =>
        reallocate_moving ptr block overhead new_layout old_size next moving_clearance moving_clearance_end
    end.

Definition reallocate (ptr : Z) (new_layout : Layout) : M St (option Z) :=
  block ← used_block_hdr_for_allocation ptr (l_align new_layout);
  old_size ← size_of_allocation ptr (l_align new_layout);
  r ← reallocate_inplace ptr block new_layout;
  match r with
  | Some x => mret (Some x)
  | None =>
      o ← allocate new_layout;
      let? new_ptr := o in
      lift (check (old_size <=? l_size new_layout));;
      copy_nonoverlapping ptr new_ptr old_size;;
      deallocate ptr (l_align new_layout);;
      mret (Some new_ptr)
  end.

End ReallocOps.

Section ReallocSpecs.
Context {T : Target} {P : TlsfParams} {Pok : ParamsOk P}.

Lemma wp_copy src dst n s (Q : unit -> St -> Prop) :
  0 <= n -> mapped (st_mem s) src n -> mapped (st_mem s) dst n ->
  (forall m', mem_step (fun x => dst <= x < dst + n) (st_mem s) m' ->
     (forall i, 0 <= i < n -> m' !! (dst + i) = st_mem s !! (src + i)) -> Q tt (with_mem s m')) ->
  wp (copy src dst n) s Q.
Proof.
  intros Hn Hs Hd HQ. destruct (copy_mem_ok (st_mem s) src dst n Hn Hs Hd) as (m' & E & Hst & Hi).
  exists tt, (with_mem s m'). split; [unfold copy; by rewrite E|by apply HQ].
Qed.

Lemma wp_copy_nonoverlapping src dst n s (Q : unit -> St -> Prop) :
  0 <= n -> mapped (st_mem s) src n -> mapped (st_mem s) dst n -> src + n <= dst \/ dst + n <= src ->
  (forall m', mem_step (fun x => dst <= x < dst + n) (st_mem s) m' ->
     (forall i, 0 <= i < n -> m' !! (dst + i) = st_mem s !! (src + i)) -> Q tt (with_mem s m')) ->
  wp (copy_nonoverlapping src dst n) s Q.
Proof.
  intros Hn Hs Hd Hdis HQ. destruct (copy_mem_ok (st_mem s) src dst n Hn Hs Hd) as (m' & E & Hst & Hi).
  exists tt, (with_mem s m'). split; [|by apply HQ]. unfold copy_nonoverlapping, copy_nonoverlapping_mem.
  replace ((src + n <=? dst) || (dst + n <=? src)) with true; [by rewrite E|].
  symmetry. rewrite orb_true_iff, !Z.leb_le. done.
Qed.

(** The region with the free block that follows it, if any. *)
Lemma region_widen st l1 mid nf l2 Ps a1 a2 :
  region_at st l1 mid a1 a2 -> wf_pools (mkPool st (l1 ++ mid ++ nf ++ l2) :: Ps) ->
  region_at st l1 (mid ++ nf) a1 (a2 + total nf) /\
  wf_pools (mkPool st (l1 ++ (mid ++ nf) ++ l2) :: Ps) /\ 0 <= total nf.
Proof.
  intros HR HW. destruct (region_wf HR HW) as (_ & _ & Hw). apply wf_blocks_app in Hw as [Hw _].
  apply total_nonneg in Hw. destruct HR as [E1 E2]. split_and!; [split; rewrite ?total_app; lia| |done].
  by rewrite <- app_assoc.
Qed.

(** The block after the region and what follows when it is merged. *)
Lemma next_cases l2 :
  (exists n l2', l2 = mkBlock n Free :: l2') \/
  (exists b l, l2 ++ [sentinel] = b :: l /\ is_free b = false /\ starts_used l2).
Proof.
  destruct l2 as [|[n k] l2]; [right; by exists sentinel, []|].
  destruct k as [|al|]; [left; eauto|right; eexists _, _; done..].
Qed.

Lemma starts_used_head l b k : l ++ [sentinel] = b :: k -> is_free b = false -> starts_used l.
Proof. destruct l; simpl; intros; simplify_eq; done. Qed.

Lemma free_head l n k : l ++ [sentinel] = mkBlock n Free :: k -> exists l', l = mkBlock n Free :: l'.
Proof. destruct l as [|b l]; simpl; intros E; [done|]. injection E as -> _. eauto. Qed.

(** Writing the free block [[f, a2)] at the end of the region. *)
Lemma put_free_write st l1 mid l2 Ps a1 a2 f p s (Q : unit -> St -> Prop) :
  region_at st l1 mid a1 a2 -> wf_pools (mkPool st (l1 ++ mid ++ l2) :: Ps) ->
  mapped (st_mem s) st (p_len (mkPool st (l1 ++ mid ++ l2))) ->
  FreeIndex (st_tlsf s) (st_mem s) (outer st l1 l2 Ps a2) ->
  a1 <= f -> (GRANULARITY | f) -> f < a2 -> is_usize p ->
  (forall s', FreeIndex (st_tlsf s') (st_mem s') ((f, a2 - f) :: outer st l1 l2 Ps a2) ->
     mem_step (fun x => link_area (outer st l1 l2 Ps a2) x \/ f <= x < a2) (st_mem s) (st_mem s') ->
     rep (st_mem s') f p [mkBlock (a2 - f) Free] -> Q tt s') ->
  wp (set_common FreeBlockHdr f (a2 - f) p;; link_free_block f (a2 - f)) s Q.
Proof.
  intros HR HW Hm Hi Hf Hdf Hlt Hp HQ. pose proof (region_ok HR HW) as []. pose proof (outer_links HR HW) as Hout.
  pose proof WORD_pos. pose proof GRANULARITY_WORD as EG.
  assert (Hge : f + GRANULARITY <= a2) by (apply divide_gap; [lia|done|done|done]).
  assert (Hmf : mapped (st_mem s) f GRANULARITY) by (eapply mapped_sub; [exact Hm|lia|lia]).
  apply wp_bind, wp_bind, wp_set_size; [lia|done|done|unfold is_usize; lia|]. intros m1 Hs1 Hw1. step_words Hs1.
  apply wp_set_prev_phys; [lia|done|by eapply mapped_step|done|]. intros m2 Hs2 Hw2. step_words Hs2.
  apply (link_free_block_spec _ _ _ (outer st l1 l2 Ps a2)); simpl.
  - do 2 (eapply FreeIndex_step; [eassumption|intros ???; avoid|]). done.
  - apply (outer_not_in HR HW). lia.
  - apply (region_linkable HR HW); [|lia|lia|done|by apply Z.divide_sub_r|lia].
    do 2 (eapply mapped_step; [eassumption|]). done.
  - intros s' Hi' Hs3.
    assert (Hs3' : mem_step (fun x => f + 2 * WORD <= x < f + 4 * WORD \/ link_area (outer st l1 l2 Ps a2) x)
      m2 (st_mem s')) by (eapply mem_step_weaken; [exact Hs3|in_area]). clear Hs3. step_words Hs3'.
    apply HQ; [done|chain_steps|]. unfold rep, rep_block; simpl. by rewrite flags_Free, Z.add_0_r.
Qed.

Lemma put_free_spec st l1 mid l2 Ps a1 a2 f p s (Q : unit -> St -> Prop) :
  region_at st l1 mid a1 a2 -> wf_pools (mkPool st (l1 ++ mid ++ l2) :: Ps) ->
  mapped (st_mem s) st (p_len (mkPool st (l1 ++ mid ++ l2))) ->
  FreeIndex (st_tlsf s) (st_mem s) (outer st l1 l2 Ps a2) ->
  a1 <= f -> (GRANULARITY | f) -> f < a2 -> is_usize p ->
  (forall b l, l2 ++ [sentinel] = b :: l -> word_at (st_mem s) a2 (bsize b + flags (bkind b))) ->
  (forall nf l2' s', l2 = nf ++ l2' -> maybe_free nf -> starts_used l2' ->
     FreeIndex (st_tlsf s') (st_mem s') ((f, a2 + total nf - f) :: outer st l1 l2' Ps (a2 + total nf)) ->
     mem_step (step_area (outer st l1 l2' Ps (a2 + total nf)) f (a2 + total nf)) (st_mem s) (st_mem s') ->
     rep (st_mem s') f p [mkBlock (a2 + total nf - f) Free] ->
     word_at (st_mem s') (a2 + total nf + WORD) f -> Q tt s') ->
  wp (reallocate_put_free a2 f (a2 - f) p) s Q.
Proof.
  intros HR HW Hm Hi Hf Hdf Hlt Hp Hnx HQ. pose proof (region_ok HR HW) as []. pose proof (outer_links HR HW) as Hout.
  pose proof WORD_pos. pose proof GRANULARITY_WORD as EG. pose proof (region_wf_tail HR HW) as Hwt.
  unfold reallocate_put_free. destruct (next_cases l2) as [(n & l2' & ->)|(b & l & Eb & Hnf & Hst)].
  - (* the next block is free *)
    destruct (region_widen st l1 mid [mkBlock n Free] l2' Ps a1 a2 HR HW) as (HR' & HW' & _).
    cbn [total bsize] in HR', rb_end, rb_usize. rewrite Z.add_0_r in HR'.
    pose proof (region_ok HR' HW') as [? ? ? ? ? Hd2 Hend Hl2 Hu2]. pose proof (outer_links HR' HW') as Hout'.
    destruct Hwt as [Hb _]. pose proof Hb as [Hdn Hpn _]. cbn [bsize] in Hdn, Hpn.
    pose proof (Hnx _ _ eq_refl) as Hw0. cbn [bsize bkind] in Hw0. rewrite flags_Free, Z.add_0_r in Hw0.
    apply wp_bind. eapply wp_get_size; [lia|done|exact Hw0|].
    pose proof (flag_free (mkBlock n Free) Hdn) as Ef. cbn [bsize bkind] in Ef. rewrite flags_Free, Z.add_0_r in Ef.
    rewrite Ef. cbn [is_free bkind]. rewrite free_size_mask by (done || unfold is_usize; lia).
    apply wp_bind, wp_bind, wp_check; [apply Z.eqb_refl|]. apply wp_bind.
    eapply (unlink_free_block_spec _ _ _ _ (outer st l1 l2' Ps (a2 + n))); [exact Hi| |].
    { unfold outer. simpl. solve_Permutation. }
    intros s1 Hi1 Hs1. step_words Hs1. wp_pure uadd_ok; [lia|].
    apply wp_bind. eapply (wp_next_phys_block _ a2 (mkBlock n Free)); simpl; [lia|done|exact Hb|done| |lia|].
    { by rewrite flags_Free, Z.add_0_r. }
    apply wp_bind, wp_set_prev_phys; [lia|done| |unfold is_usize; lia|].
    { eapply mapped_step; [exact Hs1|]. eapply mapped_sub; [exact Hm|lia|]. lia. }
    intros m2 Hs2 Hw2. apply wp_ret. simpl in Hs2, Hw2. replace (a2 - f + n) with (a2 + n - f) by lia.
    eapply (put_free_write _ _ _ _ _ _ _ _ _ _ _ HR' HW'); simpl; try done; try lia.
    { rewrite <- app_assoc. do 2 (eapply mapped_step; [eassumption|]). done. }
    { eapply FreeIndex_step; [exact Hs2|intros ???; avoid|done]. }
    intros s3 Hi3 Hs3 Hr3. step_words Hs3.
    pose proof (HQ [mkBlock n Free] l2' s3) as H'. cbn [total bsize] in H'. rewrite !Z.add_0_r in H'.
    apply H'; try done; [right; by exists n| |chain_steps].
    destruct HW as [[[_ _ _ _ _ _ Hna _] _]%Forall_cons _]. simpl in Hna.
    apply no_adj_app in Hna as (_ & Hna & _). apply no_adj_app in Hna as (_ & Hna & _).
    by eapply starts_used_tail.
  - (* it is not *)
    rewrite Eb in Hwt. destruct Hwt as [[Hdn Hpn _] _]. apply wp_bind. eapply wp_get_size; [lia|done|by eapply Hnx|].
    rewrite flag_free, Hnf by done. apply wp_bind, wp_bind, wp_set_prev_phys; [lia|done| |unfold is_usize; lia|].
    { eapply mapped_sub; [exact Hm|lia|lia]. }
    intros m1 Hs1 Hw1. apply wp_ret. simpl in *.
    eapply (put_free_write _ _ _ _ _ _ _ _ _ _ _ HR HW); simpl; try done; try lia.
    { eapply mapped_step; [exact Hs1|done]. }
    { eapply FreeIndex_step; [exact Hs1|intros ???; avoid|done]. }
    intros s2 Hi2 Hs2 Hr2. step_words Hs2. pose proof (HQ [] l2 s2) as H'. cbn [total] in H'. rewrite !Z.add_0_r in H'.
    apply H'; try done; [by left|chain_steps].
Qed.

(** ** The outcome *)

(** [al] became [al'], with the bytes both have; the other allocations are
    as they were. *)
Definition realloced (s s' : St) (Ps : list pool) (al al' : alloc) : Prop :=
  exists Ps' others, live Ps ≡ₚ al :: others /\ live Ps' ≡ₚ al' :: others /\ post s s' Ps Ps' others /\
    forall i, 0 <= i < Z.min (a_size al) (a_size al') ->
      st_mem s' !! (a_ptr al' + i) = st_mem s !! (a_ptr al + i).

Lemma realloced_perm s s' Ps Ps' al al' : Ps ≡ₚ Ps' -> realloced s s' Ps al al' -> realloced s s' Ps' al al'.
Proof.
  intros HP (Qs & others & H1 & H2 & H3 & H4). exists Qs, others. split_and!; [by rewrite <- HP|done| |done].
  by eapply post_perm; [symmetry|reflexivity|].
Qed.

(** The same payload with another size. *)
Definition resize (al : alloc) (n : Z) : alloc := mkAlloc (a_ptr al) (a_align al) n.

Lemma alloc_ok_resize a sz sz' al n :
  alloc_ok a sz al -> 0 <= n -> a_ptr al + n <= a + sz' -> alloc_ok a sz' (resize al n).
Proof. intros [] Hn He. by split. Qed.

Lemma set_resized_spec a n al p F s (Q : unit -> St -> Prop) :
  0 < a -> (GRANULARITY | a) -> wf_block a (mkBlock n (Used al)) -> a + n + GRANULARITY <= USIZE_MOD ->
  mapped (st_mem s) a n -> FreeIndex (st_tlsf s) (st_mem s) F -> (forall x, link_area F x -> ~ a <= x < a + n) ->
  word_at (st_mem s) (a + WORD) p ->
  (GRANULARITY <= a_align al -> word_at (st_mem s) (a_ptr al - WORD) a) ->
  (forall m', mem_step (in_word a) (st_mem s) m' -> FreeIndex (st_tlsf s) m' F ->
     rep_block m' a p (mkBlock n (Used al)) -> Q tt (mkSt (st_tlsf s) m')) ->
  wp (set_size UsedBlockHdr a (Z.lor n SIZE_USED)) s Q.
Proof.
  intros Ha Hd Hb Hu Hm Hi Hout Hp Hpad HQ. pose proof Hb as [Hdn Hpn Hal]. cbn [bsize bkind] in *.
  pose proof (wf_block_ge _ _ Hb) as Hge. cbn [bsize] in Hge. pose proof WORD_pos. pose proof GRANULARITY_WORD as EG.
  rewrite size_used by done.
  apply wp_set_size; [done|done|eapply mapped_sub; [done|lia|lia]|unfold is_usize, SIZE_USED; lia|].
  intros m1 Hs1 Hw1. apply (HQ m1 Hs1).
  - eapply FreeIndex_step; [exact Hs1|intros ???; avoid|done].
  - step_words Hs1. split_and!; [done|done|]. cbn [bkind]. intros Hal'.
    destruct (alloc_pad a n al Hd Hal Hal') as [_ Hge']. eapply word_at_step; [exact Hs1|intros ???; avoid|auto].
Qed.

Lemma St_eta s : mkSt (st_tlsf s) (st_mem s) = s.
Proof. by destruct s. Qed.

(** What the client sees when the region is replaced. *)
Lemma region_realloced st l1 mid l2 Ps a1 a2 s0 s F m' h' mid' al al' :
  region_at st l1 mid a1 a2 -> Inv_on s (mkPool st (l1 ++ mid ++ l2) :: Ps) F ->
  mem_step (link_area (all_frees (mkPool st (l1 ++ mid ++ l2) :: Ps))) (st_mem s0) (st_mem s) ->
  region_new l1 mid l2 a1 mid' ->
  mem_step (step_area (outer st l1 l2 Ps a2) a1 a2) (st_mem s) m' ->
  rep m' a1 (last_block 0 st l1) mid' ->
  word_at m' (a2 + WORD) (last_block (last_block 0 st l1) a1 mid') ->
  FreeIndex h' m' (frees a1 mid' ++ outer st l1 l2 Ps a2) ->
  allocs mid = [al] -> allocs mid' = [al'] ->
  (forall i, 0 <= i < Z.min (a_size al) (a_size al') -> m' !! (a_ptr al' + i) = st_mem s0 !! (a_ptr al + i)) ->
  realloced s0 (mkSt h' m') (mkPool st (l1 ++ mid ++ l2) :: Ps) al al'.
Proof.
  intros HR HO Hs0 Hnew Hs Hr Hw Hi E E' Hc.
  exists (mkPool st (l1 ++ mid' ++ l2) :: Ps), (allocs l1 ++ allocs l2 ++ live Ps). split_and!.
  - rewrite live_cons; simpl. rewrite !allocs_app, E. solve_Permutation.
  - rewrite live_cons; simpl. rewrite !allocs_app, E'. solve_Permutation.
  - eapply (region_post HR (on_wf _ _ _ HO) s0 s _ m' h' mid'); [apply HO|reflexivity|done..].
  - done.
Qed.

(** A used block of [n] bytes at the front of the region, the rest free. *)
Lemma used_rest_new st l1 mid l2 Ps a1 a2 n al :
  region_at st l1 mid a1 a2 -> wf_pools (mkPool st (l1 ++ mid ++ l2) :: Ps) ->
  wf_block a1 (mkBlock n (Used al)) -> n <= a2 - a1 -> starts_used l2 ->
  region_new l1 mid l2 a1 (mkBlock n (Used al) :: rest (a2 - a1) n) /\
  wf_blocks (a1 + n) (rest (a2 - a1) n) /\ total (rest (a2 - a1) n) = a2 - a1 - n.
Proof.
  intros HR HW Hb Hn Hst. pose proof (region_ok HR HW) as [].
  destruct (rest_wf a1 (a2 - a1) n) as [Hw Ht]; [by apply Z.divide_sub_r|apply Hb|done|].
  split_and!; [|done|lia]. destruct HR as [E1 E2]. split; cbn [total bsize]; [lia|done| | |done].
  - constructor; [done|]. unfold rest. destruct (n =? _); by repeat constructor.
  - destruct HW as [[[_ _ _ _ _ _ Hna _] _]%Forall_cons _]. cbn [p_body] in Hna. rewrite !no_adj_app in *.
    destruct Hna as (H1 & (_ & H2 & _) & _). unfold rest, starts_used in *.
    split_and!; try done; destruct (n =? _); simpl; try done; try (by destruct l2).
    all: by destruct (last l1) as [c|]; rewrite ?andb_false_r.
Qed.

(** The block [b0] at the front of the region keeps its place with another
    size; the free space after it is already in order. *)
Lemma resize_finish st l1 old al tl l2 Ps a e s0 s1 F n size s2 (Q : unit -> St -> Prop) :
  let mid := mkBlock old (Used al) :: tl in let p := mkPool st (l1 ++ mid ++ l2) in
  let E := outer st l1 l2 Ps e in
  region_at st l1 mid a e -> Inv_on s1 (p :: Ps) F -> allocs tl = [] -> starts_used l2 ->
  mem_step (link_area (all_frees (p :: Ps))) (st_mem s0) (st_mem s1) ->
  0 <= size -> a_ptr al - a + size <= n -> n <= e - a -> (GRANULARITY | n) ->
  FreeIndex (st_tlsf s2) (st_mem s2) (frees (a + n) (rest (e - a) n) ++ E) ->
  mem_step (step_area E (a + n) e) (st_mem s1) (st_mem s2) ->
  rep (st_mem s2) (a + n) a (rest (e - a) n) ->
  word_at (st_mem s2) (e + WORD) (last_block a (a + n) (rest (e - a) n)) ->
  (forall s', realloced s0 s' (p :: Ps) al (resize al size) -> Q tt s') ->
  wp (set_size UsedBlockHdr a (Z.lor n SIZE_USED)) s2 Q.
Proof.
  intros mid p E HR HO Htl Hst Hs1 Hsz Hfit Hle Hdn Hi2 Hs2 Hr2 Hw2 HQ. pose proof HO as [HW Hrep _ _].
  pose proof (region_ok HR HW) as []. pose proof (outer_links HR HW) as Hout. apply Forall_cons in Hrep as [Hrp _].
  destruct (region_rep_mid HR _ Hrp) as [(_ & Hwp & Hpad) _]. cbn [bkind] in Hpad.
  destruct (region_wf HR HW) as (_ & [Hb _] & _). pose proof Hb as [_ _ Hal]. cbn [bkind bsize] in Hal.
  pose proof WORD_pos. pose proof GRANULARITY_WORD as EG. pose proof Hal as [_ _ Hpst _ _ Hpe].
  assert (Hge : GRANULARITY <= n) by (apply divide_pos_le; [lia|done|lia]).
  assert (Hbn : wf_block a (mkBlock n (Used (resize al size)))).
  { split; simpl; [done|lia|]. eapply alloc_ok_resize; [exact Hal|done|lia]. }
  destruct (used_rest_new _ _ _ _ _ _ _ n _ HR HW Hbn Hle Hst) as (Hnew & Hwr & Htr).
  step_words Hs2.
  eapply (set_resized_spec a n (resize al size) (last_block 0 st l1)); try done; try lia.
  { eapply mapped_step; [exact Hs2|]. apply (region_mapped HR HW _ _ _ Hrp); lia. }
  { intros x. rewrite link_area_app. intros [Hx|Hx] ?; [|avoid]. apply link_area_range in Hx; [lia|done]. }
  { cbn [a_align a_ptr resize]. intros Hal'. specialize (Hpad Hal').
    destruct (alloc_pad a old al rb_a1_aligned Hal Hal') as [_ Hge']. step_words Hs2. done. }
  intros m' Hs3 Hi3 Hrb. apply HQ. step_words Hs3.
  eapply (region_realloced st l1 mid l2 Ps a e s0 s1 _ m' _ _ al _ HR HO Hs1 Hnew); simpl; try done.
  - chain_steps.
  - split; [done|]. eapply rep_step; [exact Hs3|by apply Z.divide_add_r|done| |done].
    intros x Hx ?. apply foot_range in Hx; [avoid|done].
  - by rewrite Htl.
  - f_equal. unfold rest. by destruct (n =? _).
  - intros i Hi'. rewrite (mem_step_eq _ _ _ Hs3), (mem_step_eq _ _ _ Hs2), (mem_step_eq _ _ _ Hs1);
      [done| |intros ?; avoid..].
    intros Hl. eapply (foot_not_links _ p (a_ptr al + i) HW); [set_solver| |exact Hl].
    unfold p. rewrite p_blocks_split. cbn [p_start]. apply foot_app. right. destruct HR as [E1 _]. rewrite E1. left.
    unfold foot_block. simpl. lia.
Qed.

(** ** Shrinking *)

Lemma no_adj_used l1 b l2 b' : no_adj (l1 ++ [b] ++ l2) -> is_free b' = false -> no_adj (l1 ++ [b'] ++ l2).
Proof.
  rewrite !no_adj_app. intros (H1 & (_ & H2 & _) & _) E. split_and!; try done; simpl; rewrite ?E.
  - by destruct l2.
  - destruct (last l1) as [c|]; [apply andb_false_r|done].
Qed.

Lemma no_adj_used_free l1 mid l2 b n :
  no_adj (l1 ++ mid ++ l2) -> is_free b = false -> starts_used l2 -> no_adj (l1 ++ [b; mkBlock n Free] ++ l2).
Proof.
  rewrite !no_adj_app. intros (H1 & (_ & H2 & _) & _) E Hs. split_and!; try done; simpl; rewrite ?E.
  - done.
  - by destruct l2.
  - destruct (last l1) as [c|]; [apply andb_false_r|done].
Qed.

Section Resize.
Context {st : Z} {l1 : list block} {old : Z} {al : alloc} {l2 : list block} {Ps : list pool} {a : Z} {s : St}.
#[local] Abbreviation used := (mkBlock old (Used al)).
#[local] Abbreviation pool0 := (mkPool st (l1 ++ [used] ++ l2)).
Context (HR : region_at st l1 [used] a (a + old)).
Context (HI : Inv s (pool0 :: Ps)).

Lemma used_on : Inv_on s (pool0 :: Ps) (outer st l1 l2 Ps (a + old)).
Proof.
  eapply Inv_on_perm; [|by apply Inv_on_all]. destruct HR as [E1 E2]. symmetry.
  by apply (all_frees_region st l1 [used] l2 Ps a).
Qed.

(** No size change of the block: the header already fits. *)
Lemma same_size_realloced n :
  0 <= n -> a_ptr al + n <= a + old -> realloced s s (pool0 :: Ps) al (resize al n).
Proof.
  intros Hn He. pose proof HI as [HW Hrep Hi]. apply Forall_cons in Hrep as [Hrp _].
  destruct (used_header _ _ _ _ _ _ _ _ HR HI) as (Ha & Hda & Hb & Hu & Hrb).
  pose proof Hb as [Hd Hp Hal]. cbn [bsize bkind] in *. rewrite <- (St_eta s) at 2.
  eapply (region_realloced st l1 [used] l2 Ps a (a + old) _ s _ _ _ [mkBlock old (Used (resize al n))]);
    [exact HR|apply used_on|apply mem_step_refl| |apply mem_step_refl| | | |done|done|done].
  - split; simpl; [done| |by repeat constructor| |done].
    + split; [|done]. split; simpl; [done|done|]. eapply alloc_ok_resize; [exact Hal|done|done].
    + eapply no_adj_used; [|done]. destruct HW as [[[] _]%Forall_cons _]. done.
  - split; [|done]. destruct Hrb as (R1 & R2 & R3). by split_and!.
  - destruct (region_next HR HW _ Hrp) as (b & l & _ & _ & (_ & Hpw & _) & _). exact Hpw.
  - apply (on_index _ _ _ used_on).
Qed.

Lemma reallocate_shrink_spec n size (Q : unit -> St -> Prop) :
  0 <= size -> a_ptr al - a + size <= n -> n <= old -> (GRANULARITY | n) ->
  (forall s', realloced s s' (pool0 :: Ps) al (resize al size) -> Q tt s') ->
  wp (reallocate_shrink a n old) s Q.
Proof.
  intros Hsz Hfit Hle Hdn HQ. unfold reallocate_shrink. destruct (Z.eqb_spec n old) as [->|Hne].
  { apply wp_ret, HQ, same_size_realloced; lia. }
  pose proof used_on as HO. pose proof HO as [HW Hrep Hi _]. apply Forall_cons in Hrep as [Hrp _].
  destruct (used_header _ _ _ _ _ _ _ _ HR HI) as (Ha & Hda & Hb & Hu & Hw & Hwp & Hpad).
  pose proof Hb as [Hd Hp Hal]. cbn [bsize bkind] in *. pose proof Hal as [_ _ Hst _ _ _]. pose proof WORD_pos.
  assert (Hge : GRANULARITY <= n) by (apply divide_pos_le; [pose proof GRANULARITY_pos; lia|done|lia]).
  pose proof GRANULARITY_WORD as EG. assert (Hdf : (GRANULARITY | a + n)) by by apply Z.divide_add_r.
  wp_pure usub_ok; [lia|]. wp_pure uadd_ok; [lia|].
  apply wp_bind. eapply wp_next_phys_block; [done|done|exact Hb|done|exact Hw|simpl; lia|]. cbn [bsize].
  replace (old - n) with (a + old - (a + n)) by lia. apply wp_bind.
  eapply (put_free_spec _ _ _ _ _ _ _ _ _ _ _ HR HW); [apply Hrp|exact Hi|lia|done|lia|unfold is_usize; lia| |].
  { intros b l Eb. destruct (region_next HR HW _ Hrp) as (b' & l' & Eb' & _ & (Hw' & _) & _). rewrite Eb in Eb'.
    by simplify_eq. }
  intros nf l2' s1 -> Hnf Hsu Hi1 Hs1 Hr1 Hw1. destruct (region_widen _ _ _ _ _ _ _ _ HR HW) as (HR' & HW' & Hnn).
  set (e := a + old + total nf) in *.
  assert (Erest : rest (e - a) n = [mkBlock (e - (a + n)) Free]).
  { unfold rest. rewrite (proj2 (Z.eqb_neq _ _)) by lia. do 2 f_equal. lia. }
  assert (HE : l1 ++ [used] ++ nf ++ l2' = l1 ++ (used :: nf) ++ l2') by done.
  rewrite HE in *. eapply (resize_finish st l1 old al nf l2' Ps a e s s _ n size s1 _ HR' HO); rewrite ?Erest; try done; try lia.
  - by apply maybe_free_allocs.
Qed.

(** ** Growing into the next block *)

Section Grow.
Context (nsz : Z) (l2' : list block) (El2 : l2 = mkBlock nsz Free :: l2').
#[local] Abbreviation e := (a + old + nsz).

Lemma grow_region :
  region_at st l1 [used; mkBlock nsz Free] a e /\
  wf_pools (mkPool st (l1 ++ [used; mkBlock nsz Free] ++ l2') :: Ps) /\
  (GRANULARITY | nsz) /\ 0 < nsz /\ starts_used l2'.
Proof.
  pose proof (inv_wf _ _ HI) as HW. rewrite El2 in HW. destruct (region_wf HR HW) as (_ & _ & [[Hd Hp _] _]).
  destruct (region_widen st l1 [used] [mkBlock nsz Free] l2' Ps a (a + old) HR HW) as (HR' & HW' & _).
  cbn [total bsize] in HR'. rewrite Z.add_0_r in HR'. split_and!; try done.
  destruct HW as [[[_ _ _ _ _ _ Hna _] _]%Forall_cons _]. simpl in Hna.
  apply no_adj_app in Hna as (_ & [_ Hna] & _). by eapply starts_used_tail.
Qed.

Lemma reallocate_grow_spec n size (Q : unit -> St -> Prop) :
  0 <= size -> a_ptr al - a + size <= n -> old < n <= old + nsz -> (GRANULARITY | n) ->
  (forall s', realloced s s' (pool0 :: Ps) al (resize al size) -> Q tt s') ->
  wp (reallocate_grow a (a + old) e nsz (n - old) n) s Q.
Proof.
  intros Hsz Hfit Hle Hdn HQ. destruct grow_region as (HR' & HW' & Hdz & Hpz & Hst).
  pose proof (region_ok HR' HW') as []. pose proof (outer_links HR' HW') as Hout.
  pose proof WORD_pos. pose proof GRANULARITY_WORD as EG.
  destruct (used_header _ _ _ _ _ _ _ _ HR HI) as (_ & _ & Hb & _). pose proof (wf_block_ge _ _ Hb) as Hgo.
  cbn [bsize] in Hgo. assert (Hdf : (GRANULARITY | a + n)) by by apply Z.divide_add_r.
  assert (EP : pool0 = mkPool st (l1 ++ [used; mkBlock nsz Free] ++ l2')) by (by rewrite El2).
  set (E := outer st l1 l2' Ps e) in *.
  unfold reallocate_grow. apply wp_bind. eapply (unlink_on _ _ s (pool0 :: Ps) E).
  { eapply Inv_on_perm; [|apply used_on]. unfold E, outer. rewrite El2. simpl. solve_Permutation. }
  intros s1 HO1 Hs1. rewrite EP in HO1. pose proof HO1 as [_ Hrep1 Hi1 _]. apply Forall_cons in Hrep1 as [Hrp1 _].
  assert (Hs1' : mem_step (link_area (all_frees (pool0 :: Ps))) (st_mem s) (st_mem s1)).
  { eapply mem_step_weaken; [exact Hs1|]. intros x. apply link_area_sub. rewrite EP. apply HO1. }
  rewrite EP in Hs1', HQ. clear Hs1.
  pose proof (fun s2 => resize_finish st l1 old al [mkBlock nsz Free] l2' Ps a e s s1 E n size s2 Q
                HR' HO1 eq_refl Hst Hs1' Hsz Hfit ltac:(lia) Hdn) as Hfin. unfold rest in Hfin.
  apply wp_bind. destruct (Z.ltb_spec (n - old) nsz) as [Hlt|Hge].
  - rewrite (proj2 (Z.eqb_neq _ _)) in Hfin by lia. replace (e - a - n) with (e - (a + n)) in Hfin by lia.
    wp_pure usub_ok; [lia|]. wp_pure uadd_ok; [lia|]. replace (nsz - (n - old)) with (e - (a + n)) by lia.
    apply wp_assoc, wp_bind. eapply (put_free_write _ _ _ _ _ _ _ _ _ _ _ HR' HW'); try done; try lia.
    { apply Hrp1. }
    { unfold is_usize. lia. }
    fold E. intros s2 Hi2 Hs2 Hr2. apply wp_set_prev_phys; [lia|done| |unfold is_usize; lia|].
    { eapply mapped_step; [exact Hs2|]. apply (region_mapped HR' HW' _ _ _ Hrp1); lia. }
    assert (a + n + GRANULARITY <= e) by (apply divide_gap; [lia|done|done|lia]).
    intros m3 Hs3 Hw3. apply Hfin; simpl; try done.
    + eapply FreeIndex_step; [exact Hs3| |exact Hi2]. intros x. rewrite link_area_cons. intros [?|?] ?; avoid.
    + chain_steps.
    + split; [|done]. destruct Hr2 as [R2 _].
      eapply rep_block_step; [exact Hs3|done| |intros x Hx ?; unfold foot_block in Hx; simpl in Hx; avoid|exact R2].
      split; simpl; [by apply Z.divide_sub_r|lia|done].
  - rewrite (proj2 (Z.eqb_eq _ _)) in Hfin by lia.
    apply wp_bind, wp_check; [apply Z.eqb_eq; lia|]. apply wp_set_prev_phys; [lia|done| |unfold is_usize; lia|].
    { apply (region_mapped HR' HW' _ _ _ Hrp1); lia. }
    intros m3 Hs3 Hw3. apply Hfin; simpl; try done.
    + eapply FreeIndex_step; [exact Hs3|intros ???; avoid|exact Hi1].
    + chain_steps.
Qed.

End Grow.

Lemma reallocate_nonmoving_spec n size (Q : unit + Z * Z -> St -> Prop) :
  0 <= size -> a_ptr al - a + size <= n -> old < n -> (GRANULARITY | n) ->
  (forall s', realloced s s' (pool0 :: Ps) al (resize al size) -> Q (inl tt) s') ->
  (forall nf l2', l2 = nf ++ l2' -> maybe_free nf -> starts_used l2' ->
     Q (inr (old + total nf, a + old + total nf)) s) ->
  wp (reallocate_nonmoving a (a + old) n old) s Q.
Proof.
  intros Hsz Hfit Hlt Hdn HS HN. pose proof used_on as [HW Hrep Hi _]. apply Forall_cons in Hrep as [Hrp _].
  pose proof (region_ok HR HW) as []. pose proof GRANULARITY_pos. unfold reallocate_nonmoving. wp_pure usub_ok; [lia|].
  destruct (region_next HR HW _ Hrp) as (b & l & Eb & Hb & (Hw & _) & _). pose proof Hb as [Hd Hp _].
  apply wp_bind. eapply wp_get_size; [lia|done|exact Hw|]. rewrite flag_free by done.
  destruct (is_free b) eqn:Ef; cbn [negb]; swap 1 2.
  { assert (Hst : starts_used l2) by (by eapply starts_used_head). apply wp_ret. pose proof (HN [] l2) as H'.
    cbn [total] in H'. rewrite !Z.add_0_r in H'. apply H'; [done|by left|done]. }
  destruct b as [nsz []]; try done. assert (El2 : exists l2', l2 = mkBlock nsz Free :: l2') by (by eapply free_head).
  destruct El2 as [l2' El2]. cbn [bsize bkind] in *. rewrite flags_Free, Z.add_0_r in *.
  destruct (grow_region nsz l2' El2) as (HR' & HW' & _ & _ & Hst). pose proof (region_ok HR' HW') as [].
  rewrite free_size_mask by (done || unfold is_usize; lia). apply wp_bind, wp_check; [apply Z.eqb_refl|].
  apply wp_bind. eapply (wp_next_phys_block _ _ (mkBlock nsz Free)); simpl; [lia|done|exact Hb|done| |lia|].
  { by rewrite flags_Free, Z.add_0_r. }
  wp_pure uadd_ok; [lia|]. destruct (Z.ltb_spec nsz (n - old)) as [Hno|Hyes].
  - apply wp_ret. pose proof (HN [mkBlock nsz Free] l2') as H'. cbn [total bsize] in H'. rewrite !Z.add_0_r in H'.
    apply H'; [done|right; by exists nsz|done].
  - apply wp_bind. eapply (reallocate_grow_spec nsz l2' El2); [exact Hsz|done|lia|done|].
    intros s' Hr. apply wp_ret. auto.
Qed.

(** ** Growing into the previous block *)

Section Move.
Context (psz : Z) (l1' nf l2' : list block).
Context (El1 : l1 = l1' ++ [mkBlock psz Free]) (El2 : l2 = nf ++ l2') (Hnf : maybe_free nf) (Hst : starts_used l2').
#[local] Abbreviation c := (a - psz).
#[local] Abbreviation e := (a + old + total nf).
#[local] Abbreviation mid := (mkBlock psz Free :: used :: nf).
#[local] Abbreviation pool1 := (mkPool st (l1' ++ mid ++ l2')).
#[local] Abbreviation E := (outer st l1' l2' Ps e).

Lemma move_pool : pool0 = pool1.
Proof. rewrite El1, El2. by rewrite <- app_assoc. Qed.

Lemma move_region :
  region_at st l1' mid c e /\ wf_pools (pool1 :: Ps) /\ (GRANULARITY | psz) /\ 0 < psz /\ 0 <= total nf.
Proof.
  pose proof (inv_wf _ _ HI) as HW. rewrite move_pool in HW.
  assert (HR' : region_at st l1' mid c e).
  { destruct HR as [E1 E2]. rewrite El1, total_app in E1. cbn [total bsize] in *. split; cbn [total bsize]; lia. }
  destruct (region_wf HR' HW) as (_ & ([Hd Hp _] & _ & Hnn) & _). apply total_nonneg in Hnn. by split_and!.
Qed.

(** The free space is in order after the copy. *)
Lemma move_tail n s2 (Q : unit -> St -> Prop) :
  FreeIndex (st_tlsf s2) (st_mem s2) E -> mapped (st_mem s2) st (p_len pool1) ->
  (forall b l, l2' ++ [sentinel] = b :: l -> word_at (st_mem s2) e (bsize b + flags (bkind b))) ->
  (GRANULARITY | n) -> 0 < n <= e - c ->
  (forall s3, FreeIndex (st_tlsf s3) (st_mem s3) (frees (c + n) (rest (e - c) n) ++ E) ->
     mem_step (step_area E (c + n) e) (st_mem s2) (st_mem s3) ->
     rep (st_mem s3) (c + n) c (rest (e - c) n) ->
     word_at (st_mem s3) (e + WORD) (last_block c (c + n) (rest (e - c) n)) -> Q tt s3) ->
  wp (if n =? e - c then set_prev_phys_block BlockHdr e c
      else
        new_free_block ← lift (uadd c n);
        new_free_block_size ← lift (usub (e - c) n);
        reallocate_put_free e new_free_block new_free_block_size c) s2 Q.
Proof.
  intros Hi Hm Hnx Hdn Hn HQ. destruct move_region as (HR' & HW' & Hdp & Hpp & Hnn).
  pose proof (region_ok HR' HW') as []. pose proof (outer_links HR' HW') as Hout. pose proof WORD_pos.
  pose proof GRANULARITY_WORD as EG. unfold rest in HQ. destruct (Z.eqb_spec n (e - c)) as [En|Hne].
  - apply wp_set_prev_phys; [lia|done|eapply mapped_sub; [exact Hm|lia|lia]|unfold is_usize; lia|].
    intros m3 Hs3 Hw3. apply HQ; simpl; try done.
    + eapply FreeIndex_step; [exact Hs3|intros ???; avoid|done].
    + chain_steps.
  - wp_pure uadd_ok; [lia|]. wp_pure usub_ok; [lia|]. replace (e - c - n) with (e - (c + n)) in * by lia.
    eapply (put_free_spec _ _ _ _ _ _ _ _ _ _ _ HR' HW'); try done; try lia; [by apply Z.divide_add_r|unfold is_usize; lia|].
    intros nf2 l3 s3 El3 Hnf2 _. assert (nf2 = []) as ->.
    { destruct Hnf2 as [->|[k ->]]; [done|]. by rewrite El3 in Hst. }
    cbn [total app] in *. rewrite !Z.add_0_r. subst l3. simpl. by apply HQ.
Qed.

Lemma move_write l ptr n s1 (Q : option Z -> St -> Prop) :
  Inv_on s1 (pool1 :: Ps) E -> mem_step (link_area (all_frees (pool1 :: Ps))) (st_mem s) (st_mem s1) ->
  layout_ok l -> payload_at l c ptr -> (GRANULARITY | n) -> ptr - c + l_size l <= n -> 0 < n <= e - c ->
  (forall s', realloced s s' (pool0 :: Ps) al (mkAlloc ptr (l_align l) (l_size l)) -> Q (Some ptr) s') ->
  wp (copy (a_ptr al) ptr (Z.min (l_size l) (a + old - a_ptr al));;
      (if n =? e - c then set_prev_phys_block BlockHdr e c
       else
         new_free_block ← lift (uadd c n);
         new_free_block_size ← lift (usub (e - c) n);
         reallocate_put_free e new_free_block new_free_block_size c);;
      set_size UsedBlockHdr c (Z.lor n SIZE_USED);;
      (if GRANULARITY <=? l_align l then set_block_hdr (get_for_allocation ptr) c else mret tt);;
      mret (Some ptr)) s1 Q.
Proof.
  intros HO Hs1 Hl Hpa Hdn Hfit Hn HQ. destruct move_region as (HR' & HW' & Hdp & Hpp & Hnn).
  pose proof (region_ok HR' HW') as []. pose proof (outer_links HR' HW') as Hout.
  pose proof HO as [_ Hrep Hi1 _]. apply Forall_cons in Hrep as [Hrp _].
  destruct (used_header _ _ _ _ _ _ _ _ HR HI) as (Ha & Hda & [_ _ Hal] & _). cbn [bsize bkind] in Hal.
  pose proof Hal as [_ _ Hpst _ Hsz0 Hpe]. pose proof Hpa as [Hp1 _ _ _ _]. pose proof (proj1 Hl) as [Hls _].
  pose proof WORD_pos. pose proof GRANULARITY_WORD as EG. set (k := Z.min (l_size l) (a + old - a_ptr al)) in *.
  assert (Hmap : forall x j, st <= x -> x + j <= e + GRANULARITY -> mapped (st_mem s1) x j)
    by (intros; by apply (region_mapped HR' HW' _ _ _ Hrp)).
  apply wp_bind, wp_copy; [lia|apply Hmap; lia|apply Hmap; lia|]. intros m2 Hs2 Hc2.
  assert (Hge : GRANULARITY <= n) by (apply divide_pos_le; [lia|done|lia]).
  destruct (region_rep_mid HR' _ Hrp) as [(_ & Hwp & _) _].
  destruct (region_next HR' HW' _ Hrp) as (b & lb & Eb & _ & (Hwn & _) & _). step_words Hs2.
  apply wp_bind. eapply (move_tail n); simpl; [|by eapply mapped_step; [exact Hs2|apply Hrp]| |done|lia|].
  { eapply FreeIndex_step; [exact Hs2|intros ???; avoid|done]. }
  { intros b' l' Eb'. rewrite Eb in Eb'. by simplify_eq. }
  intros s3 Hi3 Hs3 Hr3 Hw3. step_words Hs3.
  assert (Hbn : wf_block c (mkBlock n (Used (mkAlloc ptr (l_align l) (l_size l))))).
  { split; simpl; [done|lia|]. destruct Hpa as [? ? ? ? ?]. split; simpl; try done; try lia.
    destruct Hl as [_ (j & Hj & ->)]. exists j. split; [lia|done]. }
  destruct (used_rest_new _ _ _ _ _ _ _ n _ HR' HW' Hbn ltac:(lia) Hst) as (Hnew & Hwr & Htr).
  eapply (set_used_spec _ l c n ptr (last_block 0 st l1')); try done; try lia.
  { eapply mapped_step; [exact Hs3|]. eapply mapped_step; [exact Hs2|]. apply Hmap; lia. }
  { intros x. rewrite link_area_app. intros [Hx|Hx] ?; [|avoid]. apply link_area_range in Hx; [lia|done]. }
  intros m4 Hs4 Hi4 Hb4. apply wp_ret, HQ. step_words Hs4. rewrite move_pool.
  eapply (region_realloced _ _ _ _ _ _ _ s s1 _ m4 _ _ al _ HR' HO Hs1 Hnew); simpl; try done.
  - chain_steps.
  - split; [done|]. eapply rep_step; [exact Hs4|by apply Z.divide_add_r|done| |done].
    intros x Hx ?. apply foot_range in Hx; [avoid|done].
  - by rewrite (maybe_free_allocs nf Hnf).
  - f_equal. unfold rest. by destruct (n =? _).
  - intros i Hi'. rewrite (mem_step_eq _ _ _ Hs4), (mem_step_eq _ _ _ Hs3), Hc2, (mem_step_eq _ _ _ Hs1);
      [done| |lia|intros ?; avoid..].
    intros Hlk. pose proof (inv_wf _ _ HI) as HW. rewrite <- move_pool in Hlk.
    eapply (foot_not_links _ pool0 (a_ptr al + i) HW); [set_solver| |exact Hlk].
    rewrite p_blocks_split. cbn [p_start]. apply foot_app. right. destruct HR as [E1 _]. rewrite E1. left.
    unfold foot_block. simpl. lia.
Qed.

Lemma move_frees : all_frees (pool0 :: Ps) ≡ₚ (c, psz) :: frees (a + old) nf ++ E.
Proof.
  destruct move_region as ([E1 E2] & _). rewrite move_pool, (all_frees_region st l1' mid l2' Ps c e) by done.
  cbn [frees is_free bkind bsize app]. by replace (c + psz + old) with (a + old) by lia.
Qed.

(** Taking the free blocks around the used one off their lists. *)
Lemma move_unlink (k : M St (option Z)) (Q : option Z -> St -> Prop) :
  (forall s1, Inv_on s1 (pool1 :: Ps) E ->
     mem_step (link_area (all_frees (pool1 :: Ps))) (st_mem s) (st_mem s1) -> wp k s1 Q) ->
  wp (unlink_free_block c psz;;
      next_size_and_flags ← get_size BlockHdr (a + old);
      (if Z.land next_size_and_flags SIZE_USED =? 0 then
         lift (check (next_size_and_flags =? Z.land next_size_and_flags SIZE_SIZE_MASK));;
         unlink_free_block (a + old) next_size_and_flags
       else mret tt);;
      k) s Q.
Proof.
  intros HQ. pose proof (inv_wf _ _ HI) as HW. pose proof (region_ok HR HW) as []. pose proof GRANULARITY_pos.
  rewrite <- move_pool in HQ. assert (HO : Inv_on s (pool0 :: Ps) ((c, psz) :: frees (a + old) nf ++ E)).
  { eapply Inv_on_perm; [|by apply Inv_on_all]. by rewrite move_frees. }
  assert (Hsub : forall F m m', F ⊆ all_frees (pool0 :: Ps) -> mem_step (link_area F) m m' ->
            mem_step (link_area (all_frees (pool0 :: Ps))) m m').
  { intros F m m' HF Hm. eapply mem_step_weaken; [exact Hm|]. intros x. by apply link_area_sub. }
  apply wp_bind. eapply unlink_on; [exact HO|]. intros s1 HO1 Hs1. apply Hsub in Hs1; [|apply HO1].
  pose proof (on_rep _ _ _ HO1) as [Hrp _]%Forall_cons.
  destruct (region_next HR HW _ Hrp) as (b & l & Eb & Hb & (Hw & _) & _). pose proof Hb as [Hd Hp _].
  apply wp_bind. eapply wp_get_size; [lia|done|exact Hw|]. rewrite flag_free by done.
  destruct Hnf as [E0|[n E0]]; rewrite E0 in *; cbn [app total bsize frees is_free bkind] in *.
  - rewrite El2 in Eb. replace (is_free b) with false.
    2: { destruct l2'; simpl in *; simplify_eq; done. }
    apply wp_bind, wp_ret, HQ; done.
  - rewrite El2 in Eb. simpl in Eb. injection Eb as <- _. cbn [is_free bkind bsize] in *. rewrite flags_Free, Z.add_0_r in *.
    pose proof (region_wf HR HW) as (_ & _ & Hw2). rewrite El2 in Hw2. cbn [app wf_blocks] in Hw2.
    destruct Hw2 as [_ Hw2%total_nonneg]. rewrite El2 in rb_usize. cbn [app total bsize] in rb_usize.
    rewrite free_size_mask by (done || unfold is_usize; lia).
    apply wp_bind, wp_bind, wp_check; [apply Z.eqb_refl|]. eapply unlink_on; [exact HO1|].
    intros s2 HO2 Hs2. apply Hsub in Hs2; [|apply HO2]. apply HQ; [done|by eapply mem_step_trans].
Qed.

Lemma reallocate_move_spec l ptr n (Q : option Z -> St -> Prop) :
  layout_ok l -> payload_at l c ptr -> (GRANULARITY | n) -> ptr - c + l_size l <= n -> 0 < n <= e - c ->
  (forall s', realloced s s' (pool0 :: Ps) al (mkAlloc ptr (l_align l) (l_size l)) -> Q (Some ptr) s') ->
  wp (reallocate_move l (a_ptr al) (a + old) c psz ptr n (Z.min (l_size l) (a + old - a_ptr al)) (e - c) e) s Q.
Proof. intros. apply move_unlink. intros s1 HO1 Hs1. by apply move_write. Qed.

End Move.

Lemma moved_ptr_ok l c0 :
  layout_ok l -> 0 < c0 -> c0 + 2 * WORD + l_align l < USIZE_MOD ->
  moved_ptr (l_align l) c0 = Ok (round_up (l_align l) (c0 + 2 * WORD)).
Proof.
  intros Hl Hc Hb. pose proof (layout_align_bounds l Hl). pose proof WORD_pos.
  assert (Hal : 0 < l_align l) by lia. pose proof (round_up_spec (l_align l) (c0 + 2 * WORD) Hal) as [Hr _].
  unfold moved_ptr, size_of_UsedBlockHdr. rewrite uadd_ok by lia. cbn [mbind Res_bind].
  rewrite uadd_ok by lia. cbn [mbind Res_bind]. rewrite usub_ok by lia. cbn [mbind Res_bind].
  replace (Z.land _ _) with (round_up (l_align l) (c0 + 2 * WORD)).
  - by rewrite (proj2 (Z.eqb_neq _ _)) by lia.
  - destruct Hl as [_ (k & Hk & Ek)]. rewrite Ek in *. symmetry. apply land_round_up; lia.
Qed.

(** The alignment of a live allocation leaves room below the top of the
    address space. *)
Lemma align_room l :
  layout_ok l -> l_align l = a_align al -> a_ptr al + l_align l <= USIZE_MOD.
Proof.
  intros [_ (k & Hk & Ek)] Eal. destruct (used_header _ _ _ _ _ _ _ _ HR HI) as (Ha & Hda & [_ _ Hal] & Hu & _).
  cbn [bsize bkind] in *. pose proof (used_ptr a old al Ha Hda Hal Hu) as (Hp & _). destruct Hal.
  apply divide_gap; [rewrite Ek; by apply pow2_pos; lia|by rewrite Eal| |lia].
  rewrite Ek. apply pow2_divide_le; [lia|lia|apply pow2_le; lia].
Qed.

Lemma reallocate_moving_spec l nf l2' (Q : option Z -> St -> Prop) :
  l2 = nf ++ l2' -> maybe_free nf -> starts_used l2' -> layout_ok l -> l_align l = a_align al ->
  Q None s ->
  (forall ptr s', realloced s s' (pool0 :: Ps) al (mkAlloc ptr (l_align l) (l_size l)) -> Q (Some ptr) s') ->
  wp (reallocate_moving (a_ptr al) a (a_ptr al - a) l old (a + old) (old + total nf) (a + old + total nf)) s Q.
Proof.
  intros El2 Hnf Hst Hl Eal HN HS. pose proof (align_room l Hl Eal) as Hroom.
  destruct (used_header _ _ _ _ _ _ _ _ HR HI) as (Ha & Hda & Hb & Hu & _ & Hwp & _).
  pose proof Hb as [Hd Hp Hal]. cbn [bsize bkind] in *. pose proof Hal as [_ _ Hps _ Hs0 Hpe].
  pose proof HI as [HW [Hrp _]%Forall_cons _]. pose proof GRANULARITY_pos. pose proof WORD_pos.
  unfold reallocate_moving. apply wp_bind. eapply wp_get_prev_phys; [done|done|exact Hwp|].
  destruct (region_prev HR HW _ Hrp) as [[_ ->]|(l0 & pb & El1 & -> & Hge & Hc & Hpb & Hw)]; [by apply wp_ret|].
  pose proof (region_ok HR HW) as []. rewrite (proj2 (Z.eqb_neq _ 0)) by lia. pose proof Hpb as [Hpd Hpp _].
  apply wp_bind. eapply wp_get_size; [lia|done|exact Hw|]. rewrite flag_free by done.
  destruct (is_free pb) eqn:Ef; cbn [negb]; [|by apply wp_ret].
  destruct pb as [psz []]; try done. cbn [bsize bkind] in *. rewrite flags_Free, Z.add_0_r in *.
  rewrite free_size_mask by (done || unfold is_usize; lia). apply wp_bind, wp_check; [apply Z.eqb_refl|].
  destruct (move_region psz l0 nf l2' El1 El2) as (HR' & HW' & _ & _ & Hnn). pose proof (region_ok HR' HW') as [].
  wp_pure uadd_ok; [lia|]. wp_pure moved_ptr_ok; [done|lia|lia|].
  pose proof (payload_at_round l (a - psz) Hl Hc) as Hpa. set (ptr := round_up (l_align l) (a - psz + 2 * WORD)) in *.
  pose proof Hpa as [Hp1 _ _ _ _]. pose proof (proj1 Hl) as [Hls _]. wp_pure usub_ok; [lia|].
  destruct (checked_add (ptr - _) _) as [x|] eqn:E1; [|by apply wp_ret]. apply checked_add_Some in E1 as [-> Hb1].
  destruct (checked_add (_ + _) _) as [x|] eqn:E2; [|by apply wp_ret]. apply checked_add_Some in E2 as [-> Hb2].
  rewrite granule_mask by (unfold is_usize; lia). set (n := round_up GRANULARITY (ptr - (a - psz) + l_size l)).
  assert (Hg0 : 0 < GRANULARITY) by lia.
  pose proof (round_up_spec GRANULARITY (ptr - (a - psz) + l_size l) Hg0) as [Hr Hdn]. fold n in Hr, Hdn.
  destruct (Z.ltb_spec (old + total nf + psz) n) as [Hno|Hyes]; [by apply wp_ret|].
  wp_pure usub_ok; [lia|]. replace (old - (a_ptr al - a)) with (a + old - a_ptr al) by lia.
  replace (old + total nf + psz) with (a + old + total nf - (a - psz)) by lia.
  eapply (reallocate_move_spec psz l0 nf l2' El1 El2 Hnf Hst); [done|done|done|lia|lia|]. auto.
Qed.

Lemma reallocate_inplace_spec l (Q : option Z -> St -> Prop) :
  layout_ok l -> l_align l = a_align al ->
  (a + old - a_ptr al < l_size l -> Q None s) ->
  (forall ptr s', realloced s s' (pool0 :: Ps) al (mkAlloc ptr (l_align l) (l_size l)) -> Q (Some ptr) s') ->
  wp (reallocate_inplace (a_ptr al) a l) s Q.
Proof.
  intros Hl Eal HN HS. destruct (used_header _ _ _ _ _ _ _ _ HR HI) as (Ha & Hda & Hb & Hu & Hw & _).
  pose proof Hb as [Hd Hp Hal]. cbn [bsize bkind] in *. pose proof Hal as [_ _ Hps _ Hs0 Hpe].
  pose proof (proj1 Hl) as [Hls _]. pose proof GRANULARITY_pos. pose proof WORD_pos.
  assert (HS' : forall s', realloced s s' (pool0 :: Ps) al (resize al (l_size l)) -> Q (Some (a_ptr al)) s').
  { intros s' Hr. apply HS. by rewrite Eal. }
  unfold reallocate_inplace. wp_pure usub_ok; [lia|].
  destruct (checked_add (a_ptr al - a) _) as [x|] eqn:E1; [|apply checked_add_None in E1; apply wp_ret, HN; lia].
  apply checked_add_Some in E1 as [-> Hb1].
  destruct (checked_add (_ + _) _) as [x|] eqn:E2; [|apply checked_add_None in E2; apply wp_ret, HN; lia].
  apply checked_add_Some in E2 as [-> Hb2]. rewrite granule_mask by (unfold is_usize; lia).
  set (n := round_up GRANULARITY (a_ptr al - a + l_size l)). assert (Hg0 : 0 < GRANULARITY) by lia.
  pose proof (round_up_spec GRANULARITY (a_ptr al - a + l_size l) Hg0) as [Hr Hdn]. fold n in Hr, Hdn.
  change (flags (Used al)) with SIZE_USED in Hw. apply wp_bind. eapply wp_get_size; [done|done|exact Hw|].
  wp_pure usub_ok; [unfold SIZE_USED; lia|]. replace (old + SIZE_USED - SIZE_USED) with old by lia.
  apply wp_bind, wp_check.
  { apply Z.eqb_eq. symmetry. apply (size_mask old (Used al)); [done|]. unfold is_usize, flags, SIZE_USED. lia. }
  destruct (Z.leb_spec n old) as [Hle|Hgt].
  - apply wp_bind. eapply (reallocate_shrink_spec n (l_size l)); [lia|lia|done|done|]. intros s' Hr'. apply wp_ret. auto.
  - apply wp_bind. eapply wp_next_phys_block; [done|done|exact Hb|done|exact Hw|simpl; lia|]. cbn [bsize].
    apply wp_bind. eapply (reallocate_nonmoving_spec n (l_size l)); [lia|lia|done|done| |].
    + intros s' Hr'. apply wp_ret. auto.
    + intros nf l2' El2 Hnf Hst. apply (reallocate_moving_spec l nf l2'); try done. apply HN.
      destruct (Z.le_gt_cases (a_ptr al - a + l_size l) old) as [Hle|]; [|lia].
      pose proof (round_up_le GRANULARITY _ old Hg0 Hd Hle). fold n in H1. lia.
Qed.

End Resize.

(** ** Moving to a new allocation *)

(** The usable size of the allocation in a block. *)
Lemma size_of_used st l1 sz al l2 Ps a s :
  region_at st l1 [mkBlock sz (Used al)] a (a + sz) ->
  Inv s (mkPool st (l1 ++ [mkBlock sz (Used al)] ++ l2) :: Ps) ->
  size_of_allocation (a_ptr al) (a_align al) s = Ok (a + sz - a_ptr al, s) /\
  size_of_allocation_unknown_align (a_ptr al) s = Ok (a + sz - a_ptr al, s).
Proof.
  intros HR HI. set (n := a + sz - a_ptr al).
  assert (Hin : forall find : M St Z, (forall Q : Z -> St -> Prop, Q a s -> wp find s Q) ->
    (block ← find; size_of_allocation_in_block (a_ptr al) block) s = Ok (n, s)).
  { intros find Hf. assert (Hw : wp (block ← find; size_of_allocation_in_block (a_ptr al) block) s (fun n' s' => n' = n /\ s' = s)).
    { apply wp_bind, Hf. eapply size_of_allocation_block_spec; [exact HR|exact HI|done]. }
    destruct Hw as (n' & s' & E & -> & ->). exact E. }
  split; apply Hin; intros Q HQ; [by eapply used_block_hdr_spec|by eapply used_block_hdr_unknown_spec].
Qed.

(** An allocation may be taken to have its usable size, without any change. *)
Lemma enlarge s Ps al :
  Inv s Ps -> al ∈ live Ps ->
  exists k, size_of_allocation (a_ptr al) (a_align al) s = Ok (k, s) /\
    size_of_allocation_unknown_align (a_ptr al) s = Ok (k, s) /\
    a_size al <= k /\ realloced s s Ps al (resize al k).
Proof.
  intros HI Hin. destruct (find_used Ps al Hin) as (st & l1 & old & l2 & Ps0 & a & HP & HR). rewrite HP in HI.
  destruct (used_header _ _ _ _ _ _ _ _ HR HI) as (Ha & Hda & [_ _ Hal] & _). cbn [bsize bkind] in Hal.
  destruct Hal as [_ _ _ _ H0 He]. destruct (size_of_used _ _ _ _ _ _ _ _ HR HI) as [E1 E2].
  exists (a + old - a_ptr al). split_and!; [exact E1|exact E2|lia|].
  eapply realloced_perm; [symmetry; exact HP|]. apply (same_size_realloced HR HI); lia.
Qed.

(** Allocating, copying and freeing has the outcome of a reallocation. *)
Lemma moved_realloced s s1 m2 s3 Ps Ps1 al l ptr a sz k :
  let al' := mkAlloc ptr (l_align l) (l_size l) in
  Inv s Ps -> al ∈ live Ps -> (a, sz) ∈ all_frees Ps ->
  a <= ptr -> ptr + l_size l <= a + sz -> a_size al <= k <= l_size l ->
  post s s1 Ps Ps1 (live Ps) -> live Ps1 ≡ₚ al' :: live Ps ->
  mem_step (fun x => ptr <= x < ptr + k) (st_mem s1) m2 ->
  (forall i, 0 <= i < k -> m2 !! (ptr + i) = st_mem s1 !! (a_ptr al + i)) ->
  freed (mkSt (st_tlsf s1) m2) s3 Ps1 al -> realloced s s3 Ps al al'.
Proof.
  intros al' HI Hin Hfr Hp1 Hp2 Hk [_ Hx1 Hm1] Hl1 Hs2 Hc2 (Ps2 & [HI3 Hx3 Hm3] & Hl3). simpl in Hm3.
  apply elem_of_Permutation_cons in Hin as [others Ho].
  assert (Hl2 : live Ps2 ≡ₚ al' :: others).
  { apply (Permutation_cons_inv (a := al)). rewrite <- Hl3, Hl1, Ho. solve_Permutation. }
  assert (Hsub : others ⊆ live Ps) by (rewrite Ho; set_solver). exists Ps2, others. split_and!; [done|done| |].
  - split; [done|by rewrite Hx3|]. eapply mem_step_trans; [|eapply mem_step_trans].
    + eapply mem_step_weaken; [exact Hm1|]. intros x. by apply changes_keep.
    + eapply mem_step_weaken; [exact Hs2|]. intros x Hx. eapply changes_keep; [exact Hsub|].
      eapply (free_changes Ps a sz); [apply HI|done|cbv beta in Hx; lia].
    + eapply mem_step_weaken; [exact Hm3|]. intros x [Hx Hno]. split.
      * eapply writable_extents; [|exact Hx]. by symmetry.
      * intros al0 Hal0. apply Hno. rewrite Hl2. set_solver.
  - intros i Hi. cbn [a_ptr a_size al'] in *. rewrite (mem_step_eq _ _ _ Hm3), Hc2, (mem_step_eq _ _ _ Hm1); [done| |lia|].
    + intros [_ Hno]. apply (Hno al); [rewrite Ho; set_solver|unfold payload; lia].
    + intros [_ Hno]. apply (Hno al'); [rewrite Hl2; set_solver|unfold payload; simpl; lia].
Qed.

Lemma reallocate_spec al l s Ps (Q : option Z -> St -> Prop) :
  Inv s Ps -> al ∈ live Ps -> layout_ok l -> l_align l = a_align al ->
  (oversized l \/
   (forall c, block_class (all_frees Ps) c -> ~ class_le (ceil_class (search_size_of l)) c) ->
   (exists k, size_of_allocation (a_ptr al) (a_align al) s = Ok (k, s) /\ k < l_size l) -> Q None s) ->
  (forall ptr s', realloced s s' Ps al (mkAlloc ptr (l_align l) (l_size l)) -> Q (Some ptr) s') ->
  wp (reallocate (a_ptr al) l) s Q.
Proof.
  intros HI Hin Hl Eal HN HS. destruct (find_used Ps al Hin) as (st & l1 & old & l2 & Ps0 & a & HP & HR).
  pose proof HI as HI0. rewrite HP in HI0. unfold reallocate, size_of_allocation. rewrite Eal.
  apply wp_bind. eapply used_block_hdr_spec; [exact HR|exact HI0|].
  apply wp_bind, wp_bind. eapply used_block_hdr_spec; [exact HR|exact HI0|].
  eapply size_of_allocation_block_spec; [exact HR|exact HI0|].
  apply wp_bind. eapply (reallocate_inplace_spec HR HI0 l); [done|done| |].
  2: { intros ptr s' Hr. apply wp_ret, HS. eapply realloced_perm; [symmetry; exact HP|exact Hr]. }
  intros Hbig. apply wp_bind. eapply allocate_spec; [exact HI|done| |].
  { intros Hnone. apply wp_ret, HN; [done|]. exists (a + old - a_ptr al). split; [|done]. exact (proj1 (size_of_used _ _ _ _ _ _ _ _ HR HI0)). }
  intros ptr s1 Ps1 a0 sz0 c0 _ Hfr _ _ _ Hpa Hfit Hpost Hl1. pose proof Hpa as [Hp1 _ _ _ _].
  destruct (used_header _ _ _ _ _ _ _ _ HR HI0) as (Ha & Hda & [_ _ Hal] & Hu & _). cbn [bsize bkind] in Hal.
  pose proof Hal as [_ _ Hps _ Hs0 Hpe]. pose proof WORD_pos. pose proof HI0 as [HW [Hrp _]%Forall_cons _].
  apply wp_bind, wp_check; [apply Z.leb_le; lia|]. set (k := a + old - a_ptr al) in *.
  assert (Hdis : a0 + sz0 <= a \/ a + old <= a0).
  { rewrite HP in Hfr. pose proof HR as [E1 E2]. rewrite (all_frees_region st l1 _ l2 Ps0 a (a + old)) in Hfr by done.
    simpl in Hfr. by apply (outer_range HR HW) in Hfr as [_ ?]. }
  pose proof (region_ok HR HW) as []. pose proof GRANULARITY_pos.
  apply wp_bind, wp_copy_nonoverlapping; [lia| | |lia|].
  { eapply mapped_step; [apply Hpost|]. apply (region_mapped HR HW _ _ _ Hrp); lia. }
  { eapply mapped_step; [apply Hpost|]. destruct (find_free Ps a0 sz0 Hfr) as (st' & l1' & l2' & Ps' & HP' & HR').
    rewrite HP' in HI. destruct HI as [HW' [Hrp' _]%Forall_cons _]. pose proof (region_ok HR' HW') as [].
    apply (region_mapped HR' HW' _ _ _ Hrp'); pose proof GRANULARITY_pos; lia. }
  intros m2 Hs2 Hc2. apply wp_bind. rewrite <- Eal in *. rewrite Eal at 1.
  assert (HI2 : Inv (mkSt (st_tlsf s1) m2) Ps1).
  { eapply (payload_write s1 Ps1 (mkAlloc ptr (l_align l) (l_size l))); [apply Hpost|rewrite Hl1; set_solver|].
    eapply mem_step_weaken; [exact Hs2|]. intros x Hx. unfold payload. simpl. cbv beta in Hx. lia. }
  eapply wp_mono; [eapply (deallocate_spec _ Ps1 al); [exact HI2|rewrite Hl1; set_solver]|].
  intros [] s3 Hf. apply wp_ret, HS. eapply (moved_realloced s s1 m2 s3 Ps Ps1 al l ptr a0 sz0 k); try done; lia.
Qed.

End ReallocSpecs.

(** ** Properties *)

Section ReallocProperties.
Context {T : Target} {P : TlsfParams} {Pok : ParamsOk P}.

(** C4: [reallocate] of a live allocation, with the alignment it has, returns.
    [Some ptr] means that the allocation was replaced by one at [ptr] with the
    new size whose first [min(old, new)] bytes are those of the old payload,
    whichever strategy was used (shrink, grow in place, move into the previous
    block, or allocate, copy and free), and that no other payload changed.
    [None] means that nothing changed. *)
Theorem reallocate_correct al l s Ps :
  Inv s Ps -> al ∈ live Ps -> layout_ok l -> l_align l = a_align al ->
  wp (reallocate (a_ptr al) l) s (fun r s' =>
    match r with
    | Some ptr => realloced s s' Ps al (mkAlloc ptr (l_align l) (l_size l))
    | None => s' = s
    end).
Proof. intros HI Hin Hl Eal. by eapply reallocate_spec. Qed.

End ReallocProperties.
