(* ===== verification/Iter.v ===== *)
(** * tlsf.rs: enumerating the blocks of a pool

    [iter_blocks] and [BlockInfo].  The iterator walks the headers of the
    memory a pool (or several adjacent ones) was created on and skips the
    sentinels; [BlockInfo] is a reference to a header, inspected by the
    methods below. *)

From S2P Require Import Prelude Usize BinInteger SizeClass Machine Header FreeIndex Pool Region Alloc Insert Dealloc.

Record BlockInfo := mkBlockInfo { block_hdr : Z }.

Section IterOps.
Context {T : Target} {P : TlsfParams}.

(** The iterator run to its end; a block is a granule at least, which bounds
    the number of steps. *)
Fixpoint iter_from (fuel : nat) (start len : Z) : M St (list BlockInfo) :=
  if len =? 0 then mret []
  else
    match fuel with
    | O => lift (Fail OutOfFuel)
    | S fuel =>
        size ← get_size BlockHdr start;
        let block_size := Z.land size SIZE_SIZE_MASK in
        len ← lift (usub len block_size);
        rest ← iter_from fuel (wrapping_add start block_size) len;
        mret (if Z.land size SIZE_SENTINEL =? 0 then mkBlockInfo start :: rest else rest)
    end.

Definition iter_blocks (unaligned_start len : Z) : M St (list BlockInfo) :=
  let start := Z.land (wrapping_add unaligned_start (GRANULARITY - 1)) (usize_not (GRANULARITY - 1)) in
  let len := saturating_sub len (wrapping_sub start unaligned_start) in
  iter_from (Z.to_nat (len / GRANULARITY)) start len.

Definition BlockInfo_size (self : BlockInfo) : M St Z :=
  size ← get_size BlockHdr (block_hdr self);
  mret (Z.land size SIZE_SIZE_MASK).

Definition max_payload_size (self : BlockInfo) : M St Z :=
  size ← BlockInfo_size self;
  lift (usub size (GRANULARITY / 2)).

Definition BlockInfo_as_ptr (self : BlockInfo) : M St (Z * Z) :=
  size ← BlockInfo_size self;
  mret (block_hdr self, size).

Definition as_ptr_range (self : BlockInfo) : M St (Z * Z) :=
  size ← BlockInfo_size self;
  mret (block_hdr self, wrapping_add (block_hdr self) size).

Definition is_occupied (self : BlockInfo) : M St bool :=
  size ← get_size BlockHdr (block_hdr self);
  mret (negb (Z.land size SIZE_USED =? 0)).

End IterOps.

Section IterSpecs.
Context {T : Target} {P : TlsfParams} {Pok : ParamsOk P}.

(** The blocks of a sequence that are not sentinels, with their addresses. *)
Fixpoint located (a : Z) (l : list block) : list (Z * block) :=
  match l with
  | [] => []
  | b :: l => (if is_sentinel b then [] else [(a, b)]) ++ located (a + bsize b) l
  end.

Definition infos (l : list (Z * block)) : list BlockInfo := (fun '(a, _) => mkBlockInfo a) <$> l.

(** Only the size words matter to the iterator. *)
Fixpoint size_words (m : Mem) (a : Z) (l : list block) : Prop :=
  match l with
  | [] => True
  | b :: l => word_at m a (bsize b + flags (bkind b)) /\ size_words m (a + bsize b) l
  end.

Lemma size_words_app m a l1 l2 :
  size_words m a (l1 ++ l2) <-> size_words m a l1 /\ size_words m (a + total l1) l2.
Proof.
  revert a. induction l1 as [|b l1 IH]; intros a; simpl.
  - rewrite Z.add_0_r. tauto.
  - rewrite IH. replace (a + bsize b + total l1) with (a + (bsize b + total l1)) by lia. tauto.
Qed.

Lemma rep_size_words m a p l : rep m a p l -> size_words m a l.
Proof. revert a p. induction l as [|b l IH]; intros a p; simpl; [done|]. intros [[? _] ?]. eauto. Qed.

Lemma iter_from_spec fuel a l s (Q : list BlockInfo -> St -> Prop) :
  size_words (st_mem s) a l -> wf_blocks a l -> 0 < a -> (GRANULARITY | a) -> a + total l <= USIZE_MOD ->
  total l / GRANULARITY <= Z.of_nat fuel -> Q (infos (located a l)) s ->
  wp (iter_from fuel (a mod USIZE_MOD) (total l)) s Q.
Proof.
  revert a l Q. induction fuel as [|fuel IH]; intros a l Q Hw Hwf Ha Hd Hu Hf HQ; pose proof GRANULARITY_pos as Hgp;
    (destruct l as [|b l]; cbn [total]; [by apply wp_ret|]); destruct Hwf as [Hb Hl]; destruct Hw as [Hw Hws];
    pose proof (wf_block_ge _ _ Hb) as Hge; pose proof (total_nonneg _ _ Hl) as Hnn; pose proof Hb as [Hbd Hbp _];
    cbn [total] in *; cbn [iter_from]; rewrite (proj2 (Z.eqb_neq _ _)) by lia.
  { assert (1 <= (bsize b + total l) / GRANULARITY) by (apply Z.div_le_lower_bound; lia). lia. }
  pose proof (flags_range (bkind b)). assert (Hus : is_usize (bsize b + flags (bkind b))).
  { unfold is_usize. split; [lia|]. assert (Hlt : bsize b + GRANULARITY <= USIZE_MOD); [|lia].
    apply divide_gap; [lia|done| |lia]. destruct GRANULARITY_pow as [-> ?]. pose proof GRANULARITY_bits.
    apply pow2_divide_le; [lia|lia|apply pow2_le; lia]. }
  rewrite Z.mod_small by lia. apply wp_bind. eapply wp_get_size; [done|done|exact Hw|].
  rewrite size_mask by done. wp_pure usub_ok; [lia|]. replace (bsize b + total l - bsize b) with (total l) by lia.
  apply wp_bind. unfold wrapping_add. eapply IH; [done|done|lia|by apply Z.divide_add_r|lia| |].
  - assert (Hlt : total l / GRANULARITY < (bsize b + total l) / GRANULARITY); [|lia].
    assert (Hle : (GRANULARITY + total l) / GRANULARITY <= (bsize b + total l) / GRANULARITY) by (apply Z.div_le_mono; lia).
    rewrite Z.add_comm, <- (Z.mul_1_l GRANULARITY) in Hle at 1. rewrite Z.div_add in Hle by lia. lia.
  - apply wp_ret. rewrite (proj2 (size_flags _ _ Hbd)). cbn [located] in HQ. unfold infos, is_sentinel in *.
    destruct (bkind b); simpl; exact HQ.
Qed.

(** The blocks of adjacent pools. *)
Fixpoint pools_blocks (l : list pool) : list block :=
  match l with [] => [] | p :: l => p_blocks p ++ pools_blocks l end.

Lemma tiled_blocks m a news b :
  Forall wf_pool news -> Forall (rep_pool m) news -> tiled a news b ->
  a + total (pools_blocks news) = b /\ wf_blocks a (pools_blocks news) /\ size_words m a (pools_blocks news).
Proof.
  revert a. induction news as [|p news IH]; intros a; simpl; [intros _ _ ->; split_and!; [lia|done|done]|].
  intros [Hp Hw]%Forall_cons [Hr Hrs]%Forall_cons [Ea Ht].
  destruct (IH _ Hw Hrs Ht) as (Et & Hwf & Hsw). rewrite total_app. subst a.
  change (p_end p) with (p_start p + total (p_blocks p)) in *. split_and!; [lia| |].
  - apply wf_blocks_app. split; [by apply wf_p_blocks|done].
  - apply size_words_app. split; [|done]. eapply rep_size_words. apply Hr.
Qed.

Lemma tiled_bounds a news b :
  news <> [] -> Forall wf_pool news -> tiled a news b -> 0 < a /\ (GRANULARITY | a) /\ a + GRANULARITY <= b /\ b <= USIZE_MOD.
Proof.
  intros Hne Hw Ht. destruct news as [|p news]; [done|]. clear Hne. revert p a Hw Ht.
  induction news as [|q news IH]; intros p a [Hp Hw]%Forall_cons [Ea Ht]; pose proof (wfp_end _ Hp) as He;
    pose proof (total_nonneg _ _ (wfp_blocks _ Hp)); pose proof (p_len_eq p);
    pose proof (wfp_aligned _ Hp); pose proof (wfp_pos _ Hp); unfold p_end in *; subst a.
  - simpl in Ht. subst b. split_and!; [done|done|lia|lia].
  - destruct (IH q _ Hw Ht) as (? & ? & ? & ?). pose proof GRANULARITY_pos. split_and!; [done|done|lia|done].
Qed.

Lemma iter_blocks_spec u n news Ps s (Q : list BlockInfo -> St -> Prop) :
  Inv s (news ++ Ps) -> news <> [] -> 0 <= u -> tiled (round_up GRANULARITY u) news (u + n) ->
  Q (infos (located (round_up GRANULARITY u) (pools_blocks news))) s ->
  wp (iter_blocks u n) s Q.
Proof.
  intros [[Hw _] Hrep _] Hne Hu0 Ht HQ. rewrite Forall_app in Hw, Hrep. destruct Hw as [Hw _], Hrep as [Hrep _].
  destruct (tiled_blocks _ _ _ _ Hw Hrep Ht) as (Et & Hwf & Hsw).
  destruct (tiled_bounds _ _ _ Hne Hw Ht) as (Hp & Hd & Hlt & He). pose proof GRANULARITY_pos.
  assert (Hg0 : 0 < GRANULARITY) by lia. destruct (round_up_spec GRANULARITY u Hg0) as [Hr _].
  set (a := round_up GRANULARITY u) in *. unfold iter_blocks.
  rewrite wrapping_add_small by (unfold is_usize; lia). rewrite granule_mask by (unfold is_usize; lia). fold a.
  rewrite wrapping_sub_small by (unfold is_usize; lia). unfold saturating_sub.
  replace (Z.max 0 (n - (a - u))) with (total (pools_blocks news)) by lia.
  rewrite <- (Z.mod_small a USIZE_MOD) at 1 by lia. apply iter_from_spec; try done; try lia.
Qed.

(** What the methods of [BlockInfo] return for the blocks that are listed. *)
Record info_ok (s : St) (a : Z) (b : block) : Prop := {
  info_size : wp (BlockInfo_size (mkBlockInfo a)) s (fun r s' => s' = s /\ r = bsize b);
  info_payload : wp (max_payload_size (mkBlockInfo a)) s (fun r s' => s' = s /\ r = bsize b - 2 * WORD);
  info_ptr : wp (BlockInfo_as_ptr (mkBlockInfo a)) s (fun r s' => s' = s /\ r = (a, bsize b));
  info_range : wp (as_ptr_range (mkBlockInfo a)) s (fun r s' => s' = s /\ r = (a, a + bsize b));
  info_occupied : wp (is_occupied (mkBlockInfo a)) s (fun r s' => s' = s /\ r = negb (is_free b))
}.

Lemma info_spec s a b :
  word_at (st_mem s) a (bsize b + flags (bkind b)) -> wf_block a b -> 0 < a -> (GRANULARITY | a) ->
  a + bsize b + GRANULARITY <= USIZE_MOD -> info_ok s a b.
Proof.
  intros Hw Hb Ha Hd Hu. pose proof Hb as [Hbd Hbp _]. pose proof (flags_range (bkind b)). pose proof GRANULARITY_pos.
  pose proof (wf_block_ge _ _ Hb) as Hge. pose proof GRANULARITY_WORD. pose proof WORD_pos.
  assert (Hs : forall Q : Z -> St -> Prop, Q (bsize b) s -> wp (BlockInfo_size (mkBlockInfo a)) s Q).
  { intros Q HQ. apply wp_bind. eapply wp_get_size; [done|done|exact Hw|]. apply wp_ret.
    by rewrite size_mask by (done || unfold is_usize; lia). }
  split.
  - by apply Hs.
  - apply wp_bind, Hs. rewrite GRANULARITY_half. eapply wp_lift; [apply usub_ok; lia|done].
  - by apply wp_bind, Hs, wp_ret.
  - apply wp_bind, Hs, wp_ret. simpl. rewrite wrapping_add_small by (unfold is_usize; lia). done.
  - apply wp_bind. eapply wp_get_size; [done|done|exact Hw|]. apply wp_ret. by rewrite flag_free.
Qed.

(** The blocks listed are those of the sequence. *)
Lemma located_info s a l :
  size_words (st_mem s) a l -> wf_blocks a l -> 0 < a -> (GRANULARITY | a) -> a + total l <= USIZE_MOD ->
  (forall l' b, l = l' ++ [b] -> is_sentinel b = true) ->
  Forall (fun '(x, b) => info_ok s x b) (located a l).
Proof.
  revert a. induction l as [|b l IH]; intros a; simpl; [constructor|].
  intros [Hw Hws] [Hb Hl] Ha Hd Hu Hlast. pose proof Hb as [Hbd Hbp _]. pose proof (total_nonneg _ _ Hl).
  apply Forall_app. split.
  - destruct (is_sentinel b) eqn:Es; [constructor|]. constructor; [|constructor]. apply info_spec; try done.
    destruct l as [|b' l]; [by rewrite (Hlast [] b eq_refl) in Es|]. destruct Hl as [Hb' Hl].
    pose proof (wf_block_ge _ _ Hb'). apply total_nonneg in Hl. simpl in *. lia.
  - apply IH; [done|done|lia|by apply Z.divide_add_r|lia|]. intros l' b' E. apply (Hlast (b :: l')). by rewrite E.
Qed.

Lemma pools_blocks_last news l' b : pools_blocks news = l' ++ [b] -> is_sentinel b = true.
Proof.
  revert l'. induction news as [|p news IH]; intros l'; simpl; [by destruct l'|].
  destruct (pools_blocks news) as [|c k] eqn:E using rev_ind.
  - rewrite app_nil_r. unfold p_blocks. intros [_ E2]%app_inj_tail. by subst b.
  - rewrite app_assoc. intros [_ E2]%app_inj_tail. subst b. by apply (IH k).
Qed.

End IterSpecs.

(** ** Properties *)

Section IterProperties.
Context {T : Target} {P : TlsfParams} {Pok : ParamsOk P}.

(** C35: [iter_blocks] on the memory that was inserted ([n] is the number that
    [insert_free_block_ptr] returned, plus those of later appends) visits every
    block of the pools there, in address order and without the sentinels, and
    [BlockInfo] reports the size, range and occupancy of each. *)
Theorem iter_blocks_correct u n news Ps s :
  Inv s (news ++ Ps) -> news <> [] -> 0 <= u -> tiled (round_up GRANULARITY u) news (u + n) ->
  wp (iter_blocks u n) s (fun r s' =>
    s' = s /\ exists l, r = infos l /\ l = located (round_up GRANULARITY u) (pools_blocks news) /\
      Forall (fun '(x, b) => info_ok s x b) l).
Proof.
  intros HI Hne Hu Ht. eapply iter_blocks_spec; [exact HI|done|done|exact Ht|]. split; [done|].
  eexists. split_and!; [done|done|]. destruct HI as [[Hw _] Hrep _]. rewrite Forall_app in Hw, Hrep.
  destruct Hw as [Hw _], Hrep as [Hrep _]. destruct (tiled_blocks _ _ _ _ Hw Hrep Ht) as (Et & Hwf & Hsw).
  destruct (tiled_bounds _ _ _ Hne Hw Ht) as (Hp & Hd & _ & He).
  apply located_info; try done; [lia|]. intros l' b E. by eapply pools_blocks_last.
Qed.

End IterProperties.
