(* ===== verification/System.v ===== *)
(** * A client of [Tlsf]

    The contract of the public methods, as a transition system.  Its state is
    the allocator with its memory and what a client knows: the allocations it
    holds and the ends of the pools it created.  [call] lists the calls that
    obey the safety sections of the methods, with the effect on what the
    client knows; between calls the client may write to its payloads.  The
    theorems show that in every reachable state each such call returns (no
    panic, no undefined behaviour), and what the allocations look like. *)

From S2P Require Import Prelude Usize BinInteger SizeClass Machine Header FreeIndex Pool Region Alloc Dealloc Insert Realloc.

Record Sys := mkSys { sys_st : St; sys_live : list alloc; sys_ends : list Z }.

Section System.
Context {T : Target} {P : TlsfParams}.

(** Memory [[a, a+len)] that was not in use becomes available, with any
    contents. *)
Record extends (m m' : Mem) (a len : Z) : Prop := {
  ext_old x : ~ a <= x < a + len -> m' !! x = m !! x;
  ext_fresh x : a <= x < a + len -> m !! x = None;
  ext_mapped : mapped m' a len
}.

Definition slice (a len : Z) : Prop := 0 < a /\ 0 <= len /\ a + len <= USIZE_MOD.

(** A call of the client: the computation, the state it starts in and what
    the client knows after it. *)
Inductive call (x : Sys) : M St (option Z) -> St -> (option Z -> St -> Sys) -> Prop :=
  | call_allocate l :
      layout_ok l ->
      call x (allocate l) (sys_st x) (fun r s' =>
        mkSys s' (match r with Some ptr => [mkAlloc ptr (l_align l) (l_size l)] | None => [] end ++ sys_live x) (sys_ends x))
  | call_deallocate al L :
      sys_live x ≡ₚ al :: L ->
      call x (deallocate (a_ptr al) (a_align al);; mret None) (sys_st x) (fun _ s' => mkSys s' L (sys_ends x))
  | call_deallocate_unknown_align al L :
      sys_live x ≡ₚ al :: L ->
      call x (deallocate_unknown_align (a_ptr al);; mret None) (sys_st x) (fun _ s' => mkSys s' L (sys_ends x))
  | call_reallocate al l L :
      sys_live x ≡ₚ al :: L -> layout_ok l -> l_align l = a_align al ->
      call x (reallocate (a_ptr al) l) (sys_st x) (fun r s' =>
        mkSys s' (match r with Some ptr => mkAlloc ptr (l_align l) (l_size l) | None => al end :: L) (sys_ends x))
  | call_usable_size al :
      al ∈ sys_live x ->
      call x (n ← allocation_usable_size (a_ptr al); mret (Some n)) (sys_st x) (fun _ s' => mkSys s' (sys_live x) (sys_ends x))
  | call_insert a len m' :
      slice a len -> extends (st_mem (sys_st x)) m' a len ->
      call x (insert_free_block_ptr a len) (with_mem (sys_st x) m') (fun r s' =>
        mkSys s' (sys_live x) (match r with Some n => [a + n] | None => [] end ++ sys_ends x))
  | call_append a len m' R :
      slice a len -> extends (st_mem (sys_st x)) m' a len -> sys_ends x ≡ₚ a :: R ->
      call x (n ← append_free_block_ptr a len; mret (Some n)) (with_mem (sys_st x) m') (fun r s' =>
        mkSys s' (sys_live x) ((a + default 0 r) :: filter (fun e => e <> a) R)).

Inductive step (x : Sys) : Sys -> Prop :=
  | step_call c s0 k r s' : call x c s0 k -> c s0 = Ok (r, s') -> step x (k r s')
  | step_write al m' :
      al ∈ sys_live x -> mem_step (payload al) (st_mem (sys_st x)) m' ->
      step x (mkSys (with_mem (sys_st x) m') (sys_live x) (sys_ends x)).

(** [Tlsf::new()] with no memory. *)
Definition init : Sys := mkSys (mkSt new ∅) [] [].

Definition reachable (x : Sys) : Prop := rtc step init x.

(** The abstract state: the pools. *)
Definition sys_inv (x : Sys) : Prop :=
  exists Ps, Inv (sys_st x) Ps /\ live Ps ≡ₚ sys_live x /\ sys_ends x ⊆ p_end <$> Ps.

End System.

Section SystemProofs.
Context {T : Target} {P : TlsfParams} {Pok : ParamsOk P}.

Lemma extends_step m m' a len : extends m m' a len -> mem_step (fun x => a <= x < a + len) m m'.
Proof.
  intros [Ho Hf Hm]. split; [exact Ho|]. intros x Hx.
  destruct (decide (a <= x < a + len)) as [Hin|Hout]; [by apply Hm|by rewrite Ho].
Qed.

(** The pools are mapped, so new memory is disjoint from them. *)
Lemma extends_fresh m m' a len Ps :
  Forall wf_pool Ps -> Forall (rep_pool m) Ps -> extends m m' a len -> fresh Ps a len.
Proof.
  intros Hw Hr [_ Hf _] p Hp. rewrite Forall_forall in Hw, Hr. destruct (Hr p Hp) as [_ Hm].
  pose proof (p_len_pos p (Hw p Hp)). unfold p_end.
  destruct (Z.le_gt_cases len 0); [by left|]. destruct (Z.le_gt_cases (p_start p + p_len p) a); [by right; left|].
  destruct (Z.le_gt_cases (a + len) (p_start p)); [by right; right|]. exfalso.
  destruct (Hm (Z.max a (p_start p))) as [b Hb]; [lia|]. by rewrite Hf in Hb by lia.
Qed.

Lemma extends_inv s m' Ps a len : Inv s Ps -> extends (st_mem s) m' a len -> Inv (with_mem s m') Ps.
Proof.
  intros [Hw Hr Hi] Hx. pose proof (extends_fresh _ _ _ _ _ (proj1 Hw) Hr Hx) as Hf.
  apply extends_step in Hx as Hs. split; simpl; [done| |].
  - rewrite Forall_forall in *. intros p Hp. eapply rep_pool_step; [exact Hw|done|exact Hs| |auto].
    intros x Hax Hfo. destruct Hw as [Hw _]. rewrite Forall_forall in Hw. apply foot_pool_range in Hfo; [|auto].
    cbv beta in Hax. destruct (Hf p Hp); lia.
  - eapply FreeIndex_step; [exact Hs| |done]. intros x Hlx. by apply (fresh_links Ps a len).
Qed.

Lemma extends_slice s m' Ps a len :
  Inv s Ps -> slice a len -> extends (st_mem s) m' a len -> slice_ok m' Ps a len.
Proof.
  intros [[Hw _] Hr _] (H1 & H2 & H3) Hx. split; try done; [apply Hx|]. by eapply extends_fresh.
Qed.

Lemma extents_ends Ps Ps' : extents Ps' ≡ₚ extents Ps -> p_end <$> Ps ⊆ p_end <$> Ps'.
Proof.
  intros HE e (p & -> & Hp)%list_elem_of_fmap. assert (Hin : (p_start p, p_len p) ∈ extents Ps').
  { rewrite HE. apply list_elem_of_fmap. by exists p. }
  apply list_elem_of_fmap in Hin as (q & Eq & Hq). injection Eq as Es El.
  apply list_elem_of_fmap. exists q. split; [|done]. unfold p_end. by rewrite Es, El.
Qed.

Lemma post_sys_inv s s' Ps Ps' keep L ends :
  post s s' Ps Ps' keep -> live Ps' ≡ₚ L -> ends ⊆ p_end <$> Ps -> sys_inv (mkSys s' L ends).
Proof.
  intros [Hi Hx _] Hl He. exists Ps'. split_and!; [done|done|]. simpl. etrans; [exact He|by apply extents_ends].
Qed.

Lemma freed_sys_inv s s' Ps al L ends :
  freed s s' Ps al -> live Ps ≡ₚ al :: L -> ends ⊆ p_end <$> Ps -> sys_inv (mkSys s' L ends).
Proof.
  intros (Ps' & Hp & Hl) HL He. eapply post_sys_inv; [exact Hp| |exact He].
  apply (Permutation_cons_inv (a := al)). by rewrite <- Hl.
Qed.

Lemma realloced_sys_inv s s' Ps al al' L ends :
  realloced s s' Ps al al' -> live Ps ≡ₚ al :: L -> ends ⊆ p_end <$> Ps -> sys_inv (mkSys s' (al' :: L) ends).
Proof.
  intros (Ps' & others & H1 & H2 & Hp & _) HL He. eapply post_sys_inv; [exact Hp| |exact He].
  rewrite H2. f_equiv. apply (Permutation_cons_inv (a := al)). by rewrite <- H1, HL.
Qed.

Lemma grown_sys_inv s s' Ps Ps' a b L ends ends' :
  grown s s' Ps Ps' a b -> live Ps ≡ₚ L -> ends ⊆ p_end <$> Ps ->
  (forall e, e ∈ ends' -> (e = b /\ a < b) \/ (e ∈ ends /\ (e <> a \/ a = b))) -> sys_inv (mkSys s' L ends').
Proof.
  intros [Hi Hl _ _ Hb Ho _] HL He Hends. exists Ps'. split_and!; [done|by rewrite Hl|]. simpl.
  intros e [[-> Hlt]|[Hin Hne]]%Hends; [auto|]. apply He, Ho in Hin as [|[-> ?]]; [done|]. destruct Hne; lia.
Qed.

(** More memory directly behind a pool whose end the client knows. *)
Lemma append_sys_inv x a len m' R :
  sys_inv x -> slice a len -> extends (st_mem (sys_st x)) m' a len -> sys_ends x ≡ₚ a :: R ->
  wp (append_free_block_ptr a len) (with_mem (sys_st x) m') (fun n s' =>
    sys_inv (mkSys s' (sys_live x) ((a + n) :: filter (fun e => e <> a) R))).
Proof.
  intros (Ps & HI & HL & He) H H0 H1.
  pose proof (extends_inv _ _ _ _ _ HI H0) as HI'. pose proof (extends_slice _ _ _ _ _ HI H H0) as Hsl.
  assert (Ha : a ∈ p_end <$> Ps) by (apply He; rewrite H1; set_solver).
  apply list_elem_of_fmap in Ha as (p & -> & Hp). apply elem_of_Permutation_cons in Hp as [Ps0 HP].
  rewrite HP in HI', HL. assert (Hsl' : slice_ok m' (p :: Ps0) (p_end p) len).
  { destruct Hsl as [? ? ? ? Hf]. split; try done. intros q Hq. apply Hf. by rewrite HP. }
  eapply append_spec; [exact HI'|exact Hsl'|]. intros Ps' s' n _ Hg Hn _ _.
  eapply (grown_sys_inv _ _ _ _ _ _ _ (sys_ends x)); [exact Hg|exact HL|by rewrite HP in He|].
  intros e [->|[Hne Hin]%list_elem_of_filter]%elem_of_cons.
  + destruct (decide (0 < n)); [left; lia|right]. replace n with 0 by lia. rewrite Z.add_0_r, H1. split; [set_solver|by right].
  + right. rewrite H1. split; [set_solver|by left].
Qed.

(** Every call returns and keeps the invariant. *)
Lemma call_spec x c s0 k :
  sys_inv x -> call x c s0 k -> wp c s0 (fun r s' => sys_inv (k r s')).
Proof.
  intros (Ps & HI & HL & He). destruct 1.
  - eapply allocate_spec; [exact HI|done| |].
    + intros _. exists Ps. by split_and!.
    + intros ptr s' Ps' a sz c _ _ _ _ _ _ _ Hp Hl. eapply post_sys_inv; [exact Hp| |exact He]. by rewrite Hl, HL.
  - apply wp_bind. eapply wp_mono; [apply (deallocate_spec _ Ps al HI); rewrite HL, H; set_solver|].
    intros [] s' Hf. apply wp_ret. eapply freed_sys_inv; [exact Hf|by rewrite HL|exact He].
  - apply wp_bind. eapply wp_mono; [apply (deallocate_unknown_spec _ Ps al HI); rewrite HL, H; set_solver|].
    intros [] s' Hf. apply wp_ret. eapply freed_sys_inv; [exact Hf|by rewrite HL|exact He].
  - eapply (reallocate_spec al l); [exact HI|rewrite HL, H; set_solver|done|done| |].
    + intros _. exists Ps. simpl. by rewrite HL, H.
    + intros ptr s' Hr. eapply realloced_sys_inv; [exact Hr|by rewrite HL|exact He].
  - apply wp_bind. eapply wp_mono; [apply (size_of_allocation_unknown_spec _ Ps al HI); by rewrite HL|].
    intros n s' [-> _]. apply wp_ret. exists Ps. by split_and!.
  - pose proof (extends_inv _ _ _ _ _ HI H0) as HI'. pose proof (extends_slice _ _ _ _ _ HI H H0) as Hsl.
    eapply insert_spec; [exact HI'|exact Hsl| |].
    + intros _. exists Ps. by split_and!.
    + intros news s' n [Hi Ht Hl _] Hlt _ _ _. exists (news ++ Ps). split_and!; [done|by rewrite live_app, Hl|].
      simpl. rewrite fmap_app. intros e [->|Hin]%elem_of_cons; apply elem_of_app; [left|right; auto].
      eapply tiled_end; [exact Ht|]. intros ->. simpl in Ht. lia.
  - apply wp_bind. eapply wp_mono; [eapply append_sys_inv; [by exists Ps|done..]|]. intros n s' Hs. by apply wp_ret.
Qed.

Lemma step_inv x x' : sys_inv x -> step x x' -> sys_inv x'.
Proof.
  intros Hx. destruct 1 as [c s0 k r s' Hc E|al m' Hal Hs].
  - destruct (call_spec x c s0 k Hx Hc) as (r' & s'' & E' & Hi). rewrite E in E'. by injection E' as <- <-.
  - destruct Hx as (Ps & HI & HL & He). exists Ps. split_and!; [|done|done]. simpl.
    apply (payload_write _ _ al); [done|by rewrite HL|done].
Qed.

Lemma init_inv : sys_inv init.
Proof.
  exists []. split_and!; [|done|done]. split; simpl; [by split; constructor|constructor|apply new_index].
Qed.

Lemma reachable_inv x : reachable x -> sys_inv x.
Proof.
  unfold reachable. intros Hr. pose proof init_inv as Hi. induction Hr as [|x y z Hxy _ IH]; [done|].
  apply IH. by eapply step_inv.
Qed.

(** ** What the allocations look like *)

Definition apart (al al' : alloc) : Prop :=
  a_ptr al + a_size al <= a_ptr al' \/ a_ptr al' + a_size al' <= a_ptr al.

#[export] Instance apart_sym : Symmetric apart.
Proof. intros x y. unfold apart. tauto. Qed.

(** A payload the client may use. *)
Record usable_alloc (m : Mem) (al : alloc) : Prop := {
  ua_pow2 : exists k, 0 <= k /\ a_align al = 2 ^ k;
  ua_aligned : (a_align al | a_ptr al);
  ua_nonnull : 0 < a_ptr al;
  ua_usize : a_ptr al + a_size al < USIZE_MOD;
  ua_mapped : mapped m (a_ptr al) (a_size al)
}.

Lemma allocs_range a l al :
  wf_blocks a l -> al ∈ allocs l ->
  a + 2 * WORD <= a_ptr al /\ 0 <= a_size al /\ a_ptr al + a_size al <= a + total l /\
  (exists k, 0 <= k /\ a_align al = 2 ^ k) /\ (a_align al | a_ptr al).
Proof.
  revert a. induction l as [|b l IH]; intros a; simpl; [set_solver|]. intros [Hb Hl] [Hin|Hin]%elem_of_app.
  - destruct Hb as [_ _ Hk]. destruct (bkind b) as [|al0|]; [by apply not_elem_of_nil in Hin| |by apply not_elem_of_nil in Hin].
    apply list_elem_of_singleton in Hin as ->. pose proof (total_nonneg _ _ Hl). destruct Hk. split_and!; (done || lia).
  - destruct (IH _ Hl Hin) as (H1 & H2 & H3 & H4). destruct Hb as [_ Hp _]. split_and!; (tauto || lia).
Qed.

Lemma allocs_apart a l : wf_blocks a l -> ForallOrdPairs apart (allocs l).
Proof.
  revert a. induction l as [|b l IH]; intros a; simpl; [constructor|]. intros [Hb Hl].
  destruct Hb as [_ _ Hk]. destruct (bkind b) as [|al|]; simpl; [eauto| |eauto]. constructor; [|eauto].
  rewrite Forall_forall. intros al' Hal'. destruct (allocs_range _ _ _ Hl Hal') as (H1 & _). destruct Hk.
  pose proof WORD_pos. left. lia.
Qed.

Lemma live_apart Ps : wf_pools Ps -> ForallOrdPairs apart (live Ps).
Proof.
  induction Ps as [|p Ps IH]; [constructor|]. intros [[Hp Hw]%Forall_cons Hd]. inversion_clear Hd as [|? ? Hdp Hds].
  rewrite live_cons. assert (IH' := IH (conj Hw Hds)). pose proof (allocs_apart _ _ (wfp_blocks _ Hp)) as Ha.
  assert (Hx : forall al al', al ∈ allocs (p_body p) -> al' ∈ live Ps -> apart al al').
  { intros al al' Hal (q & Hq & Hal')%elem_of_live. pose proof (proj1 (Forall_forall _ _) Hw q Hq) as Hwq.
    pose proof (proj1 (Forall_forall _ _) Hdp q Hq) as Hdq.
    destruct (allocs_range _ _ _ (wfp_blocks _ Hp) Hal) as (H1 & H2 & H3 & _).
    destruct (allocs_range _ _ _ (wfp_blocks _ Hwq) Hal') as (H4 & H5 & H6 & _).
    pose proof WORD_pos. pose proof GRANULARITY_pos.
    unfold apart, pools_disjoint, p_end in *. rewrite !p_len_eq in Hdq. lia. }
  clear IH. induction Ha as [|al l Hal _ IHa]; [done|]. simpl. constructor.
  - apply Forall_app. split; [done|]. rewrite Forall_forall. intros al' Hal'. apply Hx; [set_solver|done].
  - apply IHa. intros al1 al2 H1 H2. apply Hx; [set_solver|done].
Qed.

Lemma live_usable s Ps : Inv s Ps -> Forall (usable_alloc (st_mem s)) (live Ps).
Proof.
  intros [[Hw _] Hr _]. rewrite Forall_forall in Hw; rewrite Forall_forall in Hr; rewrite Forall_forall. intros al (p & Hp & Hal)%elem_of_live.
  destruct (allocs_range _ _ _ (wfp_blocks _ (Hw p Hp)) Hal) as (H1 & H2 & H3 & H4 & H5).
  destruct (Hw p Hp) as [_ Hpos He _ _ _ _ _]. unfold p_end in He. rewrite p_len_eq in He.
  pose proof WORD_pos. pose proof GRANULARITY_pos. split; [done|done|lia|lia|].
  destruct (Hr p Hp) as [_ Hm]. rewrite p_len_eq in Hm. eapply mapped_sub; [exact Hm|lia|lia].
Qed.

(** ** The header structure *)

(** The arrays have their lengths, every field is in the range of its type, a
    bit of [sl_bitmap] is set exactly when the list has a block, and a bit of
    [fl_bitmap] exactly when the row of [sl_bitmap] is not zero. *)
Record tlsf_typed (h : Tlsf) : Prop := {
  ty_fl : in_range FLBitmap (fl_bitmap h);
  ty_sl_len : length (sl_bitmap h) = Z.to_nat FLLEN;
  ty_sl : Forall (in_range SLBitmap) (sl_bitmap h);
  ty_ff_len : length (first_free h) = Z.to_nat FLLEN;
  ty_ff : Forall (fun r => length r = Z.to_nat SLLEN /\ Forall is_usize r) (first_free h);
  ty_sl_bit fl sl : valid_class (fl, sl) -> Z.testbit (slb h fl) sl = true <-> ff h fl sl <> 0;
  ty_fl_bit fl : 0 <= fl < FLLEN -> Z.testbit (fl_bitmap h) fl = true <-> slb h fl <> 0
}.

Lemma index_typed h m F : FreeIndex h m F -> tlsf_typed h.
Proof.
  intros (L & [[S1 S2 S3] H2 H3 H4 H5 H6] & Hl). destruct (params_usize) as [[F0 _] [L0 _]]. destruct VALID_inv as (_ & _ & HF & HS).
  split; [done|done| |done| | |].
  - rewrite Forall_lookup. intros i b Hb. pose proof (lookup_lt_Some _ _ _ Hb) as Hi. rewrite S1 in Hi.
    specialize (H3 (Z.of_nat i)). unfold slb in H3. rewrite Nat2Z.id, Hb in H3. apply H3. lia.
  - rewrite Forall_lookup. intros i r Hr. pose proof (lookup_lt_Some _ _ _ Hr) as Hi. rewrite S2 in Hi.
    split; [apply S3; by eapply list_elem_of_lookup_2|]. rewrite Forall_lookup. intros j w Hw.
    pose proof (lookup_lt_Some _ _ _ Hw) as Hj. rewrite S3 in Hj by (by eapply list_elem_of_lookup_2).
    assert (Hc : valid_class (Z.of_nat i, Z.of_nat j)) by (split; simpl; lia).
    specialize (H2 _ _ Hc). unfold ff, row in H2. rewrite !Nat2Z.id, Hr in H2. simpl in H2. rewrite Hw in H2. simpl in H2.
    subst w. by apply (hd_usize m F L (Z.of_nat i) (Z.of_nat j) _ Hl Hc).
  - intros fl sl Hc. destruct (hd_usize m F L fl sl (L fl sl) Hl Hc) as [_ Hh]; [done|]. pose proof Hc as [Hc1 Hc2]. simpl in *.
    rewrite H4, H2 by (done || lia). split; [intros [_ Hn] E; by apply Hn, Hh|]. intros Hn. split; [lia|]. intros E. by rewrite E in Hn.
  - intros fl Hfl. rewrite H6 by lia. split; [tauto|]. intros Hn. split; [lia|done].
Qed.

End SystemProofs.

(** ** Properties *)

Section SystemProperties.
Context {T : Target} {P : TlsfParams} {Pok : ParamsOk P}.

(** C1: Safety of the allocator: in every state that a client can reach from
    [Tlsf::new()] by calls that obey the safety sections (inserting and
    appending memory, allocating, reallocating, deallocating with or without
    the alignment, querying sizes) and by writing to its payloads, every
    further such call returns; there is no panic, failed assertion, overflow,
    access outside the pools, read of uninitialised memory, misaligned
    dereference or endless loop. *)
Theorem reachable_calls_return x c s0 k :
  reachable x -> call x c s0 k -> exists r s', c s0 = Ok (r, s').
Proof.
  intros Hr Hc. destruct (call_spec x c s0 k (reachable_inv x Hr) Hc) as (r & s' & E & _). by exists r, s'.
Qed.

(** C22: In every reachable state the allocations that the client holds are
    aligned as asked, not null, inside mapped memory and pairwise disjoint. *)
Theorem reachable_allocations x :
  reachable x ->
  Forall (usable_alloc (st_mem (sys_st x))) (sys_live x) /\ ForallOrdPairs apart (sys_live x).
Proof.
  intros (Ps & HI & HL & _)%reachable_inv. split.
  - rewrite <- HL. by apply live_usable.
  - eapply ForallOrdPairs_perm; [apply _|exact HL|]. apply live_apart, HI.
Qed.

(** C21: In every reachable state memory is a set of disjoint pools in which no
    two free blocks are adjacent, the headers in memory are those of the
    blocks, and the free lists and bitmaps hold exactly the free blocks. *)
Theorem reachable_structure x :
  reachable x ->
  exists Ps, wf_pools Ps /\ Forall (fun p => no_adj (p_body p)) Ps /\
    Forall (rep_pool (st_mem (sys_st x))) Ps /\
    FreeIndex (st_tlsf (sys_st x)) (st_mem (sys_st x)) (all_frees Ps) /\ live Ps ≡ₚ sys_live x.
Proof.
  intros (Ps & [HW Hr Hi] & HL & _)%reachable_inv. exists Ps. split_and!; try done.
  destruct HW as [HW _]. eapply Forall_impl; [exact HW|]. by intros p [].
Qed.

(** C19: The header structure of [Tlsf] is well typed in every reachable state:
    the arrays have their lengths, every bitmap and list head is in the range
    of its machine type, and the two levels of bitmaps say exactly which lists
    have a block. *)
Theorem reachable_well_typed x : reachable x -> tlsf_typed (st_tlsf (sys_st x)).
Proof. intros (Ps & [_ _ Hi] & _)%reachable_inv. by eapply index_typed. Qed.

End SystemProperties.
