(* ===== verification/Flex.v ===== *)
(** * flex.rs: [FlexTlsf], an allocator that acquires its memory

    [FlexSource] is the interface to the memory source: its operations are a
    class, and [FlexSourceOk] states what an implementation promises, so that
    everything here is proved against the interface.  [FlexTlsf] is a [Tlsf]
    with a source and the pool it created last; when an allocation fails it
    grows that pool or creates a new one.  If the source takes memory back,
    the allocations are chained by footers that lie in the unused half of the
    closing sentinels, or in the padding behind them. *)

From S2P Require Import Prelude Usize BinInteger SizeClass Machine Header FreeIndex Pool Region Alloc Dealloc Insert Realloc System.

(** ** utils.rs *)

(** A [NonNull<[u8]>] is its start and length. *)
Definition Slice : Type := Z * Z.

Definition nonnull_slice_from_raw_parts (ptr len : Z) : Slice := (ptr, len).
Definition nonnull_slice_len (ptr : Slice) : Z := ptr.2.
Definition nonnull_slice_start (ptr : Slice) : Z := ptr.1.
Definition nonnull_slice_end {T : Target} (ptr : Slice) : Z := wrapping_add ptr.1 (nonnull_slice_len ptr).

(** ** The interface *)

(** The operations run on the source and on memory.  The parameters that must
    be constant for an instance are constants of the class. *)
Class FlexSource {T : Target} (Source : Type) := {
  source_alloc : Z -> M (Source * Mem) (option Slice);
  realloc_inplace_grow : Slice -> Z -> M (Source * Mem) (option Z);
  source_dealloc : Slice -> M (Source * Mem) unit;
  supports_dealloc : bool;
  supports_realloc_inplace_grow : bool;
  is_contiguous_growable : bool;
  min_align : Z
}.

(** The provided methods of the trait. *)
Section Defaults.
Context {Source : Type}.
Definition default_alloc (min_size : Z) : M (Source * Mem) (option Slice) := mret None.
Definition default_realloc_inplace_grow (ptr : Slice) (min_new_len : Z) : M (Source * Mem) (option Z) := mret None.
Definition default_dealloc (ptr : Slice) : M (Source * Mem) unit := lift (Fail Panicked).
End Defaults.
Definition default_supports_dealloc : bool := false.
Definition default_supports_realloc_inplace_grow : bool := false.
Definition default_is_contiguous_growable : bool := false.
Definition default_min_align : Z := 1.

(** ** The structures *)

Record Pool := mkFlexPool { alloc_start : Z; alloc_len : Z; pool_len : Z }.

Record FlexTlsf (Source : Type) := mkFlexTlsf {
  growable_pool : option Pool;
  source : Source;
  flex_st : St            (* [tlsf], with the memory *)
}.
Arguments mkFlexTlsf {Source} growable_pool source flex_st.
Arguments growable_pool {Source} f.
Arguments source {Source} f.
Arguments flex_st {Source} f.

(** Whether [debug_assert!] is compiled in.  The assertions that hold are
    modelled as always present; the one of [increase_pool_grow] is not. *)
Class Build := { debug_assertions : bool }.

Section FlexOps.
Context {T : Target} {P : TlsfParams} {B : Build} {Source : Type} {FS : FlexSource Source}.

Definition use_growable_pool : bool := supports_dealloc || supports_realloc_inplace_grow.

(** Running a method of [self.tlsf], and one of [self.source]. *)
Definition on_tlsf {A} (c : M St A) : M (FlexTlsf Source) A := fun f =>
  match c (flex_st f) with
  | Ok (a, s) => Ok (a, mkFlexTlsf (growable_pool f) (source f) s)
  | Fail e => Fail e
  end.

Definition on_source {A} (c : M (Source * Mem) A) : M (FlexTlsf Source) A := fun f =>
  match c (source f, st_mem (flex_st f)) with
  | Ok (a, (src, m)) => Ok (a, mkFlexTlsf (growable_pool f) src (with_mem (flex_st f) m))
  | Fail e => Fail e
  end.

Definition get_growable_pool : M (FlexTlsf Source) (option Pool) := fun f => Ok (growable_pool f, f).
Definition set_growable_pool (p : option Pool) : M (FlexTlsf Source) unit := fun f =>
  Ok (tt, mkFlexTlsf p (source f) (flex_st f)).

Definition pool_alloc (p : Pool) : Slice := nonnull_slice_from_raw_parts (alloc_start p) (alloc_len p).

(** [PoolFtr]: an [Option<NonNull<[u8]>>], a pointer and a length; null is
    [None], whose length has no value. *)
Definition size_of_PoolFtr : Z := 2 * WORD.
Definition align_of_PoolFtr : Z := WORD.

(** [PoolFtr::get_for_alloc]. *)
Definition PoolFtr_get_for_alloc (alloc : Slice) (alloc_align : Z) : Z :=
  let alloc_end := nonnull_slice_end alloc in
  let ptr := wrapping_sub alloc_end size_of_PoolFtr in
  if alloc_align <? align_of_PoolFtr then Z.land ptr (usize_not (align_of_PoolFtr - 1)) else ptr.

Definition deref_PoolFtr (p : Z) : M St unit :=
  lift (if negb (p =? 0) && (p mod align_of_PoolFtr =? 0) then Ok tt else Fail Misaligned).

Definition get_prev_alloc (p : Z) : M St (option Slice) :=
  deref_PoolFtr p;;
  ptr ← load p;
  if ptr =? 0 then mret None
  else len ← load (p + WORD); mret (Some (ptr, len)).

Definition set_prev_alloc (p : Z) (o : option Slice) : M St unit :=
  deref_PoolFtr p;;
  match o with
  | None => store p 0
  | Some (ptr, len) => store p ptr;; store (p + WORD) len
  end.

(** [FlexTlsf::new]. *)
Definition FlexTlsf_new (src : Source) (m : Mem) : FlexTlsf Source := mkFlexTlsf None src (mkSt new m).

Definition source_ref : M (FlexTlsf Source) Source := fun f => Ok (source f, f).

(** The borrower runs [change] on the source. *)
Definition source_mut_unchecked (change : Source -> Source) : M (FlexTlsf Source) unit := fun f =>
  Ok (tt, mkFlexTlsf (growable_pool f) (change (source f)) (flex_st f)).

(** The growable pool was extended by the source to [new_alloc_len] bytes. *)
Definition increase_pool_grow (p : Pool) (new_alloc_len : Z) : M (FlexTlsf Source) (option unit) :=
  (if supports_dealloc then
     let old_pool_ftr := PoolFtr_get_for_alloc (pool_alloc p) min_align in
     let new_pool_ftr := PoolFtr_get_for_alloc (nonnull_slice_from_raw_parts (alloc_start p) new_alloc_len) min_align in
     ftr ← on_tlsf (get_prev_alloc old_pool_ftr);
     on_tlsf (set_prev_alloc new_pool_ftr ftr)
   else mret tt);;
  let append_start := wrapping_add (alloc_start p) (pool_len p) in
  lift (check (negb (append_start =? 0)));;
  append_len ← lift (usub new_alloc_len (pool_len p));
  num_appended_len ← on_tlsf (append_free_block_ptr append_start append_len);
  new_pool_len ← lift (uadd (pool_len p) num_appended_len);
  (if debug_assertions then
     x ← lift (usub new_pool_len new_alloc_len);
     lift (check (x <? GRANULARITY * 2))
   else mret tt);;
  set_growable_pool (Some (mkFlexPool (alloc_start p) new_alloc_len new_pool_len));;
  mret (Some tt).

(** Create a brand new allocation. *)
Definition increase_pool_new (extra_bytes_well_aligned : Z) : M (FlexTlsf Source) (option unit) :=
  let? extra_bytes :=
    (if min_align <? GRANULARITY then checked_add extra_bytes_well_aligned GRANULARITY
     else Some extra_bytes_well_aligned) in
  o ← on_source (source_alloc extra_bytes);
  let? alloc := o in
  let is_well_aligned := GRANULARITY <=? min_align in
  n ← on_tlsf (if is_well_aligned then insert_free_block_ptr_aligned alloc.1 alloc.2
               else insert_free_block_ptr alloc.1 alloc.2);
  pool_len ← lift (expect n);
  p ← get_growable_pool;
  (if supports_dealloc then
     on_tlsf (set_prev_alloc (PoolFtr_get_for_alloc alloc min_align) (pool_alloc <$> p))
   else mret tt);;
  (if use_growable_pool then
     set_growable_pool (Some (mkFlexPool (nonnull_slice_start alloc) (nonnull_slice_len alloc) pool_len))
   else mret tt);;
  mret (Some tt).

Definition increase_pool_to_contain_allocation (layout : Layout) : M (FlexTlsf Source) (option unit) :=
  n ← lift (pool_size_to_contain_allocation layout);
  let? extra_bytes_well_aligned := n in
  lift (check (GRANULARITY * 2 <=? extra_bytes_well_aligned));;
  p ← get_growable_pool;
  match option_filter (fun _ => use_growable_pool) p with
  | Some p =>
      let? new_pool_len_desired := checked_add (pool_len p) extra_bytes_well_aligned in
      lift (check (alloc_len p <=? new_pool_len_desired));;
      o ← on_source (realloc_inplace_grow (pool_alloc p) new_pool_len_desired);
      match o with
      | Some new_alloc_len => increase_pool_grow p new_alloc_len
      | None => if is_contiguous_growable then mret None else increase_pool_new extra_bytes_well_aligned
      end
  | None => increase_pool_new extra_bytes_well_aligned
  end.

Definition FlexTlsf_allocate (layout : Layout) : M (FlexTlsf Source) (option Z) :=
  r ← on_tlsf (allocate layout);
  match r with
  | Some x => mret (Some x)
  | None =>
      o ← increase_pool_to_contain_allocation layout;
      let? _ := o in
      r ← on_tlsf (allocate layout);
      match r with
      | Some x => mret (Some x)
      | None => lift (check false);; mret None
      end
  end.

Definition FlexTlsf_deallocate (ptr align : Z) : M (FlexTlsf Source) unit := on_tlsf (deallocate ptr align).

Definition FlexTlsf_deallocate_unknown_align (ptr : Z) : M (FlexTlsf Source) unit :=
  on_tlsf (deallocate_unknown_align ptr).

Definition FlexTlsf_size_of_allocation_unknown_align (ptr : Z) : M (FlexTlsf Source) Z :=
  on_tlsf (size_of_allocation_unknown_align ptr).

Definition FlexTlsf_allocation_usable_size (ptr : Z) : M (FlexTlsf Source) Z :=
  on_tlsf (size_of_allocation_unknown_align ptr).

Definition FlexTlsf_reallocate (ptr : Z) (new_layout : Layout) : M (FlexTlsf Source) (option Z) :=
  old_size ← on_tlsf (size_of_allocation ptr (l_align new_layout));
  r ← on_tlsf (reallocate ptr new_layout);
  match r with
  | Some x => mret (Some x)
  | None =>
      o ← FlexTlsf_allocate new_layout;
      let? new_ptr := o in
      lift (check (old_size <=? l_size new_layout));;
      on_tlsf (copy_nonoverlapping ptr new_ptr old_size);;
      FlexTlsf_deallocate ptr (l_align new_layout);;
      mret (Some new_ptr)
  end.

(** The loop of [drop], which follows the footers. *)
Fixpoint drop_loop (fuel : nat) (cur : option Slice) : M (FlexTlsf Source) unit :=
  match cur with
  | None => mret tt
  | Some cur_alloc =>
      match fuel with
      | O => lift (Fail OutOfFuel)
      | S fuel =>
          prev ← on_tlsf (get_prev_alloc (PoolFtr_get_for_alloc cur_alloc min_align));
          on_source (source_dealloc cur_alloc);;
          drop_loop fuel prev
      end
  end.

(** An allocation has a mapped byte at least, which bounds the iterations. *)
Definition FlexTlsf_drop : M (FlexTlsf Source) unit := fun f =>
  (if supports_dealloc then
     lift (check use_growable_pool);;
     p ← get_growable_pool;
     drop_loop (size (st_mem (flex_st f))) (pool_alloc <$> p)
   else mret tt) f.

End FlexOps.

(** ** What a source promises *)

Definition in_slice (b : Slice) (x : Z) : Prop := b.1 <= x < b.1 + b.2.

(** [m] consists of the bytes of the allocations [L]. *)
Definition covers (m : Mem) (L : list Slice) : Prop :=
  forall x, is_Some (m !! x) <-> exists b, b ∈ L /\ in_slice b x.

Lemma covers_cons m m' a len L : covers m L -> extends m m' a len -> covers m' ((a, len) :: L).
Proof.
  intros Hc [Ho Hf Hm] x. destruct (decide (a <= x < a + len)) as [Hin|Hout].
  - split; [|intros _; by apply Hm]. intros _. exists (a, len). split; [set_solver|done].
  - rewrite Ho, (Hc x) by done. split; intros (b & Hb & Hx).
    + exists b. split; [set_solver|done].
    + apply elem_of_cons in Hb as [->|Hb]; [done|]. by exists b.
Qed.

Lemma covers_grow m m' a len len' L :
  0 <= len <= len' -> covers m ((a, len) :: L) -> extends m m' (a + len) (len' - len) -> covers m' ((a, len') :: L).
Proof.
  intros Hl Hc Hx. pose proof (covers_cons _ _ _ _ _ Hc Hx) as Hc'. intros x. rewrite (Hc' x).
  split; intros (b & Hb & Hbx).
  - apply elem_of_cons in Hb as [->|[->|Hb]%elem_of_cons].
    + exists (a, len'). unfold in_slice in *. simpl in *. split; [set_solver|lia].
    + exists (a, len'). unfold in_slice in *. simpl in *. split; [set_solver|lia].
    + exists b. split; [set_solver|done].
  - apply elem_of_cons in Hb as [->|Hb]; [|exists b; split; [set_solver|done]].
    unfold in_slice in Hbx. simpl in Hbx. destruct (Z.lt_ge_cases x (a + len)).
    + exists (a, len). unfold in_slice. simpl. split; [set_solver|lia].
    + exists (a + len, len' - len). unfold in_slice. simpl. split; [set_solver|lia].
Qed.

(** Memory that was not mapped is in none of the allocations. *)
Lemma covers_fresh m L a len m' b x :
  covers m L -> extends m m' a len -> b ∈ L -> in_slice b x -> ~ a <= x < a + len.
Proof.
  intros Hc [_ Hf _] Hb Hx Hax. assert (Hs : is_Some (m !! x)) by (apply Hc; by exists b).
  rewrite Hf in Hs by done. by destruct Hs.
Qed.

(** The contract of the trait: [Owns src L] says that [L] are the existing
    allocations.  Each method is called with the requirements of its safety
    section; an allocation is memory nobody else uses, at least as long as
    asked for and with both ends aligned to [min_align]; growing keeps the
    start and the bytes; [dealloc] takes the memory back. *)
Class FlexSourceOk {T : Target} {P : TlsfParams} (Source : Type) {FS : FlexSource Source} := {
  Owns : Source -> list Slice -> Prop;
  min_align_pow2 : exists k, 0 <= k /\ min_align = 2 ^ k;
  source_alloc_ok src m L n :
    Owns src L -> covers m L -> 0 < n -> is_usize n -> (GRANULARITY | n) ->
    wp (source_alloc n) (src, m) (fun r '(src', m') =>
      match r with
      | Some (a, len) =>
          Owns src' ((a, len) :: L) /\ slice a len /\ n <= len /\ (min_align | a) /\ (min_align | len) /\
          extends m m' a len
      | None => Owns src' L /\ m' = m
      end);
  realloc_inplace_grow_ok src m L a len n :
    Owns src ((a, len) :: L) -> covers m ((a, len) :: L) -> len <= n -> is_usize n ->
    wp (realloc_inplace_grow (a, len) n) (src, m) (fun r '(src', m') =>
      match r with
      | Some len' =>
          Owns src' ((a, len') :: L) /\ slice a len' /\ n <= len' /\ (min_align | len') /\
          extends m m' (a + len) (len' - len)
      | None => Owns src' ((a, len) :: L) /\ m' = m
      end);
  source_dealloc_ok src m L a len :
    supports_dealloc = true -> Owns src ((a, len) :: L) -> covers m ((a, len) :: L) ->
    wp (source_dealloc (a, len)) (src, m) (fun _ '(src', m') =>
      Owns src' L /\ forall x, m' !! x = if decide (a <= x < a + len) then None else m !! x)
}.

(** Not assumed of a source in a release build, but what makes the last
    assertion of [increase_pool_grow] hold in a debug build: nothing is ever
    left over at the end of an allocation. *)
Definition exact {T : Target} {P : TlsfParams} {Source : Type} {FS : FlexSource Source} : Prop :=
  MAX_POOL_SIZE = None /\ (GRANULARITY | min_align).

(** A source that never extends an allocation never gets there. *)
Definition never_grows {T : Target} {Source : Type} {FS : FlexSource Source} : Prop :=
  forall b n s r s', realloc_inplace_grow b n s = Ok (r, s') -> r = None.
