(* ===== verification/FlexInv.v ===== *)
(** * The invariant of [FlexTlsf]

    The pools and the invariant of [Tlsf], the allocations of the source, the
    chain of footers through them and the growable pool, with the frame
    lemmas: what the methods of [Tlsf] write does not meet a footer, and new
    memory meets nothing that was there. *)

From S2P Require Import Prelude Usize BinInteger SizeClass Machine Header FreeIndex Pool Region Alloc Dealloc Insert Realloc System Flex.

Section FlexSpecs.
Context {T : Target} {P : TlsfParams} {Pok : ParamsOk P} {B : Build}.
Context {Source : Type} {FS : FlexSource Source} {FSok : FlexSourceOk Source}.
#[local] Abbreviation F := (FlexTlsf Source).

Definition flex_mem (f : F) : Mem := st_mem (flex_st f).

(** *** Footers *)

Definition ftr (b : Slice) : Z := PoolFtr_get_for_alloc b min_align.

Definition in_ftr (b : Slice) (x : Z) : Prop := ftr b <= x < ftr b + 2 * WORD.

(** The footer at [p] holds [o]. *)
Definition ftr_at (m : Mem) (p : Z) (o : option Slice) : Prop :=
  match o with
  | None => word_at m p 0
  | Some (a, len) => a <> 0 /\ word_at m p a /\ word_at m (p + WORD) len
  end.

(** The chain of footers that starts with [o] visits [L]. *)
Fixpoint chain (m : Mem) (o : option Slice) (L : list Slice) : Prop :=
  match L with
  | [] => o = None
  | b :: L => o = Some b /\ exists o', ftr_at m (ftr b) o' /\ chain m o' L
  end.

(** An allocation of the source. *)
Record slice_fine (b : Slice) : Prop := {
  sf_slice : slice b.1 b.2;
  sf_pos : GRANULARITY <= b.2;
  sf_start : (min_align | b.1);
  sf_len : (min_align | b.2)
}.

(** The pool created on the head of [L]. *)
Record growable_ok (p : Pool) (Ps : list pool) (L : list Slice) : Prop := {
  gp_head : exists L', L = pool_alloc p :: L';
  gp_end : alloc_start p + pool_len p ∈ p_end <$> Ps;
  gp_pos : 2 * WORD <= pool_len p;
  gp_len : pool_len p <= alloc_len p < pool_len p + 2 * GRANULARITY;
  gp_exact : exact -> pool_len p = alloc_len p;
  gp_fresh : fresh Ps (alloc_start p + pool_len p) (alloc_len p - pool_len p)
}.

Record FInv (f : F) (Ps : list pool) (L : list Slice) : Prop := {
  fi_inv : Inv (flex_st f) Ps;
  fi_owns : Owns (source f) L;
  fi_covers : covers (flex_mem f) L;
  fi_fine : Forall slice_fine L;
  fi_disjoint : ForallOrdPairs (fun b b' => forall x, in_slice b x -> ~ in_slice b' x) L;
  fi_pool : match growable_pool f with
            | Some p => use_growable_pool = true /\ growable_ok p Ps L
            | None => use_growable_pool = true -> L = []
            end;
  fi_chain : supports_dealloc = true -> chain (flex_mem f) (pool_alloc <$> growable_pool f) L;
  fi_footers b x : supports_dealloc = true -> b ∈ L -> in_ftr b x -> in_slice b x /\ ~ writable Ps x
}.

Lemma flex_eta (f : F) : mkFlexTlsf (growable_pool f) (source f) (flex_st f) = f.
Proof. by destruct f. Qed.

(** *** Rules for the two liftings *)

Lemma wp_on_tlsf {A} (c : M St A) (f : F) (Q : A -> F -> Prop) :
  wp c (flex_st f) (fun a s => Q a (mkFlexTlsf (growable_pool f) (source f) s)) -> wp (on_tlsf c) f Q.
Proof. intros (a & s & E & HQ). eexists a, _. split; [unfold on_tlsf; by rewrite E|exact HQ]. Qed.

Lemma wp_on_source {A} (c : M (Source * Mem) A) (f : F) (Q : A -> F -> Prop) :
  wp c (source f, flex_mem f) (fun a '(src, m) => Q a (mkFlexTlsf (growable_pool f) src (with_mem (flex_st f) m))) ->
  wp (on_source c) f Q.
Proof. intros (a & [src m] & E & HQ). eexists a, _. split; [unfold on_source; unfold flex_mem in E; by rewrite E|exact HQ]. Qed.

(** *** Where the footers are *)

Lemma WORD_pow : exists k, WORD = 2 ^ k /\ 1 <= k <= 3.
Proof. destruct target_ok as [->|[->| ->]]; [by exists 1|by exists 2|by exists 3]. Qed.

Lemma min_align_divide x : 0 <= x -> 2 ^ x <= min_align -> (2 ^ x | min_align).
Proof.
  intros Hx Hle. destruct min_align_pow2 as (k & Hk & E). rewrite E in *. by apply pow2_divide_le.
Qed.

(** The footer of an allocation lies behind the first half of a sentinel that
    ends at [e] in it. *)
Lemma ftr_bounds b e :
  slice_fine b -> (GRANULARITY | e) -> GRANULARITY <= e <= b.1 + b.2 ->
  e - 2 * WORD <= ftr b /\ ftr b + 2 * WORD <= b.1 + b.2 /\ (WORD | ftr b).
Proof.
  intros [(H1 & H2 & H3) _ Hs Hl] He Hb. pose proof WORD_pos. pose proof GRANULARITY_WORD as EG.
  destruct WORD_pow as (k & EW & Hk). destruct b as [a len]; cbn [fst snd] in *.
  assert (HeW : (WORD | e)) by (etrans; [|exact He]; rewrite EG; apply Z.divide_factor_r).
  unfold ftr, PoolFtr_get_for_alloc, nonnull_slice_end, nonnull_slice_len, size_of_PoolFtr, align_of_PoolFtr.
  cbn [fst snd]. assert (E : wrapping_sub (wrapping_add a len) (2 * WORD) = a + len - 2 * WORD).
  { unfold wrapping_sub, wrapping_add. rewrite Zminus_mod_idemp_l. apply Z.mod_small. lia. }
  rewrite E. set (q := a + len - 2 * WORD) in *.
  assert (HeW' : (WORD | e - 2 * WORD)) by (apply Z.divide_sub_r; [done|apply Z.divide_factor_r]).
  destruct (Z.ltb_spec min_align WORD) as [Hlt|Hge].
  - assert (Hlw : Z.land q (usize_not (WORD - 1)) = q - q mod WORD).
    { rewrite EW. apply land_usize_not; [pose proof USIZE_BITS_cases; lia|unfold is_usize, q; lia]. }
    rewrite Hlw. assert (Hw0 : 0 < WORD) by lia. pose proof (Z.mod_pos_bound q WORD Hw0).
    assert (Hd : (WORD | q - q mod WORD)).
    { apply Z.mod_divide; [lia|]. by rewrite Zminus_mod, Z.mod_mod, Z.sub_diag by lia. }
    split_and!; [|unfold q in *; lia|done]. destruct (Z.le_gt_cases (e - 2 * WORD) (q - q mod WORD)) as [|Hgt]; [done|].
    pose proof (divide_gap WORD _ _ Hw0 Hd HeW' Hgt). unfold q in *. lia.
  - assert (Hm : (WORD | min_align)) by (rewrite EW in *; apply min_align_divide; lia).
    split_and!; [unfold q; lia|unfold q; lia|]. unfold q.
    apply Z.divide_sub_r; [|apply Z.divide_factor_r]. apply Z.divide_add_r; by etrans; [exact Hm|].
Qed.

(** *** Frames *)

Lemma in_pools_mapped s Ps x : Inv s Ps -> in_pools Ps x -> is_Some (st_mem s !! x).
Proof.
  intros [_ Hr _] (p & Hp & Hx). rewrite Forall_forall in Hr. destruct (Hr p Hp) as [_ Hm].
  apply Hm. unfold p_end in Hx. lia.
Qed.

Lemma covers_step D m m' L : mem_step D m m' -> (forall x, D x -> is_Some (m !! x)) -> covers m L -> covers m' L.
Proof.
  intros [E Hm] HD Hc x. rewrite <- (Hc x). split; [|apply Hm]. intros Hx.
  destruct (m !! x) as [b|] eqn:Ex; [by eexists|].
  rewrite E in Hx by (intros Hd; apply HD in Hd; rewrite Ex in Hd; by destruct Hd). by rewrite Ex in Hx.
Qed.

Lemma ftr_at_ext m m' p o :
  (forall x, p <= x < p + 2 * WORD -> m' !! x = m !! x) -> ftr_at m p o -> ftr_at m' p o.
Proof.
  intros HE. pose proof WORD_pos. destruct o as [[a len]|]; simpl; [intros (H1 & H2 & H3); split_and!; [done| |]|intros H1];
    (eapply word_at_ext; [|eassumption]); intros x Hx; apply HE; unfold in_word in Hx; lia.
Qed.

Lemma chain_ext m m' o L :
  (forall b x, b ∈ L -> in_ftr b x -> m' !! x = m !! x) -> chain m o L -> chain m' o L.
Proof.
  revert o. induction L as [|b L IH]; intros o HE; simpl; [done|]. intros [-> (o' & Hf & Hc)].
  split; [done|]. exists o'. split.
  - eapply ftr_at_ext; [|exact Hf]. intros x Hx. apply (HE b); [set_solver|done].
  - apply IH; [|done]. intros b' x Hb'. apply HE. set_solver.
Qed.

Lemma fresh_extents Ps Ps' a len : extents Ps' ≡ₚ extents Ps -> fresh Ps a len -> fresh Ps' a len.
Proof.
  intros HE Hf p Hp. assert (Hin : (p_start p, p_len p) ∈ extents Ps).
  { rewrite <- HE. apply list_elem_of_fmap. by exists p. }
  apply list_elem_of_fmap in Hin as (q & Eq & Hq). injection Eq as Es El.
  unfold p_end. rewrite Es, El. exact (Hf q Hq).
Qed.

Lemma changes_mapped s Ps keep x : Inv s Ps -> changes Ps keep x -> is_Some (st_mem s !! x).
Proof. intros HI [Hw _]. eapply in_pools_mapped; [exact HI|by apply writable_in_pools]. Qed.

(** Any method of [Tlsf] that leaves the pools where they are. *)
Lemma FInv_post (f : F) Ps L s' Ps' keep :
  FInv f Ps L -> post (flex_st f) s' Ps Ps' keep ->
  FInv (mkFlexTlsf (growable_pool f) (source f) s') Ps' L.
Proof.
  intros [Hi Ho Hc Hf Hds Hp Hch Hft] [Hi' Hx Hm]. split; simpl; try done.
  - eapply covers_step; [exact Hm| |exact Hc]. intros x. by apply changes_mapped.
  - destruct (growable_pool f) as [p|]; [|done]. destruct Hp as [Hu [H1 H2 H3 H4 H5 H6]]. split; [done|].
    split; try done; [by apply (extents_ends Ps)|by apply (fresh_extents Ps)].
  - intros Hd. eapply chain_ext; [|by apply Hch]. intros b x Hb Hbx. apply (mem_step_eq _ _ _ Hm). intros [Hw _].
    by destruct (Hft b x Hd Hb Hbx).
  - intros b x Hd Hb Hbx. destruct (Hft b x Hd Hb Hbx) as [H1 H2]. split; [done|]. intros Hw.
    apply H2. eapply writable_extents; [|exact Hw]. by symmetry.
Qed.

(** Memory outside the writable bytes of the pools is not theirs. *)
Lemma foot_writable Ps p x : Forall wf_pool Ps -> p ∈ Ps -> foot (p_start p) (p_blocks p) x -> writable Ps x.
Proof.
  intros Hw Hp Hx. rewrite Forall_forall in Hw. specialize (Hw p Hp). exists p. split; [done|].
  pose proof WORD_pos. pose proof GRANULARITY_WORD. pose proof (total_nonneg _ _ (wfp_blocks _ Hw)).
  unfold p_end. rewrite p_len_eq. unfold p_blocks in Hx. apply foot_app in Hx as [Hx|Hx].
  - apply foot_range in Hx; [lia|apply Hw].
  - simpl in Hx. unfold foot_block in Hx. simpl in Hx. lia.
Qed.

Lemma Inv_frame D s m' Ps :
  Inv s Ps -> mem_step D (st_mem s) m' -> (forall x, D x -> ~ writable Ps x) -> Inv (with_mem s m') Ps.
Proof.
  intros [Hw Hr Hi] Hs HD. pose proof Hw as [Hwf _]. split; simpl; [done| |].
  - rewrite Forall_forall in Hr; rewrite Forall_forall. intros p Hp. eapply rep_pool_step; [exact Hw|done|exact Hs| |auto].
    intros x Hx Hf. apply (HD x Hx). by eapply foot_writable.
  - eapply FreeIndex_step; [exact Hs| |done]. intros x Hx Hd. apply (HD x Hd).
    by eapply links_changes.
Qed.

Lemma fresh_pointwise Ps a len :
  Forall wf_pool Ps -> (forall x, a <= x < a + len -> ~ in_pools Ps x) -> fresh Ps a len.
Proof.
  intros Hw Hx p Hp. rewrite Forall_forall in Hw. pose proof (p_len_pos p (Hw p Hp)).
  destruct (Z.le_gt_cases len 0); [by left|]. destruct (Z.le_gt_cases (p_end p) a); [by right; left|].
  destruct (Z.le_gt_cases (a + len) (p_start p)); [by right; right|]. exfalso.
  apply (Hx (Z.max a (p_start p))); [lia|]. exists p. split; [done|]. unfold p_end in *. lia.
Qed.

Lemma fresh_out Ps a len x : fresh Ps a len -> a <= x < a + len -> ~ in_pools Ps x.
Proof. intros Hf Hx (p & Hp & Hpx). destruct (Hf p Hp); lia. Qed.

Lemma wf_pool_min p : wf_pool p -> 2 * GRANULARITY <= p_len p.
Proof.
  intros Hp. rewrite p_len_eq. destruct Hp as [_ _ _ Hb Hw _ _ _]. destruct (p_body p) as [|b l]; [done|].
  destruct Hw as [Hwb Hl]. pose proof (wf_block_ge _ _ Hwb). pose proof (total_nonneg _ _ Hl). simpl. lia.
Qed.

Lemma p_end_aligned p : wf_pool p -> (GRANULARITY | p_end p).
Proof. intros Hp. apply Z.divide_add_r; [apply Hp|]. eapply total_aligned. by apply wf_p_blocks. Qed.

(** The end of a pool, from the second half of its sentinel on. *)
Lemma tail_not_writable Ps e n x :
  wf_pools Ps -> e ∈ p_end <$> Ps -> fresh Ps e n -> e - 2 * WORD <= x < e + n -> ~ writable Ps x.
Proof.
  intros [Hw Hd] (p & -> & Hp)%list_elem_of_fmap Hf Hx (q & Hq & Hqx).
  pose proof WORD_pos. pose proof GRANULARITY_WORD. rewrite Forall_forall in Hw. pose proof (wf_pool_min p (Hw p Hp)).
  destruct (Z.lt_ge_cases x (p_end p)) as [Hlt|Hge].
  - assert (Hpq : p = q \/ pools_disjoint p q).
    { apply elem_of_Permutation_cons in Hp as [Ps0 HP]. rewrite HP in Hq. apply elem_of_cons in Hq as [->|Hq]; [by left|right].
      assert (Hwp : wf_pools (p :: Ps0)) by (rewrite <- HP; split; [by apply Forall_forall|done]).
      destruct Hwp as [_ Hd']. inversion_clear Hd' as [|? ? Hdp _]. by eapply Forall_forall in Hdp. }
    destruct Hpq as [<-|Hpq]; [lia|]. unfold pools_disjoint, p_end in *. lia.
  - apply (fresh_out Ps (p_end p) n x Hf); [lia|]. exists q. split; [done|lia].
Qed.

End FlexSpecs.
