(* ===== verification/FlexGrow.v ===== *)
(** * Acquiring memory

    [increase_pool_to_contain_allocation]: creating a pool on a new allocation
    of the source ([NewPool]) and growing the last one ([GrowPool]). *)

From S2P Require Import Prelude Usize BinInteger SizeClass Machine Header FreeIndex Pool Region Alloc Dealloc Insert Realloc System Flex FlexInv.

Section FlexSpecs.
Context {T : Target} {P : TlsfParams} {Pok : ParamsOk P} {B : Build}.
Context {Source : Type} {FS : FlexSource Source} {FSok : FlexSourceOk Source}.
#[local] Abbreviation F := (FlexTlsf Source).

(** *** Reading and writing footers *)

Lemma wp_deref_PoolFtr p s (Q : unit -> St -> Prop) : 0 < p -> (WORD | p) -> Q tt s -> wp (deref_PoolFtr p) s Q.
Proof.
  intros Hp Hd HQ. pose proof WORD_pos. unfold deref_PoolFtr. eapply wp_lift; [|exact HQ].
  rewrite (proj2 (Z.eqb_neq p 0)) by lia. unfold align_of_PoolFtr.
  assert (Hz : WORD <> 0) by lia. by rewrite (proj2 (Z.mod_divide p WORD Hz) Hd).
Qed.

Lemma wp_get_prev_alloc p o s (Q : option Slice -> St -> Prop) :
  0 < p -> (WORD | p) -> ftr_at (st_mem s) p o -> Q o s -> wp (get_prev_alloc p) s Q.
Proof.
  intros Hp Hd Hf HQ. apply wp_bind, wp_deref_PoolFtr; [done|done|]. destruct o as [[a len]|]; simpl in Hf.
  - destruct Hf as (Ha & H1 & H2). apply wp_bind. eapply wp_load; [exact H1|].
    rewrite (proj2 (Z.eqb_neq a 0)) by done. apply wp_bind. eapply wp_load; [exact H2|]. by apply wp_ret.
  - apply wp_bind. eapply wp_load; [exact Hf|]. by apply wp_ret.
Qed.

Lemma wp_set_prev_alloc p o s (Q : unit -> St -> Prop) :
  0 < p -> (WORD | p) -> mapped (st_mem s) p (2 * WORD) ->
  match o with Some (a, len) => slice a len /\ 0 < len | None => True end ->
  (forall m', mem_step (fun x => p <= x < p + 2 * WORD) (st_mem s) m' -> ftr_at m' p o -> Q tt (with_mem s m')) ->
  wp (set_prev_alloc p o) s Q.
Proof.
  intros Hp Hd Hm Ho HQ. pose proof WORD_pos. pose proof USIZE_MOD_large.
  apply wp_bind, wp_deref_PoolFtr; [done|done|]. destruct o as [[a len]|].
  - destruct Ho as [(H1 & H2 & H3) Hl]. apply wp_bind, wp_store; [eapply mapped_sub; [exact Hm|lia|lia]|unfold is_usize; lia|].
    intros m1 Hs1 Hw1. apply wp_store; simpl.
    { eapply mapped_step; [exact Hs1|]. eapply mapped_sub; [exact Hm|lia|lia]. }
    { unfold is_usize. lia. }
    intros m2 Hs2 Hw2. apply HQ.
    + eapply mem_step_trans; (eapply mem_step_weaken; [eassumption|]); intros x Hx; unfold in_word in Hx; lia.
    + split_and!; [lia| |done]. eapply word_at_step; [exact Hs2| |exact Hw1]. unfold in_word. intros x Hx. lia.
  - apply wp_store; [eapply mapped_sub; [exact Hm|lia|lia]|unfold is_usize; lia|]. intros m1 Hs1 Hw1. apply HQ; [|done].
    eapply mem_step_weaken; [exact Hs1|]. unfold in_word. intros x Hx. lia.
Qed.

(** *** New memory *)

Lemma FInv_source (f : F) Ps L src :
  FInv f Ps L -> Owns src L -> FInv (mkFlexTlsf (growable_pool f) src (flex_st f)) Ps L.
Proof. intros [] Ho. by split. Qed.

(** A pool created on a new allocation [(a, len)]: [n] bytes of it are used,
    and its footer was written last. *)
Section NewPool.
Context {f : F} {Ps : list pool} {L : list Slice} {a len n : Z} {m1 m3 : Mem} {s2 : St} {news : list pool}.
Context (HF : FInv f Ps L) (Hfine : slice_fine (a, len)) (Hx : extends (flex_mem f) m1 a len).
Context (Hins : inserted (with_mem (flex_st f) m1) s2 Ps news (round_up GRANULARITY a) (a + n)).
Context (Hn : round_up GRANULARITY a < a + n) (Hn' : n <= len < n + 2 * GRANULARITY).
Context (Hs3 : mem_step (fun x => supports_dealloc = true /\ in_ftr (a, len) x) (st_mem s2) m3).

#[local] Abbreviation e := (a + n).

Lemma new_grown : grown (with_mem (flex_st f) m1) s2 Ps (news ++ Ps) (round_up GRANULARITY a) e.
Proof. by apply inserted_grown. Qed.

Lemma new_end : e ∈ p_end <$> news ++ Ps.
Proof. by apply (gr_end _ _ _ _ _ _ new_grown). Qed.

Lemma new_end_aligned : (GRANULARITY | e) /\ round_up GRANULARITY a + GRANULARITY <= e.
Proof.
  pose proof GRANULARITY_pos. assert (Hg0 : 0 < GRANULARITY) by lia.
  destruct (round_up_spec GRANULARITY a Hg0) as [_ Hd].
  assert (He : (GRANULARITY | e)).
  { pose proof new_end as (p & -> & Hp)%list_elem_of_fmap. apply p_end_aligned.
    destruct Hins as [[[Hw _] _ _] _ _ _]. by eapply Forall_forall in Hw. }
  split; [done|]. by apply divide_gap.
Qed.

Lemma new_ftr : e - 2 * WORD <= ftr (a, len) /\ ftr (a, len) + 2 * WORD <= a + len /\ (WORD | ftr (a, len)).
Proof.
  destruct new_end_aligned as [Hd He]. pose proof GRANULARITY_pos. destruct Hfine as [(Ha & _) _ _ _]. simpl in Ha.
  assert (Hg0 : 0 < GRANULARITY) by lia. pose proof (round_up_spec GRANULARITY a Hg0).
  apply (ftr_bounds (a, len) e Hfine Hd). simpl. lia.
Qed.

Lemma new_fresh : fresh Ps a len.
Proof. destruct HF as [[[Hw _] Hr _] _ _ _ _ _ _ _]. eapply extends_fresh; [exact Hw|exact Hr|exact Hx]. Qed.

Lemma new_writable x : writable (news ++ Ps) x -> writable Ps x \/ a <= x < e - 2 * WORD.
Proof.
  intros (q & [Hq|Hq]%elem_of_app & Hqx); [right|left; by exists q].
  destruct Hins as [[[Hw _] _ _] Ht _ _]. apply Forall_app in Hw as [Hw _].
  pose proof GRANULARITY_pos. assert (Hg0 : 0 < GRANULARITY) by lia. pose proof (round_up_spec GRANULARITY a Hg0).
  assert (round_up GRANULARITY a <= x < e - 2 * WORD) by (eapply tiled_writable; [done|done|by exists q]). lia.
Qed.

(** What changed in all of the steps. *)
Lemma new_step x :
  ~ changes Ps (live Ps) x -> ~ a <= x < a + len -> m3 !! x = flex_mem f !! x.
Proof.
  intros Hc Ha. destruct new_end_aligned as [_ He]. pose proof new_ftr. pose proof GRANULARITY_pos. pose proof WORD_pos.
  assert (Hg0 : 0 < GRANULARITY) by lia. pose proof (round_up_spec GRANULARITY a Hg0).
  pose proof GRANULARITY_WORD.
  rewrite (mem_step_eq _ _ _ Hs3) by (unfold in_ftr; intros [_ ?]; lia).
  rewrite (mem_step_eq _ _ _ (ins_mem _ _ _ _ _ _ Hins)) by (intros [?|?]; [done|lia]).
  by apply (ext_old _ _ _ _ Hx).
Qed.

Lemma new_mapped x : is_Some (flex_mem f !! x) \/ a <= x < a + len -> is_Some (m3 !! x).
Proof.
  intros H. apply (mem_step_mapped _ _ _ Hs3), (mem_step_mapped _ _ _ (ins_mem _ _ _ _ _ _ Hins)). simpl.
  destruct (decide (a <= x < a + len)) as [Hin|Hout]; [by apply (ext_mapped _ _ _ _ Hx)|].
  rewrite (ext_old _ _ _ _ Hx) by done. tauto.
Qed.

Lemma new_covers : covers m3 ((a, len) :: L).
Proof.
  pose proof (covers_cons _ _ _ _ _ (fi_covers _ _ _ HF) Hx) as Hc. intros x. rewrite <- (Hc x). split.
  - intros Hs. destruct (decide (a <= x < a + len)) as [Hin|Hout]; [by apply (ext_mapped _ _ _ _ Hx)|].
    rewrite (ext_old _ _ _ _ Hx) by done. destruct (flex_mem f !! x) as [b|] eqn:E; [by eexists|].
    rewrite new_step, E in Hs; [done| |done]. intros Hch. eapply changes_mapped in Hch; [|apply HF].
    unfold flex_mem in E. rewrite E in Hch. by destruct Hch.
  - intros Hs. apply new_mapped. destruct (decide (a <= x < a + len)) as [Hin|Hout]; [by right|left].
    by rewrite (ext_old _ _ _ _ Hx) in Hs.
Qed.

Lemma new_inv : Inv (with_mem s2 m3) (news ++ Ps).
Proof.
  eapply Inv_frame; [apply Hins|exact Hs3|]. intros x [_ Hf] [Hw|Hw]%new_writable.
  - apply writable_in_pools in Hw. destruct new_ftr as (H1 & H2 & _). unfold in_ftr in Hf.
    destruct new_end_aligned as [_ He]. pose proof GRANULARITY_pos. pose proof WORD_pos. pose proof GRANULARITY_WORD.
    assert (Hg0 : 0 < GRANULARITY) by lia. pose proof (round_up_spec GRANULARITY a Hg0).
    apply (fresh_out Ps a len x new_fresh); [lia|done].
  - destruct new_ftr as (H1 & _). unfold in_ftr in Hf. lia.
Qed.

(** The bytes of old allocations, where they are not changed. *)
Lemma new_old b x : b ∈ L -> in_slice b x -> ~ a <= x < a + len.
Proof. intros Hb Hbx. eapply covers_fresh; [apply HF|exact Hx|exact Hb|done]. Qed.

Lemma new_payload al x : al ∈ live Ps -> payload al x -> m3 !! x = flex_mem f !! x.
Proof.
  intros Hal Hpx. apply new_step; [intros [_ Hno]; by apply (Hno al)|]. intros Hax.
  apply elem_of_live in Hal as (q & Hq & Hal). destruct HF as [[[Hw _] _ _] _ _ _ _ _ _ _].
  rewrite Forall_forall in Hw. destruct (allocs_range _ _ _ (wfp_blocks _ (Hw q Hq)) Hal) as (H1 & _ & H3 & _).
  pose proof WORD_pos. pose proof GRANULARITY_pos. unfold payload in Hpx.
  apply (fresh_out Ps a len x new_fresh Hax). exists q. split; [done|]. unfold p_end. rewrite p_len_eq. lia.
Qed.

Lemma new_chain :
  (supports_dealloc = true -> ftr_at m3 (ftr (a, len)) (pool_alloc <$> growable_pool f)) ->
  supports_dealloc = true -> chain m3 (Some (a, len)) ((a, len) :: L).
Proof.
  intros Hft Hd. split; [done|]. eexists. split; [by apply Hft|].
  eapply chain_ext; [|by apply HF]. intros b x Hb Hbx. destruct (fi_footers _ _ _ HF b x Hd Hb Hbx) as [Hin Hnw].
  apply new_step; [by intros []|by eapply new_old].
Qed.

Lemma new_growable : (exact -> n = len) -> growable_ok (mkFlexPool a len n) (news ++ Ps) ((a, len) :: L).
Proof.
  intros Hexact. destruct new_end_aligned as [_ He]. pose proof GRANULARITY_pos. pose proof GRANULARITY_WORD.
  assert (Hg0 : 0 < GRANULARITY) by lia. pose proof (round_up_spec GRANULARITY a Hg0).
  split; simpl; [by eexists|apply new_end|lia|lia|done|].
  apply fresh_pointwise; [apply new_inv|]. intros x Hax Hin. apply (gr_area _ _ _ _ _ _ new_grown) in Hin as [Hin|Hin]; [|lia].
  apply (fresh_out Ps a len x new_fresh); [lia|done].
Qed.

Lemma new_footers b x :
  supports_dealloc = true -> b ∈ (a, len) :: L -> in_ftr b x -> in_slice b x /\ ~ writable (news ++ Ps) x.
Proof.
  intros Hd [->|Hb]%elem_of_cons Hbx.
  - destruct new_ftr as (H1 & H2 & _). destruct new_end_aligned as [_ He]. unfold in_ftr in Hbx.
    pose proof GRANULARITY_pos. pose proof WORD_pos. pose proof GRANULARITY_WORD.
    assert (Hg0 : 0 < GRANULARITY) by lia. pose proof (round_up_spec GRANULARITY a Hg0).
    assert (Hax : a <= x < a + len) by lia. split; [done|]. intros [Hw|Hw]%new_writable; [|lia].
    apply (fresh_out Ps a len x new_fresh Hax). by apply writable_in_pools.
  - destruct (fi_footers _ _ _ HF b x Hd Hb Hbx) as [Hin Hnw]. split; [done|]. intros [Hw|Hw]%new_writable; [done|].
    apply (new_old b x Hb Hin). pose proof WORD_pos. lia.
Qed.

Lemma new_FInv src :
  Owns src ((a, len) :: L) -> (exact -> n = len) ->
  (supports_dealloc = true -> ftr_at m3 (ftr (a, len)) (pool_alloc <$> growable_pool f)) ->
  FInv (mkFlexTlsf (if use_growable_pool then Some (mkFlexPool a len n) else growable_pool f) src (with_mem s2 m3))
    (news ++ Ps) ((a, len) :: L).
Proof.
  intros Ho Hexact Hft. split; simpl; [apply new_inv|done|apply new_covers|constructor; [done|apply HF]| | | |].
  - constructor; [|apply HF]. rewrite Forall_forall. intros b Hb x Hx1 Hx2. by apply (new_old b x Hb Hx2).
  - destruct use_growable_pool eqn:Eu; [split; [done|by apply new_growable]|].
    destruct HF as [_ _ _ _ _ Hp _ _]. destruct (growable_pool f); [|done]. by destruct Hp; congruence.
  - intros Hd. assert (Eu : use_growable_pool = true) by (unfold use_growable_pool; by rewrite Hd).
    rewrite Eu. by apply new_chain.
  - apply new_footers.
Qed.

End NewPool.

(** *** Creating and growing pools *)

(** After [increase_pool_to_contain_allocation]: room for [n] bytes, and no
    change to what clients hold. *)
Definition increased (f f' : F) (Ps : list pool) (n : Z) : Prop :=
  exists Ps' L', FInv f' Ps' L' /\ live Ps' ≡ₚ live Ps /\ has_room Ps' n /\
    forall al x, al ∈ live Ps -> payload al x -> flex_mem f' !! x = flex_mem f !! x.

Lemma GRANULARITY_le_align : GRANULARITY <= min_align -> (GRANULARITY | min_align).
Proof. destruct GRANULARITY_pow as [E ?]. rewrite E. intros. apply min_align_divide; [lia|done]. Qed.

Lemma exact_align : exact -> GRANULARITY <= min_align.
Proof.
  intros [_ Hd]. destruct min_align_pow2 as (k & Hk & E). pose proof GRANULARITY_pos.
  apply divide_pos_le; [lia|done|]. rewrite E. by apply pow2_pos.
Qed.

(** The two ways to create a pool on an allocation of the source. *)
Lemma insert_alloc_spec a len extra s Ps (Q : option Z -> St -> Prop) :
  Inv s Ps -> slice_ok (st_mem s) Ps a len -> slice_fine (a, len) ->
  2 * GRANULARITY <= extra -> (GRANULARITY | extra) ->
  (if min_align <? GRANULARITY then extra + GRANULARITY <= len else extra <= len) ->
  (forall news s' n, inserted s s' Ps news (round_up GRANULARITY a) (a + n) ->
     round_up GRANULARITY a < a + n -> n <= len < n + 2 * GRANULARITY ->
     has_room news (chunk_size_of extra) -> (exact -> n = len) -> Q (Some n) s') ->
  wp (if GRANULARITY <=? min_align then insert_free_block_ptr_aligned a len else insert_free_block_ptr a len) s Q.
Proof.
  intros HI Hsl [_ _ Hsa Hsn] He Hed Hlen HQ. simpl in Hsa, Hsn. pose proof GRANULARITY_pos.
  assert (Hg0 : 0 < GRANULARITY) by lia. destruct (round_up_spec GRANULARITY a Hg0) as [Hr Hrd].
  destruct (Z.leb_spec GRANULARITY min_align) as [Hge|Hlt].
  - rewrite (proj2 (Z.ltb_ge _ _)) in Hlen by done. apply GRANULARITY_le_align in Hge.
    assert (Ha : (GRANULARITY | a)) by (etrans; [exact Hge|done]). assert (Hl : (GRANULARITY | len)) by (etrans; [exact Hge|done]).
    rewrite (round_up_id GRANULARITY a Hg0 Ha) in HQ.
    eapply insert_aligned_spec; [exact HI|eapply raw_of_slice; [exact Hsl|lia|lia|lia|done|done]|lia|].
    intros news s' n Hins Hn Hrem Hrm Hcn. eapply HQ; [exact Hins|lia|lia| |].
    + eapply has_room_le; [exact Hrm|by apply chunk_size_of_mono].
    + intros [Hmax _]. unfold chunk_size_of in Hcn. rewrite Hmax in Hcn. lia.
  - rewrite (proj2 (Z.ltb_lt _ _)) in Hlen by done. eapply insert_spec; [exact HI|exact Hsl|lia|].
    intros news s' n Hins Hn1 Hn2 Hrem Hrm. eapply HQ; [exact Hins|lia|lia|apply Hrm; [done|lia]|].
    intros Hx%exact_align. lia.
Qed.

Lemma slice_parts (f : F) Ps L b : FInv f Ps L -> b ∈ L -> slice b.1 b.2 /\ 0 < b.2.
Proof. intros [_ _ _ Hf _ _ _ _] Hb. rewrite Forall_forall in Hf. destruct (Hf b Hb). pose proof GRANULARITY_pos. split; [done|lia]. Qed.

Lemma growable_slice (f : F) Ps L p : FInv f Ps L -> growable_pool f = Some p -> pool_alloc p ∈ L.
Proof. intros [_ _ _ _ _ Hp _ _] E. rewrite E in Hp. destruct Hp as [_ [(L' & ->) _ _ _ _ _]]. set_solver. Qed.

(** *** When no memory can be acquired *)

(** The source [src] gives no new allocation for a pool of [n] bytes: it is
    asked for them, and for the bytes the alignment of the start may cost,
    and declines, unless that number overflows. *)
Inductive new_refused (n : Z) (m : Mem) (src : Source) : Source -> Prop :=
  | new_overflow : min_align < GRANULARITY -> USIZE_MOD <= n + GRANULARITY -> new_refused n m src src
  | new_declined src' :
      source_alloc (if min_align <? GRANULARITY then n + GRANULARITY else n) (src, m) = Ok (None, (src', m)) ->
      new_refused n m src src'.

(** The memory for [l] cannot be acquired: the pool that would hold it is too
    large for the type [usize], or there is no pool to grow and a new one is
    refused, or there is one and the source declines to grow it, and a new one
    is refused too, unless all memory of the source is contiguous. *)
Inductive exhausted (l : Layout) (f : F) : Source -> Prop :=
  | exhausted_size : pool_size_to_contain_allocation l = Ok None -> exhausted l f (source f)
  | exhausted_first n src' :
      pool_size_to_contain_allocation l = Ok (Some n) -> growable_pool f = None ->
      new_refused n (flex_mem f) (source f) src' -> exhausted l f src'
  | exhausted_len n p :
      pool_size_to_contain_allocation l = Ok (Some n) -> growable_pool f = Some p ->
      USIZE_MOD <= pool_len p + n -> exhausted l f (source f)
  | exhausted_grow n p src1 src' :
      pool_size_to_contain_allocation l = Ok (Some n) -> growable_pool f = Some p ->
      realloc_inplace_grow (pool_alloc p) (pool_len p + n) (source f, flex_mem f) = Ok (None, (src1, flex_mem f)) ->
      (if is_contiguous_growable then src' = src1 else new_refused n (flex_mem f) src1 src') ->
      exhausted l f src'.

(** The size requested for a new pool: room for the alignment of its start,
    unless the source gives it; [None] on overflow. *)
Lemma extra_bytes_spec extra :
  0 < extra -> is_usize extra -> (GRANULARITY | extra) ->
  let eb := if min_align <? GRANULARITY then checked_add extra GRANULARITY else Some extra in
  (eb = None /\ min_align < GRANULARITY /\ USIZE_MOD <= extra + GRANULARITY) \/
  exists n, eb = Some n /\ n = (if min_align <? GRANULARITY then extra + GRANULARITY else extra) /\ 0 < n /\ is_usize n /\ (GRANULARITY | n) /\
    forall len, n <= len -> if min_align <? GRANULARITY then extra + GRANULARITY <= len else extra <= len.
Proof.
  intros He Hu Hd. pose proof GRANULARITY_pos. unfold is_usize in Hu. cbv zeta.
  case_bool; [|right; exists extra; split_and!; (done || unfold is_usize; lia)].
  destruct (checked_add extra GRANULARITY) as [n|] eqn:E; [right|left; split_and!; [done|lia|by apply checked_add_None]].
  apply checked_add_Some in E as [-> Hb]. exists (extra + GRANULARITY).
  split_and!; try done; [lia|unfold is_usize; lia|apply Z.divide_add_r; [done|apply Z.divide_refl]].
Qed.

Lemma increase_pool_new_spec extra f Ps L (Q : option unit -> F -> Prop) :
  FInv f Ps L -> 2 * GRANULARITY <= extra -> is_usize extra -> (GRANULARITY | extra) -> chunk_size_of extra = extra ->
  (forall src, Owns src L -> new_refused extra (flex_mem f) (source f) src ->
     Q None (mkFlexTlsf (growable_pool f) src (flex_st f))) ->
  (forall f', increased f f' Ps extra -> Q (Some tt) f') ->
  wp (increase_pool_new extra) f Q.
Proof.
  intros HF He Hu Hd Hc HN HS. pose proof GRANULARITY_pos. unfold is_usize in Hu.
  assert (Eeta : f = mkFlexTlsf (growable_pool f) (source f) (flex_st f)) by by destruct f.
  unfold increase_pool_new. destruct (extra_bytes_spec extra) as [(-> & Hlt & Hov)|(n & -> & En & Hn & Hnu & Hnd & Hlen)]; [lia|done|done| |].
  { apply wp_ret. rewrite Eeta. apply HN; [apply HF|by apply new_overflow]. }
  apply wp_bind, wp_on_source. eapply wp_mono; [apply wp_eq, (source_alloc_ok _ _ L); [apply HF|apply HF|done..]|].
  intros [[a len]|] [src m1] [Ea Hpost]; revert Hpost; cbn beta iota.
  2: { intros [Ho ->]. apply wp_ret. unfold flex_mem. replace (with_mem (flex_st f) (st_mem (flex_st f))) with (flex_st f)
         by by destruct (flex_st f). apply HN; [done|]. apply new_declined. by rewrite <- En. }
  intros (Ho & Hsl & Hnl & Ha & Hl & Hx). specialize (Hlen len Hnl).
  assert (extra <= len) by (destruct (min_align <? GRANULARITY); lia).
  assert (Hfine : slice_fine (a, len)) by (split; simpl; (done || lia)).
  apply wp_bind, wp_on_tlsf. cbn [growable_pool source flex_st fst snd].
  eapply (insert_alloc_spec a len extra _ Ps); try done.
  { eapply extends_inv; [apply HF|exact Hx]. }
  { eapply extends_slice; [apply HF|done|exact Hx]. }
  intros news s2 k Hins Hk1 Hk2 Hrm Hexact. rewrite Hc in Hrm.
  apply wp_bind. eapply wp_lift; [done|]. cbv beta. apply wp_bind. eexists _, _. split; [reflexivity|].
  cbn [growable_pool].
  assert (Hfin : forall m3, mem_step (fun x => supports_dealloc = true /\ in_ftr (a, len) x) (st_mem s2) m3 ->
    (supports_dealloc = true -> ftr_at m3 (ftr (a, len)) (pool_alloc <$> growable_pool f)) ->
    wp ((if use_growable_pool then set_growable_pool (Some (mkFlexPool a len k)) else mret tt);; mret (Some tt))
      (mkFlexTlsf (growable_pool f) src (with_mem s2 m3)) Q).
  { intros m3 Hs3 Hft.
    assert (Hinc : increased f (mkFlexTlsf (if use_growable_pool then Some (mkFlexPool a len k) else growable_pool f) src
                     (with_mem s2 m3)) Ps extra).
    { exists (news ++ Ps), ((a, len) :: L). split_and!.
      - by apply (new_FInv HF Hfine Hx Hins Hk1 Hk2 Hs3).
      - by rewrite live_app, (ins_live _ _ _ _ _ _ Hins).
      - eapply has_room_sub; [|exact Hrm]. set_solver.
      - intros al x Hal Hpx. by apply (new_payload HF Hfine Hx Hins Hk1 Hk2 Hs3 al). }
    destruct use_growable_pool; (apply wp_bind; eexists _, _; split; [reflexivity|]; apply wp_ret, HS, Hinc). }
  apply wp_bind. destruct supports_dealloc eqn:Esd.
  - destruct (new_ftr Hfine Hins Hk1 Hk2) as (Hf1 & Hf2 & Hf3).
    pose proof (new_end_aligned Hins Hk1) as [_ He1]. pose proof GRANULARITY_WORD. pose proof WORD_pos.
    assert (Hg0 : 0 < GRANULARITY) by lia. pose proof (round_up_spec GRANULARITY a Hg0).
    destruct Hsl as (Hsl1 & _). apply wp_on_tlsf, wp_set_prev_alloc; [fold (ftr (a, len)); lia|done| | |].
    + intros x Hxf. fold (ftr (a, len)) in Hxf. apply (mem_step_mapped _ _ _ (ins_mem _ _ _ _ _ _ Hins)). simpl.
      apply (ext_mapped _ _ _ _ Hx). lia.
    + destruct (growable_pool f) as [p|] eqn:Ep; [|done]. simpl. exact (slice_parts f Ps L _ HF (growable_slice _ _ _ _ HF Ep)).
    + intros m3 Hs3 Hft. apply Hfin; [|done]. eapply mem_step_weaken; [exact Hs3|]. by intros x Hxf.
  - apply wp_ret. replace s2 with (with_mem s2 (st_mem s2)) by by destruct s2. apply Hfin; [apply mem_step_refl|done].
Qed.

Lemma grown_perm s s' Ps Qs Ps' a b : Ps ≡ₚ Qs -> grown s s' Ps Ps' a b -> grown s s' Qs Ps' a b.
Proof.
  intros HP [H1 H2 H3 H4 H5 H6 H7]. split; try done.
  - by rewrite H2, HP.
  - intros x. by rewrite H3, HP.
  - intros x Hx. rewrite <- (writable_perm _ _ HP x x eq_refl). by apply H4.
  - intros e He. apply H6. by rewrite HP.
  - eapply mem_step_weaken; [exact H7|]. intros x [Hx|Hx]; [left|by right]. by rewrite HP in Hx.
Qed.

(** The growable pool [p], on the head of the allocations, was extended by the
    source to [len'] bytes, its footer moved ([m2]), and [k] bytes appended. *)
Section GrowPool.
Context {f : F} {Ps : list pool} {L : list Slice} {p : Pool} {len' : Z} {m1 : Mem}.
Context (HF : FInv f Ps (pool_alloc p :: L)) (Ep : growable_pool f = Some p).
Context (Hsl : slice (alloc_start p) len') (Hal : (min_align | len')) (Hlen : alloc_len p <= len').
Context (Hx : extends (flex_mem f) m1 (alloc_start p + alloc_len p) (len' - alloc_len p)).

#[local] Abbreviation e := (alloc_start p + pool_len p).
#[local] Abbreviation b' := (alloc_start p, len').

Lemma grow_pool_ok : growable_ok p Ps (pool_alloc p :: L).
Proof. pose proof (fi_pool _ _ _ HF) as Hp. rewrite Ep in Hp. apply Hp. Qed.

Lemma grow_slice : slice_fine (pool_alloc p) /\ slice_fine b'.
Proof.
  destruct HF as [_ _ _ [Hf _]%Forall_cons _ _ _ _]. split; [done|]. destruct Hf as [_ H2 H3 _]. simpl in *.
  split; simpl; (done || lia).
Qed.

Lemma grow_end : (GRANULARITY | e) /\ GRANULARITY <= e <= alloc_start p + alloc_len p.
Proof.
  destruct grow_pool_ok as [_ He H2 H3 _ _]. destruct grow_slice as [[(H4 & _) _ _ _] _]. simpl in H4.
  pose proof (inv_wf _ _ (fi_inv _ _ _ HF)) as [Hw _]. apply list_elem_of_fmap in He as (q & Eq & Hq).
  rewrite Forall_forall in Hw. pose proof (wf_pool_min q (Hw q Hq)). destruct (Hw q Hq) as [_ Hq0 _ _ _ _ _ _].
  pose proof GRANULARITY_pos. split; [rewrite Eq; by apply p_end_aligned, Hw|]. unfold p_end in Eq. lia.
Qed.

Lemma grow_fresh : fresh Ps e (len' - pool_len p).
Proof.
  pose proof (fi_inv _ _ _ HF) as [[Hw Hd] Hr _]. apply fresh_pointwise; [done|]. intros x Hxe.
  destruct (Z.lt_ge_cases x (alloc_start p + alloc_len p)).
  - eapply fresh_out; [apply grow_pool_ok|lia].
  - eapply fresh_out; [eapply extends_fresh; [exact Hw|exact Hr|exact Hx]|lia].
Qed.

Lemma grow_tail x : e - 2 * WORD <= x < alloc_start p + len' -> ~ writable Ps x.
Proof.
  intros Hxe. eapply tail_not_writable; [apply HF|apply grow_pool_ok|apply grow_fresh|lia].
Qed.

(** The other allocations have no byte of the grown one. *)
Lemma grow_other b x : b ∈ L -> in_slice b x -> ~ in_slice b' x.
Proof.
  intros Hb Hbx Hx'. unfold in_slice in Hx'. simpl in Hx'.
  assert (~ alloc_start p + alloc_len p <= x < alloc_start p + alloc_len p + (len' - alloc_len p)).
  { eapply covers_fresh; [apply HF|exact Hx| |exact Hbx]. set_solver. }
  pose proof (fi_disjoint _ _ _ HF) as Hd. inversion_clear Hd as [|? ? Hd1 _]. rewrite Forall_forall in Hd1.
  apply (Hd1 b Hb x); [|done]. unfold in_slice, pool_alloc, nonnull_slice_from_raw_parts. simpl. lia.
Qed.

Lemma grow_ftr e' : (GRANULARITY | e') -> e <= e' <= alloc_start p + len' ->
  e' - 2 * WORD <= ftr b' /\ ftr b' + 2 * WORD <= alloc_start p + len' /\ (WORD | ftr b').
Proof.
  intros Hd He. destruct grow_end as [_ Hge]. pose proof GRANULARITY_pos.
  apply ftr_bounds; [apply grow_slice|done|]. simpl. lia.
Qed.

Lemma grow_ftr_in x : in_ftr b' x -> e - 2 * WORD <= x < alloc_start p + len' /\ in_slice b' x.
Proof.
  destruct grow_end as [Hd Hge]. destruct (grow_ftr e Hd) as (H1 & H2 & _); [lia|]. unfold in_ftr, in_slice. simpl.
  pose proof (gp_pos _ _ _ grow_pool_ok). lia.
Qed.

(** The old footer is still there. *)
Lemma grow_old_footer :
  supports_dealloc = true ->
  exists o, ftr_at m1 (ftr (pool_alloc p)) o /\ chain (flex_mem f) o L /\ 0 < ftr (pool_alloc p) /\ (WORD | ftr (pool_alloc p)) /\
    match o with Some (a, len) => slice a len /\ 0 < len | None => True end.
Proof.
  intros Hd. pose proof (fi_chain _ _ _ HF Hd) as Hc. rewrite Ep in Hc. destruct Hc as [_ (o & Hf & Hc)]. exists o.
  destruct grow_end as [He Hge]. destruct grow_slice as [Hs _]. pose proof WORD_pos. pose proof GRANULARITY_WORD.
  destruct (ftr_bounds (pool_alloc p) e Hs He) as (H1 & H2 & H3); [simpl; lia|]. simpl in H2.
  split_and!; [|done|lia|done|].
  - eapply ftr_at_ext; [|exact Hf]. intros x Hxf. apply (ext_old _ _ _ _ Hx). lia.
  - destruct o as [[a len]|]; [|done]. destruct L as [|b L']; [done|]. destruct Hc as [[= <-] _].
    apply (slice_parts f Ps _ (a, len) HF). set_solver.
Qed.

(** Before the new memory is appended. *)
Lemma grow_ready m2 :
  mem_step (fun x => supports_dealloc = true /\ in_ftr b' x) m1 m2 ->
  Inv (with_mem (flex_st f) m2) Ps /\ slice_ok m2 Ps e (len' - pool_len p).
Proof.
  intros Hs2. pose proof (extends_inv _ _ _ _ _ (fi_inv _ _ _ HF) Hx) as HI1. destruct grow_end as [_ He].
  destruct Hsl as (H1 & H2 & H3). pose proof (gp_pos _ _ _ grow_pool_ok). pose proof WORD_pos. split.
  - eapply (Inv_frame _ (with_mem (flex_st f) m1) m2); [exact HI1|exact Hs2|].
    intros x [_ Hf]. by apply grow_tail, grow_ftr_in.
  - split; [lia|lia|lia| |apply grow_fresh]. intros x Hxe. apply (mem_step_mapped _ _ _ Hs2).
    destruct grow_slice as [[_ Hl0 _ _] _]. simpl in Hl0. assert (H0' : 0 <= alloc_len p <= len') by lia.
    apply (covers_grow _ _ _ _ _ _ H0' (fi_covers _ _ _ HF) Hx). exists b'. split; [set_solver|]. unfold in_slice; simpl. lia.
Qed.

Context {m2 : Mem} {s3 : St} {Ps' : list pool} {k : Z}.
Context (Hs2 : mem_step (fun x => supports_dealloc = true /\ in_ftr b' x) m1 m2).
Context (Hg : grown (with_mem (flex_st f) m2) s3 Ps Ps' e (e + k)).
Context (Hk : 0 < k) (Hk' : pool_len p + k <= len' < pool_len p + k + 2 * GRANULARITY).

Lemma grow_step x :
  ~ changes Ps (live Ps) x -> ~ e - 2 * WORD <= x < alloc_start p + len' -> st_mem s3 !! x = flex_mem f !! x.
Proof.
  intros Hc Ht. destruct grow_end as [_ He]. pose proof WORD_pos.
  rewrite (mem_step_eq _ _ _ (gr_mem _ _ _ _ _ _ Hg)) by (intros [?|?]; [done|lia]). simpl.
  rewrite (mem_step_eq _ _ _ Hs2) by (intros [_ Hf%grow_ftr_in]; lia).
  apply (ext_old _ _ _ _ Hx). lia.
Qed.

Lemma grow_covers : covers (st_mem s3) (b' :: L).
Proof.
  destruct grow_slice as [[_ H1 _ _] _]. simpl in H1.
  assert (H0 : 0 <= alloc_len p <= len') by lia.
  pose proof (covers_grow _ _ _ _ _ _ H0 (fi_covers _ _ _ HF) Hx) as Hc.
  assert (Hb : forall x, in_slice b' x -> is_Some (m1 !! x)) by (intros x Hbx; apply Hc; exists b'; split; [set_solver|done]).
  eapply covers_step; [apply Hg| |eapply covers_step; [exact Hs2| |exact Hc]]; simpl.
  - intros x Hxc. apply (mem_step_mapped _ _ _ Hs2). destruct Hxc as [Hxc|Hxc].
    + apply (mem_step_mapped _ _ _ (extends_step _ _ _ _ Hx)). eapply changes_mapped; [apply HF|exact Hxc].
    + apply Hb. unfold in_slice. simpl. pose proof (gp_pos _ _ _ grow_pool_ok). pose proof WORD_pos. lia.
  - intros x [_ Hf]. by apply Hb, grow_ftr_in.
Qed.

Lemma grow_payload al x : al ∈ live Ps -> payload al x -> st_mem s3 !! x = flex_mem f !! x.
Proof.
  intros Ha Hpx. apply grow_step; [intros [_ Hno]; by apply (Hno al)|]. intros Hxe. apply (grow_tail x Hxe).
  apply elem_of_live in Ha as (q & Hq & Ha). pose proof (inv_wf _ _ (fi_inv _ _ _ HF)) as [Hw _].
  rewrite Forall_forall in Hw. destruct (allocs_range _ _ _ (wfp_blocks _ (Hw q Hq)) Ha) as (H1 & _ & H3 & _).
  pose proof WORD_pos. pose proof GRANULARITY_WORD. unfold payload in Hpx.
  exists q. split; [done|]. unfold p_end. rewrite p_len_eq. lia.
Qed.

Lemma grow_new_end : (GRANULARITY | e + k) /\ e + k ∈ p_end <$> Ps'.
Proof.
  assert (He : e + k ∈ p_end <$> Ps') by (apply (gr_end _ _ _ _ _ _ Hg); lia). split; [|done].
  apply list_elem_of_fmap in He as (q & -> & Hq). apply p_end_aligned.
  destruct (gr_inv _ _ _ _ _ _ Hg) as [[Hw _] _ _]. by eapply Forall_forall in Hw.
Qed.

Lemma grow_growable :
  (exact -> pool_len p + k = len') -> growable_ok (mkFlexPool (alloc_start p) len' (pool_len p + k)) Ps' (b' :: L).
Proof.
  intros Hexact. pose proof (gp_pos _ _ _ grow_pool_ok). destruct grow_new_end as [_ He].
  split; simpl; [by eexists|by rewrite Z.add_assoc|lia|lia|done|]. rewrite Z.add_assoc.
  apply fresh_pointwise; [apply (gr_inv _ _ _ _ _ _ Hg)|]. intros x Hxe [Hin|Hin]%(gr_area _ _ _ _ _ _ Hg); [|lia].
  eapply fresh_out; [apply grow_fresh| |exact Hin]. lia.
Qed.

Lemma grow_footers b x :
  supports_dealloc = true -> b ∈ b' :: L -> in_ftr b x -> in_slice b x /\ ~ writable Ps' x.
Proof.
  intros Hd [->|Hb]%elem_of_cons Hbx.
  - split; [by apply grow_ftr_in|]. destruct grow_new_end as [Hgd He]. destruct (grow_ftr (e + k) Hgd) as (H1 & H2 & _); [lia|].
    unfold in_ftr in Hbx. intros [Hw|Hw]%(gr_writable _ _ _ _ _ _ Hg); [|lia]. apply (grow_tail x); [lia|done].
  - destruct (fi_footers _ _ _ HF b x Hd) as [Hin Hnw]; [set_solver|done|]. split; [done|].
    intros [Hw|Hw]%(gr_writable _ _ _ _ _ _ Hg); [done|]. apply (grow_other b x Hb Hin). unfold in_slice. simpl.
    pose proof (gp_pos _ _ _ grow_pool_ok). pose proof WORD_pos. lia.
Qed.

Lemma grow_chain o :
  supports_dealloc = true -> ftr_at m2 (ftr b') o -> chain (flex_mem f) o L -> chain (st_mem s3) (Some b') (b' :: L).
Proof.
  intros Hd Hft Hc. split; [done|]. exists o. split.
  - eapply ftr_at_ext; [|exact Hft]. intros x Hxf. apply (mem_step_eq _ _ _ (gr_mem _ _ _ _ _ _ Hg)).
    destruct grow_new_end as [Hgd _]. destruct (grow_ftr (e + k) Hgd) as (H1 & H2 & _); [lia|].
    intros [[Hw _]|Hw]; [|lia]. apply (grow_tail x); [lia|done].
  - eapply chain_ext; [|exact Hc]. intros b x Hb Hbx. destruct (fi_footers _ _ _ HF b x Hd) as [Hin Hnw]; [set_solver|done|].
    apply grow_step; [by intros []|]. intros Hxe. apply (grow_other b x Hb Hin). unfold in_slice. simpl.
    pose proof (gp_pos _ _ _ grow_pool_ok). pose proof WORD_pos. lia.
Qed.

Lemma grow_FInv src :
  Owns src (b' :: L) -> (exact -> pool_len p + k = len') ->
  (supports_dealloc = true -> exists o, ftr_at m2 (ftr b') o /\ chain (flex_mem f) o L) ->
  FInv (mkFlexTlsf (Some (mkFlexPool (alloc_start p) len' (pool_len p + k))) src s3) Ps' (b' :: L).
Proof.
  intros Ho Hexact Hft. split; simpl; [apply Hg|done|apply grow_covers| | | | |apply grow_footers].
  - constructor; [apply grow_slice|]. by destruct HF as [_ _ _ [_ ?]%Forall_cons _ _ _ _].
  - pose proof (fi_disjoint _ _ _ HF) as Hd. inversion_clear Hd as [|? ? _ Hd2]. constructor; [|done].
    rewrite Forall_forall. intros b Hb x Hx1 Hx2. by apply (grow_other b x Hb Hx2).
  - pose proof (fi_pool _ _ _ HF) as Hp. rewrite Ep in Hp. split; [apply Hp|by apply grow_growable].
  - intros Hd. destruct (Hft Hd) as (o & H1 & H2). by apply (grow_chain o).
Qed.

End GrowPool.

Context (Hdebug : debug_assertions = true -> exact).

(** The rest of growing the pool, from the memory [m2] in which the footer of the
    grown allocation is written: the new bytes are appended to the pool. *)
Lemma grow_append_spec p len' f Ps L src m1 m2 extra (Q : option unit -> F -> Prop) :
  FInv f Ps (pool_alloc p :: L) -> growable_pool f = Some p ->
  Owns src ((alloc_start p, len') :: L) -> slice (alloc_start p) len' -> (min_align | len') -> alloc_len p <= len' ->
  extends (flex_mem f) m1 (alloc_start p + alloc_len p) (len' - alloc_len p) ->
  2 * GRANULARITY <= extra -> (GRANULARITY | extra) -> chunk_size_of extra = extra -> pool_len p + extra <= len' ->
  mem_step (fun x => supports_dealloc = true /\ in_ftr (alloc_start p, len') x) m1 m2 ->
  (supports_dealloc = true -> exists o, ftr_at m2 (ftr (alloc_start p, len')) o /\ chain (flex_mem f) o L) ->
  (forall f', increased f f' Ps extra -> Q (Some tt) f') ->
  wp (lift (check (negb (wrapping_add (alloc_start p) (pool_len p) =? 0)));;
      append_len ← lift (usub len' (pool_len p));
      num_appended_len ← on_tlsf (append_free_block_ptr (wrapping_add (alloc_start p) (pool_len p)) append_len);
      new_pool_len ← lift (uadd (pool_len p) num_appended_len);
      (if debug_assertions then x ← lift (usub new_pool_len len'); lift (check (x <? GRANULARITY * 2)) else mret tt);;
      set_growable_pool (Some (mkFlexPool (alloc_start p) len' new_pool_len));;
      mret (Some tt)) (mkFlexTlsf (growable_pool f) src (with_mem (flex_st f) m2)) Q.
Proof.
  intros HF Ep Ho Hsl Hal Hlen Hx He Hed Hc Hfit Hs2 Hft HS. pose proof GRANULARITY_pos. pose proof Hsl as (Hs1 & _ & Hs3').
  destruct (grow_end HF Ep Hsl Hal Hlen) as [Hgd Hge]. pose proof (grow_pool_ok HF Ep) as [_ Hpe Hp2 Hp3 Hp4 _]. pose proof WORD_pos.
  set (e := alloc_start p + pool_len p) in *.
  destruct (grow_ready HF Ep Hsl Hal Hlen Hx m2 Hs2) as [HI2 Hsl2].
  rewrite wrapping_add_small by (fold e; unfold is_usize; lia). fold e.
  apply wp_bind, wp_check; [by rewrite (proj2 (Z.eqb_neq e 0)) by lia|]. wp_pure usub_ok; [lia|].
  pose proof Hpe as (q & Eq & (Ps0 & HP)%elem_of_Permutation_cons)%list_elem_of_fmap.
  apply wp_bind, wp_on_tlsf. cbn [flex_st growable_pool source]. rewrite HP in HI2. rewrite Eq.
  assert (Hsl3 : slice_ok m2 (q :: Ps0) (p_end q) (len' - pool_len p)).
  { destruct Hsl2 as [? ? ? ? Hfr]. rewrite <- Eq. split; try done. intros p0 Hp0. apply Hfr. by rewrite HP. }
  eapply append_spec; [exact HI2|exact Hsl3|]. intros Ps' s3 k _ Hg Hk Hrem Hroom. rewrite <- Eq in Hg.
  apply (grown_perm _ _ _ Ps) in Hg; [|by rewrite HP].
  destruct (Hroom extra Hed) as [Hr1 Hr2]; [lia|]. rewrite Hc in Hr1, Hr2.
  assert (Hexact : exact -> pool_len p + k = len').
  { intros Hex. pose proof Hex as [Hmax Hga]. assert (Hd' : (GRANULARITY | len' - pool_len p)).
    { apply Z.divide_sub_r; [by etrans|]. rewrite (Hp4 Hex). etrans; [exact Hga|].
      destruct HF as [_ _ _ [[_ _ _ ?] _]%Forall_cons _ _ _ _]. done. }
    destruct (Hroom _ Hd') as [_ Hr3]; [lia|]. unfold chunk_size_of in Hr3. rewrite Hmax in Hr3. lia. }
  wp_pure uadd_ok; [lia|]. apply wp_bind.
  assert (Hassert : forall f0 (R : unit -> F -> Prop), R tt f0 ->
    wp (if debug_assertions then x ← lift (usub (pool_len p + k) len'); lift (check (x <? GRANULARITY * 2)) else mret tt) f0 R).
  { intros f0 R HR. destruct debug_assertions; [|by apply wp_ret]. rewrite (Hexact (Hdebug eq_refl)).
    wp_pure usub_ok; [lia|]. rewrite Z.sub_diag. apply wp_check; [apply Z.ltb_lt; lia|done]. }
  apply Hassert. apply wp_bind. eexists _, _. split; [reflexivity|]. apply wp_ret, HS.
  exists Ps', ((alloc_start p, len') :: L).
  assert (Hkp : 0 < k) by lia. assert (Hkb : pool_len p + k <= len' < pool_len p + k + 2 * GRANULARITY) by lia. split_and!.
  - by apply (grow_FInv HF Ep Hsl Hal Hlen Hx Hs2 Hg Hkp Hkb).
  - apply (gr_live _ _ _ _ _ _ Hg).
  - done.
  - intros al x. by apply (grow_payload HF Ep Hsl Hal Hlen Hx Hs2 Hg Hkb).
Qed.

Lemma increase_pool_grow_spec p len' f Ps L src m1 extra (Q : option unit -> F -> Prop) :
  FInv f Ps (pool_alloc p :: L) -> growable_pool f = Some p ->
  Owns src ((alloc_start p, len') :: L) -> slice (alloc_start p) len' -> (min_align | len') -> alloc_len p <= len' ->
  extends (flex_mem f) m1 (alloc_start p + alloc_len p) (len' - alloc_len p) ->
  2 * GRANULARITY <= extra -> (GRANULARITY | extra) -> chunk_size_of extra = extra -> pool_len p + extra <= len' ->
  (forall f', increased f f' Ps extra -> Q (Some tt) f') ->
  wp (increase_pool_grow p len') (mkFlexTlsf (growable_pool f) src (with_mem (flex_st f) m1)) Q.
Proof.
  intros HF Ep Ho Hsl Hal Hlen Hx He Hed Hc Hfit HS. pose proof GRANULARITY_pos. pose proof Hsl as (Hs1 & _ & Hs3').
  destruct (grow_end HF Ep Hsl Hal Hlen) as [Hgd Hge]. pose proof (grow_pool_ok HF Ep) as [_ Hpe Hp2 Hp3 Hp4 _]. pose proof WORD_pos.
  set (e := alloc_start p + pool_len p) in *.
  pose proof (fun m2 Hs Hft => grow_append_spec _ _ _ _ _ _ _ m2 _ Q HF Ep Ho Hsl Hal Hlen Hx He Hed Hc Hfit Hs Hft HS) as Hfin.
  unfold increase_pool_grow. apply wp_bind. destruct supports_dealloc eqn:Esd.
  - destruct (grow_old_footer HF Ep Hsl Hal Hlen Hx Esd) as (o & Hft & Hch & Hf0 & Hfd & Hos).
    apply wp_bind, wp_on_tlsf. eapply wp_get_prev_alloc; [exact Hf0|exact Hfd|exact Hft|].
    destruct (grow_ftr HF Ep Hsl Hal Hlen e Hgd) as (Hn1 & Hn2 & Hn3); [lia|]. simpl in Hn2.
    change (PoolFtr_get_for_alloc (nonnull_slice_from_raw_parts (alloc_start p) len') min_align) with (ftr (alloc_start p, len')).
    apply wp_on_tlsf, wp_set_prev_alloc; [lia|done| |done|].
    { intros x Hxf. cbn [st_mem flex_st with_mem].
      destruct HF as [_ _ Hcv [[_ Hl0 _ _] _]%Forall_cons _ _ _ _]. simpl in Hl0. assert (H0' : 0 <= alloc_len p <= len') by lia.
      apply (covers_grow _ _ _ _ _ _ H0' Hcv Hx). exists (alloc_start p, len').
      split; [set_solver|]. unfold in_slice; simpl. lia. }
    intros m2 Hs2 Hf2. apply Hfin; [eapply mem_step_weaken; [exact Hs2|by intros x Hxf]|]. intros _. by exists o.
  - apply wp_ret. apply Hfin; [apply mem_step_refl|done].
Qed.

End FlexSpecs.
