(* ===== verification/FlexSpec.v ===== *)
(** * The methods of [FlexTlsf]

    Allocation, deallocation, reallocation and [drop] against the interface of
    the source, and a client of [FlexTlsf] as a transition system. *)

From S2P Require Import Prelude Usize BinInteger SizeClass Machine Header FreeIndex Pool Region Alloc Dealloc Insert Realloc System Flex FlexInv FlexGrow.

Section FlexSpecs.
Context {T : Target} {P : TlsfParams} {Pok : ParamsOk P} {B : Build}.
Context {Source : Type} {FS : FlexSource Source} {FSok : FlexSourceOk Source}.
#[local] Abbreviation F := (FlexTlsf Source).

(** The size of the pool asked for is one that a single pool can have. *)
Lemma pool_size_fine l n :
  layout_ok l -> pool_size_to_contain_allocation l = Ok (Some n) ->
  2 * GRANULARITY <= n /\ is_usize n /\ (GRANULARITY | n) /\ chunk_size_of n = n.
Proof.
  intros Hl E. destruct (pool_size_eq l Hl) as [[_ E']|(_ & Hv & E')]; rewrite E in E'; [discriminate|].
  set (x := search_size_of l) in *. destruct (list_min_spec x Hv) as (Hc & Hd & Hx).
  destruct (ceil_class_valid x Hv) as [Hv1 Hv2]. destruct VALID_inv as (HF & HS & _).
  destruct GRANULARITY_pow as [EG HG]. pose proof GRANULARITY_pos. assert (Hg0 : 0 < GRANULARITY) by lia.
  destruct (Z.leb_spec FL_usable (ceil_class x).1) as [|Hlt]; [discriminate|]. injection E' as E'. symmetry in E'.
  apply checked_add_Some in E' as [-> Hb]. pose proof (proj1 (proj1 Hv)).
  assert (Hnd : (GRANULARITY | list_min x + GRANULARITY)) by (apply Z.divide_add_r; [done|apply Z.divide_refl]).
  split_and!; [lia|unfold is_usize; lia|done|]. unfold chunk_size_of. rewrite MAX_POOL_SIZE_eq.
  destruct (GRANULARITY_LOG2 + FLLEN <? USIZE_BITS) eqn:Emx; [|done]. apply Z.min_l.
  assert (Hmx : (GRANULARITY | 2 ^ (GRANULARITY_LOG2 + FLLEN))) by (rewrite EG; apply pow2_divide_le; [lia|lia|apply pow2_le; lia]).
  apply divide_gap; [done|done|done|]. unfold FL_usable in Hlt. unfold cmin in Hc.
  assert (Hp : 2 ^ ((ceil_class x).1 + GRANULARITY_LOG2) * 2 <= 2 ^ (GRANULARITY_LOG2 + FLLEN)).
  { rewrite Z.mul_comm, <- pow2_succ by lia. apply pow2_le. lia. }
  pose proof (pow2_pos ((ceil_class x).1 + GRANULARITY_LOG2)). nia.
Qed.

(** The payloads of [keep] did not change. *)
Definition kept (f f' : F) (keep : list alloc) : Prop :=
  forall al x, al ∈ keep -> payload al x -> flex_mem f' !! x = flex_mem f !! x.

Lemma kept_post (f : F) s' Ps Ps' keep :
  post (flex_st f) s' Ps Ps' keep -> kept f (mkFlexTlsf (growable_pool f) (source f) s') keep.
Proof.
  intros [_ _ Hm] al x Hal Hx. apply (mem_step_eq _ _ _ Hm). intros [_ Hno]. by apply (Hno al).
Qed.

(** The allocation [al] was made. *)
Definition flex_allocated (f f' : F) (Ps : list pool) (al : alloc) : Prop :=
  exists Ps' L', FInv f' Ps' L' /\ live Ps' ≡ₚ al :: live Ps /\ kept f f' (live Ps).

(** *** Freeing and moving *)

(** The client writes to one of its payloads. *)
Lemma payload_post s Ps al others m' :
  Inv s Ps -> live Ps ≡ₚ al :: others -> mem_step (payload al) (st_mem s) m' ->
  post s (mkSt (st_tlsf s) m') Ps Ps others.
Proof.
  intros HI Ho Hs. assert (Hin : al ∈ live Ps) by (rewrite Ho; set_solver).
  split; [by eapply payload_write|done|]. eapply mem_step_weaken; [exact Hs|]. intros x Hx. split.
  - apply elem_of_live in Hin as (q & Hq & Hal). destruct HI as [[Hw _] _ _]. rewrite Forall_forall in Hw.
    destruct (allocs_range _ _ _ (wfp_blocks _ (Hw q Hq)) Hal) as (H1 & _ & H3 & _). unfold payload in Hx.
    pose proof WORD_pos. pose proof GRANULARITY_WORD. exists q. split; [done|]. unfold p_end. rewrite p_len_eq. lia.
  - intros al' Hal' Hx'. pose proof (live_apart Ps (inv_wf _ _ HI)) as Ha.
    eapply ForallOrdPairs_perm in Ha; [|apply _|exact Ho]. inversion_clear Ha as [|? ? Ha1 _].
    rewrite Forall_forall in Ha1. specialize (Ha1 al' Hal'). unfold apart, payload in *. lia.
Qed.

Lemma live_size s Ps al : Inv s Ps -> al ∈ live Ps -> 0 <= a_size al.
Proof.
  intros [[Hw _] _ _] (q & Hq & Hb)%elem_of_live. rewrite Forall_forall in Hw.
  by destruct (allocs_range _ _ _ (wfp_blocks _ (Hw q Hq)) Hb) as (_ & ? & _).
Qed.

(** Two live allocations. *)
Lemma live_pair s Ps al al' others :
  Inv s Ps -> live Ps ≡ₚ al :: al' :: others ->
  mapped (st_mem s) (a_ptr al) (a_size al) /\ mapped (st_mem s) (a_ptr al') (a_size al') /\ apart al al' /\
  0 <= a_size al /\ 0 <= a_size al'.
Proof.
  intros HI Hl. pose proof (live_usable _ _ HI) as Hu. rewrite Hl in Hu.
  apply Forall_cons in Hu as [[_ _ _ _ Hm1] [[_ _ _ _ Hm2] _]%Forall_cons].
  pose proof (live_apart Ps (inv_wf _ _ HI)) as Ha.
  eapply ForallOrdPairs_perm in Ha; [|apply _|exact Hl]. inversion_clear Ha as [|? ? Ha1 _]. apply Forall_cons in Ha1 as [Ha1 _].
  split_and!; [done|done|done|eapply live_size; [exact HI|]|eapply live_size; [exact HI|]]; rewrite Hl; set_solver.
Qed.

Lemma kept_trans f1 f2 f3 keep : kept f1 f2 keep -> kept f2 f3 keep -> kept f1 f3 keep.
Proof. intros H1 H2 al x Hal Hx. by rewrite (H2 al x Hal Hx), (H1 al x Hal Hx). Qed.

Lemma kept_fewer f1 f2 keep keep' : keep' ⊆ keep -> kept f1 f2 keep -> kept f1 f2 keep'.
Proof. intros Hs H al x Hal. apply H, Hs, Hal. Qed.

Lemma kept_resize f1 f2 al k others : a_size al <= k -> kept f1 f2 (resize al k :: others) -> kept f1 f2 (al :: others).
Proof.
  intros Hk H b x [->|Hb]%elem_of_cons Hx; [|apply (H b); [set_solver|done]].
  apply (H (resize al k)); [set_solver|]. unfold payload in *. simpl. lia.
Qed.

(** The allocation [al] is gone. *)
Definition flex_freed (f f' : F) (Ps : list pool) (L : list Slice) (al : alloc) : Prop :=
  exists Ps', FInv f' Ps' L /\ live Ps ≡ₚ al :: live Ps' /\ kept f f' (live Ps').

Lemma freed_flex (f : F) s' Ps L al :
  FInv f Ps L -> freed (flex_st f) s' Ps al -> flex_freed f (mkFlexTlsf (growable_pool f) (source f) s') Ps L al.
Proof. intros HF (Ps' & Hp & Hl). exists Ps'. split_and!; [by eapply FInv_post|done|by eapply kept_post]. Qed.

Lemma FlexTlsf_deallocate_spec f Ps L al :
  FInv f Ps L -> al ∈ live Ps ->
  wp (FlexTlsf_deallocate (a_ptr al) (a_align al)) f (fun _ f' => flex_freed f f' Ps L al).
Proof.
  intros HF Hin. apply wp_on_tlsf. eapply wp_mono; [apply (deallocate_spec _ Ps al); [apply HF|done]|].
  intros [] s' Hf. by apply freed_flex.
Qed.

Lemma FlexTlsf_deallocate_unknown_spec f Ps L al :
  FInv f Ps L -> al ∈ live Ps ->
  wp (FlexTlsf_deallocate_unknown_align (a_ptr al)) f (fun _ f' => flex_freed f f' Ps L al).
Proof.
  intros HF Hin. apply wp_on_tlsf. eapply wp_mono; [apply (deallocate_unknown_spec _ Ps al); [apply HF|done]|].
  intros [] s' Hf. by apply freed_flex.
Qed.

Lemma FlexTlsf_size_spec f Ps L al :
  FInv f Ps L -> al ∈ live Ps ->
  wp (FlexTlsf_allocation_usable_size (a_ptr al)) f (fun n f' => f' = f /\ usable Ps al n).
Proof.
  intros HF Hin. apply wp_on_tlsf. eapply wp_mono; [apply (size_of_allocation_unknown_spec _ Ps al); [apply HF|done]|].
  intros n s' [-> Hu]. split; [by destruct f|done].
Qed.

(** [al] became [al']. *)
Definition flex_realloced (f f' : F) (Ps : list pool) (al al' : alloc) : Prop :=
  exists Ps' L' others, FInv f' Ps' L' /\ live Ps ≡ₚ al :: others /\ live Ps' ≡ₚ al' :: others /\ kept f f' others /\
    forall i, 0 <= i < Z.min (a_size al) (a_size al') ->
      flex_mem f' !! (a_ptr al' + i) = flex_mem f !! (a_ptr al + i).

(** The copy of [n] bytes to a new allocation [al'] and the deallocation of the
    old one with [free], from a state in which the old one has the size [k]. *)
Lemma move_spec f f1 Ps Ps1 L1 al al' others k n (free : M F unit) :
  live Ps ≡ₚ al :: others -> 0 <= a_size al <= k -> Z.min (a_size al) (a_size al') <= n <= Z.min k (a_size al') ->
  FInv f1 Ps1 L1 -> live Ps1 ≡ₚ al' :: resize al k :: others -> kept f f1 (al :: others) ->
  (forall f2, FInv f2 Ps1 L1 -> wp free f2 (fun _ f' => flex_freed f2 f' Ps1 L1 (resize al k))) ->
  wp (on_tlsf (copy_nonoverlapping (a_ptr al) (a_ptr al') n);; free) f1 (fun _ f' => flex_realloced f f' Ps al al').
Proof.
  intros Ho Hk Hn HF1 Hl1 Hkept Hfree. destruct (live_pair _ _ _ _ _ (fi_inv _ _ _ HF1) Hl1) as (Hm1 & Hm2 & Hap & Hs1 & Hs2).
  cbn [a_ptr a_size resize] in *. unfold apart in Hap. cbn [a_ptr a_size resize] in Hap. apply wp_bind, wp_on_tlsf, wp_copy_nonoverlapping;
    [lia|eapply mapped_sub; [exact Hm2|lia|lia]|eapply mapped_sub; [exact Hm1|lia|lia]|lia|]. intros m2 Hs Hc.
  assert (Hp2 : post (flex_st f1) (mkSt (st_tlsf (flex_st f1)) m2) Ps1 Ps1 (resize al k :: others)).
  { eapply (payload_post _ _ al'); [apply HF1|done|]. eapply mem_step_weaken; [exact Hs|].
    intros x Hx. unfold payload. cbv beta in Hx. lia. }
  eapply wp_mono; [apply Hfree; exact (FInv_post _ _ _ _ _ _ HF1 Hp2)|]. intros [] f' (Ps3 & HF3 & Hl3 & Hk3).
  assert (Hl3' : live Ps3 ≡ₚ al' :: others).
  { apply (Permutation_cons_inv (a := resize al k)). rewrite <- Hl3, Hl1. solve_Permutation. }
  exists Ps3, L1, others. split_and!; [done|done|done| |].
  - eapply kept_trans; [eapply kept_fewer; [|exact Hkept]; set_solver|].
    eapply kept_trans; [eapply kept_fewer; [|exact (kept_post f1 _ _ _ _ Hp2)]; set_solver|].
    eapply kept_fewer; [|exact Hk3]. rewrite Hl3'. set_solver.
  - intros i Hi. rewrite (Hk3 al'); [|rewrite Hl3'; set_solver|unfold payload; lia].
    unfold flex_mem at 1. simpl. rewrite Hc by lia. apply (Hkept al); [set_solver|]. unfold payload. lia.
Qed.

(** *** [drop] *)

(** The state of the loop: [L] is still to be released. *)
Record dropping (f : F) (cur : option Slice) (L : list Slice) : Prop := {
  dr_owns : Owns (source f) L;
  dr_covers : covers (flex_mem f) L;
  dr_fine : Forall slice_fine L;
  dr_disjoint : ForallOrdPairs (fun b b' => forall x, in_slice b x -> ~ in_slice b' x) L;
  dr_chain : chain (flex_mem f) cur L;
  dr_footers b x : b ∈ L -> in_ftr b x -> in_slice b x
}.

Lemma drop_loop_spec L : forall fuel f cur,
  supports_dealloc = true -> (length L <= fuel)%nat -> dropping f cur L ->
  wp (drop_loop fuel cur) f (fun _ f' => Owns (source f') [] /\ covers (flex_mem f') []).
Proof.
  induction L as [|b L IH]; intros fuel f cur Hd Hfu [Ho Hc Hf Hds Hch Hft].
  { simpl in Hch. subst cur. destruct fuel; by apply wp_ret. }
  destruct Hch as [-> (o & Hfo & Hch)]. destruct fuel as [|fuel]; [simpl in Hfu; lia|]. cbn [drop_loop].
  apply Forall_cons in Hf as [Hfb Hf]. inversion_clear Hds as [|? ? Hd1 Hd2]. rewrite Forall_forall in Hd1.
  pose proof WORD_pos. pose proof GRANULARITY_WORD. pose proof Hfb as [(Hb1 & _) Hb2 _ _].
  destruct (ftr_bounds b GRANULARITY Hfb (Z.divide_refl _)) as (Hf1 & Hf2 & Hf3); [lia|].
  apply wp_bind, wp_on_tlsf. eapply (wp_get_prev_alloc _ o); [fold (ftr b); lia|done|done|].
  destruct b as [a len]. apply wp_bind, wp_on_source.
  eapply wp_mono; [apply (source_dealloc_ok _ _ L); [done|exact Ho|exact Hc]|].
  intros [] [src m'] [Ho' Hm']. apply IH; [done|simpl in Hfu; lia|].
  assert (Hsame : forall b x, b ∈ L -> in_slice b x -> m' !! x = flex_mem f !! x).
  { intros b x Hb Hx. rewrite Hm'. rewrite decide_False; [done|]. intros Hax. by apply (Hd1 b Hb x). }
  split; simpl; try done.
  - intros x. unfold flex_mem; simpl. rewrite Hm'. case_decide as Hax.
    + split; [by intros []|]. intros (b & Hb & Hx). by destruct (Hd1 b Hb x).
    + rewrite (Hc x). split; intros (b & Hb & Hx).
      * apply elem_of_cons in Hb as [->|Hb]; [done|]. by exists b.
      * exists b. split; [set_solver|done].
  - eapply chain_ext; [|exact Hch]. intros b x Hb Hx. apply (Hsame b x Hb), Hft; [set_solver|done].
  - intros b x Hb. apply Hft. set_solver.
Qed.

(** Every allocation has a mapped byte of its own. *)
Lemma covers_length m L :
  covers m L -> Forall slice_fine L -> ForallOrdPairs (fun b b' => forall x, in_slice b x -> ~ in_slice b' x) L ->
  (length L <= size m)%nat.
Proof.
  intros Hc Hf Hd. pose proof GRANULARITY_pos.
  assert (Hn : NoDup L.*1).
  { clear Hc. induction Hd as [|b L Hb _ IH]; simpl; [constructor|]. apply Forall_cons in Hf as [Hfb Hf]. constructor; [|auto].
    intros (b' & E & Hb')%list_elem_of_fmap. rewrite Forall_forall in Hb, Hf. destruct Hfb as [_ H1 _ _]. destruct (Hf b' Hb') as [_ H2 _ _].
    apply (Hb b' Hb' b.1); unfold in_slice; lia. }
  rewrite <- size_dom. assert (El : length L = size (list_to_set L.*1 : gset Z)).
  { rewrite size_list_to_set by exact Hn. symmetry. apply length_fmap. }
  rewrite El.
  apply subseteq_size. intros x (b & -> & Hb)%elem_of_list_to_set%list_elem_of_fmap. apply elem_of_dom, Hc.
  exists b. split; [done|]. rewrite Forall_forall in Hf. destruct (Hf b Hb) as [_ H1 _ _]. unfold in_slice. lia.
Qed.

Lemma FlexTlsf_drop_spec f Ps L :
  FInv f Ps L ->
  wp FlexTlsf_drop f (fun _ f' =>
    if supports_dealloc then Owns (source f') [] /\ covers (flex_mem f') [] else f' = f).
Proof.
  intros HF. unfold FlexTlsf_drop, wp. destruct supports_dealloc eqn:Hd; [|by exists tt, f].
  apply wp_bind, wp_check; [unfold use_growable_pool; by rewrite Hd|].
  apply wp_bind. eexists _, _. split; [reflexivity|]. apply (drop_loop_spec L); [done| |].
  - apply covers_length; apply HF.
  - destruct HF as [_ Ho Hc Hf Hds _ Hch Hft]. split; try done; [by apply Hch|]. intros b x Hb Hx. by apply Hft.
Qed.

(** ** A fresh [FlexTlsf] *)

Lemma FlexTlsf_new_inv src : Owns src [] -> FInv (FlexTlsf_new src ∅) [] [].
Proof.
  intros Ho. split; simpl; [|done| |constructor|constructor|done|done|].
  - split; simpl; [by split; constructor|constructor|apply new_index].
  - intros x. unfold flex_mem; simpl. rewrite lookup_empty. split; [by intros []|]. intros (b & Hb & _). set_solver.
  - intros b x _ Hb. set_solver.
Qed.

(** ** Methods that acquire memory *)

Context (Hdebug : debug_assertions = true -> never_grows \/ exact).

Lemma increase_pool_spec l f Ps L (Q : option unit -> F -> Prop) :
  FInv f Ps L -> layout_ok l ->
  (forall src, Owns src L -> exhausted l f src -> Q None (mkFlexTlsf (growable_pool f) src (flex_st f))) ->
  (forall f' n, pool_size_to_contain_allocation l = Ok (Some n) -> increased f f' Ps n -> Q (Some tt) f') ->
  wp (increase_pool_to_contain_allocation l) f Q.
Proof.
  intros HF Hl HN HS. assert (Eeta : f = mkFlexTlsf (growable_pool f) (source f) (flex_st f)) by by destruct f.
  assert (HN0 : exhausted l f (source f) -> Q None f) by (intros He; rewrite Eeta; apply HN; [apply HF|done]). unfold increase_pool_to_contain_allocation.
  destruct (pool_size_to_contain_allocation l) as [[n|]|err] eqn:E.
  3: { destruct (pool_size_eq l Hl) as [[_ E']|(_ & _ & E')]; by rewrite E in E'. }
  2: { apply wp_bind. eapply wp_lift; [done|]. by apply wp_ret, HN0, exhausted_size. }
  apply wp_bind. eapply wp_lift; [done|]. cbv beta iota. destruct (pool_size_fine l n Hl E) as (Hn & Hnu & Hnd & Hnc).
  apply wp_bind, wp_check; [apply Z.leb_le; lia|]. apply wp_bind. eexists _, _. split; [reflexivity|].
  assert (Hnew : forall src, Owns src L -> (forall src', new_refused n (flex_mem f) src src' -> exhausted l f src') -> wp (increase_pool_new n) (mkFlexTlsf (growable_pool f) src (flex_st f)) Q).
  { intros src Ho Hex. eapply increase_pool_new_spec; [by apply FInv_source|done..| |].
    { intros src' Ho' Hr. apply HN; [done|]. by apply Hex. }
    intros f' (Ps' & L' & H1 & H2 & H3 & H4). eapply HS; [done|]. by exists Ps', L'. }
  pose proof (fi_pool _ _ _ HF) as Hp. destruct (growable_pool f) as [p|] eqn:Ep.
  2: { rewrite Eeta. apply Hnew; [apply HF|]. intros src' Hr. by eapply exhausted_first. }
  destruct Hp as [Eu Hp]. cbn [option_filter]. rewrite Eu. pose proof Hp as [(L' & EL) _ Hp2 Hp3 _ _]. subst L.
  destruct (checked_add (pool_len p) n) as [k|] eqn:Ek; [|apply wp_ret, HN0; by eapply exhausted_len, checked_add_None]. apply checked_add_Some in Ek as [-> Hk].
  pose proof GRANULARITY_pos. pose proof WORD_pos.
  apply wp_bind, wp_check; [apply Z.leb_le; lia|]. apply wp_bind, wp_on_source.
  eapply wp_mono; [apply wp_eq, (realloc_inplace_grow_ok _ _ L'); [apply HF|apply HF|lia|unfold is_usize; lia]|].
  intros [len'|] [src m1] [Er Hr]; revert Hr; cbn beta iota.
  - assert (Hd : debug_assertions = true -> exact).
    { intros [Hng|He]%Hdebug; [|done]. apply Hng in Er. discriminate. }
    intros (Ho & Hsl & Hle & Hal & Hx). eapply (increase_pool_grow_spec Hd p len' f Ps L' src m1 n); try done; [lia|].
    intros f' Hf'. by eapply HS.
  - intros [Ho ->]. unfold flex_mem. replace (with_mem (flex_st f) (st_mem (flex_st f))) with (flex_st f) by by destruct (flex_st f).
    pose proof (fun src' => exhausted_grow l f n p src src' E Ep Er) as Hex. rewrite Ep in *.
    destruct is_contiguous_growable; [by apply wp_ret, HN, Hex|by apply Hnew].
Qed.

Lemma FlexTlsf_allocate_spec l f Ps L (Q : option Z -> F -> Prop) :
  FInv f Ps L -> layout_ok l ->
  (forall src, Owns src L -> allocate l (flex_st f) = Ok (None, flex_st f) -> exhausted l f src -> Q None (mkFlexTlsf (growable_pool f) src (flex_st f))) ->
  (forall ptr f', flex_allocated f f' Ps (mkAlloc ptr (l_align l) (l_size l)) -> Q (Some ptr) f') ->
  wp (FlexTlsf_allocate l) f Q.
Proof.
  intros HF Hl HN HS. unfold FlexTlsf_allocate. apply wp_bind, wp_on_tlsf.
  eapply wp_mono; [apply wp_eq, (allocate_spec l _ Ps (fun r s' => match r with
    | Some ptr => exists Ps', post (flex_st f) s' Ps Ps' (live Ps) /\ live Ps' ≡ₚ mkAlloc ptr (l_align l) (l_size l) :: live Ps
    | None => s' = flex_st f end)); [apply HF|done|done|]|].
  { intros ptr s' Ps' a sz c _ _ _ _ _ _ _ Hpost Hlv. by exists Ps'. }
  intros [ptr|] s' [Ea Hr]; cbn beta iota in *; [|subst s'].
  - destruct Hr as (Ps' & Hpost & Hlv). apply wp_ret, HS. exists Ps', L.
    split_and!; [by eapply FInv_post|done|by eapply kept_post].
  - replace (mkFlexTlsf (growable_pool f) (source f) (flex_st f)) with f by by destruct f.
    apply wp_bind. eapply increase_pool_spec; [exact HF|done|intros src Ho He; by apply wp_ret, HN|].
    intros f' n En (Ps' & L' & HF' & Hlv & Hroom & Hk). apply wp_bind, wp_on_tlsf.
    eapply wp_mono.
    { eapply wp_and; [apply (allocate_succeeds l _ Ps' (fi_inv _ _ _ HF') Hl)|].
      eapply (allocate_spec l _ Ps' (fun r s' => match r with Some ptr => exists Ps2, post (flex_st f') s' Ps' Ps2 (live Ps') /\
          live Ps2 ≡ₚ mkAlloc ptr (l_align l) (l_size l) :: live Ps' | None => True end) (fi_inv _ _ _ HF') Hl); [done|].
      intros ptr s' Ps2 ? ? ? _ _ _ _ _ _ _ Hpost Hlv2. by exists Ps2. }
    intros [ptr|] s' [Hsome Hr]; cbn beta iota.
    + destruct Hr as (Ps2 & Hpost & Hlv2). apply wp_ret, HS. exists Ps2, L'. split_and!.
      * by eapply FInv_post.
      * by rewrite Hlv2, Hlv.
      * intros al x Hal Hx. rewrite <- (Hk al x Hal Hx). apply (kept_post f' s' Ps' Ps2 (live Ps') Hpost al x); [by rewrite Hlv|done].
    + exfalso. destruct (proj2 Hsome) as [? [=]]. destruct Hroom as (a & sz & Hin & Hle). by exists n, a, sz.
Qed.

Lemma FlexTlsf_reallocate_spec f Ps L al l (Q : option Z -> F -> Prop) :
  FInv f Ps L -> al ∈ live Ps -> layout_ok l -> l_align l = a_align al ->
  (forall src, Owns src L -> Q None (mkFlexTlsf (growable_pool f) src (flex_st f))) ->
  (forall ptr f', flex_realloced f f' Ps al (mkAlloc ptr (l_align l) (l_size l)) -> Q (Some ptr) f') ->
  wp (FlexTlsf_reallocate (a_ptr al) l) f Q.
Proof.
  intros HF Hin Hl Eal HN HS. assert (Eeta : mkFlexTlsf (growable_pool f) (source f) (flex_st f) = f) by by destruct f.
  destruct (enlarge _ _ _ (fi_inv _ _ _ HF) Hin) as (k & Ek & _ & Hk & Hen). rewrite <- Eal in Ek.
  unfold FlexTlsf_reallocate. apply wp_bind, wp_on_tlsf. exists k, (flex_st f). split; [exact Ek|]. rewrite Eeta.
  apply wp_bind, wp_on_tlsf. eapply (reallocate_spec al l); [apply HF|done|done|done| |].
  - intros _ (k' & Ek' & Hk'). rewrite <- Eal, Ek in Ek'. injection Ek' as <-. rewrite Eeta.
    destruct Hen as (Ps1 & others & Ho & Hl1 & Hpost & _).
    pose proof (FInv_post _ _ _ _ _ _ HF Hpost) as HF1. rewrite Eeta in HF1.
    apply wp_bind. eapply FlexTlsf_allocate_spec; [exact HF1|done|intros src Hsrc _ _; by apply wp_ret, HN|].
    intros ptr f1 (Ps2 & L2 & HF2 & Hl2 & Hkept).
    apply wp_bind, wp_check; [apply Z.leb_le; lia|]. apply wp_assoc, wp_bind.
    eapply wp_mono; [eapply (move_spec f f1 Ps Ps2 L2 al (mkAlloc ptr (l_align l) (l_size l)) others k k)|]; cbn [a_size].
    + done.
    + split; [by eapply live_size, Hin; apply HF|lia].
    + pose proof (live_size _ _ al (fi_inv _ _ _ HF) Hin). lia.
    + exact HF2.
    + by rewrite Hl2, Hl1.
    + eapply kept_resize; [|eapply kept_fewer; [|exact Hkept]; rewrite Hl1; done]. lia.
    + intros f2 Hf2. rewrite Eal. apply (FlexTlsf_deallocate_spec _ Ps2 L2 (resize al k) Hf2). rewrite Hl2, Hl1. set_solver.
    + intros [] f' Hf'. by apply wp_ret, HS.
  - intros ptr s' (Ps' & others & H1 & H2 & Hpost & Hdata). apply wp_ret, HS. exists Ps', L, others.
    split_and!; [by eapply FInv_post|done|done|by eapply kept_post|done].
Qed.

End FlexSpecs.

(** ** A client of [FlexTlsf] *)

Section FlexSystem.
Context {T : Target} {P : TlsfParams} {B : Build} {Source : Type} {FS : FlexSource Source} {FSok : FlexSourceOk Source}.

Record FlexSys := mkFlexSys { fsys : FlexTlsf Source; flive : list alloc }.

(** The calls that obey the safety sections, as for [Tlsf]; there is nothing
    to do about memory. *)
Inductive flex_call (x : FlexSys) : M (FlexTlsf Source) (option Z) -> (option Z -> FlexTlsf Source -> FlexSys) -> Prop :=
  | fcall_allocate l :
      layout_ok l ->
      flex_call x (FlexTlsf_allocate l) (fun r f' =>
        mkFlexSys f' (match r with Some ptr => [mkAlloc ptr (l_align l) (l_size l)] | None => [] end ++ flive x))
  | fcall_deallocate al L :
      flive x ≡ₚ al :: L ->
      flex_call x (FlexTlsf_deallocate (a_ptr al) (a_align al);; mret None) (fun _ f' => mkFlexSys f' L)
  | fcall_deallocate_unknown_align al L :
      flive x ≡ₚ al :: L ->
      flex_call x (FlexTlsf_deallocate_unknown_align (a_ptr al);; mret None) (fun _ f' => mkFlexSys f' L)
  | fcall_reallocate al l L :
      flive x ≡ₚ al :: L -> layout_ok l -> l_align l = a_align al ->
      flex_call x (FlexTlsf_reallocate (a_ptr al) l) (fun r f' =>
        mkFlexSys f' (match r with Some ptr => mkAlloc ptr (l_align l) (l_size l) | None => al end :: L))
  | fcall_usable_size al :
      al ∈ flive x ->
      flex_call x (n ← FlexTlsf_allocation_usable_size (a_ptr al); mret (Some n)) (fun _ f' => mkFlexSys f' (flive x)).

(** Between calls the client writes to its payloads and uses the source, whose
    existing allocations it must not modify. *)
Inductive flex_step (x : FlexSys) : FlexSys -> Prop :=
  | fstep_call c k r f' : flex_call x c k -> c (fsys x) = Ok (r, f') -> flex_step x (k r f')
  | fstep_write al m' :
      al ∈ flive x -> mem_step (payload al) (st_mem (flex_st (fsys x))) m' ->
      flex_step x (mkFlexSys (mkFlexTlsf (growable_pool (fsys x)) (source (fsys x)) (with_mem (flex_st (fsys x)) m')) (flive x))
  | fstep_source change f' :
      (forall L, Owns (source (fsys x)) L -> Owns (change (source (fsys x))) L) ->
      source_mut_unchecked change (fsys x) = Ok (tt, f') -> flex_step x (mkFlexSys f' (flive x)).

End FlexSystem.
Arguments FlexSys Source : clear implicits.

Section FlexSystemProofs.
Context {T : Target} {P : TlsfParams} {Pok : ParamsOk P} {B : Build}.
Context {Source : Type} {FS : FlexSource Source} {FSok : FlexSourceOk Source}.

(** States reachable from [FlexTlsf::new(src)], for a source that has given
    nothing out. *)
Definition flex_reachable (x : FlexSys Source) : Prop :=
  exists src, Owns src [] /\ rtc flex_step (mkFlexSys (FlexTlsf_new src ∅) []) x.

Definition flex_inv (x : FlexSys Source) : Prop := exists Ps L, FInv (fsys x) Ps L /\ live Ps ≡ₚ flive x.

Context (Hdebug : debug_assertions = true -> never_grows \/ exact).

Lemma flex_none (f : FlexTlsf Source) Ps L src lv :
  FInv f Ps L -> Owns src L -> live Ps ≡ₚ lv -> flex_inv (mkFlexSys (mkFlexTlsf (growable_pool f) src (flex_st f)) lv).
Proof. intros HF Ho Hl. exists Ps, L. split; [by apply FInv_source|done]. Qed.

Lemma freed_inv f f' Ps L al lv :
  flex_freed f f' Ps L al -> live Ps ≡ₚ al :: lv -> flex_inv (mkFlexSys f' lv).
Proof.
  intros (Ps' & HF & Hl & _) HL. exists Ps', L. split; [done|]. simpl.
  apply (Permutation_cons_inv (a := al)). by rewrite <- Hl.
Qed.

Lemma flex_call_spec x c k :
  flex_inv x -> flex_call x c k -> wp c (fsys x) (fun r f' => flex_inv (k r f')).
Proof.
  intros (Ps & L & HF & HL). destruct 1 as [l Hl|al lv Hlv|al lv Hlv|al l lv Hlv Hl Eal|al Hal].
  - eapply (FlexTlsf_allocate_spec Hdebug); [exact HF|done|intros src Ho _ _; by eapply flex_none|].
    intros ptr f' (Ps' & L' & HF' & Hl' & _). exists Ps', L'. split; [done|]. simpl. by rewrite Hl', HL.
  - apply wp_bind. eapply wp_mono; [apply (FlexTlsf_deallocate_spec _ Ps L al HF); rewrite HL, Hlv; set_solver|].
    intros [] f' Hf. apply wp_ret. eapply freed_inv; [exact Hf|by rewrite HL].
  - apply wp_bind. eapply wp_mono; [apply (FlexTlsf_deallocate_unknown_spec _ Ps L al HF); rewrite HL, Hlv; set_solver|].
    intros [] f' Hf. apply wp_ret. eapply freed_inv; [exact Hf|by rewrite HL].
  - eapply (FlexTlsf_reallocate_spec Hdebug _ Ps L al l); [exact HF|rewrite HL, Hlv; set_solver|done|done| |].
    + intros src Ho. eapply flex_none; [exact HF|done|by rewrite HL].
    + intros ptr f' (Ps' & L' & others & HF' & H1 & H2 & _). exists Ps', L'. split; [done|]. simpl. rewrite H2. f_equiv.
      apply (Permutation_cons_inv (a := al)). by rewrite <- H1, HL.
  - apply wp_bind. eapply wp_mono; [apply (FlexTlsf_size_spec _ Ps L al HF); by rewrite HL|].
    intros n f' [-> _]. apply wp_ret. by exists Ps, L.
Qed.

Lemma flex_step_inv x y : flex_inv x -> flex_step x y -> flex_inv y.
Proof.
  intros Hx. destruct 1 as [c k r f' Hc E|al m' Hal Hs|change f' Hch E].
  - destruct (flex_call_spec x c k Hx Hc) as (r' & f'' & E' & Hi). rewrite E in E'. by injection E' as <- <-.
  - destruct Hx as (Ps & L & HF & HL). exists Ps, L. split; [|done]. simpl.
    assert (Hin : al ∈ live Ps) by by rewrite HL. apply elem_of_Permutation_cons in Hin as [others Ho].
    eapply FInv_post; [exact HF|]. eapply (payload_post _ _ al); [apply HF|exact Ho|exact Hs].
  - destruct Hx as (Ps & L & HF & HL). injection E as <-. exists Ps, L. split; [|done]. apply FInv_source; [done|]. apply Hch, HF.
Qed.

Lemma flex_reachable_inv x : flex_reachable x -> flex_inv x.
Proof.
  intros (src & Ho & Hr). assert (Hi : flex_inv (mkFlexSys (FlexTlsf_new src ∅) [])).
  { exists [], []. split; [by apply FlexTlsf_new_inv|done]. }
  induction Hr as [|x y z Hxy _ IH]; [done|]. apply IH. by eapply flex_step_inv.
Qed.

End FlexSystemProofs.

(** ** Properties *)

Section FlexProperties.
Context {T : Target} {P : TlsfParams} {Pok : ParamsOk P} {B : Build}.
Context {Source : Type} {FS : FlexSource Source} {FSok : FlexSourceOk Source}.
Context (Hdebug : debug_assertions = true -> never_grows \/ exact).

(** C7: Safety of [FlexTlsf] over any source that keeps its contract: in every
    state a client can reach from [FlexTlsf::new], each call that obeys the
    safety sections returns (no panic, assertion failure, undefined behaviour
    or endless loop), whatever pools were created, grown or refused; and the
    allocations the client holds are aligned, in mapped memory and disjoint.
    A debug build needs a source that never extends an allocation or
    [exact], because of an assertion that is wrong otherwise. *)
Theorem flex_reachable_safe x :
  flex_reachable x ->
  (forall c k, flex_call x c k -> exists r f', c (fsys x) = Ok (r, f')) /\
  Forall (usable_alloc (flex_mem (fsys x))) (flive x) /\ ForallOrdPairs apart (flive x).
Proof.
  intros (Ps & L & HF & HL)%(flex_reachable_inv Hdebug). split_and!.
  - intros c k Hc. destruct (flex_call_spec Hdebug x c k) as (r & f' & E & _); [by exists Ps, L|done|]. by exists r, f'.
  - rewrite <- HL. apply live_usable, HF.
  - eapply ForallOrdPairs_perm; [apply _|exact HL|]. apply live_apart, HF.
Qed.

(** C8: [FlexTlsf::allocate] returns; [Some ptr] means the new allocation and
    nothing else.  [None] means that the pools cannot serve the request, that
    memory for it cannot be acquired (the source was asked to grow the last
    pool and for a new one, as far as it allows either, and declined, or the
    request is too large for [usize]), and that neither the allocator nor
    memory changed.  In particular the pool that
    [increase_pool_to_contain_allocation] makes is always large enough. *)
Theorem FlexTlsf_allocate_correct l f Ps L :
  FInv f Ps L -> layout_ok l ->
  wp (FlexTlsf_allocate l) f (fun r f' =>
    match r with
    | Some ptr => flex_allocated f f' Ps (mkAlloc ptr (l_align l) (l_size l))
    | None => allocate l (flex_st f) = Ok (None, flex_st f) /\ exhausted l f (source f') /\
        growable_pool f' = growable_pool f /\ flex_st f' = flex_st f /\ FInv f' Ps L
    end).
Proof.
  intros HF Hl. eapply (FlexTlsf_allocate_spec Hdebug); [exact HF|done| |done].
  intros src Ho Hn He. split_and!; [done|done|done|done|by apply FInv_source].
Qed.

(** C10: [FlexTlsf::reallocate] returns; [Some ptr] means that the allocation is
    now at [ptr] with the new size and the bytes both have, also when it had
    to be moved to memory newly acquired, and that no other payload changed;
    [None] means that nothing changed. *)
Theorem FlexTlsf_reallocate_correct al l f Ps L :
  FInv f Ps L -> al ∈ live Ps -> layout_ok l -> l_align l = a_align al ->
  wp (FlexTlsf_reallocate (a_ptr al) l) f (fun r f' =>
    match r with
    | Some ptr => flex_realloced f f' Ps al (mkAlloc ptr (l_align l) (l_size l))
    | None => growable_pool f' = growable_pool f /\ flex_st f' = flex_st f /\ FInv f' Ps L
    end).
Proof.
  intros HF Hin Hl Eal. eapply (FlexTlsf_reallocate_spec Hdebug _ Ps L al l); [exact HF|done..| |done].
  intros src Ho. split_and!; [done|done|by apply FInv_source].
Qed.

(** C9: Dropping a [FlexTlsf] in any reachable state ends, and if the source
    takes memory back, gives every allocation back exactly once: the chain of
    footers visits all of them and no footer was overwritten. *)
Theorem FlexTlsf_drop_releases x :
  flex_reachable x ->
  wp FlexTlsf_drop (fsys x) (fun _ f' =>
    if supports_dealloc then Owns (source f') [] /\ covers (flex_mem f') [] else f' = fsys x).
Proof. intros (Ps & L & HF & _)%(flex_reachable_inv Hdebug). by apply (FlexTlsf_drop_spec _ Ps L). Qed.

End FlexProperties.
