(* ===== verification/GlobalAlloc.v ===== *)
(** * flex.rs: [GlobalAllocAsFlexSource]

    [core::alloc::GlobalAlloc] is an interface of the standard library: its
    operations and its documented contract are classes, and the adapter is
    proved to be a [FlexSource] that keeps the contract [FlexTlsf] relies
    on. *)

From S2P Require Import Prelude Usize BinInteger SizeClass Machine Header FreeIndex Pool Region Alloc Dealloc Insert Realloc System Flex FlexInv FlexGrow FlexSpec.

(** [alloc] returns null when it fails. *)
Class GlobalAlloc (A : Type) := {
  ga_alloc : Layout -> M (A * Mem) Z;
  ga_dealloc : Z -> Layout -> M (A * Mem) unit
}.

Section GlobalAllocOps.
Context {T : Target} {P : TlsfParams} {A : Type} {GA : GlobalAlloc A}.

Definition ISIZE_MAX : Z := 2 ^ (USIZE_BITS - 1) - 1.

(** [Layout::from_size_align]. *)
Definition from_size_align (size align : Z) : option Layout :=
  if is_power_of_two align && (size <=? ISIZE_MAX - (align - 1)) then Some (mkLayout size align) else None.

(** [Layout::pad_to_align]. *)
Definition pad_to_align (l : Layout) : Layout :=
  mkLayout (Z.land (l_size l + (l_align l - 1)) (usize_not (l_align l - 1))) (l_align l).

(** [GlobalAllocAsFlexSource::<T, ALIGN>::ALIGN]; evaluating the constant
    panics when [ALIGN] is not a power of two. *)
Definition GA_ALIGN_const (ALIGN : Z) : Res Z :=
  if is_power_of_two ALIGN then Ok (if ALIGN <? GRANULARITY then GRANULARITY else ALIGN) else Fail Panicked.
Definition GA_ALIGN (ALIGN : Z) : Z := if ALIGN <? GRANULARITY then GRANULARITY else ALIGN.

Definition gaf_alloc (ALIGN min_size : Z) : M (A * Mem) (option Slice) :=
  let? layout := from_size_align min_size (GA_ALIGN ALIGN) in
  let layout := pad_to_align layout in
  start ← ga_alloc layout;
  if start =? 0 then mret None
  else mret (Some (nonnull_slice_from_raw_parts start (l_size layout))).

Definition gaf_dealloc (ALIGN : Z) (ptr : Slice) : M (A * Mem) unit :=
  let layout := mkLayout (nonnull_slice_len ptr) (GA_ALIGN ALIGN) in
  ga_dealloc (nonnull_slice_start ptr) layout.

Definition GlobalAllocAsFlexSource (ALIGN : Z) : FlexSource A := {|
  source_alloc := gaf_alloc ALIGN;
  realloc_inplace_grow := default_realloc_inplace_grow;
  source_dealloc := gaf_dealloc ALIGN;
  supports_dealloc := true;
  supports_realloc_inplace_grow := default_supports_realloc_inplace_grow;
  is_contiguous_growable := default_is_contiguous_growable;
  min_align := GA_ALIGN ALIGN
|}.

End GlobalAllocOps.

(** The blocks given out, as slices. *)
Definition block_slices (H : list (Z * Layout)) : list Slice := (fun b => (b.1, l_size b.2)) <$> H.

(** The contract of [GlobalAlloc]: [Held g H] says that the blocks [H] are
    currently allocated.  [alloc] with a layout of non-zero size returns null
    or a block of that layout in memory nobody uses; [dealloc] takes a block
    back with the layout it was allocated with. *)
Class GlobalAllocOk {T : Target} (A : Type) {GA : GlobalAlloc A} := {
  Held : A -> list (Z * Layout) -> Prop;
  ga_alloc_ok g m H l :
    Held g H -> covers m (block_slices H) -> 0 < l_size l <= ISIZE_MAX -> layout_ok l ->
    wp (ga_alloc l) (g, m) (fun a '(g', m') =>
      (a = 0 /\ Held g' H /\ m' = m) \/
      (Held g' ((a, l) :: H) /\ slice a (l_size l) /\ (l_align l | a) /\ extends m m' a (l_size l)));
  ga_dealloc_ok g m H a l :
    Held g ((a, l) :: H) -> covers m (block_slices ((a, l) :: H)) ->
    wp (ga_dealloc a l) (g, m) (fun _ '(g', m') =>
      Held g' H /\ forall x, m' !! x = if decide (a <= x < a + l_size l) then None else m !! x)
}.

Section GlobalAllocProofs.
Context {T : Target} {P : TlsfParams} {Pok : ParamsOk P} {A : Type} {GA : GlobalAlloc A} {GAok : GlobalAllocOk A}.
Context (ALIGN : Z) (HALIGN : exists k, 0 <= k < USIZE_BITS /\ ALIGN = 2 ^ k).

(** The blocks of the source, all with the alignment of the adapter. *)
Definition as_blocks (L : list Slice) : list (Z * Layout) := (fun b => (b.1, mkLayout b.2 (GA_ALIGN ALIGN))) <$> L.

Lemma block_slices_as L : block_slices (as_blocks L) = L.
Proof. induction L as [|[a len] L IH]; [done|]. unfold block_slices, as_blocks in *. rewrite !fmap_cons, IH. done. Qed.

Lemma GA_ALIGN_pow : exists k, 0 <= k < USIZE_BITS /\ GA_ALIGN ALIGN = 2 ^ k /\ GRANULARITY <= 2 ^ k.
Proof.
  unfold GA_ALIGN. destruct GRANULARITY_pow as [E Hg]. pose proof GRANULARITY_bits. case_bool.
  - exists GRANULARITY_LOG2. rewrite <- E. split_and!; (done || lia).
  - destruct HALIGN as (k & Hk & ->). exists k. split_and!; (done || lia).
Qed.

(** Rounding a layout that was accepted up to its alignment. *)
Lemma padded size l :
  0 < size -> from_size_align size (GA_ALIGN ALIGN) = Some l ->
  let n := l_size (pad_to_align l) in
  pad_to_align l = mkLayout n (GA_ALIGN ALIGN) /\ size <= n <= ISIZE_MAX /\ (GA_ALIGN ALIGN | n) /\ layout_ok (pad_to_align l).
Proof.
  intros Hs E. destruct GA_ALIGN_pow as (k & Hk & EA & _). unfold from_size_align in E. rewrite EA in *.
  destruct (is_power_of_two (2 ^ k) && _) eqn:Eb; [|discriminate]. injection E as <-.
  apply andb_true_iff in Eb as [_ Hle%Z.leb_le]. unfold ISIZE_MAX in *. pose proof (pow2_pos k).
  assert (Hm : 2 ^ USIZE_BITS = 2 * 2 ^ (USIZE_BITS - 1)).
  { rewrite <- pow2_succ by lia. f_equal. lia. }
  assert (Hb : size + (2 ^ k - 1) < USIZE_MOD) by (unfold USIZE_MOD; lia).
  assert (Hu : is_usize size) by (unfold is_usize; lia).
  assert (En : Z.land (size + (2 ^ k - 1)) (usize_not (2 ^ k - 1)) = round_up (2 ^ k) size) by (rewrite Z.add_sub_assoc; apply land_round_up; lia).
  assert (H0 : 0 < 2 ^ k) by lia.
  destruct (round_up_spec (2 ^ k) size H0) as [Hr Hd]. unfold pad_to_align. cbn [l_size l_align]. rewrite En.
  split_and!; [done|lia|lia|done|]. split; [unfold is_usize; cbn [l_size]; lia|]. by exists k.
Qed.

Definition ga_owns (g : A) (L : list Slice) : Prop := Held g (as_blocks L).

Lemma gaf_alloc_ok g m L n :
  ga_owns g L -> covers m L -> 0 < n ->
  wp (gaf_alloc ALIGN n) (g, m) (fun r '(g', m') =>
    match r with
    | Some (a, len) =>
        ga_owns g' ((a, len) :: L) /\ slice a len /\ n <= len /\ (GA_ALIGN ALIGN | a) /\ (GA_ALIGN ALIGN | len) /\ extends m m' a len
    | None => ga_owns g' L /\ m' = m
    end).
Proof.
  intros Ho Hc Hn. unfold gaf_alloc. destruct (from_size_align n _) as [l|] eqn:E; [|by apply wp_ret].
  destruct (padded n l Hn E) as (El & Hl & Hd & Hok). set (k := l_size (pad_to_align l)) in *.
  apply wp_bind. eapply wp_mono; [apply (ga_alloc_ok g m (as_blocks L)); [done|by rewrite block_slices_as|lia|done]|].
  intros a [g' m'] [(-> & Hh & ->)|(Hh & Hs & Ha & Hx)]; [by apply wp_ret|].
  rewrite (proj2 (Z.eqb_neq a 0)) by (destruct Hs; lia). apply wp_ret. cbn beta iota. fold k in Hs, Hx |- *.
  unfold nonnull_slice_from_raw_parts. rewrite El in Ha, Hh. split_and!; try done. lia.
Qed.

Lemma gaf_dealloc_ok g m L a len :
  ga_owns g ((a, len) :: L) -> covers m ((a, len) :: L) ->
  wp (gaf_dealloc ALIGN (a, len)) (g, m) (fun _ '(g', m') =>
    ga_owns g' L /\ forall x, m' !! x = if decide (a <= x < a + len) then None else m !! x).
Proof.
  intros Ho Hc. apply (ga_dealloc_ok g m (as_blocks L) a (mkLayout len (GA_ALIGN ALIGN))); [exact Ho|].
  change ((a, mkLayout len (GA_ALIGN ALIGN)) :: as_blocks L) with (as_blocks ((a, len) :: L)). by rewrite block_slices_as.
Qed.

(** The adapter keeps the contract of [FlexSource]. *)
Definition GlobalAllocAsFlexSource_ok : @FlexSourceOk T P A (GlobalAllocAsFlexSource ALIGN).
Proof.
  refine {| Owns := ga_owns : A -> list Slice -> Prop |}.
  - destruct GA_ALIGN_pow as (k & Hk & E & _). exists k. split; [lia|exact E].
  - intros src m L n Ho Hc Hn _ _. exact (gaf_alloc_ok src m L n Ho Hc Hn).
  - intros src m L a len n Ho _ _ _. by apply wp_ret.
  - intros src m L a len _ Ho Hc. exact (gaf_dealloc_ok src m L a len Ho Hc).
Defined.

End GlobalAllocProofs.

(** ** [FlexTlsf] over a global allocator *)

Section FlexOverGlobalAlloc.
Context {T : Target} {P : TlsfParams} {Pok : ParamsOk P} {B : Build} {A : Type} {GA : GlobalAlloc A} {GAok : GlobalAllocOk A}.
Context (ALIGN : Z) (HALIGN : exists k, 0 <= k < USIZE_BITS /\ ALIGN = 2 ^ k).
#[local] Instance gaf : FlexSource A := GlobalAllocAsFlexSource ALIGN.
#[local] Instance gaf_ok : FlexSourceOk A := GlobalAllocAsFlexSource_ok ALIGN HALIGN.

(** The adapter never extends an allocation, in no build is the assertion of
    [increase_pool_grow] reached. *)
Lemma gaf_never_grows : never_grows (FS := gaf).
Proof. intros b n s r s' [= <- <-]. done. Qed.

(** C11: [FlexTlsf] over [GlobalAllocAsFlexSource] and any allocator that keeps
    the contract of [GlobalAlloc], in debug and in release builds: in every
    reachable state every call returns, and dropping it gives each block back
    to the allocator with the layout it was allocated with, so that nothing
    is left allocated or mapped. *)
Theorem flex_over_global_alloc x :
  flex_reachable (FS := GlobalAllocAsFlexSource ALIGN) x ->
  (forall c k, flex_call x c k -> exists r f', c (fsys x) = Ok (r, f')) /\
  wp FlexTlsf_drop (fsys x) (fun _ f' => Held (source f') [] /\ flex_mem f' = ∅).
Proof.
  assert (Hd : debug_assertions = true -> never_grows \/ exact) by (intros _; left; apply gaf_never_grows).
  intros Hi%(flex_reachable_inv Hd). split.
  - intros c k Hc. destruct (flex_call_spec Hd x c k Hi Hc) as (r & f' & E & _). by exists r, f'.
  - destruct Hi as (Ps & L & HF & _). eapply wp_mono; [exact (FlexTlsf_drop_spec _ Ps L HF)|].
    intros [] f' [Ho Hc]. split; [exact Ho|]. apply map_empty. intros y.
    destruct (flex_mem f' !! y) eqn:E; [|done]. destruct (proj1 (Hc y)) as (b & []%not_elem_of_nil & _). by eexists.
Qed.

End FlexOverGlobalAlloc.
