(* ===== verification/Sources.v ===== *)
(** * global/unix.rs and global/wasm32.rs: the memory sources of [GlobalTlsf]

    The system calls ([mmap], [munmap], [sysconf]) and the WebAssembly
    instructions ([memory.grow], [memory.size]) are interfaces with their
    documented behaviour; the two [Source] types are proved to keep the
    contract of [FlexSource]. *)

From S2P Require Import Prelude Usize BinInteger SizeClass Machine Header FreeIndex Pool Region Alloc Dealloc Insert Realloc System Flex FlexInv FlexGrow.

(** ** The options of [GlobalTlsf] *)

Class GlobalTlsfOptions := { ENABLE_REALLOCATION : bool; COALESCE_POOLS : bool }.

(** [impl GlobalTlsfOptions for ()] and [SmallGlobalTlsfOptions]. *)
Definition DefaultOptions : GlobalTlsfOptions := {| ENABLE_REALLOCATION := true; COALESCE_POOLS := true |}.
Definition SmallGlobalTlsfOptions : GlobalTlsfOptions := {| ENABLE_REALLOCATION := false; COALESCE_POOLS := false |}.

(** ** Unix *)

Module Unix.

Definition MAP_FAILED {T : Target} : Z := USIZE_MAX.

(** Anonymous private mappings; [fixed_noreplace] is the flag
    [MAP_FIXED_NOREPLACE].  [munmap] returns its status. *)
Class Kernel (K : Type) := {
  sysconf_PAGESIZE : Z;
  mmap (addr num_bytes : Z) (fixed_noreplace : bool) : M (K * Mem) Z;
  munmap (addr num_bytes : Z) : M (K * Mem) Z
}.

(** [cfg(target_os = "linux")]. *)
Class TargetOs := { linux : bool }.

(** [PAGE_SIZE_M1] is a static of the module; [Source] itself is empty. *)
Record Source (K : Type) := mkSource { PAGE_SIZE_M1 : Z; kernel : K }.
Arguments mkSource {K} PAGE_SIZE_M1 kernel.
Arguments PAGE_SIZE_M1 {K} s.
Arguments kernel {K} s.

Section UnixOps.
Context {T : Target} {O : GlobalTlsfOptions} {OS : TargetOs} {K : Type} {Kn : Kernel K}.

Definition MIN_ALIGN : Z := GRANULARITY.
Definition ALLOC_UNIT : Z := Z.shiftl 1 16.

Definition on_kernel {A} (c : M (K * Mem) A) : M (Source K * Mem) A := fun '(src, m) =>
  match c (kernel src, m) with
  | Ok (a, (k, m)) => Ok (a, (mkSource (PAGE_SIZE_M1 src) k, m))
  | Fail e => Fail e
  end.

Definition get_PAGE_SIZE_M1 : M (Source K * Mem) Z := fun '(src, m) => Ok (PAGE_SIZE_M1 src, (src, m)).
Definition set_PAGE_SIZE_M1 (x : Z) : M (Source K * Mem) unit := fun '(src, m) => Ok (tt, (mkSource x (kernel src), m)).

Definition abort_if (b : bool) : Res unit := if b then Fail Panicked else Ok tt.

Definition init_page_size : M (Source K * Mem) Z :=
  let page_size := Z.max sysconf_PAGESIZE ALLOC_UNIT in
  lift (abort_if (negb (is_power_of_two page_size)));;
  x ← lift (usub page_size 1);
  set_PAGE_SIZE_M1 x;;
  lift (abort_if (page_size <? MIN_ALIGN));;
  get_PAGE_SIZE_M1.

Definition ensure_page_size_m1 : M (Source K * Mem) Z :=
  page_size_m1 ← get_PAGE_SIZE_M1;
  if page_size_m1 =? 0 then init_page_size else mret page_size_m1.

Definition unix_alloc (min_size : Z) : M (Source K * Mem) (option Slice) :=
  page_size_m1 ← ensure_page_size_m1;
  let? x := checked_add min_size page_size_m1 in
  let num_bytes := Z.land x (usize_not page_size_m1) in
  ptr ← on_kernel (mmap 0 num_bytes false);
  if ptr =? MAP_FAILED then mret None
  else if ptr =? 0 then mret None
  else mret (Some (ptr, num_bytes)).

Definition unix_realloc_inplace_grow (ptr : Slice) (min_new_len : Z) : M (Source K * Mem) (option Z) :=
  if negb COALESCE_POOLS then mret None
  else
    page_size_m1 ← ensure_page_size_m1;
    let? x := checked_add min_new_len page_size_m1 in
    let num_bytes := Z.land x (usize_not page_size_m1) in
    num_growth_bytes ← lift (usub num_bytes (nonnull_slice_len ptr));
    let ptr_end := wrapping_add ptr.1 (nonnull_slice_len ptr) in
    ptr_growth_start ← on_kernel (mmap ptr_end num_growth_bytes true);
    if negb (ptr_growth_start =? ptr_end) then
      on_kernel (munmap ptr_growth_start num_growth_bytes);; mret None
    else if ptr_growth_start =? MAP_FAILED then mret None
    else mret (Some num_bytes).

#[export] Instance unix_source : FlexSource (Source K) := {|
  source_alloc := unix_alloc;
  realloc_inplace_grow := if linux then unix_realloc_inplace_grow else default_realloc_inplace_grow;
  source_dealloc := default_dealloc;
  supports_dealloc := default_supports_dealloc;
  supports_realloc_inplace_grow := if linux then COALESCE_POOLS else default_supports_realloc_inplace_grow;
  is_contiguous_growable := default_is_contiguous_growable;
  min_align := MIN_ALIGN
|}.

End UnixOps.

(** The documented behaviour of the calls.  [Maps k m] says that the
    process's mappings are the bytes of [m]; their contents do not matter to
    the kernel.  A page has 32 bytes at least.  A mapping is page aligned, never at address 0 and never over
    an existing one; on an old kernel [MAP_FIXED_NOREPLACE] is a hint.  An
    unaligned address makes [munmap] fail with [EINVAL]. *)
Class KernelOk {T : Target} (K : Type) {Kn : Kernel K} := {
  Maps : K -> Mem -> Prop;
  Maps_dom k m m' : (forall x, is_Some (m !! x) <-> is_Some (m' !! x)) -> Maps k m -> Maps k m';
  page_pow2 : exists p, 5 <= p < USIZE_BITS /\ sysconf_PAGESIZE = 2 ^ p;
  mmap_ok k m addr len fixed :
    Maps k m -> is_usize len -> (sysconf_PAGESIZE | len) ->
    wp (mmap addr len fixed) (k, m) (fun a '(k', m') =>
      Maps k' m' /\
      ((a = MAP_FAILED /\ m' = m) \/
       (slice a len /\ 0 < len /\ (sysconf_PAGESIZE | a) /\ extends m m' a len)));
  munmap_ok k m0 m a len :
    Maps k m -> extends m0 m a len -> (sysconf_PAGESIZE | a) -> (sysconf_PAGESIZE | len) ->
    wp (munmap a len) (k, m) (fun _ '(k', m') => Maps k' m' /\ m' = m0);
  munmap_EINVAL k m a len :
    Maps k m -> ~ (sysconf_PAGESIZE | a) ->
    wp (munmap a len) (k, m) (fun _ '(k', m') => Maps k' m' /\ m' = m)
}.

Section UnixProofs.
Context {T : Target} {P : TlsfParams} {O : GlobalTlsfOptions} {OS : TargetOs} {K : Type} {Kn : Kernel K} {Kok : KernelOk K}.
Context (Hbits : 32 <= USIZE_BITS).

Definition page_size : Z := Z.max sysconf_PAGESIZE ALLOC_UNIT.

(** The unit of allocation is a power of two, at least that of a page and of
    a granule. *)
Lemma page_size_pow : exists p, 5 <= p < USIZE_BITS /\ page_size = 2 ^ p.
Proof.
  destruct page_pow2 as (p & Hp & E). unfold page_size, ALLOC_UNIT. rewrite Z.shiftl_1_l, E.
  destruct (Z.max_spec (2 ^ p) (2 ^ 16)) as [[_ ->]|[Hle ->]]; [exists 16; lia|]. exists p. split; [|done].
  lia.
Qed.

Lemma page_divides : (sysconf_PAGESIZE | page_size).
Proof.
  destruct page_pow2 as (p & Hp & E), page_size_pow as (q & Hq & Eq). rewrite Eq, E. apply pow2_divide_le; [lia|lia|].
  rewrite <- Eq, <- E. apply Z.le_max_l.
Qed.

Lemma GRANULARITY_divides : (GRANULARITY | sysconf_PAGESIZE).
Proof.
  destruct page_pow2 as (q & Hq & ->). destruct GRANULARITY_pow as [-> HG]. apply pow2_divide_le; [lia|lia|].
  apply pow2_le. lia.
Qed.

Lemma MAP_FAILED_unaligned : ~ (sysconf_PAGESIZE | MAP_FAILED).
Proof.
  destruct page_pow2 as (p & Hp & ->). unfold MAP_FAILED, USIZE_MAX, USIZE_MOD. intros Hd.
  assert (H2 : (2 | 2 ^ p)) by (apply (pow2_divide_le 1 p); [lia|lia|apply (pow2_le 1 p); lia]).
  pose proof (Z.divide_trans _ _ _ H2 Hd) as [x Hx]. assert (E : 2 ^ USIZE_BITS = 2 * 2 ^ (USIZE_BITS - 1)).
  { rewrite <- pow2_succ by lia. f_equal. lia. }
  lia.
Qed.

(** The static is 0 until it is initialised. *)
Record unix_owns (src : Source K) (L : list Slice) : Prop := {
  uo_static : PAGE_SIZE_M1 src = 0 \/ PAGE_SIZE_M1 src = page_size - 1;
  uo_maps m : covers m L -> Maps (kernel src) m;
  uo_slices b : b ∈ L -> slice b.1 b.2 /\ (sysconf_PAGESIZE | b.1) /\ (page_size | b.2)
}.

Lemma ensure_page_size_spec src m L (Q : Z -> Source K * Mem -> Prop) :
  unix_owns src L ->
  (forall src', unix_owns src' L -> kernel src' = kernel src -> Q (page_size - 1) (src', m)) ->
  wp ensure_page_size_m1 (src, m) Q.
Proof.
  intros Ho HQ. destruct page_size_pow as (p & Hp & Ep). pose proof (pow2_lt 4 p). destruct GRANULARITY_pow as [EG HG].
  pose proof (pow2_le GRANULARITY_LOG2 p).
  apply wp_bind. eexists _, _. split; [reflexivity|].
  destruct (uo_static _ _ Ho) as [E|E]; rewrite E.
  - cbn. unfold init_page_size. fold page_size. apply wp_bind. eapply wp_lift.
    { by rewrite (proj2 (is_power_of_two_spec page_size)) by (exists p; split; [lia|done]). }
    apply wp_bind. eapply wp_lift; [apply usub_ok; lia|]. apply wp_bind. eexists _, _. split; [reflexivity|].
    apply wp_bind. eapply wp_lift; [rewrite (proj2 (Z.ltb_ge _ _)) by (unfold MIN_ALIGN; lia); done|].
    eexists _, _. split; [reflexivity|]. apply HQ; [|done]. destruct Ho as [_ Hm Hs]. split; [by right|done|done].
  - rewrite (proj2 (Z.eqb_neq _ 0)) by lia. by apply wp_ret, HQ.
Qed.

Lemma wp_on_kernel {A} (c : M (K * Mem) A) src m (Q : A -> Source K * Mem -> Prop) :
  wp c (kernel src, m) (fun a '(k, m') => Q a (mkSource (PAGE_SIZE_M1 src) k, m')) -> wp (on_kernel c) (src, m) Q.
Proof. intros (a & [k m'] & E & HQ). eexists a, _. split; [simpl; by rewrite E|exact HQ]. Qed.

(** Rounding up to the unit of allocation. *)
Lemma num_bytes_round x : 0 <= x -> x + (page_size - 1) < USIZE_MOD ->
  Z.land (x + (page_size - 1)) (usize_not (page_size - 1)) = round_up page_size x.
Proof.
  intros Hx Hb. destruct page_size_pow as (p & Hp & Ep). rewrite Ep in *. rewrite Z.add_sub_assoc. apply land_round_up; lia.
Qed.

(** [Owns] after the kernel changed the mappings. *)
Lemma unix_owns_maps src k L m :
  unix_owns src L -> covers m L -> Maps k m -> unix_owns (mkSource (PAGE_SIZE_M1 src) k) L.
Proof.
  intros [H1 _ H3] Hc Hm. split; [done| |done]. intros m' Hc'. eapply Maps_dom; [|exact Hm].
  intros x. by rewrite (Hc x), (Hc' x).
Qed.

Lemma unix_owns_cons src k L L' m b :
  unix_owns src L -> (forall c, c ∈ L' -> c ∈ L) -> covers m (b :: L') -> Maps k m ->
  slice b.1 b.2 -> (sysconf_PAGESIZE | b.1) -> (page_size | b.2) -> unix_owns (mkSource (PAGE_SIZE_M1 src) k) (b :: L').
Proof.
  intros [H1 _ H3] Hsub Hc Hm Hs Ha Hl. split; [done| |].
  - intros m' Hc'. eapply Maps_dom; [|exact Hm]. intros x. by rewrite (Hc x), (Hc' x).
  - intros c [->|Hin]%elem_of_cons; [done|]. apply H3, Hsub, Hin.
Qed.

(** [alloc]: nothing, or a new mapping of the size rounded up. *)
Lemma unix_alloc_spec src m L n :
  unix_owns src L -> covers m L -> 0 < n ->
  wp (unix_alloc n) (src, m) (fun r '(src', m') =>
    match r with
    | Some (a, len) =>
        unix_owns src' ((a, len) :: L) /\ slice a len /\ n <= len /\ (GRANULARITY | a) /\ (GRANULARITY | len) /\
        extends m m' a len
    | None => unix_owns src' L /\ m' = m
    end).
Proof.
  intros Ho Hc Hn. apply wp_bind. eapply ensure_page_size_spec; [exact Ho|]. intros src1 Ho1 Ek.
  destruct (checked_add n (page_size - 1)) as [x|] eqn:E; [|by apply wp_ret]. apply checked_add_Some in E as [-> Hb].
  rewrite num_bytes_round by lia. destruct page_size_pow as (p & Hp & Ep). pose proof (pow2_pos p).
  assert (Hp0 : 0 < page_size) by lia. destruct (round_up_spec page_size n Hp0) as [Hr Hd]. set (len := round_up page_size n) in *.
  assert (Hpl : (sysconf_PAGESIZE | len)) by (etrans; [apply page_divides|exact Hd]).
  apply wp_bind, wp_on_kernel. eapply wp_mono.
  { apply (mmap_ok (kernel src1) m 0 len false); [by apply Ho1|unfold is_usize; lia|done]. }
  intros a [k m'] [Hk [[-> ->]|(Hs & Hl & Ha & Hx)]]; cbn beta iota.
  - rewrite Z.eqb_refl. apply wp_ret. split; [by eapply unix_owns_maps|done].
  - rewrite (proj2 (Z.eqb_neq a MAP_FAILED)) by (intros ->; by apply MAP_FAILED_unaligned).
    rewrite (proj2 (Z.eqb_neq a 0)) by (destruct Hs; lia). apply wp_ret. pose proof GRANULARITY_divides as HG.
    split_and!; [|done|lia|by etrans|by etrans|done].
    eapply (unix_owns_cons src1 k L L m'); try done. by eapply covers_cons.
Qed.

(** The stray mapping of an old kernel, or none, is given back. *)
Lemma stray_unmapped src1 k m m' L ptr len ptr_end :
  unix_owns src1 L -> covers m L -> ptr <> ptr_end -> Maps k m' -> (sysconf_PAGESIZE | len) ->
  (ptr = MAP_FAILED /\ m' = m) \/ (slice ptr len /\ 0 < len /\ (sysconf_PAGESIZE | ptr) /\ extends m m' ptr len) ->
  wp (on_kernel (munmap ptr len);; mret (None : option Z)) (mkSource (PAGE_SIZE_M1 src1) k, m') (fun r '(src', m') =>
    r = None /\ unix_owns src' L /\ m' = m).
Proof.
  intros Ho Hc Hne Hk Hl Hr. apply wp_bind, wp_on_kernel.
  apply wp_mono with (Q := fun _ '(k', m') => Maps k' m' /\ m' = m).
  { destruct Hr as [[-> ->]|(Hs & Hpos & Ha & Hx)];
      [by apply munmap_EINVAL, MAP_FAILED_unaligned|by apply (munmap_ok k m m' ptr len)]. }
  intros _ [k2 m2] [Hk2 ->]; cbn beta iota; apply wp_ret. split_and!; [done| |done].
  exact (unix_owns_maps src1 k2 L m Ho Hc Hk2).
Qed.

(** [realloc_inplace_grow]: the memory behind the allocation, or nothing. *)
Lemma unix_grow_spec src m L a len n :
  unix_owns src ((a, len) :: L) -> covers m ((a, len) :: L) -> len <= n ->
  wp (unix_realloc_inplace_grow (a, len) n) (src, m) (fun r '(src', m') =>
    match r with
    | Some len' =>
        unix_owns src' ((a, len') :: L) /\ slice a len' /\ n <= len' /\ (GRANULARITY | len') /\
        extends m m' (a + len) (len' - len)
    | None => unix_owns src' ((a, len) :: L) /\ m' = m
    end).
Proof.
  intros Ho Hc Hn. unfold unix_realloc_inplace_grow. destruct COALESCE_POOLS; cbn [negb]; [|by apply wp_ret].
  apply wp_bind. eapply ensure_page_size_spec; [exact Ho|]. intros src1 Ho1 Ek.
  destruct (uo_slices _ _ Ho1 (a, len)) as ((H1 & H2 & H3) & Had & Hld); [set_solver|]. cbn [fst snd] in *.
  destruct (checked_add n (page_size - 1)) as [x|] eqn:E; [|by apply wp_ret]. apply checked_add_Some in E as [-> Hb].
  rewrite num_bytes_round by lia. destruct page_size_pow as (p & Hp & Ep). pose proof (pow2_pos p).
  assert (Hp0 : 0 < page_size) by lia. destruct (round_up_spec page_size n Hp0) as [Hr Hd]. set (len' := round_up page_size n) in *.
  apply wp_bind. eapply wp_lift; [apply usub_ok; cbn [nonnull_slice_len snd]; lia|]. unfold nonnull_slice_len; cbn [fst snd].
  pose proof page_divides as Hpd. pose proof GRANULARITY_divides as HG.
  assert (Hgd : (sysconf_PAGESIZE | len' - len)) by (etrans; [exact Hpd|by apply Z.divide_sub_r]).
  apply wp_bind, wp_on_kernel. eapply wp_mono.
  { apply (mmap_ok (kernel src1) m (wrapping_add a len) (len' - len) true); [by apply Ho1|unfold is_usize; lia|done]. }
  intros g [k m'] [Hk Hres]; cbn beta iota. destruct (Z.eqb_spec g (wrapping_add a len)) as [->|Hne]; cbn [negb].
  2: { eapply wp_mono; [by eapply stray_unmapped|]. by intros r [src2 m2] (-> & ? & ->). }
  assert (HF : wrapping_add a len <> MAP_FAILED).
  { intros E. apply MAP_FAILED_unaligned. rewrite <- E. unfold wrapping_add.
    destruct page_pow2 as (q & Hq & Eq). apply divide_mod; [lia| |rewrite Eq; apply pow2_divide_le; [lia|lia|apply pow2_le; lia]].
    apply Z.divide_add_r; [done|by etrans; [exact Hpd|]]. }
  rewrite (proj2 (Z.eqb_neq _ MAP_FAILED)) by done. destruct Hres as [[? _]|((G1 & G2 & G3) & Hl & Ha & Hx)]; [done|].
  assert (Ew : wrapping_add a len = a + len).
  { unfold wrapping_add in *. destruct (Z.eq_dec (a + len) USIZE_MOD) as [E|]; [|apply Z.mod_small; lia].
    rewrite E, Z.mod_same in G1 by lia. lia. }
  rewrite Ew in *. apply wp_ret. split_and!; [|split_and!; lia|lia|etrans; [exact HG|etrans; [exact Hpd|exact Hd]]|done].
  eapply (unix_owns_cons src1 k ((a, len) :: L) L m'); cbn [fst snd]; try done; [set_solver| |split_and!; lia].
  eapply covers_grow; [|exact Hc|exact Hx]. lia.
Qed.

(** [Source] keeps the contract of [FlexSource]. *)
Definition unix_source_ok : FlexSourceOk (Source K).
Proof using Hbits Kok.
  refine {| Owns := unix_owns : Source K -> list Slice -> Prop |}.
  - destruct GRANULARITY_pow as [E HG]. exists GRANULARITY_LOG2. split; [lia|exact E].
  - intros src m L n Ho Hc Hn _ _. exact (unix_alloc_spec src m L n Ho Hc Hn).
  - intros src m L a len n Ho Hc Hle _. simpl. destruct linux; [by apply unix_grow_spec|by apply wp_ret].
  - discriminate.
Defined.

(** C17: The Unix source, for any kernel that behaves as documented: [alloc]
    gives nothing or a new mapping, rounded up to the allocation unit and
    aligned to [GRANULARITY]; [realloc_inplace_grow] extends the allocation by
    the memory behind it, or changes nothing, also when the kernel ignores
    [MAP_FIXED_NOREPLACE] and maps elsewhere (the stray mapping is removed) or
    refuses. *)
Theorem unix_source_correct src m L :
  unix_owns src L -> covers m L ->
  (forall n, 0 < n ->
     wp (unix_alloc n) (src, m) (fun r '(src', m') =>
       match r with
       | Some (a, len) =>
           unix_owns src' ((a, len) :: L) /\ slice a len /\ n <= len /\ (GRANULARITY | a) /\ (GRANULARITY | len) /\
           extends m m' a len
       | None => unix_owns src' L /\ m' = m
       end)) /\
  (forall a len L' n, L = (a, len) :: L' -> len <= n ->
     wp (unix_realloc_inplace_grow (a, len) n) (src, m) (fun r '(src', m') =>
       match r with
       | Some len' =>
           unix_owns src' ((a, len') :: L') /\ slice a len' /\ n <= len' /\ (GRANULARITY | len') /\
           extends m m' (a + len) (len' - len)
       | None => unix_owns src' L /\ m' = m
       end)).
Proof using Hbits Kok.
  intros Ho Hc. split; [intros n Hn; by apply unix_alloc_spec|]. intros a len L' n -> Hle. by apply unix_grow_spec.
Qed.

End UnixProofs.
End Unix.

(** ** WebAssembly *)

Module Wasm32.

Definition PAGE_SIZE_LOG2 : Z := 16.
Definition PAGE_SIZE : Z := Z.shiftl 1 PAGE_SIZE_LOG2.

(** [memory.grow] returns the old size in pages, or -1; [memory.size] the
    current one. *)
Class Instructions (W : Type) := {
  memory_grow (delta : Z) : M (W * Mem) Z;
  memory_size : M (W * Mem) Z
}.

Section WasmOps.
Context {T : Target} {O : GlobalTlsfOptions} {W : Type} {I : Instructions W}.

Definition wasm_alloc (min_size : Z) : M (W * Mem) (option Slice) :=
  let? x := checked_add min_size (PAGE_SIZE - 1) in
  let num_pages := x / PAGE_SIZE in
  num_bytes ← lift (umul num_pages PAGE_SIZE);
  old_num_pages ← memory_grow num_pages;
  if old_num_pages =? USIZE_MAX then mret None
  else
    ptr ← lift (umul old_num_pages PAGE_SIZE);
    if ptr =? 0 then lift (Fail Panicked) else mret (Some (ptr, num_bytes)).

Definition wasm_realloc_inplace_grow (ptr : Slice) (min_new_len : Z) : M (W * Mem) (option Z) :=
  if negb COALESCE_POOLS then mret None
  else
    let ptr_page := ptr.1 / PAGE_SIZE in
    size ← memory_size;
    if negb (ptr_page =? size) then mret None
    else
      let? x := checked_add min_new_len (PAGE_SIZE - 1) in
      let new_num_pages := x / PAGE_SIZE in
      new_len ← lift (umul new_num_pages PAGE_SIZE);
      delta ← lift (usub new_num_pages ptr_page);
      r ← memory_grow delta;
      if r =? USIZE_MAX then mret None else mret (Some new_len).

#[export] Instance wasm_source : FlexSource W := {|
  source_alloc := wasm_alloc;
  realloc_inplace_grow := wasm_realloc_inplace_grow;
  source_dealloc := default_dealloc;
  supports_dealloc := default_supports_dealloc;
  supports_realloc_inplace_grow := COALESCE_POOLS;
  is_contiguous_growable := default_is_contiguous_growable;
  min_align := PAGE_SIZE
|}.

End WasmOps.

(** What the instructions do: [Pages w k] says that the memory has [k] pages,
    65536 at most.  The new pages are memory nobody uses. *)
Class InstructionsOk {T : Target} (W : Type) {I : Instructions W} := {
  Pages : W -> Z -> Prop;
  Pages_bound w k : Pages w k -> 0 <= k <= 65536;
  memory_grow_ok w m k delta :
    Pages w k -> (forall x, is_Some (m !! x) -> x < k * PAGE_SIZE) -> is_usize delta ->
    wp (memory_grow delta) (w, m) (fun r '(w', m') =>
      (r = USIZE_MAX /\ Pages w' k /\ m' = m) \/
      (r = k /\ Pages w' (k + delta) /\ extends m m' (k * PAGE_SIZE) (delta * PAGE_SIZE)));
  memory_size_ok w m k :
    Pages w k -> wp memory_size (w, m) (fun r '(w', m') => r = k /\ w' = w /\ m' = m)
}.

Section WasmProofs.
Context {T : Target} {P : TlsfParams} {O : GlobalTlsfOptions} {W : Type} {I : Instructions W} {Iok : InstructionsOk W}.
Context (Hbits : 32 <= USIZE_BITS).

Lemma PAGE_SIZE_eq : PAGE_SIZE = 65536.
Proof. reflexivity. Qed.

Lemma USIZE_MOD_32 : 2 ^ 32 <= USIZE_MOD.
Proof. apply pow2_le. lia. Qed.

(** The memory of the program itself takes one page at least, and every
    allocation lies in the pages there are. *)
Definition wasm_owns (w : W) (L : list Slice) : Prop :=
  exists k, Pages w k /\ 1 <= k /\ forall b, b ∈ L -> 0 < b.1 /\ 0 < b.2 /\ b.1 + b.2 <= k * PAGE_SIZE.

Lemma wasm_owns_below L (m : Mem) k :
  (forall b, b ∈ L -> 0 < b.1 /\ 0 < b.2 /\ b.1 + b.2 <= k * PAGE_SIZE) -> covers m L ->
  forall x, is_Some (m !! x) -> x < k * PAGE_SIZE.
Proof. intros HL Hc x (b & Hb & Hx)%Hc. destruct (HL b Hb). unfold in_slice in Hx. lia. Qed.

Lemma wasm_alloc_spec w m L n :
  wasm_owns w L -> covers m L -> 0 < n ->
  wp (wasm_alloc n) (w, m) (fun r '(w', m') =>
    match r with
    | Some (a, len) =>
        wasm_owns w' ((a, len) :: L) /\ slice a len /\ n <= len /\ (PAGE_SIZE | a) /\ (PAGE_SIZE | len) /\
        extends m m' a len
    | None => wasm_owns w' L /\ m' = m
    end).
Proof.
  intros (k & Hk & Hk1 & HL) Hc Hn. pose proof USIZE_MOD_32. pose proof PAGE_SIZE_eq as EP. unfold wasm_alloc.
  destruct (checked_add n (PAGE_SIZE - 1)) as [x|] eqn:E; [|apply wp_ret; split; [by exists k|done]].
  apply checked_add_Some in E as [-> Hb]. set (x := n + (PAGE_SIZE - 1)) in *. set (q := x / PAGE_SIZE) in *.
  assert (Hq : x = PAGE_SIZE * q + x mod PAGE_SIZE) by (apply Z.div_mod; lia).
  assert (Hm : 0 <= x mod PAGE_SIZE < PAGE_SIZE) by (apply Z.mod_pos_bound; lia).
  assert (Hq1 : 1 <= q /\ n <= q * PAGE_SIZE < USIZE_MOD) by (rewrite EP in *; lia).
  apply wp_bind. eapply wp_lift; [apply umul_ok; lia|]. apply wp_bind.
  eapply wp_mono; [apply (memory_grow_ok w m k q Hk); [by eapply wasm_owns_below|unfold is_usize; lia]|].
  pose proof (Pages_bound w k Hk). intros r [w' m'] [(-> & Hk' & ->)|(-> & Hk' & Hx)]; cbn beta iota.
  - rewrite Z.eqb_refl. apply wp_ret. split; [by exists k|done].
  - pose proof (Pages_bound _ _ Hk'). rewrite (proj2 (Z.eqb_neq k USIZE_MAX)) by (unfold USIZE_MAX; lia).
    apply wp_bind. eapply wp_lift; [apply umul_ok; lia|]. rewrite (proj2 (Z.eqb_neq (k * PAGE_SIZE) 0)) by lia.
    apply wp_ret. split_and!; [|split_and!; lia|lia|apply Z.divide_factor_r|apply Z.divide_factor_r|done].
    exists (k + q). split_and!; [done|lia|]. intros b [->|Hin]%elem_of_cons; cbn [fst snd]; [lia|].
    destruct (HL b Hin) as (? & ? & ?). lia.
Qed.

(** The page compared with the size of the memory is that of the start of the
    allocation, which is below the size. *)
Lemma wasm_grow_spec w m L b n :
  wasm_owns w (b :: L) ->
  wp (wasm_realloc_inplace_grow b n) (w, m) (fun r s => r = None /\ s = (w, m)).
Proof.
  intros (k & Hk & Hk1 & HL). unfold wasm_realloc_inplace_grow. destruct COALESCE_POOLS; cbn [negb]; [|by apply wp_ret].
  apply wp_bind. eapply wp_mono; [apply (memory_size_ok w m k Hk)|]. intros r [w' m'] (-> & -> & ->); cbn beta iota.
  destruct (HL b) as (H1 & H2 & H3); [set_solver|]. pose proof PAGE_SIZE_eq as EP.
  rewrite (proj2 (Z.eqb_neq _ k)); [by apply wp_ret|]. intros <-. pose proof (Z.mul_div_le b.1 PAGE_SIZE). lia.
Qed.

(** [Source] keeps the contract of [FlexSource]. *)
Definition wasm_source_ok : FlexSourceOk W.
Proof using Hbits Iok.
  refine {| Owns := wasm_owns : W -> list Slice -> Prop |}.
  - exists 16. split; [lia|done].
  - intros w m L n Ho Hc Hn _ _. exact (wasm_alloc_spec w m L n Ho Hc Hn).
  - intros w m L a len n Ho Hc _ _. eapply wp_mono; [exact (wasm_grow_spec w m L (a, len) n Ho)|].
    by intros r [w' m'] [-> [= -> ->]].
  - discriminate.
Defined.

(** C18: The WebAssembly source: [alloc] gives nothing or the pages that
    [memory.grow] added, and [realloc_inplace_grow] never extends an
    allocation, not even the last one in memory with [COALESCE_POOLS] on: it
    compares the page of the start of the allocation, not of its end, with
    the size of the memory. *)
Theorem wasm_source_correct w m L :
  wasm_owns w L -> covers m L ->
  (forall n, 0 < n ->
     wp (wasm_alloc n) (w, m) (fun r '(w', m') =>
       match r with
       | Some (a, len) =>
           wasm_owns w' ((a, len) :: L) /\ slice a len /\ n <= len /\ (PAGE_SIZE | a) /\ (PAGE_SIZE | len) /\
           extends m m' a len
       | None => wasm_owns w' L /\ m' = m
       end)) /\
  (forall b L' n, L = b :: L' -> wp (wasm_realloc_inplace_grow b n) (w, m) (fun r s => r = None /\ s = (w, m))).
Proof using Hbits Iok.
  intros Ho Hc. split; [intros n Hn; by apply wasm_alloc_spec|]. intros b L' n ->. by eapply wasm_grow_spec.
Qed.

End WasmProofs.
End Wasm32.
