(* ===== verification/Global.v ===== *)
(** * global.rs: [GlobalTlsf]

    [GlobalTlsf] is a [FlexTlsf] over the operating system's source, behind a
    mutex, with the largest parameters.  Its methods implement two traits:
    [core::alloc::GlobalAlloc], whose callers know the layouts, and [CAlloc],
    whose callers know the addresses only.  [CAlloc] and its contract are
    classes, which the C functions of rlsf_override are proved against. *)

From S2P Require Import Prelude Usize BinInteger SizeClass Machine Header FreeIndex Pool Region Alloc Dealloc Insert Realloc System Flex FlexInv FlexGrow FlexSpec Sources.

(** ** The parameters *)

Section TheTlsf.
Context {T : Target}.

Definition usize_ty : IntTy := {| int_bits := USIZE_BITS; int_signed := false |}.

(** [TheTlsf]: [FlexTlsf<_, usize, usize, usize::BITS, usize::BITS>]. *)
#[export] Instance TheTlsf : TlsfParams :=
  {| FLBitmap := usize_ty; SLBitmap := usize_ty; FLLEN := USIZE_BITS; SLLEN := USIZE_BITS |}.

#[export] Instance TheTlsf_ok : ParamsOk TheTlsf.
Proof.
  assert (Hi : IntTyOk usize_ty).
  { split; unfold BITS, usize_ty; cbn [int_bits]; unfold USIZE_BITS; destruct target_ok as [->|[->| ->]]; vm_compute; (discriminate || reflexivity). }
  split; [exact Hi|exact Hi| | |].
  - split; split; unfold FLLEN, SLLEN, TheTlsf, USIZE_MOD, USIZE_BITS; destruct target_ok as [->|[->| ->]];
      vm_compute; (discriminate || reflexivity).
  - unfold VALID, FLLEN, SLLEN, FLBitmap, SLBitmap, TheTlsf, usize_ty, BITS; cbn [int_bits].
    unfold USIZE_BITS; destruct target_ok as [->|[->| ->]]; vm_compute; reflexivity.
  - unfold SLI_const, SLI, SLLEN, TheTlsf, USIZE_BITS; destruct target_ok as [->|[->| ->]]; vm_compute; reflexivity.
Qed.
End TheTlsf.

(** No pool is ever cut into several, so nothing is left over at the end of an
    allocation of an aligned source. *)
Lemma TheTlsf_exact {T : Target} {Source : Type} {FS : FlexSource Source} : (GRANULARITY | min_align) -> exact (P := TheTlsf).
Proof.
  intros Hd. split; [|exact Hd]. unfold MAX_POOL_SIZE, FLLEN, TheTlsf, GRANULARITY_LOG2, GRANULARITY, USIZE_BITS.
  destruct target_ok as [->|[->| ->]]; vm_compute; reflexivity.
Qed.

(** ** The mutex *)

(** [Mutex::lock] and [Mutex::unlock] of a module for an operating system. *)
Class Mutex := {
  mutex_t : Type;
  mutex_new : mutex_t;
  mutex_lock : M mutex_t unit;
  mutex_unlock : M mutex_t unit
}.

(** Locking a free mutex and unlocking it leaves it free. *)
Class MutexOk {Mx : Mutex} := {
  mutex_free : mutex_t -> Prop;
  mutex_new_free : mutex_free mutex_new;
  mutex_cycle m : mutex_free m ->
    exists m1 m2, mutex_lock m = Ok (tt, m1) /\ mutex_unlock m1 = Ok (tt, m2) /\ mutex_free m2
}.

(** A mutex that excludes: [lock] does not return while it is locked. *)
Class MutexExcl {Mx : Mutex} := {
  mutex_locked : mutex_t -> bool;
  mutex_new_unlocked : mutex_locked mutex_new = false;
  mutex_lock_unlocked m : mutex_locked m = false -> exists m', mutex_lock m = Ok (tt, m') /\ mutex_locked m' = true;
  mutex_lock_locked m : mutex_locked m = true -> mutex_lock m = Fail Blocked;
  mutex_unlock_locked m : mutex_locked m = true -> exists m', mutex_unlock m = Ok (tt, m') /\ mutex_locked m' = false
}.

#[export] Instance MutexExcl_ok {Mx : Mutex} {Mex : MutexExcl} : MutexOk.
Proof.
  refine {| mutex_free := (fun m => mutex_locked m = false) : mutex_t -> Prop |}; [apply mutex_new_unlocked|].
  intros m (m1 & E1 & H1)%mutex_lock_unlocked. destruct (mutex_unlock_locked m1 H1) as (m2 & E2 & H2). by exists m1, m2.
Defined.

(** The functions of libc that unix.rs calls, and what POSIX says of them: the
    caller of [pthread_mutex_lock] waits while the mutex is locked. *)
Class Pthread := {
  pthread_mutex_t : Type;
  PTHREAD_MUTEX_INITIALIZER : pthread_mutex_t;
  pthread_mutex_lock : M pthread_mutex_t Z;
  pthread_mutex_unlock : M pthread_mutex_t Z
}.

Class PthreadOk {Pt : Pthread} := {
  pthread_locked : pthread_mutex_t -> bool;
  pthread_init : pthread_locked PTHREAD_MUTEX_INITIALIZER = false;
  pthread_lock_free m : pthread_locked m = false -> exists m', pthread_mutex_lock m = Ok (0, m') /\ pthread_locked m' = true;
  pthread_lock_held m : pthread_locked m = true -> pthread_mutex_lock m = Fail Blocked;
  pthread_unlock_held m : pthread_locked m = true -> exists m', pthread_mutex_unlock m = Ok (0, m') /\ pthread_locked m' = false
}.

(** unix.rs: the results are ignored. *)
Section UnixMutex.
Context {Pt : Pthread}.

Definition Mutex_lock : M pthread_mutex_t unit := pthread_mutex_lock;; mret tt.
Definition Mutex_unlock : M pthread_mutex_t unit := pthread_mutex_unlock;; mret tt.
Definition UnixMutex : Mutex :=
  {| mutex_t := pthread_mutex_t; mutex_new := PTHREAD_MUTEX_INITIALIZER; mutex_lock := Mutex_lock; mutex_unlock := Mutex_unlock |}.

#[export] Instance UnixMutex_excl {Ptok : PthreadOk} : MutexExcl (Mx := UnixMutex).
Proof.
  refine {| mutex_locked := pthread_locked : @mutex_t UnixMutex -> bool |}; simpl; unfold Mutex_lock, Mutex_unlock, mbind, M_bind.
  - apply pthread_init.
  - intros m (m' & -> & Hm)%pthread_lock_free. by exists m'.
  - intros m ->%pthread_lock_held. done.
  - intros m (m' & -> & Hm)%pthread_unlock_held. by exists m'.
Defined.
End UnixMutex.

(** wasm32.rs: nothing to do in a single thread. *)
Definition WasmMutex : Mutex :=
  {| mutex_t := unit; mutex_new := tt; mutex_lock := mret tt; mutex_unlock := mret tt |}.

#[export] Instance WasmMutex_ok : MutexOk (Mx := WasmMutex).
Proof. refine {| mutex_free := (fun _ => True) : @mutex_t WasmMutex -> Prop |}; [done|]. intros m _. by exists m, m. Defined.

(** ** Methods

    A method of [GlobalTlsf] is the sequence of its actions: locking and
    unlocking the mutex, and accesses to the allocator behind it.  [run] is a
    call with nothing in between; the actions of several threads interleave
    in [Threads]. *)

Inductive method (F A : Type) : Type :=
  | Return (a : A)
  | Lock (k : method F A)
  | Unlock (k : method F A)
  | Access (X : Type) (c : M F X) (k : X -> method F A).
Arguments Return {F A} a.
Arguments Lock {F A} k.
Arguments Unlock {F A} k.
Arguments Access {F A X} c k.

Fixpoint method_bind {F A B} (k : A -> method F B) (p : method F A) : method F B :=
  match p with
  | Return a => k a
  | Lock p => Lock (method_bind k p)
  | Unlock p => Unlock (method_bind k p)
  | Access c p => Access c (fun r => method_bind k (p r))
  end.

#[export] Instance method_mret F : MRet (method F) := fun A a => Return a.
#[export] Instance method_mbind F : MBind (method F) := fun A B => method_bind.

(** A use of the guard, [*inner], or of the allocator without it. *)
Definition access {F X} (c : M F X) : method F X := Access c Return.

(** ** [GlobalTlsf] *)

Record GlobalTlsf {Mx : Mutex} (Source : Type) := mkGlobal { inner : FlexTlsf Source; mutex : mutex_t }.
Arguments mkGlobal {Mx Source} inner mutex.
Arguments inner {Mx Source} g.
Arguments mutex {Mx Source} g.

(** The implementation of the trait [CAlloc]. *)
Class CAlloc {T : Target} (G : Type) := {
  CAlloc_allocate : Layout -> M G (option Z);
  CAlloc_deallocate : Z -> M G unit;
  CAlloc_reallocate : Z -> Layout -> M G (option Z);
  CAlloc_allocation_usable_size : Z -> M G Z
}.

Section GlobalOps.
Context {T : Target} {P : TlsfParams} {B : Build} {O : GlobalTlsfOptions} {Mx : Mutex}.
Context {Source : Type} {FS : FlexSource Source}.
#[local] Abbreviation F := (FlexTlsf Source).
#[local] Abbreviation G := (GlobalTlsf Source).

(** [GlobalTlsf::new]. *)
Definition GlobalTlsf_new (src : Source) : G := mkGlobal (FlexTlsf_new src ∅) mutex_new.

Definition on_inner {A} (c : M F A) : M G A := fun g =>
  match c (inner g) with
  | Ok (a, f) => Ok (a, mkGlobal f (mutex g))
  | Fail e => Fail e
  end.

Definition on_mutex (c : M mutex_t unit) : M G unit := fun g =>
  match c (mutex g) with
  | Ok (_, b) => Ok (tt, mkGlobal (inner g) b)
  | Fail e => Fail e
  end.

Fixpoint run {A} (p : method F A) : M G A :=
  match p with
  | Return a => mret a
  | Lock k => on_mutex mutex_lock;; run k
  | Unlock k => on_mutex mutex_unlock;; run k
  | Access c k => r ← on_inner c; run (k r)
  end.

(** [let mut inner = self.lock_inner(); ...]: [scope] is the rest of the
    method, at the end of which the guard is dropped. *)
Definition lock_inner {A} (scope : method F A) : method F A :=
  Lock (r ← scope; Unlock (Return r)).

(** *** [GlobalAlloc] *)

Definition null_or (r : option Z) : Z := default 0 r.

(** The body of a method is what it does with the guard. *)
Definition realloc_body (ptr : Z) (layout : Layout) (new_size : Z) : M F (option Z) :=
  let new_layout := mkLayout new_size (l_align layout) in
  if ENABLE_REALLOCATION then FlexTlsf_reallocate ptr new_layout
  else
    o ← FlexTlsf_allocate new_layout;
    let? new_ptr := o in
    on_tlsf (copy_nonoverlapping ptr new_ptr (Z.min (l_size layout) new_size));;
    FlexTlsf_deallocate ptr (l_align layout);;
    mret (Some new_ptr).

Definition alloc_method (layout : Layout) : method F Z :=
  lock_inner (r ← access (FlexTlsf_allocate layout); mret (null_or r)).

Definition dealloc_method (ptr : Z) (layout : Layout) : method F unit :=
  lock_inner (access (FlexTlsf_deallocate ptr (l_align layout))).

Definition realloc_method (ptr : Z) (layout : Layout) (new_size : Z) : method F Z :=
  lock_inner (r ← access (realloc_body ptr layout new_size); mret (null_or r)).

Definition GlobalTlsf_alloc (layout : Layout) : M G Z := run (alloc_method layout).
Definition GlobalTlsf_dealloc (ptr : Z) (layout : Layout) : M G unit := run (dealloc_method ptr layout).
Definition GlobalTlsf_realloc (ptr : Z) (layout : Layout) (new_size : Z) : M G Z := run (realloc_method ptr layout new_size).

(** *** [CAlloc] *)

Definition reallocate_body (ptr : Z) (new_layout : Layout) : M F (option Z) :=
  o ← FlexTlsf_allocate new_layout;
  let? new_ptr := o in
  old_size ← FlexTlsf_size_of_allocation_unknown_align ptr;
  on_tlsf (copy_nonoverlapping ptr new_ptr (Z.min (l_size new_layout) old_size));;
  FlexTlsf_deallocate_unknown_align ptr;;
  mret (Some new_ptr).

Definition allocate_method (layout : Layout) : method F (option Z) :=
  lock_inner (access (FlexTlsf_allocate layout)).

Definition deallocate_method (ptr : Z) : method F unit :=
  lock_inner (access (FlexTlsf_deallocate_unknown_align ptr)).

Definition reallocate_method (ptr : Z) (new_layout : Layout) : method F (option Z) :=
  lock_inner (access (reallocate_body ptr new_layout)).

(** [allocation_usable_size] does not lock. *)
Definition usable_size_method (ptr : Z) : method F Z :=
  access (FlexTlsf_size_of_allocation_unknown_align ptr).

#[export] Instance GlobalTlsf_CAlloc : CAlloc G := {|
  CAlloc_allocate layout := run (allocate_method layout);
  CAlloc_deallocate ptr := run (deallocate_method ptr);
  CAlloc_reallocate ptr new_layout := run (reallocate_method ptr new_layout);
  CAlloc_allocation_usable_size ptr := run (usable_size_method ptr)
|}.

End GlobalOps.

(** ** The bodies *)

Section GlobalBodies.
Context {T : Target} {P : TlsfParams} {Pok : ParamsOk P} {B : Build} {O : GlobalTlsfOptions}.
Context {Source : Type} {FS : FlexSource Source} {FSok : FlexSourceOk Source}.
Context (Hdebug : debug_assertions = true -> never_grows \/ exact).
#[local] Abbreviation F := (FlexTlsf Source).

(** Nothing changed but the source was asked for memory. *)
Definition refused (f f' : F) (Ps : list pool) (L : list Slice) : Prop :=
  growable_pool f' = growable_pool f /\ flex_st f' = flex_st f /\ FInv f' Ps L.

Lemma refused_source (f : F) src Ps L : FInv f Ps L -> Owns src L -> refused f (mkFlexTlsf (growable_pool f) src (flex_st f)) Ps L.
Proof. intros HF Ho. split_and!; [done|done|by apply FInv_source]. Qed.

Lemma realloc_body_spec f Ps L al new_size :
  FInv f Ps L -> al ∈ live Ps -> layout_ok (mkLayout new_size (a_align al)) ->
  wp (realloc_body (a_ptr al) (mkLayout (a_size al) (a_align al)) new_size) f (fun r f' =>
    match r with
    | Some ptr => flex_realloced f f' Ps al (mkAlloc ptr (a_align al) new_size)
    | None => refused f f' Ps L
    end).
Proof.
  intros HF Hin Hl. unfold realloc_body. cbn [l_align l_size]. destruct ENABLE_REALLOCATION.
  - eapply (FlexTlsf_reallocate_spec Hdebug _ Ps L al); [done|done|done|done| |done]. intros src Ho. by apply refused_source.
  - apply wp_bind. eapply (FlexTlsf_allocate_spec Hdebug); [exact HF|done|intros src Ho _ _; by apply wp_ret, refused_source|].
    intros ptr f1 (Ps1 & L1 & HF1 & Hl1 & Hk). cbn [l_align l_size] in *.
    pose proof (live_size _ _ al (fi_inv _ _ _ HF) Hin) as H0. destruct Hl as [[Hs _] _]. cbn [l_size] in Hs.
    assert (Hal : resize al (a_size al) = al) by by destruct al.
    apply elem_of_Permutation_cons in Hin as [others Ho]. apply wp_assoc, wp_bind.
    eapply wp_mono; [eapply (move_spec f f1 Ps Ps1 L1 al (mkAlloc ptr (a_align al) new_size) others (a_size al)); cbn [a_size]; rewrite ?Hal|].
    + done.
    + lia.
    + lia.
    + exact HF1.
    + by rewrite Hl1, Ho.
    + eapply kept_fewer; [|exact Hk]. by rewrite Ho.
    + intros f2 Hf2. apply (FlexTlsf_deallocate_spec _ Ps1 L1 al Hf2). rewrite Hl1, Ho. set_solver.
    + intros [] f' Hf'. by apply wp_ret.
Qed.

Lemma reallocate_body_spec f Ps L al l :
  FInv f Ps L -> al ∈ live Ps -> layout_ok l ->
  wp (reallocate_body (a_ptr al) l) f (fun r f' =>
    match r with
    | Some ptr => flex_realloced f f' Ps al (mkAlloc ptr (l_align l) (l_size l))
    | None => refused f f' Ps L
    end).
Proof.
  intros HF Hin Hl. pose proof (live_size _ _ al (fi_inv _ _ _ HF) Hin) as H0.
  apply wp_bind. eapply (FlexTlsf_allocate_spec Hdebug); [exact HF|done|intros src Hs _ _; by apply wp_ret, refused_source|].
  intros ptr f1 (Ps1 & L1 & HF1 & Hl1 & Hkept). pose proof Hl as [[Hs _] _].
  assert (Hin1 : al ∈ live Ps1) by (rewrite Hl1; set_solver). apply elem_of_Permutation_cons in Hin as [others Ho].
  destruct (enlarge _ _ _ (fi_inv _ _ _ HF1) Hin1) as (k & _ & Ek & Hk & Ps2 & others1 & Ho1 & Hl2 & Hpost & _).
  pose proof (FInv_post _ _ _ _ _ _ HF1 Hpost) as HF2. rewrite flex_eta in HF2.
  assert (HP : others1 ≡ₚ mkAlloc ptr (l_align l) (l_size l) :: others).
  { apply (Permutation_cons_inv (a := al)). rewrite <- Ho1, Hl1, Ho. solve_Permutation. }
  apply wp_bind, wp_on_tlsf. exists k, (flex_st f1). split; [exact Ek|]. rewrite flex_eta. apply wp_assoc, wp_bind.
  eapply wp_mono; [eapply (move_spec f f1 Ps Ps2 L1 al (mkAlloc ptr (l_align l) (l_size l)) others k); cbn [a_size]|].
  - done.
  - lia.
  - lia.
  - exact HF2.
  - rewrite Hl2, HP. solve_Permutation.
  - eapply kept_fewer; [|exact Hkept]. by rewrite Ho.
  - intros f2 Hf2. apply (FlexTlsf_deallocate_unknown_spec _ Ps2 L1 (resize al k) Hf2). rewrite Hl2. set_solver.
  - intros [] f' Hf'. by apply wp_ret.
Qed.

End GlobalBodies.

(** ** What [CAlloc] promises *)

(** The memory of the state, as the caller of the methods sees it. *)
Class HasMem (G : Type) := { get_mem : G -> Mem; put_mem : G -> Mem -> G }.

Definition payload_kept {G} {HM : HasMem G} (g g' : G) (A : list alloc) : Prop :=
  forall al x, al ∈ A -> payload al x -> get_mem g' !! x = get_mem g !! x.

(** [Heap g A] says that [A] are the allocations.  They are apart, mapped and
    aligned, and the caller may write to them.  A method that fails changes
    nothing the caller sees; the usable size is really usable. *)
Class CAllocOk {T : Target} (G : Type) {HM : HasMem G} {CA : CAlloc G} := {
  Heap : G -> list alloc -> Prop;
  get_put g m : get_mem (put_mem g m) = m;
  heap_perm g A A' : A ≡ₚ A' -> Heap g A -> Heap g A';
  heap_usable g A : Heap g A -> Forall (usable_alloc (get_mem g)) A /\ ForallOrdPairs apart A;
  heap_write g A al m' : Heap g A -> al ∈ A -> mem_step (payload al) (get_mem g) m' -> Heap (put_mem g m') A;
  allocate_ok g A l :
    Heap g A -> layout_ok l ->
    wp (CAlloc_allocate l) g (fun r g' => payload_kept g g' A /\
      match r with Some ptr => Heap g' (mkAlloc ptr (l_align l) (l_size l) :: A) | None => Heap g' A end);
  deallocate_ok g A al :
    Heap g (al :: A) -> wp (CAlloc_deallocate (a_ptr al)) g (fun _ g' => payload_kept g g' A /\ Heap g' A);
  reallocate_ok g A al l :
    Heap g (al :: A) -> layout_ok l ->
    wp (CAlloc_reallocate (a_ptr al) l) g (fun r g' => payload_kept g g' A /\
      match r with
      | Some ptr => Heap g' (mkAlloc ptr (l_align l) (l_size l) :: A) /\
          forall i, 0 <= i < Z.min (a_size al) (l_size l) -> get_mem g' !! (ptr + i) = get_mem g !! (a_ptr al + i)
      | None => Heap g' (al :: A) /\ payload_kept g g' [al]
      end);
  usable_size_ok g A al :
    Heap g (al :: A) ->
    wp (CAlloc_allocation_usable_size (a_ptr al)) g (fun n g' => g' = g /\ a_size al <= n /\ Heap g (resize al n :: A))
}.

Section GlobalSpecs.
Context {T : Target} {P : TlsfParams} {Pok : ParamsOk P} {B : Build} {O : GlobalTlsfOptions} {Mx : Mutex} {Mok : MutexOk}.
Context {Source : Type} {FS : FlexSource Source} {FSok : FlexSourceOk Source}.
#[local] Abbreviation F := (FlexTlsf Source).
#[local] Abbreviation G := (GlobalTlsf Source).

#[export] Instance GlobalTlsf_mem : HasMem G := {|
  get_mem g := flex_mem (inner g);
  put_mem g m := mkGlobal (mkFlexTlsf (growable_pool (inner g)) (source (inner g)) (with_mem (flex_st (inner g)) m)) (mutex g)
|}.

(** A method that locks runs its one access and leaves the mutex free; [h] is
    what it makes of the result. *)
Lemma wp_lock_inner {X A} (c : M F X) (h : X -> A) g (Q : A -> G -> Prop) :
  mutex_free (mutex g) ->
  wp c (inner g) (fun r f => forall m, mutex_free m -> Q (h r) (mkGlobal f m)) ->
  wp (run (lock_inner (r ← access c; mret (h r)))) g Q.
Proof.
  intros (m1 & m2 & El & Eu & Hm)%mutex_cycle (r & f & E & HQ). exists (h r), (mkGlobal f m2). split; [|by apply HQ].
  simpl. unfold on_mutex, on_inner, mbind, M_bind. rewrite El. cbn [inner mutex]. rewrite E. cbn [inner mutex].
  by rewrite Eu.
Qed.

Lemma wp_lock_access {X} (c : M F X) g (Q : X -> G -> Prop) :
  mutex_free (mutex g) ->
  wp c (inner g) (fun r f => forall m, mutex_free m -> Q r (mkGlobal f m)) -> wp (run (lock_inner (access c))) g Q.
Proof. exact (wp_lock_inner c (fun r => r) g Q). Qed.

(** Between calls the mutex is free. *)
Definition GHeap (g : G) (A : list alloc) : Prop :=
  mutex_free (mutex g) /\ exists Ps L, FInv (inner g) Ps L /\ live Ps ≡ₚ A.

Lemma GHeap_new src : Owns src [] -> GHeap (GlobalTlsf_new src) [].
Proof. intros Ho. split; [apply mutex_new_free|]. exists [], []. split; [by apply FlexTlsf_new_inv|done]. Qed.

Lemma kept_payload (g : G) f' m A A' : A ≡ₚ A' -> kept (inner g) f' A -> payload_kept g (mkGlobal f' m) A'.
Proof. intros HP Hk al x Hal Hx. apply (Hk al); [by rewrite HP|done]. Qed.

Lemma kept_same (g : G) f' m A : flex_st f' = flex_st (inner g) -> payload_kept g (mkGlobal f' m) A.
Proof. intros E al x _ _. simpl. unfold flex_mem. by rewrite E. Qed.

Lemma GHeap_write g A al m' : GHeap g A -> al ∈ A -> mem_step (payload al) (get_mem g) m' -> GHeap (put_mem g m') A.
Proof.
  intros (Hm & Ps & L & HF & HL) Hal Hs. split; [done|]. exists Ps, L. split; [|done]. simpl.
  rewrite <- HL in Hal. apply elem_of_Permutation_cons in Hal as [others Ho].
  eapply FInv_post; [exact HF|]. eapply (payload_post _ _ al); [apply HF|exact Ho|exact Hs].
Qed.

Lemma GHeap_usable g A : GHeap g A -> Forall (usable_alloc (get_mem g)) A /\ ForallOrdPairs apart A.
Proof.
  intros (_ & Ps & L & HF & HL). split.
  - rewrite <- HL. apply live_usable, HF.
  - eapply ForallOrdPairs_perm; [apply _|exact HL|]. apply live_apart, HF.
Qed.

Lemma GHeap_deallocate g A al (free : M F unit) :
  (forall f Ps L, FInv f Ps L -> al ∈ live Ps -> wp free f (fun _ f' => flex_freed f f' Ps L al)) ->
  GHeap g (al :: A) -> wp (run (lock_inner (access free))) g (fun _ g' => payload_kept g g' A /\ GHeap g' A).
Proof.
  intros Hfree (Hm & Ps & L & HF & HL). apply wp_lock_access; [done|]. eapply wp_mono; [apply (Hfree _ Ps L HF); rewrite HL; set_solver|].
  intros [] f' (Ps' & HF' & Hl & Hk) m Hm'.
  assert (HP : live Ps' ≡ₚ A) by (apply (Permutation_cons_inv (a := al)); by rewrite <- Hl).
  split; [by eapply kept_payload|]. split; [done|]. by exists Ps', L.
Qed.

Lemma GHeap_usable_size g A al :
  GHeap g (al :: A) ->
  wp (CAlloc_allocation_usable_size (a_ptr al)) g (fun n g' => g' = g /\ a_size al <= n /\ GHeap g (resize al n :: A)).
Proof.
  intros (Hm & Ps & L & HF & HL). destruct (enlarge _ _ al (fi_inv _ _ _ HF)) as (k & _ & Ek & Hk & Ps' & others & Ho & Hl & Hp & _);
    [rewrite HL; set_solver|].
  exists k, g. assert (Eg : mkGlobal (inner g) (mutex g) = g) by by destruct g. split.
  - cbn. unfold mbind, M_bind, on_inner, FlexTlsf_size_of_allocation_unknown_align, on_tlsf. by rewrite Ek, flex_eta, Eg.
  - split_and!; [done|done|]. split; [done|]. exists Ps', L. split; [rewrite <- (flex_eta (inner g)); by eapply FInv_post|].
    rewrite Hl. f_equiv. apply (Permutation_cons_inv (a := al)). by rewrite <- Ho.
Qed.

(** A body that has the outcome of a reallocation. *)
Definition moved (g g' : G) (A : list alloc) (al : alloc) (al' : Z -> alloc) (r : option Z) : Prop :=
  payload_kept g g' A /\
  match r with
  | Some ptr => GHeap g' (al' ptr :: A) /\
      forall i, 0 <= i < Z.min (a_size al) (a_size (al' ptr)) -> get_mem g' !! (a_ptr (al' ptr) + i) = get_mem g !! (a_ptr al + i)
  | None => GHeap g' (al :: A) /\ payload_kept g g' [al]
  end.

Lemma GHeap_reallocate {X} g A al al' (body : M F (option Z)) (h : option Z -> X) :
  (forall Ps L, FInv (inner g) Ps L -> al ∈ live Ps -> wp body (inner g) (fun r f' =>
     match r with
     | Some ptr => flex_realloced (inner g) f' Ps al (al' ptr)
     | None => refused (inner g) f' Ps L
     end)) ->
  GHeap g (al :: A) ->
  wp (run (lock_inner (r ← access body; mret (h r)))) g (fun v g' => exists r, v = h r /\ moved g g' A al al' r).
Proof.
  intros Hb (Hm & Ps & L & HF & HL). apply wp_lock_inner; [done|]. eapply wp_mono; [apply (Hb Ps L HF); rewrite HL; set_solver|].
  intros r f' Hr m Hm'. exists r. split; [done|]. destruct r as [ptr|].
  - destruct Hr as (Ps' & L' & others & HF' & Ho & Hl' & Hk & Hd).
    assert (HP : others ≡ₚ A) by (apply (Permutation_cons_inv (a := al)); by rewrite <- Ho).
    split; [by eapply kept_payload|]. split; [|exact Hd]. split; [done|]. exists Ps', L'. split; [done|by rewrite Hl', HP].
  - destruct Hr as (_ & E & HF'). split; [by apply kept_same|]. split; [|by apply kept_same]. split; [done|]. by exists Ps, L.
Qed.

Context (Hdebug : debug_assertions = true -> never_grows \/ exact).

Lemma CAlloc_reallocate_spec g A al l :
  GHeap g (al :: A) -> layout_ok l ->
  wp (CAlloc_reallocate (a_ptr al) l) g (fun r g' => moved g g' A al (fun ptr => mkAlloc ptr (l_align l) (l_size l)) r).
Proof.
  intros Hh Hl. eapply wp_mono; [apply (GHeap_reallocate g A al (fun ptr => mkAlloc ptr (l_align l) (l_size l)) _ (fun r => r)); [|exact Hh]|].
  - intros Ps L HF Hin. by apply (reallocate_body_spec Hdebug).
  - by intros r g' (r' & -> & Hr).
Qed.

Lemma GHeap_allocate g A l :
  GHeap g A -> layout_ok l ->
  wp (run (allocate_method l)) g (fun r g' => payload_kept g g' A /\
    match r with Some ptr => GHeap g' (mkAlloc ptr (l_align l) (l_size l) :: A) | None => GHeap g' A end).
Proof.
  intros (Hm & Ps & L & HF & HL) Hl. apply wp_lock_access; [done|]. eapply (FlexTlsf_allocate_spec Hdebug); [exact HF|done| |].
  - intros src Ho _ _ m Hm'. split; [by apply kept_same|]. split; [done|]. exists Ps, L. split; [by apply FInv_source|done].
  - intros ptr f' (Ps' & L' & HF' & Hl' & Hk) m Hm'. split; [by eapply kept_payload|]. split; [done|]. exists Ps', L'.
    split; [done|by rewrite Hl', HL].
Qed.

(** [GlobalTlsf] keeps the contract of [CAlloc]. *)
Definition GlobalTlsf_CAlloc_ok : CAllocOk G.
Proof using Pok FSok Mok Hdebug.
  refine {| Heap := GHeap : G -> list alloc -> Prop |}.
  - done.
  - intros g A A' HP (Hm & Ps & L & HF & HL). split; [done|]. exists Ps, L. split; [done|by rewrite HL].
  - exact GHeap_usable.
  - exact GHeap_write.
  - exact GHeap_allocate.
  - intros g A al. apply GHeap_deallocate. intros f Ps L. apply FlexTlsf_deallocate_unknown_spec.
  - intros g A al l Hh Hl. exact (CAlloc_reallocate_spec g A al l Hh Hl).
  - exact GHeap_usable_size.
Defined.

End GlobalSpecs.

(** ** Properties *)

Section GlobalProperties.
Context {T : Target} {P : TlsfParams} {Pok : ParamsOk P} {B : Build} {O : GlobalTlsfOptions} {Mx : Mutex} {Mok : MutexOk}.
Context {Source : Type} {FS : FlexSource Source} {FSok : FlexSourceOk Source}.
Context (Hdebug : debug_assertions = true -> never_grows \/ exact).

(** C12: [GlobalAlloc::realloc] of [GlobalTlsf], with the specialised routine
    ([ENABLE_REALLOCATION]) and without, has the same outcome: it returns
    with the mutex free; a non-null pointer is the allocation with the new
    size and the bytes both have; null means that the old allocation is
    still there, unchanged; no other payload changed. *)
Theorem GlobalTlsf_realloc_correct (g : GlobalTlsf Source) A al new_size :
  GHeap g (al :: A) -> layout_ok (mkLayout new_size (a_align al)) ->
  wp (GlobalTlsf_realloc (a_ptr al) (mkLayout (a_size al) (a_align al)) new_size) g (fun p g' =>
    payload_kept g g' A /\
    if decide (p = 0) then GHeap g' (al :: A) /\ payload_kept g g' [al]
    else GHeap g' (mkAlloc p (a_align al) new_size :: A) /\
      forall i, 0 <= i < Z.min (a_size al) new_size -> get_mem g' !! (p + i) = get_mem g !! (a_ptr al + i)).
Proof.
  intros Hh Hl. eapply wp_mono.
  { apply (GHeap_reallocate g A al (fun ptr => mkAlloc ptr (a_align al) new_size)); [|exact Hh].
    intros Ps L HF Hin. exact (realloc_body_spec Hdebug _ Ps L al new_size HF Hin Hl). }
  intros v g' ([p|] & -> & Hk & Hr); (split; [exact Hk|]); cbn [null_or default].
  - rewrite decide_False; [exact Hr|]. destruct Hr as [Hh' _]. destruct (GHeap_usable _ _ Hh') as [[[_ _ Hn _ _] _]%Forall_cons _].
    unfold null_or. simpl in *. lia.
  - by rewrite decide_True.
Qed.

(** C13: [CAlloc::reallocate] of [GlobalTlsf] knows neither the size nor the
    alignment of the allocation and may change both: it returns with the
    mutex free, and either the allocation moved with the bytes both sizes
    have, or nothing the caller sees changed. *)
Theorem CAlloc_reallocate_correct (g : GlobalTlsf Source) A al l :
  GHeap g (al :: A) -> layout_ok l ->
  wp (CAlloc_reallocate (a_ptr al) l) g (fun r g' => payload_kept g g' A /\
    match r with
    | Some ptr => GHeap g' (mkAlloc ptr (l_align l) (l_size l) :: A) /\
        forall i, 0 <= i < Z.min (a_size al) (l_size l) -> get_mem g' !! (ptr + i) = get_mem g !! (a_ptr al + i)
    | None => GHeap g' (al :: A) /\ payload_kept g g' [al]
    end).
Proof. intros Hh Hl. exact (CAlloc_reallocate_spec Hdebug g A al l Hh Hl). Qed.

End GlobalProperties.
