(* ===== verification/Threads.v ===== *)
(** * Threads that share a [GlobalTlsf]

    Each thread calls methods.  The actions of the methods (see [Global]) of
    different threads interleave in any order, also with writes to the
    payloads the client holds; a thread that wants a locked mutex waits.  The
    allocations a pending call was given belong to it until it returns. *)

From S2P Require Import Prelude Usize BinInteger SizeClass Machine Header FreeIndex Pool Region Alloc Dealloc Insert Realloc System Flex FlexInv FlexGrow FlexSpec Sources Global.

(** The calls of [GlobalAlloc] and [CAlloc]. *)
Inductive gcall :=
  | CallAlloc (l : Layout)
  | CallDealloc (al : alloc)
  | CallRealloc (al : alloc) (new_size : Z)
  | CallAllocate (l : Layout)
  | CallDeallocate (al : alloc)
  | CallReallocate (al : alloc) (l : Layout)
  | CallUsableSize (al : alloc).

(** All of them are meant to hold the mutex while they use the allocator, but
    for [allocation_usable_size]. *)
Definition locking (c : gcall) : bool := match c with CallUsableSize _ => false | _ => true end.

Section Threads.
Context {T : Target} {P : TlsfParams} {B : Build} {O : GlobalTlsfOptions} {Mx : Mutex}.
Context {Source : Type} {FS : FlexSource Source}.
#[local] Abbreviation F := (FlexTlsf Source).
#[local] Abbreviation G := (GlobalTlsf Source).

(** The safety sections. *)
Definition gcall_ok (c : gcall) : Prop :=
  match c with
  | CallAlloc l | CallAllocate l | CallReallocate _ l => layout_ok l
  | CallRealloc al new_size => layout_ok (mkLayout new_size (a_align al))
  | CallDealloc _ | CallDeallocate _ | CallUsableSize _ => True
  end.

(** The allocations a call is given, and those the caller has after it. *)
Definition takes (c : gcall) : list alloc :=
  match c with
  | CallAlloc _ | CallAllocate _ => []
  | CallDealloc al | CallRealloc al _ | CallDeallocate al | CallReallocate al _ | CallUsableSize al => [al]
  end.

Definition gives (c : gcall) (r : Z) : list alloc :=
  match c with
  | CallAlloc l | CallAllocate l => if decide (r = 0) then [] else [mkAlloc r (l_align l) (l_size l)]
  | CallRealloc al new_size => if decide (r = 0) then [al] else [mkAlloc r (a_align al) new_size]
  | CallReallocate al l => if decide (r = 0) then [al] else [mkAlloc r (l_align l) (l_size l)]
  | CallDealloc _ | CallDeallocate _ => []
  | CallUsableSize al => [al]
  end.

(** [allocation_usable_size], which runs beside the other threads, with an
    action for each of its reads. *)
Definition usable_size_reads (ptr : Z) : method F Z :=
  let c1_block_hdr_ptr := get_for_allocation ptr in
  let c2_block_hdr := wrapping_sub ptr size_of_UsedBlockHdr in
  let c2_prev_phys_block_ptr := wrapping_add c2_block_hdr WORD in
  block_ptr ← access (on_tlsf (lift (check (c1_block_hdr_ptr =? c2_prev_phys_block_ptr));; read_ptr c2_prev_phys_block_ptr));
  block ←
    (if negb (block_ptr =? 0) then
       size ← access (on_tlsf (get_size BlockHdr block_ptr));
       block_end ← access (on_tlsf (lift (uadd block_ptr size)));
       if block_end <? ptr then mret c2_block_hdr else access (on_tlsf (read_ptr c1_block_hdr_ptr))
     else mret c2_block_hdr);
  access (on_tlsf (size_of_allocation_in_block ptr block)).

(** The method a call runs, and the pointer or size it returns. *)
Definition gmethod (c : gcall) : method F Z :=
  match c with
  | CallAlloc l => alloc_method l
  | CallDealloc al => dealloc_method (a_ptr al) (mkLayout (a_size al) (a_align al));; mret 0
  | CallRealloc al new_size => realloc_method (a_ptr al) (mkLayout (a_size al) (a_align al)) new_size
  | CallAllocate l => r ← allocate_method l; mret (null_or r)
  | CallDeallocate al => deallocate_method (a_ptr al);; mret 0
  | CallReallocate al l => r ← reallocate_method (a_ptr al) l; mret (null_or r)
  | CallUsableSize al => usable_size_reads (a_ptr al)
  end.

(** One action of a method, and the rest of it. *)
Definition act {A} (p : method F A) (g : G) : Res (method F A * G) :=
  match p with
  | Return _ => Ok (p, g)
  | Lock k => match mutex_lock (mutex g) with Ok (_, m) => Ok (k, mkGlobal (inner g) m) | Fail e => Fail e end
  | Unlock k => match mutex_unlock (mutex g) with Ok (_, m) => Ok (k, mkGlobal (inner g) m) | Fail e => Fail e end
  | Access c k => match c (inner g) with Ok (r, f) => Ok (k r, mkGlobal f (mutex g)) | Fail e => Fail e end
  end.

(** The next action uses the allocator. *)
Definition accessing {A} (p : method F A) : bool := match p with Access _ _ => true | _ => false end.

(** What a thread is doing: the call, and what is left of its method. *)
Inductive thread :=
  | Idle
  | Running (c : gcall) (p : method F Z).

Record Conc := mkConc { glob : G; threads : list thread; held : list alloc }.

Definition set_thread (t : nat) (th : thread) (x : Conc) : Conc := mkConc (glob x) (<[t := th]> (threads x)) (held x).
Definition set_glob (g : G) (x : Conc) : Conc := mkConc g (threads x) (held x).
Definition set_held (A : list alloc) (x : Conc) : Conc := mkConc (glob x) (threads x) A.

Inductive conc_step (x : Conc) : Conc -> Prop :=
  | conc_call t c A :
      threads x !! t = Some Idle -> gcall_ok c -> held x ≡ₚ takes c ++ A ->
      conc_step x (set_thread t (Running c (gmethod c)) (set_held A x))
  | conc_act t c p p' g :
      threads x !! t = Some (Running c p) -> act p (glob x) = Ok (p', g) ->
      conc_step x (set_thread t (Running c p') (set_glob g x))
  | conc_return t c r :
      threads x !! t = Some (Running c (Return r)) ->
      conc_step x (set_thread t Idle (set_held (gives c r ++ held x) x))
  | conc_write al m' :
      al ∈ held x -> mem_step (payload al) (get_mem (glob x)) m' ->
      conc_step x (set_glob (put_mem (glob x) m') x).

(** The allocations of a pending call. *)
Definition thread_allocs (th : thread) : list alloc :=
  match th with
  | Idle => []
  | Running c (Unlock (Return r)) | Running c (Return r) => gives c r
  | Running c _ => takes c
  end.

Definition pending (ths : list thread) : list alloc := ths ≫= thread_allocs.

(** A method that changes nothing. *)
Definition pure_read {S X} (c : M S X) : Prop := forall s r s', c s = Ok (r, s') -> s' = s.

Fixpoint reads_only {A} (p : method F A) : Prop :=
  match p with
  | Return _ => True
  | Access c k => pure_read c /\ forall r, reads_only (k r)
  | _ => False
  end.

(** Where a thread is in its method: before the lock, before the access, before
    the unlocking or at the end. *)
Definition thread_ok (th : thread) : Prop :=
  match th with
  | Idle => True
  | Running c p => gcall_ok c /\
      if locking c then
        match p with
        | Lock _ => p = gmethod c
        | Access _ _ => gmethod c = Lock p
        | Unlock (Return _) | Return _ => True
        | _ => False
        end
      else reads_only p
  end.

(** Between locking and unlocking. *)
Definition in_cs (th : thread) : bool :=
  match th with
  | Running c (Access _ _) => locking c
  | Running _ (Unlock _) => true
  | _ => false
  end.

Definition inside (ths : list thread) : nat := length (filter (fun th => in_cs th = true) ths).

(** With nothing in between, the reads are the method. *)
Lemma usable_size_reads_run ptr g : run (usable_size_reads ptr) g = run (usable_size_method ptr) g.
Proof.
  unfold usable_size_method, usable_size_reads, FlexTlsf_size_of_allocation_unknown_align, size_of_allocation_unknown_align,
    used_block_hdr_for_allocation_unknown_align. set (c1 := get_for_allocation ptr). set (c2 := wrapping_sub ptr size_of_UsedBlockHdr).
  set (c3 := wrapping_add c2 WORD). destruct g as [[gp src s] m].
  repeat first
    [ reflexivity
    | progress cbn -[read_ptr get_size size_of_allocation_in_block uadd check]
    | progress unfold mbind, M_bind, method_mbind, on_inner, on_tlsf, lift
    | match goal with
      | |- context [check ?b] => destruct (check b)
      | |- context [read_ptr ?p ?s] => destruct (read_ptr p s) as [[??]|]
      | |- context [get_size ?ty ?p ?s] => destruct (get_size ty p s) as [[??]|]
      | |- context [uadd ?a ?b] => destruct (uadd a b)
      | |- context [if ?b then _ else _] => destruct b
      end ].
Qed.

Lemma pure_read_bind {S X Y} (c : M S X) (k : X -> M S Y) : pure_read c -> (forall r, pure_read (k r)) -> pure_read (c ≫= k).
Proof.
  intros Hc Hk s r s'. unfold mbind, M_bind. destruct (c s) as [[a s1]|] eqn:E; [|discriminate].
  apply Hc in E as ->. apply Hk.
Qed.

Lemma pure_read_lift {S X} (r : Res X) : pure_read (S := S) (lift r).
Proof. intros s a s'. unfold lift. destruct r; [|discriminate]. congruence. Qed.

Lemma pure_read_load a : pure_read (load a).
Proof. intros s r s'. unfold load. destruct (load_word _ _); [|discriminate]. congruence. Qed.

Lemma pure_read_on_tlsf {X} (c : M St X) : pure_read c -> pure_read (on_tlsf (Source := Source) c).
Proof.
  intros Hc [gp src s] r f. unfold on_tlsf. cbn [flex_st growable_pool source].
  destruct (c s) as [[a s']|] eqn:E; [|discriminate]. apply Hc in E as ->. congruence.
Qed.

Lemma usable_size_reads_only ptr : reads_only (usable_size_reads ptr).
Proof.
  assert (Hl : forall ty p, pure_read (deref ty p;; load p)) by (intros; apply pure_read_bind; [apply pure_read_lift|intros _; apply pure_read_load]).
  assert (Hs : forall b, pure_read (size_of_allocation_in_block ptr b)).
  { intros b. apply pure_read_bind; [apply Hl|]. intros n. repeat (apply pure_read_bind; [apply pure_read_lift|intros ?]). apply pure_read_lift. }
  split; [apply pure_read_on_tlsf, pure_read_bind; [apply pure_read_lift|intros _; apply Hl]|]. intros b. simpl.
  destruct (negb (b =? 0)); simpl; [|split; [by apply pure_read_on_tlsf|done]].
  split; [apply pure_read_on_tlsf, Hl|]. intros n. split; [apply pure_read_on_tlsf, pure_read_lift|]. intros e.
  destruct (e <? ptr); simpl; repeat split; try done; by apply pure_read_on_tlsf, Hs || apply pure_read_on_tlsf, Hl.
Qed.

End Threads.

Arguments thread Source : clear implicits.
Arguments Conc {Mx} Source.
Arguments mkConc {Mx Source} glob threads held.

Section ThreadLists.
Context {Source : Type}.
#[local] Abbreviation thread := (thread Source).

(** Replacing a thread. *)
Lemma threads_split (ths : list thread) t th :
  ths !! t = Some th -> exists rest, ths ≡ₚ th :: rest /\ forall th', <[t := th']> ths ≡ₚ th' :: rest.
Proof.
  intros Ht. exists (take t ths ++ drop (S t) ths). split.
  - rewrite <- (take_drop_middle _ _ _ Ht) at 1. solve_Permutation.
  - intros th'. assert (Hlt : (t < length ths)%nat) by by eapply lookup_lt_Some.
    rewrite insert_take_drop by done. solve_Permutation.
Qed.

#[export] Instance pending_perm : Proper ((≡ₚ) ==> (≡ₚ)) (pending (Source := Source)).
Proof. intros ths ths' HP. unfold pending. by rewrite HP. Qed.

#[export] Instance inside_perm : Proper ((≡ₚ) ==> (=)) (inside (Source := Source)).
Proof. intros ths ths' HP. unfold inside. by rewrite HP. Qed.

Lemma inside_cons (th : thread) ths : inside (th :: ths) = ((if in_cs th then 1 else 0) + inside ths)%nat.
Proof. unfold inside. rewrite filter_cons. by destruct (in_cs th). Qed.

(** Two threads inside are two. *)
Lemma inside_two (ths : list thread) t t' th th' :
  ths !! t = Some th -> ths !! t' = Some th' -> in_cs th = true -> in_cs th' = true -> t <> t' -> (2 <= inside ths)%nat.
Proof.
  intros Ht Ht' Hc Hc' Hne. destruct (threads_split ths t th Ht) as (rest & HP & Hins).
  assert (Hidle : <[t := Idle]> ths !! t' = Some th') by (rewrite list_lookup_insert_ne; done).
  destruct (threads_split _ t' th' Hidle) as (rest' & HP' & _). specialize (Hins Idle).
  assert (E : inside ths = S (inside (<[t := Idle]> ths))) by (rewrite (inside_perm _ _ Hins), (inside_perm _ _ HP), !inside_cons, Hc; done).
  rewrite HP', inside_cons, Hc' in E. lia.
Qed.

Lemma inside_pos (ths : list thread) : (0 < inside ths)%nat -> exists t th, ths !! t = Some th /\ in_cs th = true.
Proof.
  unfold inside. destruct (filter _ ths) as [|th l] eqn:E; simpl; [lia|]. intros _.
  assert (Hin : th ∈ filter (fun th => in_cs th = true) ths) by (rewrite E; left).
  apply list_elem_of_filter in Hin as [Hc [t Ht]%list_elem_of_lookup]. by exists t, th.
Qed.

End ThreadLists.

Section ThreadProofs.
Context {T : Target} {P : TlsfParams} {Pok : ParamsOk P} {B : Build} {O : GlobalTlsfOptions} {Mx : Mutex} {Mex : MutexExcl}.
Context {Source : Type} {FS : FlexSource Source} {FSok : FlexSourceOk Source}.
#[local] Abbreviation F := (FlexTlsf Source).
#[local] Abbreviation thread := (thread Source).

(** The lock invariant: the allocations of the allocator are the client's and
    those of the pending calls, and the mutex is locked exactly when one
    thread is inside. *)
Record conc_inv (x : Conc Source) : Prop := {
  ci_heap : exists Ps L, FInv (inner (glob x)) Ps L /\ live Ps ≡ₚ held x ++ pending (threads x);
  ci_mutex : inside (threads x) = (if mutex_locked (mutex (glob x)) then 1 else 0)%nat;
  ci_ok : Forall thread_ok (threads x)
}.

(** [n] idle threads and a fresh allocator. *)
Definition conc_init (n : nat) (src : Source) : Conc Source := mkConc (GlobalTlsf_new src) (replicate n Idle) [].

Definition conc_reachable (x : Conc Source) : Prop := exists n src, Owns src [] /\ rtc conc_step (conc_init n src) x.

Lemma conc_init_inv n src : Owns src [] -> conc_inv (conc_init n src).
Proof.
  intros Ho. assert (Hp : pending (Source := Source) (replicate n Idle) = []) by (induction n as [|n IH]; [done|exact IH]).
  assert (Hi : inside (Source := Source) (replicate n Idle) = 0%nat) by (clear Hp; induction n as [|n IH]; [done|exact IH]).
  split; simpl; [|by rewrite mutex_new_unlocked|by apply Forall_replicate].
  exists [], []. split; [by apply FlexTlsf_new_inv|by rewrite Hp].
Qed.

(** The allocations are now [l'] and [rest], which did not change. *)
Definition turned (f f' : F) (l' rest : list alloc) : Prop :=
  exists Ps' L', FInv f' Ps' L' /\ live Ps' ≡ₚ l' ++ rest /\ kept f f' rest.

Lemma refused_turned f f' Ps L l rest : refused f f' Ps L -> live Ps ≡ₚ l ++ rest -> turned f f' l rest.
Proof. intros (_ & E & HF) HL. exists Ps, L. split_and!; [done|done|]. intros al y _ _. unfold flex_mem. by rewrite E. Qed.

Lemma allocated_turned f f' Ps al rest : flex_allocated f f' Ps al -> live Ps ≡ₚ rest -> turned f f' [al] rest.
Proof.
  intros (Ps' & L' & HF & Hl & Hk) HL. exists Ps', L'. split_and!; [done|by rewrite Hl, HL|].
  eapply kept_fewer; [|exact Hk]. by rewrite HL.
Qed.

Lemma freed_turned f f' Ps L al rest : flex_freed f f' Ps L al -> live Ps ≡ₚ al :: rest -> turned f f' [] rest.
Proof.
  intros (Ps' & HF & Hl & Hk) HL.
  assert (HP : live Ps' ≡ₚ rest) by (apply (Permutation_cons_inv (a := al)); by rewrite <- Hl).
  exists Ps', L. split_and!; [done|done|]. eapply kept_fewer; [|exact Hk]. by rewrite HP.
Qed.

Lemma realloced_turned f f' Ps al al' rest : flex_realloced f f' Ps al al' -> live Ps ≡ₚ al :: rest -> turned f f' [al'] rest.
Proof.
  intros (Ps' & L' & others & HF & Ho & Hl & Hk & _) HL.
  assert (HP : others ≡ₚ rest) by (apply (Permutation_cons_inv (a := al)); by rewrite <- Ho).
  exists Ps', L'. split_and!; [done|by rewrite Hl, HP|]. eapply kept_fewer; [|exact Hk]. by rewrite HP.
Qed.

Context (Hdebug : debug_assertions = true -> never_grows \/ exact).

(** The one access of a method that locks: it takes what the call was given and
    gives what it says, and the mutex is unlocked next. *)
Definition locked_body (p : method F Z) (f : F) (Q : Z -> F -> Prop) : Prop :=
  match p with
  | Lock (Access b k) => wp b f (fun r f' => exists v, k r = Unlock (Return v) /\ Q v f')
  | _ => False
  end.

(** The pointer of an allocation is not null. *)
Lemma turned_ptr f f' ptr align sz rest : turned f f' [mkAlloc ptr align sz] rest -> ptr <> 0.
Proof.
  intros (Ps & L & HF & HL & _). pose proof (live_usable _ _ (fi_inv _ _ _ HF)) as Hu. rewrite HL in Hu.
  apply Forall_cons in Hu as [[_ _ Hn _ _] _]. simpl in Hn. lia.
Qed.

(** What the two kinds of bodies that return a pointer give. *)
Lemma alloc_turned l f Ps L rest :
  FInv f Ps L -> layout_ok l -> live Ps ≡ₚ rest ->
  wp (FlexTlsf_allocate l) f (fun r f' => turned f f' (gives (CallAlloc l) (null_or r)) rest).
Proof.
  intros HF Hl HR. eapply (FlexTlsf_allocate_spec Hdebug); [exact HF|done| |].
  - intros src Ho _ _. eapply refused_turned; [by apply refused_source|done].
  - intros ptr f' Ha. assert (Ht : turned f f' [mkAlloc ptr (l_align l) (l_size l)] rest) by by eapply allocated_turned.
    simpl. rewrite decide_False; [exact Ht|]. by eapply turned_ptr.
Qed.

Lemma realloc_turned body al align n f Ps L rest :
  wp body f (fun r f' =>
    match r with Some ptr => flex_realloced f f' Ps al (mkAlloc ptr align n) | None => refused f f' Ps L end) ->
  live Ps ≡ₚ al :: rest ->
  wp body f (fun r f' => turned f f' (if decide (null_or r = 0) then [al] else [mkAlloc (null_or r) align n]) rest).
Proof.
  intros Hb HR. eapply wp_mono; [exact Hb|]. intros [ptr|] f' Hr; [|by eapply refused_turned].
  assert (Ht : turned f f' [mkAlloc ptr align n] rest) by by eapply realloced_turned.
  simpl. rewrite decide_False; [exact Ht|]. by eapply turned_ptr.
Qed.

Lemma gmethod_spec c f Ps L rest :
  locking c = true -> FInv f Ps L -> gcall_ok c -> live Ps ≡ₚ takes c ++ rest ->
  locked_body (gmethod c) f (fun v f' => turned f f' (gives c v) rest).
Proof.
  intros Hlk HF Hok HL.
  assert (Hin : forall al, takes c = [al] -> al ∈ live Ps) by (intros al E; rewrite HL, E; set_solver).
  destruct c as [l|al|al n|l|al|al l|al]; try discriminate; simpl in Hok, HL; cbn;
    (eapply wp_mono; [|intros r f' Ht; eexists; split; [reflexivity|exact Ht]]).
  - by eapply alloc_turned.
  - eapply wp_mono; [apply (FlexTlsf_deallocate_spec _ Ps L al HF), Hin; done|]. intros [] f' Hf. by eapply freed_turned.
  - eapply realloc_turned; [apply (realloc_body_spec Hdebug _ Ps L al n HF); [by apply Hin|done]|done].
  - by eapply alloc_turned.
  - eapply wp_mono; [apply (FlexTlsf_deallocate_unknown_spec _ Ps L al HF), Hin; done|]. intros [] f' Hf. by eapply freed_turned.
  - eapply realloc_turned; [apply (reallocate_body_spec Hdebug _ Ps L al l HF); [by apply Hin|done]|done].
Qed.

(** What a thread finds. *)
Lemma conc_heap x t th :
  conc_inv x -> threads x !! t = Some th ->
  exists Ps L rest, FInv (inner (glob x)) Ps L /\ threads x ≡ₚ th :: rest /\
    (forall th', <[t := th']> (threads x) ≡ₚ th' :: rest) /\
    live Ps ≡ₚ thread_allocs th ++ held x ++ pending rest /\ thread_ok th /\
    ((if in_cs th then 1 else 0) + inside rest)%nat = (if mutex_locked (mutex (glob x)) then 1 else 0)%nat.
Proof.
  intros [(Ps & L & HF & HL) Hm Hok] Ht. destruct (threads_split _ _ _ Ht) as (rest & HP & Hins). exists Ps, L, rest.
  split_and!; [done|done|done| | |].
  - rewrite HL, (pending_perm _ _ HP). unfold pending. simpl. solve_Permutation.
  - rewrite HP in Hok. by apply Forall_cons in Hok as [? _].
  - by rewrite <- Hm, (inside_perm _ _ HP), inside_cons.
Qed.

(** Replacing the state of one thread. *)
Lemma conc_inv_set x t th th' g A Ps L rest :
  conc_inv x -> threads x ≡ₚ th :: rest -> (forall th', <[t := th']> (threads x) ≡ₚ th' :: rest) ->
  FInv (inner g) Ps L -> live Ps ≡ₚ thread_allocs th' ++ A ++ pending rest -> thread_ok th' ->
  ((if in_cs th' then 1 else 0) + inside rest)%nat = (if mutex_locked (mutex g) then 1 else 0)%nat ->
  conc_inv (mkConc g (<[t := th']> (threads x)) A).
Proof.
  intros Hi HP Hins HF HL Hok Hm. split; simpl.
  - exists Ps, L. split; [done|]. rewrite HL, (pending_perm _ _ (Hins th')). unfold pending. simpl. solve_Permutation.
  - by rewrite (inside_perm _ _ (Hins th')), inside_cons.
  - rewrite (Hins th'). pose proof (ci_ok _ Hi) as H. rewrite HP in H. apply Forall_cons in H as [_ H]. by constructor.
Qed.

(** *** The actions of a thread *)

(** Getting in: the access follows. *)
Lemma lock_act_inv x t c k p' g :
  conc_inv x -> threads x !! t = Some (Running c (Lock k)) -> act (Lock k) (glob x) = Ok (p', g) ->
  conc_inv (set_thread t (Running c p') (set_glob g x)).
Proof.
  intros Hi Ht Ha. destruct (conc_heap x t _ Hi Ht) as (Ps & L & rest & HF & HP & Hins & HL & [Hok Hst] & Hm).
  destruct (locking c) eqn:Hlk; [|done]. simpl in Ha. destruct (mutex_locked (mutex (glob x))) eqn:Hmx.
  { by rewrite (mutex_lock_locked _ Hmx) in Ha. }
  destruct (mutex_lock_unlocked _ Hmx) as (m' & E & Hm'). rewrite E in Ha. injection Ha as <- <-.
  pose proof (gmethod_spec c _ Ps L _ Hlk HF Hok HL) as Hb. rewrite <- Hst in Hb. simpl in Hb.
  destruct k as [| | |X b k']; [done..|].
  eapply (conc_inv_set x t); [done|done|done|exact HF|exact HL| |].
  - split; [done|]. by rewrite Hlk.
  - simpl in *. rewrite Hlk, Hm'. lia.
Qed.

(** The access of a thread that is inside. *)
Lemma inside_access x t c X (b : M F X) k :
  conc_inv x -> threads x !! t = Some (Running c (Access b k)) -> locking c = true ->
  exists v f, act (Access b k) (glob x) = Ok (Unlock (Return v), mkGlobal f (mutex (glob x))) /\
    conc_inv (set_thread t (Running c (Unlock (Return v))) (set_glob (mkGlobal f (mutex (glob x))) x)).
Proof.
  intros Hi Ht Hlk. destruct (conc_heap x t _ Hi Ht) as (Ps & L & rest & HF & HP & Hins & HL & [Hok Hst] & Hm).
  rewrite Hlk in Hst. pose proof (gmethod_spec c _ Ps L _ Hlk HF Hok HL) as Hb. rewrite Hst in Hb. simpl in Hb.
  destruct Hb as (r & f & E & v & Ek & Ps' & L' & HF' & HL' & _). exists v, f. simpl. rewrite E, Ek. split; [done|].
  eapply (conc_inv_set x t); [done|done|done|exact HF'|exact HL'| |].
  - split; [done|]. by rewrite Hlk.
  - simpl in *. by rewrite Hlk in Hm.
Qed.

(** A read without the lock. *)
Lemma read_act_inv x t c X (b : M F X) k p' g :
  conc_inv x -> threads x !! t = Some (Running c (Access b k)) -> locking c = false ->
  act (Access b k) (glob x) = Ok (p', g) -> conc_inv (set_thread t (Running c p') (set_glob g x)).
Proof.
  intros Hi Ht Hlk Ha. destruct (conc_heap x t _ Hi Ht) as (Ps & L & rest & HF & HP & Hins & HL & [Hok Hst] & Hm).
  rewrite Hlk in Hst. destruct Hst as [Hb Hk]. simpl in Ha. destruct (b (inner (glob x))) as [[r f]|] eqn:E; [|discriminate].
  injection Ha as <- <-. apply Hb in E as ->.
  assert (Hal : thread_allocs (Running c (k r)) = takes c).
  { destruct c; try discriminate. specialize (Hk r). simpl. destruct (k r) as [| |[]|]; done. }
  eapply (conc_inv_set x t); [done|done|done|exact HF|by rewrite Hal| |].
  - split; [done|]. rewrite Hlk. apply Hk.
  - simpl in *. rewrite Hlk in Hm. rewrite <- Hm. specialize (Hk r). by destruct (k r); simpl; rewrite ?Hlk.
Qed.

(** Coming out. *)
Lemma unlock_act x t c k :
  conc_inv x -> threads x !! t = Some (Running c (Unlock k)) ->
  exists v m, k = Return v /\ act (Unlock k) (glob x) = Ok (Return v, mkGlobal (inner (glob x)) m) /\ mutex_locked m = false /\
    conc_inv (set_thread t (Running c (Return v)) (set_glob (mkGlobal (inner (glob x)) m) x)).
Proof.
  intros Hi Ht. destruct (conc_heap x t _ Hi Ht) as (Ps & L & rest & HF & HP & Hins & HL & [Hok Hst] & Hm).
  destruct (locking c) eqn:Hlk; [|done]. destruct k as [v| | |]; [|done..]. simpl in Hm.
  destruct (mutex_locked (mutex (glob x))) eqn:Hmx; [|lia]. destruct (mutex_unlock_locked _ Hmx) as (m & E & Hm').
  exists v, m. simpl. rewrite E. split_and!; [done|done|done|].
  eapply (conc_inv_set x t); [done|done|done|exact HF|exact HL| |].
  - split; [done|]. by rewrite Hlk.
  - simpl. rewrite Hm'. lia.
Qed.

Lemma conc_step_inv x y : conc_inv x -> conc_step x y -> conc_inv y.
Proof.
  intros Hi Hs. destruct Hs as [t c A Ht Hok HA|t c p p' g Ht Ha|t c r Ht|al m' Hal Hw].
  - destruct (conc_heap x t _ Hi Ht) as (Ps & L & rest & HF & HP & Hins & HL & _ & Hm).
    assert (Hcs : in_cs (Running c (gmethod c)) = false) by by destruct c.
    eapply (conc_inv_set x t); [done|done|done|exact HF| | |by rewrite Hcs].
    + simpl in HL. rewrite HL, HA, <- app_assoc. by destruct c.
    + split; [done|]. destruct c; try done. apply usable_size_reads_only.
  - destruct p as [r|k|k|X b k].
    + injection Ha as <- <-. destruct (conc_heap x t _ Hi Ht) as (Ps & L & rest & HF & HP & Hins & HL & Hok & Hm).
      by eapply (conc_inv_set x t).
    + by eapply lock_act_inv.
    + destruct (unlock_act x t c k Hi Ht) as (v & m & -> & E & _ & Hi'). rewrite E in Ha. by injection Ha as <- <-.
    + destruct (locking c) eqn:Hlk; [|by eapply read_act_inv].
      destruct (inside_access x t c X b k Hi Ht Hlk) as (v & f & E & Hi'). rewrite E in Ha. by injection Ha as <- <-.
  - destruct (conc_heap x t _ Hi Ht) as (Ps & L & rest & HF & HP & Hins & HL & _ & Hm).
    eapply (conc_inv_set x t); [done|done|done|exact HF| |done|exact Hm]. simpl in *. by rewrite HL, <- app_assoc.
  - destruct Hi as [(Ps & L & HF & HL) Hm Hok]. split; simpl; [|done|done]. exists Ps, L. split; [|done].
    assert (Hin : al ∈ live Ps) by (rewrite HL; set_solver). apply elem_of_Permutation_cons in Hin as [others Ho].
    eapply FInv_post; [exact HF|]. eapply (payload_post _ _ al); [apply HF|exact Ho|exact Hw].
Qed.

Lemma rtc_inv x y : conc_inv x -> rtc conc_step x y -> conc_inv y.
Proof. intros Hi Hr. induction Hr as [|x y z Hxy _ IH]; [done|]. apply IH. by eapply conc_step_inv. Qed.

Lemma conc_reachable_inv x : conc_reachable x -> conc_inv x.
Proof. intros (n & src & Ho & Hr). eapply rtc_inv; [by apply conc_init_inv|exact Hr]. Qed.

(** *** Progress *)

(** The thread [t] returned, and the mutex is free. *)
Definition left_by (x y : Conc Source) (t : nat) : Prop :=
  rtc conc_step x y /\ threads y = <[t := Idle]> (threads x) /\ mutex_locked (mutex (glob y)) = false.

Lemma unlock_steps x t c k :
  conc_inv x -> threads x !! t = Some (Running c (Unlock k)) -> exists y, left_by x y t.
Proof.
  intros Hi Ht. destruct (unlock_act x t c k Hi Ht) as (v & m & -> & Ea & Hm & _).
  assert (Hlt : (t < length (threads x))%nat) by by eapply lookup_lt_Some.
  eexists. split; [eapply rtc_l; [by eapply (conc_act x t)|apply rtc_once; eapply (conc_return _ t c v); by apply list_lookup_insert_eq]|].
  split; [|exact Hm]. simpl. apply list_insert_insert_eq.
Qed.

(** A thread inside comes out. *)
Lemma leave x t th :
  conc_inv x -> threads x !! t = Some th -> in_cs th = true -> exists y, left_by x y t.
Proof.
  intros Hi Ht Hc. destruct th as [|c [r|k|k|X b k]]; try discriminate; [by eapply unlock_steps|].
  destruct (inside_access x t c X b k Hi Ht Hc) as (v & f & E & Hi').
  assert (Hlt : (t < length (threads x))%nat) by by eapply lookup_lt_Some.
  destruct (unlock_steps _ t c (Return v) Hi') as (y & Hr & Ey & Em); [by apply list_lookup_insert_eq|].
  exists y. split_and!; [eapply rtc_l; [by eapply (conc_act x t)|exact Hr]| |exact Em]. rewrite Ey. apply list_insert_insert_eq.
Qed.

(** A thread that waits for a free mutex gets in and comes out. *)
Lemma enter x t c k :
  conc_inv x -> threads x !! t = Some (Running c (Lock k)) -> mutex_locked (mutex (glob x)) = false ->
  exists y, left_by x y t.
Proof.
  intros Hi Ht Hm. assert (Hlt : (t < length (threads x))%nat) by by eapply lookup_lt_Some.
  destruct (mutex_lock_unlocked _ Hm) as (m' & E & _).
  assert (Ha : act (Lock k) (glob x) = Ok (k, mkGlobal (inner (glob x)) m')) by (simpl; by rewrite E).
  pose proof (lock_act_inv x t c k _ _ Hi Ht Ha) as Hi'. set (x1 := set_thread t (Running c k) (set_glob _ x)) in *.
  assert (Ht1 : threads x1 !! t = Some (Running c k)) by by apply list_lookup_insert_eq.
  assert (Hc : in_cs (Running c k) = true).
  { destruct (conc_heap x t _ Hi Ht) as (Ps & L & rest & HF & _ & _ & HL & [Hok Hst] & _).
    destruct (locking c) eqn:Hlk; [|done]. pose proof (gmethod_spec c _ Ps L _ Hlk HF Hok HL) as Hb. rewrite <- Hst in Hb.
    by destruct k. }
  destruct (leave x1 t _ Hi' Ht1 Hc) as (y & Hr & Ey & Em). exists y.
  split_and!; [eapply rtc_l; [by eapply (conc_act x t)|exact Hr]| |exact Em]. rewrite Ey. apply list_insert_insert_eq.
Qed.

Lemma left_idle x y t th : threads x !! t = Some th -> left_by x y t -> threads y !! t = Some Idle.
Proof. intros Ht (_ & -> & _). apply list_lookup_insert_eq. by eapply lookup_lt_Some. Qed.

Lemma progress x t c p :
  conc_inv x -> threads x !! t = Some (Running c p) -> locking c = true ->
  exists y, rtc conc_step x y /\ threads y !! t = Some Idle.
Proof.
  intros Hi Ht Hlk. assert (Hlt : (t < length (threads x))%nat) by by eapply lookup_lt_Some.
  destruct (in_cs (Running c p)) eqn:Hc.
  { destruct (leave x t _ Hi Ht Hc) as (y & Hy). exists y. split; [apply Hy|by eapply left_idle]. }
  destruct p as [r|k|k|X b k]; [| |discriminate|by simpl in Hc; congruence].
  { eexists. split; [apply rtc_once; by eapply (conc_return x t)|]. by apply list_lookup_insert_eq. }
  destruct (mutex_locked (mutex (glob x))) eqn:Hm.
  2: { destruct (enter x t c k Hi Ht Hm) as (y & Hy). exists y. split; [apply Hy|by eapply left_idle]. }
  destruct (inside_pos (threads x)) as (t' & th' & Ht' & Hc'); [rewrite (ci_mutex _ Hi), Hm; lia|].
  destruct (leave x t' th' Hi Ht' Hc') as (y & Hr & Ey & Em).
  assert (Ht2 : threads y !! t = Some (Running c (Lock k))).
  { rewrite Ey, list_lookup_insert_ne; [done|]. intros ->. rewrite Ht in Ht'. by injection Ht' as <-. }
  destruct (enter y t c k) as (z & Hz); [by eapply rtc_inv|done|done|].
  exists z. split; [etrans; [exact Hr|apply Hz]|by eapply left_idle].
Qed.

End ThreadProofs.

(** ** Properties *)

Section ThreadProperties.
Context {T : Target} {P : TlsfParams} {Pok : ParamsOk P} {B : Build} {O : GlobalTlsfOptions} {Mx : Mutex} {Mex : MutexExcl}.
Context {Source : Type} {FS : FlexSource Source} {FSok : FlexSourceOk Source}.
Context (Hdebug : debug_assertions = true -> never_grows \/ exact).

(** C6: Threads that share a [GlobalTlsf] and run its methods action by action,
    in any interleaving.  The methods that lock do not race: two threads are
    never both about to use the allocator, and the one that is holds the
    mutex and its use of the allocator returns.  The allocations of all
    clients and pending calls are aligned, in mapped memory and pairwise
    disjoint. *)
Theorem threads_safe (x : Conc Source) :
  conc_reachable x ->
  (forall t t' c c' p p', threads x !! t = Some (Running c p) -> threads x !! t' = Some (Running c' p') ->
     locking c = true -> locking c' = true -> accessing p = true -> accessing p' = true -> t = t') /\
  (forall t c p, threads x !! t = Some (Running c p) -> locking c = true -> accessing p = true ->
     mutex_locked (mutex (glob x)) = true /\ exists p' g, act p (glob x) = Ok (p', g)) /\
  Forall (usable_alloc (get_mem (glob x))) (held x ++ pending (threads x)) /\
  ForallOrdPairs apart (held x ++ pending (threads x)).
Proof.
  intros Hi%(conc_reachable_inv Hdebug).
  assert (Hcs : forall c p, locking c = true -> accessing p = true -> in_cs (Source := Source) (Running c p) = true) by (intros c [] Hl Ha; done).
  split_and!.
  - intros t t' c c' p p' Ht Ht' Hl Hl' Ha Ha'. destruct (decide (t = t')) as [|Hne]; [done|].
    pose proof (inside_two _ _ _ _ _ Ht Ht' (Hcs _ _ Hl Ha) (Hcs _ _ Hl' Ha') Hne) as H2. rewrite (ci_mutex _ Hi) in H2.
    destruct (mutex_locked _); lia.
  - intros t c p Ht Hl Ha. split.
    + destruct (conc_heap x t _ Hi Ht) as (_ & _ & rest & _ & _ & _ & _ & _ & Hm). rewrite Hcs in Hm by done.
      by destruct (mutex_locked _).
    + destruct p as [| | |X b k]; try discriminate. destruct (inside_access Hdebug x t c X b k Hi Ht Hl) as (v & f & E & _).
      by eexists _, _.
  - destruct Hi as [(Ps & L & HF & HL) _ _]. rewrite <- HL. apply live_usable, HF.
  - destruct Hi as [(Ps & L & HF & HL) _ _]. eapply ForallOrdPairs_perm; [apply _|exact HL|]. apply live_apart, HF.
Qed.

(** C14: No thread is stuck: from every reachable state, whoever holds the
    mutex, a thread that is in a call that locks can be run to the end of it:
    every method that locks the mutex unlocks it. *)
Theorem threads_progress (x : Conc Source) t c p :
  conc_reachable x -> threads x !! t = Some (Running c p) -> locking c = true ->
  exists y, rtc conc_step x y /\ threads y !! t = Some Idle.
Proof. intros Hi%(conc_reachable_inv Hdebug) Ht Hl. by eapply (progress Hdebug). Qed.

End ThreadProperties.

(** The rest of a method after one action. *)
Lemma steps_after {T : Target} {P : TlsfParams} {B : Build} {O : GlobalTlsfOptions} {Mx : Mutex} {Source : Type} {FS : FlexSource Source}
    (p p' : method (FlexTlsf Source) Z) (x : Conc Source) t c r g1 g :
  threads x !! t = Some (Running c p) -> act p (glob x) = Ok (p', g1) -> run p' g1 = Ok (r, g) ->
  (forall x', threads x' !! t = Some (Running c p') -> run p' (glob x') = Ok (r, g) ->
     exists y, rtc conc_step x' y /\ glob y = g /\ threads y = <[t := Running c (Return r)]> (threads x') /\ held y = held x') ->
  exists y, rtc conc_step x y /\ glob y = g /\ threads y = <[t := Running c (Return r)]> (threads x) /\ held y = held x.
Proof.
  intros Ht Ha Hr IH. assert (Hlt : (t < length (threads x))%nat) by by eapply lookup_lt_Some.
  destruct (IH (set_thread t (Running c p') (set_glob g1 x))) as (y & Hs & Eg & Et & Eh); [by apply list_lookup_insert_eq|done|].
  exists y. split_and!; [eapply rtc_l; [by eapply conc_act|exact Hs]|done| |done]. rewrite Et. apply list_insert_insert_eq.
Qed.

(** A method with nothing in between, [run], is one of the interleavings. *)
Lemma run_steps {T : Target} {P : TlsfParams} {B : Build} {O : GlobalTlsfOptions} {Mx : Mutex} {Source : Type} {FS : FlexSource Source}
    (p : method (FlexTlsf Source) Z) (x : Conc Source) t c r g :
  threads x !! t = Some (Running c p) -> run p (glob x) = Ok (r, g) ->
  exists y, rtc conc_step x y /\ glob y = g /\ threads y = <[t := Running c (Return r)]> (threads x) /\ held y = held x.
Proof.
  revert x. induction p as [v|k IH|k IH|X b k IH]; intros x Ht Hr.
  - injection Hr as <- <-. exists x. split_and!; [apply rtc_refl|done|by rewrite list_insert_id|done].
  - cbn in Hr. unfold mbind, M_bind, on_mutex in Hr. destruct (mutex_lock (mutex (glob x))) as [[[] m]|] eqn:E; [|discriminate].
    eapply steps_after; [exact Ht|by simpl; rewrite E|exact Hr|exact IH].
  - cbn in Hr. unfold mbind, M_bind, on_mutex in Hr. destruct (mutex_unlock (mutex (glob x))) as [[[] m]|] eqn:E; [|discriminate].
    eapply steps_after; [exact Ht|by simpl; rewrite E|exact Hr|exact IH].
  - cbn in Hr. unfold mbind, M_bind, on_inner in Hr. destruct (b (inner (glob x))) as [[v f]|] eqn:E; [|discriminate].
    eapply steps_after; [exact Ht|by simpl; rewrite E|exact Hr|exact (IH v)].
Qed.

(** A call of one thread with nothing in between. *)
Lemma call_steps {T : Target} {P : TlsfParams} {B : Build} {O : GlobalTlsfOptions} {Mx : Mutex} {Source : Type} {FS : FlexSource Source}
    (x : Conc Source) t c A r g :
  threads x !! t = Some Idle -> gcall_ok c -> held x ≡ₚ takes c ++ A -> run (gmethod c) (glob x) = Ok (r, g) ->
  rtc conc_step x (mkConc g (threads x) (gives c r ++ A)).
Proof.
  intros Ht Hok HA Hr. assert (Hlt : (t < length (threads x))%nat) by by eapply lookup_lt_Some.
  eapply rtc_l; [by eapply (conc_call x t c A)|].
  destruct (run_steps (gmethod c) (set_thread t (Running c (gmethod c)) (set_held A x)) t c r g) as (y & Hs & Eg & Et & Eh);
    [by apply list_lookup_insert_eq|done|].
  eapply rtc_r; [exact Hs|]. simpl in Et, Eh. rewrite list_insert_insert_eq in Et. destruct y as [gy ty hy]. simpl in *. subst.
  replace (threads x) with (<[t := Idle]> (<[t := Running c (Return r)]> (threads x))) at 2
    by (by rewrite list_insert_insert_eq, list_insert_id).
  apply (conc_return (mkConc g (<[t := Running c (Return r)]> (threads x)) A) t c r). by apply list_lookup_insert_eq.
Qed.
