(* ===== verification/Override.v ===== *)
(** * rlsf_override: the C allocation functions

    [malloc] and its family, and the C++ operators, over any implementation of
    [CAlloc]; with the instance of [GlobalTlsf] this is the library that
    replaces the C allocator.  A C client is a transition system over the
    blocks it holds. *)

From S2P Require Import Prelude Usize BinInteger SizeClass Machine Header FreeIndex Pool Region Alloc Dealloc Insert Realloc System Flex FlexInv FlexGrow FlexSpec GlobalAlloc Sources Global.

(** ** The target *)

Inductive target_arch :=
  | x86 | arm | mips | powerpc | powerpc64 | sparc | asmjs | wasm32 | hexagon | riscv32
  | x86_64 | aarch64 | mips64 | s390x | sparc64 | riscv64.

(** What the C library is asked for. *)
Class Libc := { sysconf_page_size : Z; ENOMEM : Z; the_arch : target_arch }.

Section Override.
Context {T : Target} {C : Libc} {G : Type} {HM : HasMem G} {CA : CAlloc G}.

Definition MIN_ALIGN : Z :=
  match the_arch with
  | x86 | arm | mips | powerpc | powerpc64 | sparc | asmjs | wasm32 | hexagon | riscv32 => 8
  | x86_64 | aarch64 | mips64 | s390x | sparc64 | riscv64 => 16
  end.

(** Writing through a pointer of the client. *)
Definition on_mem (f : Mem -> Res Mem) : M G unit := fun g =>
  match f (get_mem g) with Ok m => Ok (tt, put_mem g m) | Fail e => Fail e end.

Definition aligned_alloc (alignment size : Z) : M G Z :=
  match from_size_align size alignment with
  | Some layout => r ← CAlloc_allocate layout; mret (default 0 r)
  | None => mret 0
  end.

Definition malloc (size : Z) : M G Z := aligned_alloc MIN_ALIGN size.

Definition malloc_usable_size (p : Z) : M G Z :=
  if p =? 0 then mret 0 else CAlloc_allocation_usable_size p.

Definition page_size : Z := sysconf_page_size.

Definition valloc (size : Z) : M G Z := aligned_alloc page_size size.

Definition pvalloc (size : Z) : M G Z :=
  page_size_m1 ← lift (usub page_size 1);
  match checked_add size page_size_m1 with
  | Some x => aligned_alloc page_size (Z.land x (usize_not page_size_m1))
  | None => mret 0
  end.

Definition calloc (number size : Z) : M G Z :=
  match checked_mul size number with
  | None => mret 0
  | Some len =>
      match from_size_align len MIN_ALIGN with
      | None => mret 0
      | Some layout =>
          r ← CAlloc_allocate layout;
          match r with
          | Some ptr => on_mem (fun m => write_bytes_mem m ptr Byte.x00 (l_size layout));; mret ptr
          | None => mret 0
          end
      end
  end.

Definition posix_memalign (out_ptr alignment size : Z) : M G Z :=
  ptr ← aligned_alloc alignment size;
  lift (if negb (out_ptr =? 0) && (out_ptr mod WORD =? 0) then Ok tt else Fail Misaligned);;
  on_mem (fun m => store_word m out_ptr ptr);;
  mret (if ptr =? 0 then ENOMEM else 0).

Definition memalign (alignment size : Z) : M G Z := aligned_alloc alignment size.

Definition realloc (ptr size : Z) : M G Z :=
  if ptr =? 0 then malloc size
  else
    match from_size_align size MIN_ALIGN with
    | Some layout => r ← CAlloc_reallocate ptr layout; mret (default 0 r)
    | None => mret 0
    end.

Definition free (ptr : Z) : M G unit :=
  if ptr =? 0 then mret tt else CAlloc_deallocate ptr.

(** *** C++ *)

Definition cpp_new_impl (size align : Z) (is_noexcept : bool) : M G Z :=
  ptr ← (if align =? 0 then malloc size else aligned_alloc align size);
  if negb is_noexcept && (ptr =? 0) then lift (Fail Panicked) else mret ptr.

(** [operator delete] and [operator delete[]]; the other arguments are
    ignored. *)
Definition _ZdaPvmSt11align_val_t (p size align : Z) : M G unit := free p.
Definition _ZdaPvSt11align_val_tRKSt9nothrow_t (p align nothrow : Z) : M G unit := free p.
Definition _ZdaPvSt11align_val_t (p align : Z) : M G unit := free p.
Definition _ZdlPvmSt11align_val_t (p size align : Z) : M G unit := free p.
Definition _ZdlPvSt11align_val_tRKSt9nothrow_t (p align nothrow : Z) : M G unit := free p.
Definition _ZdlPvSt11align_val_t (p align : Z) : M G unit := free p.
Definition _ZdaPvm (p size : Z) : M G unit := free p.
Definition _ZdlPvm (p size : Z) : M G unit := free p.
Definition _ZdaPvRKSt9nothrow_t (p nothrow : Z) : M G unit := free p.
Definition _ZdlPvRKSt9nothrow_t (p nothrow : Z) : M G unit := free p.
Definition _ZdaPv (p : Z) : M G unit := free p.
Definition _ZdlPv (p : Z) : M G unit := free p.

(** [operator new] and [operator new[]]. *)
Definition _ZnamSt11align_val_tRKSt9nothrow_t (size align nothrow : Z) : M G Z := cpp_new_impl size align true.
Definition _ZnamSt11align_val_t (size align : Z) : M G Z := cpp_new_impl size align false.
Definition _ZnwmSt11align_val_tRKSt9nothrow_t (size align nothrow : Z) : M G Z := cpp_new_impl size align true.
Definition _ZnwmSt11align_val_t (size align : Z) : M G Z := cpp_new_impl size align false.
Definition _ZnamRKSt9nothrow_t (size nothrow : Z) : M G Z := cpp_new_impl size 0 true.
Definition _ZnwmRKSt9nothrow_t (size nothrow : Z) : M G Z := cpp_new_impl size 0 true.
Definition _Znam (size : Z) : M G Z := cpp_new_impl size 0 false.
Definition _Znwm (size : Z) : M G Z := cpp_new_impl size 0 false.

(** ** A client *)

Record CSys := mkCSys { cstate : G; blocks : list alloc }.

(** The blocks after a call that returned [p] for a request. *)
Definition got (p align size : Z) (A : list alloc) : list alloc :=
  if decide (p = 0) then A else mkAlloc p align size :: A.

(** The functions that give a block, with the alignment and the size of it. *)
Inductive c_request : M G Z -> Z -> Z -> Prop :=
  | req_malloc size : is_usize size -> c_request (malloc size) MIN_ALIGN size
  | req_aligned_alloc alignment size : is_usize size -> c_request (aligned_alloc alignment size) alignment size
  | req_memalign alignment size : is_usize size -> c_request (memalign alignment size) alignment size
  | req_valloc size : is_usize size -> c_request (valloc size) page_size size
  | req_pvalloc size : is_usize size -> c_request (pvalloc size) page_size (round_up page_size size)
  | req_calloc number size :
      is_usize number -> is_usize size -> c_request (calloc number size) MIN_ALIGN (size * number)
  | req_realloc_null size : is_usize size -> c_request (realloc 0 size) MIN_ALIGN size
  | req_new size : is_usize size -> c_request (cpp_new_impl size 0 true) MIN_ALIGN size
  | req_new_align size align : is_usize size -> align <> 0 -> c_request (cpp_new_impl size align true) align size.

(** The calls that obey the C standard: blocks are passed back once. *)
Inductive c_call (x : CSys) : M G Z -> (Z -> G -> CSys) -> Prop :=
  | ccall_request c align size :
      c_request c align size ->
      c_call x c (fun p g' => mkCSys g' (got p align size (blocks x)))
  | ccall_realloc al A size :
      blocks x ≡ₚ al :: A -> is_usize size ->
      c_call x (realloc (a_ptr al) size) (fun p g' =>
        mkCSys g' (if decide (p = 0) then al :: A else mkAlloc p MIN_ALIGN size :: A))
  | ccall_free al A :
      blocks x ≡ₚ al :: A ->
      c_call x (free (a_ptr al);; mret 0) (fun _ g' => mkCSys g' A)
  | ccall_free_null : c_call x (free 0;; mret 0) (fun _ g' => mkCSys g' (blocks x))
  | ccall_malloc_usable_size al A :
      blocks x ≡ₚ al :: A ->
      c_call x (malloc_usable_size (a_ptr al)) (fun n g' => mkCSys g' (resize al n :: A))
  | ccall_posix_memalign al out_ptr alignment size :
      al ∈ blocks x -> a_ptr al <= out_ptr -> out_ptr + WORD <= a_ptr al + a_size al -> (WORD | out_ptr) -> is_usize size ->
      c_call x (posix_memalign out_ptr alignment size) (fun e g' =>
        mkCSys g' (match load_word (get_mem g') out_ptr with
                   | Ok p => if decide (e = 0) then got p alignment size (blocks x) else blocks x
                   | Fail _ => blocks x
                   end)).

Inductive c_step (x : CSys) : CSys -> Prop :=
  | cstep_call c k r g' : c_call x c k -> c (cstate x) = Ok (r, g') -> c_step x (k r g')
  | cstep_write al m' :
      al ∈ blocks x -> mem_step (payload al) (get_mem (cstate x)) m' ->
      c_step x (mkCSys (put_mem (cstate x) m') (blocks x)).

End Override.
Arguments CSys G : clear implicits.

(** ** Proofs, against the contract of [CAlloc] *)

Class LibcOk {T : Target} {C : Libc} : Prop := {
  page_size_pow2 : exists p, 0 <= p < USIZE_BITS /\ sysconf_page_size = 2 ^ p;
  ENOMEM_nonzero : ENOMEM <> 0
}.

Section OverrideProofs.
Context {T : Target} {C : Libc} {Cok : LibcOk} {G : Type} {HM : HasMem G} {CA : CAlloc G} {CAok : CAllocOk G}.

Lemma from_size_align_ok size align l :
  0 <= size -> from_size_align size align = Some l -> l = mkLayout size align /\ layout_ok l.
Proof.
  intros Hs. unfold from_size_align. destruct (is_power_of_two align) eqn:E; [|discriminate].
  apply is_power_of_two_spec in E as (k & Hk & ->). simpl. destruct (Z.leb_spec size (ISIZE_MAX - (2 ^ k - 1))) as [Hle|]; [|discriminate].
  intros [= <-]. split; [done|]. unfold ISIZE_MAX in Hle. pose proof (pow2_pos k). pose proof USIZE_BITS_cases.
  assert (E : USIZE_MOD = 2 * 2 ^ (USIZE_BITS - 1)) by (unfold USIZE_MOD; rewrite <- pow2_succ by lia; f_equal; lia).
  split; [unfold is_usize; cbn [l_size]; lia|]. exists k. split; [|done]. split; [done|].
  destruct (Z.lt_ge_cases k USIZE_BITS); [done|]. pose proof (pow2_lt (USIZE_BITS - 1) k). lia.
Qed.

Lemma kept_refl g A : payload_kept g g A.
Proof. by intros al x _ _. Qed.

Lemma heap_nonnull g al A : Heap g (al :: A) -> a_ptr al <> 0.
Proof. intros Hh. destruct (heap_usable _ _ Hh) as [[[_ _ Hn _ _] _]%Forall_cons _]. lia. Qed.

(** A request is refused, or gives one more block and leaves the others. *)
Definition obtained (g : G) (A : list alloc) (align size p : Z) (g' : G) : Prop :=
  payload_kept g g' A /\ Heap g' (got p align size A).

Lemma got_null g A align size : Heap g A -> obtained g A align size 0 g.
Proof. intros Hh. split; [apply kept_refl|]. unfold got. by rewrite decide_True. Qed.

Lemma allocate_obtained g A l :
  Heap g A -> layout_ok l ->
  wp (r ← CAlloc_allocate l; mret (default 0 r)) g (obtained g A (l_align l) (l_size l)).
Proof.
  intros Hh Hl. apply wp_bind. eapply wp_mono; [by apply allocate_ok|]. intros [p|] g' [Hk Hr]; apply wp_ret; (split; [done|]).
  - unfold got. rewrite decide_False; [done|]. exact (heap_nonnull _ _ _ Hr).
  - unfold got. by rewrite decide_True.
Qed.

Lemma aligned_alloc_spec g A align size :
  Heap g A -> 0 <= size -> wp (aligned_alloc align size) g (obtained g A align size).
Proof.
  intros Hh Hs. unfold aligned_alloc. destruct (from_size_align size align) as [l|] eqn:E; [|by apply wp_ret, got_null].
  destruct (from_size_align_ok _ _ _ Hs E) as [-> Hl]. by apply (allocate_obtained g A (mkLayout size align)).
Qed.

(** The bytes of a block are zero. *)
Definition zeroed (m : Mem) (p n : Z) : Prop := forall i, 0 <= i < n -> m !! (p + i) = Some (Some Byte.x00).

Lemma write_zero_spec g A al :
  Heap g (al :: A) -> 0 <= a_size al ->
  wp (on_mem (fun m => write_bytes_mem m (a_ptr al) Byte.x00 (a_size al))) g (fun _ g' =>
    payload_kept g g' A /\ Heap g' (al :: A) /\ zeroed (get_mem g') (a_ptr al) (a_size al)).
Proof.
  intros Hh Hs. destruct (heap_usable _ _ Hh) as [[[_ _ _ _ Hm] _]%Forall_cons Hap].
  destruct (write_raw_ok (get_mem g) (a_ptr al) (replicate (Z.to_nat (a_size al)) (Some Byte.x00))) as (m' & E & Hst & Hi).
  { by rewrite length_replicate, Z2Nat.id. }
  rewrite length_replicate, Z2Nat.id in Hst by done. eexists tt, _. split; [unfold on_mem, write_bytes_mem; by rewrite E|].
  split_and!.
  - intros b x Hb Hx. rewrite get_put. apply (mem_step_eq _ _ _ Hst). inversion_clear Hap as [|? ? Ha _].
    rewrite Forall_forall in Ha. specialize (Ha b Hb). unfold apart, payload in *. lia.
  - apply (heap_write _ _ al); [done|left|exact Hst].
  - intros i Hi'. rewrite get_put. specialize (Hi (Z.to_nat i)). rewrite length_replicate, Z2Nat.id in Hi by lia.
    rewrite Hi by lia. rewrite lookup_replicate_2 by lia. done.
Qed.

Lemma calloc_spec g A number size :
  Heap g A -> 0 <= size * number ->
  wp (calloc number size) g (fun p g' =>
    obtained g A MIN_ALIGN (size * number) p g' /\ (p <> 0 -> zeroed (get_mem g') p (size * number))).
Proof.
  intros Hh Hs. unfold calloc, checked_mul. destruct (size * number <? USIZE_MOD); [|apply wp_ret; split; [by apply got_null|done]].
  destruct (from_size_align _ _) as [l|] eqn:E; [|apply wp_ret; split; [by apply got_null|done]].
  destruct (from_size_align_ok _ _ _ Hs E) as [-> Hl]. apply wp_bind. eapply wp_mono; [by apply allocate_ok|].
  intros [p|] g1 [Hk Hr]; cbn [l_align l_size] in *.
  - apply wp_bind. eapply wp_mono; [by apply (write_zero_spec g1 A (mkAlloc p MIN_ALIGN (size * number)))|].
    intros [] g' (Hk' & Hh' & Hz). apply wp_ret. split; [|done]. split.
    + intros b x Hb Hx. by rewrite (Hk' b x Hb Hx), (Hk b x Hb Hx).
    + unfold got. rewrite decide_False; [done|]. exact (heap_nonnull _ _ _ Hh').
  - apply wp_ret. split; [|done]. split; [done|]. unfold got. by rewrite decide_True.
Qed.

Lemma pvalloc_spec g A size :
  Heap g A -> 0 <= size -> wp (pvalloc size) g (obtained g A page_size (round_up page_size size)).
Proof.
  intros Hh Hs. destruct page_size_pow2 as (p & Hp & E). unfold pvalloc, page_size. rewrite E. pose proof (pow2_pos p).
  apply wp_bind. eapply wp_lift; [apply usub_ok; lia|]. destruct (checked_add size (2 ^ p - 1)) as [x|] eqn:Ex; [|by apply wp_ret, got_null].
  apply checked_add_Some in Ex as [-> Hb]. rewrite Z.add_sub_assoc, land_round_up by lia.
  apply aligned_alloc_spec; [done|]. destruct (round_up_spec (2 ^ p) size); lia.
Qed.

(** The operators of C++ that do not throw are the C functions. *)
Lemma cpp_new_noexcept g size align Q :
  wp (if align =? 0 then malloc size else aligned_alloc align size) g Q -> wp (cpp_new_impl size align true) g Q.
Proof. intros Hw. apply wp_bind. eapply wp_mono; [exact Hw|]. intros p g' HQ. by apply wp_ret. Qed.

Lemma request_spec c align size g A :
  c_request c align size -> Heap g A -> wp c g (obtained g A align size).
Proof.
  intros Hc Hh. destruct Hc as [size [Hs _]|align size [Hs _]|align size [Hs _]|size [Hs _]|size [Hs _]
    |number size [Hn _] [Hs _]|size [Hs _]|size [Hs _]|size align [Hs _] Hne]; try by apply aligned_alloc_spec.
  - by apply pvalloc_spec.
  - eapply wp_mono; [apply calloc_spec; [done|lia]|]. by intros p g' [? _].
  - apply cpp_new_noexcept. by apply aligned_alloc_spec.
  - apply cpp_new_noexcept. rewrite (proj2 (Z.eqb_neq align 0)) by done. by apply aligned_alloc_spec.
Qed.

(** [realloc] of a block: refused, with nothing changed, or moved. *)
Definition c_realloced (g : G) (A : list alloc) (al : alloc) (size p : Z) (g' : G) : Prop :=
  payload_kept g g' A /\
  if decide (p = 0) then Heap g' (al :: A) /\ payload_kept g g' [al]
  else Heap g' (mkAlloc p MIN_ALIGN size :: A) /\
    forall i, 0 <= i < Z.min (a_size al) size -> get_mem g' !! (p + i) = get_mem g !! (a_ptr al + i).

Lemma realloc_spec g A al size :
  Heap g (al :: A) -> is_usize size -> wp (realloc (a_ptr al) size) g (c_realloced g A al size).
Proof.
  intros Hh [Hs _]. unfold realloc. rewrite (proj2 (Z.eqb_neq _ 0)) by (by eapply heap_nonnull).
  assert (Hnone : c_realloced g A al size 0 g) by (split; [apply kept_refl|]; rewrite decide_True by done; split; [done|apply kept_refl]).
  destruct (from_size_align size MIN_ALIGN) as [l|] eqn:E; [|by apply wp_ret].
  destruct (from_size_align_ok _ _ _ Hs E) as [-> Hl]. apply wp_bind. eapply wp_mono; [by apply reallocate_ok|].
  intros [p|] g' [Hk Hr]; apply wp_ret; (split; [done|]); cbn [l_align l_size default] in *.
  - rewrite decide_False; [done|]. exact (heap_nonnull _ _ _ (proj1 Hr)).
  - by rewrite decide_True.
Qed.

Lemma free_spec g A al :
  Heap g (al :: A) -> wp (free (a_ptr al)) g (fun _ g' => payload_kept g g' A /\ Heap g' A).
Proof.
  intros Hh. unfold free. rewrite (proj2 (Z.eqb_neq _ 0)) by (by eapply heap_nonnull). by apply deallocate_ok.
Qed.

(** The pointer is stored in a block of the client. *)
Lemma posix_memalign_spec g A al out align size :
  Heap g A -> al ∈ A -> a_ptr al <= out -> out + WORD <= a_ptr al + a_size al -> (WORD | out) -> is_usize size ->
  wp (posix_memalign out align size) g (fun e g' => exists p, load_word (get_mem g') out = Ok p /\
    Heap g' (got p align size A) /\ e = if decide (p = 0) then ENOMEM else 0).
Proof.
  intros Hh Hal Ho1 Ho2 Hd [Hs _]. pose proof WORD_pos. apply wp_bind. eapply wp_mono; [by apply aligned_alloc_spec|].
  intros p g1 [Hk Hh1]. assert (Hal1 : al ∈ got p align size A) by (unfold got; case_decide; set_solver).
  destruct (heap_usable _ _ Hh1) as [Hu _]. pose proof (proj1 (Forall_forall _ _) Hu al Hal1) as [_ _ Hn _ Hm].
  apply wp_bind. eapply wp_lift.
  { rewrite (proj2 (Z.eqb_neq out 0)) by lia. assert (Hw : WORD <> 0) by lia. by rewrite (proj2 (Z.mod_divide out WORD Hw) Hd). }
  assert (Hp : is_usize p).
  { unfold got in Hu. case_decide as Ep; [subst p; split; [lia|unfold USIZE_MOD; pose proof USIZE_BITS_cases; apply pow2_pos; lia]|].
    apply Forall_cons in Hu as [[_ _ Hp1 Hp2 _] _]. simpl in *. split; lia. }
  destruct (store_word_ok (get_mem g1) out p) as (m' & E & Hst & Hw); [eapply mapped_sub; [exact Hm|lia|lia]|done|].
  apply wp_bind. eexists tt, _. split; [unfold on_mem; by rewrite E|]. apply wp_ret. exists p. rewrite get_put. split_and!; [exact Hw| |].
  - eapply heap_write; [exact Hh1|exact Hal1|]. eapply mem_step_weaken; [exact Hst|]. unfold in_word, payload. intros x Hx. lia.
  - destruct (Z.eqb_spec p 0); [by rewrite decide_True|by rewrite decide_False].
Qed.

(** States a client reaches from a heap without blocks. *)
Definition c_reachable (x : CSys G) : Prop := exists g, Heap g [] /\ rtc c_step (mkCSys g []) x.

Lemma c_call_spec x c k : Heap (cstate x) (blocks x) -> c_call x c k -> wp c (cstate x) (fun r g' => Heap (cstate (k r g')) (blocks (k r g'))).
Proof.
  intros Hh. destruct 1 as [c align size Hr|al A size HP Hs|al A HP| |al A HP|al out align size Hal H1 H2 Hd Hs]; cbn [cstate blocks].
  - eapply wp_mono; [by eapply request_spec|]. by intros p g' [_ ?].
  - eapply wp_mono; [apply (realloc_spec _ A al size); [by eapply heap_perm|done]|]. intros p g' [_ Hr]. case_decide; tauto.
  - apply wp_bind. eapply wp_mono; [apply (free_spec _ A al); by eapply heap_perm|]. intros [] g' [_ ?]. by apply wp_ret.
  - apply wp_bind, wp_ret, wp_ret. done.
  - assert (Hh' : Heap (cstate x) (al :: A)) by by eapply heap_perm. unfold malloc_usable_size.
    rewrite (proj2 (Z.eqb_neq _ 0)) by (by eapply heap_nonnull). eapply wp_mono; [by apply usable_size_ok|]. by intros n g' (-> & _ & ?).
  - eapply wp_mono; [by eapply posix_memalign_spec|]. intros e g' (p & -> & Hg & ->). pose proof ENOMEM_nonzero.
    destruct (decide (p = 0)) as [->|Hp]; [|by rewrite decide_True]. rewrite decide_False by done.
    unfold got in Hg. by rewrite decide_True in Hg.
Qed.

Lemma c_reachable_heap x : c_reachable x -> Heap (cstate x) (blocks x).
Proof.
  intros (g & Hg & Hr). change (Heap (cstate (mkCSys g [])) (blocks (mkCSys g []))) in Hg.
  induction Hr as [|x y z Hxy _ IH]; [done|]. apply IH. destruct Hxy as [c k r g' Hc E|al m' Hal Hs].
  - destruct (c_call_spec x c k Hg Hc) as (r' & g'' & E' & Hk). rewrite E in E'. by injection E' as <- <-.
  - by eapply heap_write.
Qed.

(** C15: A C program that passes each block back at most once: in every state it
    can reach, every call of the [malloc] family ([malloc], [calloc],
    [realloc], [free], [aligned_alloc], [memalign], [valloc], [pvalloc],
    [posix_memalign], [malloc_usable_size] and the non-throwing [new])
    returns, for any sizes and alignments, overflowing and invalid ones
    included; its blocks are aligned, mapped and disjoint, and stay its own up
    to the size [malloc_usable_size] reports. *)
Theorem c_heap_safe x :
  c_reachable x ->
  (forall c k, c_call x c k -> exists r g', c (cstate x) = Ok (r, g')) /\
  Forall (usable_alloc (get_mem (cstate x))) (blocks x) /\ ForallOrdPairs apart (blocks x).
Proof.
  intros Hh%c_reachable_heap. split; [|by apply heap_usable]. intros c k Hc.
  destruct (c_call_spec x c k Hh Hc) as (r & g' & E & _). by exists r, g'.
Qed.

(** C16: [calloc] returns null or a new block of [number * size] zero bytes
    aligned to [MIN_ALIGN]; a product that overflows gives null. *)
Theorem calloc_correct g A number size :
  Heap g A -> is_usize number -> is_usize size ->
  wp (calloc number size) g (fun p g' =>
    obtained g A MIN_ALIGN (size * number) p g' /\ (p <> 0 -> zeroed (get_mem g') p (size * number)) /\
    (USIZE_MOD <= size * number -> p = 0)).
Proof.
  intros Hh [Hn _] [Hs _]. destruct (Z.lt_ge_cases (size * number) USIZE_MOD) as [Hlt|Hge].
  - eapply wp_mono; [apply calloc_spec; [done|lia]|]. intros p g' [? ?]. split_and!; (done || lia).
  - unfold calloc, checked_mul. rewrite (proj2 (Z.ltb_ge _ _)) by done. apply wp_ret. split_and!; [by apply got_null|done|done].
Qed.

End OverrideProofs.

(** ** The library on a Unix system *)

Section UnixLibrary.
Context {T : Target} {B : Build} {O : GlobalTlsfOptions} {OS : Unix.TargetOs} {K : Type} {Kn : Unix.Kernel K} {Kok : Unix.KernelOk K}.
Context {C : Libc} {Cok : LibcOk} {Pt : Pthread} {Ptok : PthreadOk}.
Context (Hbits : 32 <= USIZE_BITS).
#[local] Existing Instance UnixMutex.
#[local] Existing Instance Unix.unix_source.
#[local] Instance unix_ok : FlexSourceOk (P := TheTlsf) (Unix.Source K) := Unix.unix_source_ok Hbits.

Lemma unix_exact : debug_assertions = true -> never_grows \/ exact (P := TheTlsf).
Proof. intros _. right. apply TheTlsf_exact, Z.divide_refl. Qed.

#[local] Instance unix_calloc : CAllocOk (GlobalTlsf (Unix.Source K)) := GlobalTlsf_CAlloc_ok unix_exact.

(** The static allocator before the first call. *)
Definition ALLOC (k : K) : GlobalTlsf (Unix.Source K) := GlobalTlsf_new (Unix.mkSource 0 k).

Lemma ALLOC_heap k : Unix.Maps k ∅ -> Heap (ALLOC k) [].
Proof using Hbits Ptok.
  intros Hk. apply GHeap_new. split; [by left| |by intros b []%not_elem_of_nil]. intros m Hc.
  eapply Unix.Maps_dom; [|exact Hk]. intros x. rewrite lookup_empty, (Hc x). split; [by intros []|by intros (b & []%not_elem_of_nil & _)].
Qed.

(** C5: The whole library on a Unix system, from the C functions over
    [GlobalTlsf], [FlexTlsf] and [Tlsf] down to the system calls, in debug
    and release builds and with any options: whatever a C program calls from
    the first call on, and whatever [mmap] answers, every call returns and
    the program's blocks are aligned, mapped and disjoint. *)
Theorem unix_malloc_safe k x :
  Unix.Maps k ∅ -> rtc c_step (mkCSys (ALLOC k) []) x ->
  (forall c kont, c_call x c kont -> exists r g', c (cstate x) = Ok (r, g')) /\
  Forall (usable_alloc (get_mem (cstate x))) (blocks x) /\ ForallOrdPairs apart (blocks x).
Proof using Hbits Kok Cok Ptok.
  intros Hk Hr. assert (Hh : Heap (cstate x) (blocks x)) by (apply c_reachable_heap; exists (ALLOC k); split; [by apply ALLOC_heap|done]).
  split; [|by apply heap_usable]. intros c kont Hc. destruct (c_call_spec x c kont Hh Hc) as (r & g' & E & _). by exists r, g'.
Qed.

End UnixLibrary.
