(* ===== verification/Examples.v ===== *)
(** * A run of the allocator

    The parameters of the README ([Tlsf<'_, u16, u16, 12, 16>]) on a 64-bit
    target, an unaligned buffer of uninitialised bytes, and a client that
    inserts it and makes four allocations, one of which it frees.  Every state
    of the run is computed; the run shows that the hypotheses of the
    properties can hold together. *)

From S2P Require Import Prelude Usize BinInteger SizeClass Machine Header FreeIndex Pool Region Alloc Dealloc Insert Realloc Iter System.

#[local] Existing Instance target64.

Definition params : TlsfParams := {| FLBitmap := u16; SLBitmap := u16; FLLEN := 12; SLLEN := 16 |}.
#[local] Existing Instance params.

#[local] Instance params_ok : ParamsOk params.
Proof.
  split; [split; vm_compute; discriminate..| |reflexivity|reflexivity].
  split; split; vm_compute; (discriminate || reflexivity).
Qed.

(** [len] uninitialised bytes from [a] on. *)
Fixpoint uninit (a : Z) (len : nat) : Mem :=
  match len with O => ∅ | S len => <[a := None]> (uninit (a + 1) len) end.

Lemma uninit_lookup a len x : uninit a len !! x = if (a <=? x) && (x <? a + Z.of_nat len) then Some None else None.
Proof.
  revert a. induction len as [|len IH]; intros a; cbn [uninit].
  - rewrite lookup_empty. destruct (Z.leb_spec a x), (Z.ltb_spec x (a + Z.of_nat 0)); simpl; (done || lia).
  - destruct (decide (x = a)) as [->|Hne].
    + rewrite lookup_insert_eq. destruct (Z.leb_spec a a), (Z.ltb_spec a (a + Z.of_nat (S len))); simpl; (done || lia).
    + rewrite lookup_insert_ne, IH by done.
      destruct (Z.leb_spec a x), (Z.ltb_spec x (a + Z.of_nat (S len))), (Z.leb_spec (a + 1) x), (Z.ltb_spec x (a + 1 + Z.of_nat len));
        simpl; (done || lia).
Qed.

Lemma uninit_extends a len : extends ∅ (uninit a len) a (Z.of_nat len).
Proof.
  split; [|done|]; intros x Hx; rewrite uninit_lookup.
  - rewrite lookup_empty. destruct (_ && _) eqn:E; [lia|done].
  - rewrite (proj2 (andb_true_iff _ _)); [by eexists|]. split; lia.
Qed.

(** ** Running computations *)

Definition value {S A} (c : M S A) (s : S) : option A := match c s with Ok (r, _) => Some r | Fail _ => None end.
Definition after {S A} (c : M S A) (s : S) : S := match c s with Ok (_, s') => s' | Fail _ => s end.

Lemma value_after {S A} (c : M S A) s r : value c s = Some r -> c s = Ok (r, after c s).
Proof. unfold value, after. destruct (c s) as [[]|]; congruence. Qed.

Lemma wp_after {S A} (c : M S A) s r Q : wp c s Q -> value c s = Some r -> Q r (after c s).
Proof. unfold wp, value, after. intros (a & s' & -> & HQ). congruence. Qed.

Lemma reach x c s0 k r y :
  reachable x -> call x c s0 k -> value c s0 = Some r -> y = k r (after c s0) -> reachable y.
Proof. intros Hr Hc Hv ->. eapply rtc_r; [exact Hr|]. eapply step_call; [exact Hc|by apply value_after]. Qed.

(** ** The client *)

Definition buf : Z := 4100.
Definition buf_len : nat := 604.

Definition lay (size align : Z) : Layout := mkLayout size align.

Definition mem0 : St := mkSt new (uninit buf buf_len).
Definition s1 : St := after (insert_free_block_ptr buf 604) mem0.
Definition s2 : St := after (allocate (lay 40 8)) s1.
Definition s3 : St := after (allocate (lay 30 64)) s2.
Definition s4 : St := after (allocate (lay 100 16)) s3.
Definition s5 : St := after (deallocate 4144 8;; mret (None : option Z)) s4.

(** The states are compared by name, never computed to compare them. *)
Strategy 100 [mem0 s1 s2 s3 s4 s5 after].

Definition al1 : alloc := mkAlloc 4144 8 40.
Definition al2 : alloc := mkAlloc 4224 64 30.
Definition al3 : alloc := mkAlloc 4272 16 100.

Definition x1 : Sys := mkSys s1 [] [4704].
Definition x2 : Sys := mkSys s2 [al1] [4704].
Definition x3 : Sys := mkSys s3 [al2; al1] [4704].
Definition x4 : Sys := mkSys s4 [al3; al2; al1] [4704].
Definition x5 : Sys := mkSys s5 [al3; al2] [4704].

Lemma lay_ok size k : 0 <= size < 2 ^ 63 -> 0 <= k < 64 -> layout_ok (lay size (2 ^ k)).
Proof. intros Hs Hk. split; [split; [simpl; lia|]|by exists k]. eapply Z.lt_trans; [apply Hs|]. by vm_compute. Qed.

Ltac run H c r := refine (reach _ _ _ _ r _ H c _ _); [vm_compute; reflexivity|reflexivity].

Lemma reach1 : reachable x1.
Proof.
  assert (Hc : slice buf 604) by by vm_compute.
  run (rtc_refl step init) (call_insert init buf 604 _ Hc (uninit_extends buf buf_len)) (Some 604).
Qed.

Lemma reach2 : reachable x2.
Proof.
  assert (Hl : layout_ok (lay 40 8)) by (apply (lay_ok 40 3); lia).
  run reach1 (call_allocate x1 _ Hl) (Some 4144).
Qed.

Lemma reach3 : reachable x3.
Proof.
  assert (Hl : layout_ok (lay 30 64)) by (apply (lay_ok 30 6); lia).
  run reach2 (call_allocate x2 _ Hl) (Some 4224).
Qed.

Lemma reach4 : reachable x4.
Proof.
  assert (Hl : layout_ok (lay 100 16)) by (apply (lay_ok 100 4); lia).
  run reach3 (call_allocate x3 _ Hl) (Some 4272).
Qed.

Lemma reach5 : reachable x5.
Proof.
  assert (Hp : sys_live x4 ≡ₚ al1 :: [al3; al2]) by (simpl; solve_Permutation).
  refine (reach _ _ _ _ None _ reach4 (call_deallocate x4 _ _ Hp) _ _); [vm_compute; reflexivity|reflexivity].
Qed.

(** The invariant of the last state. *)
Lemma run_inv : exists Ps, Inv s5 Ps /\ live Ps ≡ₚ [al3; al2] /\ 4704 ∈ p_end <$> Ps.
Proof.
  destruct (reachable_inv x5 reach5) as (Ps & HI & HL & He). exists Ps.
  split; [exact HI|split; [exact HL|]]. apply (He 4704), list_elem_of_here.
Qed.

(** ** The properties on the run *)

#[local] Instance u16_ok : IntTyOk u16.
Proof. split; vm_compute; discriminate. Defined.
#[local] Instance i8_ok : IntTyOk i8.
Proof. split; vm_compute; discriminate. Defined.

Lemma valid_size_96 : valid_size 96.
Proof. split; [split; vm_compute; (discriminate || reflexivity)|]. by exists 3. Qed.

Lemma bit_scan_forward_witness :
  exists r, bit_scan_forward u16 88 4 = Ok r /\ lowest_bit_from (I := u16) 88 4 r.
Proof. apply (bit_scan_forward_correct (I := u16)); [split; vm_compute; (discriminate || reflexivity)|lia]. Defined.

Lemma bit_ops_witness :
  in_range i8 (set_bit i8 (-3) 1) /\ in_range i8 (clear_bit i8 (-3) 1) /\
  get_bit i8 (set_bit i8 (-3) 1) 7 = (1 =? 7) || get_bit i8 (-3) 7 /\
  get_bit i8 (clear_bit i8 (-3) 1) 7 = negb (1 =? 7) && get_bit i8 (-3) 7.
Proof. apply (bit_ops_correct (I := i8)); [split; vm_compute; (discriminate || reflexivity)|lia|vm_compute; split; (discriminate || reflexivity)]. Defined.

Lemma ones_truncated_witness :
  exists m, ones_truncated u16 3 40 = Ok m /\ in_range u16 m /\
    forall i, 0 <= i < BITS u16 -> Z.testbit m i = (3 <=? i) && (i <? 40).
Proof. apply (ones_truncated_correct (I := u16)); [lia|by vm_compute]. Defined.

(** The empty range at the end of the type. *)
Lemma ones_witness : ones u16 16 16 = Fail Overflow /\ 16 = BITS u16.
Proof.
  pose proof (ones_correct (I := u16) 16 16 ltac:(lia) ltac:(lia)) as H. split; [reflexivity|]. by destruct H.
Defined.

(** A value past the largest multiple; a negative value with no digit left of
    the point. *)
Lemma checked_ceil_fix_witness :
  checked_ceil_fix u16 65530 3 = Ok None /\ checked_ceil_fix i8 (-3) 1 = Ok (Some (-2)) /\ checked_ceil_fix i8 (-3) 8 = Ok None.
Proof.
  split_and!; [rewrite (checked_ceil_fix_correct (I := u16)) | rewrite (checked_ceil_fix_correct (I := i8)) ..];
    try (vm_compute; reflexivity); try lia; split; vm_compute; discriminate.
Defined.

Lemma map_floor_witness :
  exists o, map_floor 96 = Ok o /\
    match o with
    | Some c => valid_class c /\ in_class 96 c.1 c.2 /\
                forall c', valid_class c' -> in_class 96 c'.1 c'.2 -> c' = c
    | None => 2 ^ (GRANULARITY_LOG2 + FLLEN) <= 96
    end.
Proof. exact (map_floor_correct 96 valid_size_96). Defined.

Lemma map_ceil_witness :
  exists o, map_ceil 96 = Ok o /\
    match o with
    | Some c => valid_class c /\ 96 * SLLEN <= cmin c.1 c.2 /\
                forall c', valid_class c' -> class_le c' c -> c' <> c -> cmin c'.1 c'.2 < 96 * SLLEN
    | None => forall c, valid_class c -> cmin c.1 c.2 < 96 * SLLEN
    end.
Proof. exact (map_ceil_correct 96 valid_size_96). Defined.

Lemma map_ceil_and_unmap_witness :
  exists o, map_ceil_and_unmap 96 = Ok o /\
    match o with
    | Some m => map_ceil 96 = Ok (Some (ceil_class 96)) /\
                m * SLLEN = cmin (ceil_class 96).1 (ceil_class 96).2 /\
                (GRANULARITY | m) /\ 96 <= m
    | None => FL_usable <= (ceil_class 96).1
    end.
Proof. exact (map_ceil_and_unmap_correct 96 valid_size_96). Defined.

Lemma mem0_mapped a n : buf <= a -> a + n <= 4704 -> mapped (st_mem mem0) a n.
Proof. intros H1 H2. apply (mapped_sub _ buf 604); [apply (uninit_extends buf buf_len)|done|unfold buf; lia]. Qed.

Lemma store_load_word_witness :
  exists m', store_word (st_mem mem0) 4200 77 = Ok m' /\ load_word m' 4200 = Ok 77 /\
    mem_step (in_word 4200) (st_mem mem0) m'.
Proof.
  apply (store_load_word (st_mem mem0) 4200 77).
  - apply mem0_mapped; vm_compute; discriminate.
  - split; vm_compute; (discriminate || reflexivity).
Defined.

Lemma linkable_mem0 : linkable (st_mem mem0) 4128 96.
Proof.
  split; [lia|by exists 129|by vm_compute|apply mem0_mapped; vm_compute; discriminate|apply valid_size_96|].
  eexists. vm_compute. reflexivity.
Qed.

Lemma link_free_block_witness :
  wp (link_free_block 4128 96) mem0 (fun _ s' =>
    FreeIndex (st_tlsf s') (st_mem s') [(4128, 96)] /\
    mem_step (link_area [(4128, 96)]) (st_mem mem0) (st_mem s')).
Proof. apply (link_free_block_refines 4128 96 mem0 []); [apply new_index|set_solver|apply linkable_mem0]. Defined.

(** The index with one block. *)
Lemma linked_one : exists s, FreeIndex (st_tlsf s) (st_mem s) [(4128, 96)].
Proof.
  destruct (link_free_block_spec 4128 96 mem0 [] (fun _ s' => FreeIndex (st_tlsf s') (st_mem s') [(4128, 96)]))
    as (r & s & _ & H); [apply new_index|set_solver|apply linkable_mem0|by intros|by exists s].
Qed.

Lemma unlink_free_block_witness :
  exists s, FreeIndex (st_tlsf s) (st_mem s) [(4128, 96)] /\
    wp (unlink_free_block 4128 96) s (fun _ s' =>
      FreeIndex (st_tlsf s') (st_mem s') [] /\ mem_step (link_area []) (st_mem s) (st_mem s')).
Proof. destruct linked_one as (s & H). exists s. split; [exact H|]. exact (unlink_free_block_refines 4128 96 s [] H). Defined.

Lemma search_witness :
  exists s, FreeIndex (st_tlsf s) (st_mem s) [(4128, 96)] /\
    wp (search_suitable_free_block_list_for_allocation 96) s (fun r s' =>
      s' = s /\
      match r with
      | Some (fl, sl) =>
          suitable [(4128, 96)] 96 (fl, sl) /\
          (forall c, suitable [(4128, 96)] 96 c -> class_le (fl, sl) c) /\
          (forall a sz, (a, sz) ∈ [(4128, 96)] -> map_floor sz = Ok (Some (fl, sl)) -> 96 <= sz) /\
          exists sz, (ff (st_tlsf s) fl sl, sz) ∈ [(4128, 96)] /\ map_floor sz = Ok (Some (fl, sl))
      | None => forall c, ~ suitable [(4128, 96)] 96 c
      end).
Proof. destruct linked_one as (s & H). exists s. split; [exact H|]. exact (search_correct 96 s _ H valid_size_96). Defined.

(** The allocator-level properties, in the last state of the run. *)
Lemma al2_live : exists Ps, Inv s5 Ps /\ al2 ∈ live Ps.
Proof. destruct run_inv as (Ps & HI & HL & _). exists Ps. split; [exact HI|]. rewrite HL. right. left. Qed.

Lemma lay_200 : layout_ok (lay 200 64).
Proof. apply (lay_ok 200 6); lia. Qed.

Lemma allocate_witness :
  exists Ps, Inv s5 Ps /\ wp (allocate (lay 200 64)) s5 (fun r s' =>
    match r with
    | Some ptr => exists Ps', post s5 s' Ps Ps' (live Ps) /\ live Ps' ≡ₚ mkAlloc ptr 64 200 :: live Ps
    | None => s' = s5
    end).
Proof. destruct run_inv as (Ps & HI & _). exists Ps. split; [exact HI|]. exact (allocate_correct _ s5 Ps HI lay_200). Defined.

Lemma allocate_good_fit_witness :
  exists Ps, Inv s5 Ps /\ wp (allocate (lay 200 64)) s5 (fun r _ =>
    match r with
    | Some ptr => exists a sz c, (a, sz) ∈ all_frees Ps /\ map_floor sz = Ok (Some c) /\
        class_le (ceil_class (search_size_of (lay 200 64))) c /\
        (forall c', block_class (all_frees Ps) c' -> class_le (ceil_class (search_size_of (lay 200 64))) c' -> class_le c c') /\
        a + 2 * WORD <= ptr /\ ptr + 200 <= a + sz
    | None => True
    end).
Proof. destruct run_inv as (Ps & HI & _). exists Ps. split; [exact HI|]. exact (allocate_good_fit _ s5 Ps HI lay_200). Defined.

Lemma allocate_succeeds_witness :
  exists Ps, Inv s5 Ps /\ wp (allocate (lay 200 64)) s5 (fun r _ => is_Some r <->
    exists n a sz, pool_size_to_contain_allocation (lay 200 64) = Ok (Some n) /\
      (a, sz) ∈ all_frees Ps /\ n <= sz + GRANULARITY).
Proof. destruct run_inv as (Ps & HI & _). exists Ps. split; [exact HI|]. exact (allocate_succeeds_iff _ s5 Ps HI lay_200). Defined.

Lemma deallocate_witness :
  exists Ps, Inv s5 Ps /\ wp (deallocate 4224 64) s5 (fun _ s' =>
    exists Ps', post s5 s' Ps Ps' (live Ps') /\ live Ps ≡ₚ al2 :: live Ps').
Proof. destruct al2_live as (Ps & HI & Hal). exists Ps. split; [exact HI|]. exact (deallocate_correct s5 Ps al2 HI Hal). Defined.

Lemma unknown_align_witness :
  exists a, used_block_hdr_for_allocation_unknown_align 4224 s5 = Ok (a, s5) /\
    used_block_hdr_for_allocation 4224 64 s5 = Ok (a, s5).
Proof. destruct al2_live as (Ps & HI & Hal). exact (unknown_align_agrees s5 Ps al2 HI Hal). Defined.

Lemma usable_size_witness :
  exists Ps, Inv s5 Ps /\ wp (allocation_usable_size 4224) s5 (fun n s' => s' = s5 /\ usable Ps al2 n).
Proof. destruct al2_live as (Ps & HI & Hal). exists Ps. split; [exact HI|]. exact (usable_size_correct s5 Ps al2 HI Hal). Defined.

Lemma reallocate_witness :
  exists Ps, Inv s5 Ps /\ wp (reallocate 4224 (lay 200 64)) s5 (fun r s' =>
    match r with
    | Some ptr => realloced s5 s' Ps al2 (mkAlloc ptr 64 200)
    | None => s' = s5
    end).
Proof.
  destruct al2_live as (Ps & HI & Hal). exists Ps. split; [exact HI|].
  exact (reallocate_correct al2 (lay 200 64) s5 Ps HI Hal lay_200 eq_refl).
Defined.

(** Every strategy of [reallocate] is taken: in place, moving into the
    previous free block, and with a new block. *)
Example reallocate_strategies :
  value (reallocate 4224 (lay 10 64)) s5 = Some (Some 4224) /\
  value (reallocate 4224 (lay 60 64)) s5 = Some (Some 4160) /\
  value (reallocate 4272 (lay 300 16)) s5 = Some (Some 4272) /\
  value (reallocate 4144 (lay 120 8)) s4 = Some (Some 4400) /\
  value (reallocate 4224 (lay 90000 64)) s5 = Some None.
Proof. vm_compute. done. Qed.

Lemma init_inv0 : Inv mem0 [].
Proof. split; [by split; constructor|constructor|apply new_index]. Qed.

Lemma slice_buf : slice_ok (st_mem mem0) [] buf 604.
Proof. split; [by vm_compute|lia|by vm_compute|apply mem0_mapped; vm_compute; discriminate|intros p []%elem_of_nil]. Qed.

Lemma insert_witness :
  wp (insert_free_block_ptr buf 604) mem0 (fun r s' =>
    match r with
    | Some n => exists news, inserted mem0 s' [] news (round_up GRANULARITY buf) (buf + n) /\
                  n <= 604 /\ 604 - n < 2 * GRANULARITY
    | None => s' = mem0 /\ buf + 604 < round_up GRANULARITY buf + 2 * GRANULARITY
    end).
Proof. exact (insert_free_block_ptr_correct buf 604 mem0 [] init_inv0 slice_buf). Defined.

(** Appending where pools have no maximum size: to a pool that is one free block. *)
Section Wide.
#[local] Definition wide : TlsfParams := {| FLBitmap := u64; SLBitmap := u16; FLLEN := 59; SLLEN := 16 |}.
#[local] Existing Instance wide | 0.

#[local] Instance wide_ok : ParamsOk wide | 0.
Proof.
  split; [split; vm_compute; discriminate..| |reflexivity|reflexivity].
  split; split; vm_compute; (discriminate || reflexivity).
Qed.

Definition w0 : St := mkSt new (uninit 4096 640).
Definition w1 : St := after (insert_free_block_ptr 4096 512) w0.

Lemma w0_mapped a n : 4096 <= a -> a + n <= 4736 -> mapped (st_mem w0) a n.
Proof. intros H1 H2. apply (mapped_sub _ 4096 640); [apply (uninit_extends 4096 640)|done|lia]. Qed.

Lemma w0_inv : Inv w0 [].
Proof. split; [by split; constructor|constructor|apply new_index]. Qed.

Lemma w0_slice : slice_ok (st_mem w0) [] 4096 512.
Proof. split; [lia|lia|by vm_compute|apply w0_mapped; lia|intros p []%elem_of_nil]. Qed.

Lemma w1_inserted : exists news, inserted w0 w1 [] news 4096 4608.
Proof.
  refine (wp_after (insert_free_block_ptr 4096 512) w0 (Some 512) (fun r s' => r = Some 512 -> exists news,
    inserted w0 s' [] news 4096 4608) _ _ eq_refl); [|vm_compute; reflexivity].
  eapply insert_spec; [exact w0_inv|exact w0_slice|intros _ [=]|]. intros news s' n Hi _ _ _ _ [= ->]. by exists news.
Qed.

Lemma w1_append : exists p Ps, Inv w1 (p :: Ps) /\ p_end p = 4608 /\ slice_ok (st_mem w1) (p :: Ps) 4608 128.
Proof.
  destruct w1_inserted as (news & Hi). pose proof (inserted_grown _ _ _ _ _ _ Hi) as [HI _ Harea _ Hend _ _].
  assert (Hlt : 4096 < 4608) by lia. apply Hend, list_elem_of_fmap in Hlt as (p & Ep & [Ps HP]%elem_of_Permutation_cons).
  exists p, Ps. split; [by rewrite <- HP|]. split; [done|]. split; [lia|lia|by vm_compute| |].
  - eapply mapped_step; [apply Hi|]. apply w0_mapped; lia.
  - intros q Hq. right. left. rewrite <- HP in Hq. pose proof (inv_wf _ _ HI) as [Hw _].
    rewrite Forall_forall in Hw. pose proof (p_len_pos q (Hw q Hq)) as Hl.
    destruct (proj1 (Harea (p_end q - 1))) as [(? & []%elem_of_nil & _)|?]; [|lia].
    exists q. split; [done|]. unfold p_end in *. lia.
Qed.

Lemma append_witness :
  MAX_POOL_SIZE = None /\
  exists p Ps, p_end p = 4608 /\ wp (append_free_block_ptr (p_end p) 128) w1 (fun n s' =>
    0 <= n <= 128 /\ 128 - n < 2 * GRANULARITY /\
    exists Ps', append_outcome w1 s' p Ps Ps' 128 n /\ grown w1 s' (p :: Ps) Ps' (p_end p) (p_end p + n)).
Proof.
  split; [reflexivity|]. destruct w1_append as (p & Ps & HI & Ep & Hs). exists p, Ps. split; [exact Ep|].
  rewrite <- Ep in Hs. exact (append_free_block_ptr_correct p Ps 128 w1 HI Hs).
Defined.

(** One free block where there was one. *)
Example append_merges :
  value (append_free_block_ptr 4608 128) w1 = Some 128 /\
  value (get_size FreeBlockHdr 4096) w1 = Some 480 /\
  value (get_size FreeBlockHdr 4096) (after (append_free_block_ptr 4608 128) w1) = Some 608.
Proof. vm_compute. done. Qed.
End Wide.

Lemma inserted_run : exists news, Inv s1 (news ++ []) /\ news <> [] /\ tiled (round_up GRANULARITY buf) news (buf + 604).
Proof.
  refine (wp_after (insert_free_block_ptr buf 604) mem0 (Some 604) (fun r s' => r = Some 604 -> exists news,
    Inv s' (news ++ []) /\ news <> [] /\ tiled (round_up GRANULARITY buf) news (buf + 604)) _ _ eq_refl);
    [|vm_compute; reflexivity].
  eapply insert_spec; [exact init_inv0|exact slice_buf|intros _ [=]|].
  intros news s' n [Hi Ht _ _] _ _ _ _ [= ->]. exists news. split; [exact Hi|split; [|exact Ht]].
  intros ->. simpl in Ht. by vm_compute in Ht.
Qed.

Lemma iter_blocks_witness :
  exists news, wp (iter_blocks buf 604) s1 (fun r s' =>
    s' = s1 /\ exists l, r = infos l /\ l = located (round_up GRANULARITY buf) (pools_blocks news) /\
      Forall (fun '(x, b) => info_ok s1 x b) l).
Proof.
  destruct inserted_run as (news & HI & Hn & Ht). exists news.
  refine (iter_blocks_correct buf 604 news [] s1 HI Hn _ Ht). vm_compute. discriminate.
Defined.

Example iter_blocks_run :
  value (iter_blocks buf 604) s5 = Some (mkBlockInfo <$> [4128; 4192; 4256; 4384]).
Proof. vm_compute. reflexivity. Qed.

Lemma reachable_calls_witness : exists r s', reallocate 4224 (lay 200 64) s5 = Ok (r, s').
Proof.
  assert (Hp : sys_live x5 ≡ₚ al2 :: [al3]) by (simpl; solve_Permutation).
  exact (reachable_calls_return x5 _ _ _ reach5 (call_reallocate x5 al2 _ _ Hp lay_200 eq_refl)).
Defined.

Lemma reachable_allocations_witness :
  Forall (usable_alloc (st_mem s5)) [al3; al2] /\ ForallOrdPairs apart [al3; al2].
Proof. exact (reachable_allocations x5 reach5). Defined.

Lemma reachable_structure_witness :
  exists Ps, wf_pools Ps /\ Forall (fun p => no_adj (p_body p)) Ps /\ Forall (rep_pool (st_mem s5)) Ps /\
    FreeIndex (st_tlsf s5) (st_mem s5) (all_frees Ps) /\ live Ps ≡ₚ [al3; al2].
Proof. exact (reachable_structure x5 reach5). Defined.

Lemma reachable_well_typed_witness : tlsf_typed (st_tlsf s5).
Proof. exact (reachable_well_typed x5 reach5). Defined.
