(* ===== verification/FlexExamples.v ===== *)
(** * Runs of [FlexTlsf]

    Concrete sources that keep the contract: one that hands out consecutive
    memory and extends the last allocation up to a limit, and a global
    allocator for [GlobalAllocAsFlexSource].  The runs create pools, grow one,
    are refused memory, move an allocation to new memory and drop the
    allocator. *)

From S2P Require Import Prelude Usize BinInteger SizeClass Machine Header FreeIndex Pool Region Alloc Dealloc Insert Realloc Iter System Flex FlexInv FlexGrow FlexSpec GlobalAlloc Examples.

#[local] Existing Instance target64.
#[local] Existing Instance params.
#[local] Existing Instance params_ok.

(** ** Fresh memory above everything allocated *)

Definition map_fresh (m : Mem) (a n : Z) : Mem := m ∪ uninit a (Z.to_nat n).
Definition unmap (m : Mem) (a n : Z) : Mem := filter (fun '(x, _) => ~ (a <= x < a + n)) m.

Lemma unmap_lookup m a n x : unmap m a n !! x = if decide (a <= x < a + n) then None else m !! x.
Proof.
  unfold unmap. case_decide as H.
  - apply map_lookup_filter_None. right. intros y _ Hn. by apply Hn.
  - destruct (m !! x) eqn:E; [by apply map_lookup_filter_Some|]. apply map_lookup_filter_None. by left.
Qed.

Lemma map_fresh_above m a n :
  0 <= n -> (forall x, is_Some (m !! x) -> x < a) -> extends m (map_fresh m a n) a n.
Proof.
  intros Hn Hb. pose proof (uninit_extends a (Z.to_nat n)) as [Ho _ Hm]. rewrite Z2Nat.id in * by done. split.
  - intros x Hx. unfold map_fresh. destruct (m !! x) as [v|] eqn:E; [by rewrite (lookup_union_Some_l _ _ _ v)|].
    rewrite lookup_union_r by done. by apply Ho.
  - intros x Hx. destruct (m !! x) eqn:E; [|done]. assert (x < a) by (apply Hb; by eexists). lia.
  - intros x Hx. apply lookup_union_is_Some. right. by apply Hm.
Qed.

Lemma map_fresh_extends m L a n :
  0 <= n -> covers m L -> (forall b, b ∈ L -> b.1 + b.2 <= a) -> extends m (map_fresh m a n) a n.
Proof.
  intros Hn Hc Hb. apply map_fresh_above; [done|]. intros x (b & Hin & Hbx)%Hc. apply Hb in Hin. unfold in_slice in Hbx. lia.
Qed.

(** ** Running a call *)

Lemma flex_reach {B : Build} {Source : Type} {FS : FlexSource Source} {FSok : FlexSourceOk Source} (x : FlexSys Source) c k r y :
  flex_reachable x -> flex_call x c k -> value c (fsys x) = Some r -> y = k r (after c (fsys x)) -> flex_reachable y.
Proof.
  intros (src & Ho & Hr) Hc Hv ->. exists src. split; [exact Ho|]. eapply rtc_r; [exact Hr|].
  eapply fstep_call; [exact Hc|by apply value_after].
Qed.

(** ** A source of consecutive memory *)

Definition START : Z := 4096.
Definition LIMIT : Z := 16384.
Definition MAX_GROWN : Z := 1024.

(** The state is the next free address. *)
Definition bump_alloc (n : Z) : M (Z * Mem) (option Slice) := fun '(next, m) =>
  let len := round_up 32 n in
  if next + len <=? LIMIT then Ok (Some (next, len), (next + len, map_fresh m next len)) else Ok (None, (next, m)).

Definition bump_grow (b : Slice) (n : Z) : M (Z * Mem) (option Z) := fun '(next, m) =>
  let len := round_up 32 n in
  if (b.1 + b.2 =? next) && (len <=? MAX_GROWN) && (b.1 + len <=? LIMIT)
  then Ok (Some len, (b.1 + len, map_fresh m next (len - b.2))) else Ok (None, (next, m)).

Definition bump_dealloc (b : Slice) : M (Z * Mem) unit := fun '(next, m) => Ok (tt, (next, unmap m b.1 b.2)).

#[local] Instance bump : FlexSource Z := {|
  source_alloc := bump_alloc;
  realloc_inplace_grow := bump_grow;
  source_dealloc := bump_dealloc;
  supports_dealloc := true;
  supports_realloc_inplace_grow := true;
  is_contiguous_growable := false;
  min_align := 32
|}.

Definition bump_owns (next : Z) (L : list Slice) : Prop :=
  START <= next <= LIMIT /\ (32 | next) /\
  forall b, b ∈ L -> START <= b.1 /\ 0 <= b.2 /\ b.1 + b.2 <= next /\ (32 | b.1).

Lemma slice_limit a len : START <= a -> 0 <= len -> a + len <= LIMIT -> slice a len.
Proof. unfold START, LIMIT. intros H1 H2 H3. split_and!; [lia|lia|]. etrans; [exact H3|]. by vm_compute. Qed.

#[local] Instance bump_ok : FlexSourceOk Z.
Proof.
  refine {| Owns := bump_owns : Z -> list Slice -> Prop |}.
  - exists 5. split; [lia|done].
  - intros next m L n (Hn & Hd & HL) Hc Hpos _ _. unfold wp, source_alloc, bump, bump_alloc.
    destruct (round_up_spec 32 n) as [Hr Hrd]; [lia|]. destruct (Z.leb_spec (next + round_up 32 n) LIMIT) as [Hle|]; eexists _, _; (split; [reflexivity|]).
    + split_and!; [|apply slice_limit; lia|lia|done|done|eapply map_fresh_extends; [lia|exact Hc|intros b Hb; by apply HL]].
      split_and!; [lia|lia|by apply Z.divide_add_r|]. intros b [->|Hb]%elem_of_cons; simpl; [split_and!; (lia || done)|].
      destruct (HL b Hb) as (? & ? & ? & ?). split_and!; (lia || done).
    + split_and!; done.
  - intros next m L a len n (Hn & Hd & HL) Hc Hle _. unfold wp, realloc_inplace_grow, bump, bump_grow. cbn [fst snd].
    destruct (round_up_spec 32 n) as [Hr Hrd]; [lia|]. destruct (HL (a, len)) as (Ha & Hl0 & Hal & Had); [set_solver|]. cbn [fst snd] in *.
    destruct (_ && _) eqn:E; eexists _, _; (split; [reflexivity|]); [|done].
    apply andb_true_iff in E as [[E1%Z.eqb_eq E2]%andb_true_iff E3%Z.leb_le]. subst next.
    split_and!; [|apply slice_limit; lia|lia|done|eapply map_fresh_extends; [lia|exact Hc|intros b Hb; by apply HL]].
    split_and!; [lia|lia|by apply Z.divide_add_r|]. intros b [->|Hb]%elem_of_cons; simpl; [split_and!; (lia || done)|].
    destruct (HL b) as (? & ? & ? & ?); [set_solver|]. split_and!; (lia || done).
  - intros next m L a len _ (Hn & Hd & HL) Hc. eexists tt, _. split; [reflexivity|]. split.
    + split_and!; [lia|lia|done|]. intros b Hb. apply HL. set_solver.
    + intros x. apply unmap_lookup.
Defined.

(** ** A run in a release build *)

#[local] Instance release : Build := {| debug_assertions := false |}.

Lemma release_fine : debug_assertions = true -> never_grows \/ exact.
Proof. discriminate. Qed.

Definition f0 : FlexTlsf Z := FlexTlsf_new START ∅.
Definition f1 : FlexTlsf Z := after (FlexTlsf_allocate (lay 40 8)) f0.
Definition f2 : FlexTlsf Z := after (FlexTlsf_allocate (lay 300 64)) f1.
Definition f3 : FlexTlsf Z := after (FlexTlsf_allocate (lay 1000 16)) f2.
Definition f4 : FlexTlsf Z := after (FlexTlsf_reallocate 4112 (lay 3000 8)) f3.

Strategy 100 [f0 f1 f2 f3 f4].

Definition fa1 : alloc := mkAlloc 4112 8 40.
Definition fa2 : alloc := mkAlloc 4224 64 300.
Definition fa3 : alloc := mkAlloc 4624 16 1000.
Definition fa4 : alloc := mkAlloc 5680 8 3000.

Ltac flex_run H c r := refine (flex_reach _ _ _ r _ H c _ _); [vm_compute; reflexivity|reflexivity].

Definition y0 : FlexSys Z := mkFlexSys f0 [].
Definition y1 : FlexSys Z := mkFlexSys f1 [fa1].
Definition y2 : FlexSys Z := mkFlexSys f2 [fa2; fa1].
Definition y3 : FlexSys Z := mkFlexSys f3 [fa3; fa2; fa1].
Definition y4 : FlexSys Z := mkFlexSys f4 [fa4; fa3; fa2].

Lemma bump_owns_start : Owns START [].
Proof. split_and!; [by vm_compute|by vm_compute|by exists 128|]. intros b []%not_elem_of_nil. Qed.

Lemma flex_reach0 : flex_reachable y0.
Proof. exists START. split; [apply bump_owns_start|apply rtc_refl]. Qed.

(** The first pool; it is grown; a second pool; the first allocation moves to
    a third one. *)
Lemma flex_reach1 : flex_reachable y1.
Proof.
  assert (Hl : layout_ok (lay 40 8)) by (apply (lay_ok 40 3); lia).
  flex_run flex_reach0 (fcall_allocate y0 _ Hl) (Some 4112).
Qed.

Lemma flex_reach2 : flex_reachable y2.
Proof.
  assert (Hl : layout_ok (lay 300 64)) by (apply (lay_ok 300 6); lia).
  flex_run flex_reach1 (fcall_allocate y1 _ Hl) (Some 4224).
Qed.

Lemma flex_reach3 : flex_reachable y3.
Proof.
  assert (Hl : layout_ok (lay 1000 16)) by (apply (lay_ok 1000 4); lia).
  flex_run flex_reach2 (fcall_allocate y2 _ Hl) (Some 4624).
Qed.

Lemma lay_3000 : layout_ok (lay 3000 8).
Proof. apply (lay_ok 3000 3); lia. Qed.

Lemma flex_reach4 : flex_reachable y4.
Proof.
  assert (Hp : flive y3 ≡ₚ fa1 :: [fa3; fa2]) by (simpl; solve_Permutation).
  flex_run flex_reach3 (fcall_reallocate y3 fa1 _ _ Hp lay_3000 eq_refl) (Some 5680).
Qed.

Lemma flex_run_inv : exists Ps L, FInv f3 Ps L /\ fa1 ∈ live Ps.
Proof.
  destruct (flex_reachable_inv release_fine y3 flex_reach3) as (Ps & L & HF & HL). exists Ps, L.
  split; [exact HF|]. rewrite HL. right. right. left.
Qed.

Example flex_run_pools :
  growable_pool f1 = Some (mkFlexPool 4096 96 96) /\
  growable_pool f2 = Some (mkFlexPool 4096 512 512) /\
  growable_pool f3 = Some (mkFlexPool 4608 1056 1056) /\
  growable_pool f4 = Some (mkFlexPool 5664 3104 3104) /\
  value (FlexTlsf_allocate (lay 9000 16)) f4 = Some None /\
  flex_mem (after FlexTlsf_drop f4) = ∅.
Proof. vm_compute. done. Qed.

Lemma flex_reachable_safe_witness :
  (exists r f', FlexTlsf_reallocate 4224 (lay 3000 64) f4 = Ok (r, f')) /\
  Forall (usable_alloc (flex_mem f4)) [fa4; fa3; fa2] /\ ForallOrdPairs apart [fa4; fa3; fa2].
Proof.
  destruct (flex_reachable_safe release_fine y4 flex_reach4) as (Hc & Hu & Ha).
  split; [|split; [exact Hu|exact Ha]].
  assert (Hp : flive y4 ≡ₚ fa2 :: [fa4; fa3]) by (simpl; solve_Permutation).
  assert (Hl : layout_ok (lay 3000 64)) by (apply (lay_ok 3000 6); lia).
  exact (Hc _ _ (fcall_reallocate y4 fa2 _ _ Hp Hl eq_refl)).
Defined.

Lemma FlexTlsf_allocate_witness :
  exists Ps L, FInv f3 Ps L /\ wp (FlexTlsf_allocate (lay 3000 8)) f3 (fun r f' =>
    match r with
    | Some ptr => flex_allocated f3 f' Ps (mkAlloc ptr 8 3000)
    | None => allocate (lay 3000 8) (flex_st f3) = Ok (None, flex_st f3) /\ exhausted (lay 3000 8) f3 (source f') /\
        growable_pool f' = growable_pool f3 /\ flex_st f' = flex_st f3 /\ FInv f' Ps L
    end).
Proof.
  destruct flex_run_inv as (Ps & L & HF & _). exists Ps, L. split; [exact HF|].
  exact (FlexTlsf_allocate_correct release_fine _ f3 Ps L HF lay_3000).
Defined.

Lemma FlexTlsf_reallocate_witness :
  exists Ps L, FInv f3 Ps L /\ wp (FlexTlsf_reallocate 4112 (lay 3000 8)) f3 (fun r f' =>
    match r with
    | Some ptr => flex_realloced f3 f' Ps fa1 (mkAlloc ptr 8 3000)
    | None => growable_pool f' = growable_pool f3 /\ flex_st f' = flex_st f3 /\ FInv f' Ps L
    end).
Proof.
  destruct flex_run_inv as (Ps & L & HF & Hin). exists Ps, L. split; [exact HF|].
  exact (FlexTlsf_reallocate_correct release_fine fa1 _ f3 Ps L HF Hin lay_3000 eq_refl).
Defined.

Lemma FlexTlsf_drop_witness :
  wp FlexTlsf_drop f4 (fun _ f' => Owns (source f') [] /\ covers (flex_mem f') []).
Proof. exact (FlexTlsf_drop_releases release_fine y4 flex_reach4). Defined.

(** ** A global allocator *)

Definition ga_bump_alloc (l : Layout) : M (Z * Mem) Z := fun '(next, m) =>
  let a := round_up (l_align l) next in
  if a + l_size l <=? LIMIT then Ok (a, (a + l_size l, map_fresh m a (l_size l))) else Ok (0, (next, m)).

#[local] Instance ga_bump : GlobalAlloc Z := {|
  ga_alloc := ga_bump_alloc;
  ga_dealloc := fun a l '(next, m) => Ok (tt, (next, unmap m a (l_size l)))
|}.

Definition ga_bump_held (next : Z) (H : list (Z * Layout)) : Prop :=
  START <= next /\ forall b, b ∈ H -> b.1 + l_size b.2 <= next.

#[local] Instance ga_bump_ok : GlobalAllocOk Z.
Proof.
  refine {| Held := ga_bump_held : Z -> list (Z * Layout) -> Prop |}.
  - intros next m H l (Hn & HH) Hc Hpos [_ (k & Hk & El)]. unfold wp, ga_alloc, ga_bump, ga_bump_alloc. rewrite El in *.
    pose proof (pow2_pos k). destruct (round_up_spec (2 ^ k) next) as [Hr Hd]; [lia|].
    assert (HL : forall b, b ∈ block_slices H -> b.1 + b.2 <= round_up (2 ^ k) next).
    { intros b (c & -> & Hb)%list_elem_of_fmap. specialize (HH c Hb). simpl. lia. }
    destruct (Z.leb_spec (round_up (2 ^ k) next + l_size l) LIMIT) as [Hle|]; eexists _, _; (split; [reflexivity|]); [right|by left].
    split_and!; [|apply slice_limit; lia|done|eapply map_fresh_extends; [lia|exact Hc|exact HL]].
    split; [lia|]. intros b [->|Hb]%elem_of_cons; simpl; [lia|]. specialize (HH b Hb). lia.
  - intros next m H a l (Hn & HH) Hc. eexists tt, _. split; [reflexivity|]. split.
    + split; [done|]. intros b Hb. apply HH. set_solver.
    + intros x. apply unmap_lookup.
Defined.

Lemma align_64 : exists k, 0 <= k < USIZE_BITS /\ 64 = 2 ^ k.
Proof. exists 6. split; [split; vm_compute; (discriminate || reflexivity)|done]. Qed.

(** Two allocations, the second in a pool of its own; a debug build. *)
Section OverGlobalAlloc.
#[local] Instance debug : Build := {| debug_assertions := true |}.
#[local] Instance src64 : FlexSource Z := GlobalAllocAsFlexSource 64.
#[local] Instance src64_ok : FlexSourceOk Z := GlobalAllocAsFlexSource_ok 64 align_64.

Definition g1 : FlexTlsf Z := after (FlexTlsf_allocate (lay 40 8)) f0.
Definition g2 : FlexTlsf Z := after (FlexTlsf_allocate (lay 300 64)) g1.
Strategy 100 [g1 g2].
Definition z0 : FlexSys Z := mkFlexSys f0 [].
Definition z1 : FlexSys Z := mkFlexSys g1 [fa1].
Definition z2 : FlexSys Z := mkFlexSys g2 [mkAlloc 4288 64 300; fa1].

Lemma over_reach2 : flex_reachable z2.
Proof.
  assert (H0 : flex_reachable z0).
  { exists START. split; [|apply rtc_refl]. split; [by vm_compute|]. intros b []%not_elem_of_nil. }
  assert (Hl1 : layout_ok (lay 40 8)) by (apply (lay_ok 40 3); lia).
  assert (Hl2 : layout_ok (lay 300 64)) by (apply (lay_ok 300 6); lia).
  assert (H1 : flex_reachable z1) by flex_run H0 (fcall_allocate z0 _ Hl1) (Some 4112).
  flex_run H1 (fcall_allocate z1 _ Hl2) (Some 4288).
Qed.

Lemma flex_over_global_alloc_witness :
  (exists r f', (FlexTlsf_deallocate 4112 8;; mret (None : option Z)) g2 = Ok (r, f')) /\
  wp FlexTlsf_drop g2 (fun _ f' => Held (source f') [] /\ flex_mem f' = ∅).
Proof.
  destruct (flex_over_global_alloc 64 align_64 z2 over_reach2) as [Hc Hd]. split; [|exact Hd].
  assert (Hp : flive z2 ≡ₚ fa1 :: [mkAlloc 4288 64 300]) by (simpl; solve_Permutation).
  exact (Hc _ _ (fcall_deallocate z2 fa1 _ Hp)).
Defined.
End OverGlobalAlloc.

(** ** Sources that show where the code and its comments disagree *)

(** A source whose allocations end anywhere, as [min_align() = 1] allows. *)
Definition ragged_alloc (n : Z) : M (Z * Mem) (option Slice) := fun '(next, m) =>
  Ok (Some (next, n + 5), (next + (n + 5), map_fresh m next (n + 5))).
Definition ragged_grow (b : Slice) (n : Z) : M (Z * Mem) (option Z) := fun '(next, m) =>
  Ok (Some (n + 5), (b.1 + (n + 5), map_fresh m next (n + 5 - b.2))).

Definition ragged : FlexSource Z := {|
  source_alloc := ragged_alloc;
  realloc_inplace_grow := ragged_grow;
  source_dealloc := default_dealloc;
  supports_dealloc := false;
  supports_realloc_inplace_grow := true;
  is_contiguous_growable := false;
  min_align := default_min_align
|}.

Definition two_allocs {B : Build} {FS : FlexSource Z} : M (FlexTlsf Z) (option Z) :=
  FlexTlsf_allocate (lay 40 8);; FlexTlsf_allocate (lay 300 64).

(** Growing the pool succeeds in a release build; in a debug build the
    subtraction in the last assertion of [increase_pool_to_contain_allocation]
    overflows, because bytes are left over behind the pool. *)
Example grow_assertion_reversed :
  value (two_allocs (B := release) (FS := ragged)) f0 = Some (Some 4288) /\
  two_allocs (B := debug) (FS := ragged) f0 = Fail Overflow.
Proof. vm_compute. done. Qed.

(** A source that can release memory and says that it cannot grow
    allocations; it panics when asked to. *)
Definition no_grow : FlexSource Z := {|
  source_alloc := bump_alloc;
  realloc_inplace_grow := fun _ _ => lift (Fail Panicked);
  source_dealloc := bump_dealloc;
  supports_dealloc := true;
  supports_realloc_inplace_grow := false;
  is_contiguous_growable := false;
  min_align := 32
|}.

(** [realloc_inplace_grow] is called all the same. *)
Example grow_called_although_unsupported :
  two_allocs (B := release) (FS := no_grow) f0 = Fail Panicked.
Proof. vm_compute. done. Qed.

(** A source whose [min_align] is the granularity and whose allocations have
    lengths that are no multiples of it. *)
Definition odd_length : FlexSource Z := {|
  source_alloc := ragged_alloc;
  realloc_inplace_grow := default_realloc_inplace_grow;
  source_dealloc := default_dealloc;
  supports_dealloc := false;
  supports_realloc_inplace_grow := false;
  is_contiguous_growable := false;
  min_align := 32
|}.

(** [insert_free_block_ptr_aligned] gets a length it asserts not to get. *)
Example unaligned_length_asserts : exists e, two_allocs (B := release) (FS := odd_length) f0 = Fail e.
Proof. eexists. vm_compute. reflexivity. Qed.
