(* ===== verification/GlobalExamples.v ===== *)
(** * Runs of [GlobalTlsf] and of the C functions

    A kernel and a WebAssembly machine that behave as documented, threads that
    share an allocator, a C program on the whole library, and the interleaving
    in which [allocation_usable_size], which does not lock, goes wrong. *)

From S2P Require Import Prelude Usize BinInteger SizeClass Machine Header FreeIndex Pool Region Alloc Dealloc Insert Realloc Iter System Flex FlexInv FlexGrow FlexSpec GlobalAlloc Sources Global Threads Override Examples FlexExamples.

#[local] Existing Instance target64.

Lemma bits_64 : 32 <= USIZE_BITS.
Proof. vm_compute. discriminate. Qed.

(** ** A kernel *)

Definition KERNEL_END : Z := 2 ^ 20.

(** The state is the next free address; pages have 4096 bytes. *)
Definition bump_mmap (addr len : Z) (fixed : bool) : M (Z * Mem) Z := fun '(next, m) =>
  if (0 <? len) && (next + len <=? KERNEL_END) then Ok (next, (next + len, map_fresh m next len))
  else Ok (Unix.MAP_FAILED, (next, m)).

Definition bump_munmap (addr len : Z) : M (Z * Mem) Z := fun '(next, m) =>
  if addr mod 4096 =? 0 then Ok (0, (next, unmap m addr len)) else Ok (-1, (next, m)).

#[local] Instance bump_kernel : Unix.Kernel Z :=
  {| Unix.sysconf_PAGESIZE := 4096; Unix.mmap := bump_mmap; Unix.munmap := bump_munmap |}.

Definition bump_maps (next : Z) (m : Mem) : Prop :=
  0 < next <= KERNEL_END /\ (4096 | next) /\ forall x, is_Some (m !! x) -> x < next.

#[local] Instance bump_kernel_ok : Unix.KernelOk Z.
Proof.
  refine {| Unix.Maps := bump_maps : Z -> Mem -> Prop |}.
  - intros k m m' Hd (H1 & H2 & H3). split_and!; [lia|lia|done|]. intros x Hx. by apply H3, Hd.
  - exists 12. split; [split; [lia|by vm_compute]|done].
  - intros next m addr len fixed (H1 & H2 & H3) [Hl _] Hp. unfold wp, Unix.mmap, bump_kernel, bump_mmap.
    destruct (_ && _) eqn:E; eexists _, _; (split; [reflexivity|]); [|split; [exact (conj H1 (conj H2 H3))|by left]].
    apply andb_true_iff in E as [E1%Z.ltb_lt E2%Z.leb_le]. pose proof (map_fresh_above m next len Hl H3) as Hx.
    split; [|right; split_and!; [|done|done|done]].
    + split_and!; [lia|lia|by apply Z.divide_add_r|]. intros x Hsx. destruct (decide (next <= x < next + len)) as [|Hout]; [lia|].
      rewrite (ext_old _ _ _ _ Hx x Hout) in Hsx. apply H3 in Hsx. lia.
    + split_and!; [lia|lia|]. etrans; [exact E2|]. vm_compute. discriminate.
  - intros next m0 m a len (H1 & H2 & H3) [Ho Hf Hm] Ha Hp. unfold wp, Unix.munmap, bump_kernel, bump_munmap.
    assert (Hz : (a mod 4096 =? 0) = true) by (apply Z.eqb_eq, Z.mod_divide; done). rewrite Hz.
    assert (Eu : unmap m a len = m0).
    { apply map_eq. intros x. rewrite unmap_lookup. case_decide as Hx; [by rewrite Hf|by rewrite Ho]. }
    eexists _, _. split; [reflexivity|]. split; [|done]. split_and!; [lia|lia|done|]. intros x. rewrite unmap_lookup.
    case_decide; [by intros []|apply H3].
  - intros next m a len Hk Ha. unfold wp, Unix.munmap, bump_kernel, bump_munmap.
    assert (Hz : (a mod 4096 =? 0) = false) by (apply Z.eqb_neq; intros E; apply Ha, Z.mod_divide; done). rewrite Hz.
    eexists _, _. split; [reflexivity|]. done.
Defined.

Definition KERNEL_START : Z := 65536.

Lemma bump_maps_start : Unix.Maps KERNEL_START ∅.
Proof. split_and!; [done|done|by exists 16|]. intros x [v Hv]. by rewrite lookup_empty in Hv. Qed.

#[local] Instance on_linux : Unix.TargetOs := {| Unix.linux := true |}.
#[local] Existing Instance DefaultOptions.

Definition src0 : Unix.Source Z := Unix.mkSource 0 KERNEL_START.

Lemma src0_owns : Unix.unix_owns src0 [].
Proof.
  split; [by left| |by intros b []%not_elem_of_nil]. intros m Hc. eapply Unix.Maps_dom; [|exact bump_maps_start].
  intros x. rewrite lookup_empty, (Hc x). split; [by intros []|by intros (b & []%not_elem_of_nil & _)].
Qed.

Lemma covers_nil : covers ∅ [].
Proof. intros x. rewrite lookup_empty. split; [by intros []|by intros (b & []%not_elem_of_nil & _)]. Qed.

Lemma unix_source_witness :
  wp (Unix.unix_alloc 100) (src0, ∅) (fun r '(src', m') =>
    match r with
    | Some (a, len) =>
        Unix.unix_owns src' [(a, len)] /\ slice a len /\ 100 <= len /\ (GRANULARITY | a) /\ (GRANULARITY | len) /\
        extends ∅ m' a len
    | None => Unix.unix_owns src' [] /\ m' = ∅
    end).
Proof.
  destruct (Unix.unix_source_correct bits_64 src0 ∅ [] src0_owns covers_nil) as [Ha _]. apply Ha. lia.
Defined.

(** The allocation is extended in place; a second one lies behind the first,
    which then cannot grow. *)
Example unix_run :
  value (Unix.unix_alloc 100) (src0, ∅) = Some (Some (65536, 65536)) /\
  value (Unix.unix_alloc 100;; Unix.unix_realloc_inplace_grow (65536, 65536) 70000) (src0, ∅) = Some (Some 131072) /\
  value (Unix.unix_alloc 100;; Unix.unix_alloc 100;; Unix.unix_realloc_inplace_grow (65536, 65536) 70000) (src0, ∅) = Some None.
Proof. vm_compute. done. Qed.

(** ** A WebAssembly machine *)

#[local] Instance bump_instructions : Wasm32.Instructions Z := {|
  Wasm32.memory_grow delta := fun '(pages, m) =>
    if pages + delta <=? 16
    then Ok (pages, (pages + delta, map_fresh m (pages * Wasm32.PAGE_SIZE) (delta * Wasm32.PAGE_SIZE)))
    else Ok (USIZE_MAX, (pages, m));
  Wasm32.memory_size := fun '(pages, m) => Ok (pages, (pages, m))
|}.

#[local] Instance bump_instructions_ok : Wasm32.InstructionsOk Z.
Proof.
  refine {| Wasm32.Pages := (fun w k => w = k /\ 0 <= k <= 16) : Z -> Z -> Prop |}.
  - intros w k [-> Hk]. lia.
  - intros w m k delta [-> Hk] Hb [Hd _]. unfold wp, Wasm32.memory_grow, bump_instructions.
    destruct (Z.leb_spec (k + delta) 16); eexists _, _; (split; [reflexivity|]); [right|by left].
    split_and!; [done|done|lia|lia|]. apply map_fresh_above; [pose proof Wasm32.PAGE_SIZE_eq; lia|done].
  - intros w m k [-> Hk]. by eexists _, _.
Defined.

Lemma wasm_source_witness :
  wp (Wasm32.wasm_realloc_inplace_grow (65536, 65536) 70000) (2, uninit 65536 (Z.to_nat 65536)) (fun r s =>
    r = None /\ s = (2, uninit 65536 (Z.to_nat 65536))).
Proof.
  assert (Ho : Wasm32.wasm_owns 2 [(65536, 65536)]).
  { exists 2. split_and!; [split; [done|lia]|lia|]. intros b ->%list_elem_of_singleton. by vm_compute. }
  assert (Hc : covers (uninit 65536 (Z.to_nat 65536)) [(65536, 65536)]).
  { intros x. rewrite uninit_lookup, Z2Nat.id by lia. split.
    - destruct (_ && _) eqn:E; [|by intros []]. intros _. exists (65536, 65536). split; [left|].
      apply andb_true_iff in E as [E1%Z.leb_le E2%Z.ltb_lt]. by split.
    - intros (b & ->%list_elem_of_singleton & H1 & H2). cbn [fst snd] in *.
      rewrite (proj2 (Z.leb_le _ _) H1), (proj2 (Z.ltb_lt _ _) H2). by eexists. }
  destruct (Wasm32.wasm_source_correct bits_64 2 _ _ Ho Hc) as [_ Hg]. by apply (Hg (65536, 65536) []).
Defined.

(** ** A mutex *)

#[local] Instance bool_pthread : Pthread := {|
  pthread_mutex_t := bool;
  PTHREAD_MUTEX_INITIALIZER := false;
  pthread_mutex_lock := fun locked => if locked then Fail Blocked else Ok (0, true);
  pthread_mutex_unlock := fun _ => Ok (0, false)
|}.

#[local] Instance bool_pthread_ok : PthreadOk.
Proof.
  refine {| pthread_locked := (fun b => b) : @pthread_mutex_t bool_pthread -> bool |}.
  - reflexivity.
  - intros [] [=]. by exists true.
  - by intros [] [=].
  - intros m _. by exists false.
Defined.

(** ** [GlobalTlsf] over the source of consecutive memory *)

Section Sequential.
#[local] Existing Instances params params_ok bump bump_ok release UnixMutex.
#[local] Existing Instance SmallGlobalTlsfOptions.

(** The allocator of the run of [FlexTlsf], with its three allocations. *)
Definition gl3 : GlobalTlsf Z := mkGlobal f3 false.

Lemma gl3_heap : GHeap gl3 [fa1; fa3; fa2].
Proof.
  destruct (flex_reachable_inv release_fine y3 flex_reach3) as (Ps & L & HF & HL). split; [done|]. exists Ps, L.
  split; [exact HF|]. rewrite HL. simpl. solve_Permutation.
Qed.

(** Without the specialised routine. *)
Lemma GlobalTlsf_realloc_witness :
  wp (GlobalTlsf_realloc 4112 (mkLayout 40 8) 3000) gl3 (fun p g' =>
    payload_kept gl3 g' [fa3; fa2] /\
    if decide (p = 0) then GHeap g' [fa1; fa3; fa2] /\ payload_kept gl3 g' [fa1]
    else GHeap g' [mkAlloc p 8 3000; fa3; fa2] /\
      forall i, 0 <= i < Z.min 40 3000 -> get_mem g' !! (p + i) = get_mem gl3 !! (4112 + i)).
Proof. exact (GlobalTlsf_realloc_correct release_fine gl3 [fa3; fa2] fa1 3000 gl3_heap lay_3000). Defined.

(** The alignment changes. *)
Lemma CAlloc_reallocate_witness :
  wp (CAlloc_reallocate 4112 (lay 300 64)) gl3 (fun r g' => payload_kept gl3 g' [fa3; fa2] /\
    match r with
    | Some ptr => GHeap g' [mkAlloc ptr 64 300; fa3; fa2] /\
        forall i, 0 <= i < Z.min 40 300 -> get_mem g' !! (ptr + i) = get_mem gl3 !! (4112 + i)
    | None => GHeap g' [fa1; fa3; fa2] /\ payload_kept gl3 g' [fa1]
    end).
Proof.
  assert (Hl : layout_ok (lay 300 64)) by (apply (lay_ok 300 6); lia).
  exact (CAlloc_reallocate_correct release_fine gl3 [fa3; fa2] fa1 _ gl3_heap Hl).
Defined.

(** *** Threads *)

Definition call40 : gcall := CallAlloc (lay 40 8).

(** Two threads call; the first is inside. *)
Definition c0 : Conc Z := conc_init 2 START.
Definition alloc40 : method (FlexTlsf Z) Z := Access (FlexTlsf_allocate (lay 40 8)) (fun r => Unlock (Return (null_or r))).
Definition c3 : Conc Z := mkConc (mkGlobal f0 true) [Running call40 alloc40; Running call40 (Lock alloc40)] [].

Lemma c3_reachable : conc_reachable c3.
Proof.
  exists 2%nat, START. split; [apply bump_owns_start|].
  assert (Hl : layout_ok (lay 40 8)) by (apply (lay_ok 40 3); lia).
  eapply rtc_l; [apply (conc_call c0 0%nat call40 []); [done|exact Hl|done]|].
  eapply rtc_l; [apply (conc_call _ 1%nat call40 []); [done|exact Hl|done]|].
  eapply rtc_l; [apply (conc_act _ 0%nat call40 (Lock alloc40) alloc40 (glob c3)); done|].
  apply rtc_refl.
Qed.

(** The first thread holds the mutex, its access returns and the second one is
    not about to use the allocator. *)
Lemma threads_safe_witness :
  (exists p g, act alloc40 (glob c3) = Ok (p, g)) /\
  (forall t c p, threads c3 !! t = Some (Running c p) -> locking c = true -> accessing p = true -> 0%nat = t) /\
  Forall (usable_alloc (get_mem (glob c3))) (held c3 ++ pending (threads c3)).
Proof.
  destruct (threads_safe release_fine c3 c3_reachable) as (Hr & Hb & Hu & _). split; [|split; [|exact Hu]].
  - destruct (Hb 0%nat call40 alloc40 eq_refl eq_refl eq_refl) as [_ Ha]. exact Ha.
  - intros t c p Ht Hl Ha. exact (Hr 0%nat t call40 c alloc40 p eq_refl Ht eq_refl Hl eq_refl Ha).
Defined.

(** The second thread waits for the first. *)
Lemma threads_progress_witness : exists y, rtc conc_step c3 y /\ threads y !! 1%nat = Some Idle.
Proof. exact (threads_progress release_fine c3 1%nat call40 (Lock alloc40) c3_reachable eq_refl eq_refl). Defined.

(** *** A C program *)

#[local] Instance linux_libc : Libc := {| sysconf_page_size := 4096; ENOMEM := 12; the_arch := x86_64 |}.
#[local] Instance linux_libc_ok : LibcOk.
Proof. split; [exists 12; split; [split; [lia|by vm_compute]|done]|done]. Qed.

#[local] Instance gl_calloc : CAllocOk (GlobalTlsf Z) := GlobalTlsf_CAlloc_ok release_fine.

Definition gl0 : GlobalTlsf Z := GlobalTlsf_new START.
Definition gl1 : GlobalTlsf Z := after (malloc 40) gl0.
Strategy 100 [gl0 gl1].

Lemma gl0_heap : Heap gl0 [].
Proof. apply GHeap_new, bump_owns_start. Qed.

Definition cs1 : CSys (GlobalTlsf Z) := mkCSys gl1 [mkAlloc 4112 16 40].

Lemma cs1_reachable : c_reachable cs1.
Proof.
  exists gl0. split; [apply gl0_heap|]. assert (Hs : is_usize 40) by by split.
  eapply rtc_l; [|apply rtc_refl].
  refine (cstep_call _ _ _ 4112 gl1 (ccall_request _ _ _ _ (req_malloc 40 Hs)) _). apply value_after. vm_compute. reflexivity.
Qed.

Lemma c_heap_safe_witness :
  (exists r g', realloc 4112 100 gl1 = Ok (r, g')) /\ (exists r g', calloc (2 ^ 40) (2 ^ 40) gl1 = Ok (r, g')) /\
  Forall (usable_alloc (get_mem gl1)) [mkAlloc 4112 16 40].
Proof.
  destruct (c_heap_safe cs1 cs1_reachable) as (Hc & Hu & _).
  assert (H1 : is_usize 100) by by split. assert (H2 : is_usize (2 ^ 40)) by (split; vm_compute; (discriminate || reflexivity)).
  assert (Hp : blocks cs1 ≡ₚ mkAlloc 4112 16 40 :: []) by done.
  split; [exact (Hc _ _ (ccall_realloc cs1 (mkAlloc 4112 16 40) [] 100 Hp H1))|].
  split; [exact (Hc _ _ (ccall_request cs1 _ _ _ (req_calloc _ _ H2 H2)))|exact Hu].
Defined.

Lemma calloc_witness :
  wp (calloc 10 8) gl0 (fun p g' =>
    obtained gl0 [] MIN_ALIGN (8 * 10) p g' /\ (p <> 0 -> zeroed (get_mem g') p (8 * 10)) /\
    (USIZE_MOD <= 8 * 10 -> p = 0)).
Proof. apply (calloc_correct gl0 [] 10 8 gl0_heap); by split. Defined.

(** What the functions return in the one state. *)
Example c_results :
  value (calloc 10 8) gl1 = Some 4208 /\
  value (calloc (2 ^ 40) (2 ^ 40)) gl1 = Some 0 /\
  value (aligned_alloc 3 10) gl1 = Some 0 /\
  value (malloc_usable_size 4112) gl1 = Some 48 /\
  value (posix_memalign 4112 64 100) gl1 = Some 0 /\
  value (posix_memalign 4112 64 100000) gl1 = Some 12 /\
  cpp_new_impl 100000 0 false gl1 = Fail Panicked.
Proof. vm_compute. done. Qed.

End Sequential.

(** ** The whole library *)

Section Library.
#[local] Existing Instances debug UnixMutex DefaultOptions linux_libc linux_libc_ok Unix.unix_source.

Definition lib0 : GlobalTlsf (Unix.Source Z) := ALLOC KERNEL_START.
Definition lib1 : GlobalTlsf (Unix.Source Z) := after (malloc 100) lib0.
Strategy 100 [lib0 lib1].
Definition lib_block : alloc := mkAlloc 65552 16 100.
Definition ls1 : CSys (GlobalTlsf (Unix.Source Z)) := mkCSys lib1 [lib_block].

Lemma lib_steps : rtc c_step (mkCSys lib0 []) ls1.
Proof.
  assert (Hs : is_usize 100) by by split. assert (E : value (malloc 100) lib0 = Some 65552) by (vm_compute; reflexivity).
  exact (rtc_l _ _ _ _ (cstep_call (mkCSys lib0 []) _ _ 65552 lib1
    (ccall_request _ _ _ _ (req_malloc 100 Hs)) (value_after (malloc 100) lib0 65552 E)) (rtc_refl _ _)).
Qed.

Lemma unix_malloc_witness :
  (exists r g', realloc 65552 (2 ^ 17) lib1 = Ok (r, g')) /\ Forall (usable_alloc (get_mem lib1)) [lib_block].
Proof.
  destruct (unix_malloc_safe bits_64 KERNEL_START ls1 bump_maps_start lib_steps) as (Hc & Hu & _).
  assert (Hs : is_usize (2 ^ 17)) by (split; vm_compute; (discriminate || reflexivity)).
  assert (Hp : blocks ls1 ≡ₚ lib_block :: []) by done.
  split; [exact (Hc _ _ (ccall_realloc ls1 lib_block [] (2 ^ 17) Hp Hs))|exact Hu].
Defined.
End Library.

(** ** [allocation_usable_size] without the lock *)

Section Race.
#[local] Existing Instances params params_ok bump bump_ok release UnixMutex SmallGlobalTlsfOptions.

Definition blk (ptr : Z) : alloc := mkAlloc ptr 8 40.
Definition big : alloc := mkAlloc 4112 8 1000.
Definition over : alloc := mkAlloc 4112 8 100.

(** Three blocks in a row, the first of which is free again. *)
Definition q1 : GlobalTlsf Z := after (run (gmethod (CallAlloc (lay 1000 8)))) (GlobalTlsf_new START).
Definition q2 : GlobalTlsf Z := after (run (gmethod (CallDealloc big))) q1.
Definition q3 : GlobalTlsf Z := after (run (gmethod (CallAlloc (lay 40 8)))) q2.
Definition q4 : GlobalTlsf Z := after (run (gmethod (CallAlloc (lay 40 8)))) q3.
Definition q5 : GlobalTlsf Z := after (run (gmethod (CallAlloc (lay 40 8)))) q4.
Definition q6 : GlobalTlsf Z := after (run (gmethod (CallDealloc (blk 4112)))) q5.

(** During a query for the third block: the second is freed and merged with the
    first, the merged block is allocated, and its client writes to it where
    the header of the second was. *)
Definition q7 : GlobalTlsf Z := after (run (gmethod (CallDealloc (blk 4176)))) q6.
Definition q8 : GlobalTlsf Z := after (run (gmethod (CallAlloc (lay 100 8)))) q7.
Definition written : Mem := match store_word (get_mem q8) 4160 1000 with Ok m => m | Fail _ => ∅ end.
Definition q9 : GlobalTlsf Z := put_mem q8 written.
Strategy 100 [q1 q2 q3 q4 q5 q6 q7 q8 q9].

(** The query after its first read in [q6], and after the next three in [q9]. *)
Definition rest (p : method (FlexTlsf Z) Z) (g : GlobalTlsf Z) : method (FlexTlsf Z) Z :=
  match act p g with Ok (p', _) => p' | Fail _ => p end.
Definition query : gcall := CallUsableSize (blk 4240).
Definition query1 := rest (gmethod query) q6.
Definition query2 := rest query1 q9.
Definition query3 := rest query2 q9.
Definition query4 := rest query3 q9.

Lemma lay_40 : layout_ok (lay 40 8).
Proof. apply (lay_ok 40 3); lia. Qed.

Lemma race_call (x : Conc Z) t c A r :
  threads x !! t = Some Idle -> gcall_ok c -> held x ≡ₚ takes c ++ A -> value (run (gmethod c)) (glob x) = Some r ->
  rtc conc_step x (mkConc (after (run (gmethod c)) (glob x)) (threads x) (gives c r ++ A)).
Proof. intros Ht Hok HA Hv. eapply call_steps; [exact Ht|exact Hok|exact HA|by apply value_after]. Qed.

Definition two (g : GlobalTlsf Z) (A : list alloc) : Conc Z := mkConc g [Idle; Idle] A.

(** The second thread alone. *)
Lemma race_prefix : rtc conc_step (conc_init 2 START) (two q6 [blk 4240; blk 4176]).
Proof.
  assert (Hb : layout_ok (lay 1000 8)) by (apply (lay_ok 1000 3); lia).
  assert (H1 : rtc conc_step (conc_init 2 START) (two q1 [big])).
  { refine (race_call (conc_init 2 START) 1%nat (CallAlloc (lay 1000 8)) [] 4112 eq_refl Hb _ _); [reflexivity|vm_compute; reflexivity]. }
  assert (H2 : rtc conc_step (two q1 [big]) (two q2 [])).
  { refine (race_call (two q1 [big]) 1%nat (CallDealloc big) [] 0 eq_refl I _ _); [reflexivity|vm_compute; reflexivity]. }
  assert (H3 : rtc conc_step (two q2 []) (two q3 [blk 4112])).
  { refine (race_call (two q2 []) 1%nat (CallAlloc (lay 40 8)) [] 4112 eq_refl lay_40 _ _); [reflexivity|vm_compute; reflexivity]. }
  assert (H4 : rtc conc_step (two q3 [blk 4112]) (two q4 [blk 4176; blk 4112])).
  { refine (race_call (two q3 [blk 4112]) 1%nat (CallAlloc (lay 40 8)) [blk 4112] 4176 eq_refl lay_40 _ _); [reflexivity|vm_compute; reflexivity]. }
  assert (H5 : rtc conc_step (two q4 [blk 4176; blk 4112]) (two q5 [blk 4240; blk 4176; blk 4112])).
  { refine (race_call (two q4 [blk 4176; blk 4112]) 1%nat (CallAlloc (lay 40 8)) [blk 4176; blk 4112] 4240 eq_refl lay_40 _ _);
      [reflexivity|vm_compute; reflexivity]. }
  assert (H6 : rtc conc_step (two q5 [blk 4240; blk 4176; blk 4112]) (two q6 [blk 4240; blk 4176])).
  { refine (race_call (two q5 [blk 4240; blk 4176; blk 4112]) 1%nat (CallDealloc (blk 4112)) [blk 4240; blk 4176] 0 eq_refl I _ _);
      [simpl; solve_Permutation|vm_compute; reflexivity]. }
  etrans; [exact H1|]. etrans; [exact H2|]. etrans; [exact H3|]. etrans; [exact H4|]. etrans; [exact H5|exact H6].
Qed.

(** A read keeps the state, and what follows it only reads. *)
Definition is_ok {A} (r : Res A) : bool := match r with Ok _ => true | Fail _ => false end.

Lemma act_rest p g : reads_only p -> is_ok (act p g) = true -> act p g = Ok (rest p g, g) /\ reads_only (rest p g).
Proof.
  destruct g as [f m], p as [r| | |X b k]; try done. simpl. unfold rest, act. cbn [inner mutex].
  intros [Hb Hk]. destruct (b f) as [[r f']|] eqn:E; [|done]. apply Hb in E as ->. done.
Qed.

Definition querying (g : GlobalTlsf Z) (p : method (FlexTlsf Z) Z) (A : list alloc) : Conc Z := mkConc g [Running query p; Idle] A.

Lemma query_step g p A :
  reads_only p -> is_ok (act p g) = true -> rtc conc_step (querying g p A) (querying g (rest p g) A) /\ reads_only (rest p g).
Proof.
  intros Hp Hok. destruct (act_rest p g Hp Hok) as [Ha Hr]. split; [|exact Hr].
  apply rtc_once. exact (conc_act (querying g p A) 0%nat query p (rest p g) g eq_refl Ha).
Qed.

(** The query starts; the second thread goes on. *)
Lemma query1_reads : reads_only query1.
Proof.
  assert (Hok : is_ok (act (gmethod query) q6) = true) by (vm_compute; reflexivity).
  unfold query1. exact (proj2 (query_step q6 (gmethod query) [] (usable_size_reads_only 4240) Hok)).
Qed.

Lemma race_middle : rtc conc_step (conc_init 2 START) (querying q8 query1 [over]).
Proof.
  assert (Hl : layout_ok (lay 100 8)) by (apply (lay_ok 100 3); lia).
  assert (Hc : rtc conc_step (two q6 [blk 4240; blk 4176]) (querying q6 (gmethod query) [blk 4176])).
  { apply rtc_once. exact (conc_call (two q6 [blk 4240; blk 4176]) 0%nat query [blk 4176] eq_refl I (Permutation_refl _)). }
  destruct (query_step q6 (gmethod query) [blk 4176]) as [H1 _]; [apply usable_size_reads_only|vm_compute; reflexivity|].
  assert (H2 : rtc conc_step (querying q6 query1 [blk 4176]) (querying q7 query1 [])).
  { refine (race_call (querying q6 query1 [blk 4176]) 1%nat (CallDealloc (blk 4176)) [] 0 eq_refl I _ _); [reflexivity|vm_compute; reflexivity]. }
  assert (H3 : rtc conc_step (querying q7 query1 []) (querying q8 query1 [over])).
  { refine (race_call (querying q7 query1 []) 1%nat (CallAlloc (lay 100 8)) [] 4112 eq_refl Hl _ _); [reflexivity|vm_compute; reflexivity]. }
  etrans; [exact race_prefix|]. etrans; [exact Hc|]. etrans; [exact H1|]. etrans; [exact H2|exact H3].
Qed.

(** The allocations in a state with the query. *)
Lemma querying_usable g p A :
  rtc conc_step (conc_init 2 START) (querying g p A) -> thread_allocs (Running query p) = [blk 4240] ->
  Forall (usable_alloc (get_mem g)) (A ++ [blk 4240]).
Proof.
  intros Hr Hp. assert (Hc : conc_reachable (querying g p A)) by (exists 2%nat, START; split; [apply bump_owns_start|exact Hr]).
  destruct (conc_reachable_inv release_fine _ Hc) as [(Ps & L & HF & HL) _ _].
  pose proof (live_usable _ _ (fi_inv _ _ _ HF)) as Hu. rewrite HL in Hu. unfold pending in Hu. cbn in Hu. cbn in Hp.
  by rewrite Hp in Hu.
Qed.

(** The client of the new block writes to it. *)
Lemma race_write : rtc conc_step (querying q8 query1 [over]) (querying q9 query1 [over]).
Proof.
  assert (Hq : thread_allocs (Running query query1) = [blk 4240]) by (vm_compute; reflexivity).
  pose proof (querying_usable q8 query1 [over] race_middle Hq) as [[_ _ _ _ Hm] _]%Forall_cons.
  change (mapped (get_mem q8) 4112 100) in Hm.
  destruct (store_word_ok (get_mem q8) 4160 1000) as (m' & E & Hs & _);
    [eapply mapped_sub; [exact Hm|vm_compute; discriminate|vm_compute; discriminate]|by split|].
  assert (Ew : written = m') by (unfold written; by rewrite E). unfold q9. rewrite Ew.
  apply rtc_once, (conc_write (querying q8 query1 [over]) over); [left|]. eapply mem_step_weaken; [exact Hs|].
  intros x Hx. unfold in_word, payload in *. change WORD with 8 in Hx. simpl. lia.
Qed.

(** The query goes on. *)
Lemma race_steps : rtc conc_step (conc_init 2 START) (querying q9 query4 [over]).
Proof.
  destruct (query_step q9 query1 [over] query1_reads) as [H4 Hp2]; [vm_compute; reflexivity|].
  destruct (query_step q9 query2 [over] Hp2) as [H5 Hp3]; [vm_compute; reflexivity|].
  destruct (query_step q9 query3 [over] Hp3) as [H6 _]; [vm_compute; reflexivity|].
  etrans; [exact race_middle|]. etrans; [exact race_write|]. etrans; [exact H4|]. etrans; [exact H5|exact H6].
Qed.

(** In the state [x] the thread [t] is in a query for the allocation [al], which
    is live.  The next access of the query fails, although the whole query,
    run alone from [x], would return the size [n]. *)
Definition query_fails (x : Conc Z) (t : nat) (al : alloc) (n : Z) : Prop :=
  exists p, threads x !! t = Some (Running (CallUsableSize al) p) /\
    usable_alloc (get_mem (glob x)) al /\
    act p (glob x) = Fail Overflow /\
    value (run (usable_size_method (a_ptr al))) (glob x) = Some n.

(** C20: [allocation_usable_size] is not safe in the threads of [GlobalTlsf],
    since it is the one method that does not lock.  There is a reachable state
    in which a thread is in such a call, for an allocation that is live and
    that the call has held since it began, and the next access of the call
    fails: between its reads other threads, within their rights, freed,
    allocated and wrote to the block before, so that it took bytes of a
    payload for a header and a subtraction of addresses overflows.  The same
    call would return the right size from that state, run alone. *)
Theorem usable_size_race :
  exists x t al, conc_reachable x /\ query_fails x t al 48.
Proof.
  exists (querying q9 query4 [over]), 0%nat, (blk 4240). split.
  - exists 2%nat, START. split; [apply bump_owns_start|exact race_steps].
  - exists query4. split; [reflexivity|split; [|split; vm_compute; reflexivity]].
    assert (Hq : thread_allocs (Running query query4) = [blk 4240]) by (vm_compute; reflexivity).
    pose proof (querying_usable q9 query4 [over] race_steps Hq) as [_ [Hu _]%Forall_cons]%Forall_cons. exact Hu.
Qed.
End Race.
